(* ===== verification/_CoqProject ===== *)
-Q . S2P
Prelude.v
Floats.v
PagedList.v
Ids.v
Tracks.v
TracksProps.v
TracksClaims.v
Loader.v
StatePush.v
Source.v
SourceProps.v
SourceClaims.v
Narration.v
NarrationClaims.v
Chunked.v
ChunkedRefine.v
Audio.v
Cache.v
CacheClaims.v
OutputLoop.v
OutputClaims.v
Conn.v
Mercury.v
Dealer.v
DealerClaims.v
Hashcash.v
Service.v
ServiceClaims.v
Library.v
LibraryClaims.v
Resolve.v
MetaCache.v
MetaCacheClaims.v
PlayerState.v
Resume.v
StreamLoad.v
StreamClaims.v
Requests.v
QueueIds.v
Contexts.v
ContextClaims.v
ContextStart.v
StartClaims.v
Controls.v
Transfer.v
Loop.v
ControlsProps.v
ControlsFuel.v
ControlsClaims.v
TransferClaims.v
ApiClaims.v
Volume.v
VorbisMeta.v
VorbisMetaClaims.v
Vorbis.v
VorbisClaims.v
Decoders.v
DecoderClaims.v
TailClaims.v
Drivers.v
DriverClaims.v
Blob.v
BlobClaims.v
Accesspoint.v
AccesspointClaims.v
Sessions.v
SessionClaims.v
ApiServer.v
ApiServerClaims.v
StateStore.v
StateStoreClaims.v
ApLoop.v
ApLoopClaims.v
