(* ===== verification/Prelude.v ===== *)
(** * go-librespot: a verification library for a Spotify Connect player

    ** The program

    go-librespot is a Spotify Connect device.  It logs in to an accesspoint
    ([src/ap], [src/login5], [src/apresolve]), listens on a dealer websocket for
    commands of other devices ([src/dealer]), and runs one goroutine, the
    player loop ([src/daemon/player.go], [controls.go]), that owns the state
    reported to the backend ([player_state.go], [statepush.go]).  The loop never
    blocks on the network: contexts are resolved and tracks are loaded on the
    loader lane ([loader.go]), whose results come back to the loop and are
    discarded when a newer decision has superseded them.  What to play is the
    track list of a context ([src/tracks]), lazily paged, shuffled, with a queue
    on top.  A loaded track is a file fetched in ranges ([src/audio], cached by
    [src/cache]), decrypted, decoded ([src/vorbis], [src/flac], [src/mp3]), and
    played through a source that switches
    and crossfades between two tracks ([src/player/source.go]), which the output
    loop ([src/player/player.go]) hands to a driver ([src/output]).  Sessions are
    started, replaced and ended as users log in from the network
    ([src/zeroconf], [src/daemon/app.go]), and a local API
    ([src/daemon/api_server.go]) serves requests and events.  Everything asked of the
    backend goes through one client ([src/spclient]) with access tokens from the
    login ([src/login5]).

    ** Files, in the order they are compiled

    Shared:
    - [Prelude]: errors, results, the [run] monad ([Ret], [Panic],
      [OutOfFuel]), machine integers, lists indexed by [Z], reachability,
      tactics.

    What to play:
    - [PagedList] ([tracks/paged-list.go]); [Tracks] ([tracks/tracks.go],
      [utils.go]), with its invariant and lemmas in [TracksProps] and its
      theorems in [TracksClaims]; [Ids] ([ids.go]).  A context resolver is the
      class [PageResolver]; the random generator is a class; metadata maps live
      in an explicit heap so that aliasing can be stated.

    Work off the loop:
    - [Loader] ([daemon/loader.go]): the lane as functions on its state and as a
      step relation of its goroutines; generations that supersede results.
    - [StatePush] ([daemon/statepush.go], [player_state.go]): the lane that
      reports the state, its rate limit and back-off.

    Audio:
    - [Source], [SourceProps], [SourceClaims] ([player/source.go]): samples and
      float operations are a class.
    - [Narration], [NarrationClaims] ([player/narration.go],
      [daemon/narration.go]): a source made of sources, an instance of the class
      [Source] is written against.
    - [Chunked], [ChunkedRefine] ([audio/chunked-reader.go]); [Audio]
      ([decryptor.go], [provider.go], statistics): [AES] is a parameter.
    - [Cache], [CacheClaims] ([cache/cache.go], [limiter.go]) over an explicit
      disk.
    - [OutputLoop], [OutputClaims] ([player/player.go], [manageLoop]): the
      goroutine that owns the output device, over [Source].
    - [StreamLoad], [StreamClaims] ([player/player.go] [NewStream], [format.go],
      [restriction.go]): choosing, opening and decoding a file, in a monad of
      effects that may fail.
    - [Floats]: binary floating point numbers as scaled integers, their
      rounding and their conversion to integers.
    - [VorbisMeta], [VorbisMetaClaims] ([vorbis/metadata.go]); [Vorbis],
      [VorbisClaims] ([vorbis/decoder.go]); [Decoders], [DecoderClaims]
      ([flac/decoder.go], [mp3/decoder.go]); [TailClaims], the decoder under the
      source.  The codec libraries are classes with laws.
    - [Drivers], [DriverClaims] ([output]): a Module per driver, the goroutines
      of each interleaved with its user's calls.

    Services:
    - [Conn] ([ap/conn.go], [shannon.go], [ap.go]), the Shannon cipher being a
      class; [Mercury] ([mercury/client.go]); [Hashcash] ([login5/hashcash.go])
      over any hash; [Resolve] ([apresolve]).
    - [Blob], [BlobClaims] ([dh], [ConnectBlob] of [ap.go], [handleAddUser] of
      [zeroconf.go]): the credentials a phone hands over, hashes and [AES] being
      a class; [Accesspoint], [AccesspointClaims] ([ap.go]): key exchange, login
      and retries over [Conn]; [ApLoop], [ApLoopClaims]: the receive loop, its
      receivers and reconnections.
    - [Dealer], [DealerClaims] ([dealer]): the goroutines of the websocket as
      steps of a schedule.
    - [Service], [ServiceClaims] ([spclient/spclient.go], [login5/login5.go]):
      requests, tokens, logins and the connect state, over the class [Retry]
      whose laws are those of the retry package; [Resume]
      ([spclient/resumption.go], [daemon/resume.go], [playback_error.go]).
    - [Library], [LibraryClaims] ([spclient/library_write.go], [rootlist.go],
      [daemon/library.go], [library_collections.go], [liked.go]) over [Service].
    - [Contexts], [ContextClaims] ([spclient/context_resolver.go],
      [playlist_context.go]): the resolver behind the class [PageResolver].
    - [MetaCache], [MetaCacheClaims] ([daemon/track_meta_cache.go]) over an LRU
      class.

    The player loop:
    - [PlayerState]: the reported state and the rest of the loop's state;
      [Requests]: contexts, commands and requests; [QueueIds]: ids of queued
      tracks.
    - [Controls]: the handlers of [controls.go]; [Transfer]: taking over a
      session; [ContextStart]: building the list of a context on the lane, over
      [Tracks]; [Loop]: dispatch of commands, requests, player events and job
      results, and the loop itself.
    - [ControlsProps]: invariants every handler keeps; [ControlsFuel]: the
      continuations return; [ControlsClaims], [TransferClaims], [StartClaims],
      [ApiClaims]: theorems.
    - [Volume]: volumes and their conversions.

    Around the loop:
    - [Sessions], [SessionClaims] ([daemon/app.go], [zeroconf.go]): the
      goroutines that install and end sessions.
    - [ApiServer], [ApiServerClaims] ([daemon/api_server.go]): listeners, the
      statuses of answers, and the requests' checks.
    - [StateStore], [StateStoreClaims] ([cmd/daemon/file_state_store.go],
      [daemon/app.go]): the state on disk.

    ** How the model corresponds to the code

    A Go function is a Rocq function of the same name on explicit state.  An
    error is a value of [error]; a call that can panic or loop is in [run].  A
    [then] closure handed to the loader lane is a value of [Then] interpreted
    by [call_then]; a job is data, and its result an event of the loop.  What
    the loop reads from outside (the clock, the output's position, results of
    commands) is the record [Env].  Goroutines are interleaved by step relations
    ([Loader.lane_step], [StatePush.push_step], [Chunked.fetch_step]) or by a
    list of labels ([Dealer.dealer_step], [OutputLoop.manage_step],
    [Sessions.step], [ApLoop.ap_step], and the [step] of each driver).  Integers
    are [Z] with wrap-around written out ([u32], [i64], ...) where the code's
    width can matter.

    ** What the theorems show

    - Track list: every sequence of commands returns and keeps the list well
      formed; shuffling and unshuffling is the identity; walks over pages end;
      the published window is bounded; a snapshot shares no memory.
    - Lanes: every job is answered exactly once and pushes stay in order, for
      all interleavings; a state update reaches the lane.
    - Loop: a superseded decision changes nothing; a load lands paused or
      playing as last asked; stopping discards loads; a run of unplayable tracks
      is bounded; every handler returns within its fuel.
    - Transfers: a continuation keeps its stream; a failed claim is taken back;
      stale clusters are ignored; queue ids stay unique; a context start ends
      with a list on the track asked for.
    - Audio: a track plays out in full, gaplessly, and a crossfade is the
      pointwise mix; [ChunkedRefine] proves the ranged download a refinement of
      a file with a cursor; decryption serves the plain text; the clips around a
      narrated track and the track are heard one after the other; a stream that
      loads is of the track asked for or an allowed alternative, and one that
      fails leaves nothing open; the output device follows the commands, failed
      devices are dropped, and events carry the stream they are about.
    - Decoders: a read returns, and what it gives and keeps is what was decoded,
      in order; a metadata page is read as it was written and seeks are monotone
      in it; constructors that fail give back their memory.
    - Drivers: the pipe gets what the source gave, under the volume, and nothing
      else; samples fit their width; an ALSA device is used only while it is
      open, and its mixer set within its range.
    - Accesspoint: an honest server and the client agree on keys in both
      directions and the login succeeds; credentials sealed by a phone come out
      as they went in; dialling is bounded; receivers get packets in order and
      are closed once.
    - Sessions: a session that is replaced is closed, whatever the interleaving;
      every API request is answered or delivered once and never waits on a
      session that is gone; users log in one at a time.  A save of the state is
      atomic and the last one asked for is made.  Listeners get events in order,
      the newest always among them.
    - Services: packets arrive in order through the cipher; Mercury and key
      requests are accounted for; the proof of work finds the first solution;
      the dealer implements a server that handles one frame at a time and does
      not panic before it has closed its receivers; a request is repeated only
      when that is safe, under a token that is current; a refused state is not
      sent again; a context's pages refine an array and a playlist is read in
      full; a change to a playlist is applied at most once, to the contents it
      was based on; folders are listed as they are nested; a
      listing that predates a change is never served; the cache agrees with the
      disk and evicts the least recently used.
    - Some theorems state behaviour the code should not have (a local file that
      blocks player events, a failed autoplay that misreports, a pause that is
      overridden, a D-Bus path that panics, a lane that closes on waiting
      results, a dealer that sends on a closed channel, a refusal that is sent
      again, a decoder that is left open, the last page of a Vorbis file that is
      never heard, a seek that plays stale samples, drivers that stay open,
      overflow or play silence, a blob that crashes the login, a logout that
      ends another user's session).

    ** Fuel

    Structural recursion is used wherever the code's loop has a bound.  A walk
    over a context is bounded by its pages only through the resolver's answers:
    such functions take fuel, and their theorems say that some fuel gives the
    result (and more fuel the same one).  Continuations of the loop get
    [then_fuel], four times the size of the continuation plus four, proved
    enough in [ControlsFuel].  [ReadAt] gets one round per remaining chunk, a
    narrated read one per remaining part, a playlist the fifty pages the code
    allows.  The search of [Hashcash] takes fuel; [Service] passes it through.
    The read loops of the decoders take fuel, and their theorems give the amount
    from what the codec has pending, a measure its laws decrease.  The blocks of
    a blob are decrypted with one more than its length, a variable-length integer
    is read with its ten bytes.

    ** Not modelled

    Generated code (protobufs, [api_gen.go], mocks) and the vendored pulse
    client.  The codecs, ciphers and hashes themselves, HTTP and websocket
    exchanges, gzip, JSON and protobuf encodings, which are parameters or
    classes.  Platform services the sources only call: D-Bus and MPRIS, mDNS
    registration, the AudioToolbox driver, the set-up of PulseAudio and WASAPI,
    the thread that watches an ALSA mixer.  Interactive logins, client tokens
    and the construction of a session from its services; flags and configuration
    files; logging and telemetry; the routes of the API, the builders of its
    responses and the presentation of metadata.  In the source, floating point
    rounding is abstracted by a class; in the drivers and the seek table it is
    that of [Floats], on finite numbers. *)

From stdpp Require Export prelude gmap strings list fin_maps.
From Stdlib Require Export ZifyBool.

#[global] Open Scope Z_scope.

(** ** Go errors

    An [error] is either a sentinel value ([io.EOF], [net.ErrClosed], ...), a
    leaf built by [fmt.Errorf]/[errors.New] without a wrapped cause, or a
    [fmt.Errorf] with a [%w] verb, which keeps its cause.  Only the constant
    part of a format string is kept: the formatted arguments never influence
    control flow. *)
Inductive error : Type :=
| ESentinel (name : string)
| EMsg (msg : string)
| EWrap (msg : string) (cause : error).

#[export] Instance error_eq_dec : EqDecision error.
Proof. solve_decision. Defined.

Definition io_EOF : error := ESentinel "io.EOF".
Definition io_ErrUnexpectedEOF : error := ESentinel "io.ErrUnexpectedEOF".
Definition net_ErrClosed : error := ESentinel "net.ErrClosed".
Definition context_Canceled : error := ESentinel "context.Canceled".
Definition context_DeadlineExceeded : error := ESentinel "context.DeadlineExceeded".

(** [errors.Is]: the target, or an error wrapping it at any depth. *)
Fixpoint errors_Is (e target : error) : bool :=
  bool_decide (e = target) ||
  match e with
  | EWrap _ c => errors_Is c target
  | _ => false
  end.

(** [err != nil && errors.Is(err, target)] on Go's nilable [error]. *)
Definition opt_Is (e : option error) (target : error) : bool :=
  match e with Some e => errors_Is e target | None => false end.

(** A Go call that returns either a value or a non-nil error. *)
Inductive result (A : Type) : Type :=
| Ok (a : A)
| Err (e : error).
Arguments Ok {A} a.
Arguments Err {A} e.

(** ** Runs: calls that may panic

    [Ret] is a normal return, [Panic] a Go run-time panic (explicit or an
    out-of-range index) and [OutOfFuel] marks a bounded loop that was cut
    short; every loop has a theorem saying when the last case is impossible. *)
Inductive run (A : Type) : Type :=
| Ret (a : A)
| Panic (why : string)
| OutOfFuel.
Arguments Ret {A} a.
Arguments Panic {A} why.
Arguments OutOfFuel {A}.

#[export] Instance run_ret : MRet run := fun A a => Ret a.
#[export] Instance run_bind : MBind run := fun A B f m =>
  match m with
  | Ret a => f a
  | Panic w => Panic w
  | OutOfFuel => OutOfFuel
  end.

Lemma run_bind_Ret {A B} (f : A -> run B) (a : A) : (Ret a ≫= f) = f a.
Proof. reflexivity. Qed.

Lemma run_bind_inv {A B} (m : run A) (f : A -> run B) (b : B) :
  (m ≫= f) = Ret b -> exists a, m = Ret a /\ f a = Ret b.
Proof. destruct m; simpl; try discriminate; eauto. Qed.

Lemma run_bind_assoc {A B C} (m : run A) (f : A -> run B) (g : B -> run C) :
  ((m ≫= f) ≫= g) = (m ≫= fun a => f a ≫= g).
Proof. by destruct m. Qed.

(** [returns m]: the call comes back with a value: no panic, no lost loop. *)
Definition returns {A} (m : run A) : Prop := exists a, m = Ret a.

(** ** Machine integers *)
Definition wrap (w : Z) (z : Z) : Z := z `mod` 2 ^ w.
Definition u8 (z : Z) : Z := wrap 8 z.
Definition u16 (z : Z) : Z := wrap 16 z.
Definition u32 (z : Z) : Z := wrap 32 z.
Definition u64 (z : Z) : Z := wrap 64 z.
(** Two's complement reading of the low [w] bits. *)
Definition swrap (w : Z) (z : Z) : Z := wrap w (z + 2 ^ (w - 1)) - 2 ^ (w - 1).
Definition i32 (z : Z) : Z := swrap 32 z.
Definition i64 (z : Z) : Z := swrap 64 z.

Lemma wrap_bound w z : 0 <= w -> 0 <= wrap w z < 2 ^ w.
Proof. intros. apply Z.mod_pos_bound. lia. Qed.

Lemma wrap_small w z : 0 <= z < 2 ^ w -> wrap w z = z.
Proof. intros. by apply Z.mod_small. Qed.

Lemma wrap_wrap w z : 0 <= w -> wrap w (wrap w z) = wrap w z.
Proof. intros. by apply wrap_small, wrap_bound. Qed.

(** ** Slices: indexing with Go [int]s *)
Definition zlen {A} (l : list A) : Z := Z.of_nat (length l).

(** [l[i]]: [None] when Go panics with an index out of range. *)
Definition nthZ {A} (l : list A) (i : Z) : option A :=
  if decide (0 <= i) then l !! Z.to_nat i else None.

(** [l[i] = x] for an index already known to be in range. *)
Definition setZ {A} (l : list A) (i : Z) (x : A) : list A :=
  if decide (0 <= i) then <[Z.to_nat i := x]> l else l.

(** [l[:n]] and [l[n:]] for [0 <= n <= len(l)]. *)
Definition takeZ {A} (n : Z) (l : list A) : list A := take (Z.to_nat n) l.
Definition dropZ {A} (n : Z) (l : list A) : list A := drop (Z.to_nat n) l.

(** [l[a:b]] for [0 <= a <= b <= len(l)]. *)
Definition sliceZ {A} (a b : Z) (l : list A) : list A := takeZ (b - a) (dropZ a l).

(** Reading an index, panicking when out of range. *)
Definition index {A} (l : list A) (i : Z) : run A :=
  match nthZ l i with
  | Some x => Ret x
  | None => Panic "index out of range"
  end.

Section zlists.
Context {A : Type}.
Implicit Types (l k : list A) (i j n : Z) (x : A).

Lemma zlen_nonneg l : 0 <= zlen l.
Proof. unfold zlen; lia. Qed.
Lemma zlen_nil : zlen (@nil A) = 0.
Proof. reflexivity. Qed.
Lemma zlen_cons x l : zlen (x :: l) = 1 + zlen l.
Proof. unfold zlen; simpl; lia. Qed.
Lemma zlen_app l k : zlen (l ++ k) = zlen l + zlen k.
Proof. unfold zlen; rewrite length_app; lia. Qed.
Lemma zlen_setZ l i x : zlen (setZ l i x) = zlen l.
Proof. unfold zlen, setZ; case_decide; by rewrite ?length_insert. Qed.
Lemma zlen_takeZ n l : zlen (takeZ n l) = Z.max 0 (Z.min n (zlen l)).
Proof. unfold zlen, takeZ; rewrite length_take; lia. Qed.
Lemma zlen_dropZ n l : zlen (dropZ n l) = zlen l - Z.max 0 (Z.min n (zlen l)).
Proof. unfold zlen, dropZ; rewrite length_drop; lia. Qed.
Lemma zlen_0 l : zlen l = 0 -> l = [].
Proof. unfold zlen; destruct l; simpl; [done | lia]. Qed.
Lemma zlen_reverse l : zlen (reverse l) = zlen l.
Proof. unfold zlen; by rewrite length_reverse. Qed.

Lemma nthZ_Some_lt l i x : nthZ l i = Some x -> 0 <= i < zlen l.
Proof.
  unfold nthZ, zlen; case_decide; [|done].
  intros Hx%lookup_lt_Some; lia.
Qed.
Lemma nthZ_lt l i : 0 <= i < zlen l -> exists x, nthZ l i = Some x.
Proof.
  unfold nthZ, zlen; intros; case_decide; [|lia].
  apply lookup_lt_is_Some_2; lia.
Qed.
Lemma nthZ_out l i : ~ (0 <= i < zlen l) -> nthZ l i = None.
Proof.
  destruct (nthZ l i) eqn:E; [|done].
  apply nthZ_Some_lt in E; tauto.
Qed.
Lemma nthZ_app_l l k i : i < zlen l -> nthZ (l ++ k) i = nthZ l i.
Proof.
  unfold nthZ, zlen; intros; case_decide; [|done].
  apply lookup_app_l; lia.
Qed.
Lemma nthZ_app_r l k i : zlen l <= i -> nthZ (l ++ k) i = nthZ k (i - zlen l).
Proof.
  unfold nthZ, zlen; intros; rewrite !decide_True by lia.
  rewrite lookup_app_r by lia; f_equal; lia.
Qed.
Lemma nthZ_setZ_eq l i x : 0 <= i < zlen l -> nthZ (setZ l i x) i = Some x.
Proof.
  unfold nthZ, setZ, zlen; intros; rewrite !decide_True by lia.
  apply list_lookup_insert_eq; lia.
Qed.
Lemma nthZ_setZ_ne l i j x : i <> j -> nthZ (setZ l i x) j = nthZ l j.
Proof.
  unfold nthZ, setZ; intros; repeat case_decide; try done.
  apply list_lookup_insert_ne; lia.
Qed.
Lemma nthZ_cons_0 x l : nthZ (x :: l) 0 = Some x.
Proof. reflexivity. Qed.
Lemma nthZ_dropZ l n i : 0 <= n -> 0 <= i -> nthZ (dropZ n l) i = nthZ l (n + i).
Proof.
  unfold nthZ, dropZ; intros; rewrite !decide_True by lia.
  rewrite lookup_drop; f_equal; lia.
Qed.
Lemma nthZ_takeZ l n i : i < n -> nthZ (takeZ n l) i = nthZ l i.
Proof.
  unfold nthZ, takeZ; intros; case_decide; [|done].
  apply lookup_take_lt; lia.
Qed.
Lemma nthZ_In l i x : nthZ l i = Some x -> x ∈ l.
Proof.
  unfold nthZ; case_decide; [|done]. apply list_elem_of_lookup_2.
Qed.
Lemma nthZ_ext l k : (forall i, nthZ l i = nthZ k i) -> l = k.
Proof.
  intros H; apply list_eq; intros i.
  specialize (H (Z.of_nat i)); unfold nthZ in H.
  by rewrite !decide_True, Nat2Z.id in H by lia.
Qed.
Lemma takeZ_dropZ n l : takeZ n l ++ dropZ n l = l.
Proof. apply take_drop. Qed.
Lemma takeZ_all n l : zlen l <= n -> takeZ n l = l.
Proof. unfold takeZ, zlen; intros; apply take_ge; lia. Qed.
Lemma dropZ_all n l : zlen l <= n -> dropZ n l = [].
Proof. unfold dropZ, zlen; intros; apply drop_ge; lia. Qed.
Lemma dropZ_dropZ n m l : 0 <= n -> 0 <= m -> dropZ n (dropZ m l) = dropZ (m + n) l.
Proof. unfold dropZ; intros; rewrite drop_drop; f_equal; lia. Qed.
Lemma takeZ_app_le n l k : n <= zlen l -> takeZ n (l ++ k) = takeZ n l.
Proof. unfold takeZ, zlen; intros; apply take_app_le; lia. Qed.
Lemma dropZ_app_le n l k : n <= zlen l -> dropZ n (l ++ k) = dropZ n l ++ k.
Proof. unfold dropZ, zlen; intros; apply drop_app_le; lia. Qed.
Lemma takeZ_app_ge n l k : zlen l <= n -> takeZ n (l ++ k) = l ++ takeZ (n - zlen l) k.
Proof. unfold takeZ, zlen; intros; rewrite take_app_ge by lia; repeat f_equal; lia. Qed.
Lemma takeZ_takeZ n m l : 0 <= n -> takeZ n (takeZ m l) = takeZ (Z.min n m) l.
Proof. unfold takeZ; intros; rewrite take_take; f_equal; lia. Qed.
Lemma takeZ_add n m l : 0 <= n -> 0 <= m -> takeZ (n + m) l = takeZ n l ++ takeZ m (dropZ n l).
Proof.
  unfold takeZ, dropZ; intros.
  replace (Z.to_nat (n + m)) with (Z.to_nat n + Z.to_nat m)%nat by lia.
  by rewrite take_take_drop.
Qed.
Lemma index_Ret l i x : index l i = Ret x <-> nthZ l i = Some x.
Proof. unfold index; destruct (nthZ l i); naive_solver. Qed.
Lemma index_returns l i : 0 <= i < zlen l -> exists x, index l i = Ret x /\ nthZ l i = Some x.
Proof. intros [x Hx]%nthZ_lt; exists x; by rewrite index_Ret. Qed.
End zlists.

Lemma zlen_fmap {A B} (f : A -> B) (l : list A) : zlen (f <$> l) = zlen l.
Proof. unfold zlen; by rewrite length_fmap. Qed.
Lemma zlen_replicate {A} n (x : A) : zlen (replicate n x) = Z.of_nat n.
Proof. unfold zlen; by rewrite length_replicate. Qed.

Create HintDb zlist.
Create Rewrite HintDb zlist.
#[export] Hint Rewrite @zlen_nil @zlen_cons @zlen_app @zlen_setZ @zlen_takeZ @zlen_dropZ
  @zlen_reverse @zlen_fmap @zlen_replicate : zlist.
#[export] Hint Resolve zlen_nonneg : zlist.

(** Normalise lengths and finish by linear arithmetic. *)
Ltac zlen :=
  repeat match goal with
  | l : list _ |- _ =>
    lazymatch goal with
    | H : 0 <= zlen l |- _ => fail
    | _ => pose proof (zlen_nonneg l)
    end
  end;
  autorewrite with zlist in *; try lia.

(** Open every [run] bind of a hypothesis [_ = Ret _]. *)
Ltac run_inv H :=
  lazymatch type of H with
  | (mbind _ _ = Ret _) =>
    let a := fresh "a" in let H1 := fresh "Hrun" in
    apply run_bind_inv in H as (a & H1 & H); simpl in H
  end.

(** Case analysis on the first [match]/[if] scrutinee, remembering it. *)
Ltac case_run :=
  match goal with
  | |- context [match ?x with _ => _ end] =>
    lazymatch x with context [match _ with _ => _ end] => fail | _ => destruct x eqn:? end
  | H : context [match ?x with _ => _ end] |- _ =>
    lazymatch x with context [match _ with _ => _ end] => fail | _ => destruct x eqn:? end
  end.

(** ** Big- and little-endian integers ([encoding/binary])

    A byte is a [Z] in [0..255]. *)
Definition is_byte (b : Z) : Prop := 0 <= b < 2 ^ 8.
Definition bytes_ok (l : list Z) : Prop := Forall is_byte l.

Definition le_bytes (n : Z) (z : Z) : list Z := Z_to_little_endian n 8 z.
Definition le_val (l : list Z) : Z := little_endian_to_Z 8 l.
Definition be_bytes (n : Z) (z : Z) : list Z := reverse (le_bytes n z).
Definition be_val (l : list Z) : Z := le_val (reverse l).

Lemma zlen_le_bytes n z : 0 <= n -> zlen (le_bytes n z) = n.
Proof. intros; by apply length_Z_to_little_endian. Qed.
Lemma zlen_be_bytes n z : 0 <= n -> zlen (be_bytes n z) = n.
Proof. intros; unfold be_bytes; by rewrite zlen_reverse, zlen_le_bytes. Qed.

Lemma le_bytes_ok n z : 0 <= n -> bytes_ok (le_bytes n z).
Proof. intros; by apply Z_to_little_endian_bound. Qed.
Lemma be_bytes_ok n z : 0 <= n -> bytes_ok (be_bytes n z).
Proof. intros; by apply Forall_reverse, le_bytes_ok. Qed.

Lemma be_val_be_bytes n z : 0 <= n -> be_val (be_bytes n z) = z `mod` 2 ^ (n * 8).
Proof.
  intros; unfold be_val, be_bytes; rewrite reverse_involutive.
  by apply little_endian_to_Z_to_little_endian.
Qed.

Lemma be_bytes_be_val l : bytes_ok l -> be_bytes (zlen l) (be_val l) = l.
Proof.
  intros Hl; unfold be_val, be_bytes, le_bytes, le_val.
  rewrite Z_to_little_endian_to_Z; [by rewrite reverse_involutive| |lia|by apply Forall_reverse].
  by rewrite length_reverse.
Qed.

Lemma be_val_bound l : bytes_ok l -> 0 <= be_val l < 2 ^ (zlen l * 8).
Proof.
  intros Hl; unfold be_val, le_val.
  pose proof (little_endian_to_Z_bound 8 (reverse l)) as Hb.
  rewrite length_reverse in Hb; apply Hb; [lia | by apply Forall_reverse].
Qed.

Lemma be_val_inj l k : zlen l = zlen k -> bytes_ok l -> bytes_ok k -> be_val l = be_val k -> l = k.
Proof.
  intros Hlen Hl Hk Heq.
  rewrite <- (be_bytes_be_val l), <- (be_bytes_be_val k) by done.
  by rewrite Hlen, Heq.
Qed.

Lemma bytes_ok_app l k : bytes_ok (l ++ k) <-> bytes_ok l /\ bytes_ok k.
Proof. apply Forall_app. Qed.

Lemma le_val_cons b l : is_byte b -> le_val (b :: l) = b + 2 ^ 8 * le_val l.
Proof.
  intros Hb; unfold le_val; simpl.
  assert (Hdisj : Z.land b (little_endian_to_Z 8 l ≪ 8) = 0).
  { apply Z.bits_inj'; intros k Hk; rewrite Z.land_spec, Z.bits_0.
    destruct (decide (k < 8)).
    - by rewrite Z.shiftl_spec_low, andb_false_r by lia.
    - rewrite Z.bits_above_log2; [done|unfold is_byte in Hb; lia|].
      destruct (decide (b = 0)) as [->|]; [simpl; lia|].
      apply Z.log2_lt_pow2; [unfold is_byte in Hb; lia|].
      unfold is_byte in Hb; pose proof (Z.pow_le_mono_r 2 8 k); lia. }
  rewrite <- Z.lxor_lor, <- Z.add_nocarry_lxor by done.
  rewrite Z.shiftl_mul_pow2 by lia; unfold is_byte; lia.
Qed.

Lemma le_val_app l k : bytes_ok l -> le_val (l ++ k) = le_val l + 2 ^ (8 * zlen l) * le_val k.
Proof.
  induction 1 as [|b l Hb Hl IH]; [unfold le_val, zlen; simpl; lia|].
  rewrite <- app_comm_cons, !le_val_cons, IH, zlen_cons by done.
  replace (8 * (1 + zlen l)) with (8 + 8 * zlen l) by lia.
  rewrite Z.pow_add_r by (try apply Z.mul_nonneg_nonneg; unfold zlen; lia); lia.
Qed.

Lemma be_val_app l k : bytes_ok k -> be_val (l ++ k) = be_val l * 2 ^ (8 * zlen k) + be_val k.
Proof.
  intros Hk; unfold be_val; rewrite reverse_app, le_val_app by (by apply Forall_reverse).
  rewrite zlen_reverse; lia.
Qed.

#[export] Hint Rewrite @zlen_le_bytes @zlen_be_bytes using lia : zlist.
#[export] Hint Resolve be_bytes_ok le_bytes_ok : zlist.

(** ** Transition sequences, shared by the lanes and the concurrent readers *)
Section star.
Context {S : Type} (step : S -> S -> Prop).

Inductive star : S -> S -> Prop :=
| star_refl s : star s s
| star_step s1 s2 s3 : step s1 s2 -> star s2 s3 -> star s1 s3.

Lemma star_invariant (P : S -> Prop) :
  (forall s s', P s -> step s s' -> P s') -> forall s s', star s s' -> P s -> P s'.
Proof. intros Hpres s s'; induction 1; eauto. Qed.
End star.
