(* ===== verification/Floats.v ===== *)
(** * Go's floating point numbers

    [float32] and [float64] arithmetic as the decoders and the output drivers
    use it: round to nearest, ties to even.  A finite number is a whole number
    of [2 ^ -1074], the least positive [float64], so that every rounding is a
    computation on [Z].  Infinities, NaN and the sign of zero are left out:
    where the code can reach them, the definition that uses these operations
    says so. *)

From S2P Require Import Prelude.
#[local] Open Scope Z_scope.

(** ** Rounding *)

(** [n / d] rounded to the nearest whole number, ties to even. *)
Definition rne (n d : Z) : Z :=
  let q := n / d in
  let r := n `mod` d in
  if decide (2 * r < d) then q
  else if decide (d < 2 * r) then q + 1
  else if Z.even q then q else q + 1.

(** [n / d] units rounded to [p] significant bits, in steps of at least
    [2 ^ m] units. *)
Definition rnd_exp (p m n d : Z) : Z := Z.max m (Z.log2 (Z.abs n / d) - (p - 1)).
Definition rnd (p m n d : Z) : Z :=
  let e := rnd_exp p m n d in rne n (d * 2 ^ e) * 2 ^ e.

Definition rnd32 : Z -> Z -> Z := rnd 24 925.
Definition rnd64 : Z -> Z -> Z := rnd 53 0.

(** One, in units. *)
Definition one : Z := 2 ^ 1074.

(** ** The operations *)

(** [float32(z)], for an integer. *)
Definition f32_of (z : Z) : Z := rnd32 (z * one) 1.
Definition f64_of (z : Z) : Z := rnd64 (z * one) 1.
Definition mul32 (a b : Z) : Z := rnd32 (a * b) one.
Definition mul64 (a b : Z) : Z := rnd64 (a * b) one.
Definition add32 (a b : Z) : Z := rnd32 (a + b) 1.
Definition sub32 (a b : Z) : Z := rnd32 (a - b) 1.
(** A quotient by a positive number. *)
Definition div32 (a b : Z) : Z := rnd32 (a * one) b.
(** The decimal constant [n / d] as a [float32]. *)
Definition const32 (n d : Z) : Z := rnd32 (n * one) d.

(** The conversion to a [w]-bit signed integer drops the fraction; outside the
    range its result is up to the processor: [oob]. *)
Definition to_int (w oob x : Z) : Z :=
  let z := Z.quot x one in
  if decide (- 2 ^ (w - 1) <= z < 2 ^ (w - 1)) then z else oob.

(** ** Lemmas *)

Lemma one_pos : 0 < one.
Proof. unfold one; lia. Qed.

Lemma rne_spec n d : 0 < d ->
  2 * Z.abs (n - rne n d * d) <= d /\ (2 * Z.abs (n - rne n d * d) = d -> Z.even (rne n d) = true).
Proof.
  intros Hd; unfold rne.
  pose proof (Z.div_mod n d ltac:(lia)) as Hn; pose proof (Z.mod_pos_bound n d Hd).
  set (q := n / d) in *; set (r := n `mod` d) in *.
  destruct (decide (2 * r < d)) as [Hr|Hr]; [split; [|intros Heq; exfalso]; nia|].
  destruct (decide (d < 2 * r)) as [Hr'|Hr']; [split; [|intros Heq; exfalso]; nia|].
  destruct (Z.even q) eqn:He; (split; [nia|]); intros _; [done|].
  by rewrite Z.even_add, He.
Qed.

Lemma rne_mono n1 d1 n2 d2 : 0 < d1 -> 0 < d2 -> n1 * d2 <= n2 * d1 -> rne n1 d1 <= rne n2 d2.
Proof.
  intros H1 H2 Hle.
  destruct (rne_spec n1 d1 H1) as [Ha Ha']; destruct (rne_spec n2 d2 H2) as [Hb Hb'].
  set (q1 := rne n1 d1) in *; set (q2 := rne n2 d2) in *.
  destruct (decide (q1 <= q2)) as [|Hgt]; [done|exfalso].
  assert (Hlo : (2 * q1 - 1) * d1 <= 2 * n1) by nia.
  assert (Hhi : 2 * n2 <= (2 * q2 + 1) * d2) by nia.
  assert (H3 : (2 * q1 - 1) * d1 * d2 <= (2 * q2 + 1) * d2 * d1) by nia.
  assert (H4 : 2 * q1 - 1 <= 2 * q2 + 1).
  { apply (Z.mul_le_mono_pos_r _ _ (d1 * d2)); [nia|].
    rewrite !Z.mul_assoc; rewrite <- (Z.mul_assoc (2 * q2 + 1) d1), (Z.mul_comm d1 d2), Z.mul_assoc; done. }
  assert (Hq : q1 = q2 + 1) by lia.
  rewrite Hq in *.
  assert (Hx : 2 * n1 = (2 * q2 + 1) * d1) by nia.
  assert (Hy : 2 * n2 = (2 * q2 + 1) * d2) by nia.
  assert (E1 : Z.even (q2 + 1) = true) by (apply Ha'; nia).
  assert (E2 : Z.even q2 = true) by (apply Hb'; nia).
  rewrite Z.even_add, E2 in E1; done.
Qed.

Lemma rne_exact q d : 0 < d -> rne (q * d) d = q.
Proof.
  intros Hd; unfold rne; rewrite Z.div_mul, Z.mod_mul by lia; by rewrite decide_True by lia.
Qed.

Lemma rne_nonneg n d : 0 < d -> 0 <= n -> 0 <= rne n d.
Proof. intros; rewrite <- (rne_exact 0 d) by done; apply rne_mono; nia. Qed.

Lemma rne_nonpos n d : 0 < d -> n <= 0 -> rne n d <= 0.
Proof. intros; rewrite <- (rne_exact 0 d) by done; apply rne_mono; nia. Qed.

Lemma rne_opp n d : 0 < d -> rne (- n) d = - rne n d.
Proof.
  intros Hd.
  destruct (rne_spec n d Hd) as [Ha Ha']; destruct (rne_spec (- n) d Hd) as [Hb Hb'].
  set (q := rne n d) in *; set (q' := rne (- n) d) in *.
  assert (Hs : - 2 * d <= 2 * (q + q') * d <= 2 * d) by nia.
  assert (-1 <= q + q' <= 1) by nia.
  destruct (decide (q + q' = 0)) as [|Hne]; [lia|exfalso].
  assert (Hc : q' = 1 - q \/ q' = - 1 - q) by lia.
  assert (E1 : Z.even q = true) by (apply Ha'; destruct Hc as [Hc|Hc]; rewrite Hc in *; nia).
  assert (E2 : Z.even q' = true) by (apply Hb'; destruct Hc as [Hc|Hc]; rewrite Hc in *; nia).
  destruct Hc as [Hc|Hc]; rewrite Hc, Z.even_sub, E1 in E2; done.
Qed.

Section rnd.
Context (p m : Z) (Hp : 0 < p) (Hm : 0 <= m).

Lemma rnd_exp_ge n d : m <= rnd_exp p m n d.
Proof. unfold rnd_exp; lia. Qed.

Lemma rnd_nonneg n d : 0 < d -> 0 <= n -> 0 <= rnd p m n d.
Proof.
  intros Hd Hn; unfold rnd; pose proof (rnd_exp_ge n d).
  pose proof (Z.pow_pos_nonneg 2 (rnd_exp p m n d) ltac:(lia) ltac:(lia)).
  pose proof (rne_nonneg n (d * 2 ^ rnd_exp p m n d) ltac:(nia) Hn); nia.
Qed.

Lemma rnd_opp n d : 0 < d -> rnd p m (- n) d = - rnd p m n d.
Proof.
  intros Hd; unfold rnd.
  assert (He : rnd_exp p m (- n) d = rnd_exp p m n d) by (unfold rnd_exp; by rewrite Z.abs_opp).
  rewrite He; pose proof (rnd_exp_ge n d).
  pose proof (Z.pow_pos_nonneg 2 (rnd_exp p m n d) ltac:(lia) ltac:(lia)).
  rewrite rne_opp by nia; lia.
Qed.

(** Below the exponent's binade a number rounds to at most its top; at or above
    its bottom, to at least the bottom. *)
Lemma rnd_upper n d : 0 < d -> 0 <= n -> rnd p m n d <= 2 ^ (rnd_exp p m n d + p).
Proof.
  intros Hd Hn; unfold rnd; pose proof (rnd_exp_ge n d).
  set (e := rnd_exp p m n d) in *.
  pose proof (Z.pow_pos_nonneg 2 e ltac:(lia) ltac:(lia)).
  rewrite Z.add_comm, Z.pow_add_r by lia.
  apply Z.mul_le_mono_nonneg_r; [lia|].
  rewrite <- (rne_exact (2 ^ p) 1) by lia; apply rne_mono; [nia|lia|].
  assert (Hlt : n / d < 2 ^ (e + p)).
  { destruct (decide (n / d <= 0)); [pose proof (Z.pow_pos_nonneg 2 (e + p)); lia|].
    pose proof (Z.log2_spec (n / d) ltac:(lia)) as [_ Hl].
    eapply Z.lt_le_trans; [exact Hl|]; apply Z.pow_le_mono_r; [lia|].
    subst e; unfold rnd_exp; rewrite (Z.abs_eq n) by done; lia. }
  rewrite Z.pow_add_r in Hlt by lia.
  pose proof (Z.mul_succ_div_gt n d Hd); nia.
Qed.

Lemma rnd_lower n d : 0 < d -> 0 <= n -> m < rnd_exp p m n d ->
  2 ^ (rnd_exp p m n d + p - 1) <= rnd p m n d /\ 2 ^ (rnd_exp p m n d + p - 1) * d <= n.
Proof.
  intros Hd Hn Hgt; unfold rnd; set (e := rnd_exp p m n d) in *.
  pose proof (Z.pow_pos_nonneg 2 e ltac:(lia) ltac:(lia)).
  assert (He : e = Z.log2 (n / d) - (p - 1)) by (subst e; unfold rnd_exp in *; rewrite (Z.abs_eq n) in * by done; lia).
  assert (Hpos : 0 < n / d).
  { destruct (decide (0 < n / d)); [done|].
    assert (n / d = 0) by (pose proof (Z.div_pos n d Hn Hd); lia).
    rewrite H0 in He; simpl in He; lia. }
  pose proof (Z.log2_spec (n / d) Hpos) as [Hl _].
  replace (Z.log2 (n / d)) with (e + p - 1) in Hl by lia.
  assert (Hnd : 2 ^ (e + p - 1) * d <= n) by (pose proof (Z.mul_div_le n d Hd); nia).
  split; [|done].
  replace (e + p - 1) with ((p - 1) + e) by lia; rewrite Z.pow_add_r by lia.
  apply Z.mul_le_mono_nonneg_r; [lia|].
  rewrite <- (rne_exact (2 ^ (p - 1)) 1) at 1 by lia; apply rne_mono; [lia|nia|].
  replace (e + p - 1) with ((p - 1) + e) in Hnd by lia; rewrite Z.pow_add_r in Hnd by lia; nia.
Qed.

Lemma rnd_mono_nonneg n1 d1 n2 d2 : 0 < d1 -> 0 < d2 -> 0 <= n1 -> n1 * d2 <= n2 * d1 ->
  rnd p m n1 d1 <= rnd p m n2 d2.
Proof.
  intros H1 H2 Hn Hle; assert (Hn2 : 0 <= n2) by nia.
  destruct (Z.lt_trichotomy (rnd_exp p m n1 d1) (rnd_exp p m n2 d2)) as [Hlt|[Heq|Hgt]].
  - pose proof (rnd_exp_ge n1 d1).
    pose proof (rnd_upper n1 d1 H1 Hn); destruct (rnd_lower n2 d2 H2 Hn2 ltac:(lia)) as [Hlo _].
    etransitivity; [eassumption|]; etransitivity; [|exact Hlo].
    apply Z.pow_le_mono_r; lia.
  - unfold rnd; rewrite Heq; pose proof (rnd_exp_ge n2 d2).
    pose proof (Z.pow_pos_nonneg 2 (rnd_exp p m n2 d2) ltac:(lia) ltac:(lia)).
    apply Z.mul_le_mono_nonneg_r; [lia|]; apply rne_mono; nia.
  - exfalso.
    assert (Hdiv : n1 / d1 <= n2 / d2).
    { apply Z.div_le_lower_bound; [done|]; pose proof (Z.mul_div_le n1 d1 H1).
      apply (Z.mul_le_mono_pos_r _ _ d1); [done|]; nia. }
    unfold rnd_exp in Hgt; rewrite !Z.abs_eq in Hgt by done.
    pose proof (Z.log2_le_mono _ _ Hdiv); lia.
Qed.

(** Rounding keeps the order. *)
Lemma rnd_mono n1 d1 n2 d2 : 0 < d1 -> 0 < d2 -> n1 * d2 <= n2 * d1 ->
  rnd p m n1 d1 <= rnd p m n2 d2.
Proof.
  intros H1 H2 Hle; destruct (decide (0 <= n1)); [by apply rnd_mono_nonneg|].
  destruct (decide (0 <= n2)).
  - pose proof (rnd_nonneg n2 d2 H2 ltac:(done)); pose proof (rnd_nonneg (- n1) d1 H1 ltac:(lia)).
    rewrite rnd_opp in * by done; lia.
  - pose proof (rnd_mono_nonneg (- n2) d2 (- n1) d1 H2 H1 ltac:(lia) ltac:(lia)) as Hr.
    rewrite !rnd_opp in Hr by done; lia.
Qed.

(** A number of at most [p] bits is kept as it is. *)
Lemma rnd_exact k e : m <= e -> Z.abs k <= 2 ^ p -> rnd p m (k * 2 ^ e) 1 = k * 2 ^ e.
Proof.
  intros He Hk; unfold rnd.
  set (e' := rnd_exp p m (k * 2 ^ e) 1).
  pose proof (Z.pow_pos_nonneg 2 e ltac:(lia) ltac:(lia)).
  destruct (decide (e' <= e)).
  - rewrite Z.mul_1_l; pose proof (rnd_exp_ge (k * 2 ^ e) 1); fold e' in H0.
    replace (k * 2 ^ e) with (k * 2 ^ (e - e') * 2 ^ e')
      by (rewrite <- Z.mul_assoc, <- Z.pow_add_r by lia; f_equal; f_equal; lia).
    by rewrite rne_exact by (apply Z.pow_pos_nonneg; lia).
  - (* only the power of two itself needs one more exponent *)
    assert (Hab : Z.abs k = 2 ^ p).
    { destruct (decide (Z.abs k = 2 ^ p)) as [|Hne]; [done|exfalso].
      subst e'; unfold rnd_exp in *; rewrite Z.div_1_r, Z.abs_mul, (Z.abs_eq (2 ^ e)) in * by lia.
      destruct (decide (k = 0)) as [->|]; [simpl in *; lia|].
      rewrite Z.log2_mul_pow2 in * by lia.
      assert (Z.log2 (Z.abs k) < p) by (apply Z.log2_lt_pow2; lia); lia. }
    assert (He' : e' = e + 1).
    { subst e'; unfold rnd_exp in *; rewrite Z.div_1_r, Z.abs_mul, (Z.abs_eq (2 ^ e)), Hab in * by lia.
      rewrite <- Z.pow_add_r in * by lia; rewrite Z.log2_pow2 in * by lia; lia. }
    rewrite He', Z.mul_1_l, Z.pow_add_r, Z.pow_1_r by lia.
    assert (Hp2 : 2 ^ p = 2 * 2 ^ (p - 1)) by (rewrite <- Z.pow_succ_r by lia; f_equal; lia).
    assert (Hk2 : exists j, k = j * 2).
    { destruct (Z.abs_spec k) as [[_ Hs]|[_ Hs]]; [exists (2 ^ (p - 1))|exists (- 2 ^ (p - 1))]; lia. }
    destruct Hk2 as [j ->].
    replace (j * 2 * 2 ^ e) with (j * (2 ^ e * 2)) by lia.
    by rewrite rne_exact by lia.
Qed.
End rnd.

Lemma rnd32_mono n1 d1 n2 d2 : 0 < d1 -> 0 < d2 -> n1 * d2 <= n2 * d1 -> rnd32 n1 d1 <= rnd32 n2 d2.
Proof. intros; unfold rnd32; apply rnd_mono; lia. Qed.

Lemma rnd64_mono n1 d1 n2 d2 : 0 < d1 -> 0 < d2 -> n1 * d2 <= n2 * d1 -> rnd64 n1 d1 <= rnd64 n2 d2.
Proof. intros; unfold rnd64; apply rnd_mono; lia. Qed.

(** Integers of up to 24 bits are [float32]s. *)
Lemma f32_of_exact z : Z.abs z <= 2 ^ 24 -> f32_of z = z * one.
Proof. intros; unfold f32_of, rnd32, one; apply rnd_exact; [lia|lia|lia|done]. Qed.

Lemma f64_of_exact z : Z.abs z <= 2 ^ 53 -> f64_of z = z * one.
Proof. intros; unfold f64_of, rnd64, one; apply rnd_exact; [lia|lia|lia|done]. Qed.

Lemma f32_of_mono a b : a <= b -> f32_of a <= f32_of b.
Proof. intros; apply rnd32_mono; pose proof one_pos; nia. Qed.

Lemma mul32_mono a b c : 0 <= c -> a <= b -> mul32 a c <= mul32 b c.
Proof.
  intros; apply rnd32_mono; [apply one_pos..|]; pose proof one_pos.
  by repeat (apply Z.mul_le_mono_nonneg_r; [lia|]).
Qed.

Lemma mul32_mono_r a b c : 0 <= c -> a <= b -> mul32 c a <= mul32 c b.
Proof. unfold mul32; rewrite !(Z.mul_comm c); apply mul32_mono. Qed.

Lemma div32_mono a b c : 0 < c -> a <= b -> div32 a c <= div32 b c.
Proof.
  intros; apply rnd32_mono; [done..|]; pose proof one_pos.
  by repeat (apply Z.mul_le_mono_nonneg_r; [lia|]).
Qed.

Lemma add32_mono a b c : a <= b -> add32 a c <= add32 b c.
Proof. intros; apply rnd32_mono; lia. Qed.

Lemma sub32_mono a b c : a <= b -> sub32 a c <= sub32 b c.
Proof. intros; apply rnd32_mono; lia. Qed.

Lemma mul32_nonneg a b : 0 <= a -> 0 <= b -> 0 <= mul32 a b.
Proof. intros; unfold mul32, rnd32; apply rnd_nonneg; pose proof one_pos; nia. Qed.

(** Whole numbers of 24 bits add, subtract and multiply exactly. *)
Lemma rnd32_int z : Z.abs z <= 2 ^ 24 -> rnd32 (z * one) 1 = z * one.
Proof. apply f32_of_exact. Qed.

Lemma mul32_one a : rnd32 a 1 = a -> mul32 a one = a.
Proof.
  intros Ha; unfold mul32; rewrite <- Ha at 2; apply Z.le_antisymm; apply rnd32_mono; pose proof one_pos; nia.
Qed.

Lemma to_int_in w oob x z : z = Z.quot x one -> - 2 ^ (w - 1) <= z < 2 ^ (w - 1) -> to_int w oob x = z.
Proof. intros ->; unfold to_int; intros; by rewrite decide_True by done. Qed.

Lemma quot_one_mono a b : a <= b -> Z.quot a one <= Z.quot b one.
Proof. intros; apply Z.quot_le_mono; [apply one_pos|done]. Qed.

(** A rounding at most doubles a number. *)
Lemma rne_double n d : 0 < d -> 0 <= n -> rne n d * d <= 2 * n.
Proof.
  intros Hd Hn; destruct (rne_spec n d Hd) as [Ha Ha'].
  set (q := rne n d) in *; destruct (decide (q <= 0)); [nia|].
  destruct (decide (2 * n < d)); [exfalso; nia|].
  destruct (decide (q = 1)) as [Hq|]; [rewrite Hq in *; nia|nia].
Qed.

Lemma rnd32_double n d : 0 < d -> 0 <= n -> rnd32 n d * d <= 2 * n.
Proof.
  intros Hd Hn; unfold rnd32, rnd; pose proof (rnd_exp_ge 24 925 n d).
  pose proof (Z.pow_pos_nonneg 2 (rnd_exp 24 925 n d) ltac:(lia) ltac:(lia)).
  pose proof (rne_double n (d * 2 ^ rnd_exp 24 925 n d) ltac:(nia) Hn); lia.
Qed.
