(* ===== verification/PagedList.v ===== *)
(** * The lazily paged list of a context ([src/tracks/paged-list.go])

    A [pagedList] keeps the items fetched so far and the position of the
    current one; pages come from a [PageResolver], an interface whose state is
    threaded explicitly because a resolver fetches over the network and may
    answer differently (or fail) from one call to the next. *)

From S2P Require Import Prelude.

(** [librespot.PageResolver[T]] ([src/tracks.go]): [Page(ctx, idx)].  The
    context deadline is part of what the resolver may react to, hence of its
    state [R]. *)
Class PageResolver (R T : Type) := Page : R -> Z -> R * result (list T).

(** [*rand.Rand] of [golang.org/x/exp/rand]: a deterministic generator built
    from a seed, and [Intn]. *)
Class RandSource (G : Type) := {
  rand_New : Z -> G;
  Intn : G -> Z -> G * Z
}.

(** The documented contract of [Intn]: a value in [[0,n)]. *)
Class RandLaws (G : Type) `{RandSource G} :=
  Intn_bound : forall g n, 0 < n -> 0 <= (Intn g n).2 < n.

Record pagedListItem (T : Type) := PagedItem {
  item : T;
  pageIdx : Z;
  itemIdx : Z
}.
Arguments PagedItem {T} _ _ _.
Arguments item {T} _.
Arguments pageIdx {T} _.
Arguments itemIdx {T} _.

Record pagedList (T : Type) := PagedList {
  pl_list : list (pagedListItem T);
  pl_pos : Z
}.
Arguments PagedList {T} _ _.
Arguments pl_list {T} _.
Arguments pl_pos {T} _.

(** The iterator; the list it points to is the one threaded beside it. *)
Record pagedListInterator := PagedIter {
  it_pos : Z;
  it_err : option error
}.

Section ops.
Context {R T : Type} `{!PageResolver R T}.
Implicit Types (l : pagedList T) (it : pagedListInterator) (r : R).

Definition newPagedList : pagedList T := PagedList [] (-1).

Definition pl_iterHere l : run pagedListInterator :=
  if decide (pl_pos l < 0) then Panic "invalid paged list position"
  else Ret (PagedIter (pl_pos l) None).

Definition pl_iterStart : pagedListInterator := PagedIter (-1) None.

(** The page after the one the last loaded item came from. *)
Definition next_page_idx l : Z :=
  match last (pl_list l) with
  | None => 0
  | Some curr => pageIdx curr + 1
  end.

(** [for trackIdx, item := range items { append(...) }] *)
Definition page_items (pg : Z) (items : list T) : list (pagedListItem T) :=
  imap (fun trackIdx x => PagedItem x pg (Z.of_nat trackIdx)) items.

Definition fetchNextPage (r : R) l : R * pagedList T * Z * option error :=
  let pg := next_page_idx l in
  let '(r', res) := Page r pg in
  match res with
  | Err e => (r', l, pg, Some e)
  | Ok [] => (r', l, pg, Some (EMsg "loaded an empty page for"))
  | Ok items => (r', PagedList (pl_list l ++ page_items pg items) (pl_pos l), pg, None)
  end.

Definition it_prev it : run (bool * pagedListInterator) :=
  if decide (it_pos it < 0) then Panic "invalid paged list iterator position"
  else if decide (it_pos it = 0) then Ret (false, PagedIter (it_pos it) None)
  else Ret (true, PagedIter (it_pos it - 1) None).

(** The body of [next]'s loop, [fuel] bounding the number of page fetches. *)
Fixpoint next_loop (fuel : nat) (r : R) l it : run (R * pagedList T * bool * pagedListInterator) :=
  if decide (zlen (pl_list l) <= it_pos it + 1) then
    match fuel with
    | O => OutOfFuel
    | S fuel =>
      let '(r', l', _, err) := fetchNextPage r l in
      match err with
      | None => next_loop fuel r' l' it
      | Some e =>
        if errors_Is e io_EOF then Ret (r', l', false, PagedIter (it_pos it) None)
        else Ret (r', l', false, PagedIter (it_pos it) (Some (EWrap "failed moving to next index" e)))
      end
    end
  else Ret (r, l, true, PagedIter (it_pos it + 1) None).

(** Every fetch that succeeds appends at least one item, so this many
    iterations reach the condition that ends the loop. *)
Definition next_fuel l it : nat := Z.to_nat (it_pos it + 2 - zlen (pl_list l)).

Definition it_next (r : R) l it : run (R * pagedList T * bool * pagedListInterator) :=
  next_loop (next_fuel l it) r l it.

Definition it_get l it : run (pagedListItem T) :=
  if decide (it_pos it < 0) then Panic "invalid paged list iterator position"
  else index (pl_list l) (it_pos it).

Definition pl_moveStart (r : R) l : R * pagedList T * option error :=
  if decide (zlen (pl_list l) = 0) then
    let '(r', l', _, err) := fetchNextPage r l in
    match err with
    | Some e =>
      if errors_Is e io_EOF then (r', l', Some (EMsg "failed moving to start: no more pages as of"))
      else (r', l', Some (EWrap "failed moving to start" e))
    | None => (r', PagedList (pl_list l') 0, None)
    end
  else (r, PagedList (pl_list l) 0, None).

Definition pl_moveInjected l (x : T) : pagedList T :=
  PagedList (PagedItem x (-1) (-1) :: pl_list l) 0.

Definition pl_move l it : run (pagedList T) :=
  match it_err it with
  | Some _ => Panic "cannot move to errored paged list iterator"
  | None => Ret (PagedList (pl_list l) (it_pos it))
  end.

Definition pl_get l : run (pagedListItem T) :=
  if decide (pl_pos l < 0) then Panic "invalid paged list position"
  else index (pl_list l) (pl_pos l).

(** [list[i], list[j] = list[j], list[i]] *)
Definition exchange {A} (i j : Z) (xs : list A) : list A :=
  match nthZ xs i, nthZ xs j with
  | Some a, Some b => setZ (setZ xs i b) j a
  | _, _ => xs
  end.

(** [if i == idx { idx = j } else if j == idx { idx = i }] *)
Definition follow (i j idx : Z) : Z :=
  if decide (i = idx) then j else if decide (j = idx) then i else idx.

Definition pl_swap l (i j : Z) : run (pagedList T) :=
  if decide (i < 0 \/ zlen (pl_list l) <= i \/ j < 0 \/ zlen (pl_list l) <= j)
  then Panic "invalid swap indices"
  else Ret (PagedList (exchange i j (pl_list l)) (follow i j (pl_pos l))).

Definition pl_clear l : pagedList T := PagedList [] (-1).

Definition pl_len l : Z := zlen (pl_list l).

Definition resident l : list T := item <$> pl_list l.
End ops.

(** ** Shuffling

    [shuffle] draws [j = Intn(i+1)] for [i] from [len-1] down to [1]; the
    [k]-th draw is at [i = len-1-k]. *)
Section shuffling.
Context {G T : Type} `{!RandSource G}.
Implicit Types (l : pagedList T) (g : G) (xs : list (pagedListItem T)).

(** The descending loop, at [i = Z.of_nat n]: [for ; i > 0; i--]. *)
Fixpoint shuffle_loop (n : nat) g xs (idx : Z) : list (pagedListItem T) * Z :=
  match n with
  | O => (xs, idx)
  | S n' =>
    let i := Z.of_nat n in
    let '(g', j) := Intn g (i + 1) in
    shuffle_loop n' g' (exchange i j xs) (follow i j idx)
  end.

Definition shuffle l g : pagedList T :=
  if decide (zlen (pl_list l) <= 1) then l
  else
    let '(xs, idx) := shuffle_loop (Z.to_nat (zlen (pl_list l) - 1)) g (pl_list l) (pl_pos l) in
    PagedList xs idx.

(** [for i := 0; i < len-1; i++ { exchanges[i] = rnd.Intn(len - i) }]; [n]
    is [len-i], so the loop draws for [n = len, ..., 2]. *)
Fixpoint draw_exchanges (n : nat) g : list Z :=
  match n with
  | O => []
  | S n' => let '(g', j) := Intn g (Z.of_nat n + 1) in j :: draw_exchanges n' g'
  end.

(** [for i := 1; i < len; i++ { j := exchanges[len-i-1]; ... }], [todo]
    iterations starting at [i]. *)
Fixpoint unshuffle_loop (todo : nat) (i : Z) (exchanges : list Z) xs (idx : Z)
  : run (list (pagedListItem T) * Z) :=
  match todo with
  | O => Ret (xs, idx)
  | S todo' =>
    j ← index exchanges (zlen xs - i - 1);
    unshuffle_loop todo' (i + 1) exchanges (exchange i j xs) (follow i j idx)
  end.

Definition unshuffle l g : run (pagedList T) :=
  if decide (zlen (pl_list l) <= 1) then Ret l
  else
    let n := Z.to_nat (zlen (pl_list l) - 1) in
    p ← unshuffle_loop n 1 (draw_exchanges n g) (pl_list l) (pl_pos l);
    Ret (PagedList p.1 p.2).
End shuffling.

(** ** Exchanging two entries *)
Section exchange_facts.
Context {A : Type}.
Implicit Types (xs : list A) (i j k : Z).

Lemma zlen_exchange i j xs : zlen (exchange i j xs) = zlen xs.
Proof. unfold exchange; repeat case_match; by rewrite ?zlen_setZ. Qed.

Lemma follow_involutive i j k : follow i j (follow i j k) = k.
Proof. unfold follow; repeat case_decide; congruence. Qed.

Lemma follow_range i j k n : 0 <= i < n -> 0 <= j < n -> 0 <= k < n -> 0 <= follow i j k < n.
Proof. unfold follow; repeat case_decide; lia. Qed.

(** The entry at [k] is found, after the exchange, where [follow] says. *)
Lemma nthZ_exchange i j k xs :
  0 <= i < zlen xs -> 0 <= j < zlen xs -> nthZ (exchange i j xs) (follow i j k) = nthZ xs k.
Proof.
  intros Hi Hj. unfold exchange.
  destruct (nthZ_lt _ _ Hi) as [a Ha], (nthZ_lt _ _ Hj) as [b Hb]; rewrite Ha, Hb.
  unfold follow; repeat case_decide; subst.
  - rewrite nthZ_setZ_eq by (by rewrite zlen_setZ); by rewrite Ha.
  - destruct (decide (k = i)) as [->|]; [congruence|].
    rewrite nthZ_setZ_ne by done; rewrite nthZ_setZ_eq by done; by rewrite Hb.
  - by rewrite !nthZ_setZ_ne by done.
Qed.

Lemma exchange_involutive i j xs :
  0 <= i < zlen xs -> 0 <= j < zlen xs -> exchange i j (exchange i j xs) = xs.
Proof.
  intros Hi Hj; apply nthZ_ext; intros k.
  rewrite <- (follow_involutive i j k) at 1.
  by rewrite !nthZ_exchange by (by rewrite ?zlen_exchange).
Qed.

Lemma exchange_self i xs : exchange i i xs = xs.
Proof.
  unfold exchange; destruct (nthZ xs i) as [a|] eqn:Ha; [|done].
  apply nthZ_ext; intros k; pose proof (nthZ_Some_lt _ _ _ Ha).
  destruct (decide (i = k)) as [->|]; [by rewrite nthZ_setZ_eq by (by rewrite zlen_setZ)|].
  by rewrite !nthZ_setZ_ne.
Qed.

Lemma exchange_sym i j xs : exchange i j xs = exchange j i xs.
Proof.
  unfold exchange; destruct (nthZ xs i) as [a|] eqn:Ha, (nthZ xs j) as [b|] eqn:Hb; try done.
  pose proof (nthZ_Some_lt _ _ _ Ha); pose proof (nthZ_Some_lt _ _ _ Hb).
  destruct (decide (i = j)) as [->|]; [congruence|].
  apply nthZ_ext; intros k.
  destruct (decide (i = k)) as [->|], (decide (j = k)) as [->|]; try done;
    repeat first [ rewrite nthZ_setZ_eq by (by rewrite ?zlen_setZ) | rewrite nthZ_setZ_ne by done ];
    congruence.
Qed.

Lemma insert_swap_perm (xs : list A) (i j : nat) a b :
  (i < j)%nat -> xs !! i = Some a -> xs !! j = Some b -> <[j:=a]> (<[i:=b]> xs) ≡ₚ xs.
Proof.
  intros Hij Ha Hb.
  pose proof (lookup_lt_Some _ _ _ Hb).
  rewrite <- (take_drop_middle xs i a Ha) at 2.
  rewrite <- (take_drop_middle xs i a Ha) at 1.
  rewrite insert_app_r_alt by (rewrite length_take; lia).
  rewrite length_take, Nat.min_l, Nat.sub_diag by lia; simpl.
  rewrite insert_app_r_alt by (rewrite length_take; lia).
  rewrite length_take, Nat.min_l by lia.
  replace (j - i)%nat with (S (j - i - 1)) by lia; simpl.
  apply Permutation_app_head.
  assert (Hd : drop (S i) xs !! (j - i - 1)%nat = Some b).
  { rewrite lookup_drop; rewrite <- Hb; f_equal; lia. }
  rewrite (insert_take_drop _ _ _ (lookup_lt_Some _ _ _ Hd)).
  rewrite <- (take_drop_middle _ _ _ Hd) at 3.
  rewrite <- !Permutation_middle. constructor.
Qed.

Lemma exchange_perm i j xs : exchange i j xs ≡ₚ xs.
Proof.
  assert (Hlt : forall i j, i < j -> exchange i j xs ≡ₚ xs).
  { clear i j; intros i j Hij. unfold exchange.
    destruct (nthZ xs i) as [a|] eqn:Ha, (nthZ xs j) as [b|] eqn:Hb; try done.
    unfold nthZ, setZ in *; repeat case_decide; try done.
    apply insert_swap_perm; [lia|done|done]. }
  destruct (Z.lt_trichotomy i j) as [?|[->|?]]; [by apply Hlt|by rewrite exchange_self|].
  rewrite exchange_sym; by apply Hlt.
Qed.
End exchange_facts.
#[export] Hint Rewrite @zlen_exchange : zlist.

(** ** Shuffle and its inverse *)
Section shuffle_facts.
Context {G T : Type} `{!RandSource G, !RandLaws G}.
Implicit Types (l : pagedList T) (g : G) (xs : list (pagedListItem T)).

Lemma zlen_shuffle_loop n g xs idx : zlen (shuffle_loop n g xs idx).1 = zlen xs.
Proof.
  revert g xs idx; induction n as [|n IH]; intros; simpl; [done|].
  destruct (Intn g _) as [g' j]; rewrite IH; apply zlen_exchange.
Qed.

Lemma zlen_shuffle l g : zlen (pl_list (shuffle l g)) = zlen (pl_list l).
Proof.
  unfold shuffle; case_decide; [done|].
  pose proof (zlen_shuffle_loop (Z.to_nat (zlen (pl_list l) - 1)) g (pl_list l) (pl_pos l)) as H'.
  by destruct (shuffle_loop _ _ _ _).
Qed.

Lemma shuffle_loop_perm n g xs idx : (shuffle_loop n g xs idx).1 ≡ₚ xs.
Proof.
  revert g xs idx; induction n as [|n IH]; intros; simpl; [done|].
  destruct (Intn g _) as [g' j]; rewrite IH; apply exchange_perm.
Qed.

(** The position the loop tracks keeps naming the same entry. *)
Lemma shuffle_loop_follows n g xs idx :
  Z.of_nat n < zlen xs ->
  nthZ (shuffle_loop n g xs idx).1 (shuffle_loop n g xs idx).2 = nthZ xs idx.
Proof.
  revert g xs idx; induction n as [|n IH]; intros g xs idx Hn; [done|].
  cbn [shuffle_loop]. pose proof (Intn_bound g (Z.of_nat (S n) + 1)) as Hj.
  destruct (Intn g _) as [g' j]; simpl in Hj.
  rewrite IH by (rewrite zlen_exchange; lia).
  apply nthZ_exchange; lia.
Qed.

Lemma shuffle_loop_pos_surj n g xs q : exists idx, (shuffle_loop n g xs idx).2 = q.
Proof.
  revert g xs q; induction n as [|n IH]; intros g xs q; [by exists q|].
  cbn [shuffle_loop]; destruct (Intn g _) as [g' j].
  destruct (IH g' (exchange (Z.of_nat (S n)) j xs) q) as [idx Hidx].
  exists (follow (Z.of_nat (S n)) j idx); by rewrite follow_involutive.
Qed.

(** The order computed by the loop does not depend on the tracked position. *)
Lemma shuffle_loop_order n g xs p q : (shuffle_loop n g xs p).1 = (shuffle_loop n g xs q).1.
Proof.
  revert g xs p q; induction n as [|n IH]; intros; [done|].
  cbn [shuffle_loop]; destruct (Intn g _); apply IH.
Qed.

Lemma unshuffle_loop_snoc n i ex xs idx :
  unshuffle_loop (S n) i ex xs idx =
  (p ← unshuffle_loop n i ex xs idx;
   j ← index ex (zlen p.1 - (i + Z.of_nat n) - 1);
   Ret (exchange (i + Z.of_nat n) j p.1, follow (i + Z.of_nat n) j p.2)).
Proof.
  revert i xs idx; induction n as [|n IH]; intros i xs idx.
  - simpl. by rewrite Z.add_0_r.
  - cbn [unshuffle_loop] in IH |- *.
    destruct (index ex (zlen xs - i - 1)) as [j| |]; [|done|done].
    rewrite !run_bind_Ret, IH.
    by replace (i + 1 + Z.of_nat n) with (i + Z.of_nat (S n)) by lia.
Qed.

Lemma zlen_draw_exchanges n g : zlen (draw_exchanges n g) = Z.of_nat n.
Proof.
  revert g; induction n as [|n IH]; intros g; [done|].
  cbn [draw_exchanges]; destruct (Intn g _); rewrite zlen_cons, IH; lia.
Qed.

(** Replaying the same draws in the opposite order undoes the loop. *)
Lemma unshuffle_loop_inverse n g pre xs idx :
  zlen xs = zlen pre + Z.of_nat n + 1 ->
  unshuffle_loop n 1 (pre ++ draw_exchanges n g)
    (shuffle_loop n g xs idx).1 (shuffle_loop n g xs idx).2 = Ret (xs, idx).
Proof.
  revert g pre xs idx; induction n as [|n IH]; intros g pre xs idx Hlen; [done|].
  cbn [shuffle_loop draw_exchanges].
  pose proof (Intn_bound g (Z.of_nat (S n) + 1)) as Hj.
  destruct (Intn g _) as [g' j]; simpl in Hj.
  rewrite cons_middle, (app_assoc pre), unshuffle_loop_snoc, IH by zlen.
  rewrite run_bind_Ret; simpl fst; simpl snd.
  rewrite zlen_exchange.
  assert (Hi : index ((pre ++ [j]) ++ draw_exchanges n g')
                 (zlen xs - (1 + Z.of_nat n) - 1) = Ret j).
  { apply index_Ret.
    replace (zlen xs - (1 + Z.of_nat n) - 1) with (zlen pre) by lia.
    by rewrite <- app_assoc, nthZ_app_r, Z.sub_diag by lia. }
  pose proof (zlen_nonneg pre).
  rewrite Hi, run_bind_Ret.
  replace (1 + Z.of_nat n) with (Z.of_nat (S n)) by lia.
  by rewrite exchange_involutive, follow_involutive by lia.
Qed.

(** Undoing a shuffle with the same generator restores the order, wherever
    the position has moved meanwhile, and the position keeps naming the
    entry it was on. *)
Lemma unshuffle_shuffle l g q :
  exists q', unshuffle (PagedList (pl_list (shuffle l g)) q) g
               = Ret (PagedList (pl_list l) q')
             /\ nthZ (pl_list l) q' = nthZ (pl_list (shuffle l g)) q.
Proof.
  pose proof (zlen_shuffle l g) as Hlen.
  unfold shuffle in *; case_decide as Hc; simpl in *.
  { unfold unshuffle; simpl. rewrite decide_True by done. eauto. }
  set (n := Z.to_nat (zlen (pl_list l) - 1)) in *.
  destruct (shuffle_loop_pos_surj n g (pl_list l) q) as [idx Hidx].
  pose proof (unshuffle_loop_inverse n g [] (pl_list l) idx ltac:(zlen)) as Hinv.
  pose proof (shuffle_loop_follows n g (pl_list l) idx ltac:(lia)) as Hf.
  pose proof (shuffle_loop_order n g (pl_list l) (pl_pos l) idx) as Ho.
  destruct (shuffle_loop n g (pl_list l) (pl_pos l)) as [ys p]; simpl in *; subst ys.
  exists idx; split; [|by rewrite <- Hf, Hidx].
  unfold unshuffle; cbn [pl_list pl_pos].
  rewrite decide_False by lia.
  rewrite zlen_shuffle_loop. fold n. rewrite <- Hidx, Hinv. done.
Qed.

Lemma draw_exchanges_range n g m :
  Z.of_nat n < m -> Forall (fun j => 0 <= j < m) (draw_exchanges n g).
Proof.
  revert g; induction n as [|n IH]; intros g Hn; [constructor|].
  cbn [draw_exchanges]. pose proof (Intn_bound g (Z.of_nat (S n) + 1)) as Hj.
  destruct (Intn g _) as [g' j]; simpl in Hj. constructor; [lia|]. apply IH; lia.
Qed.

(** Whatever list it is given, [unshuffle] permutes it and keeps the position
    on its entry. *)
Lemma unshuffle_loop_total todo i ex xs idx :
  1 <= i -> i + Z.of_nat todo <= zlen xs -> zlen ex = zlen xs - 1 ->
  Forall (fun j => 0 <= j < zlen xs) ex ->
  exists ys q, unshuffle_loop todo i ex xs idx = Ret (ys, q) /\ ys ≡ₚ xs /\ nthZ ys q = nthZ xs idx.
Proof.
  revert i xs idx; induction todo as [|todo IH]; intros i xs idx Hi Hle Hex Hr; [by eauto|].
  cbn [unshuffle_loop].
  destruct (index_returns ex (zlen xs - i - 1)) as (j & Hj & Hnj); [lia|].
  rewrite Hj, run_bind_Ret.
  assert (0 <= j < zlen xs) by (rewrite Forall_forall in Hr; eapply Hr, nthZ_In; done).
  destruct (IH (i + 1) (exchange i j xs) (follow i j idx)) as (ys & q & Hl & Hp & Hn);
    rewrite ?zlen_exchange; try lia; [done|].
  exists ys, q; split_and!; [done|by rewrite Hp, exchange_perm|].
  rewrite Hn. apply nthZ_exchange; lia.
Qed.

Lemma unshuffle_total l g :
  exists l', unshuffle l g = Ret l' /\ pl_list l' ≡ₚ pl_list l
             /\ nthZ (pl_list l') (pl_pos l') = nthZ (pl_list l) (pl_pos l).
Proof.
  unfold unshuffle; case_decide; [by eauto|].
  set (n := Z.to_nat (zlen (pl_list l) - 1)).
  destruct (unshuffle_loop_total n 1 (draw_exchanges n g) (pl_list l) (pl_pos l))
    as (ys & q & -> & Hp & Hn); [lia|lia|rewrite zlen_draw_exchanges; lia| |].
  { apply draw_exchanges_range; lia. }
  rewrite run_bind_Ret. by eexists.
Qed.

Lemma shuffle_perm l g : pl_list (shuffle l g) ≡ₚ pl_list l.
Proof.
  unfold shuffle; case_decide; [done|].
  pose proof (shuffle_loop_perm (Z.to_nat (zlen (pl_list l) - 1)) g (pl_list l) (pl_pos l)).
  by destruct (shuffle_loop _ _ _ _).
Qed.

Lemma shuffle_follows l g :
  nthZ (pl_list (shuffle l g)) (pl_pos (shuffle l g)) = nthZ (pl_list l) (pl_pos l).
Proof.
  unfold shuffle; case_decide; [done|].
  pose proof (shuffle_loop_follows (Z.to_nat (zlen (pl_list l) - 1)) g (pl_list l) (pl_pos l)).
  destruct (shuffle_loop _ _ _ _); simpl in *. apply H0. lia.
Qed.
End shuffle_facts.

(** ** Paging *)
Section paging_facts.
Context {R T : Type} `{!PageResolver R T}.
Implicit Types (l : pagedList T) (it : pagedListInterator) (r : R).

(** The position of a list is [-1] (never positioned) or a loaded entry. *)
Definition pl_ok l : Prop := pl_pos l = -1 \/ 0 <= pl_pos l < zlen (pl_list l).

Lemma length_page_items pg (items : list T) : length (page_items pg items) = length items.
Proof. apply length_imap. Qed.

Lemma fetchNextPage_spec r l r' l' pg err :
  fetchNextPage r l = (r', l', pg, err) ->
  pl_pos l' = pl_pos l /\ pg = next_page_idx l /\
  match err with
  | None => exists items, items <> [] /\ (Page r pg) = (r', Ok items)
                          /\ pl_list l' = pl_list l ++ page_items pg items
  | Some _ => l' = l
  end.
Proof.
  unfold fetchNextPage; destruct (Page r (next_page_idx l)) as [r1 [items|e]] eqn:HP.
  - destruct items as [|x items]; intros [= <- <- <- <-]; [done|].
    repeat split. exists (x :: items); by rewrite HP.
  - by intros [= <- <- <- <-].
Qed.

Lemma fetchNextPage_grows r l r' l' pg :
  fetchNextPage r l = (r', l', pg, None) -> zlen (pl_list l) < zlen (pl_list l').
Proof.
  intros (_ & _ & items & Hne & _ & ->)%fetchNextPage_spec.
  rewrite zlen_app. unfold zlen at 3. rewrite length_page_items.
  destruct items; simpl; [done|lia].
Qed.

Lemma next_loop_total fuel r l it :
  it_pos it + 2 - zlen (pl_list l) <= Z.of_nat fuel -> returns (next_loop fuel r l it).
Proof.
  revert r l; induction fuel as [|fuel IH]; intros r l Hf; simpl; case_decide; try lia;
    try by eexists.
  destruct (fetchNextPage r l) as [[[r' l'] pg] [e|]] eqn:E.
  - destruct (errors_Is e io_EOF); by eexists.
  - apply IH. apply fetchNextPage_grows in E. lia.
Qed.

Lemma next_loop_spec fuel r l it r' l' b it' :
  next_loop fuel r l it = Ret (r', l', b, it') ->
  (exists ext, pl_list l' = pl_list l ++ ext) /\ pl_pos l' = pl_pos l /\
  (if b then it_pos it' = it_pos it + 1 /\ it_pos it' < zlen (pl_list l') /\ it_err it' = None
   else it_pos it' = it_pos it /\ zlen (pl_list l') <= it_pos it + 1).
Proof.
  revert r l; induction fuel as [|fuel IH]; intros r l; simpl; case_decide; try done.
  - intros [= <- <- <- <-]; split_and!; simpl; try lia; try done.
    exists []; by rewrite app_nil_r.
  - destruct (fetchNextPage r l) as [[[r1 l1] pg] err] eqn:E.
    apply fetchNextPage_spec in E as (Hpos & _ & Hfetch).
    destruct err as [e|].
    + subst l1. destruct (errors_Is e io_EOF); intros [= <- <- <- <-];
        split_and!; simpl; try done; exists []; by rewrite app_nil_r.
    + destruct Hfetch as (items & _ & _ & Hl1).
      intros ((ext & Hext) & Hp & Hb)%IH. split_and!; [|congruence|done].
      exists (page_items pg items ++ ext). by rewrite Hext, Hl1, app_assoc.
  - intros [= <- <- <- <-]; split_and!; simpl; try lia; try done.
    exists []; by rewrite app_nil_r.
Qed.

Lemma it_next_total r l it : returns (it_next r l it).
Proof. apply next_loop_total. unfold next_fuel. lia. Qed.

Lemma it_next_spec r l it r' l' b it' :
  it_next r l it = Ret (r', l', b, it') ->
  (exists ext, pl_list l' = pl_list l ++ ext) /\ pl_pos l' = pl_pos l /\
  (if b then it_pos it' = it_pos it + 1 /\ it_pos it' < zlen (pl_list l') /\ it_err it' = None
   else it_pos it' = it_pos it /\ zlen (pl_list l') <= it_pos it + 1).
Proof. apply next_loop_spec. Qed.

(** An iterator that did not have to fetch leaves list and resolver alone. *)
Lemma it_next_resident r l it :
  it_pos it + 1 < zlen (pl_list l) -> it_next r l it = Ret (r, l, true, PagedIter (it_pos it + 1) None).
Proof.
  intros H. unfold it_next. destruct (next_fuel l it); simpl; rewrite decide_False by lia; done.
Qed.

Lemma it_get_Ret l it : 0 <= it_pos it < zlen (pl_list l) ->
  exists x, it_get l it = Ret x /\ nthZ (pl_list l) (it_pos it) = Some x.
Proof.
  intros H. unfold it_get. rewrite decide_False by lia. by apply index_returns.
Qed.

Lemma pl_get_Ret l : 0 <= pl_pos l < zlen (pl_list l) ->
  exists x, pl_get l = Ret x /\ nthZ (pl_list l) (pl_pos l) = Some x.
Proof.
  intros H. unfold pl_get. rewrite decide_False by lia. by apply index_returns.
Qed.

(** [moveStart] on success positions the list on its first entry. *)
Lemma pl_moveStart_spec r l r' l' err :
  pl_moveStart r l = (r', l', err) ->
  (exists ext, pl_list l' = pl_list l ++ ext) /\
  match err with
  | None => pl_pos l' = 0 /\ 0 < zlen (pl_list l')
  | Some _ => l' = l
  end.
Proof.
  unfold pl_moveStart; case_decide as Hz.
  - destruct (fetchNextPage r l) as [[[r1 l1] pg] e1] eqn:E.
    pose proof (fetchNextPage_spec _ _ _ _ _ _ E) as (_ & _ & Hs).
    destruct e1 as [e|].
    + subst l1. destruct (errors_Is e io_EOF); intros [= <- <- <-]; split; try done;
        exists []; by rewrite app_nil_r.
    + pose proof (fetchNextPage_grows _ _ _ _ _ E).
      destruct Hs as (items & _ & _ & Hl). intros [= <- <- <-]; simpl.
      split; [eauto|split; [done|lia]].
  - intros [= <- <- <-]; simpl. split; [exists []; by rewrite app_nil_r|].
    pose proof (zlen_nonneg (pl_list l)); split; [done|lia].
Qed.

(** ** The loaded list is a prefix of the context

    [pages] is what a resolver whose answers do not change over time serves
    for each index; [loaded_pages pages k] is the list after [k] pages. *)
Definition consistent (pages : Z -> list T) : Prop :=
  forall r i r' items, Page r i = (r', Ok items) -> items = pages i.

Definition loaded_pages (pages : Z -> list T) (k : nat) : list (pagedListItem T) :=
  mjoin ((fun i => page_items (Z.of_nat i) (pages (Z.of_nat i))) <$> seq 0 k).

Lemma loaded_pages_S pages k :
  loaded_pages pages (S k) = loaded_pages pages k ++ page_items (Z.of_nat k) (pages (Z.of_nat k)).
Proof.
  unfold loaded_pages. rewrite seq_S, fmap_app, join_app; simpl. by rewrite app_nil_r.
Qed.

Lemma last_page_items pg (items : list T) x :
  last (page_items pg items) = Some x -> pageIdx x = pg.
Proof.
  rewrite last_lookup. unfold page_items.
  rewrite list_lookup_imap. intros (y & _ & ->)%fmap_Some; done.
Qed.

Lemma next_page_idx_loaded pages k p :
  (forall i, (i < k)%nat -> pages (Z.of_nat i) <> []) ->
  next_page_idx (PagedList (loaded_pages pages k) p) = Z.of_nat k.
Proof.
  intros Hne. unfold next_page_idx; simpl.
  destruct k as [|k]; [done|].
  rewrite loaded_pages_S, last_app.
  assert (Hk := Hne k ltac:(lia)).
  destruct (last (page_items (Z.of_nat k) (pages (Z.of_nat k)))) as [x|] eqn:E.
  - apply last_page_items in E. lia.
  - apply last_None in E. apply (f_equal length) in E.
    rewrite length_page_items in E. destruct (pages (Z.of_nat k)); done.
Qed.

(** Fetching extends a context prefix by exactly the next page. *)
Lemma fetchNextPage_loaded pages r l r' l' pg k :
  consistent pages -> (forall i, (i < k)%nat -> pages (Z.of_nat i) <> []) ->
  pl_list l = loaded_pages pages k ->
  fetchNextPage r l = (r', l', pg, None) ->
  pl_list l' = loaded_pages pages (S k) /\ pages (Z.of_nat k) <> [].
Proof.
  intros Hc Hne Hl (_ & Hpg & items & Hi & HP & Hl')%fetchNextPage_spec.
  destruct l as [xs p]; simpl in *; subst xs.
  rewrite next_page_idx_loaded in Hpg by done; subst pg.
  apply Hc in HP; subst items. by rewrite Hl', loaded_pages_S.
Qed.
End paging_facts.
