(* ===== verification/Ids.v ===== *)
(** * Spotify identifiers and context tracks ([src/ids.go])

    Base62 and URI forms of a 16-byte gid, the type inference of a context and
    the conversion of a context track to the provided track that is published.
    [math/big]'s base-62 text conversions are modelled on [Z]. *)

From S2P Require Import Prelude.
From Stdlib Require Import Ascii String.
#[local] Open Scope string_scope.
#[local] Open Scope list_scope.
#[local] Open Scope Z_scope.

(** ** [strings] helpers *)

(** [strings.Split(s, sep)] for a one-character separator. *)
Fixpoint split_on (sep : ascii) (s : string) : list string :=
  match s with
  | EmptyString => [""]
  | String c s' =>
    if decide (c = sep) then "" :: split_on sep s'
    else match split_on sep s' with
         | [] => [String c EmptyString]
         | w :: ws => String c w :: ws
         end
  end.

(** [strconv.ParseUint(s, 10, 64)]: [None] for its error. *)
Definition decimal_digit (c : ascii) : option Z :=
  let n := Z.of_nat (nat_of_ascii c) in
  if (48 <=? n) && (n <=? 57) then Some (n - 48) else None.

Fixpoint parse_digits (acc : Z) (l : list ascii) : option Z :=
  match l with
  | [] => Some acc
  | c :: l => match decimal_digit c with Some d => parse_digits (acc * 10 + d) l | None => None end
  end.

Definition ParseUint (l : list ascii) : option Z :=
  match l with
  | [] => None
  | _ => match parse_digits 0 l with
         | Some n => if decide (n < 2 ^ 64) then Some n else None
         | None => None
         end
  end.

(** [strconv.Atoi]: an optional sign and decimal digits, within 64 bits. *)
Definition Atoi (s : string) : option Z :=
  let '(neg, body) :=
    match list_ascii_of_string s with
    | "-"%char :: b => (true, b)
    | "+"%char :: b => (false, b)
    | b => (false, b)
    end in
  match body with
  | [] => None
  | _ => v ← parse_digits 0 body;
         let v := if neg : bool then - v else v in
         if decide (- 2 ^ 63 <= v < 2 ^ 63) then Some v else None
  end.

(** [strings.HasPrefix] / [strings.HasSuffix]. *)
Definition has_prefix (p s : string) : bool := String.prefix p s.
Definition str_len (s : string) : Z := Z.of_nat (String.length s).
Definition str_rev (s : string) : string :=
  string_of_list_ascii (reverse (list_ascii_of_string s)).
Definition has_suffix (p s : string) : bool := has_prefix (str_rev p) (str_rev s).

Definition SpotifyIdType := string.
Definition SpotifyIdTypeTrack : SpotifyIdType := "track".
Definition SpotifyIdTypeEpisode : SpotifyIdType := "episode".
Definition SpotifyIdTypePlaylist : SpotifyIdType := "playlist".
Definition SpotifyIdTypeAlbum : SpotifyIdType := "album".
Definition SpotifyIdTypeArtist : SpotifyIdType := "artist".
Definition SpotifyIdTypeShow : SpotifyIdType := "show".
Definition SpotifyIdTypeUnknown : SpotifyIdType := "".

Definition str_in (s : string) (l : list string) : bool := bool_decide (s ∈ l).

Definition ContextUriType (uri : string) : string :=
  match split_on ":" uri with
  | p0 :: p1 :: p2 :: rest =>
    if negb (String.eqb p0 "spotify") then ""
    else match rest with
         | p3 :: _ => if String.eqb p1 "user" then p3 else p1
         | [] => p1
         end
  | _ => ""
  end.

Definition InferSpotifyIdTypeFromContextUri (uri : string) : SpotifyIdType :=
  let typ := ContextUriType uri in
  if str_in typ ["episode"; "show"; "chapter"; "audiobook"] then SpotifyIdTypeEpisode
  else if str_in typ ["album"; "artist"; "playlist"; "track"; "station"; "dailymix";
                      "collection"; "top"; "trackset"; "list"; "local"; "concept";
                      "running"; "genre"; "radio"; "folder"]
  then if has_suffix ":collection:your-episodes" uri then SpotifyIdTypeEpisode
       else SpotifyIdTypeTrack
  else SpotifyIdTypeUnknown.

(** ** The URI pattern [^spotify:([a-z]+):([0-9a-zA-Z]{21,22})$] *)
Definition is_lower (c : ascii) : bool :=
  (97 <=? Z.of_nat (nat_of_ascii c)) && (Z.of_nat (nat_of_ascii c) <=? 122).
Definition is_alnum (c : ascii) : bool :=
  let n := Z.of_nat (nat_of_ascii c) in
  is_lower c || ((65 <=? n) && (n <=? 90)) || ((48 <=? n) && (n <=? 57)).

(** The two captures, or [None] when [FindStringSubmatch] returns nil. *)
Definition UriRegexp_match (uri : string) : option (string * string) :=
  match split_on ":" uri with
  | [p; typ; id] =>
    if String.eqb p "spotify"
       && negb (String.eqb typ "") && forallb is_lower (list_ascii_of_string typ)
       && ((21 <=? str_len id) && (str_len id <=? 22))
       && forallb is_alnum (list_ascii_of_string id)
    then Some (typ, id) else None
  | _ => None
  end.

(** ** Base 62

    [big.Int.Text(62)] and [SetString(_, 62)]: digits, then lower case, then
    upper case. *)
Definition digit_char (d : Z) : ascii :=
  ascii_of_nat (Z.to_nat (if d <? 10 then 48 + d else if d <? 36 then 87 + d else 29 + d)).

Definition char_digit (c : ascii) : option Z :=
  let n := Z.of_nat (nat_of_ascii c) in
  if (48 <=? n) && (n <=? 57) then Some (n - 48)
  else if (97 <=? n) && (n <=? 122) then Some (n - 87)
  else if (65 <=? n) && (n <=? 90) then Some (n - 29)
  else None.

(** Most significant digit first; [Z.log2 n + 1] digits always suffice. *)
Fixpoint digits62 (fuel : nat) (n : Z) (acc : list Z) : list Z :=
  match fuel with
  | O => acc
  | S fuel => if n <? 62 then n :: acc else digits62 fuel (n `div` 62) (n `mod` 62 :: acc)
  end.

Definition val62 (ds : list Z) : Z := foldl (fun a d => a * 62 + d) 0 ds.

Definition Text62 (n : Z) : string :=
  string_of_list_ascii (digit_char <$> digits62 (S (Z.to_nat (Z.log2 n))) n []).

(** [SetString(s, 62)]: an optional sign, then at least one digit. *)
Definition SetString62 (s : string) : option Z :=
  let '(neg, body) :=
    match list_ascii_of_string s with
    | "-"%char :: b => (true, b)
    | "+"%char :: b => (false, b)
    | b => (false, b)
    end in
  match body with
  | [] => None
  | _ => ds ← mapM char_digit body; Some (if neg : bool then - val62 ds else val62 ds)
  end.

Record SpotifyId := MkSpotifyId { id_typ : SpotifyIdType; id_id : list Z }.

#[export] Instance SpotifyId_eq_dec : EqDecision SpotifyId.
Proof. solve_decision. Defined.

(** [strings.Repeat("0", 22-len(s)) + s]: a negative count panics. *)
Definition GidToBase62 (id : list Z) : run string :=
  let s := Text62 (be_val id) in
  if decide (22 - str_len s < 0) then Panic "strings: negative Repeat count"
  else Ret (string_of_list_ascii (replicate (Z.to_nat (22 - str_len s)) "0"%char) ++ s)%string.

Definition Base62 (id : SpotifyId) : run string := GidToBase62 (id_id id).

Definition Uri (id : SpotifyId) : run string :=
  b ← Base62 id; Ret ("spotify:" ++ id_typ id ++ ":" ++ b)%string.

Definition SpotifyIdFromGid (typ : SpotifyIdType) (id : list Z) : run SpotifyId :=
  if decide (zlen id <> 16) then Panic "invalid gid" else Ret (MkSpotifyId typ id).

(** [FillBytes] takes the absolute value and panics when it does not fit. *)
Definition FillBytes16 (i : Z) : run (list Z) :=
  if decide (2 ^ 128 <= Z.abs i) then Panic "math/big: buffer too small to fit value"
  else Ret (be_bytes 16 (Z.abs i)).

Definition SpotifyIdFromBase62 (typ : SpotifyIdType) (id : string) : run (result SpotifyId) :=
  match SetString62 id with
  | None => Ret (Err (EMsg "failed decoding base62"))
  | Some i => bs ← FillBytes16 i; Ret (Ok (MkSpotifyId typ bs))
  end.

Definition SpotifyIdFromUri (uri : string) : run (result SpotifyId) :=
  match UriRegexp_match uri with
  | None => Ret (Err (EMsg "invalid uri"))
  | Some (typ, id) => SpotifyIdFromBase62 typ id
  end.

(** [hex.EncodeToString]. *)
Definition hex_digit (d : Z) : ascii :=
  ascii_of_nat (Z.to_nat (if d <? 10 then 48 + d else 87 + d)).
Definition hex_encode (bs : list Z) : string :=
  string_of_list_ascii (b ← bs; [hex_digit (b `div` 16); hex_digit (b `mod` 16)]).
Definition Hex (id : SpotifyId) : string := hex_encode (id_id id).

(** ** Tracks and their metadata maps

    A Go map is a reference: [ContextTrackToProvidedTrack] hands over the very
    map of the context track, so the maps live in a store and a track holds
    the location of its map ([None] is Go's nil map). *)
Definition loc := positive.
Abbreviation metadata := (gmap string string).
Abbreviation mheap := (gmap loc metadata).

(** [m[key]]: the zero value for a nil map or a missing key. *)
Definition meta_get (h : mheap) (m : option loc) (key : string) : string :=
  default "" (p ← m; mm ← h !! p; mm !! key).

Record ContextTrack := MkContextTrack {
  ct_Uri : string;
  ct_Uid : string;
  ct_Gid : list Z;
  ct_Metadata : option loc
}.

Record ProvidedTrack := MkProvidedTrack {
  pt_Uri : string;
  pt_Uid : string;
  pt_Metadata : option loc;
  pt_ArtistUri : string;
  pt_AlbumUri : string;
  pt_Provider : string
}.

#[export] Instance ContextTrack_eq_dec : EqDecision ContextTrack.
Proof. solve_decision. Defined.

Definition track_uri (typ : SpotifyIdType) (t : ContextTrack) : run string :=
  if decide (ct_Uri t <> "") then Ret (ct_Uri t)
  else if decide (0 < zlen (ct_Gid t)) then sid ← SpotifyIdFromGid typ (ct_Gid t); Uri sid
  else Panic "invalid context track".

Definition ContextTrackToProvidedTrack (h : mheap) (typ : SpotifyIdType) (t : ContextTrack)
  : run ProvidedTrack :=
  uri ← track_uri typ t;
  let provider :=
    if String.eqb (meta_get h (ct_Metadata t) "is_queued") "true" then "queue"
    else if String.eqb (meta_get h (ct_Metadata t) "autoplay.is_autoplay") "true" then "autoplay"
    else "context" in
  Ret (MkProvidedTrack uri (ct_Uid t) (ct_Metadata t)
         (meta_get h (ct_Metadata t) "artist_uri") (meta_get h (ct_Metadata t) "album_uri")
         provider).

(** [connectpb.Context], as far as the type inference reads it. *)
Record SpotContext := MkSpotContext { ctx_uri : string; ctx_pages : list (list ContextTrack) }.

(** The first item whose uri names a track or an episode. *)
Fixpoint first_item_type (ts : list ContextTrack) : option SpotifyIdType :=
  match ts with
  | [] => None
  | t :: ts =>
    match UriRegexp_match (ct_Uri t) with
    | Some (typ, _) =>
      if String.eqb typ SpotifyIdTypeTrack || String.eqb typ SpotifyIdTypeEpisode
      then Some typ else first_item_type ts
    | None => first_item_type ts
    end
  end.

Definition InferSpotifyIdTypeFromContext (ctx : SpotContext) : SpotifyIdType :=
  if negb (String.eqb (ctx_uri ctx) "") then InferSpotifyIdTypeFromContextUri (ctx_uri ctx)
  else
    let items := mjoin (ctx_pages ctx) in
    match first_item_type items with
    | Some typ => typ
    | None => if decide (0 < zlen items) then SpotifyIdTypeTrack else SpotifyIdTypeUnknown
    end.

(** ** Facts about base 62 *)
Definition digit62 (d : Z) : Prop := 0 <= d < 62.

Lemma digit62_cases (P : Z -> Prop) :
  Forall P (Z.of_nat <$> seq 0 62) -> forall d, digit62 d -> P d.
Proof.
  intros HP d Hd. rewrite Forall_fmap, Forall_seq in HP.
  specialize (HP (Z.to_nat d)); unfold digit62, compose in *.
  rewrite Z2Nat.id in HP by lia. apply HP. lia.
Qed.

Lemma char_digit_digit_char d : digit62 d -> char_digit (digit_char d) = Some d.
Proof.
  revert d; apply digit62_cases.
  apply (bool_decide_unpack _). vm_compute. exact I.
Qed.

Lemma is_alnum_digit_char d : digit62 d -> is_alnum (digit_char d) = true.
Proof.
  revert d; apply (digit62_cases (fun d => is_alnum (digit_char d) = true)).
  apply (bool_decide_unpack _). vm_compute. exact I.
Qed.

Lemma foldl_digits_app a ds es :
  foldl (fun a d => a * 62 + d) a (ds ++ es) = foldl (fun a d => a * 62 + d) (foldl (fun a d => a * 62 + d) a ds) es.
Proof. apply foldl_app. Qed.

Lemma foldl_digits_shift a ds :
  foldl (fun a d => a * 62 + d) a ds = a * 62 ^ zlen ds + val62 ds.
Proof.
  unfold val62. revert a; induction ds as [|d ds IH]; intros a; simpl; [rewrite zlen_nil; lia|].
  rewrite IH, (IH (0 * 62 + d)). rewrite zlen_cons, Z.pow_add_r by (pose proof (zlen_nonneg ds); lia).
  change (62 ^ 1) with 62. ring.
Qed.

Lemma val62_app ds es : val62 (ds ++ es) = val62 ds * 62 ^ zlen es + val62 es.
Proof. unfold val62 at 1. rewrite foldl_digits_app. apply foldl_digits_shift. Qed.

Lemma val62_zeros k ds : val62 (replicate k 0 ++ ds) = val62 ds.
Proof. rewrite val62_app. induction k as [|k IH]; [by unfold val62; simpl; lia|]. exact IH. Qed.

Lemma val62_bound ds : Forall digit62 ds -> 0 <= val62 ds < 62 ^ zlen ds.
Proof.
  induction 1 as [|d ds Hd _ IH]; [unfold val62, zlen; simpl; lia|].
  change (d :: ds) with ([d] ++ ds); rewrite val62_app, zlen_app.
  change (val62 [d]) with (0 * 62 + d). change (zlen [d]) with 1.
  rewrite Z.pow_add_r by (pose proof (zlen_nonneg ds); lia). unfold digit62 in Hd.
  change (62 ^ 1) with 62. nia.
Qed.

Lemma digits62_app fuel n acc : digits62 fuel n acc = (digits62 fuel n [] ++ acc).
Proof.
  revert n acc; induction fuel as [|fuel IH]; intros n acc; simpl; [done|].
  destruct (n <? 62); [done|].
  rewrite IH, (IH _ [_]). by rewrite <- app_assoc.
Qed.

Lemma digits62_ok fuel n : 0 <= n < 2 ^ Z.of_nat fuel ->
  val62 (digits62 fuel n []) = n /\ Forall digit62 (digits62 fuel n []).
Proof.
  revert n; induction fuel as [|fuel IH]; intros n Hn.
  { replace n with 0 by (simpl in Hn; lia). by split. }
  rewrite Nat2Z.inj_succ, Z.pow_succ_r in Hn by lia.
  simpl. destruct (Z.ltb_spec n 62).
  { split; [unfold val62; simpl; lia|]. constructor; [unfold digit62; lia|constructor]. }
  rewrite digits62_app.
  assert (Hdiv : 0 <= n `div` 62 < 2 ^ Z.of_nat fuel).
  { split; [apply Z.div_pos; lia|]. apply Z.div_lt_upper_bound; lia. }
  destruct (IH _ Hdiv) as [Hv Hd]. split.
  - rewrite val62_app, Hv. change (zlen [n `mod` 62]) with 1.
    change (val62 [n `mod` 62]) with (0 * 62 + n `mod` 62). change (62 ^ 1) with 62.
    pose proof (Z.div_mod n 62 ltac:(lia)). lia.
  - apply Forall_app; split; [done|]. constructor; [|constructor].
    unfold digit62. apply Z.mod_pos_bound; lia.
Qed.

Lemma digits62_length fuel n k : 0 <= n < 62 ^ k -> 1 <= k -> zlen (digits62 fuel n []) <= k.
Proof.
  revert n k; induction fuel as [|fuel IH]; intros n k Hn Hk; simpl; [unfold zlen; simpl; lia|].
  destruct (Z.ltb_spec n 62); [unfold zlen; simpl; lia|].
  rewrite digits62_app, zlen_app. change (zlen [n `mod` 62]) with 1.
  assert (1 < k).
  { destruct (decide (k = 1)) as [->|]; [|lia]. lia. }
  assert (Hd : 0 <= n `div` 62 < 62 ^ (k - 1)).
  { split; [apply Z.div_pos; lia|]. apply Z.div_lt_upper_bound; [lia|].
    rewrite <- Z.pow_succ_r by lia. replace (Z.succ (k - 1)) with k by lia. lia. }
  specialize (IH _ _ Hd). lia.
Qed.

Lemma digits62_nonempty fuel n : digits62 (S fuel) n [] <> [].
Proof.
  simpl. destruct (n <? 62); [done|]. rewrite digits62_app. by destruct (digits62 fuel _ []).
Qed.

Lemma mapM_char_digit ds : Forall digit62 ds -> mapM char_digit (digit_char <$> ds) = Some ds.
Proof.
  induction 1 as [|d ds Hd _ IH]; [done|]. cbn [fmap list_fmap mapM].
  rewrite char_digit_digit_char by done. simpl. by rewrite IH.
Qed.

(** Decoding a digit string gives its value. *)
Lemma SetString62_digits ds :
  ds <> [] -> Forall digit62 ds ->
  SetString62 (string_of_list_ascii (digit_char <$> ds)) = Some (val62 ds).
Proof.
  intros Hne Hds. unfold SetString62. rewrite list_ascii_of_string_of_list_ascii.
  pose proof (mapM_char_digit ds Hds) as Hm.
  destruct ds as [|d ds]; [done|]. cbn [fmap list_fmap] in *.
  assert (Hd : digit62 d) by (by inversion Hds).
  pose proof (char_digit_digit_char d Hd) as Hc.
  destruct (digit_char d) as [[] [] [] [] [] [] [] []]; try discriminate Hc;
    cbn [fmap list_fmap] in *; by rewrite Hm.
Qed.

Lemma string_of_list_ascii_app a b :
  string_of_list_ascii (a ++ b) = (string_of_list_ascii a ++ string_of_list_ascii b)%string.
Proof. induction a as [|c a IH]; simpl; [done|by rewrite IH]. Qed.

Lemma str_len_of_list a : str_len (string_of_list_ascii a) = zlen a.
Proof. unfold str_len, zlen. induction a as [|c a IH]; simpl; lia. Qed.

(** The base-62 form of a 16-byte gid: 22 digits with the value of the gid. *)
Lemma GidToBase62_digits id :
  zlen id = 16 -> bytes_ok id ->
  exists ds, GidToBase62 id = Ret (string_of_list_ascii (digit_char <$> ds))
             /\ Forall digit62 ds /\ zlen ds = 22 /\ val62 ds = be_val id.
Proof.
  intros Hlen Hok. pose proof (be_val_bound id Hok) as Hb. rewrite Hlen in Hb.
  change (16 * 8) with 128 in Hb.
  set (n := be_val id) in *.
  set (fuel := Z.to_nat (Z.log2 n)).
  assert (Hf : 0 <= n < 2 ^ Z.of_nat (S fuel)).
  { split; [lia|]. subst fuel. rewrite Nat2Z.inj_succ, Z2Nat.id by apply Z.log2_nonneg.
    destruct (decide (n = 0)) as [->|]; [simpl; lia|]. apply Z.log2_spec; lia. }
  destruct (digits62_ok _ _ Hf) as [Hv Hd].
  assert (Hl : zlen (digits62 (S fuel) n []) <= 22).
  { apply digits62_length; [|lia]. split; [lia|].
    eapply Z.lt_trans; [apply Hb|]. reflexivity. }
  set (ds := digits62 (S fuel) n []) in *.
  set (m := Z.to_nat (22 - zlen ds)).
  assert (Hsl : str_len (Text62 n) = zlen ds).
  { unfold Text62. fold fuel. fold ds. by rewrite str_len_of_list, zlen_fmap. }
  exists (replicate m 0 ++ ds). split_and!.
  - unfold GidToBase62. fold n. rewrite Hsl, decide_False by lia. f_equal.
    unfold Text62. fold fuel ds m. rewrite fmap_app, string_of_list_ascii_app, fmap_replicate.
    done.
  - apply Forall_app; split; [|done]. apply Forall_replicate. unfold digit62; lia.
  - rewrite zlen_app, zlen_replicate. lia.
  - by rewrite val62_zeros.
Qed.

Lemma SpotifyIdFromBase62_digits typ ds :
  ds <> [] -> Forall digit62 ds ->
  SpotifyIdFromBase62 typ (string_of_list_ascii (digit_char <$> ds)) =
  (if decide (2 ^ 128 <= val62 ds) then Panic "math/big: buffer too small to fit value"
   else Ret (Ok (MkSpotifyId typ (be_bytes 16 (val62 ds))))).
Proof.
  intros Hne Hds. unfold SpotifyIdFromBase62. rewrite SetString62_digits by done.
  pose proof (val62_bound ds Hds). unfold FillBytes16. rewrite Z.abs_eq by lia.
  by case_decide.
Qed.

Lemma gid_from_digits id ds :
  zlen id = 16 -> bytes_ok id -> val62 ds = be_val id -> be_bytes 16 (val62 ds) = id.
Proof. intros Hl Hok ->. rewrite <- Hl. by apply be_bytes_be_val. Qed.

(** ** Splitting a uri *)
Definition no_sep (sep : ascii) (s : string) : Prop := sep ∉ list_ascii_of_string s.

Lemma split_on_single sep s : no_sep sep s -> split_on sep s = [s].
Proof.
  unfold no_sep. induction s as [|c s IH]; simpl; [done|].
  intros [Hc Hs]%not_elem_of_cons. rewrite decide_False by done. by rewrite IH.
Qed.

Lemma split_on_app sep a b :
  no_sep sep a -> split_on sep (a ++ String sep b)%string = a :: split_on sep b.
Proof.
  unfold no_sep. induction a as [|c a IH]; simpl; [by rewrite decide_True|].
  intros [Hc Hs]%not_elem_of_cons. rewrite decide_False by done. by rewrite IH.
Qed.

Lemma no_sep_forall p sep s :
  forallb p (list_ascii_of_string s) = true -> p sep = false -> no_sep sep s.
Proof.
  intros Hf Hp Hin. rewrite forallb_forall in Hf.
  apply list_elem_of_In in Hin. specialize (Hf _ Hin). congruence.
Qed.

Lemma forallb_alnum_digits ds :
  Forall digit62 ds -> forallb is_alnum (list_ascii_of_string (string_of_list_ascii (digit_char <$> ds))) = true.
Proof.
  intros Hds. rewrite list_ascii_of_string_of_list_ascii.
  induction Hds as [|d ds Hd _ IH]; [done|]. cbn [fmap list_fmap forallb].
  by rewrite is_alnum_digit_char, IH.
Qed.

(** A type as the pattern's first group accepts it. *)
Definition valid_type (typ : SpotifyIdType) : Prop :=
  typ <> "" /\ forallb is_lower (list_ascii_of_string typ) = true.

Lemma UriRegexp_match_uri typ ds :
  valid_type typ -> Forall digit62 ds -> 21 <= zlen ds <= 22 ->
  UriRegexp_match ("spotify:" ++ typ ++ ":" ++ string_of_list_ascii (digit_char <$> ds))%string
  = Some (typ, string_of_list_ascii (digit_char <$> ds)).
Proof.
  intros [Hne Hlow] Hds Hlen. unfold UriRegexp_match.
  change ("spotify:" ++ typ ++ ":" ++ string_of_list_ascii (digit_char <$> ds))%string
    with ("spotify" ++ String ":" (typ ++ String ":" (string_of_list_ascii (digit_char <$> ds))))%string.
  rewrite split_on_app by (by eapply (no_sep_forall is_alnum)).
  rewrite split_on_app by (by eapply no_sep_forall).
  rewrite split_on_single by (eapply no_sep_forall; [by apply forallb_alnum_digits|done]).
  rewrite forallb_alnum_digits, Hlow by done.
  rewrite str_len_of_list, zlen_fmap.
  destruct (String.eqb_spec typ ""); [done|].
  destruct (Z.leb_spec 21 (zlen ds)); [|lia].
  destruct (Z.leb_spec (zlen ds) 22); [done|lia].
Qed.

(** ** Properties *)

(** a 16-byte gid survives the trip through its 22-character base62 form:
    [GidToBase62] returns (it never panics on 16 bytes) and
    [SpotifyIdFromBase62] of what it returns is the gid again. *)
Theorem base62_roundtrip (typ : SpotifyIdType) (id : list Z)
  (Hlen : zlen id = 16) (Hok : bytes_ok id) :
  exists s, GidToBase62 id = Ret s /\ str_len s = 22
            /\ SpotifyIdFromBase62 typ s = Ret (Ok (MkSpotifyId typ id)).
Proof.
  destruct (GidToBase62_digits id Hlen Hok) as (ds & Hg & Hd & Hl & Hv).
  exists (string_of_list_ascii (digit_char <$> ds)); split_and!; [done| |].
  - by rewrite str_len_of_list, zlen_fmap.
  - rewrite SpotifyIdFromBase62_digits; [|by intros ->|done].
    rewrite decide_False; [by rewrite (gid_from_digits id)|].
    pose proof (be_val_bound id Hok) as Hb. rewrite Hlen in Hb. rewrite Hv. lia.
Qed.

(** The forms of an id and what they parse to. *)
Lemma Uri_digits typ id :
  valid_type typ -> zlen id = 16 -> bytes_ok id ->
  exists ds, Forall digit62 ds /\ zlen ds = 22 /\
    let b := string_of_list_ascii (digit_char <$> ds) in
    let u := ("spotify:" ++ typ ++ ":" ++ b)%string in
    Base62 (MkSpotifyId typ id) = Ret b /\ Uri (MkSpotifyId typ id) = Ret u /\
    SpotifyIdFromBase62 typ b = Ret (Ok (MkSpotifyId typ id)) /\
    SpotifyIdFromUri u = Ret (Ok (MkSpotifyId typ id)).
Proof.
  intros Htyp Hlen Hok; destruct (GidToBase62_digits id Hlen Hok) as (ds & Hg & Hd & Hl & Hv).
  exists ds; cbv zeta; unfold Uri, Base62; simpl; rewrite Hg.
  assert (Hb : SpotifyIdFromBase62 typ (string_of_list_ascii (digit_char <$> ds)) = Ret (Ok (MkSpotifyId typ id))).
  { rewrite SpotifyIdFromBase62_digits; [|by intros ->|done].
    rewrite decide_False; [by rewrite (gid_from_digits id)|].
    pose proof (be_val_bound id Hok) as Hb; rewrite Hlen in Hb; rewrite Hv; lia. }
  split_and!; [done|done|done|done|done|].
  unfold SpotifyIdFromUri; rewrite UriRegexp_match_uri by (done || lia); done.
Qed.

Definition sample_gid : list Z := [24; 0; 255; 3; 1; 2; 3; 4; 5; 6; 7; 8; 9; 10; 11; 12].

Lemma base62_roundtrip_witness :
  exists s, GidToBase62 sample_gid = Ret s /\ str_len s = 22
            /\ SpotifyIdFromBase62 "track" s = Ret (Ok (MkSpotifyId "track" sample_gid)).
Proof.
  apply (base62_roundtrip "track" sample_gid); [reflexivity|].
  apply (bool_decide_unpack _); vm_compute; exact I.
Defined.

(** the URI of an id parses back to the same type and gid, for every type
    the URI pattern admits. *)
Theorem uri_roundtrip (sid : SpotifyId)
  (Htyp : valid_type (id_typ sid)) (Hlen : zlen (id_id sid) = 16) (Hok : bytes_ok (id_id sid)) :
  exists u, Uri sid = Ret u /\ SpotifyIdFromUri u = Ret (Ok sid).
Proof.
  destruct sid as [typ id]; simpl in *.
  destruct (Uri_digits typ id Htyp Hlen Hok) as (ds & _ & _ & _ & Hu & _ & Hp); eauto.
Qed.

Lemma uri_roundtrip_witness :
  exists u, Uri (MkSpotifyId "episode" sample_gid) = Ret u
            /\ SpotifyIdFromUri u = Ret (Ok (MkSpotifyId "episode" sample_gid)).
Proof.
  apply (uri_roundtrip (MkSpotifyId "episode" sample_gid)).
  - split; [discriminate|reflexivity].
  - reflexivity.
  - apply (bool_decide_unpack _); vm_compute; exact I.
Defined.

(** the URI pattern admits base62 ids that do not fit a gid.  On a
    well-formed URI, [SpotifyIdFromUri] panics (instead of returning an error)
    exactly when the id denotes [2^128] or more. *)
Theorem SpotifyIdFromUri_overflow (typ : SpotifyIdType) (ds : list Z)
  (Htyp : valid_type typ) (Hds : Forall digit62 ds) (Hlen : 21 <= zlen ds <= 22) :
  (exists why, SpotifyIdFromUri
     ("spotify:" ++ typ ++ ":" ++ string_of_list_ascii (digit_char <$> ds))%string = Panic why)
  <-> 2 ^ 128 <= val62 ds.
Proof.
  unfold SpotifyIdFromUri. rewrite UriRegexp_match_uri by done.
  rewrite SpotifyIdFromBase62_digits; [|intros ->; unfold zlen in Hlen; simpl in Hlen; lia|done].
  case_decide; split; intros Hx; try done; [by eexists|by destruct Hx].
Qed.

Lemma SpotifyIdFromUri_overflow_witness :
  exists why, SpotifyIdFromUri "spotify:track:ZZZZZZZZZZZZZZZZZZZZZZ" = Panic why.
Proof.
  apply (SpotifyIdFromUri_overflow "track" (replicate 22 61)).
  - split; [discriminate|reflexivity].
  - apply Forall_replicate; split; reflexivity || discriminate.
  - split; discriminate.
  - discriminate.
Defined.
