(* ===== verification/Tracks.v ===== *)
(** * The track list of a context ([src/tracks/tracks.go], [src/tracks/utils.go])

    A [List] is a paged context plus the queue of the user: what plays is the
    head of the queue while [playingQueue] is set, and the entry the paged list
    is positioned on otherwise.  The context resolver's state [R] and the store
    [mheap] of the metadata maps are threaded explicitly. *)

From S2P Require Import Prelude PagedList Ids.
#[local] Open Scope string_scope.
#[local] Open Scope list_scope.
#[local] Open Scope Z_scope.

(** [tracks.ContextResolver]: a page resolver that also names its items' type
    and carries the context's metadata. *)
Class ContextResolver (R : Type) := {
  cr_pages :: PageResolver R ContextTrack;
  cr_Type : R -> SpotifyIdType;
  cr_Metadata : R -> option loc
}.

Definition seekMaxPages : Z := 256.
Definition MaxTracksInContext : Z := 32.

Record List := MkList {
  tl_shuffled : bool;
  tl_shuffleSeed : Z;
  tl_shuffleLen : Z;
  tl_shuffleKeep : Z;
  tl_tracks : pagedList ContextTrack;
  tl_playingQueue : bool;
  tl_queue : list ContextTrack
}.

Definition set_tracks (tl : List) (l : pagedList ContextTrack) : List :=
  MkList (tl_shuffled tl) (tl_shuffleSeed tl) (tl_shuffleLen tl) (tl_shuffleKeep tl)
         l (tl_playingQueue tl) (tl_queue tl).
Definition set_queue (tl : List) (playing : bool) (q : list ContextTrack) : List :=
  MkList (tl_shuffled tl) (tl_shuffleSeed tl) (tl_shuffleLen tl) (tl_shuffleKeep tl)
         (tl_tracks tl) playing q.

Definition newTrackList : List := MkList false 0 0 0 newPagedList false [].

(** ** Comparators *)

(** [SpotifyIdFromGid(typ, gid).Uri()]. *)
Definition gid_uri (typ : SpotifyIdType) (gid : list Z) : run string :=
  sid ← SpotifyIdFromGid typ gid; Uri sid.

(** The test both comparators apply, against a uid and a uri. *)
Definition track_matches (typ : SpotifyIdType) (targetUid targetUri : string) (track : ContextTrack)
  : run bool :=
  if bool_decide (ct_Uid track <> "") && String.eqb (ct_Uid track) targetUid then Ret true
  else if bool_decide (ct_Uri track <> "") && String.eqb (ct_Uri track) targetUri then Ret true
  else if bool_decide (0 < zlen (ct_Gid track)) then
    u ← gid_uri typ (ct_Gid track); Ret (String.eqb u targetUri)
  else Ret false.

Definition ContextTrackComparator (typ : SpotifyIdType) (target : ContextTrack)
  : run (ContextTrack -> run bool) :=
  targetUri ← (if bool_decide (ct_Uri target = "") && bool_decide (0 < zlen (ct_Gid target))
               then gid_uri typ (ct_Gid target) else Ret (ct_Uri target));
  Ret (track_matches typ (ct_Uid target) targetUri).

Definition ProvidedTrackComparator (typ : SpotifyIdType) (target : ProvidedTrack)
  : ContextTrack -> run bool :=
  track_matches typ (pt_Uid target) (pt_Uri target).

(** ** Seeking *)
Section seeking.
Context {R : Type} `{!ContextResolver R}.
Implicit Types (r : R) (l : pagedList ContextTrack) (it : pagedListInterator) (tl : List).

(** The loop of [Seek]; [fuel] bounds the entries walked. *)
Fixpoint seek_loop (fuel : nat) r l it (f : ContextTrack -> run bool)
  : run (R * pagedList ContextTrack * option error) :=
  match fuel with
  | O => OutOfFuel
  | S fuel =>
    '(r', l', b, it') ← it_next r l it;
    if b : bool then
      curr ← it_get l' it';
      found ← f (item curr);
      if found : bool then
        l'' ← pl_move l' it'; Ret (r', l'', None)
      else if decide (seekMaxPages <= pageIdx curr) then
        Ret (r', l', Some (EMsg "gave up seeking after pages"))
      else seek_loop fuel r' l' it' f
    else
      match it_err it' with
      | Some e => Ret (r', l', Some (EWrap "failed fetching tracks for seek" e))
      | None => Ret (r', l', Some (EMsg "could not find track"))
      end
  end.

Definition Seek (fuel : nat) r tl (f : ContextTrack -> run bool) : run (R * List * option error) :=
  '(r', l', err) ← seek_loop fuel r (tl_tracks tl) pl_iterStart f;
  Ret (r', set_tracks tl l', err).

Definition TrySeek (fuel : nat) r tl (f : ContextTrack -> run bool) : run (R * List * option error) :=
  '(r', tl', err) ← Seek fuel r tl f;
  match err with
  | None => Ret (r', tl', None)
  | Some _ =>
    let '(r'', l', err') := pl_moveStart r' (tl_tracks tl') in
    Ret (r'', set_tracks tl' l', err')
  end.

(** [for i := start; i < len(queue); i++]: the index of the first match. *)
Fixpoint queue_find (match_ : ContextTrack -> run bool) (q : list ContextTrack) (i : Z)
  : run (option Z) :=
  match q with
  | [] => Ret None
  | t :: q' => m ← match_ t; if m : bool then Ret (Some i) else queue_find match_ q' (i + 1)
  end.

Definition seekQueue r tl (track : ContextTrack) : run (bool * List) :=
  let start := if tl_playingQueue tl then 1 else 0 in
  match_ ← (if bool_decide (ct_Uid track = "")
            then ContextTrackComparator (cr_Type r) track
            else Ret (fun queued => Ret (String.eqb (ct_Uid queued) (ct_Uid track))));
  found ← queue_find match_ (dropZ start (tl_queue tl)) start;
  match found with
  | Some i => Ret (true, set_queue tl true (dropZ i (tl_queue tl)))
  | None => Ret (false, tl)
  end.

Definition TrySeekTo (fuel : nat) r tl (track : ContextTrack) : run (R * List) :=
  '(queued, tl1) ← seekQueue r tl track;
  if queued : bool then Ret (r, tl1)
  else
    let tl2 := if tl_playingQueue tl1 then set_queue tl1 false (dropZ 1 (tl_queue tl1)) else tl1 in
    cmp ← ContextTrackComparator (cr_Type r) track;
    '(r', tl3, err) ← Seek fuel r tl2 cmp;
    match err with
    | None => Ret (r', tl3)
    | Some _ => Ret (r', set_tracks tl3 (pl_moveInjected (tl_tracks tl3) track))
    end.
End seeking.

(** ** What surrounds the current track *)
Section views.
Context {R : Type} `{!ContextResolver R}.
Implicit Types (r : R) (h : mheap) (l : pagedList ContextTrack) (it : pagedListInterator) (tl : List).

Fixpoint provide_all h typ (ts : list ContextTrack) : run (list ProvidedTrack) :=
  match ts with
  | [] => Ret []
  | t :: ts => p ← ContextTrackToProvidedTrack h typ t; ps ← provide_all h typ ts; Ret (p :: ps)
  end.

Definition AllTracks h r tl (max : Z) : run (list ProvidedTrack) :=
  let items := resident (tl_tracks tl) in
  let items := if bool_decide (0 < max) && bool_decide (max < zlen items)
               then dropZ (zlen items - max) items else items in
  provide_all h (cr_Type r) items.

(** [for len(tracks) < MaxTracksInContext && iter.prev()], [room] being the
    space left. *)
Fixpoint prev_loop (room : nat) h typ l it (tracks : list ProvidedTrack) : run (list ProvidedTrack) :=
  match room with
  | O => Ret tracks
  | S room =>
    '(b, it') ← it_prev it;
    if b : bool then
      curr ← it_get l it';
      p ← ContextTrackToProvidedTrack h typ (item curr);
      prev_loop room h typ l it' (tracks ++ [p])
    else Ret tracks
  end.

Definition PrevTracks h r tl : run (list ProvidedTrack) :=
  it ← pl_iterHere (tl_tracks tl);
  ts ← prev_loop (Z.to_nat MaxTracksInContext) h (cr_Type r) (tl_tracks tl) it [];
  Ret (reverse ts).

(** [delete(curr.Metadata, "is_queued")]: nothing on a nil map. *)
Definition meta_delete h (m : option loc) (key : string) : mheap :=
  match m with Some p => alter (delete key) p h | None => h end.

(** The entries of [nextHint] past the queued ones, while there is room. *)
Fixpoint hint_loop (hint : list ContextTrack) (idx queueLength : Z) h typ (tracks : list ProvidedTrack)
  : run (mheap * list ProvidedTrack) :=
  match hint with
  | [] => Ret (h, tracks)
  | curr :: hint =>
    if decide (idx < queueLength) then hint_loop hint (idx + 1) queueLength h typ tracks
    else if decide (~ zlen tracks < MaxTracksInContext) then Ret (h, tracks)
    else
      let h' := meta_delete h (ct_Metadata curr) "is_queued" in
      p ← ContextTrackToProvidedTrack h' typ curr;
      hint_loop hint (idx + 1) queueLength h' typ (tracks ++ [p])
  end.

Fixpoint next_tracks_loop (room : nat) h r l it (tracks : list ProvidedTrack)
  : run (R * pagedList ContextTrack * list ProvidedTrack) :=
  match room with
  | O => Ret (r, l, tracks)
  | S room =>
    '(r', l', b, it') ← it_next r l it;
    if b : bool then
      curr ← it_get l' it';
      p ← ContextTrackToProvidedTrack h (cr_Type r') (item curr);
      next_tracks_loop room h r' l' it' (tracks ++ [p])
    else Ret (r', l', tracks)
  end.

Definition NextTracks h r tl (nextHint : option (list ContextTrack))
  : run (mheap * R * List * list ProvidedTrack) :=
  let queue := if tl_playingQueue tl then dropZ 1 (tl_queue tl) else tl_queue tl in
  tracks ← provide_all h (cr_Type r) (takeZ MaxTracksInContext queue);
  match nextHint with
  | Some hint =>
    '(h', ts) ← hint_loop hint 0
                  (zlen (tl_queue tl) - (if tl_playingQueue tl then 1 else 0))
                  h (cr_Type r) tracks;
    Ret (h', r, tl, ts)
  | None =>
    it ← pl_iterHere (tl_tracks tl);
    '(r', l', ts) ← next_tracks_loop (Z.to_nat (MaxTracksInContext - zlen tracks))
                      h r (tl_tracks tl) it tracks;
    Ret (h, r', set_tracks tl l', ts)
  end.

(** [connectpb.ContextIndex]; the zero value when there is no index. *)
Record ContextIndex := MkIndex { ix_Page : Z; ix_Track : Z }.

Definition Index tl : run ContextIndex :=
  if tl_playingQueue tl then Ret (MkIndex 0 0)
  else
    curr ← pl_get (tl_tracks tl);
    if decide (pageIdx curr < 0) then Ret (MkIndex 0 0)
    else Ret (MkIndex (u32 (pageIdx curr)) (u32 (itemIdx curr))).

Definition current tl : run ContextTrack :=
  if tl_playingQueue tl then index (tl_queue tl) 0
  else curr ← pl_get (tl_tracks tl); Ret (item curr).

Definition CurrentTrack h r tl : run ProvidedTrack :=
  t ← current tl; ContextTrackToProvidedTrack h (cr_Type r) t.

Definition GoStart r tl : R * List * bool :=
  let '(r', l', err) := pl_moveStart r (tl_tracks tl) in
  (r', set_tracks tl l', match err with None => true | Some _ => false end).

Definition PeekNext r tl : run (R * List * option ContextTrack) :=
  match tl_playingQueue tl, tl_queue tl with
  | true, _ :: t :: _ => Ret (r, tl, Some t)
  | false, t :: _ => Ret (r, tl, Some t)
  | _, _ =>
    it ← pl_iterHere (tl_tracks tl);
    '(r', l', b, it') ← it_next r (tl_tracks tl) it;
    if b : bool then curr ← it_get l' it'; Ret (r', set_tracks tl l', Some (item curr))
    else Ret (r', set_tracks tl l', None)
  end.

Definition GoNext r tl : run (R * List * bool) :=
  tl1 ← (if tl_playingQueue tl then
           match tl_queue tl with
           | [] => Panic "slice bounds out of range"
           | _ :: q => Ret (set_queue tl true q)
           end
         else Ret tl);
  match tl_queue tl1 with
  | _ :: _ => Ret (r, set_queue tl1 true (tl_queue tl1), true)
  | [] =>
    let tl2 := set_queue tl1 false [] in
    it ← pl_iterHere (tl_tracks tl2);
    '(r', l', b, it') ← it_next r (tl_tracks tl2) it;
    if b : bool then l'' ← pl_move l' it'; Ret (r', set_tracks tl2 l'', true)
    else Ret (r', set_tracks tl2 l', false)
  end.

Definition GoPrev tl : run (List * bool) :=
  let tl1 := set_queue tl false (tl_queue tl) in
  it ← pl_iterHere (tl_tracks tl1);
  '(b, it') ← it_prev it;
  if b : bool then l' ← pl_move (tl_tracks tl1) it'; Ret (set_tracks tl1 l', true)
  else Ret (tl1, false).

(** A fresh map in the store. *)
Definition meta_alloc h (m : metadata) : mheap * loc :=
  let p := fresh (dom h) in (<[p := m]> h, p).

(** [track.Metadata["is_queued"] = "true"], creating the map when nil. *)
Definition AddToQueue h tl (track : ContextTrack) : mheap * List :=
  let '(h1, p) := match ct_Metadata track with
                  | Some p => (h, p)
                  | None => meta_alloc h ∅
                  end in
  let track' := MkContextTrack (ct_Uri track) (ct_Uid track) (ct_Gid track) (Some p) in
  (alter (fun m => <["is_queued" := "true"]> m) p h1,
   set_queue tl (tl_playingQueue tl) (tl_queue tl ++ [track'])).

Definition is_queued h (t : ContextTrack) : bool :=
  String.eqb (meta_get h (ct_Metadata t) "is_queued") "true".

(** The leading tracks of [next] that carry the queued flag. *)
Fixpoint queued_prefix h (next : list ContextTrack) : list ContextTrack :=
  match next with
  | [] => []
  | t :: next => if is_queued h t then t :: queued_prefix h next else []
  end.

Definition SetQueue h tl (next : list ContextTrack) : run List :=
  q0 ← (if tl_playingQueue tl then
          match tl_queue tl with
          | [] => Panic "slice bounds out of range"
          | t :: _ => Ret [t]
          end
        else Ret []);
  Ret (set_queue tl (tl_playingQueue tl) (q0 ++ queued_prefix h next)).

Definition UpcomingQueue tl : list ContextTrack :=
  if tl_playingQueue tl then dropZ 1 (tl_queue tl) else tl_queue tl.

Definition SetPlayingQueue tl (val : bool) : List :=
  set_queue tl (bool_decide (0 < zlen (tl_queue tl)) && val) (tl_queue tl).
End views.

(** ** Snapshots *)
Section snapshot.
Context {R : Type} `{!ContextResolver R}.
Implicit Types (r : R) (h : mheap) (tl : List).

Record TrackSnapshot := MkSnapshot {
  sn_Metadata : option loc;
  sn_Current : ProvidedTrack;
  sn_Prev : list ProvidedTrack;
  sn_Next : list ProvidedTrack;
  sn_Index : ContextIndex
}.

(** [maps.Clone]: nil for nil, a copy otherwise. *)
Definition maps_Clone h (m : option loc) : mheap * option loc :=
  match m with
  | None => (h, None)
  | Some p => let '(h', q) := meta_alloc h (default ∅ (h !! p)) in (h', Some q)
  end.

(** [proto.Clone] of a track: a populated map is copied, an empty one is not
    set on the copy. *)
Definition cloneProvided h (t : ProvidedTrack) : mheap * ProvidedTrack :=
  let mm := default ∅ (p ← pt_Metadata t; h !! p) in
  let '(h', m) := if decide (mm = ∅) then (h, None)
                  else let '(h', q) := meta_alloc h mm in (h', Some q) in
  (h', MkProvidedTrack (pt_Uri t) (pt_Uid t) m (pt_ArtistUri t) (pt_AlbumUri t) (pt_Provider t)).

Fixpoint cloneProvidedAll h (ts : list ProvidedTrack) : mheap * list ProvidedTrack :=
  match ts with
  | [] => (h, [])
  | t :: ts =>
    let '(h1, t') := cloneProvided h t in
    let '(h2, ts') := cloneProvidedAll h1 ts in (h2, t' :: ts')
  end.

Definition Snapshot h r tl (nextHint : option (list ContextTrack))
  : run (mheap * R * List * TrackSnapshot) :=
  let '(h1, m) := maps_Clone h (cr_Metadata r) in
  cur ← CurrentTrack h1 r tl;
  let '(h2, cur') := cloneProvided h1 cur in
  prev ← PrevTracks h2 r tl;
  let '(h3, prev') := cloneProvidedAll h2 prev in
  '(h4, r', tl', next) ← NextTracks h3 r tl nextHint;
  let '(h5, next') := cloneProvidedAll h4 next in
  ix ← Index tl';
  Ret (h5, r', tl', MkSnapshot m cur' prev' next' ix).
End snapshot.

(** ** Shuffling the context *)
Section toggling.
Context {R G : Type} `{!ContextResolver R, !RandSource G}.
Implicit Types (r : R) (l : pagedList ContextTrack) (it : pagedListInterator) (tl : List).

(** The walk that loads the context before a shuffle: it stops at the page
    bound, at the end of the context or at an error, which is only logged. *)
Fixpoint walk_loop (fuel : nat) r l it : run (R * pagedList ContextTrack) :=
  match fuel with
  | O => OutOfFuel
  | S fuel =>
    '(r', l', b, it') ← it_next r l it;
    if b : bool then
      curr ← it_get l' it';
      if decide (seekMaxPages <= pageIdx curr) then Ret (r', l') else walk_loop fuel r' l' it'
    else Ret (r', l')
  end.

Definition shuffle_on (tl : List) l (seed : Z) : run List :=
  let l1 := shuffle l (rand_New (G := G) seed) in
  '(l2, keep) ← (if decide (0 < pl_pos l1) then l2 ← pl_swap l1 0 (pl_pos l1); Ret (l2, pl_pos l1)
                 else Ret (l1, -1));
  Ret (MkList true seed (pl_len l2) keep l2 (tl_playingQueue tl) (tl_queue tl)).

Definition set_shuffled tl (v : bool) : List :=
  MkList v (tl_shuffleSeed tl) (tl_shuffleLen tl) (tl_shuffleKeep tl) (tl_tracks tl)
         (tl_playingQueue tl) (tl_queue tl).

(** [rnd64] is the value of [rand.Uint64()]. *)
Definition ToggleShuffle (fuel : nat) r tl (shuffle : bool) (rnd64 : Z)
  : run (R * List * option error) :=
  if Bool.eqb shuffle (tl_shuffled tl) then Ret (r, tl, None)
  else if shuffle then
    '(r', l') ← walk_loop fuel r (tl_tracks tl) pl_iterStart;
    tl' ← shuffle_on tl l' (u64 (rnd64 + 1));
    Ret (r', tl', None)
  else if decide (tl_shuffleSeed tl <> 0 /\ pl_len (tl_tracks tl) = tl_shuffleLen tl) then
    l1 ← (if decide (0 < tl_shuffleKeep tl) then pl_swap (tl_tracks tl) 0 (tl_shuffleKeep tl)
          else Ret (tl_tracks tl));
    l2 ← unshuffle l1 (rand_New (G := G) (tl_shuffleSeed tl));
    Ret (r, set_shuffled (set_tracks tl l2) false, None)
  else
    currentTrack ← current tl;
    cmp ← ContextTrackComparator (cr_Type r) currentTrack;
    '(r', tl', err) ← Seek fuel r (set_tracks tl (pl_clear (tl_tracks tl))) cmp;
    match err with
    | Some e => Ret (r', set_tracks tl' (tl_tracks tl), Some (EWrap "failed seeking to current track" e))
    | None => Ret (r', set_shuffled tl' false, None)
    end.
End toggling.
