(* ===== verification/TracksProps.v ===== *)
(** * Correctness of the track list

    Termination of the walks, the invariant kept by every command, the round
    trip of a shuffle, the order of the queue, the bounds and the ownership of
    the published views. *)

From S2P Require Import Prelude PagedList Ids Tracks.
#[local] Open Scope string_scope.
#[local] Open Scope list_scope.
#[local] Open Scope Z_scope.

(** ** Walking a context *)
Section walking.
Context {R : Type} `{!ContextResolver R}.
Implicit Types (r : R) (l : pagedList ContextTrack) (it : pagedListInterator) (tl : List).

(** At the end of the loaded list, moving on is one page fetch. *)
Lemma it_next_fetch r l it r' l' pg :
  it_pos it + 1 = zlen (pl_list l) -> fetchNextPage r l = (r', l', pg, None) ->
  it_next r l it = Ret (r', l', true, PagedIter (it_pos it + 1) None).
Proof.
  intros Hp Hf. unfold it_next, next_fuel.
  replace (Z.to_nat (it_pos it + 2 - zlen (pl_list l))) with 1%nat by lia.
  cbn [next_loop]. rewrite decide_True, Hf by lia.
  apply fetchNextPage_grows in Hf. by rewrite decide_False by lia.
Qed.

Lemma it_next_fetch_err r l it r' l' pg e :
  it_pos it + 1 = zlen (pl_list l) -> fetchNextPage r l = (r', l', pg, Some e) ->
  exists it', it_next r l it = Ret (r', l', false, it').
Proof.
  intros Hp Hf. unfold it_next, next_fuel.
  replace (Z.to_nat (it_pos it + 2 - zlen (pl_list l))) with 1%nat by lia.
  cbn [next_loop]. rewrite decide_True, Hf by lia.
  destruct (errors_Is e io_EOF); eauto.
Qed.

Lemma next_page_idx_app l p pg (items : list ContextTrack) :
  items <> [] -> next_page_idx (PagedList (pl_list l ++ page_items pg items) p) = pg + 1.
Proof.
  intros Hne. unfold next_page_idx; simpl. rewrite last_app.
  destruct (last (page_items pg items)) as [x|] eqn:E.
  - apply last_page_items in E. lia.
  - apply last_None in E. apply (f_equal List.length) in E.
    rewrite length_page_items in E. by destruct items.
Qed.

Lemma first_page_item l p pg (items : list ContextTrack) :
  items <> [] ->
  exists x, nthZ (pl_list (PagedList (pl_list l ++ page_items pg items) p)) (zlen (pl_list l)) = Some x
            /\ pageIdx x = pg.
Proof.
  intros Hne. destruct items as [|t items]; [done|]. simpl.
  rewrite nthZ_app_r, Z.sub_diag by lia. eexists; split; reflexivity.
Qed.

(** One step of the seek: enough to terminate from the next position. *)
Lemma seek_step f r l it r' l' it' curr :
  it_next r l it = Ret (r', l', true, it') -> it_get l' it' = Ret curr ->
  returns (f (item curr)) ->
  (pageIdx curr < seekMaxPages -> exists fuel, returns (seek_loop fuel r' l' it' f)) ->
  exists fuel, returns (seek_loop fuel r l it f).
Proof.
  intros Hn Hg [b Hb] Hrec.
  assert (Herr : it_err it' = None) by (by apply it_next_spec in Hn as (_ & _ & _ & _ & ?)).
  destruct b.
  { exists 1%nat. cbn [seek_loop]. rewrite Hn, run_bind_Ret, Hg, run_bind_Ret, Hb, run_bind_Ret.
    unfold pl_move. rewrite Herr. by eexists. }
  destruct (decide (seekMaxPages <= pageIdx curr)) as [Hc|Hc].
  { exists 1%nat. cbn [seek_loop]. rewrite Hn, run_bind_Ret, Hg, run_bind_Ret, Hb, run_bind_Ret.
    rewrite decide_True by done. by eexists. }
  destruct Hrec as [fuel Hrec]; [lia|]. exists (S fuel). cbn [seek_loop].
  rewrite Hn, run_bind_Ret, Hg, run_bind_Ret, Hb, run_bind_Ret. by rewrite decide_False by lia.
Qed.

(** Every track the resolver serves, and every one loaded, satisfies [P]. *)
Definition serves (P : ContextTrack -> Prop) : Prop :=
  forall r i r' items, Page r i = (r', Ok items) -> Forall P items.
Definition all_loaded (P : ContextTrack -> Prop) l : Prop := Forall (fun x => P (item x)) (pl_list l).

Lemma page_items_all (P : ContextTrack -> Prop) pg items :
  Forall P items -> Forall (fun x => P (item x)) (page_items pg items).
Proof.
  intros HP. unfold page_items. apply Forall_lookup_2. intros i x.
  rewrite list_lookup_imap. intros (t & Ht & ->)%fmap_Some; simpl.
  by eapply Forall_lookup_1.
Qed.

Lemma fetch_all_loaded P r l r' l' pg err :
  serves P -> all_loaded P l -> fetchNextPage r l = (r', l', pg, err) -> all_loaded P l'.
Proof.
  intros Hs Hl (_ & _ & Hf)%fetchNextPage_spec. destruct err; [by subst|].
  destruct Hf as (items & _ & HP & Hl'). unfold all_loaded. rewrite Hl'.
  apply Forall_app; split; [done|]. apply page_items_all. by eapply Hs.
Qed.

Lemma next_loop_all_loaded P fuel r l it r' l' b it' :
  serves P -> all_loaded P l -> next_loop fuel r l it = Ret (r', l', b, it') -> all_loaded P l'.
Proof.
  intros Hs. revert r l; induction fuel as [|fuel IH]; intros r l Hl; simpl; case_decide; try done.
  - by intros [= <- <- <- <-].
  - destruct (fetchNextPage r l) as [[[r1 l1] pg] err] eqn:E.
    pose proof (fetch_all_loaded _ _ _ _ _ _ _ Hs Hl E).
    destruct err as [e|]; [|by apply IH].
    destruct (errors_Is e io_EOF); by intros [= <- <- <- <-].
  - by intros [= <- <- <- <-].
Qed.

Lemma all_loaded_nth P l i x : all_loaded P l -> nthZ (pl_list l) i = Some x -> P (item x).
Proof. intros Hl Hx%nthZ_In. unfold all_loaded in Hl. rewrite Forall_forall in Hl. by apply Hl. Qed.

Lemma seek_loop_all_loaded P fuel r l it f r' l' err :
  serves P -> all_loaded P l -> seek_loop fuel r l it f = Ret (r', l', err) -> all_loaded P l'.
Proof.
  intros Hs. revert r l it; induction fuel as [|fuel IH]; intros r l it Hl; [done|]. cbn [seek_loop].
  destruct (it_next r l it) as [[[[r1 l1] b] it1]| |] eqn:Hn; try done. cbn [mbind run_bind].
  apply (next_loop_all_loaded P) in Hn; [|done|done].
  destruct b; [|destruct (it_err it1); by intros [= <- <- <-]].
  destruct (it_get l1 it1) as [x| |]; try done; cbn [mbind run_bind].
  destruct (f (item x)) as [[]| |]; try done; cbn [mbind run_bind].
  - unfold pl_move. destruct (it_err it1); [done|]. by intros [= <- <- <-].
  - case_decide; [by intros [= <- <- <-]|]. by apply IH.
Qed.

Lemma seek_loop_terminates P f r l it :
  serves P -> (forall t, P t -> returns (f t)) -> all_loaded P l ->
  -1 <= it_pos it < zlen (pl_list l) ->
  exists fuel, returns (seek_loop fuel r l it f).
Proof.
  intros Hs Hf Hl. remember (Z.to_nat (seekMaxPages + 1 - next_page_idx l)) as m eqn:Hm.
  revert r l it Hl Hm. induction m as [m IHm] using lt_wf_ind. intros r l it Hl Hm Hp.
  remember (Z.to_nat (zlen (pl_list l) - 1 - it_pos it)) as k eqn:Hk.
  revert it Hk Hp. induction k as [|k IHk]; intros it Hk Hp.
  - destruct (fetchNextPage r l) as [[[r' l'] pg] err] eqn:E.
    destruct err as [e|].
    { destruct (it_next_fetch_err r l it _ _ _ _ ltac:(lia) E) as [it' Hn].
      exists 1%nat. cbn [seek_loop]. rewrite Hn, run_bind_Ret.
      destruct (it_err it'); by eexists. }
    pose proof (it_next_fetch r l it _ _ _ ltac:(lia) E) as Hn.
    pose proof (fetchNextPage_grows _ _ _ _ _ E) as Hgrow.
    pose proof (fetch_all_loaded _ _ _ _ _ _ _ Hs Hl E) as Hl1.
    apply fetchNextPage_spec in E as (Hpos & Hpg & items & Hne & _ & Hl').
    destruct l' as [xs' p']; simpl in Hl', Hgrow, Hpos; subst xs'.
    destruct (first_page_item l p' pg items Hne) as (x & Hx & Hxp).
    eapply seek_step; [exact Hn| |by eapply Hf, all_loaded_nth|].
    { unfold it_get; simpl. rewrite decide_False by (pose proof (zlen_nonneg (pl_list l)); lia).
      apply index_Ret. replace (it_pos it + 1) with (zlen (pl_list l)) by lia. exact Hx. }
    intros Hlt. eapply IHm; [|exact Hl1|reflexivity|simpl; lia].
    rewrite next_page_idx_app by done. subst m pg. unfold seekMaxPages in *. lia.
  - pose proof (it_next_resident r l it ltac:(lia)) as Hn.
    destruct (it_get_Ret l (PagedIter (it_pos it + 1) None)) as (x & Hx & Hnx); [simpl; lia|].
    eapply seek_step; [exact Hn|exact Hx|by eapply Hf, all_loaded_nth|]. intros _. apply IHk; simpl; lia.
Qed.

(** The walk before a shuffle is a seek that never finds anything. *)
Lemma walk_is_seek fuel r l it :
  walk_loop fuel r l it = (p ← seek_loop fuel r l it (fun _ => Ret false); Ret p.1).
Proof.
  revert r l it; induction fuel as [|fuel IH]; intros r l it; [done|]. cbn [walk_loop seek_loop].
  destruct (it_next r l it) as [[[[r' l'] []] it']| |]; try done; cbn [mbind run_bind].
  - destruct (it_get l' it') as [curr| |]; cbn [mbind run_bind]; try done.
    case_decide; [done|]. apply IH.
  - by destruct (it_err it').
Qed.

Lemma seek_loop_spec fuel r l it f r' l' err :
  -1 <= it_pos it -> seek_loop fuel r l it f = Ret (r', l', err) ->
  (exists ext, pl_list l' = pl_list l ++ ext) /\
  match err with
  | None => exists x, it_pos it < pl_pos l' /\ nthZ (pl_list l') (pl_pos l') = Some x
                      /\ f (item x) = Ret true
                      /\ forall j y, it_pos it < j < pl_pos l' -> nthZ (pl_list l') j = Some y ->
                                     f (item y) = Ret false
  | Some _ => pl_pos l' = pl_pos l
  end.
Proof.
  revert r l it; induction fuel as [|fuel IH]; intros r l it Hp; [done|]. cbn [seek_loop].
  destruct (it_next r l it) as [[[[r1 l1] b] it1]| |] eqn:Hn; try done. cbn [mbind run_bind].
  apply it_next_spec in Hn as ((ext & Hext) & Hpos & Hb).
  destruct b.
  - destruct Hb as (Hi1 & Hi2 & Herr).
    destruct (it_get_Ret l1 it1) as (x & Hx & Hnx); [lia|]. rewrite Hx, run_bind_Ret.
    destruct (f (item x)) as [[]| |] eqn:Hf; try done; cbn [mbind run_bind].
    + unfold pl_move. rewrite Herr. cbn [mbind run_bind]. intros [= <- <- <-]; cbn [pl_list pl_pos].
      split; [eauto|]. exists x; split_and!; [lia|done|done|]. intros; lia.
    + case_decide.
      { intros [= <- <- <-]. split; [eauto|done]. }
      intros Hrec. apply IH in Hrec as ((ext' & Hext') & Hres); [|lia].
      split; [exists (ext ++ ext'); by rewrite Hext', Hext, app_assoc|].
      destruct err as [e|]; [congruence|].
      destruct Hres as (y & Hlt & Hy & Hfy & Hall). exists y; split_and!; [lia|done|done|].
      intros j z Hj Hz. destruct (decide (j = it_pos it1)) as [->|].
      * rewrite Hext', nthZ_app_l in Hz by lia. congruence.
      * apply (Hall j); [lia|done].
  - destruct (it_err it1); intros [= <- <- <-]; (split; [eauto|done]).
Qed.

Lemma seek_loop_mono fuel1 fuel2 r l it f v :
  (fuel1 <= fuel2)%nat -> seek_loop fuel1 r l it f = Ret v -> seek_loop fuel2 r l it f = Ret v.
Proof.
  revert fuel2 r l it; induction fuel1 as [|fuel1 IH]; intros [|fuel2] r l it Hle; try done; try lia.
  cbn [seek_loop]. destruct (it_next r l it) as [[[[r1 l1] b] it1]| |]; try done.
  cbn [mbind run_bind]. destruct b; [|done].
  destruct (it_get l1 it1) as [x| |]; try done; cbn [mbind run_bind].
  destruct (f (item x)) as [[]| |]; try done; cbn [mbind run_bind].
  case_decide; [done|]. apply IH; lia.
Qed.
End walking.

(** ** Well-formed tracks

    What makes a track convertible: a gid is absent or 16 bytes long, and
    there is a uri or a gid. *)
Definition gid_ok (gid : list Z) : Prop := gid = [] \/ (zlen gid = 16 /\ bytes_ok gid).
Definition track_ok (t : ContextTrack) : Prop :=
  gid_ok (ct_Gid t) /\ (ct_Uri t <> "" \/ ct_Gid t <> []).

#[export] Instance bytes_ok_dec l : Decision (bytes_ok l).
Proof. unfold bytes_ok, is_byte. apply _. Defined.
#[export] Instance track_ok_dec t : Decision (track_ok t).
Proof. unfold track_ok, gid_ok. apply _. Defined.

Lemma gid_uri_returns typ gid : gid_ok gid -> gid <> [] -> returns (gid_uri typ gid).
Proof.
  intros [->|[Hl Hb]] Hne; [done|]. unfold gid_uri, SpotifyIdFromGid.
  rewrite decide_False by lia. cbn [mbind run_bind]. unfold Uri, Base62; cbn [id_id].
  destruct (GidToBase62_digits gid Hl Hb) as (ds & -> & _). by eexists.
Qed.

Lemma provided_returns h typ t : track_ok t -> returns (ContextTrackToProvidedTrack h typ t).
Proof.
  intros [Hg Hu]. unfold ContextTrackToProvidedTrack, track_uri.
  case_decide; [by eexists|]. destruct Hu as [Hu|Hu]; [done|].
  rewrite decide_True.
  - destruct (gid_uri_returns typ _ Hg Hu) as [u Hr]. unfold gid_uri in Hr. rewrite Hr. by eexists.
  - destruct (ct_Gid t); [done|]. rewrite zlen_cons. pose proof (zlen_nonneg l). lia.
Qed.

Lemma track_matches_returns typ uid uri t : track_ok t -> returns (track_matches typ uid uri t).
Proof.
  intros [Hg _]. unfold track_matches. repeat case_match; try by eexists.
  destruct (gid_uri_returns typ (ct_Gid t) Hg) as [u Hu].
  - intros Heq. rewrite Heq in *. done.
  - rewrite Hu. by eexists.
Qed.

Lemma comparator_returns typ target : track_ok target ->
  exists f, ContextTrackComparator typ target = Ret f /\ forall t, track_ok t -> returns (f t).
Proof.
  intros [Hg Hu]. unfold ContextTrackComparator.
  case_match.
  - destruct (gid_uri_returns typ (ct_Gid target) Hg) as [u Hr].
    { intros Heq. rewrite Heq in *. rewrite andb_false_r in *. done. }
    rewrite Hr. eexists; split; [reflexivity|]. intros; by apply track_matches_returns.
  - eexists; split; [reflexivity|]. intros; by apply track_matches_returns.
Qed.

Lemma provide_all_returns h typ ts :
  Forall track_ok ts -> exists ps, provide_all h typ ts = Ret ps /\ length ps = length ts.
Proof.
  induction 1 as [|t ts Ht _ (ps & Hps & Hl)]; [by exists []|].
  destruct (provided_returns h typ t Ht) as [p Hp]. exists (p :: ps).
  cbn [provide_all]. rewrite Hp, run_bind_Ret, Hps. simpl. by rewrite Hl.
Qed.

(** ** The invariant of a positioned list *)
Record tl_inv (tl : List) : Prop := {
  inv_pos : 0 <= pl_pos (tl_tracks tl) < zlen (pl_list (tl_tracks tl));
  inv_queue : tl_playingQueue tl = true -> tl_queue tl <> [];
  inv_queue_ok : Forall track_ok (tl_queue tl);
  inv_loaded : all_loaded track_ok (tl_tracks tl);
  inv_keep : tl_shuffleKeep tl <= 0 \/ tl_shuffleKeep tl < tl_shuffleLen tl
}.

(** What a resolver promises its list: tracks that can be converted, all of
    the one type it was created with. *)
Class ResolverLaws (R : Type) `{!ContextResolver R} := {
  cr_serves_ok : serves (R := R) track_ok;
  cr_Type_const : forall (r : R) i, cr_Type (Page r i).1 = cr_Type r
}.

Section invariant.
Context {R : Type} `{!ContextResolver R, !ResolverLaws R}.
Implicit Types (r : R) (h : mheap) (tl : List) (t : ContextTrack).

Lemma inv_set_tracks tl l :
  tl_inv tl -> 0 <= pl_pos l < zlen (pl_list l) -> all_loaded track_ok l -> tl_inv (set_tracks tl l).
Proof. intros []; constructor; done. Qed.

Lemma inv_set_queue tl b q :
  tl_inv tl -> (b = true -> q <> []) -> Forall track_ok q -> tl_inv (set_queue tl b q).
Proof. intros []; constructor; done. Qed.

Lemma iterHere_inv tl : tl_inv tl -> pl_iterHere (tl_tracks tl) = Ret (PagedIter (pl_pos (tl_tracks tl)) None).
Proof. intros []. unfold pl_iterHere. by rewrite decide_False by lia. Qed.

(** Stepping an iterator keeps the list positioned and loaded. *)
Lemma it_next_inv r tl it : tl_inv tl ->
  exists r' l' b it', it_next r (tl_tracks tl) it = Ret (r', l', b, it') /\
    pl_pos l' = pl_pos (tl_tracks tl) /\ zlen (pl_list (tl_tracks tl)) <= zlen (pl_list l') /\
    all_loaded track_ok l' /\
    (if b then it_pos it' = it_pos it + 1 /\ it_pos it' < zlen (pl_list l') /\ it_err it' = None else True).
Proof.
  intros Hi. destruct (it_next_total r (tl_tracks tl) it) as [[[[r' l'] b] it'] Hn].
  exists r', l', b, it'. split; [done|].
  pose proof (next_loop_all_loaded _ _ _ _ _ _ _ _ _ cr_serves_ok (inv_loaded _ Hi) Hn).
  apply it_next_spec in Hn as ((ext & Hext) & Hp & Hb).
  split_and!; [done| |done|by destruct b].
  rewrite Hext, zlen_app. pose proof (zlen_nonneg ext). lia.
Qed.

Lemma GoNext_inv r tl : tl_inv tl ->
  exists r' tl' b, GoNext r tl = Ret (r', tl', b) /\ tl_inv tl'.
Proof.
  intros Hi. unfold GoNext.
  assert (H1 : exists tl1, (if tl_playingQueue tl then
           match tl_queue tl with
           | [] => Panic "slice bounds out of range"
           | _ :: q => Ret (set_queue tl true q)
           end
         else Ret tl) = Ret tl1 /\ tl_tracks tl1 = tl_tracks tl /\ Forall track_ok (tl_queue tl1)
         /\ forall b q, (b = true -> q <> []) -> Forall track_ok q -> tl_inv (set_queue tl1 b q)).
  { pose proof (inv_queue_ok _ Hi) as Hq. pose proof (inv_queue _ Hi) as Hne.
    destruct (tl_playingQueue tl); [|exists tl; eauto using inv_set_queue].
    destruct (tl_queue tl) as [|t q] eqn:E; [by destruct Hne|].
    exists (set_queue tl true q); split_and!; [done|done|by inversion Hq|].
    intros b q' Hb Hq'. by apply (inv_set_queue tl). }
  destruct H1 as (tl1 & -> & Htr & Hq1 & Hinv1). rewrite run_bind_Ret.
  destruct (tl_queue tl1) as [|t q] eqn:E.
  - pose proof (Hinv1 false [] ltac:(done) ltac:(done)) as Hi2.
    rewrite iterHere_inv by done. rewrite run_bind_Ret.
    destruct (it_next_inv r _ (PagedIter (pl_pos (tl_tracks (set_queue tl1 false []))) None) Hi2)
      as (r' & l' & b & it' & Hn & Hp & Hlen & Hl & Hb).
    rewrite Hn, run_bind_Ret. destruct Hi2 as [Hpos _ _ _ Hk].
    destruct b.
    + destruct Hb as (Hi1 & Hlt & He). unfold pl_move. rewrite He, run_bind_Ret.
      do 3 eexists; split; [reflexivity|]. apply inv_set_tracks; simpl in *; [by apply Hinv1|lia|done].
    + do 3 eexists; split; [reflexivity|]. apply inv_set_tracks; simpl in *; [by apply Hinv1|lia|done].
  - do 3 eexists; split; [reflexivity|]. rewrite <- E. apply Hinv1; [congruence|congruence].
Qed.

Lemma it_prev_inv tl : tl_inv tl ->
  exists b it', it_prev (PagedIter (pl_pos (tl_tracks tl)) None) = Ret (b, it') /\ it_err it' = None /\
    if b : bool then it_pos it' = pl_pos (tl_tracks tl) - 1 /\ 0 <= it_pos it' else it_pos it' = 0.
Proof.
  intros Hi. pose proof (inv_pos _ Hi). unfold it_prev; simpl. rewrite decide_False by lia.
  case_decide; do 2 eexists; (split; [reflexivity|]); simpl; (split; [done|lia]).
Qed.

Lemma GoPrev_inv tl : tl_inv tl -> exists tl' b, GoPrev tl = Ret (tl', b) /\ tl_inv tl'.
Proof.
  intros Hi. unfold GoPrev.
  assert (Hi1 : tl_inv (set_queue tl false (tl_queue tl))) by (destruct Hi; by constructor).
  rewrite iterHere_inv, run_bind_Ret by done.
  destruct (it_prev_inv _ Hi1) as (b & it' & -> & He & Hb). rewrite run_bind_Ret. destruct b.
  - unfold pl_move. rewrite He, run_bind_Ret. do 2 eexists; split; [reflexivity|].
    apply inv_set_tracks; [done| |apply Hi1]. pose proof (inv_pos _ Hi1). simpl in *. lia.
  - eauto.
Qed.

Lemma GoStart_inv r tl : tl_inv tl -> tl_inv (GoStart r tl).1.2.
Proof.
  intros Hi. unfold GoStart.
  destruct (pl_moveStart r (tl_tracks tl)) as [[r' l'] err] eqn:E; simpl.
  unfold pl_moveStart in E. pose proof (inv_pos _ Hi). rewrite decide_False in E by lia.
  injection E as <- <- <-. apply inv_set_tracks; [done|simpl; lia|apply Hi].
Qed.

Lemma AddToQueue_inv h tl t : tl_inv tl -> track_ok t -> tl_inv (AddToQueue h tl t).2.
Proof.
  intros Hi Ht. unfold AddToQueue. destruct (ct_Metadata t); simpl;
  (apply inv_set_queue; [done|by destruct (tl_queue tl)|]);
  (apply Forall_app; split; [apply Hi|]); by constructor.
Qed.

Lemma queued_prefix_ok h next : Forall track_ok next -> Forall track_ok (queued_prefix h next).
Proof. induction 1; simpl; [done|]. case_match; by constructor. Qed.

Lemma SetQueue_inv h tl next : tl_inv tl -> Forall track_ok next ->
  exists tl', SetQueue h tl next = Ret tl' /\ tl_inv tl'.
Proof.
  intros Hi Hn. unfold SetQueue. pose proof (inv_queue _ Hi) as Hq. pose proof (inv_queue_ok _ Hi) as Hok.
  destruct (tl_playingQueue tl) eqn:E.
  - destruct (tl_queue tl) as [|t q]; [by destruct Hq|]. rewrite run_bind_Ret. eexists; split; [reflexivity|].
    apply inv_set_queue; [done|done|]. apply Forall_app; split; [|by apply queued_prefix_ok].
    constructor; [by inversion Hok|done].
  - rewrite run_bind_Ret. eexists; split; [reflexivity|].
    apply inv_set_queue; [done|done|]. by apply queued_prefix_ok.
Qed.

Lemma SetPlayingQueue_inv tl v : tl_inv tl -> tl_inv (SetPlayingQueue tl v).
Proof.
  intros Hi. apply inv_set_queue; [done| |apply Hi].
  intros [Hlt _]%andb_prop Heq. rewrite Heq in Hlt. done.
Qed.

(** *** Seeks *)
Lemma Seek_total r tl f :
  all_loaded track_ok (tl_tracks tl) -> (forall t, track_ok t -> returns (f t)) ->
  exists fuel r' l' err, Seek fuel r tl f = Ret (r', set_tracks tl l', err) /\
    all_loaded track_ok l' /\ zlen (pl_list (tl_tracks tl)) <= zlen (pl_list l') /\
    match err with
    | None => 0 <= pl_pos l' < zlen (pl_list l')
    | Some _ => pl_pos l' = pl_pos (tl_tracks tl)
    end.
Proof.
  intros Hl Hf.
  destruct (seek_loop_terminates track_ok f r (tl_tracks tl) pl_iterStart cr_serves_ok Hf Hl)
    as (fuel & ((r' & l') & err) & Hs).
  { simpl. pose proof (zlen_nonneg (pl_list (tl_tracks tl))). lia. }
  exists fuel, r', l', err. unfold Seek. rewrite Hs, run_bind_Ret. split; [done|].
  split; [by eapply seek_loop_all_loaded; [apply cr_serves_ok| |]|].
  apply seek_loop_spec in Hs as ((ext & Hext) & Hres); [|simpl; lia].
  rewrite Hext, zlen_app. pose proof (zlen_nonneg ext). split; [lia|].
  destruct err; [done|]. destruct Hres as (x & _ & Hx & _).
  apply nthZ_Some_lt in Hx. by rewrite Hext, zlen_app in Hx.
Qed.

Lemma TrySeek_inv r tl f : tl_inv tl -> (forall t, track_ok t -> returns (f t)) ->
  exists fuel r' tl' err, TrySeek fuel r tl f = Ret (r', tl', err) /\ tl_inv tl'.
Proof.
  intros Hi Hf. destruct (Seek_total r tl f (inv_loaded _ Hi) Hf) as (fuel & r' & l' & err & Hs & Hl & Hlen & Hres).
  exists fuel. unfold TrySeek. rewrite Hs, run_bind_Ret. pose proof (inv_pos _ Hi).
  destruct err as [e|].
  - unfold pl_moveStart. simpl. rewrite decide_False by lia. do 3 eexists; split; [reflexivity|].
    apply inv_set_tracks; [by apply inv_set_tracks; [|lia|]|simpl; lia|done].
  - do 3 eexists; split; [reflexivity|]. by apply inv_set_tracks.
Qed.

Lemma queue_find_spec (m : ContextTrack -> run bool) q i :
  Forall (fun t => returns (m t)) q ->
  exists o, queue_find m q i = Ret o /\ match o with Some j => i <= j < i + zlen q | None => True end.
Proof.
  intros Hq; revert i; induction Hq as [|t q [b Hb] _ IH]; intros i; [by exists None|].
  cbn [queue_find]. rewrite Hb, run_bind_Ret, zlen_cons. pose proof (zlen_nonneg q).
  destruct b; [exists (Some i); split; [done|lia]|].
  destruct (IH (i + 1)) as (o & Ho & Hj). exists o; split; [done|]. destruct o; [lia|done].
Qed.

Lemma Forall_dropZ (P : ContextTrack -> Prop) n q : Forall P q -> Forall P (dropZ n q).
Proof. apply Forall_drop. Qed.

Lemma seekQueue_inv r tl t : tl_inv tl -> track_ok t ->
  exists b tl', seekQueue r tl t = Ret (b, tl') /\ tl_inv tl' /\ (b = false -> tl' = tl).
Proof.
  intros Hi Ht. unfold seekQueue. set (start := if tl_playingQueue tl then 1 else 0).
  assert (Hm : exists m, (if bool_decide (ct_Uid t = "") then ContextTrackComparator (cr_Type r) t
            else Ret (fun queued => Ret (String.eqb (ct_Uid queued) (ct_Uid t)))) = Ret m
            /\ forall u, track_ok u -> returns (m u)).
  { case_bool_decide; [by apply comparator_returns|]. eexists; split; [reflexivity|]. by eexists. }
  destruct Hm as (m & -> & Hm). rewrite run_bind_Ret.
  destruct (queue_find_spec m (dropZ start (tl_queue tl)) start) as (o & Ho & Hj).
  { eapply Forall_impl; [apply Forall_dropZ, Hi|done]. }
  rewrite Ho, run_bind_Ret. destruct o as [j|]; [|by eauto].
  do 2 eexists; split; [reflexivity|]. split; [|done].
  apply inv_set_queue; [done| |apply Forall_dropZ, Hi].
  intros _ Heq. apply (f_equal zlen) in Heq. revert Hj Heq. autorewrite with zlist.
  pose proof (zlen_nonneg (tl_queue tl)). subst start. destruct (tl_playingQueue tl); lia.
Qed.

Lemma TrySeekTo_inv r tl t : tl_inv tl -> track_ok t ->
  exists fuel r' tl', TrySeekTo fuel r tl t = Ret (r', tl') /\ tl_inv tl'.
Proof.
  intros Hi Ht. unfold TrySeekTo.
  destruct (seekQueue_inv r tl t Hi Ht) as (b & tl1 & -> & Hi1 & _).
  destruct b; [exists O; do 2 eexists; by split|].
  pose (tl2 := if tl_playingQueue tl1 then set_queue tl1 false (dropZ 1 (tl_queue tl1)) else tl1).
  assert (Hi2 : tl_inv tl2).
  { subst tl2. destruct (tl_playingQueue tl1); [|done].
    apply inv_set_queue; [done|done|apply Forall_dropZ, Hi1]. }
  destruct (comparator_returns (cr_Type r) t Ht) as (f & Hf & Hret).
  destruct (Seek_total r tl2 f (inv_loaded _ Hi2) Hret) as (fuel & r' & l' & err & Hs & Hl & Hlen & Hres).
  exists fuel. rewrite run_bind_Ret; cbn beta iota zeta; fold tl2. rewrite Hf, run_bind_Ret, Hs, run_bind_Ret.
  pose proof (inv_pos _ Hi2). destruct err as [e|].
  - do 2 eexists; split; [reflexivity|].
    apply inv_set_tracks; [by apply inv_set_tracks; [|lia|]| |by constructor].
    simpl. rewrite zlen_cons. lia.
  - do 2 eexists; split; [reflexivity|]. by apply inv_set_tracks.
Qed.

(** *** Shuffling *)
Context {G : Type} `{!RandSource G, !RandLaws G}.

Lemma all_loaded_perm P (l l' : pagedList ContextTrack) :
  pl_list l' ≡ₚ pl_list l -> all_loaded P l -> all_loaded P l'.
Proof. unfold all_loaded. intros ->. done. Qed.

Lemma swap_total (l : pagedList ContextTrack) j :
  0 <= pl_pos l < zlen (pl_list l) -> 0 <= j < zlen (pl_list l) ->
  exists l', pl_swap l 0 j = Ret l' /\ pl_list l' ≡ₚ pl_list l /\ 0 <= pl_pos l' < zlen (pl_list l').
Proof.
  intros Hp Hj. unfold pl_swap. rewrite decide_False by lia. eexists; split; [reflexivity|].
  split; [apply exchange_perm|]. simpl. rewrite zlen_exchange. apply follow_range; lia.
Qed.

Lemma same_entry_in_range (l l' : pagedList ContextTrack) :
  nthZ (pl_list l') (pl_pos l') = nthZ (pl_list l) (pl_pos l) ->
  0 <= pl_pos l < zlen (pl_list l) -> 0 <= pl_pos l' < zlen (pl_list l').
Proof. intros Heq [x Hx]%nthZ_lt. rewrite Hx in Heq. by apply nthZ_Some_lt in Heq. Qed.

Lemma shuffle_on_inv tl (l : pagedList ContextTrack) seed :
  tl_inv tl -> 0 <= pl_pos l < zlen (pl_list l) -> all_loaded track_ok l ->
  exists tl', shuffle_on (G := G) tl l seed = Ret tl' /\ tl_inv tl'.
Proof.
  intros Hi Hp Hl. unfold shuffle_on. set (l1 := shuffle l _).
  pose proof (same_entry_in_range l l1 (shuffle_follows l _) Hp) as Hp1.
  pose proof (all_loaded_perm _ l l1 (shuffle_perm l _) Hl) as Hl1.
  case_decide.
  - destruct (swap_total l1 (pl_pos l1)) as (l2 & -> & Hperm & Hp2); [done|done|].
    rewrite run_bind_Ret. cbn [mbind run_bind]. eexists; split; [reflexivity|].
    destruct Hi. constructor; simpl; try done.
    + by eapply all_loaded_perm.
    + unfold pl_len. apply Permutation_length in Hperm. unfold zlen in *. lia.
  - rewrite run_bind_Ret. eexists; split; [reflexivity|]. destruct Hi. constructor; simpl; try done. lia.
Qed.

Lemma ToggleShuffle_inv r tl b rnd : tl_inv tl ->
  exists fuel r' tl' err, ToggleShuffle (G := G) fuel r tl b rnd = Ret (r', tl', err) /\ tl_inv tl'.
Proof.
  intros Hi. unfold ToggleShuffle. pose proof (inv_pos _ Hi) as Hp.
  destruct (Bool.eqb b (tl_shuffled tl)); [exists O; do 3 eexists; by split|].
  destruct b.
  { destruct (seek_loop_terminates track_ok (fun _ => Ret false) r (tl_tracks tl) pl_iterStart)
      as (fuel & ((r' & l') & err) & Hs).
    { apply cr_serves_ok. } { by eexists. } { apply Hi. } { simpl; lia. }
    exists fuel. rewrite walk_is_seek, Hs, !run_bind_Ret. simpl.
    pose proof (seek_loop_all_loaded _ _ _ _ _ _ _ _ _ cr_serves_ok (inv_loaded _ Hi) Hs) as Hl.
    apply seek_loop_spec in Hs as ((ext & Hext) & Hres); [|simpl; lia].
    assert (0 <= pl_pos l' < zlen (pl_list l')).
    { destruct err; [|by destruct Hres as (x & _ & _ & [=] & _)].
      rewrite Hres, Hext, zlen_app. pose proof (zlen_nonneg ext). lia. }
    destruct (shuffle_on_inv tl l' (u64 (rnd + 1))) as (tl' & -> & Hi'); [done|done|done|].
    do 3 eexists; by split. }
  case_decide as Hc.
  - exists O.
    assert (Hl1 : exists l1, (if decide (0 < tl_shuffleKeep tl) then pl_swap (tl_tracks tl) 0 (tl_shuffleKeep tl)
          else Ret (tl_tracks tl)) = Ret l1 /\ pl_list l1 ≡ₚ pl_list (tl_tracks tl)
          /\ 0 <= pl_pos l1 < zlen (pl_list l1)).
    { case_decide; [|by eauto]. apply swap_total; [done|].
      pose proof (inv_keep _ Hi). unfold pl_len in Hc. lia. }
    destruct Hl1 as (l1 & -> & Hperm & Hp1). rewrite run_bind_Ret.
    destruct (unshuffle_total l1 (rand_New (G := G) (tl_shuffleSeed tl))) as (l2 & -> & Hperm2 & Hn).
    rewrite run_bind_Ret. do 3 eexists; split; [reflexivity|].
    pose proof (same_entry_in_range _ _ Hn Hp1).
    destruct Hi. constructor; simpl; try done.
    eapply all_loaded_perm; [|eapply all_loaded_perm; [exact Hperm|done]]. done.
  - destruct (pl_get_Ret _ Hp) as (x & Hx & Hnx).
    assert (Hcur : exists t, current tl = Ret t /\ track_ok t).
    { unfold current. pose proof (inv_queue _ Hi) as Hq. pose proof (inv_queue_ok _ Hi) as Hqok.
      destruct (tl_playingQueue tl).
      - destruct (tl_queue tl) as [|t q]; [by destruct Hq|]. exists t; split; [done|by inversion Hqok].
      - rewrite Hx, run_bind_Ret. exists (item x); split; [done|].
        by eapply all_loaded_nth; [apply Hi|]. }
    destruct Hcur as (t & Hcur & Ht).
    destruct (comparator_returns (cr_Type r) t Ht) as (f & Hcmp & Hret).
    destruct (Seek_total r (set_tracks tl (pl_clear (tl_tracks tl))) f) as (fuel & r' & l' & err & Hs & Hl & _ & Hres).
    { constructor. } { done. }
    exists fuel. rewrite Hcur, run_bind_Ret, Hcmp, run_bind_Ret, Hs, run_bind_Ret. destruct err as [e|].
    + do 3 eexists; split; [reflexivity|]. destruct Hi; by constructor.
    + do 3 eexists; split; [reflexivity|]. destruct Hi; by constructor.
Qed.
End invariant.

(** ** The published views *)
Section view_facts.
Context {R : Type} `{!ContextResolver R, !ResolverLaws R}.
Implicit Types (r : R) (h : mheap) (tl : List) (l : pagedList ContextTrack).

Lemma provide_all_app h typ a b :
  provide_all h typ (a ++ b) = (x ← provide_all h typ a; y ← provide_all h typ b; Ret (x ++ y)).
Proof.
  induction a as [|t a IH]; simpl.
  - by destruct (provide_all h typ b).
  - destruct (ContextTrackToProvidedTrack h typ t); simpl; [|done|done].
    rewrite IH. destruct (provide_all h typ a); simpl; [|done|done].
    by destruct (provide_all h typ b).
Qed.

Lemma provide_all_reverse h typ ts ps :
  provide_all h typ ts = Ret ps -> provide_all h typ (reverse ts) = Ret (reverse ps).
Proof.
  revert ps; induction ts as [|t ts IH]; intros ps; simpl; [by intros [= <-]|].
  destruct (ContextTrackToProvidedTrack h typ t) eqn:Ht; simpl; [|done|done].
  destruct (provide_all h typ ts) as [qs| |]; simpl; [|done|done].
  intros [= <-]. rewrite !reverse_cons, provide_all_app, (IH qs) by done.
  cbn [provide_all]. by rewrite Ht.
Qed.

Lemma it_next_type r l it r' l' b it' :
  it_next r l it = Ret (r', l', b, it') -> cr_Type r' = cr_Type r.
Proof.
  unfold it_next. generalize (next_fuel l it). intros fuel. revert r l.
  induction fuel as [|fuel IH]; intros r l; simpl; case_decide; try done; try by intros [= <- <- <- <-].
  unfold fetchNextPage. pose proof (cr_Type_const r (next_page_idx l)) as Ht.
  destruct (Page r (next_page_idx l)) as [r1 [[|x xs]|e]]; simpl in *.
  - by intros [= <- <- <- <-].
  - intros Hn%IH. congruence.
  - destruct (errors_Is e io_EOF); by intros [= <- <- <- <-].
Qed.

Lemma dropZ_cons_nth {A} (xs : list A) i x :
  nthZ xs i = Some x -> dropZ i xs = x :: dropZ (i + 1) xs.
Proof.
  intros Hx. pose proof (nthZ_Some_lt _ _ _ Hx). unfold nthZ in Hx. case_decide; [|done].
  unfold dropZ. replace (Z.to_nat (i + 1)) with (S (Z.to_nat i)) by lia. by apply drop_S.
Qed.

Lemma takeZ_snoc_nth {A} (xs : list A) i x :
  nthZ xs i = Some x -> takeZ (i + 1) xs = takeZ i xs ++ [x].
Proof.
  intros Hx. pose proof (nthZ_Some_lt _ _ _ Hx). unfold nthZ in Hx. case_decide; [|done].
  unfold takeZ. replace (Z.to_nat (i + 1)) with (S (Z.to_nat i)) by lia. by apply take_S_r.
Qed.

(** The tracks [prev_loop] collects, last one first. *)
Lemma prev_loop_spec room h typ l p acc :
  all_loaded track_ok l -> 0 <= p <= zlen (pl_list l) ->
  exists ps, prev_loop room h typ l (PagedIter p None) acc = Ret (acc ++ ps) /\
    provide_all h typ (reverse (item <$> dropZ (p - Z.of_nat room) (takeZ p (pl_list l)))) = Ret ps.
Proof.
  intros Hl. revert p acc; induction room as [|room IH]; intros p acc Hp.
  { exists []. simpl. rewrite app_nil_r. split; [done|]. rewrite dropZ_all by zlen. done. }
  cbn [prev_loop]. unfold it_prev; simpl it_pos. rewrite decide_False by lia.
  destruct (decide (p = 0)) as [->|Hne].
  { exists []. rewrite run_bind_Ret, app_nil_r. by split. }
  rewrite run_bind_Ret. cbn beta iota.
  destruct (it_get_Ret l (PagedIter (p - 1) None)) as (x & Hx & Hnx); [simpl; lia|].
  simpl it_pos in Hnx. pose proof (all_loaded_nth _ _ _ _ Hl Hnx) as Hok.
  destruct (provided_returns h typ (item x) Hok) as [q Hq].
  rewrite Hx, run_bind_Ret, Hq, run_bind_Ret.
  destruct (IH (p - 1) (acc ++ [q]) ltac:(lia)) as (ps & Hps & Hprov).
  exists (q :: ps). rewrite Hps, <- app_assoc. split; [done|].
  replace p with (p - 1 + 1) at 2 by lia. rewrite (takeZ_snoc_nth _ _ x) by done.
  rewrite dropZ_app_le by zlen.
  replace (p - Z.of_nat (S room)) with (p - 1 - Z.of_nat room) by lia.
  rewrite fmap_app, reverse_app. cbn [fmap list_fmap].
  change (reverse [item x]) with [item x]. rewrite provide_all_app. cbn [provide_all].
  by rewrite Hq, run_bind_Ret, Hprov.
Qed.

Lemma all_loaded_item P l : all_loaded P l -> Forall P (item <$> pl_list l).
Proof. unfold all_loaded. by rewrite Forall_fmap. Qed.

(** The tracks [NextTracks] walks out of the context. *)
Lemma next_tracks_loop_spec room h r l it acc :
  all_loaded track_ok l -> -1 <= it_pos it < zlen (pl_list l) ->
  exists r' l' ps, next_tracks_loop room h r l it acc = Ret (r', l', acc ++ ps) /\
    all_loaded track_ok l' /\ pl_pos l' = pl_pos l /\ (exists ext, pl_list l' = pl_list l ++ ext) /\
    provide_all h (cr_Type r)
      (item <$> takeZ (Z.of_nat room) (dropZ (it_pos it + 1) (pl_list l'))) = Ret ps.
Proof.
  revert r l it acc; induction room as [|room IH]; intros r l it acc Hl Hp.
  { exists r, l, []. simpl. rewrite app_nil_r. split_and!; try done. exists []; by rewrite app_nil_r. }
  cbn [next_tracks_loop].
  destruct (it_next_total r l it) as [[[[r1 l1] b] it1] Hn].
  pose proof (it_next_type _ _ _ _ _ _ _ Hn) as Htyp.
  pose proof (next_loop_all_loaded _ _ _ _ _ _ _ _ _ cr_serves_ok Hl Hn) as Hl1.
  rewrite Hn, run_bind_Ret.
  apply it_next_spec in Hn as ((ext & Hext) & Hpos & Hb). destruct b.
  - destruct Hb as (Hi1 & Hlt & _).
    destruct (it_get_Ret l1 it1) as (x & Hx & Hnx); [lia|].
    destruct (provided_returns h (cr_Type r1) (item x)) as [q Hq]; [by eapply all_loaded_nth|].
    rewrite Hx, run_bind_Ret, Hq, run_bind_Ret.
    destruct (IH r1 l1 it1 (acc ++ [q]) Hl1 ltac:(lia)) as (r' & l' & ps & Hs & Hl' & Hpos' & (ext' & Hext') & Hprov).
    exists r', l', (q :: ps). rewrite Hs, <- app_assoc. split_and!; [done|done|congruence| |].
    + exists (ext ++ ext'). by rewrite Hext', Hext, app_assoc.
    + assert (Hnx' : nthZ (pl_list l') (it_pos it + 1) = Some x).
      { rewrite Hext', nthZ_app_l by lia. by rewrite <- Hi1. }
      rewrite (dropZ_cons_nth _ _ x Hnx').
      replace (it_pos it + 1 + 1) with (it_pos it1 + 1) by lia.
      unfold takeZ. rewrite Nat2Z.id. cbn [take fmap list_fmap provide_all].
      unfold takeZ in Hprov. rewrite Nat2Z.id in Hprov. by rewrite <- Htyp, Hq, run_bind_Ret, Hprov.
  - destruct Hb as (_ & Hend). exists r1, l1, []. rewrite app_nil_r. split_and!; try done; [by eexists|].
    rewrite dropZ_all by lia. unfold takeZ. by rewrite take_nil.
Qed.
End view_facts.


(** ** Snapshots own their memory *)
Section ownership.
Implicit Types (h : mheap) (p : loc).

(** Where a view's map lives: allocated by the view itself. *)
Definition owned h h' (m : option loc) : Prop := forall p, m = Some p -> p ∉ dom h /\ p ∈ dom h'.

(** [h'] has everything [h] has, unchanged: only new maps were added. *)
Definition extends h h' : Prop := forall p, p ∈ dom h -> h' !! p = h !! p.

Lemma extends_refl h : extends h h.
Proof. by intros p _. Qed.
Lemma extends_dom h h' : extends h h' -> dom h ⊆ dom h'.
Proof. intros He p Hp. apply elem_of_dom. rewrite He by done. by apply elem_of_dom. Qed.
Lemma extends_trans h1 h2 h3 : extends h1 h2 -> extends h2 h3 -> extends h1 h3.
Proof. intros H1 H2 p Hp. rewrite H2, H1; try done. by apply (extends_dom h1 h2). Qed.
Lemma extends_get h h' (m : option loc) key :
  extends h h' -> (forall p, m = Some p -> p ∈ dom h) -> meta_get h' m key = meta_get h m key.
Proof. intros He Hm. destruct m as [p|]; [|done]. unfold meta_get; simpl. by rewrite He by eauto. Qed.
Lemma owned_mono h0 h h1 h2 m : owned h h1 m -> h0 ⊆ h -> dom h1 ⊆ dom h2 -> owned h h2 m.
Proof. intros Ho _ Hs p Hp. destruct (Ho p Hp). set_solver. Qed.
Lemma owned_shrink h h0 h1 m : owned h h1 m -> dom h0 ⊆ dom h -> owned h0 h1 m.
Proof. intros Ho Hs p Hp. destruct (Ho p Hp). set_solver. Qed.

Lemma meta_alloc_spec h m h' p :
  meta_alloc h m = (h', p) -> p ∉ dom h /\ h' = <[p := m]> h /\ extends h h'.
Proof.
  unfold meta_alloc. intros [= <- <-].
  assert (Hp : fresh (dom h) ∉ dom h) by apply is_fresh.
  split_and!; [done|done|]. intros q Hq. apply lookup_insert_ne. intros <-. done.
Qed.

Lemma maps_Clone_spec h m h' m' : maps_Clone h m = (h', m') -> extends h h' /\ owned h h' m'.
Proof.
  unfold maps_Clone. destruct m as [p|]; [|intros [= <- <-]; split; [apply extends_refl|done]].
  destruct (meta_alloc h _) as [h1 q] eqn:E. intros [= <- <-].
  apply meta_alloc_spec in E as (Hq & -> & He). split; [done|]. intros ? [= <-]. set_solver.
Qed.

Lemma cloneProvided_spec h t h' t' :
  cloneProvided h t = (h', t') ->
  extends h h' /\ owned h h' (pt_Metadata t') /\
  (forall key, meta_get h' (pt_Metadata t') key = meta_get h (pt_Metadata t) key) /\
  pt_Uri t' = pt_Uri t /\ pt_Uid t' = pt_Uid t /\ pt_Provider t' = pt_Provider t.
Proof.
  unfold cloneProvided.
  assert (Hg : forall key, meta_get h (pt_Metadata t) key =
     default "" (default (∅ : metadata) (p ← pt_Metadata t; h !! p) !! key)).
  { intros key. unfold meta_get. destruct (pt_Metadata t) as [p|]; simpl; [|done].
    by destruct (h !! p). }
  set (mm := default (∅ : metadata) (p ← pt_Metadata t; h !! p)) in *. case_decide as Hmm.
  - intros [= <- <-]; simpl. split_and!; try done.
    intros key. rewrite Hg, Hmm. done.
  - destruct (meta_alloc h mm) as [h1 q] eqn:E. intros [= <- <-]; simpl.
    apply meta_alloc_spec in E as (Hq & -> & He). split_and!; try done.
    + intros ? [= <-]. set_solver.
    + intros key. rewrite Hg. unfold meta_get; simpl. by rewrite lookup_insert_eq.
Qed.

Lemma cloneProvidedAll_spec h ts h' ts' :
  cloneProvidedAll h ts = (h', ts') ->
  extends h h' /\ length ts' = length ts /\ Forall (fun t => owned h h' (pt_Metadata t)) ts'.
Proof.
  revert h h' ts'; induction ts as [|t ts IH]; intros h h' ts'; simpl.
  { intros [= <- <-]. split_and!; [apply extends_refl|done|constructor]. }
  destruct (cloneProvided h t) as [h1 t1] eqn:E1.
  destruct (cloneProvidedAll h1 ts) as [h2 ts2] eqn:E2. intros [= <- <-].
  apply cloneProvided_spec in E1 as (He1 & Ho1 & _). apply IH in E2 as (He2 & Hl & Ho2).
  split_and!; [by eapply extends_trans|by simpl; rewrite Hl|].
  constructor.
  - intros p Hp. destruct (Ho1 p Hp). split; [done|]. by apply (extends_dom h1 h2).
  - eapply Forall_impl; [exact Ho2|]. intros u Hu. eapply owned_shrink; [exact Hu|by apply extends_dom].
Qed.
End ownership.

Section snapshot_facts.
Context {R : Type} `{!ContextResolver R, !ResolverLaws R}.
Implicit Types (r : R) (h : mheap) (tl : List).

(** Every map location a snapshot hands out. *)
Definition snapshot_locs (sn : TrackSnapshot) : list (option loc) :=
  sn_Metadata sn :: pt_Metadata (sn_Current sn) ::
  (pt_Metadata <$> sn_Prev sn) ++ (pt_Metadata <$> sn_Next sn).

Lemma meta_delete_dom h m key : dom (meta_delete h m key) = dom h.
Proof. destruct m; simpl; [apply dom_alter_L|done]. Qed.

Lemma meta_delete_ne h m key p : m <> Some p -> meta_delete h m key !! p = h !! p.
Proof. destruct m as [q|]; simpl; [|done]. intros Hne. apply lookup_alter_ne. congruence. Qed.

Lemma hint_loop_spec hint idx qlen h typ acc :
  Forall track_ok hint -> zlen acc <= MaxTracksInContext ->
  exists h' ts, hint_loop hint idx qlen h typ acc = Ret (h', ts) /\
    zlen ts <= MaxTracksInContext /\ dom h' = dom h /\
    (forall p, (forall t, t ∈ hint -> ct_Metadata t <> Some p) -> h' !! p = h !! p).
Proof.
  intros Hok. revert idx h acc; induction Hok as [|t hint Ht _ IH]; intros idx h acc Hacc.
  { exists h, acc. by split_and!. }
  cbn [hint_loop]. case_decide.
  { destruct (IH (idx + 1) h acc Hacc) as (h' & ts & Hl & Hts & Hd & Hp).
    exists h', ts; split_and!; try done. intros p Hne. apply Hp. set_solver. }
  case_decide; [exists h, acc; by split_and!|].
  destruct (provided_returns (meta_delete h (ct_Metadata t) "is_queued") typ t Ht) as [q Hq].
  rewrite Hq, run_bind_Ret.
  destruct (IH (idx + 1) (meta_delete h (ct_Metadata t) "is_queued") (acc ++ [q])) as (h' & ts & Hl & Hts & Hd & Hp).
  { rewrite zlen_app. change (zlen [q]) with 1. lia. }
  exists h', ts; split_and!; try done.
  - by rewrite Hd, meta_delete_dom.
  - intros p Hne. rewrite Hp by set_solver. apply meta_delete_ne. apply Hne. set_solver.
Qed.

Definition hint_ok (hint : option (list ContextTrack)) : Prop := Forall track_ok (default [] hint).

Lemma NextTracks_total h r tl hint :
  tl_inv tl -> hint_ok hint ->
  exists h' r' tl' ts, NextTracks h r tl hint = Ret (h', r', tl', ts) /\ tl_inv tl' /\
    zlen ts <= MaxTracksInContext /\ dom h' = dom h /\
    (forall p, (forall t, t ∈ default [] hint -> ct_Metadata t <> Some p) -> h' !! p = h !! p).
Proof.
  intros Hi Hh. unfold NextTracks.
  set (queue := if tl_playingQueue tl then dropZ 1 (tl_queue tl) else tl_queue tl).
  assert (Hq : Forall track_ok queue).
  { subst queue. pose proof (inv_queue_ok _ Hi). destruct (tl_playingQueue tl); [by apply Forall_dropZ|done]. }
  destruct (provide_all_returns h (cr_Type r) (takeZ MaxTracksInContext queue)) as (ts0 & Hts0 & Hlen0).
  { by apply Forall_take. }
  assert (Hz0 : zlen ts0 <= MaxTracksInContext).
  { assert (Hz : zlen ts0 = zlen (takeZ MaxTracksInContext queue)) by (unfold zlen; by rewrite Hlen0).
    rewrite Hz, zlen_takeZ. unfold MaxTracksInContext. lia. }
  rewrite Hts0, run_bind_Ret. destruct hint as [hint|].
  - destruct (hint_loop_spec hint 0 (zlen (tl_queue tl) - (if tl_playingQueue tl then 1 else 0)) h (cr_Type r) ts0 Hh Hz0)
      as (h' & ts & Hl & Hts & Hd & Hp).
    rewrite Hl, run_bind_Ret. do 4 eexists; by split_and!.
  - rewrite iterHere_inv, run_bind_Ret by done. pose proof (inv_pos _ Hi).
    destruct (next_tracks_loop_spec (Z.to_nat (MaxTracksInContext - zlen ts0)) h r (tl_tracks tl)
                (PagedIter (pl_pos (tl_tracks tl)) None) ts0 (inv_loaded _ Hi)) as (r' & l' & ps & Hs & Hl & Hpos & (ext & Hext) & Hprov).
    { simpl; lia. }
    rewrite Hs, run_bind_Ret. do 4 eexists; split; [reflexivity|]. split_and!; try done.
    + apply inv_set_tracks; [done| |done]. rewrite Hpos, Hext, zlen_app. pose proof (zlen_nonneg ext). lia.
    + rewrite zlen_app.
      assert (Hps : zlen ps <= MaxTracksInContext - zlen ts0); [|lia].
      assert (Hok : Forall track_ok (item <$> takeZ (Z.of_nat (Z.to_nat (MaxTracksInContext - zlen ts0)))
                 (dropZ (pl_pos (tl_tracks tl) + 1) (pl_list l')))).
      { rewrite Forall_fmap. apply Forall_take, Forall_drop. exact Hl. }
      destruct (provide_all_returns h (cr_Type r) _ Hok) as (ps' & Hps' & Hlen').
      simpl it_pos in Hprov. rewrite Hprov in Hps'. injection Hps' as <-. unfold zlen at 1.
      rewrite Hlen', length_fmap. fold (zlen (takeZ (Z.of_nat (Z.to_nat (MaxTracksInContext - zlen ts0)))
                 (dropZ (pl_pos (tl_tracks tl) + 1) (pl_list l')))).
      rewrite zlen_takeZ. unfold MaxTracksInContext in *. lia.
Qed.

Lemma PrevTracks_total h r tl : tl_inv tl ->
  exists ps, PrevTracks h r tl = Ret ps /\
    provide_all h (cr_Type r)
      (item <$> dropZ (pl_pos (tl_tracks tl) - MaxTracksInContext)
                  (takeZ (pl_pos (tl_tracks tl)) (pl_list (tl_tracks tl)))) = Ret ps.
Proof.
  intros Hi. unfold PrevTracks. rewrite iterHere_inv, run_bind_Ret by done. pose proof (inv_pos _ Hi).
  destruct (prev_loop_spec (Z.to_nat MaxTracksInContext) h (cr_Type r) (tl_tracks tl)
              (pl_pos (tl_tracks tl)) [] (inv_loaded _ Hi)) as (ps & Hps & Hprov); [lia|].
  rewrite Hps, run_bind_Ret. eexists; split; [reflexivity|].
  apply provide_all_reverse in Hprov. rewrite reverse_involutive in Hprov. exact Hprov.
Qed.

Lemma current_total tl : tl_inv tl -> exists t, current tl = Ret t /\ track_ok t.
Proof.
  intros Hi. unfold current. pose proof (inv_queue _ Hi) as Hq. pose proof (inv_queue_ok _ Hi) as Hqok.
  destruct (tl_playingQueue tl).
  - destruct (tl_queue tl) as [|t q]; [by destruct Hq|]. exists t; split; [done|by inversion Hqok].
  - destruct (pl_get_Ret _ (inv_pos _ Hi)) as (x & Hx & Hnx). rewrite Hx, run_bind_Ret.
    exists (item x); split; [done|]. by eapply all_loaded_nth; [apply Hi|].
Qed.

Lemma Index_total tl : tl_inv tl -> returns (Index tl).
Proof.
  intros Hi. unfold Index. destruct (tl_playingQueue tl); [by eexists|].
  destruct (pl_get_Ret _ (inv_pos _ Hi)) as (x & -> & _). rewrite run_bind_Ret. case_decide; by eexists.
Qed.

Lemma Snapshot_total h r tl hint :
  tl_inv tl -> hint_ok hint ->
  exists h' r' tl' sn, Snapshot h r tl hint = Ret (h', r', tl', sn) /\ tl_inv tl'.
Proof.
  intros Hi Hh. unfold Snapshot, CurrentTrack.
  destruct (maps_Clone h (cr_Metadata r)) as [h1 m].
  destruct (current_total tl Hi) as (t & Hcur & Ht).
  destruct (provided_returns h1 (cr_Type r) t Ht) as [cur Hc].
  rewrite Hcur, run_bind_Ret, Hc, run_bind_Ret.
  destruct (cloneProvided h1 cur) as [h2 cur'].
  destruct (PrevTracks_total h2 r tl Hi) as (prev & Hp & _). rewrite Hp, run_bind_Ret.
  destruct (cloneProvidedAll h2 prev) as [h3 prev'].
  destruct (NextTracks_total h3 r tl hint Hi Hh) as (h4 & r' & tl' & next & Hn & Hi' & _).
  rewrite Hn, run_bind_Ret. destruct (cloneProvidedAll h4 next) as [h5 next'].
  destruct (Index_total tl' Hi') as [ix Hx]. rewrite Hx, run_bind_Ret. by do 4 eexists.
Qed.
End snapshot_facts.

(** ** Commands

    The commands the daemon runs against a list, and what running one of them
    means on the store, the resolver and the list. *)
Section commands.
Context {R G : Type} `{!ContextResolver R, !ResolverLaws R, !RandSource G, !RandLaws G}.
Implicit Types (r : R) (h : mheap) (tl : List).

Inductive list_cmd : Type :=
| CmdSkipTo (t : ContextTrack)
| CmdTrySeek (p : ProvidedTrack)
| CmdNext
| CmdPrev
| CmdStart
| CmdPeek
| CmdAddToQueue (t : ContextTrack)
| CmdSetQueue (next : list ContextTrack)
| CmdSetPlaying (b : bool)
| CmdShuffle (b : bool) (rnd64 : Z)
| CmdSnapshot (hint : option (list ContextTrack)).

(** The tracks a command carries are convertible. *)
Definition cmd_ok (c : list_cmd) : Prop :=
  match c with
  | CmdSkipTo t | CmdAddToQueue t => track_ok t
  | CmdSetQueue next => Forall track_ok next
  | CmdSnapshot hint => hint_ok hint
  | _ => True
  end.

Definition exec_cmd (fuel : nat) (s : mheap * R * List) (c : list_cmd) : run (mheap * R * List) :=
  let '(h, r, tl) := s in
  match c with
  | CmdSkipTo t => '(r', tl') ← TrySeekTo fuel r tl t; Ret (h, r', tl')
  | CmdTrySeek p => '(r', tl', _) ← TrySeek fuel r tl (ProvidedTrackComparator (cr_Type r) p); Ret (h, r', tl')
  | CmdNext => '(r', tl', _) ← GoNext r tl; Ret (h, r', tl')
  | CmdPrev => '(tl', _) ← GoPrev tl; Ret (h, r, tl')
  | CmdStart => let '(r', tl', _) := GoStart r tl in Ret (h, r', tl')
  | CmdPeek => '(r', tl', _) ← PeekNext r tl; Ret (h, r', tl')
  | CmdAddToQueue t => let '(h', tl') := AddToQueue h tl t in Ret (h', r, tl')
  | CmdSetQueue next => tl' ← SetQueue h tl next; Ret (h, r, tl')
  | CmdSetPlaying b => Ret (h, r, SetPlayingQueue tl b)
  | CmdShuffle b rnd => '(r', tl', _) ← ToggleShuffle (G := G) fuel r tl b rnd; Ret (h, r', tl')
  | CmdSnapshot hint => '(h', r', tl', _) ← Snapshot h r tl hint; Ret (h', r', tl')
  end.

(** A run of commands: each one returned, given enough fuel. *)
Inductive exec_cmds : mheap * R * List -> list list_cmd -> mheap * R * List -> Prop :=
| exec_nil s : exec_cmds s [] s
| exec_cons fuel s c s' cs s'' :
    exec_cmd fuel s c = Ret s' -> exec_cmds s' cs s'' -> exec_cmds s (c :: cs) s''.

Lemma PeekNext_inv r tl : tl_inv tl ->
  exists r' tl' o, PeekNext r tl = Ret (r', tl', o) /\ tl_inv tl'.
Proof.
  intros Hi. unfold PeekNext.
  assert (Hwalk : exists r' tl' o,
    (it ← pl_iterHere (tl_tracks tl);
     '(r', l', b, it') ← it_next r (tl_tracks tl) it;
     if b : bool then curr ← it_get l' it'; Ret (r', set_tracks tl l', Some (item curr))
     else Ret (r', set_tracks tl l', None)) = Ret (r', tl', o) /\ tl_inv tl').
  { rewrite iterHere_inv, run_bind_Ret by done. pose proof (inv_pos _ Hi).
    destruct (it_next_inv r tl (PagedIter (pl_pos (tl_tracks tl)) None) Hi)
      as (r' & l' & b & it' & Hn & Hp & Hlen & Hl & Hb).
    rewrite Hn, run_bind_Ret.
    assert (tl_inv (set_tracks tl l')) by (apply inv_set_tracks; [done|lia|done]).
    destruct b; [|by do 3 eexists]. simpl in Hb.
    destruct (it_get_Ret l' it') as (x & -> & _); [lia|]. by do 3 eexists. }
  destruct (tl_playingQueue tl), (tl_queue tl) as [|t1 [|t2 q]]; try done; by do 3 eexists.
Qed.

Lemma exec_cmd_total h r tl c : tl_inv tl -> cmd_ok c ->
  exists fuel s', exec_cmd fuel (h, r, tl) c = Ret s' /\ tl_inv s'.2.
Proof.
  intros Hi Hc. destruct c as [t|p| | | | |t|next|b|b rnd|hint]; simpl in Hc.
  - destruct (TrySeekTo_inv r tl t Hi Hc) as (fuel & r' & tl' & Hs & ?).
    exists fuel; simpl. rewrite Hs. by eexists.
  - destruct (TrySeek_inv r tl (ProvidedTrackComparator (cr_Type r) p) Hi) as (fuel & r' & tl' & err & Hs & ?).
    { intros; by apply track_matches_returns. }
    exists fuel; simpl. rewrite Hs. by eexists.
  - destruct (GoNext_inv r tl Hi) as (r' & tl' & b & Hs & ?). exists O; simpl. rewrite Hs. by eexists.
  - destruct (GoPrev_inv tl Hi) as (tl' & b & Hs & ?). exists O; simpl. rewrite Hs. by eexists.
  - exists O; simpl. pose proof (GoStart_inv r tl Hi). destruct (GoStart r tl) as [[r' tl'] b]. by eexists.
  - destruct (PeekNext_inv r tl Hi) as (r' & tl' & o & Hs & ?). exists O; simpl. rewrite Hs. by eexists.
  - exists O; simpl. pose proof (AddToQueue_inv h tl t Hi Hc). destruct (AddToQueue h tl t). by eexists.
  - destruct (SetQueue_inv h tl next Hi Hc) as (tl' & Hs & ?). exists O; simpl. rewrite Hs. by eexists.
  - exists O; simpl. eexists; split; [reflexivity|]. by apply SetPlayingQueue_inv.
  - destruct (ToggleShuffle_inv (G := G) r tl b rnd Hi) as (fuel & r' & tl' & err & Hs & ?).
    exists fuel; simpl. rewrite Hs. by eexists.
  - destruct (Snapshot_total h r tl hint Hi Hc) as (h' & r' & tl' & sn & Hs & ?).
    exists O; simpl. rewrite Hs. by eexists.
Qed.

Lemma exec_cmds_total cs h r tl : tl_inv tl -> Forall cmd_ok cs ->
  exists s', exec_cmds (h, r, tl) cs s' /\ tl_inv s'.2.
Proof.
  revert h r tl; induction cs as [|c cs IH]; intros h r tl Hi Hcs.
  { eexists; split; [constructor|done]. }
  apply Forall_cons in Hcs as [Hc Hcs].
  destruct (exec_cmd_total h r tl c Hi Hc) as (fuel & [[h' r'] tl'] & He & Hi').
  destruct (IH h' r' tl' Hi' Hcs) as (s' & Hs & ?). exists s'; split; [by econstructor|done].
Qed.
End commands.

(** ** A concrete resolver and generator

    Three pages of two tracks each, and a linear congruential generator: the
    instances the witnesses run on. *)
Definition demo_track (u : string) : ContextTrack := MkContextTrack u "" [] None.
Definition demo_pages : list (list ContextTrack) :=
  [[demo_track "spotify:track:a"; demo_track "spotify:track:b"];
   [demo_track "spotify:track:c"; demo_track "spotify:track:d"];
   [demo_track "spotify:track:e"]].

#[export] Instance demo_resolver : ContextResolver unit := {
  cr_pages := fun r i => (r, match nthZ demo_pages i with Some items => Ok items | None => Err io_EOF end);
  cr_Type _ := "track";
  cr_Metadata _ := None
}.

#[export] Instance demo_laws : ResolverLaws unit.
Proof.
  split; [|done]. intros r i r' items. unfold Page; simpl.
  destruct (nthZ demo_pages i) as [x|] eqn:E; [|done]. intros [= <- <-].
  apply nthZ_In in E. revert x E. apply Forall_forall. apply (bool_decide_unpack _). vm_compute. exact I.
Defined.

#[export] Instance demo_rand : RandSource Z := {
  rand_New seed := seed;
  Intn g n := let g' := (g * 6364136223846793005 + 1442695040888963407) `mod` 2 ^ 64 in (g', (g' `div` 2 ^ 33) `mod` n)
}.

#[export] Instance demo_rand_laws : RandLaws Z.
Proof. intros g n Hn. apply Z.mod_pos_bound. exact Hn. Defined.

(** The demo context, positioned on its first track. *)
Definition demo_list : List := (GoStart tt newTrackList).1.2.

Lemma demo_list_inv : tl_inv demo_list.
Proof.
  constructor; try (vm_compute; intuition congruence).
  - constructor.
  - unfold all_loaded. apply (bool_decide_unpack _). vm_compute. exact I.
Defined.
