(* ===== verification/TracksClaims.v ===== *)
(** * The properties of the track list

    The theorems about [src/tracks] and, for each that has hypotheses, an
    instance on the demo context of [TracksProps]. *)

From S2P Require Import Prelude PagedList Ids Tracks TracksProps.
#[local] Open Scope string_scope.
#[local] Open Scope list_scope.
#[local] Open Scope Z_scope.

(** ** Shuffle and unshuffle *)
Section shuffle_roundtrip.
Context {R G : Type} `{!ContextResolver R, !RandSource G, !RandLaws G}.

(** What turning shuffle on leaves behind. *)
Lemma ToggleShuffle_on_inv fuel (r r1 : R) tl tl1 rnd err :
  ToggleShuffle (G := G) fuel r tl true rnd = Ret (r1, tl1, err) -> tl_shuffled tl = false ->
  exists l0 ext, pl_list l0 = pl_list (tl_tracks tl) ++ ext /\ tl_shuffled tl1 = true /\
    tl_shuffleSeed tl1 = u64 (rnd + 1) /\ tl_shuffleLen tl1 = zlen (pl_list l0) /\
    let sh := shuffle l0 (rand_New (G := G) (u64 (rnd + 1))) in
    zlen (pl_list sh) = zlen (pl_list l0) /\
    if decide (0 < tl_shuffleKeep tl1)
    then tl_shuffleKeep tl1 < zlen (pl_list l0) /\
         pl_list (tl_tracks tl1) = exchange 0 (tl_shuffleKeep tl1) (pl_list sh)
    else pl_list (tl_tracks tl1) = pl_list sh.
Proof.
  unfold ToggleShuffle. intros Ht Hsh. rewrite Hsh in Ht. simpl in Ht.
  rewrite walk_is_seek in Ht.
  destruct (seek_loop fuel r (tl_tracks tl) pl_iterStart (fun _ => Ret false)) as [[[r' l0] e]| |] eqn:Hs;
    try done. simpl in Ht.
  apply seek_loop_spec in Hs as ((ext & Hext) & _); [|simpl; lia].
  unfold shuffle_on in Ht. pose proof (zlen_shuffle l0 (rand_New (G := G) (u64 (rnd + 1)))) as Hlen.
  set (sh := shuffle l0 _) in *. case_decide as Hpos; simpl in Ht.
  - unfold pl_swap in Ht. case_decide; [done|]. simpl in Ht. injection Ht as <- <- <-. simpl.
    exists l0, ext. unfold pl_len; simpl. rewrite zlen_exchange. split_and!; try done.
    rewrite decide_True by done. split; [lia|done].
  - injection Ht as <- <- <-. simpl. exists l0, ext. by split_and!.
Qed.

End shuffle_roundtrip.

Definition demo_shuffled : List :=
  match ToggleShuffle (R := unit) (G := Z) 10 tt demo_list true 41 with
  | Ret (_, tl, _) => tl
  | _ => demo_list
  end.


Section claims.
Context {R G : Type} `{!ContextResolver R, !ResolverLaws R, !RandSource G, !RandLaws G}.


(** a seek always comes back, whatever the resolver serves (a generated
    context hands out pages forever), and lands on the first entry that
    matches: every entry before it was tested and rejected. When it fails it
    reports an error and leaves the position where it was. *)
Theorem seek_first_match (r : R) tl f
  (Hinv : tl_inv tl) (Hf : forall t, track_ok t -> returns (f t)) :
  exists fuel r' tl' err, Seek fuel r tl f = Ret (r', tl', err) /\
    (exists ext, pl_list (tl_tracks tl') = pl_list (tl_tracks tl) ++ ext) /\
    match err with
    | None => exists x, nthZ (pl_list (tl_tracks tl')) (pl_pos (tl_tracks tl')) = Some x /\
                f (item x) = Ret true /\
                forall j y, 0 <= j < pl_pos (tl_tracks tl') ->
                  nthZ (pl_list (tl_tracks tl')) j = Some y -> f (item y) = Ret false
    | Some _ => pl_pos (tl_tracks tl') = pl_pos (tl_tracks tl)
    end.
Proof.
  destruct (Seek_total r tl f (inv_loaded _ Hinv) Hf) as (fuel & r' & l' & err & Hs & _).
  exists fuel, r', (set_tracks tl l'), err. split; [done|].
  unfold Seek in Hs. apply run_bind_inv in Hs as ([[r1 l1] e1] & Hs & Heq). injection Heq as <- <- <-.
  apply seek_loop_spec in Hs as (Hext & Hres); [|simpl; lia]. split; [done|].
  destruct e1; [done|]. destruct Hres as (x & Hlt & Hx & Hfx & Hall). simpl in *.
  exists x; split_and!; try done. intros j y Hj. apply Hall. lia.
Qed.

(** what is published around the current track. The previous tracks are
    the (at most 32) entries right before it, in context order; the next
    ones are the queued tracks still to play followed by the entries right
    after it, cut to 32. *)
Theorem published_window (h : mheap) (r : R) tl (Hinv : tl_inv tl) :
  let l := tl_tracks tl in
  exists prev r' tl' next,
    PrevTracks h r tl = Ret prev /\ NextTracks h r tl None = Ret (h, r', tl', next) /\
    provide_all h (cr_Type r)
      (item <$> dropZ (pl_pos l - MaxTracksInContext) (takeZ (pl_pos l) (pl_list l))) = Ret prev /\
    provide_all h (cr_Type r)
      (takeZ MaxTracksInContext
         (UpcomingQueue tl ++ (item <$> dropZ (pl_pos l + 1) (pl_list (tl_tracks tl'))))) = Ret next.
Proof.
  intros l. destruct (PrevTracks_total h r tl Hinv) as (prev & Hp & Hprev).
  exists prev. unfold NextTracks. pose proof (inv_pos _ Hinv).
  change (if tl_playingQueue tl then dropZ 1 (tl_queue tl) else tl_queue tl) with (UpcomingQueue tl).
  assert (Hq : Forall track_ok (UpcomingQueue tl)).
  { unfold UpcomingQueue. pose proof (inv_queue_ok _ Hinv). destruct (tl_playingQueue tl); [by apply Forall_dropZ|done]. }
  destruct (provide_all_returns h (cr_Type r) (takeZ MaxTracksInContext (UpcomingQueue tl)))
    as (ts0 & Hts0 & Hlen0); [by apply Forall_take|].
  assert (Hz0 : zlen ts0 = Z.min MaxTracksInContext (zlen (UpcomingQueue tl))).
  { assert (Hz : zlen ts0 = zlen (takeZ MaxTracksInContext (UpcomingQueue tl))) by (unfold zlen; by rewrite Hlen0).
    rewrite Hz, zlen_takeZ. pose proof (zlen_nonneg (UpcomingQueue tl)). unfold MaxTracksInContext. lia. }
  destruct (next_tracks_loop_spec (Z.to_nat (MaxTracksInContext - zlen ts0)) h r l
              (PagedIter (pl_pos l) None) ts0 (inv_loaded _ Hinv)) as (r' & l' & ps & Hs & Hl & Hpos & _ & Hprov).
  { simpl; subst l; lia. }
  exists r', (set_tracks tl l'), (ts0 ++ ps). split; [done|]. split; [|split; [done|]].
  { rewrite Hts0, run_bind_Ret, iterHere_inv, run_bind_Ret by done. fold l. by rewrite Hs, run_bind_Ret. }
  simpl. simpl it_pos in Hprov.
  rewrite Z2Nat.id in Hprov by lia.
  destruct (Z.le_gt_cases MaxTracksInContext (zlen (UpcomingQueue tl))) as [Hge|Hlt].
  - rewrite takeZ_app_le by done. replace (MaxTracksInContext - zlen ts0) with 0 in Hprov by lia.
    injection Hprov as <-. by rewrite app_nil_r.
  - rewrite takeZ_app_ge by lia. rewrite takeZ_all in Hts0 by lia.
    rewrite provide_all_app, Hts0, run_bind_Ret.
    replace (MaxTracksInContext - zlen ts0) with (MaxTracksInContext - zlen (UpcomingQueue tl)) in Hprov by lia.
    unfold takeZ in *. rewrite <- fmap_take. by rewrite Hprov.
Qed.

(** [n] consecutive [GoNext]s. *)
Fixpoint go_next_n (n : nat) (r : R) tl : run (R * List) :=
  match n with
  | O => Ret (r, tl)
  | S n => '(r', tl', _) ← GoNext r tl; go_next_n n r' tl'
  end.

Lemma GoNext_queue (r : R) tl t q : tl_inv tl -> UpcomingQueue tl = t :: q ->
  GoNext r tl = Ret (r, set_queue tl true (t :: q), true).
Proof.
  intros Hi. unfold UpcomingQueue, GoNext. pose proof (inv_queue _ Hi) as Hq.
  destruct (tl_playingQueue tl).
  - destruct (tl_queue tl) as [|u q0]; [by destruct Hq|]. change (dropZ 1 (u :: q0)) with (drop 0 q0). rewrite drop_0. by intros ->.
  - intros Hq'. by rewrite run_bind_Ret, Hq'.
Qed.

(** playing on goes through the whole queue in the order it was queued
    before it returns to the context: after [k+1] steps the [k]-th upcoming
    entry plays and the rest is still upcoming, with the context position
    untouched. *)
Theorem queue_plays_in_order k (r : R) tl t
  (Hinv : tl_inv tl) (Hk : UpcomingQueue tl !! k = Some t) :
  exists tl', go_next_n (S k) r tl = Ret (r, tl') /\ current tl' = Ret t /\
    UpcomingQueue tl' = drop (S k) (UpcomingQueue tl) /\ tl_tracks tl' = tl_tracks tl.
Proof.
  revert tl Hinv Hk; induction k as [|k IH]; intros tl Hi Hk;
    destruct (UpcomingQueue tl) as [|u q] eqn:Hq; try done; cbn [go_next_n];
    rewrite (GoNext_queue r tl u q Hi Hq), run_bind_Ret.
  - injection Hk as ->. eexists; split; [reflexivity|]. by split_and!.
  - destruct (GoNext_inv r tl Hi) as (? & tl1 & ? & Hg & Hi1).
    rewrite (GoNext_queue r tl u q Hi Hq) in Hg. injection Hg as <- <- <-.
    destruct (IH (set_queue tl true (u :: q)) Hi1 Hk) as (tl' & Hn & Hc & Hu & Ht).
    exists tl'. by split_and!.
Qed.

(** the track [PeekNext] announces (and the daemon prefetches) is the
    one that plays after the next [GoNext]. *)
Theorem peek_next_is_next (r r1 : R) tl tl1 t
  (Hinv : tl_inv tl) (Hpeek : PeekNext r tl = Ret (r1, tl1, Some t)) :
  exists tl2, GoNext r1 tl1 = Ret (r1, tl2, true) /\ current tl2 = Ret t.
Proof.
  unfold PeekNext in Hpeek. pose proof (inv_pos _ Hinv). pose proof (inv_queue _ Hinv) as Hqne.
  assert (Hwalk : tl_queue tl = [] \/ (tl_playingQueue tl = true /\ exists u, tl_queue tl = [u]) ->
    (it ← pl_iterHere (tl_tracks tl);
     '(r', l', b, it') ← it_next r (tl_tracks tl) it;
     if b : bool then curr ← it_get l' it'; Ret (r', set_tracks tl l', Some (item curr))
     else Ret (r', set_tracks tl l', None)) = Ret (r1, tl1, Some t) ->
    exists tl2, GoNext r1 tl1 = Ret (r1, tl2, true) /\ current tl2 = Ret t).
  { intros Hq Hw. rewrite iterHere_inv, run_bind_Ret in Hw by done.
    destruct (it_next_inv r tl (PagedIter (pl_pos (tl_tracks tl)) None) Hinv)
      as (r' & l' & b & it' & Hn & Hp & Hlen & Hl & Hb).
    rewrite Hn, run_bind_Ret in Hw. destruct b; [|done]. simpl in Hb.
    destruct (it_get_Ret l' it') as (x & Hx & Hnx); [lia|]. rewrite Hx, run_bind_Ret in Hw.
    injection Hw as <- <- <-.
    assert (Hg : GoNext r' (set_tracks tl l') =
                 Ret (r', set_tracks (set_queue (set_tracks tl l') false []) (PagedList (pl_list l') (pl_pos l' + 1)), true)).
    { unfold GoNext; simpl.
      assert (H1 : exists tla, (if tl_playingQueue tl then
           match tl_queue tl with
           | [] => Panic "slice bounds out of range"
           | _ :: q => Ret (set_queue (set_tracks tl l') true q)
           end else Ret (set_tracks tl l')) = Ret tla /\ tl_queue tla = [] /\
           set_queue tla false [] = set_queue (set_tracks tl l') false []).
      { destruct Hq as [Hq|(Hq1 & u & Hq)]; rewrite Hq in *.
        - destruct (tl_playingQueue tl); [by destruct Hqne|]. by eexists.
        - rewrite Hq1. by eexists. }
      destruct H1 as (tla & -> & Hqa & Hsame). rewrite run_bind_Ret, Hqa. cbn zeta. rewrite Hsame; simpl.
      pose proof (f_equal tl_tracks Hsame) as Htr; simpl in Htr. rewrite Htr.
      unfold pl_iterHere. rewrite decide_False by lia. rewrite run_bind_Ret.
      rewrite it_next_resident by (simpl; lia). rewrite run_bind_Ret. done. }
    rewrite Hg. eexists; split; [reflexivity|]. unfold current; simpl.
    unfold pl_get; simpl. rewrite decide_False by (simpl; lia).
    assert (Hix : index (pl_list l') (pl_pos l' + 1) = Ret x).
    { apply index_Ret. rewrite Hp. destruct Hb as [Hb _]. by rewrite <- Hb. }
    by rewrite Hix. }
  destruct (tl_playingQueue tl) eqn:Hpl; destruct (tl_queue tl) as [|u [|v q]] eqn:Hq; eauto.
  - injection Hpeek as <- <- <-. unfold GoNext. rewrite Hpl, Hq, run_bind_Ret; simpl. by eexists.
  - injection Hpeek as <- <- <-. unfold GoNext. rewrite Hpl, run_bind_Ret, Hq. by eexists.
  - injection Hpeek as <- <- <-. unfold GoNext. rewrite Hpl, run_bind_Ret, Hq. by eexists.
Qed.
End claims.

(** A run over the demo context: queue a track, skip into the context, shuffle,
    move on, take a snapshot, unshuffle. *)
Definition demo_cmds : list list_cmd :=
  [CmdAddToQueue (demo_track "spotify:track:q"); CmdNext; CmdSkipTo (demo_track "spotify:track:d");
   CmdShuffle true 41; CmdNext; CmdPrev; CmdSnapshot None; CmdShuffle false 0; CmdPeek; CmdStart].


Definition demo_pred (t : ContextTrack) : run bool := Ret (String.eqb (ct_Uri t) "spotify:track:d").

Lemma seek_first_match_witness :
  exists fuel r' tl' err, Seek (R := unit) fuel tt demo_list demo_pred = Ret (r', tl', err) /\
    (exists ext, pl_list (tl_tracks tl') = pl_list (tl_tracks demo_list) ++ ext) /\
    match err with
    | None => exists x, nthZ (pl_list (tl_tracks tl')) (pl_pos (tl_tracks tl')) = Some x /\
                demo_pred (item x) = Ret true /\
                forall j y, 0 <= j < pl_pos (tl_tracks tl') ->
                  nthZ (pl_list (tl_tracks tl')) j = Some y -> demo_pred (item y) = Ret false
    | Some _ => pl_pos (tl_tracks tl') = pl_pos (tl_tracks demo_list)
    end.
Proof.
  apply (seek_first_match (R := unit) tt demo_list demo_pred).
  - exact demo_list_inv.
  - intros t _. eexists. reflexivity.
Defined.

Lemma published_window_witness :
  let l := tl_tracks demo_list in
  exists prev r' tl' next,
    PrevTracks (R := unit) ∅ tt demo_list = Ret prev /\
    NextTracks (R := unit) ∅ tt demo_list None = Ret (∅, r', tl', next) /\
    provide_all ∅ "track"
      (item <$> dropZ (pl_pos l - MaxTracksInContext) (takeZ (pl_pos l) (pl_list l))) = Ret prev /\
    provide_all ∅ "track"
      (takeZ MaxTracksInContext
         (UpcomingQueue demo_list ++ (item <$> dropZ (pl_pos l + 1) (pl_list (tl_tracks tl'))))) = Ret next.
Proof. exact (published_window (R := unit) ∅ tt demo_list demo_list_inv). Defined.

(** The demo list with two queued tracks. *)
Definition demo_queued : List :=
  set_queue demo_list false [demo_track "spotify:track:q1"; demo_track "spotify:track:q2"].

Lemma demo_queued_inv : tl_inv demo_queued.
Proof.
  apply inv_set_queue; [exact demo_list_inv|discriminate|].
  apply (bool_decide_unpack _). vm_compute. exact I.
Defined.

Lemma queue_plays_in_order_witness :
  exists tl', go_next_n (R := unit) 2 tt demo_queued = Ret (tt, tl') /\
    current tl' = Ret (demo_track "spotify:track:q2") /\
    UpcomingQueue tl' = drop 2 (UpcomingQueue demo_queued) /\ tl_tracks tl' = tl_tracks demo_queued.
Proof.
  apply (queue_plays_in_order (R := unit) 1 tt demo_queued (demo_track "spotify:track:q2")).
  - exact demo_queued_inv.
  - reflexivity.
Defined.

Lemma peek_next_is_next_witness :
  exists tl2, GoNext (R := unit) tt demo_list = Ret (tt, tl2, true) /\
              current tl2 = Ret (demo_track "spotify:track:b").
Proof.
  apply (peek_next_is_next (R := unit) tt tt demo_list demo_list (demo_track "spotify:track:b")).
  - exact demo_list_inv.
  - vm_compute. reflexivity.
Defined.

(** ** Snapshots *)
Section snapshot_claim.
Context {R : Type} `{!ContextResolver R, !ResolverLaws R}.

(** A write the list makes later touches the map of one of its own tracks or
    a new one. *)
Lemma AddToQueue_writes (h h' : mheap) tl t m key :
  dom h ⊆ dom h' -> owned h h' m -> (forall p, ct_Metadata t = Some p -> p ∈ dom h) ->
  meta_get (AddToQueue h' tl t).1 m key = meta_get h' m key.
Proof.
  intros Hsub Ho Ht. destruct m as [p|]; [|done]. destruct (Ho p eq_refl) as [Hnot Hin].
  unfold AddToQueue, meta_get. destruct (ct_Metadata t) as [q|]; simpl.
  - rewrite lookup_alter_ne; [done|]. intros <-. apply Hnot. by apply Ht.
  - pose proof (is_fresh (dom h')) as Hf.
    assert (fresh (dom h') <> p) by (intros <-; done).
    by rewrite lookup_alter_ne, lookup_insert_ne by done.
Qed.

Lemma provided_metadata h typ t p :
  ContextTrackToProvidedTrack h typ t = Ret p -> pt_Metadata p = ct_Metadata t.
Proof.
  unfold ContextTrackToProvidedTrack. intros H%run_bind_inv. destruct H as (u & _ & [= <-]). done.
Qed.

(** a snapshot owns every metadata map it hands out (none of them existed
    before), the current track's copy reads like the original, and nothing
    the list does to its own tracks afterwards (queueing one of them writes
    its map) can be seen through the snapshot. *)
Theorem snapshot_owns_memory (h : mheap) (r : R) tl hint h' r' tl' sn
  (Hinv : tl_inv tl) (Hhint : hint_ok hint)
  (Hlive : forall t p, t ∈ default [] hint -> ct_Metadata t = Some p -> p ∈ dom h)
  (Hcur : forall t p, current tl = Ret t -> ct_Metadata t = Some p -> p ∈ dom h)
  (Hs : Snapshot h r tl hint = Ret (h', r', tl', sn)) :
  Forall (owned h h') (snapshot_locs sn) /\
  (forall t key, current tl = Ret t ->
     meta_get h' (pt_Metadata (sn_Current sn)) key = meta_get h (ct_Metadata t) key) /\
  (forall tl2 t m key, m ∈ snapshot_locs sn -> (forall p, ct_Metadata t = Some p -> p ∈ dom h) ->
     meta_get (AddToQueue h' tl2 t).1 m key = meta_get h' m key).
Proof.
  unfold Snapshot in Hs. destruct (maps_Clone h (cr_Metadata r)) as [h1 m] eqn:E1.
  apply maps_Clone_spec in E1 as (He1 & Ho1).
  apply run_bind_inv in Hs as (cur & Hc & Hs).
  unfold CurrentTrack in Hc. apply run_bind_inv in Hc as (t0 & Ht0 & Hc).
  apply provided_metadata in Hc.
  destruct (cloneProvided h1 cur) as [h2 cur'] eqn:E2.
  apply cloneProvided_spec in E2 as (He2 & Ho2 & Hg2 & _).
  apply run_bind_inv in Hs as (prev & _ & Hs).
  destruct (cloneProvidedAll h2 prev) as [h3 prev'] eqn:E3.
  apply cloneProvidedAll_spec in E3 as (He3 & _ & Ho3).
  destruct (NextTracks_total h3 r tl hint Hinv Hhint) as (h4 & r4 & tl4 & next & Hn & _ & _ & Hd4 & Hp4).
  rewrite Hn, run_bind_Ret in Hs.
  destruct (cloneProvidedAll h4 next) as [h5 next'] eqn:E5.
  apply cloneProvidedAll_spec in E5 as (He5 & _ & Ho5).
  apply run_bind_inv in Hs as (ix & _ & Hs). injection Hs as <- <- <- <-.
  pose proof (extends_dom _ _ He1). pose proof (extends_dom _ _ He2).
  pose proof (extends_dom _ _ He3). pose proof (extends_dom _ _ He5).
  assert (Howned : Forall (owned h h5) (snapshot_locs (MkSnapshot m cur' prev' next' ix))).
  { unfold snapshot_locs; simpl. apply Forall_cons; split; [|apply Forall_cons; split].
    - intros p Hp. destruct (Ho1 p Hp). set_solver.
    - intros p Hp. destruct (Ho2 p Hp). set_solver.
    - apply Forall_app; split; apply Forall_fmap; (eapply Forall_impl; [eassumption|]);
        intros u Hu p Hp; destruct (Hu p Hp); set_solver. }
  split; [exact Howned|]. split.
  - intros t key Ht. rewrite Ht0 in Ht. injection Ht as ->. simpl.
    rewrite (extends_get h4 h5); [|done|].
    2: { intros p Hp. destruct (Ho2 p Hp). set_solver. }
    assert (H43 : meta_get h4 (pt_Metadata cur') key = meta_get h2 (pt_Metadata cur') key).
    { destruct (pt_Metadata cur') as [p|] eqn:Ep; [|done]. unfold meta_get; simpl.
      destruct (Ho2 p eq_refl) as [Hnot Hin].
      rewrite Hp4; [by rewrite He3|]. intros u Hu Hpu. apply Hnot. set_solver. }
    rewrite H43, Hg2, Hc. apply extends_get; [done|]. intros p Hp. by eapply Hcur.
  - intros tl2 t m0 key Hm Ht. rewrite Forall_forall in Howned. eapply AddToQueue_writes; [|by apply Howned|done].
    set_solver.
Qed.
End snapshot_claim.

(** A one-track queue whose entry carries a metadata map, and its snapshot. *)
Definition demo_heap : mheap := {[ 1%positive := {[ "is_queued" := "true"; "artist_uri" := "spotify:artist:x" ]} ]}.
Definition demo_queue_track : ContextTrack := MkContextTrack "spotify:track:q" "u1" [] (Some 1%positive).
Definition demo_playing : List := set_queue demo_list true [demo_queue_track].

Lemma demo_playing_inv : tl_inv demo_playing.
Proof.
  apply inv_set_queue; [exact demo_list_inv|discriminate|].
  apply (bool_decide_unpack _). vm_compute. exact I.
Defined.

Lemma snapshot_owns_memory_witness :
  match Snapshot (R := unit) demo_heap tt demo_playing None with
  | Ret (h', r', tl', sn) =>
    Forall (owned demo_heap h') (snapshot_locs sn) /\
    (forall t key, current demo_playing = Ret t ->
       meta_get h' (pt_Metadata (sn_Current sn)) key = meta_get demo_heap (ct_Metadata t) key) /\
    (forall tl2 t m key, m ∈ snapshot_locs sn ->
       (forall p, ct_Metadata t = Some p -> p ∈ dom demo_heap) ->
       meta_get (AddToQueue h' tl2 t).1 m key = meta_get h' m key)
  | _ => False
  end.
Proof.
  destruct (Snapshot (R := unit) demo_heap tt demo_playing None) as [[[[h' r'] tl'] sn]|w|] eqn:E;
    try (vm_compute in E; discriminate E).
  apply (snapshot_owns_memory (R := unit) demo_heap tt demo_playing None h' r' tl' sn).
  - exact demo_playing_inv.
  - constructor.
  - intros t p Ht. inversion Ht.
  - intros t p Ht Hp. vm_compute in Ht. injection Ht as <-. simpl in Hp. injection Hp as <-.
    apply elem_of_dom. exists {[ "is_queued" := "true"; "artist_uri" := "spotify:artist:x" ]}. reflexivity.
  - exact E.
Defined.

(** ** The order of the context *)
Section order_claims.
Context {R : Type} `{!ContextResolver R}.

(** walking an unshuffled context loads its pages in order, without
    skipping or repeating one: the list is always the concatenation of the
    first pages, each entry tagged with its page and index. *)
Theorem walk_loads_context_in_order (pages : Z -> list ContextTrack) (r r' : R) l l' it it' b k
  (Hc : consistent (R := R) pages) (Hne : forall i, (i < k)%nat -> pages (Z.of_nat i) <> [])
  (Hl : pl_list l = loaded_pages pages k)
  (Hn : it_next r l it = Ret (r', l', b, it')) :
  exists k', (k <= k')%nat /\ pl_list l' = loaded_pages pages k' /\
             (forall i, (i < k')%nat -> pages (Z.of_nat i) <> []).
Proof.
  unfold it_next in Hn. revert Hn. generalize (next_fuel l it). intros fuel.
  revert r l k Hne Hl; induction fuel as [|fuel IH]; intros r l k Hne Hl; simpl; case_decide; try done;
    try (intros [= <- <- <- <-]; by exists k).
  destruct (fetchNextPage r l) as [[[r1 l1] pg] err] eqn:E.
  destruct err as [e|].
  - apply fetchNextPage_spec in E as (_ & _ & ->).
    destruct (errors_Is e io_EOF); intros [= <- <- <- <-]; by exists k.
  - apply (fetchNextPage_loaded pages _ _ _ _ _ k) in E as (Hl1 & Hk); try done.
    intros Hn. destruct (IH r1 l1 (S k)) as (k' & Hle & ?); [|done|done|].
    + intros i Hi. destruct (decide (i = k)) as [->|]; [done|apply Hne; lia].
    + exists k'. split; [lia|done].
Qed.

(** the next page is taken from the page of the last entry of the list,
    also after a shuffle has moved another page's entry there: at the end of
    a shuffled context [GoNext] fetches the page after that entry's again
    and appends it, instead of reporting the end of the context. *)
Theorem shuffled_end_refetches (r r' : R) tl x items
  (Hq : tl_queue tl = []) (Hnq : tl_playingQueue tl = false)
  (Hlast : last (pl_list (tl_tracks tl)) = Some x)
  (Hend : pl_pos (tl_tracks tl) = zlen (pl_list (tl_tracks tl)) - 1)
  (Hpage : Page r (pageIdx x + 1) = (r', Ok items)) (Hne : items <> []) :
  exists tl', GoNext r tl = Ret (r', tl', true) /\
    pl_list (tl_tracks tl') = pl_list (tl_tracks tl) ++ page_items (pageIdx x + 1) items.
Proof.
  assert (Hz : 0 < zlen (pl_list (tl_tracks tl))).
  { destruct (pl_list (tl_tracks tl)) as [|y ys]; [done|]. rewrite zlen_cons. pose proof (zlen_nonneg ys). lia. }
  unfold GoNext. rewrite Hnq, run_bind_Ret, Hq. cbn zeta.
  unfold pl_iterHere; simpl. rewrite decide_False by lia. rewrite run_bind_Ret.
  erewrite it_next_fetch; [|simpl; lia|].
  2: { unfold fetchNextPage, next_page_idx. rewrite Hlast, Hpage. by destruct items. }
  rewrite run_bind_Ret. eexists; split; [reflexivity|]. done.
Qed.
End order_claims.

Lemma walk_loads_context_in_order_witness :
  exists k', (1 <= k')%nat /\
    pl_list (tl_tracks demo_list) ++ page_items 1 [demo_track "spotify:track:c"; demo_track "spotify:track:d"]
      = loaded_pages (fun i => default [] (nthZ demo_pages i)) k' /\
    (forall i, (i < k')%nat -> default [] (nthZ demo_pages (Z.of_nat i)) <> []).
Proof.
  apply (walk_loads_context_in_order (R := unit) (fun i => default [] (nthZ demo_pages i)) tt tt
           (tl_tracks demo_list)
           (PagedList (pl_list (tl_tracks demo_list) ++ page_items 1 [demo_track "spotify:track:c"; demo_track "spotify:track:d"]) 0)
           (PagedIter 1 None) (PagedIter 2 None) true 1).
  - intros r i r' items. unfold Page; simpl. destruct (nthZ demo_pages i); [|done]. by intros [= <- <-].
  - intros i Hi. destruct i as [|i]; [discriminate|lia].
  - vm_compute. reflexivity.
  - vm_compute. reflexivity.
Defined.

(** The demo context shuffled and positioned on its last entry, which comes
    from the first of its three pages. *)
Definition demo_shuffled_end : List :=
  match ToggleShuffle (R := unit) (G := Z) 10 tt demo_list true 1 with
  | Ret (_, tl, _) =>
    set_tracks tl (PagedList (pl_list (tl_tracks tl)) (zlen (pl_list (tl_tracks tl)) - 1))
  | _ => demo_list
  end.

(** The five tracks of the demo context are all loaded, yet going on plays the
    second page once more. *)
Lemma shuffled_end_refetches_witness :
  exists tl', GoNext (R := unit) tt demo_shuffled_end = Ret (tt, tl', true) /\
    pl_list (tl_tracks tl') = pl_list (tl_tracks demo_shuffled_end)
      ++ page_items 1 [demo_track "spotify:track:c"; demo_track "spotify:track:d"].
Proof.
  apply (shuffled_end_refetches (R := unit) tt tt demo_shuffled_end
           (PagedItem (demo_track "spotify:track:b") 0 1)
           [demo_track "spotify:track:c"; demo_track "spotify:track:d"]); try (vm_compute; reflexivity).
  discriminate.
Defined.
