(* ===== verification/Loader.v ===== *)
(** * The loader lane ([src/daemon/loader.go])

    One worker runs queued jobs off the player loop; the loop submits, drops,
    closes and folds results back.  The lane's operations are functions on its
    state, the goroutines' interleavings a step relation over them.  A job's
    reply channel is identified by the job's number, and every call of
    [replyTo.done] is recorded, so that "exactly once" can be stated without
    relying on the [sync.Once] that guards it. *)

From S2P Require Import Prelude.
#[local] Open Scope list_scope.
#[local] Open Scope Z_scope.

Inductive loaderClass := classLoad | classNav | classMutate | classPrefetch.

#[export] Instance loaderClass_eq_dec : EqDecision loaderClass.
Proof. solve_decision. Defined.

Definition loaderQueueSize : Z := 32.
Definition resultsCap : Z := 4.
Definition maxPendingPlayerEvents : Z := 32.

Definition ErrSuperseded : error := ESentinel "superseded by a newer command".
Definition ErrLoaderBusy : error := ESentinel "player is busy".
Definition ErrNoContext : error := ESentinel "no context".
Definition ErrNoSession : error := ESentinel "no session".

(** In seconds. *)
Definition class_timeout (c : loaderClass) : Z :=
  match c with
  | classMutate => 30
  | classPrefetch => 30
  | _ => 60
  end.

Definition fetches (c : loaderClass) : bool :=
  bool_decide (c = classLoad) || bool_decide (c = classPrefetch).

Definition loads (c : loaderClass) : bool :=
  bool_decide (c = classLoad) || bool_decide (c = classNav).

Record loaderJob := MkJob {
  job_id : nat;
  job_class : loaderClass;
  job_gen : Z;
  job_notBefore : Z
}.

#[export] Instance loaderJob_eq_dec : EqDecision loaderJob.
Proof. solve_decision. Defined.

(** One call of [reply.done]: whose, and the error it carries. *)
Definition reply := (nat * option error)%type.

Record runningJob := MkRunning { run_class : loaderClass; run_cancelled : bool }.

(** The fields of [loaderLane] guarded by its mutex. *)
Record loaderLane := MkLane {
  queue : list loaderJob;
  running : option runningJob;
  closed : bool
}.

Definition newLoaderLane : loaderLane := MkLane [] None false.

Fixpoint partitionQueue (jobs : list loaderJob) (drop : loaderJob -> bool)
  : list loaderJob * list loaderJob :=
  match jobs with
  | [] => ([], [])
  | job :: jobs =>
    let '(dropped, kept) := partitionQueue jobs drop in
    if drop job then (job :: dropped, kept) else (dropped, job :: kept)
  end.

Definition replyAll (jobs : list loaderJob) (err : option error) : list reply :=
  (fun job => (job_id job, err)) <$> jobs.

(** [l.running.cancel()] when the running job satisfies the condition. *)
Definition cancel_if (p : loaderClass -> bool) (r : option runningJob) : option runningJob :=
  match r with
  | Some j => if p (run_class j) then Some (MkRunning (run_class j) true) else Some j
  | None => None
  end.

Definition dropLoadsLocked (l : loaderLane) : loaderLane * list loaderJob :=
  let '(dropped, kept) := partitionQueue (queue l) (fun q => fetches (job_class q)) in
  (MkLane kept (cancel_if fetches (running l)) (closed l), dropped).

Definition hasPendingLoad (l : loaderLane) : bool :=
  match running l with
  | Some j => loads (run_class j)
  | None => false
  end || existsb (fun q => loads (job_class q)) (queue l).

(** What a submit does to the lane, and the replies it makes. *)
Definition submit (l : loaderLane) (job : loaderJob) : loaderLane * list reply :=
  if closed l then (l, [(job_id job, Some ErrNoSession)])
  else
    let finish (l1 : loaderLane) (dropped : list loaderJob) :=
      if decide (loaderQueueSize <= zlen (queue l1)) then
        (l1, (job_id job, Some ErrLoaderBusy) :: replyAll dropped (Some ErrSuperseded))
      else
        (MkLane (queue l1 ++ [job]) (running l1) (closed l1), replyAll dropped (Some ErrSuperseded)) in
    match job_class job with
    | classLoad | classNav => let '(l1, dropped) := dropLoadsLocked l in finish l1 dropped
    | classPrefetch =>
      if hasPendingLoad l then (l, [(job_id job, None)])
      else
        let '(dropped, kept) :=
          partitionQueue (queue l) (fun q => bool_decide (job_class q = classPrefetch)) in
        finish (MkLane kept (cancel_if (fun c => bool_decide (c = classPrefetch)) (running l)) (closed l))
               dropped
    | classMutate => finish l []
    end.

Definition dropLoads (l : loaderLane) : loaderLane * list reply :=
  if closed l then (l, [])
  else let '(l1, dropped) := dropLoadsLocked l in (l1, replyAll dropped (Some ErrSuperseded)).

Inductive next_result :=
| NextJob (job : loaderJob)
| NextWait (d : Z)
| NextNone.

(** [slices.IndexFunc(queue, ...)] followed by [slices.Delete]: the first
    mutation whose time has come, and the queue without it. *)
Fixpoint take_due_mutation (now : Z) (q : list loaderJob) : option (loaderJob * list loaderJob) :=
  match q with
  | [] => None
  | job :: q =>
    if bool_decide (job_class job = classMutate) && bool_decide (job_notBefore job - now <= 0)
    then Some (job, q)
    else '(j, q') ← take_due_mutation now q; Some (j, job :: q')
  end.

Definition lane_next (now : Z) (l : loaderLane) : loaderLane * next_result :=
  if closed l then (l, NextNone)
  else
    match queue l with
    | [] => (l, NextNone)
    | job :: rest =>
      if decide (0 < job_notBefore job - now) then
        match take_due_mutation now (queue l) with
        | None => (l, NextWait (job_notBefore job - now))
        | Some (j, q) => (MkLane q (Some (MkRunning (job_class j) false)) (closed l), NextJob j)
        end
      else (MkLane rest (Some (MkRunning (job_class job) false)) (closed l), NextJob job)
    end.

(** The deferred part of [execute]. *)
Definition execute_done (l : loaderLane) : loaderLane := MkLane (queue l) None (closed l).

Definition lane_close (l : loaderLane) : loaderLane * list reply :=
  if closed l then (l, [])
  else (MkLane [] (running l) true, replyAll (queue l) (Some ErrNoSession)).

(** ** The goroutines

    The worker of [run]: between jobs, executing one, holding a result it has
    not handed over yet, or gone.  [results] is the buffered channel,
    [ctxDone] whether [close] cancelled the lane's context. *)
Inductive worker :=
| WIdle
| WExec (job : loaderJob)
| WSend (job : loaderJob)
| WExited.

Record system := MkSystem {
  lane : loaderLane;
  wrk : worker;
  results : list loaderJob;
  ctxDone : bool;
  replies : list reply;
  submitted : list nat
}.

Definition init_system : system := MkSystem newLoaderLane WIdle [] false [] [].

Inductive lane_step : system -> system -> Prop :=
(** the player loop submits a job never submitted before *)
| step_submit s job l' rs :
    job_id job ∉ submitted s -> submit (lane s) job = (l', rs) ->
    lane_step s (MkSystem l' (wrk s) (results s) (ctxDone s) (replies s ++ rs) (job_id job :: submitted s))
| step_dropLoads s l' rs :
    dropLoads (lane s) = (l', rs) ->
    lane_step s (MkSystem l' (wrk s) (results s) (ctxDone s) (replies s ++ rs) (submitted s))
| step_close s l' rs :
    lane_close (lane s) = (l', rs) ->
    lane_step s (MkSystem l' (wrk s) (results s) true (replies s ++ rs) (submitted s))
(** the worker takes a job *)
| step_next s now l' job :
    wrk s = WIdle -> lane_next now (lane s) = (l', NextJob job) ->
    lane_step s (MkSystem l' (WExec job) (results s) (ctxDone s) (replies s) (submitted s))
(** the worker finds nothing to run and the context is done *)
| step_exit s :
    wrk s = WIdle -> ctxDone s = true ->
    lane_step s (MkSystem (lane s) WExited (results s) (ctxDone s) (replies s) (submitted s))
| step_execute s job :
    wrk s = WExec job ->
    lane_step s (MkSystem (execute_done (lane s)) (WSend job) (results s) (ctxDone s) (replies s) (submitted s))
(** [case l.results <- res] *)
| step_send s job :
    wrk s = WSend job -> zlen (results s) < resultsCap ->
    lane_step s (MkSystem (lane s) WIdle (results s ++ [job]) (ctxDone s) (replies s) (submitted s))
(** [case <-l.ctx.Done()] *)
| step_send_done s job :
    wrk s = WSend job -> ctxDone s = true ->
    lane_step s (MkSystem (lane s) WExited (results s) (ctxDone s)
                          (replies s ++ [(job_id job, Some ErrNoSession)]) (submitted s))
(** the player loop receives a result and answers it *)
| step_receive s job rest err :
    results s = job :: rest ->
    lane_step s (MkSystem (lane s) (wrk s) rest (ctxDone s) (replies s ++ [(job_id job, err)]) (submitted s)).

Definition reachable (s : system) : Prop := star lane_step init_system s.

(** ** Folding a result back ([applyLoaderResult]) *)
Inductive EventType :=
| EventTypePlay | EventTypeResume | EventTypePause | EventTypeStop | EventTypeNotPlaying.

#[export] Instance EventType_eq_dec : EqDecision EventType.
Proof. solve_decision. Defined.

Record Event := MkEvent { ev_Type : EventType; ev_StreamGen : Z; ev_Err : option error }.

Section apply.
(** The rest of the player's state, its events and what handling one does. *)
Context {P : Type}.

Record appPlayer := MkPlayer {
  loadGen : Z;
  prefetchGen : Z;
  loadInFlight : bool;
  pendingPlayerEvents : list Event;
  rest : P
}.

Record loaderResult := MkResult {
  res_class : loaderClass;
  res_gen : Z;
  res_err : option error;
  res_commit : option (appPlayer -> option error -> appPlayer);
  res_discard : bool
}.

Context (handlePlayerEvent : appPlayer -> Event -> appPlayer).

Definition generation (p : appPlayer) (class : loaderClass) : Z :=
  if decide (class = classPrefetch) then prefetchGen p else loadGen p.

Definition drainPendingPlayerEvents (p : appPlayer) : appPlayer :=
  foldl handlePlayerEvent
    (MkPlayer (loadGen p) (prefetchGen p) (loadInFlight p) [] (rest p))
    (pendingPlayerEvents p).

(** The new state, the error the reply carries, and whether the result's
    resources were discarded. *)
Definition applyLoaderResult (p : appPlayer) (res : loaderResult) : appPlayer * option error * bool :=
  let landed := bool_decide (res_class res = classLoad) && bool_decide (res_gen res = loadGen p) in
  let p1 := if landed
            then MkPlayer (loadGen p) (prefetchGen p) false (pendingPlayerEvents p) (rest p)
            else p in
  let '(p2, err, discarded) :=
    if bool_decide (res_class res <> classMutate) && bool_decide (res_gen res <> generation p1 (res_class res))
    then (p1, Some ErrSuperseded, res_discard res)
    else (match res_commit res with Some c => c p1 (res_err res) | None => p1 end, res_err res, false) in
  (if landed then drainPendingPlayerEvents p2 else p2, err, discarded).

Definition deferPlayerEvent (p : appPlayer) (ev : Event) : appPlayer * bool :=
  if negb (loadInFlight p) then (p, false)
  else if decide (maxPendingPlayerEvents <= zlen (pendingPlayerEvents p)) then (p, true)
  else (MkPlayer (loadGen p) (prefetchGen p) (loadInFlight p) (pendingPlayerEvents p ++ [ev]) (rest p), true).

Definition forgetReplacedStreamEvents (p : appPlayer) (gen : Z) : appPlayer :=
  MkPlayer (loadGen p) (prefetchGen p) (loadInFlight p)
    (filter (fun ev => ~ (ev_StreamGen ev < gen /\ (ev_Type ev = EventTypeNotPlaying \/ ev_Type ev = EventTypeStop)))
            (pendingPlayerEvents p))
    (rest p).
End apply.
Arguments appPlayer : clear implicits.
Arguments loaderResult : clear implicits.

(** ** Queue lemmas *)
Lemma partitionQueue_filter jobs drop :
  partitionQueue jobs drop =
  (filter (fun j => drop j = true) jobs, filter (fun j => drop j = false) jobs).
Proof.
  induction jobs as [|j jobs IH]; [done|]; simpl; rewrite IH, !filter_cons.
  by destruct (drop j) eqn:E; simpl; repeat case_decide; try congruence.
Qed.

Lemma filter_bool_Permutation (f : loaderJob -> bool) jobs :
  filter (fun j => f j = true) jobs ++ filter (fun j => f j = false) jobs ≡ₚ jobs.
Proof.
  induction jobs as [|j jobs IH]; [done|]; rewrite !filter_cons.
  destruct (f j) eqn:E; repeat case_decide; try congruence; simpl.
  - by rewrite IH.
  - by rewrite <- Permutation_middle, IH.
Qed.

Lemma take_due_mutation_spec now q j q' :
  take_due_mutation now q = Some (j, q') ->
  exists pre post, q = pre ++ j :: post /\ q' = pre ++ post /\
    job_class j = classMutate /\ job_notBefore j <= now /\
    Forall (fun i => ~ (job_class i = classMutate /\ job_notBefore i <= now)) pre.
Proof.
  revert q'; induction q as [|i q IH]; intros q'; simpl; [done|].
  case_bool_decide as H1; [case_bool_decide as H2|]; simpl;
    [intros [= <- <-]; exists [], q; repeat split; auto; lia | |];
    (destruct (take_due_mutation now q) as [[j' q0]|] eqn:E; [|done]);
    simpl; intros [= -> <-];
    destruct (IH _ eq_refl) as (pre & post & -> & -> & ? & ? & ?);
    exists (i :: pre), post; repeat split; auto; constructor; auto; naive_solver lia.
Qed.

Lemma take_due_mutation_None now q :
  take_due_mutation now q = None ->
  Forall (fun i => ~ (job_class i = classMutate /\ job_notBefore i <= now)) q.
Proof.
  induction q as [|i q IH]; simpl; [constructor|].
  case_bool_decide as H1; [case_bool_decide as H2|]; simpl; [done| |];
    (destruct (take_due_mutation now q) as [[j' q0]|] eqn:E; [done|]);
    intros _; constructor; auto; naive_solver lia.
Qed.

(** What [next] hands the worker: the head once its time has come, otherwise
    the first mutation whose time has come. *)
Lemma lane_next_spec now l l' job :
  lane_next now l = (l', NextJob job) ->
  exists pre post, queue l = pre ++ job :: post /\
    l' = MkLane (pre ++ post) (Some (MkRunning (job_class job) false)) (closed l) /\
    closed l = false /\ job_notBefore job <= now /\
    (pre = [] \/ job_class job = classMutate).
Proof.
  unfold lane_next; destruct (closed l) eqn:Hc; [done|].
  destruct (queue l) as [|h q] eqn:Hq; [done|].
  case_decide.
  - destruct (take_due_mutation now (h :: q)) as [[j q']|] eqn:E; [|done].
    intros [= <- ->].
    destruct (take_due_mutation_spec _ _ _ _ E) as (pre & post & -> & -> & ? & ? & _).
    exists pre, post; repeat split; auto.
  - intros [= <- ->]; exists [], q; repeat split; auto; lia.
Qed.

(** ** The lane's invariant *)
Definition held (w : worker) : list loaderJob :=
  match w with WExec j | WSend j => [j] | _ => [] end.

Definition fetch_count (q : list loaderJob) : Z :=
  zlen (filter (fun j => fetches (job_class j) = true) q).

Definition running_of (w : worker) : option loaderClass :=
  match w with WExec j => Some (job_class j) | _ => None end.

(** Everything ever submitted, by where it is now. *)
Definition whereabouts (s : system) : list nat :=
  (job_id <$> queue (lane s)) ++ (job_id <$> held (wrk s)) ++ (job_id <$> results s) ++ (replies s).*1.

Record system_inv (s : system) : Prop := {
  inv_account : whereabouts s ≡ₚ submitted s;
  inv_once : NoDup (submitted s);
  inv_queue : zlen (queue (lane s)) <= loaderQueueSize;
  inv_fetch : fetch_count (queue (lane s)) <= 1;
  inv_results : zlen (results s) <= resultsCap;
  inv_closed : closed (lane s) = ctxDone s;
  inv_empty : closed (lane s) = true -> queue (lane s) = [];
  inv_exited : wrk s = WExited -> ctxDone s = true;
  inv_running : run_class <$> running (lane s) = running_of (wrk s)
}.

Lemma replyAll_ids jobs e : (replyAll jobs e).*1 = job_id <$> jobs.
Proof. unfold replyAll; by rewrite <- list_fmap_compose. Qed.

Lemma fetch_count_app q1 q2 : fetch_count (q1 ++ q2) = fetch_count q1 + fetch_count q2.
Proof. unfold fetch_count; rewrite filter_app; zlen. Qed.

Lemma fetch_count_nonneg q : 0 <= fetch_count q.
Proof. apply zlen_nonneg. Qed.

Lemma fetch_count_1 j : fetch_count [j] <= 1.
Proof. unfold fetch_count; rewrite filter_cons; case_decide; zlen. Qed.

Lemma fetch_count_0 q :
  Forall (fun j => fetches (job_class j) = false) q -> fetch_count q = 0.
Proof.
  induction 1 as [|j q Hj _ IH]; [done|]; unfold fetch_count in *; rewrite filter_cons.
  case_decide; [congruence | done].
Qed.

Lemma cancel_if_class p r : run_class <$> cancel_if p r = run_class <$> r.
Proof. destruct r as [j|]; simpl; [destruct (p (run_class j))|]; done. Qed.

Lemma zlen_filter_le {A} (P : A -> Prop) `{forall x, Decision (P x)} (q : list A) :
  zlen (filter P q) <= zlen q.
Proof. unfold zlen; pose proof (length_filter P q); lia. Qed.

Lemma filter_drop_none_kept (q : list loaderJob) : filter (fun _ => false = false) q = q.
Proof. induction q; [done|]; rewrite filter_cons; case_decide; [by f_equal | done]. Qed.

Lemma filter_drop_none (q : list loaderJob) : filter (fun _ => false = true) q = [].
Proof. induction q; [done|]; rewrite filter_cons; case_decide; done. Qed.

(** What a submit may do to the queue: keep the jobs a test spares, and append
    the new one unless the queue is full. *)
Lemma submit_cases l job l' rs :
  submit l job = (l', rs) ->
  (l' = l /\ exists e, rs = [(job_id job, e)]) \/
  (exists drop : loaderJob -> bool,
     let kept := filter (fun j => drop j = false) (queue l) in
     let dropped := filter (fun j => drop j = true) (queue l) in
     closed l = false /\ closed l' = false /\
     run_class <$> running l' = run_class <$> running l /\
     (forall j, drop j = true -> fetches (job_class j) = true) /\
     (fetches (job_class job) = true -> Forall (fun j => fetches (job_class j) = false) kept) /\
     (loaderQueueSize <= zlen kept /\ queue l' = kept /\
      rs = (job_id job, Some ErrLoaderBusy) :: replyAll dropped (Some ErrSuperseded) \/
      zlen kept < loaderQueueSize /\ queue l' = kept ++ [job] /\
      rs = replyAll dropped (Some ErrSuperseded))).
Proof.
  unfold submit, dropLoadsLocked; destruct (closed l) eqn:Hc; [intros [= <- <-]; eauto|].
  destruct (job_class job) eqn:Hcl; rewrite ?partitionQueue_filter.
  1,2: case_decide; simpl in *; intros [= <- <-]; right;
    exists (fun q => fetches (job_class q)); cbv zeta; simpl; rewrite cancel_if_class;
    (do 4 (split; [done|])); (split; [intros; apply Forall_forall; by intros j [? _]%list_elem_of_filter|]);
    [left | right]; (split; [lia | done]).
  - case_decide; simpl in *; intros [= <- <-]; right; exists (fun _ => false); cbv zeta; simpl;
      rewrite filter_drop_none_kept, filter_drop_none;
      (do 5 (split; [done|])); [left|right]; (split; [lia|done]).
  - destruct (hasPendingLoad l) eqn:Hp; [intros [= <- <-]; eauto|].
    intros Hs; right; exists (fun q => bool_decide (job_class q = classPrefetch)); cbv zeta.
    revert Hs; case_decide; simpl in *; intros [= <- <-]; simpl; rewrite cancel_if_class;
      (do 3 (split; [done|]));
      (split; [intros j; unfold fetches; by case_bool_decide; rewrite ?orb_true_r|]);
      (split; [|(left + right); (split; [lia|done])]);
      intros _; apply Forall_forall; intros j [Hj Hin]%list_elem_of_filter;
      apply orb_false_iff in Hp as [_ Hp]; unfold fetches; rewrite Hj, orb_false_r;
      apply bool_decide_eq_false; intros Hl;
      assert (existsb (fun q => loads (job_class q)) (queue l) = true) by
        (apply existsb_exists; exists j; split; [by apply list_elem_of_In | unfold loads; by rewrite Hl]);
      congruence.
Qed.

Lemma dropLoads_cases l l' rs :
  dropLoads l = (l', rs) ->
  (l' = l /\ rs = []) \/
  (closed l = false /\ closed l' = false /\ run_class <$> running l' = run_class <$> running l /\
   queue l' = filter (fun j => fetches (job_class j) = false) (queue l) /\
   rs = replyAll (filter (fun j => fetches (job_class j) = true) (queue l)) (Some ErrSuperseded)).
Proof.
  unfold dropLoads, dropLoadsLocked; rewrite partitionQueue_filter.
  destruct (closed l) eqn:Hc; intros [= <- <-]; [auto|right]; simpl; by rewrite cancel_if_class.
Qed.

Lemma filter_ids (f : loaderJob -> bool) q :
  job_id <$> q ≡ₚ (job_id <$> filter (fun j => f j = false) q) ++ (job_id <$> filter (fun j => f j = true) q).
Proof. by rewrite <- fmap_app, Permutation_app_comm, filter_bool_Permutation. Qed.

Lemma fetch_count_filter (f : loaderJob -> bool) q :
  fetch_count (filter (fun j => f j = false) q) <= fetch_count q.
Proof.
  unfold fetch_count; induction q as [|j q IH]; [done|]; rewrite !filter_cons.
  repeat (case_decide; rewrite ?filter_cons in *); zlen.
Qed.

(** Unfold the accounting goal and replace [submitted] by what accounts for it. *)
Ltac account H :=
  unfold whereabouts in H |- *; simpl in H |- *;
  repeat match goal with
  | E : queue _ = _ |- _ => rewrite E in *
  | E : wrk _ = _ |- _ => rewrite E in *
  | E : results _ = _ |- _ => rewrite E in *
  end;
  rewrite <- H, ?fmap_app; csimpl; rewrite ?replyAll_ids.

Lemma submit_inv s job l' rs :
  system_inv s -> job_id job ∉ submitted s -> submit (lane s) job = (l', rs) ->
  system_inv (MkSystem l' (wrk s) (results s) (ctxDone s) (replies s ++ rs) (job_id job :: submitted s)).
Proof.
  intros [Hacc Honce Hq Hf Hr Hcl He Hx Hrun] Hfresh Hs.
  destruct (submit_cases _ _ _ _ Hs) as
    [[-> [e ->]] | (drop & Hc & Hc' & Hrc & Hd & Hk & [(Hlen & Hq' & ->)|(Hlen & Hq' & ->)])];
    cbv zeta in *; split; simpl; rewrite ?Hc', ?Hrc, ?Hq' in *; try done; try congruence;
    try (by constructor); try (by rewrite <- Hcl).
  - account Hacc; solve_Permutation.
  - account Hacc; rewrite (filter_ids drop (queue (lane s))); solve_Permutation.
  - pose proof (zlen_filter_le (fun j => drop j = false) (queue (lane s))); lia.
  - pose proof (fetch_count_filter drop (queue (lane s))); lia.
  - account Hacc; rewrite (filter_ids drop (queue (lane s))); solve_Permutation.
  - zlen.
  - rewrite fetch_count_app; pose proof (fetch_count_filter drop (queue (lane s))).
    destruct (fetches (job_class job)) eqn:Hj.
    + rewrite (fetch_count_0 _ (Hk eq_refl)); pose proof (fetch_count_1 job); lia.
    + rewrite (fetch_count_0 [job]); [lia | by constructor].
Qed.

Lemma dropLoads_inv s l' rs :
  system_inv s -> dropLoads (lane s) = (l', rs) ->
  system_inv (MkSystem l' (wrk s) (results s) (ctxDone s) (replies s ++ rs) (submitted s)).
Proof.
  intros [Hacc Honce Hq Hf Hr Hcl He Hx Hrun] Hs.
  destruct (dropLoads_cases _ _ _ Hs) as [[-> ->] | (Hc & Hc' & Hrc & Hq' & ->)];
    split; simpl; rewrite ?Hc', ?Hrc, ?Hq' in *; try done; try congruence.
  - account Hacc; by rewrite app_nil_r.
  - account Hacc.
    rewrite (filter_ids (fun j => fetches (job_class j)) (queue (lane s))); solve_Permutation.
  - pose proof (zlen_filter_le (fun j => fetches (job_class j) = false) (queue (lane s))); lia.
  - pose proof (fetch_count_filter (fun j => fetches (job_class j)) (queue (lane s))); cbv beta in *; lia.
Qed.

Lemma close_inv s l' rs :
  system_inv s -> lane_close (lane s) = (l', rs) ->
  system_inv (MkSystem l' (wrk s) (results s) true (replies s ++ rs) (submitted s)).
Proof.
  intros [Hacc Honce Hq Hf Hr Hcl He Hx Hrun]; unfold lane_close.
  destruct (closed (lane s)) eqn:Hc; intros [= <- <-]; split; simpl; auto; try done.
  - account Hacc; by rewrite app_nil_r.
  - account Hacc; solve_Permutation.
Qed.

Lemma lane_step_inv s s' : system_inv s -> lane_step s s' -> system_inv s'.
Proof.
  intros Hinv Hstep; destruct Hstep as
    [s job l' rs Hf Hs|s l' rs Hs|s l' rs Hs|s now l' job Hw Hn|s Hw Hd|s job Hw|s job Hw Hlt|s job Hw Hd|s job rest err Hrs].
  - by apply submit_inv.
  - by apply dropLoads_inv.
  - by apply close_inv.
  - destruct (lane_next_spec _ _ _ _ Hn) as (pre & post & Hq & -> & Hc & _ & _).
    destruct Hinv as [Hacc Honce Hql Hf Hr Hcl He Hx Hrun]; split; simpl; auto; try congruence.
    + account Hacc; rewrite ?fmap_app; simpl; solve_Permutation.
    + rewrite Hq in Hql; zlen.
    + rewrite Hq, fetch_count_app in *; change (job :: post) with ([job] ++ post) in Hf.
      rewrite fetch_count_app in Hf; pose proof (fetch_count_nonneg [job]); lia.
  - destruct Hinv as [Hacc Honce Hql Hf Hr Hcl He Hx Hrun]; split; simpl; auto.
    + by account Hacc.
    + by rewrite Hw in Hrun.
  - destruct Hinv as [Hacc Honce Hql Hf Hr Hcl He Hx Hrun]; split; simpl; auto; try done.
    by account Hacc.
  - destruct Hinv as [Hacc Honce Hql Hf Hr Hcl He Hx Hrun]; split; simpl; auto; try done.
    + account Hacc; solve_Permutation.
    + zlen.
    + by rewrite Hw in Hrun.
  - destruct Hinv as [Hacc Honce Hql Hf Hr Hcl He Hx Hrun]; split; simpl; auto; try done.
    + account Hacc; solve_Permutation.
    + by rewrite Hw in Hrun.
  - destruct Hinv as [Hacc Honce Hql Hf Hr Hcl He Hx Hrun]; split; simpl; auto; try done.
    + account Hacc; solve_Permutation.
    + rewrite Hrs in Hr; zlen.
Qed.

Lemma reachable_inv s : reachable s -> system_inv s.
Proof.
  intros Hs; apply (star_invariant lane_step system_inv lane_step_inv _ _ Hs).
  split; simpl; auto; try done; constructor.
Qed.

(** A concrete run: a load, a step of navigation and a queue edit, with the
    load replaced by a newer one while the worker is busy with the step. *)
Definition demo_job (i : nat) (c : loaderClass) : loaderJob := MkJob i c 1 0.

Definition demo_system : system :=
  MkSystem (MkLane [demo_job 3 classMutate; demo_job 4 classLoad]
                   (Some (MkRunning classNav false)) false)
           (WExec (demo_job 2 classNav)) [] false
           [(1%nat, Some ErrSuperseded)] [4%nat; 3%nat; 2%nat; 1%nat].

Ltac lane_run c := eapply star_step; [c; simpl; (reflexivity || set_solver) | simpl].

Lemma demo_system_reachable : reachable demo_system.
Proof.
  unfold reachable, demo_system, init_system, newLoaderLane.
  lane_run ltac:(eapply (step_submit _ (demo_job 1 classLoad))).
  lane_run ltac:(eapply (step_submit _ (demo_job 2 classNav))).
  lane_run ltac:(eapply (step_submit _ (demo_job 3 classMutate))).
  lane_run ltac:(eapply (step_next _ 0)).
  lane_run ltac:(eapply (step_submit _ (demo_job 4 classLoad))).
  apply star_refl.
Qed.

(** The state [close] can leave behind: a result in the channel, the worker gone. *)
Definition demo_closed : system :=
  MkSystem (MkLane [] None true) WExited [demo_job 1 classLoad] true [] [1%nat].

Lemma demo_closed_reachable : reachable demo_closed.
Proof.
  unfold reachable, demo_closed, init_system, newLoaderLane.
  lane_run ltac:(eapply (step_submit _ (demo_job 1 classLoad))).
  lane_run ltac:(eapply (step_next _ 0)).
  lane_run ltac:(eapply step_execute).
  lane_run ltac:(eapply step_send).
  lane_run ltac:(eapply step_close).
  lane_run ltac:(eapply step_exit).
  apply star_refl.
Qed.

(** C3: The loader lane loses no command and answers none twice.  Whatever
    order submits, drops, completions, a close and the worker's steps happen
    in, every job ever submitted is in exactly one place: queued, with the
    worker, in the results channel, or answered; and it is answered at most
    once.  Once the worker has gone and the results have been read, every
    submitted job has been answered exactly once. *)
Theorem loader_answers_exactly_once (s : system) :
  reachable s ->
  NoDup (whereabouts s) /\ whereabouts s ≡ₚ submitted s /\ NoDup (replies s).*1 /\
  (wrk s = WExited -> results s = [] -> (replies s).*1 ≡ₚ submitted s).
Proof.
  intros [Hacc Honce _ _ _ Hcl He Hx _]%reachable_inv.
  assert (Hnd : NoDup (whereabouts s)) by (by rewrite Hacc).
  repeat split; auto.
  - unfold whereabouts in Hnd; by repeat apply NoDup_app in Hnd as (_ & _ & Hnd).
  - intros Hw Hr; rewrite <- Hacc; unfold whereabouts.
    by rewrite He, Hw, Hr by (rewrite Hcl; auto).
Qed.

Lemma loader_answers_exactly_once_witness :
  (replies demo_system).*1 = [1%nat] /\ NoDup (whereabouts demo_system).
Proof.
  split; [reflexivity|].
  apply (loader_answers_exactly_once demo_system demo_system_reachable).
Defined.

(** The lane stays bounded and holds one destination: in every reachable
    state at most 32 jobs are queued, of which at most one fetches media, at
    most 4 results wait, nothing is queued after a close, and [running] names
    the class of the job the worker is executing and is nil otherwise. *)
Theorem loader_lane_bounded (s : system) :
  reachable s ->
  zlen (queue (lane s)) <= loaderQueueSize /\ fetch_count (queue (lane s)) <= 1 /\
  zlen (results s) <= resultsCap /\ (closed (lane s) = true -> queue (lane s) = []) /\
  run_class <$> running (lane s) = running_of (wrk s).
Proof. by intros []%reachable_inv. Qed.

Lemma loader_lane_bounded_witness :
  zlen (queue (lane demo_system)) = 2 /\ fetch_count (queue (lane demo_system)) <= 1.
Proof.
  split; [reflexivity|]. apply (loader_lane_bounded demo_system demo_system_reachable).
Defined.

(** The newest load wins.  Submitting a load (or a navigation step) to an
    open lane removes exactly the queued loads and prefetches, keeps every
    other job in its order, cancels the running job exactly when it is a load
    or a prefetch, answers each dropped job once with [ErrSuperseded] in queue
    order, and queues the new job last unless 32 others are kept, in which case
    it alone is refused with [ErrLoaderBusy]. *)
Theorem loader_newest_load_wins (l : loaderLane) (job : loaderJob) :
  closed l = false -> loads (job_class job) = true ->
  let kept := filter (fun j => fetches (job_class j) = false) (queue l) in
  let dropped := filter (fun j => fetches (job_class j) = true) (queue l) in
  let superseded := (fun j => (job_id j, Some ErrSuperseded)) <$> dropped in
  let run' := match running l with
              | Some r => Some (MkRunning (run_class r) (run_cancelled r || fetches (run_class r)))
              | None => None
              end in
  submit l job =
    if decide (zlen kept < loaderQueueSize)
    then (MkLane (kept ++ [job]) run' false, superseded)
    else (MkLane kept run' false, (job_id job, Some ErrLoaderBusy) :: superseded).
Proof.
  intros Hc Hl; cbv zeta; unfold submit, dropLoadsLocked; rewrite partitionQueue_filter, Hc.
  assert (Hrun : cancel_if fetches (running l) =
    match running l with
    | Some r => Some (MkRunning (run_class r) (run_cancelled r || fetches (run_class r)))
    | None => None
    end).
  { destruct (running l) as [[c b]|]; simpl; [|done].
    destruct (fetches c); simpl; by rewrite ?orb_true_r, ?orb_false_r. }
  rewrite <- Hrun; unfold loads in Hl.
  destruct (job_class job) eqn:Hj; try discriminate Hl; simpl;
    unfold loaderQueueSize; repeat case_decide; try lia; reflexivity.
Qed.

Lemma loader_newest_load_wins_witness :
  closed (lane demo_system) = false /\
  (submit (lane demo_system) (demo_job 5 classLoad)).2 = [(4%nat, Some ErrSuperseded)].
Proof.
  split; [reflexivity|].
  rewrite (loader_newest_load_wins (lane demo_system) (demo_job 5 classLoad));
    [vm_compute; reflexivity | reflexivity | reflexivity].
Defined.

(** Queue edits and navigation steps are never dropped: whatever happens
    next, a queued mutation or navigation job stays queued, or the worker takes
    it, or the lane closes and it is answered [ErrNoSession]; and two of the
    same kind are never taken out of order, since the worker takes the head of
    the queue or the first mutation whose time has come. *)
Theorem loader_edits_never_dropped (s s' : system) (j : loaderJob) :
  lane_step s s' ->
  j ∈ queue (lane s) -> fetches (job_class j) = false ->
  j ∈ queue (lane s') \/
  (wrk s' = WExec j /\
   exists pre post, queue (lane s) = pre ++ j :: post /\ queue (lane s') = pre ++ post /\
     (pre = [] \/ job_class j = classMutate)) \/
  (closed (lane s') = true /\ (job_id j, Some ErrNoSession) ∈ replies s').
Proof.
  intros Hstep Hj Hf; destruct Hstep as
    [s job l' rs _ Hsub|s l' rs Hd|s l' rs Hc|s now l' job Hw Hn| | | | |]; simpl; auto.
  - left; destruct (submit_cases _ _ _ _ Hsub) as
      [[-> _] | (drop & _ & _ & _ & Hd & _ & Hq)]; [done|].
    assert (Hk : j ∈ filter (fun i => drop i = false) (queue (lane s))).
    { apply list_elem_of_filter; split; [|done].
      destruct (drop j) eqn:E; [apply Hd in E; congruence | done]. }
    destruct Hq as [(_ & -> & _)|(_ & -> & _)]; set_solver.
  - left; destruct (dropLoads_cases _ _ _ Hd) as [[-> _] | (_ & _ & _ & -> & _)]; [done|].
    by apply list_elem_of_filter.
  - revert Hc; unfold lane_close; destruct (closed (lane s)) eqn:E; intros [= <- <-]; [auto|].
    right; right; split; [done|]; simpl; apply elem_of_app; right.
    apply (list_elem_of_fmap_2 (fun k => (job_id k, Some ErrNoSession)) _ _ Hj).
  - destruct (lane_next_spec _ _ _ _ Hn) as (pre & post & Hq & -> & _ & _ & Hp); simpl.
    rewrite Hq in Hj; apply elem_of_app in Hj as [Hj|[->|Hj]%elem_of_cons].
    + left; set_solver.
    + right; left; split; [done|]; exists pre, post; auto.
    + left; set_solver.
Qed.

Lemma loader_edits_never_dropped_witness :
  demo_job 3 classMutate ∈ queue (lane demo_system) /\
  demo_job 3 classMutate ∈ queue (dropLoads (lane demo_system)).1.
Proof.
  split; [left|].
  destruct (loader_edits_never_dropped demo_system
    (MkSystem (dropLoads (lane demo_system)).1 (wrk demo_system) (results demo_system)
       (ctxDone demo_system) (replies demo_system ++ (dropLoads (lane demo_system)).2)
       (submitted demo_system)) (demo_job 3 classMutate)
    (step_dropLoads demo_system _ _ eq_refl) ltac:(left) eq_refl)
    as [H|[[H _]|[H _]]]; [exact H | discriminate H | discriminate H].
Defined.

(** A result buffered when the lane closes is never answered by it: with
    the worker gone and the player loop stopped, no step but the loop's own
    receive changes that, and no reply was made for the job. *)
Theorem loader_close_strands_results (s' : system) :
  lane_step demo_closed s' ->
  (1%nat ∉ (replies s').*1 /\ wrk s' = WExited) \/
  (exists err, replies s' = [(1%nat, err)] /\ results s' = []).
Proof.
  intros Hstep; inversion Hstep as
    [s job l' rs Hf Hs|s l' rs Hs|s l' rs Hs|s now l' job Hw Hn|s Hw Hd|s job Hw|s job Hw Hlt|s job Hw Hd|s job rest err Hrs];
    subst; simpl in *; try discriminate.
  - left; injection Hs as <- <-; simpl; split; [|done].
    apply not_elem_of_cons in Hf as [Hf _]; set_solver.
  - left; injection Hs as <- <-; simpl; split; [set_solver | done].
  - left; injection Hs as <- <-; simpl; split; [set_solver | done].
  - right; injection Hrs as <- <-; eauto.
Qed.

Lemma loader_close_strands_results_witness :
  reachable demo_closed /\ 1%nat ∉ (replies demo_closed).*1.
Proof.
  split; [exact demo_closed_reachable|].
  destruct (loader_close_strands_results demo_closed (step_dropLoads demo_closed _ _ eq_refl))
    as [[H _]|[e [H _]]]; [exact H | discriminate H].
Defined.

(** ** Results folded back into the player *)
Section folding.
Context {P : Type} (handlePlayerEvent : appPlayer P -> Event -> appPlayer P).

(** A run of player events received while a load is outstanding. *)
Definition defer_all (p : appPlayer P) (evs : list Event) : appPlayer P :=
  foldl (fun p ev => (deferPlayerEvent p ev).1) p evs.

Lemma defer_all_spec p evs :
  loadInFlight p = true -> zlen (pendingPlayerEvents p) <= maxPendingPlayerEvents ->
  defer_all p evs =
  MkPlayer (loadGen p) (prefetchGen p) true
    (takeZ maxPendingPlayerEvents (pendingPlayerEvents p ++ evs)) (rest p).
Proof.
  revert p; induction evs as [|ev evs IH]; intros [lg pg lf pend r] Hf Hb; simpl in *; subst.
  - by rewrite app_nil_r, takeZ_all by done.
  - unfold deferPlayerEvent; simpl; case_decide; simpl; rewrite IH by (simpl; zlen); simpl; f_equal.
    + by rewrite !takeZ_app_le by lia.
    + by rewrite <- app_assoc.
Qed.
End folding.

(** Whether a held event reports the end of a stream older than [gen]. *)
Definition ends_older_stream (gen : Z) (ev : Event) : Prop :=
  ev_StreamGen ev < gen /\ (ev_Type ev = EventTypeNotPlaying \/ ev_Type ev = EventTypeStop).

#[export] Instance ends_older_stream_dec gen ev : Decision (ends_older_stream gen ev).
Proof. unfold ends_older_stream; apply _. Defined.

(** A result the player has moved past changes nothing: unless it is a
    queue edit, a result stamped with another generation leaves the player's
    state as it was, releases what the job opened, and is answered
    [ErrSuperseded], whatever its commit would have done. *)
Theorem stale_result_never_commits {P} (handle : appPlayer P -> Event -> appPlayer P)
    (p : appPlayer P) (res : loaderResult P) :
  res_class res <> classMutate -> res_gen res <> generation p (res_class res) ->
  applyLoaderResult handle p res = (p, Some ErrSuperseded, res_discard res).
Proof.
  intros Hm Hg; unfold applyLoaderResult.
  assert (Hl : bool_decide (res_class res = classLoad) && bool_decide (res_gen res = loadGen p) = false).
  { apply andb_false_iff; repeat case_bool_decide; auto.
    destruct Hg; unfold generation; case_decide; congruence. }
  by rewrite Hl, !bool_decide_true.
Qed.

Lemma stale_result_never_commits_witness :
  let p := MkPlayer 3 0 true [] 7 in
  let res := MkResult classLoad 2 None (Some (fun p _ => MkPlayer 0 0 false [] 0)) true in
  applyLoaderResult (fun p _ => p) p res = (p, Some ErrSuperseded, true).
Proof.
  cbv zeta. apply (stale_result_never_commits (P := Z)); simpl; [discriminate|].
  unfold generation; simpl; lia.
Defined.

(** Events raised while a track loads settle once it lands: the first 32
    of them are held, in order; when the load of the current generation
    commits, forgetting what it replaced, exactly the held events that do not
    report the end of an older stream are handled, in order, with the load no
    longer in flight and the buffer empty; the reply carries no error. *)
Theorem held_events_settle {P} (handle : appPlayer P -> Event -> appPlayer P)
    (p : appPlayer P) (evs : list Event) (streamGen : Z) :
  loadInFlight p = true -> pendingPlayerEvents p = [] ->
  let res := MkResult classLoad (loadGen p) None
               (Some (fun p _ => forgetReplacedStreamEvents p streamGen)) true in
  applyLoaderResult handle (defer_all p evs) res =
  (foldl handle (MkPlayer (loadGen p) (prefetchGen p) false [] (rest p))
     (filter (fun ev => ~ ends_older_stream streamGen ev) (takeZ maxPendingPlayerEvents evs)),
   None, false).
Proof.
  intros Hf Hp; cbv zeta; rewrite defer_all_spec by (rewrite ?Hp; done).
  unfold applyLoaderResult, generation; simpl; rewrite Hp; simpl.
  rewrite (bool_decide_true (loadGen p = loadGen p)) by done.
  rewrite (bool_decide_false (loadGen p <> loadGen p)) by tauto.
  reflexivity.
Qed.

Lemma held_events_settle_witness :
  let p := MkPlayer 5 0 true [] ([] : list Event) in
  let evs := [MkEvent EventTypeNotPlaying 8 None; MkEvent EventTypePlay 9 None; MkEvent EventTypeStop 9 None] in
  let record q ev := MkPlayer (loadGen q) (prefetchGen q) (loadInFlight q) (pendingPlayerEvents q)
                              (rest q ++ [ev]) in
  rest (applyLoaderResult record (defer_all p evs)
    (MkResult classLoad 5 None (Some (fun p _ => forgetReplacedStreamEvents p 9)) true)).1.1
  = [MkEvent EventTypePlay 9 None; MkEvent EventTypeStop 9 None].
Proof.
  cbv zeta.
  rewrite (held_events_settle (P := list Event) _ (MkPlayer 5 0 true [] []) _ 9);
    [vm_compute; reflexivity | reflexivity | reflexivity].
Defined.
