(* ===== verification/StatePush.v ===== *)
(** * Connect-state pushes ([src/daemon/statepush.go], [src/daemon/player_state.go])

    The lane that owns the connect-state PUT, and the player loop's side of it:
    when a state is flushed, coalesced or retried.  Times are nanoseconds. *)

From Stdlib Require Import Sorted.
From S2P Require Import Prelude.
#[local] Open Scope list_scope.
#[local] Open Scope Z_scope.

Inductive PutStateReason :=
| UNKNOWN_PUT_STATE_REASON | SPIRC_HELLO | SPIRC_NOTIFY | NEW_DEVICE | PLAYER_STATE_CHANGED
| VOLUME_CHANGED | PICKER_OPENED | BECAME_INACTIVE | ALIAS_CHANGED | NEW_CONNECTION
| PULL_PLAYBACK | AUDIO_DRIVER_INFO_CHANGED | PUT_STATE_RATE_LIMITED | BACKEND_METADATA_APPLIED
| LOCAL_DEVICES_CHANGED | GROUP_STATE_CHANGED | PRIVATE_SESSION_CHANGED.

#[export] Instance PutStateReason_eq_dec : EqDecision PutStateReason.
Proof. solve_decision. Defined.

Definition statePushQueueSize : Z := 4.
Definition statePutMinInterval : Z := 200 * 10 ^ 6.
Definition statePutMaxBackoff : Z := 30 * 10 ^ 9.

(** [body] is [None] for [BECAME_INACTIVE]. *)
Record statePush := MkPush {
  push_seq : Z;
  push_reason : PutStateReason;
  push_spotConnId : string;
  push_body : option (list Z)
}.

#[export] Instance statePush_eq_dec : EqDecision statePush.
Proof. solve_decision. Defined.

Definition coalesces (p : statePush) : bool := bool_decide (push_reason p = PLAYER_STATE_CHANGED).

(** ** The lane *)
Record statePushLane := MkPushLane { pl_queue : list statePush; pl_closed : bool }.

(** The index the overflow loop removes: the first push that coalesces, else 0. *)
Fixpoint first_coalescing (q : list statePush) : option nat :=
  match q with
  | [] => None
  | p :: q => if coalesces p then Some O else S <$> first_coalescing q
  end.

Definition drop_index (q : list statePush) : nat := default O (first_coalescing q).

(** [for len(l.queue) > statePushQueueSize { ... }] *)
Fixpoint overflow_loop (fuel : nat) (q : list statePush) : run (list statePush) :=
  if decide (statePushQueueSize < zlen q) then
    match fuel with
    | O => OutOfFuel
    | S fuel => overflow_loop fuel (delete (drop_index q) q)
    end
  else Ret q.

(** The append, or the replacement of the last push it supersedes. *)
Definition enqueue (q : list statePush) (push : statePush) : list statePush :=
  match last q with
  | Some p => if coalesces p && coalesces push
              then setZ q (zlen q - 1) push else q ++ [push]
  | None => q ++ [push]
  end.

(** Every round removes one push, so the queue's length bounds the rounds. *)
Definition push_submit (l : statePushLane) (push : statePush) : run statePushLane :=
  if pl_closed l then Ret l
  else
    let q := enqueue (pl_queue l) push in
    q' ← overflow_loop (length q) q;
    Ret (MkPushLane q' (pl_closed l)).

Definition push_next (l : statePushLane) : statePushLane * option statePush :=
  match pl_queue l with
  | [] => (l, None)
  | push :: q => (MkPushLane q (pl_closed l), Some push)
  end.

Definition push_pending (l : statePushLane) : bool := bool_decide (0 < zlen (pl_queue l)).

(** [close] before the drain, and the clearing of the queue when the drain
    took longer than [statePushDrainTimeout]. *)
Definition push_close (l : statePushLane) : statePushLane := MkPushLane (pl_queue l) true.
Definition push_drain_timeout (l : statePushLane) : statePushLane := MkPushLane [] (pl_closed l).

(** ** The player loop's side *)
Record push_error := MkPushError { pe_err : error; pe_retryAfter : option Z }.

Record statePushResult := MkPushResult {
  pr_seq : Z;
  pr_reason : PutStateReason;
  pr_publicIp : string;
  pr_err : option push_error
}.

Section scheduling.
(** [S] is the connect state, [marshal] what [proto.Marshal] makes of the
    request built from it (an error when [None]). *)
Context {S : Type} (marshal : PutStateReason -> S -> option (list Z)).

Record pusher := MkPusher {
  ps_state : S;
  ps_spotConnId : string;
  ps_publicIp : string;
  stateDirty : bool;
  statePutScheduled : bool;
  lastStatePut : Z;
  stateTimer : option Z;
  stateRetries : Z;
  stateSeq : Z;
  hasInitialConnectState : bool;
  ps_lane : statePushLane
}.

Definition pushState (p : pusher) (reason : PutStateReason) : run pusher :=
  let seq := u64 (stateSeq p + 1) in
  let p1 l := MkPusher (ps_state p) (ps_spotConnId p) (ps_publicIp p) (stateDirty p)
                (statePutScheduled p) (lastStatePut p) (stateTimer p) (stateRetries p) seq
                (hasInitialConnectState p) l in
  if decide (reason = BECAME_INACTIVE) then
    l ← push_submit (ps_lane p) (MkPush seq reason (ps_spotConnId p) None); Ret (p1 l)
  else
    match marshal reason (ps_state p) with
    | None => Ret (p1 (ps_lane p))
    | Some body =>
      l ← push_submit (ps_lane p) (MkPush seq reason (ps_spotConnId p) (Some body)); Ret (p1 l)
    end.

Definition flushState (now : Z) (p : pusher) : run pusher :=
  pushState
    (MkPusher (ps_state p) (ps_spotConnId p) (ps_publicIp p) false (statePutScheduled p) now
       (stateTimer p) (stateRetries p) (stateSeq p) (hasInitialConnectState p) (ps_lane p))
    PLAYER_STATE_CHANGED.

Definition set_sched (p : pusher) (dirty scheduled : bool) (timer : option Z) (retries : Z) : pusher :=
  MkPusher (ps_state p) (ps_spotConnId p) (ps_publicIp p) dirty scheduled (lastStatePut p)
    timer retries (stateSeq p) (hasInitialConnectState p) (ps_lane p).

Definition updateState (now : Z) (p : pusher) : run pusher :=
  let p := set_sched p true (statePutScheduled p) (stateTimer p) (stateRetries p) in
  if statePutScheduled p then Ret p
  else
    let wait := statePutMinInterval - (now - lastStatePut p) in
    if decide (0 < wait)
    then Ret (set_sched p true true (Some (now + wait)) (stateRetries p))
    else flushState now p.

(** [case <-p.stateTimer.C] of the player loop. *)
Definition stateTimerFired (now : Z) (p : pusher) : run pusher :=
  let p := set_sched p (stateDirty p) false None (stateRetries p) in
  if stateDirty p then flushState now p else Ret p.

(** [rnd] is what [rand.N(d/5)] drew. *)
Definition stateRetryDelay (p : pusher) (rnd : Z) (e : push_error) : Z :=
  match pe_retryAfter e with
  | Some d => d
  | None =>
    let d := Z.min (Z.shiftl statePutMinInterval (Z.min (stateRetries p) 8)) statePutMaxBackoff in
    d - rnd
  end.

Definition applyStatePushResult (now rnd : Z) (p : pusher) (res : statePushResult) : pusher :=
  let ip := if decide (pr_publicIp res = "") then ps_publicIp p else pr_publicIp res in
  let set dirty sched timer retries initial :=
    MkPusher (ps_state p) (ps_spotConnId p) ip dirty sched (lastStatePut p) timer retries
      (stateSeq p) initial (ps_lane p) in
  match pr_err res with
  | Some e =>
    if decide (pr_seq res = stateSeq p) then
      let p' := set true true (stateTimer p) (stateRetries p + 1) (hasInitialConnectState p) in
      set true true (Some (now + stateRetryDelay p' rnd e)) (stateRetries p + 1)
          (hasInitialConnectState p)
    else set (stateDirty p) (statePutScheduled p) (stateTimer p) (stateRetries p)
             (hasInitialConnectState p)
  | None => set (stateDirty p) (statePutScheduled p) (stateTimer p) 0 true
  end.

Definition set_state (p : pusher) (s : S) : pusher :=
  MkPusher s (ps_spotConnId p) (ps_publicIp p) (stateDirty p) (statePutScheduled p)
    (lastStatePut p) (stateTimer p) (stateRetries p) (stateSeq p) (hasInitialConnectState p)
    (ps_lane p).
End scheduling.
Arguments pusher : clear implicits.

(** ** The overflow loop *)
Definition transitions (q : list statePush) : list statePush := filter (fun p => coalesces p = false) q.

Lemma transitions_app q1 q2 : transitions (q1 ++ q2) = transitions q1 ++ transitions q2.
Proof. apply filter_app. Qed.

Lemma transitions_one p : transitions [p] = if coalesces p then [] else [p].
Proof. unfold transitions; rewrite filter_cons; destruct (coalesces p); by case_decide. Qed.

Lemma transitions_all q : Forall (fun p => coalesces p = false) q -> transitions q = q.
Proof.
  induction 1 as [|p q Hp _ IH]; [done|]; unfold transitions in *; rewrite filter_cons.
  case_decide; [by f_equal | done].
Qed.

(** Either every push is a transition, or the loop removes the first that is not. *)
Lemma drop_index_spec q :
  (Forall (fun p => coalesces p = false) q /\ drop_index q = O) \/
  (exists pre p post, q = pre ++ p :: post /\ coalesces p = true /\
     Forall (fun p => coalesces p = false) pre /\ delete (drop_index q) q = pre ++ post).
Proof.
  unfold drop_index; induction q as [|p q IH]; [by left|]; simpl.
  destruct (coalesces p) eqn:Hp; simpl.
  { right; exists [], p, q; repeat split; auto. }
  destruct IH as [[Hall Hz]|(pre & x & post & -> & Hx & Hpre & Hd)].
  - left; split; [by constructor|].
    assert (first_coalescing q = None) as ->; [|done].
    clear Hz; induction Hall as [|y q Hy _ IHq]; simpl; [done|by rewrite Hy, IHq].
  - right; exists (p :: pre), x, post.
    assert (exists i, first_coalescing (pre ++ x :: post) = Some i) as [i Hi].
    { clear Hd; induction Hpre as [|y pre Hy _ [i Hi]]; simpl; [rewrite Hx; eauto|rewrite Hy, Hi; simpl; eauto]. }
    rewrite Hi in Hd |- *; simpl in *; repeat split; auto; by f_equal.
Qed.

Lemma drop_index_lt q : q <> [] -> (drop_index q < length q)%nat.
Proof.
  unfold drop_index; destruct (first_coalescing q) as [i|] eqn:E; simpl; [|destruct q; simpl; [done|lia]].
  intros _; revert i E; induction q as [|p q IH]; intros i; simpl; [done|].
  destruct (coalesces p); [intros [= <-]; lia|].
  destruct (first_coalescing q) as [j|]; simpl; [|done].
  intros [= <-]; specialize (IH j eq_refl); lia.
Qed.

Lemma delete_drop_index_length q :
  q <> [] -> zlen (delete (drop_index q) q) = zlen q - 1.
Proof.
  intros Hq; unfold zlen; pose proof (drop_index_lt q Hq).
  rewrite length_delete by (by apply lookup_lt_is_Some_2); lia.
Qed.

(** The loop stops, with at most four pushes left, in their order. *)
Lemma overflow_loop_total fuel q :
  zlen q <= statePushQueueSize + Z.of_nat fuel ->
  exists q', overflow_loop fuel q = Ret q' /\ zlen q' <= statePushQueueSize /\ q' `sublist_of` q.
Proof.
  revert q; induction fuel as [|fuel IH]; intros q Hq; simpl.
  - case_decide; [lia | exists q; repeat split; auto; lia].
  - case_decide as Hd; [|exists q; repeat split; auto; lia].
    assert (Hne : q <> []) by (intros ->; unfold statePushQueueSize, zlen in Hd; simpl in Hd; lia).
    destruct (IH (delete (drop_index q) q)) as (q' & -> & ? & Hsub).
    { rewrite delete_drop_index_length by done; lia. }
    exists q'; repeat split; auto; etrans; [done | apply sublist_delete].
Qed.

Lemma overflow_once q :
  statePushQueueSize < zlen q <= statePushQueueSize + 1 ->
  overflow_loop (length q) q = Ret (delete (drop_index q) q).
Proof.
  intros Hq; assert (Hne : q <> []) by (intros ->; unfold statePushQueueSize, zlen in Hq; simpl in Hq; lia).
  pose proof (delete_drop_index_length q Hne) as Hd.
  destruct (length q) as [|n] eqn:E; [by destruct q|].
  cbn [overflow_loop]; rewrite decide_True by lia.
  by destruct n; cbn [overflow_loop]; rewrite decide_False by lia.
Qed.

Lemma overflow_none q : zlen q <= statePushQueueSize -> overflow_loop (length q) q = Ret q.
Proof. intros; destruct (length q); cbn [overflow_loop]; by rewrite decide_False by lia. Qed.

(** [enqueue] appends, after removing a last push the new one supersedes. *)
Lemma enqueue_spec q push :
  exists q0, enqueue q push = q0 ++ [push] /\
    (q = q0 \/ exists old, q = q0 ++ [old] /\ coalesces old = true /\ coalesces push = true).
Proof.
  unfold enqueue; destruct (last q) as [p|] eqn:E.
  - apply last_Some in E as [q0 ->].
    destruct (coalesces p) eqn:Hp, (coalesces push) eqn:Hu; simpl; eauto.
    exists q0; split; [|eauto].
    unfold setZ; rewrite decide_True by zlen.
    replace (Z.to_nat (zlen (q0 ++ [p]) - 1)) with (length q0 + 0)%nat by (zlen; unfold zlen; lia).
    by rewrite insert_app_r.
  - apply last_None in E as ->; exists []; auto.
Qed.

(** What a submit leaves queued, on every branch. *)
Lemma push_submit_queue l push :
  pl_closed l = false -> zlen (pl_queue l) <= statePushQueueSize ->
  exists q', push_submit l push = Ret (MkPushLane q' false) /\
    zlen q' <= statePushQueueSize /\
    q' = (let q := enqueue (pl_queue l) push in
          if decide (zlen q <= statePushQueueSize) then q else delete (drop_index q) q).
Proof.
  intros Hc Hl; unfold push_submit; rewrite Hc; cbv zeta.
  assert (Hb : zlen (enqueue (pl_queue l) push) <= statePushQueueSize + 1).
  { destruct (enqueue_spec (pl_queue l) push) as (q0 & Hen & [Hq|(old & Hq & _)]);
      rewrite Hen; rewrite Hq in Hl; zlen. }
  case_decide as Hd.
  - rewrite overflow_none by done; eauto.
  - rewrite overflow_once by lia; eexists; split; [reflexivity|split; [|done]].
    rewrite delete_drop_index_length; [lia|].
    intros Hn; rewrite Hn in Hd; unfold statePushQueueSize in Hd; apply Hd; done.
Qed.

(** With room for it among the transitions, a submit keeps every transition
    and, when it carries a player state, ends the queue. *)
Lemma delete_coalescing q push :
  zlen (transitions q) < zlen q ->
  exists q0, delete (drop_index (q ++ [push])) (q ++ [push]) = q0 ++ [push] /\
    transitions q0 = transitions q.
Proof.
  intros Ht; destruct (drop_index_spec (q ++ [push])) as [[Hall _]|(pre & p & post & Hq & Hp & Hpre & ->)].
  { apply Forall_app in Hall as [Hall _]; rewrite (transitions_all q Hall) in Ht; lia. }
  destruct post as [|x post _] using rev_ind.
  - apply app_inj_tail in Hq as [-> ->]; rewrite (transitions_all pre Hpre) in Ht; lia.
  - rewrite app_comm_cons, app_assoc in Hq; apply app_inj_tail in Hq as [-> ->].
    exists (pre ++ post); split; [by rewrite app_assoc|].
    change (p :: post) with ([p] ++ post).
    by rewrite !transitions_app, transitions_one, Hp.
Qed.

(** ** The lane over a session *)
Record pushing := MkPushing {
  pg_lane : statePushLane;
  pg_sent : list statePush;
  pg_submitted : list statePush
}.

Definition init_pushing : pushing := MkPushing (MkPushLane [] false) [] [].

Inductive push_step : pushing -> pushing -> Prop :=
(** the player loop submits; sequence numbers grow *)
| ps_submit s push l' :
    Forall (fun p => push_seq p < push_seq push) (pg_submitted s) ->
    push_submit (pg_lane s) push = Ret l' ->
    push_step s (MkPushing l' (pg_sent s) (pg_submitted s ++ [push]))
(** the worker sends the next push *)
| ps_send s push l' :
    push_next (pg_lane s) = (l', Some push) ->
    push_step s (MkPushing l' (pg_sent s ++ [push]) (pg_submitted s))
| ps_close s : push_step s (MkPushing (push_close (pg_lane s)) (pg_sent s) (pg_submitted s))
| ps_timeout s :
    pl_closed (pg_lane s) = true ->
    push_step s (MkPushing (push_drain_timeout (pg_lane s)) (pg_sent s) (pg_submitted s)).

Record pushing_inv (s : pushing) : Prop := {
  pgi_bound : zlen (pl_queue (pg_lane s)) <= statePushQueueSize;
  pgi_order : pg_sent s ++ pl_queue (pg_lane s) `sublist_of` pg_submitted s;
  pgi_seq : StronglySorted (fun p q => push_seq p < push_seq q) (pg_submitted s)
}.

Lemma StronglySorted_snoc {A} (R : A -> A -> Prop) l x :
  StronglySorted R l -> Forall (fun y => R y x) l -> StronglySorted R (l ++ [x]).
Proof.
  induction 1 as [|y l _ IH Hy]; intros Hx; simpl; [repeat constructor|].
  inversion Hx; subst; constructor; [auto | apply Forall_app; auto].
Qed.

Lemma StronglySorted_sublist {A} (R : A -> A -> Prop) l k :
  l `sublist_of` k -> StronglySorted R k -> StronglySorted R l.
Proof.
  induction 1 as [|x l k Hs IH|x l k Hs IH]; intros H; [constructor| |];
    apply StronglySorted_inv in H as [Hk Hx]; [constructor|]; auto.
  apply Forall_forall; intros y Hy; rewrite Forall_forall in Hx.
  apply Hx; by eapply elem_of_submseteq, sublist_submseteq.
Qed.

Lemma push_submit_sublist l push l' sent submitted :
  zlen (pl_queue l) <= statePushQueueSize -> push_submit l push = Ret l' ->
  sent ++ pl_queue l `sublist_of` submitted ->
  zlen (pl_queue l') <= statePushQueueSize /\ sent ++ pl_queue l' `sublist_of` submitted ++ [push].
Proof.
  intros Hl; destruct (pl_closed l) eqn:Hc.
  { unfold push_submit; rewrite Hc; intros [= <-] Hs; split; [done|].
    etrans; [done | apply sublist_inserts_r; reflexivity]. }
  destruct (push_submit_queue l push Hc Hl) as (q' & -> & Hb & Hq'); intros [= <-] Hs; split; [done|].
  simpl; assert (Hsub : q' `sublist_of` enqueue (pl_queue l) push).
  { rewrite Hq'; cbv zeta; case_decide; [done | apply sublist_delete]. }
  etrans; [apply sublist_app; [reflexivity | exact Hsub]|].
  destruct (enqueue_spec (pl_queue l) push) as (q0 & -> & Hq).
  rewrite app_assoc; apply sublist_app; [|done].
  etrans; [|exact Hs]; apply sublist_app; [done|].
  destruct Hq as [->|(old & -> & _)]; [done | by apply sublist_inserts_r].
Qed.

Lemma push_step_inv s s' : pushing_inv s -> push_step s s' -> pushing_inv s'.
Proof.
  intros [Hb Ho Hq]; destruct 1 as [s push l' Hseq Hs|s push l' Hn|s|s Hc].
  - destruct (push_submit_sublist _ _ _ _ _ Hb Hs Ho).
    split; simpl; auto; by apply StronglySorted_snoc.
  - revert Hn; unfold push_next; destruct (pl_queue (pg_lane s)) as [|p q] eqn:E; [done|].
    intros [= <- ->]; split; simpl; [zlen | by rewrite <- app_assoc | done].
  - by split.
  - split; simpl; [done | | done]; rewrite app_nil_r.
    etrans; [|exact Ho]; by apply sublist_inserts_r.
Qed.

Definition demo_push (n : Z) (r : PutStateReason) : statePush := MkPush n r "conn" (Some [n]).

Definition demo_pushing : pushing :=
  MkPushing (MkPushLane [demo_push 3 PLAYER_STATE_CHANGED] false)
            [demo_push 1 NEW_DEVICE]
            [demo_push 1 NEW_DEVICE; demo_push 2 PLAYER_STATE_CHANGED; demo_push 3 PLAYER_STATE_CHANGED].

Lemma demo_pushing_reachable : star push_step init_pushing demo_pushing.
Proof.
  unfold init_pushing, demo_pushing.
  eapply star_step; [apply (ps_submit _ (demo_push 1 NEW_DEVICE)); [constructor | reflexivity]|simpl].
  eapply star_step; [eapply ps_send; reflexivity|simpl].
  eapply star_step; [apply (ps_submit _ (demo_push 2 PLAYER_STATE_CHANGED));
    [repeat constructor; simpl; lia | reflexivity]|simpl].
  eapply star_step; [apply (ps_submit _ (demo_push 3 PLAYER_STATE_CHANGED));
    [repeat constructor; simpl; lia | reflexivity]|simpl].
  apply star_refl.
Qed.

(** C12: The backend sees states in order.  Over any interleaving of submits,
    sends, a close and a drain that timed out, what was sent followed by what
    is queued is a subsequence of what was submitted, sequence numbers strictly
    increase along it, and at most four pushes are ever queued. *)
Theorem pushes_stay_in_order (s : pushing) :
  star push_step init_pushing s ->
  pg_sent s ++ pl_queue (pg_lane s) `sublist_of` pg_submitted s /\
  StronglySorted (fun p q => push_seq p < push_seq q) (pg_sent s ++ pl_queue (pg_lane s)) /\
  zlen (pl_queue (pg_lane s)) <= statePushQueueSize.
Proof.
  intros Hs; destruct (star_invariant push_step pushing_inv push_step_inv _ _ Hs) as [Hb Ho Hq].
  { split; simpl; [done | constructor | constructor]. }
  split; [done|split; [by eapply StronglySorted_sublist | done]].
Qed.

Lemma pushes_stay_in_order_witness :
  pg_sent demo_pushing ++ pl_queue (pg_lane demo_pushing) `sublist_of` pg_submitted demo_pushing.
Proof. apply (pushes_stay_in_order demo_pushing demo_pushing_reachable). Defined.

(** No transition is lost while there is room, and the newest player state
    always goes last: submitting to an open lane with fewer than four queued
    transitions succeeds, keeps every queued transition in order, and leaves
    the new push at the end of the queue. *)
Theorem push_submit_keeps_transitions (l : statePushLane) (push : statePush) :
  pl_closed l = false -> zlen (pl_queue l) <= statePushQueueSize ->
  zlen (transitions (pl_queue l)) < statePushQueueSize ->
  exists q', push_submit l push = Ret (MkPushLane (q' ++ [push]) false) /\
    transitions q' = transitions (pl_queue l) /\ zlen q' < statePushQueueSize.
Proof.
  intros Hc Hl Ht; destruct (push_submit_queue l push Hc Hl) as (q' & Hs & Hb & Hq').
  cbv zeta in Hq'; destruct (enqueue_spec (pl_queue l) push) as (q0 & Hen & Hq).
  rewrite Hen in Hq'; rewrite Hs; clear Hs.
  assert (Htr : transitions q0 = transitions (pl_queue l)).
  { destruct Hq as [->|(old & -> & Ho & _)]; [done|].
    by rewrite transitions_app, transitions_one, Ho, app_nil_r. }
  revert Hq'; case_decide as Hd; intros ->.
  - exists q0; repeat split; auto; zlen.
  - destruct (delete_coalescing q0 push) as (q1 & Hq1 & Hq1').
    { rewrite Htr; zlen. }
    rewrite Hq1 in *; exists q1; repeat split; [congruence | zlen].
Qed.

Lemma push_submit_keeps_transitions_witness :
  let l := MkPushLane [demo_push 1 NEW_DEVICE; demo_push 2 PLAYER_STATE_CHANGED;
                       demo_push 3 VOLUME_CHANGED; demo_push 4 PLAYER_STATE_CHANGED] false in
  exists q', push_submit l (demo_push 5 BECAME_INACTIVE) = Ret (MkPushLane (q' ++ [demo_push 5 BECAME_INACTIVE]) false) /\
    transitions q' = [demo_push 1 NEW_DEVICE; demo_push 3 VOLUME_CHANGED] /\ zlen q' < 4.
Proof.
  cbv zeta. apply (push_submit_keeps_transitions
    (MkPushLane [demo_push 1 NEW_DEVICE; demo_push 2 PLAYER_STATE_CHANGED;
                 demo_push 3 VOLUME_CHANGED; demo_push 4 PLAYER_STATE_CHANGED] false)
    (demo_push 5 BECAME_INACTIVE)); [reflexivity | vm_compute; discriminate | vm_compute; reflexivity].
Defined.

(** With four transitions queued the overflow drops the newest state: the
    oldest push that coalesces is the one just submitted, so the queue is left
    as it was and the state it carried is never sent. *)
Theorem full_of_transitions_drops_newest (l : statePushLane) (push : statePush) :
  pl_closed l = false -> zlen (pl_queue l) = statePushQueueSize ->
  transitions (pl_queue l) = pl_queue l -> coalesces push = true ->
  push_submit l push = Ret l.
Proof.
  destruct l as [q c]; simpl; intros -> Hl Ht Hp.
  destruct (push_submit_queue (MkPushLane q false) push eq_refl) as (q' & -> & _ & Hq'); [simpl; lia|].
  assert (Hall : Forall (fun p => coalesces p = false) q).
  { rewrite <- Ht; apply Forall_forall; by intros p [? _]%list_elem_of_filter. }
  assert (Hen : enqueue q push = q ++ [push]).
  { destruct (enqueue_spec q push) as (q0 & -> & [->|(old & -> & Ho & _)]); [done|].
    apply Forall_app in Hall as [_ Hx]; inversion Hx; congruence. }
  simpl in Hq'; rewrite Hen, decide_False in Hq' by zlen; do 2 f_equal; rewrite Hq'.
  destruct (drop_index_spec (q ++ [push])) as [[Ha _]|(pre & p & post & Hq & Hpc & Hpre & ->)].
  { apply Forall_app in Ha as [_ Hx]; inversion Hx; congruence. }
  destruct post as [|x post _] using rev_ind.
  - apply app_inj_tail in Hq as [-> _]; by rewrite app_nil_r.
  - rewrite app_comm_cons, app_assoc in Hq; apply app_inj_tail in Hq as [-> _].
    apply Forall_app in Hall as [_ Hx]; inversion Hx; congruence.
Qed.

Lemma full_of_transitions_drops_newest_witness :
  let l := MkPushLane [demo_push 1 NEW_DEVICE; demo_push 2 VOLUME_CHANGED;
                       demo_push 3 VOLUME_CHANGED; demo_push 4 VOLUME_CHANGED] false in
  push_submit l (demo_push 5 PLAYER_STATE_CHANGED) = Ret l.
Proof. cbv zeta. apply full_of_transitions_drops_newest; reflexivity. Defined.

(** ** Scheduling *)
Section scheduling_lemmas.
Context {S : Type} (marshal : PutStateReason -> S -> option (list Z)).

(** An update not handed over yet has a timer armed for it, and the lane
    stays within its bound. *)
Record pusher_ok (p : pusher S) : Prop := {
  po_dirty : stateDirty p = true -> statePutScheduled p = true;
  po_timer : statePutScheduled p = true -> is_Some (stateTimer p);
  po_lane : zlen (pl_queue (ps_lane p)) <= statePushQueueSize
}.

(** What the player loop does to its pushes: the state changes and
    [updateState] is called, the timer fires, a push comes back, or a
    handler pushes a transition or flushes directly. *)
Inductive push_event :=
| EvUpdate (now : Z) (s : S)
| EvTimer (now : Z)
| EvResult (now rnd : Z) (res : statePushResult)
| EvPush (reason : PutStateReason)
| EvFlush (now : Z).

Definition handle_push_event (p : pusher S) (ev : push_event) : run (pusher S) :=
  match ev with
  | EvUpdate now s => updateState marshal now (set_state p s)
  | EvTimer now => stateTimerFired marshal now p
  | EvResult now rnd res => Ret (applyStatePushResult now rnd p res)
  | EvPush reason => pushState marshal p reason
  | EvFlush now => flushState marshal now p
  end.

Fixpoint handle_push_events (p : pusher S) (evs : list push_event) : run (pusher S) :=
  match evs with
  | [] => Ret p
  | ev :: evs => p' ← handle_push_event p ev; handle_push_events p' evs
  end.

Lemma push_submit_returns l push :
  zlen (pl_queue l) <= statePushQueueSize ->
  exists l', push_submit l push = Ret l' /\ zlen (pl_queue l') <= statePushQueueSize.
Proof.
  intros Hl; destruct (pl_closed l) eqn:Hc.
  - exists l; unfold push_submit; by rewrite Hc.
  - destruct (push_submit_queue l push Hc Hl) as (q' & -> & Hb & _); eauto.
Qed.

(** [pushState] only moves the sequence number and the lane. *)
Lemma pushState_spec p reason :
  zlen (pl_queue (ps_lane p)) <= statePushQueueSize ->
  exists l', pushState marshal p reason =
      Ret (MkPusher (ps_state p) (ps_spotConnId p) (ps_publicIp p) (stateDirty p)
             (statePutScheduled p) (lastStatePut p) (stateTimer p) (stateRetries p)
             (u64 (stateSeq p + 1)) (hasInitialConnectState p) l') /\
    zlen (pl_queue l') <= statePushQueueSize /\
    (reason <> BECAME_INACTIVE -> forall body, marshal reason (ps_state p) = Some body ->
     push_submit (ps_lane p) (MkPush (u64 (stateSeq p + 1)) reason (ps_spotConnId p) (Some body)) = Ret l').
Proof.
  intros Hl; unfold pushState; cbv zeta; case_decide as Hr; [subst|destruct (marshal reason _) as [body|] eqn:E].
  - destruct (push_submit_returns (ps_lane p)
      (MkPush (u64 (stateSeq p + 1)) BECAME_INACTIVE (ps_spotConnId p) None) Hl) as (l' & -> & Hb).
    by exists l'.
  - destruct (push_submit_returns (ps_lane p)
      (MkPush (u64 (stateSeq p + 1)) reason (ps_spotConnId p) (Some body)) Hl) as (l' & Hs & Hb).
    exists l'; rewrite Hs; repeat split; auto; by intros _ ? [= <-].
  - exists (ps_lane p); repeat split; auto; done.
Qed.

Lemma flushState_spec now p :
  zlen (pl_queue (ps_lane p)) <= statePushQueueSize ->
  exists p', flushState marshal now p = Ret p' /\
    stateDirty p' = false /\ statePutScheduled p' = statePutScheduled p /\
    stateTimer p' = stateTimer p /\ lastStatePut p' = now /\ ps_state p' = ps_state p /\
    zlen (pl_queue (ps_lane p')) <= statePushQueueSize /\
    (forall body, marshal PLAYER_STATE_CHANGED (ps_state p) = Some body ->
     push_submit (ps_lane p)
       (MkPush (u64 (stateSeq p + 1)) PLAYER_STATE_CHANGED (ps_spotConnId p) (Some body)) = Ret (ps_lane p')).
Proof.
  intros Hl; unfold flushState.
  destruct (pushState_spec (MkPusher (ps_state p) (ps_spotConnId p) (ps_publicIp p) false
    (statePutScheduled p) now (stateTimer p) (stateRetries p) (stateSeq p)
    (hasInitialConnectState p) (ps_lane p)) PLAYER_STATE_CHANGED Hl) as (l' & -> & Hb & Hs).
  eexists; split; [reflexivity|]; repeat split; auto.
Qed.

Lemma updateState_ok now p :
  pusher_ok p -> exists p', updateState marshal now p = Ret p' /\ pusher_ok p'.
Proof.
  intros [Hd Ht Hl]; unfold updateState; simpl.
  destruct (statePutScheduled p) eqn:Hs.
  { eexists; split; [reflexivity|]; split; simpl; rewrite ?Hs; auto. }
  case_decide.
  { eexists; split; [reflexivity|]; split; simpl; eauto. }
  set (q := set_sched p true false (stateTimer p) (stateRetries p)).
  destruct (flushState_spec now q Hl) as (p' & -> & Hd' & Hs' & Ht' & _ & _ & Hb & _).
  exists p'; split; [done|]; split; auto; rewrite ?Hd', ?Hs'; simpl; congruence.
Qed.

Lemma handle_push_event_ok p ev :
  pusher_ok p -> exists p', handle_push_event p ev = Ret p' /\ pusher_ok p'.
Proof.
  intros Hp; pose proof Hp as [Hd Ht Hl]; destruct ev as [now s|now|now rnd res|reason|now]; simpl.
  - apply updateState_ok; by split.
  - unfold stateTimerFired; simpl; destruct (stateDirty p) eqn:Hdirty.
    + set (q := set_sched p true false None (stateRetries p)).
      destruct (flushState_spec now q Hl) as (p' & -> & Hd' & Hs' & Ht' & _ & _ & Hb & _).
      exists p'; split; [done|]; split; auto; rewrite ?Hd', ?Hs'; simpl; congruence.
    + eexists; split; [reflexivity|]; split; simpl; auto; congruence.
  - eexists; split; [reflexivity|]; unfold applyStatePushResult.
    destruct (pr_err res); [case_decide|]; split; simpl; eauto.
  - destruct (pushState_spec p reason Hl) as (l' & -> & Hb & _).
    eexists; split; [reflexivity|]; split; simpl; auto.
  - destruct (flushState_spec now p Hl) as (p' & -> & Hd' & Hs' & Ht' & _ & _ & Hb & _).
    exists p'; split; [done|]; split; auto; rewrite ?Hd', ?Hs', ?Ht'; auto; congruence.
Qed.

Lemma handle_push_events_ok evs p :
  pusher_ok p -> exists p', handle_push_events p evs = Ret p' /\ pusher_ok p'.
Proof.
  revert p; induction evs as [|ev evs IH]; intros p Hp; simpl; [eauto|].
  destruct (handle_push_event_ok p ev Hp) as (p' & -> & Hp'); simpl; auto.
Qed.
End scheduling_lemmas.

Definition demo_marshal (_ : PutStateReason) (s : Z) : option (list Z) := Some [s].

Definition demo_pusher : pusher Z :=
  MkPusher 0 "conn" "" false false 0 None 0 0 false (MkPushLane [] false).

Lemma demo_pusher_ok : pusher_ok demo_pusher.
Proof. split; simpl; done. Qed.

(** No state update is forgotten.  Through any sequence of updates, timer
    expiries, push results, transitions and direct flushes, handling never
    fails, an update not yet handed over has the timer armed for it, and a
    timer that then fires hands the lane exactly the current state and clears
    the mark. *)
Theorem state_updates_reach_lane {S} (marshal : PutStateReason -> S -> option (list Z))
    (p : pusher S) (evs : list (@push_event S)) :
  pusher_ok p ->
  exists p', handle_push_events marshal p evs = Ret p' /\
    (stateDirty p' = true -> statePutScheduled p' = true /\ is_Some (stateTimer p')) /\
    forall now body, stateDirty p' = true -> marshal PLAYER_STATE_CHANGED (ps_state p') = Some body ->
    exists p'', stateTimerFired marshal now p' = Ret p'' /\ stateDirty p'' = false /\
      statePutScheduled p'' = false /\ lastStatePut p'' = now /\
      push_submit (ps_lane p')
        (MkPush (u64 (stateSeq p' + 1)) PLAYER_STATE_CHANGED (ps_spotConnId p') (Some body))
      = Ret (ps_lane p'').
Proof.
  intros Hp; destruct (handle_push_events_ok marshal evs p Hp) as (p' & -> & [Hd Ht Hl]).
  exists p'; split; [done|split; [auto|]].
  intros now body Hdirty Hm; unfold stateTimerFired; simpl; rewrite Hdirty.
  destruct (flushState_spec marshal now (set_sched p' true false None (stateRetries p')) Hl)
    as (p'' & Hf & Hd' & Hs' & _ & Hlast & _ & _ & Hsub).
  exists p''; rewrite Hf; repeat split; auto.
Qed.

Lemma state_updates_reach_lane_witness :
  exists p', handle_push_events demo_marshal demo_pusher [EvUpdate (10 ^ 9) 1; EvUpdate (10 ^ 9 + 5) 2] = Ret p' /\
    (stateDirty p' = true -> statePutScheduled p' = true /\ is_Some (stateTimer p')).
Proof.
  destruct (state_updates_reach_lane demo_marshal demo_pusher
    [EvUpdate (10 ^ 9) 1; EvUpdate (10 ^ 9 + 5) 2] demo_pusher_ok) as (p' & H1 & H2 & _).
  exists p'; split; assumption.
Defined.

(** A failed push backs off within bounds: when the newest push fails
    without a cooldown from the backend, the state is marked dirty and the
    timer is armed, after more than four fifths of 200ms doubled once per
    consecutive failure (eight times at most) and never more than 30s; with a
    cooldown, after exactly that; and a failed push that is not the newest
    changes neither the mark nor the timer. *)
Theorem failed_push_backs_off {S} (now rnd : Z) (p : pusher S) (res : statePushResult) (e : push_error) :
  pr_err res = Some e -> 0 <= stateRetries p ->
  let d := Z.min (statePutMinInterval * 2 ^ Z.min (stateRetries p + 1) 8) statePutMaxBackoff in
  0 <= rnd < d / 5 ->
  let p' := applyStatePushResult now rnd p res in
  if decide (pr_seq res = stateSeq p) then
    stateDirty p' = true /\ statePutScheduled p' = true /\ stateRetries p' = stateRetries p + 1 /\
    exists delay, stateTimer p' = Some (now + delay) /\
      match pe_retryAfter e with
      | Some cooldown => delay = cooldown
      | None => 4 * d < 5 * delay /\ 320 * 10 ^ 6 < delay <= statePutMaxBackoff
      end
  else stateDirty p' = stateDirty p /\ stateTimer p' = stateTimer p.
Proof.
  intros He Hr d Hrnd; unfold applyStatePushResult; rewrite He; cbv zeta.
  case_decide; simpl; [|done]; repeat split; auto.
  eexists; split; [reflexivity|]; unfold stateRetryDelay; simpl.
  destruct (pe_retryAfter e) as [c|]; [done|].
  rewrite Z.shiftl_mul_pow2 by lia; fold d.
  assert (Hd5 : 5 * (d / 5) <= d) by (apply Z.mul_div_le; lia).
  assert (Hpow : 2 ^ 1 <= 2 ^ Z.min (stateRetries p + 1) 8) by (apply Z.pow_le_mono_r; lia).
  assert (Hlow : 400 * 10 ^ 6 <= d <= statePutMaxBackoff).
  { unfold d, statePutMinInterval, statePutMaxBackoff in *; lia. }
  lia.
Qed.

Lemma failed_push_backs_off_witness :
  let p := MkPusher 0 "conn" "" false false 0 None 3 7 true (MkPushLane [] false) in
  let res := MkPushResult 7 PLAYER_STATE_CHANGED "" (Some (MkPushError io_EOF None)) in
  stateDirty (applyStatePushResult 0 1000 p res) = true.
Proof.
  cbv zeta.
  apply (failed_push_backs_off 0 1000
    (MkPusher 0 "conn" "" false false 0 None 3 7 true (MkPushLane [] false))
    (MkPushResult 7 PLAYER_STATE_CHANGED "" (Some (MkPushError io_EOF None)))
    (MkPushError io_EOF None)); [reflexivity | simpl; lia | vm_compute; split; [discriminate | reflexivity]].
Defined.

(** The 200ms spacing does not survive a direct flush: an update deferred
    to the timer, a flush by a transfer just before it expires and one more
    update put two player-state pushes 10ms apart on the lane's clock. *)
Theorem direct_flush_breaks_spacing :
  let ms := 10 ^ 6 in
  let before := [EvUpdate (1000 * ms) 1; EvUpdate (1010 * ms) 2; EvFlush (1190 * ms)] in
  (p ← handle_push_events demo_marshal demo_pusher before;
   Ret (lastStatePut p, stateTimer p)) = Ret (1190 * ms, Some (1200 * ms)) /\
  (p ← handle_push_events demo_marshal demo_pusher
         (before ++ [EvUpdate (1195 * ms) 3; EvTimer (1200 * ms)]);
   Ret (lastStatePut p, push_body <$> pl_queue (ps_lane p), stateSeq p))
  = Ret (1200 * ms, [Some [3]], 3) /\
  1200 * ms - 1190 * ms < statePutMinInterval.
Proof. cbv zeta; repeat split; vm_compute; reflexivity. Qed.
