(* ===== verification/Source.v ===== *)
(** * The switching audio source ([src/player/source.go])

    Two slots of audio sources, a lookahead ring buffer and the equal-power
    crossfade between the slots.  Samples and the float operations on them are
    parameters: the model follows which samples are moved and mixed, not the
    rounding of [float32]. *)

From S2P Require Import Prelude.
#[local] Open Scope list_scope.
#[local] Open Scope Z_scope.

Definition Channels : Z := 2.
Definition SampleRate : Z := 44100.
Definition lookaheadHeadroom : Z := 8 * 1024.
Definition scratchLen : Z := 8 * 1024.

(** [librespot.AudioSource], and the optional [uncrossfadable]: one [Read] of
    at most [n] samples gives the samples written and the error, if any. *)
Class AudioSource (A F : Type) := {
  as_Read : A -> Z -> A * list F * option error;
  as_SetPositionMs : A -> Z -> A * option error;
  as_PositionMs : A -> Z;
  as_NoCrossfade : A -> bool
}.

(** What a reader owes its caller: it never returns more than asked, and a
    read with room for samples returns some or an error. *)
Class AudioSourceLaws (A F : Type) `{AudioSource A F} := {
  as_Read_len : forall a n, 0 <= n -> zlen (as_Read a n).1.2 <= n;
  as_Read_progress : forall a n, 0 < n -> (as_Read a n).2 = None -> 0 < zlen (as_Read a n).1.2
}.

(** The [float32] arithmetic of the mix: the two gains at a position of a fade
    of a given length, and the clamp's bounds. *)
Class Float (F : Type) := {
  f_zero : F;
  f_mul : F -> F -> F;
  f_add : F -> F -> F;
  f_lt : F -> F -> bool;
  gainOut : Z -> Z -> F;
  gainIn : Z -> Z -> F;
  maxSampleValue : F;
  minusOne : F
}.

(** The comparisons the clamp relies on: the bounds are ordered and no value
    is below itself. *)
Class FloatLaws (F : Type) `{Float F} := {
  f_lt_irrefl : forall x, f_lt x x = false;
  f_bounds : f_lt maxSampleValue minusOne = false
}.

Section source.
Context {A F : Type} `{AudioSource A F} `{Float F}.

(** The sources live in [heap], so that the two slots can alias one. *)
Record SwitchingAudioSource := MkSource {
  heap : nat -> A;
  slot_true : option nat;
  slot_false : option nat;
  which : bool;
  done : bool;
  eofReported : bool;
  crossfadeSamples : Z;
  buf : list F;
  bufStart : Z;
  bufLen : Z;
  primaryEOF : bool;
  pendingErr : option error;
  fading : bool;
  fadeTotal : Z;
  fadePos : Z
}.

Implicit Types s : SwitchingAudioSource.

Definition slot s (b : bool) : option nat := if b then slot_true s else slot_false s.
Definition primary s : option nat := slot s (which s).
Definition secondary s : option nat := slot s (negb (which s)).

Definition set_slot s (b : bool) (o : option nat) : SwitchingAudioSource :=
  MkSource (heap s) (if b then o else slot_true s) (if b then slot_false s else o) (which s)
    (done s) (eofReported s) (crossfadeSamples s) (buf s) (bufStart s) (bufLen s) (primaryEOF s)
    (pendingErr s) (fading s) (fadeTotal s) (fadePos s).

Definition set_heap s (i : nat) (a : A) : SwitchingAudioSource :=
  MkSource (fun j => if decide (j = i) then a else heap s j) (slot_true s) (slot_false s) (which s)
    (done s) (eofReported s) (crossfadeSamples s) (buf s) (bufStart s) (bufLen s) (primaryEOF s)
    (pendingErr s) (fading s) (fadeTotal s) (fadePos s).

Definition set_which s (b : bool) : SwitchingAudioSource :=
  MkSource (heap s) (slot_true s) (slot_false s) b (done s) (eofReported s) (crossfadeSamples s)
    (buf s) (bufStart s) (bufLen s) (primaryEOF s) (pendingErr s) (fading s) (fadeTotal s) (fadePos s).

Definition set_eof s (d r : bool) : SwitchingAudioSource :=
  MkSource (heap s) (slot_true s) (slot_false s) (which s) d r (crossfadeSamples s)
    (buf s) (bufStart s) (bufLen s) (primaryEOF s) (pendingErr s) (fading s) (fadeTotal s) (fadePos s).

Definition set_ring s (b : list F) (start len : Z) : SwitchingAudioSource :=
  MkSource (heap s) (slot_true s) (slot_false s) (which s) (done s) (eofReported s)
    (crossfadeSamples s) b start len (primaryEOF s) (pendingErr s) (fading s) (fadeTotal s) (fadePos s).

Definition set_end s (eof : bool) (err : option error) : SwitchingAudioSource :=
  MkSource (heap s) (slot_true s) (slot_false s) (which s) (done s) (eofReported s)
    (crossfadeSamples s) (buf s) (bufStart s) (bufLen s) eof err (fading s) (fadeTotal s) (fadePos s).

Definition set_fade s (f : bool) (total pos : Z) : SwitchingAudioSource :=
  MkSource (heap s) (slot_true s) (slot_false s) (which s) (done s) (eofReported s)
    (crossfadeSamples s) (buf s) (bufStart s) (bufLen s) (primaryEOF s) (pendingErr s) f total pos.

Definition NewSwitchingAudioSource (h : nat -> A) (crossfade : Z) : SwitchingAudioSource :=
  let c := if decide (crossfade < 0) then 0 else crossfade in
  let c := c - Z.rem c Channels in
  MkSource h None None false false false c
    (if decide (0 < c) then replicate (Z.to_nat (c + lookaheadHeadroom)) f_zero else [])
    0 0 false None false 0 0.

Definition finishFade s : SwitchingAudioSource :=
  set_end (set_ring (set_fade s false 0 0) (buf s) 0 0) false (pendingErr s).

Definition resetCrossfade s : SwitchingAudioSource :=
  if decide (crossfadeSamples s = 0) then s
  else finishFade (set_end s (primaryEOF s) None).

Definition SetPrimary s (source : nat) : SwitchingAudioSource :=
  let s := if decide (primary s = Some source) then s
           else let s := resetCrossfade s in set_slot s (which s) (Some source) in
  let s := if decide (secondary s = Some source) then set_slot s (negb (which s)) None else s in
  set_eof s (done s) false.

(** [None] is the nil source [SetSecondary] also accepts. *)
Definition SetSecondary s (source : option nat) : SwitchingAudioSource :=
  set_slot s (negb (which s)) source.

Definition reportDone s : SwitchingAudioSource :=
  if eofReported s then s else set_eof s true true.

Definition primaryDeclinesCrossfade s : bool :=
  if fading s || bool_decide (0 < bufLen s) || primaryEOF s then false
  else match primary s with
       | Some i => as_NoCrossfade (heap s i)
       | None => false
       end.

(** What a [Read] does: give [n] samples and an error, or wait on the
    condition variable with the state as it then is. *)
Inductive read_outcome :=
| Got (samples : list F) (err : option error)
| Blocked.

Definition readDirect s (plen : Z) : SwitchingAudioSource * read_outcome :=
  match primary s with
  | None => (s, Blocked)
  | Some i =>
    let '(a, out, err) := as_Read (heap s i) plen in
    let s := set_heap s i a in
    if opt_Is err io_EOF then
      let s := reportDone s in
      match secondary s with
      | None => (s, Got out err)
      | Some _ => (set_which (set_slot s (which s) None) (negb (which s)), Got out None)
      end
    else (s, Got out err)
  end.

(** The start and the length of the largest contiguous writable part. *)
Definition freeChunk s : run (Z * Z) :=
  if decide (zlen (buf s) = 0) then Panic "integer divide by zero" else
  let start := Z.rem (bufStart s + bufLen s) (zlen (buf s)) in
  let stop := Z.min (start + (zlen (buf s) - bufLen s)) (zlen (buf s)) in
  if decide (0 <= start <= stop) then Ret (start, stop - start)
  else Panic "slice bounds out of range".

(** Samples written at the start of a slice of the ring. *)
Definition write_at (b : list F) (start : Z) (out : list F) : list F :=
  takeZ start b ++ out ++ dropZ (start + zlen out) b.

Fixpoint pop_loop (fuel : nat) (plen want n : Z) s (acc : list F)
  : run (SwitchingAudioSource * list F) :=
  if decide (n < want) then
    match fuel with
    | O => OutOfFuel
    | S fuel =>
      let N := zlen (buf s) in
      let stop := Z.min (Z.min (Z.min (bufStart s + (want - n)) (N - bufStart s + bufStart s))
                               (bufStart s + bufLen s)) N in
      if decide (0 <= bufStart s <= stop /\ want <= plen) then
        let part := takeZ (want - n) (sliceZ (bufStart s) stop (buf s)) in
        let nn := zlen part in
        pop_loop fuel plen want (n + nn)
          (set_ring s (buf s) (Z.rem (bufStart s + nn) N) (bufLen s - nn)) (acc ++ part)
      else Panic "slice bounds out of range"
    end
  else Ret (s, acc).

(** Every round copies at least one sample. *)
Definition popChunk s (plen limit : Z) : run (SwitchingAudioSource * list F) :=
  let want := Z.min (Z.min plen limit) (bufLen s) in
  let want := want - Z.rem want Channels in
  pop_loop (Z.to_nat want) plen want 0 s [].

(** The refill loop. *)
Fixpoint refill_loop (fuel : nat) (budget : Z) s : run SwitchingAudioSource :=
  if negb (primaryEOF s) && bool_decide (pendingErr s = None) &&
     bool_decide (bufLen s < zlen (buf s)) &&
     (bool_decide (bufLen s = 0) || bool_decide (0 < budget))
  then
    match fuel with
    | O => OutOfFuel
    | S fuel =>
      '(start, len) ← freeChunk s;
      match primary s with
      | None => Panic "nil pointer dereference"
      | Some i =>
        let '(a, out, err) := as_Read (heap s i) (Z.min len scratchLen) in
        let nn := zlen out in
        let s := set_ring (set_heap s i a) (write_at (buf s) start out) (bufStart s) (bufLen s + nn) in
        let budget := budget - nn in
        if opt_Is err io_EOF then
          refill_loop fuel budget
            (set_end (set_ring s (buf s) (bufStart s) (bufLen s - Z.rem (bufLen s) Channels))
                     true (pendingErr s))
        else
          match err with
          | Some e => refill_loop fuel budget (set_end s (primaryEOF s) (Some e))
          | None => refill_loop fuel budget s
          end
      end
    end
  else Ret s.

Definition refill_budget : Z := 2 * scratchLen.

(** Each round reads a sample or stops, and the budget runs out after
    [refill_budget] samples, of which the first may not count. *)
Definition refill s : run SwitchingAudioSource :=
  refill_loop (Z.to_nat refill_budget + 2) refill_budget s.

(** One output sample of the fade: the buffered tail under its gain, the
    incoming sample under its own, clamped. *)
Definition clamp (x : F) : F :=
  if f_lt maxSampleValue x then maxSampleValue
  else if f_lt x minusOne then minusOne else x.

Definition mix_sample s (incoming : list F) (nIn : Z) (j : Z) : run F :=
  let i := j - Z.rem j Channels in
  tail ← index (buf s) (Z.rem (bufStart s + j) (zlen (buf s)));
  let sample := f_mul tail (gainOut (fadePos s + i) (fadeTotal s)) in
  if decide (j < nIn) then
    x ← index incoming j;
    Ret (clamp (f_add sample (f_mul x (gainIn (fadePos s + i) (fadeTotal s)))))
  else Ret (clamp sample).

(** The mixing loop of [readFade] and what it consumes. *)
Definition fade_mix s (incoming : list F) (nIn want : Z)
  : run (SwitchingAudioSource * read_outcome) :=
  let chunk := if decide (0 < nIn) then nIn else want in
  out ← mapM (mix_sample s incoming nIn) (seqZ 0 chunk);
  let s := set_ring s (buf s) (Z.rem (bufStart s + chunk) (zlen (buf s))) (bufLen s - chunk) in
  let s := set_fade s (fading s) (fadeTotal s) (fadePos s + chunk) in
  Ret (if decide (fadeTotal s <= fadePos s) then finishFade s else s, Got out None).

Definition readFade s (plen : Z) : run (SwitchingAudioSource * read_outcome) :=
  let want := Z.min (Z.min plen (fadeTotal s - fadePos s)) scratchLen in
  let want := want - Z.rem want Channels in
  if decide (want <= 0) then Ret (finishFade s, Got [] None)
  else
    match primary s with
    | None => fade_mix s [] 0 want
    | Some i =>
      let '(a, out, err) := as_Read (heap s i) want in
      let s := set_heap s i a in
      let nIn := zlen out - Z.rem (zlen out) Channels in
      match err with
      | Some e => if errors_Is e io_EOF then fade_mix s out nIn want
                  else Ret (s, Got [] (Some e))
      | None => fade_mix s out nIn want
      end
    end.

(** Popping [limit] samples and returning them without an error. *)
Definition serve s (plen limit : Z) : run (SwitchingAudioSource * read_outcome) :=
  '(s, out) ← popChunk s plen limit; Ret (s, Got out None).

(** The part of [readCrossfade] after the refill.  Promoting the next track
    ends in [continue], and the next round of the loop is [readFade]. *)
Definition after_refill s (plen : Z) : run (SwitchingAudioSource * read_outcome) :=
  if negb (primaryEOF s) && bool_decide (pendingErr s = None) then
    let limit := bufLen s - crossfadeSamples s in
    let limit := if decide (limit <= 0) then Z.min (bufLen s) plen else limit in
    serve s plen limit
  else if negb (bool_decide (pendingErr s = None)) && negb (primaryEOF s) then
    if decide (0 < bufLen s) then serve s plen (bufLen s)
    else Ret (set_end s (primaryEOF s) None, Got [] (pendingErr s))
  else
    match secondary s with
    | Some _ =>
      if decide (crossfadeSamples s < bufLen s) then serve s plen (bufLen s - crossfadeSamples s)
      else
        let s := reportDone s in
        let s := set_which (set_slot s (which s) None) (negb (which s)) in
        readFade (set_fade s true (bufLen s) 0) plen
    | None =>
      if decide (bufLen s = 0) then Ret (reportDone s, Got [] (Some io_EOF))
      else
        '(s, out) ← popChunk s plen (bufLen s);
        if decide (bufLen s = 0) then Ret (reportDone s, Got out (Some io_EOF))
        else Ret (s, Got out None)
    end.

Definition readCrossfade s (plen : Z) : run (SwitchingAudioSource * read_outcome) :=
  if fading s then readFade s plen
  else if bool_decide (primary s = None) && negb (primaryEOF s && bool_decide (0 < bufLen s))
  then Ret (s, Blocked)
  else s ← refill s; after_refill s plen.

Definition Read s (plen : Z) : run (SwitchingAudioSource * read_outcome) :=
  if bool_decide (crossfadeSamples s = 0) || primaryDeclinesCrossfade s
  then Ret (readDirect s plen)
  else readCrossfade s plen.

Definition SetPositionMs s (pos : Z) : SwitchingAudioSource * option error :=
  match primary s with
  | None => (s, None)
  | Some i =>
    let s := resetCrossfade s in
    let '(a, err) := as_SetPositionMs (heap s i) pos in
    let s := set_heap s i a in
    match err with
    | Some e => (s, Some e)
    | None => (if decide (0 < crossfadeSamples s) then set_eof s (done s) false else s, None)
    end
  end.

Definition PositionMs s : Z :=
  match primary s with
  | None => 0
  | Some i =>
    let pos := as_PositionMs (heap s i) in
    if bool_decide (0 < crossfadeSamples s) && negb (fading s) then
      let pos := pos - Z.quot (Z.quot (bufLen s) Channels * 1000) SampleRate in
      if decide (pos < 0) then 0 else pos
    else pos
  end.
End source.
Arguments SwitchingAudioSource : clear implicits.
Arguments read_outcome : clear implicits.
