(* ===== verification/SourceProps.v ===== *)
(** * The switching audio source: its invariant and its ring

    The ring buffer refines a queue of samples: refilling appends to it and
    popping takes from its front, wherever the indices have wrapped to. *)

From S2P Require Import Prelude Source.
#[local] Open Scope list_scope.
#[local] Open Scope Z_scope.

(** ** Wrapping indices *)
Lemma rem_wrap x N : 0 <= x < 2 * N -> Z.rem x N = if decide (x < N) then x else x - N.
Proof.
  intros Hx; case_decide.
  - apply Z.rem_small; lia.
  - rewrite Z.rem_mod_nonneg by lia; symmetry; apply Z.mod_unique_pos with 1; lia.
Qed.

Lemma rem_even x : 0 <= x -> 0 <= Z.rem x 2 <= 1.
Proof. intros; pose proof (Z.rem_bound_pos x 2); lia. Qed.

Lemma nthZ_write_at {F} (b out : list F) start k :
  0 <= start -> start + zlen out <= zlen b ->
  nthZ (write_at b start out) k =
  if decide (start <= k < start + zlen out) then nthZ out (k - start) else nthZ b k.
Proof.
  intros Hs Hb; unfold write_at; pose proof (zlen_nonneg out).
  assert (Hl : zlen (takeZ start b) = start) by (rewrite zlen_takeZ; lia).
  destruct (decide (k < start)).
  { rewrite nthZ_app_l by lia; rewrite nthZ_takeZ by lia; by rewrite decide_False by lia. }
  rewrite nthZ_app_r by lia; rewrite Hl; case_decide.
  - by rewrite nthZ_app_l by lia.
  - rewrite nthZ_app_r by lia; rewrite nthZ_dropZ by lia; f_equal; lia.
Qed.

Lemma zlen_write_at {F} (b out : list F) start :
  0 <= start -> start + zlen out <= zlen b -> zlen (write_at b start out) = zlen b.
Proof. intros; unfold write_at; zlen. Qed.

Section ring.
Context {F : Type}.
Implicit Types b : list F.

(** The queue of samples held from [start] on, around the end of [b]. *)
Definition ring_of b (start len : Z) : list F := takeZ len (dropZ start (b ++ b)).

Lemma nthZ_ring b start len j :
  0 <= start < zlen b -> 0 <= len <= zlen b ->
  nthZ (ring_of b start len) j =
  if decide (0 <= j < len) then nthZ b (Z.rem (start + j) (zlen b)) else None.
Proof.
  intros Hs Hl; unfold ring_of; case_decide.
  - rewrite nthZ_takeZ, nthZ_dropZ by lia; rewrite rem_wrap by lia; case_decide.
    + by rewrite nthZ_app_l by lia.
    + by rewrite nthZ_app_r by lia.
  - apply nthZ_out; rewrite zlen_takeZ; zlen.
Qed.

Lemma zlen_ring b start len :
  0 <= start < zlen b -> 0 <= len <= zlen b -> zlen (ring_of b start len) = len.
Proof. intros; unfold ring_of; zlen. Qed.

(** Writing after the held samples appends to the queue. *)
Lemma ring_push b start len out :
  0 <= start < zlen b -> 0 <= len -> len + zlen out <= zlen b ->
  let at_ := Z.rem (start + len) (zlen b) in
  at_ + zlen out <= zlen b -> len < zlen b ->
  ring_of (write_at b at_ out) start (len + zlen out) = ring_of b start len ++ out.
Proof.
  intros Hs Hl Hfit at_ Hat Hlt; pose proof (zlen_nonneg out).
  assert (Hat0 : at_ = if decide (start + len < zlen b) then start + len else start + len - zlen b)
    by (unfold at_; apply rem_wrap; lia).
  assert (0 <= at_) by (rewrite Hat0; case_decide; lia).
  assert (Hwl : zlen (write_at b at_ out) = zlen b) by (apply zlen_write_at; lia).
  apply nthZ_ext; intros j.
  rewrite nthZ_ring by (rewrite ?Hwl; lia).
  destruct (decide (j < len)) as [Hj|Hj].
  - rewrite nthZ_app_l by (rewrite zlen_ring by lia; lia).
    rewrite nthZ_ring by lia; destruct (decide (0 <= j)); [|by rewrite !decide_False by lia].
    rewrite !decide_True by lia; rewrite Hwl, nthZ_write_at by lia.
    rewrite decide_False; [done|]; rewrite rem_wrap by lia.
    intros Hin; revert Hin Hat0; repeat case_decide; lia.
  - rewrite nthZ_app_r by (rewrite zlen_ring by lia; lia).
    rewrite zlen_ring by lia; destruct (decide (0 <= j < len + zlen out)); [|symmetry; apply nthZ_out; lia].
    rewrite Hwl, nthZ_write_at by lia; rewrite rem_wrap by lia.
    revert Hat0; repeat case_decide; intros Hat0; try lia; f_equal; lia.
Qed.

(** The contiguous part at the read index is the front of the queue. *)
Lemma ring_pop b start len n :
  0 <= start < zlen b -> 0 <= n <= len -> len <= zlen b -> start + n <= zlen b ->
  sliceZ start (start + n) b = takeZ n (ring_of b start len) /\
  ring_of b (Z.rem (start + n) (zlen b)) (len - n) = dropZ n (ring_of b start len).
Proof.
  intros Hs Hn Hl Hfit; split.
  - unfold sliceZ, ring_of; rewrite takeZ_takeZ by lia.
    replace (start + n - start) with n by lia; rewrite Z.min_l by lia.
    by rewrite dropZ_app_le, takeZ_app_le by zlen.
  - rewrite rem_wrap by lia; apply nthZ_ext; intros j.
    destruct (decide (0 <= j)) as [Hj|Hj]; [|rewrite !nthZ_out by lia; done].
    rewrite nthZ_dropZ by lia; rewrite !nthZ_ring by (repeat case_decide; lia).
    repeat case_decide; try lia; try done; rewrite !rem_wrap by lia;
      repeat case_decide; try lia; f_equal; lia.
Qed.

Lemma ring_take b start len n :
  0 <= n <= len -> ring_of b start n = takeZ n (ring_of b start len).
Proof. intros; unfold ring_of; rewrite takeZ_takeZ by lia; f_equal; lia. Qed.
End ring.

(** ** The invariant *)
Section props.
Context {A F : Type} `{AudioSourceLaws A F} `{Float F}.
Implicit Types s : SwitchingAudioSource A F.

Definition ring s : list F := ring_of (buf s) (bufStart s) (bufLen s).

Record source_inv s : Prop := {
  si_cf : 0 <= crossfadeSamples s;
  si_even : Z.rem (crossfadeSamples s) Channels = 0;
  si_buf : (0 < crossfadeSamples s -> zlen (buf s) = crossfadeSamples s + lookaheadHeadroom) /\
           (crossfadeSamples s = 0 -> zlen (buf s) = 0);
  si_start : 0 <= bufStart s /\ (0 < crossfadeSamples s -> bufStart s < zlen (buf s));
  si_len : 0 <= bufLen s <= zlen (buf s);
  si_eof : primaryEOF s = true ->
           0 < crossfadeSamples s /\ Z.rem (bufLen s) Channels = 0 /\ pendingErr s = None;
  si_fade : fading s = true ->
            primaryEOF s = true /\ 0 <= fadePos s /\ bufLen s = fadeTotal s - fadePos s
}.

(** What the samples a source delivered are: the concatenation of its reads. *)
Inductive reads : A -> list F -> A -> Prop :=
| reads_nil a : reads a [] a
| reads_cons a n a1 out err xs a2 :
    as_Read a n = (a1, out, err) -> reads a1 xs a2 -> reads a (out ++ xs) a2.

Lemma reads_app a xs a1 ys a2 : reads a xs a1 -> reads a1 ys a2 -> reads a (xs ++ ys) a2.
Proof. induction 1; [done|]; rewrite <- app_assoc; econstructor; eauto. Qed.

(** ** Popping *)
Lemma pop_loop_spec fuel plen want n s acc :
  let N := zlen (buf s) in
  0 <= bufStart s < N -> bufLen s <= N -> 0 <= n <= want -> want <= plen ->
  want - n <= bufLen s -> want - n <= Z.of_nat fuel ->
  exists st, pop_loop fuel plen want n s acc =
      Ret (set_ring s (buf s) st (bufLen s - (want - n)), acc ++ takeZ (want - n) (ring s)) /\
    0 <= st < N /\
    ring_of (buf s) st (bufLen s - (want - n)) = dropZ (want - n) (ring s).
Proof.
  revert n s acc; induction fuel as [|fuel IH]; intros n s acc N Hst Hl Hn Hp Hw Hf; cbn [pop_loop].
  { assert (want - n = 0) as -> by lia; rewrite decide_False by lia.
    exists (bufStart s); split; [|split; [done|]].
    - replace (bufLen s - 0) with (bufLen s) by lia; rewrite app_nil_r; by destruct s.
    - by replace (bufLen s - 0) with (bufLen s) by lia. }
  case_decide as Hlt; cycle 1.
  { assert (want - n = 0) as -> by lia.
    exists (bufStart s); split; [|split; [done|]].
    - replace (bufLen s - 0) with (bufLen s) by lia; rewrite app_nil_r; by destruct s.
    - by replace (bufLen s - 0) with (bufLen s) by lia. }
  cbv zeta; fold N; set (m := Z.min (want - n) (N - bufStart s)).
  assert (Hm : 0 < m <= want - n /\ bufStart s + m <= N) by (unfold m; lia).
  replace (Z.min (Z.min (Z.min (bufStart s + (want - n)) (N - bufStart s + bufStart s))
                   (bufStart s + bufLen s)) N) with (bufStart s + m) by (unfold m; lia).
  rewrite decide_True by lia.
  destruct (ring_pop (buf s) (bufStart s) (bufLen s) m) as [Hpart Hring]; try (fold N; lia).
  fold N in Hring; rewrite Hpart.
  assert (Hlen : zlen (ring s) = bufLen s) by (apply zlen_ring; fold N; lia).
  assert (Htk : takeZ (want - n) (takeZ m (ring s)) = takeZ m (ring s))
    by (rewrite takeZ_takeZ by lia; f_equal; lia).
  unfold ring in *; rewrite Htk.
  assert (Hzl : zlen (takeZ m (ring_of (buf s) (bufStart s) (bufLen s))) = m)
    by (rewrite zlen_takeZ; lia).
  rewrite Hzl; set (s1 := set_ring s (buf s) _ _).
  destruct (IH (n + m) s1 (acc ++ takeZ m (ring_of (buf s) (bufStart s) (bufLen s))))
    as (st & Hrun & Hst' & Hr'); simpl; fold N; try lia.
  { rewrite rem_wrap by lia; case_decide; lia. }
  exists st; rewrite Hrun; simpl in *.
  rewrite Hring in *; split; [|split; [done|]].
  - f_equal; f_equal; [f_equal; lia|].
    rewrite <- app_assoc; f_equal.
    replace (want - n) with (m + (want - (n + m))) by lia; by rewrite takeZ_add by lia.
  - replace (bufLen s - (want - n)) with (bufLen s - m - (want - (n + m))) by lia.
    rewrite Hr', dropZ_dropZ by lia; f_equal; lia.
Qed.

(** [popChunk] takes a whole number of frames from the front of the queue. *)
Definition pop_count s (plen limit : Z) : Z :=
  let want := Z.min (Z.min plen limit) (bufLen s) in want - Z.rem want Channels.

Lemma pop_count_bounds s plen limit :
  0 <= plen -> 0 <= limit -> 0 <= bufLen s ->
  0 <= pop_count s plen limit <= Z.min (Z.min plen limit) (bufLen s) /\
  Z.rem (pop_count s plen limit) Channels = 0.
Proof.
  intros; unfold pop_count, Channels; set (w := Z.min (Z.min plen limit) (bufLen s)).
  assert (Hw : 0 <= w) by (unfold w; lia); pose proof (rem_even w Hw).
  pose proof (Z.quot_rem w 2 ltac:(lia)) as Hq; pose proof (Z.quot_pos w 2 Hw ltac:(lia)).
  split; [lia|].
  replace (w - Z.rem w 2) with (Z.quot w 2 * 2) by lia; by apply Z.rem_mul.
Qed.

Lemma popChunk_spec s plen limit :
  source_inv s -> 0 < crossfadeSamples s -> 0 <= plen -> 0 <= limit ->
  let k := pop_count s plen limit in
  exists st, popChunk s plen limit =
      Ret (set_ring s (buf s) st (bufLen s - k), takeZ k (ring s)) /\
    0 <= st < zlen (buf s) /\ ring_of (buf s) st (bufLen s - k) = dropZ k (ring s).
Proof.
  intros [Hc He Hb Hs Hl _ _] Hpos Hp Hlim k; pose proof (pop_count_bounds s plen limit) as Hk.
  fold k in Hk; unfold popChunk; cbv zeta.
  change (Z.min (Z.min plen limit) (bufLen s) -
          Z.rem (Z.min (Z.min plen limit) (bufLen s)) Channels) with k.
  destruct (pop_loop_spec (Z.to_nat k) plen k 0 s []) as (st & Hrun & Hst & Hr); try lia.
  replace (k - 0) with k in * by lia; eauto.
Qed.

Lemma zlen_ring_inv s : source_inv s -> zlen (ring s) = bufLen s.
Proof.
  intros [Hc _ Hb Hs Hl _ _]; unfold ring.
  destruct (decide (0 < crossfadeSamples s)).
  - apply zlen_ring; lia.
  - assert (bufLen s = 0) as -> by lia; unfold ring_of; zlen.
Qed.

Lemma pop_inv s st k :
  source_inv s -> fading s = false -> 0 < crossfadeSamples s -> 0 <= st < zlen (buf s) ->
  0 <= k <= bufLen s -> Z.rem k Channels = 0 ->
  source_inv (set_ring s (buf s) st (bufLen s - k)).
Proof.
  intros [Hc He Hb Hs Hl Heof Hf] Hnf Hpos Hst Hk Hrem; split; simpl; auto; try lia; try congruence.
  intros E; destruct (Heof E) as (? & Hr & ?); repeat split; auto.
  unfold Channels in *; apply Z.rem_divide in Hr; [|lia]; apply Z.rem_divide in Hrem; [|lia].
  apply Z.rem_divide; [lia|]; by apply Z.divide_sub_r.
Qed.

(** ** Refilling *)
Record same_tracks s s' : Prop := {
  st_true : slot_true s' = slot_true s;
  st_false : slot_false s' = slot_false s;
  st_which : which s' = which s;
  st_done : done s' = done s;
  st_reported : eofReported s' = eofReported s;
  st_cf : crossfadeSamples s' = crossfadeSamples s;
  st_fading : fading s' = fading s
}.

Lemma same_tracks_refl s : same_tracks s s.
Proof. by split. Qed.

Lemma same_tracks_trans s1 s2 s3 : same_tracks s1 s2 -> same_tracks s2 s3 -> same_tracks s1 s3.
Proof. intros [] []; split; congruence. Qed.

Lemma same_tracks_primary s s' : same_tracks s s' -> primary s' = primary s.
Proof. intros [E1 E2 E3 _ _ _ _]; unfold primary, slot; by rewrite E1, E2, E3. Qed.

Lemma same_tracks_secondary s s' : same_tracks s s' -> secondary s' = secondary s.
Proof. intros [E1 E2 E3 _ _ _ _]; unfold secondary, slot; by rewrite E1, E2, E3. Qed.

Lemma freeChunk_spec s :
  source_inv s -> 0 < crossfadeSamples s -> bufLen s < zlen (buf s) ->
  exists len, freeChunk s = Ret (Z.rem (bufStart s + bufLen s) (zlen (buf s)), len) /\
    0 <= Z.rem (bufStart s + bufLen s) (zlen (buf s)) /\
    0 < len /\ Z.rem (bufStart s + bufLen s) (zlen (buf s)) + len <= zlen (buf s) /\
    bufLen s + len <= zlen (buf s).
Proof.
  intros [Hc _ Hb Hs Hl _ _] Hpos Hlt; unfold freeChunk.
  rewrite decide_False by lia; cbv zeta.
  set (N := zlen (buf s)) in *; assert (Hr := rem_wrap (bufStart s + bufLen s) N ltac:(lia)).
  set (st := Z.rem (bufStart s + bufLen s) N) in *.
  assert (Hst : 0 <= st < N) by (revert Hr; case_decide; lia).
  rewrite decide_True by lia; eexists; split; [reflexivity|]; lia.
Qed.

(** What one round of the refill loop leaves: the samples read appended. *)
Lemma refill_round_inv s i a out start len :
  source_inv s -> fading s = false -> primaryEOF s = false -> 0 < crossfadeSamples s ->
  start = Z.rem (bufStart s + bufLen s) (zlen (buf s)) -> 0 <= start ->
  zlen out <= len -> start + len <= zlen (buf s) -> bufLen s + len <= zlen (buf s) ->
  bufLen s < zlen (buf s) ->
  let s' := set_ring (set_heap s i a) (write_at (buf s) start out) (bufStart s) (bufLen s + zlen out) in
  source_inv s' /\ ring s' = ring s ++ out.
Proof.
  intros [Hc He Hb Hs Hl Heof Hf] Hnf Hne Hpos -> Hstart0 Hout Hfit Hcap Hlt s'.
  pose proof (zlen_nonneg out).
  assert (Hw : zlen (write_at (buf s) (Z.rem (bufStart s + bufLen s) (zlen (buf s))) out) = zlen (buf s))
    by (apply zlen_write_at; lia).
  split.
  - split; simpl; rewrite ?Hw; auto; try lia; congruence.
  - unfold ring, s'; simpl; apply ring_push; lia.
Qed.

Lemma drop_torn s :
  source_inv s -> primaryEOF s = false -> pendingErr s = None -> fading s = false ->
  0 < crossfadeSamples s ->
  let s' := set_end (set_ring s (buf s) (bufStart s) (bufLen s - Z.rem (bufLen s) Channels)) true None in
  source_inv s' /\ exists torn, ring s' ++ torn = ring s /\ zlen torn <= 1.
Proof.
  intros Hinv; pose proof Hinv as [Hc He Hb Hs Hl Heof Hf]; intros Hne Hpe Hnf Hpos; simpl.
  pose proof (rem_even (bufLen s) ltac:(lia)) as Hrem; unfold Channels in *.
  assert (Hle : Z.rem (bufLen s) 2 <= bufLen s) by (apply Z.rem_le; lia).
  split.
  - split; simpl; auto; try lia; try congruence.
    intros _; repeat split; auto; unfold Channels.
    replace (bufLen s - Z.rem (bufLen s) 2) with (Z.quot (bufLen s) 2 * 2)
      by (pose proof (Z.quot_rem (bufLen s) 2); lia).
    by apply Z.rem_mul.
  - exists (dropZ (bufLen s - Z.rem (bufLen s) 2) (ring s)).
    unfold ring; simpl; rewrite (ring_take _ _ (bufLen s)) by lia.
    rewrite takeZ_dropZ; split; [done|].
    pose proof (zlen_ring_inv s Hinv) as Hz; unfold ring in Hz; rewrite zlen_dropZ; lia.
Qed.

Definition refilled s s' (i : nat) : Prop :=
  source_inv s' /\ same_tracks s s' /\ (forall j, j <> i -> heap s' j = heap s j) /\
  (primaryEOF s' = false -> pendingErr s' = None -> 0 < bufLen s') /\
  exists xs torn, reads (heap s i) xs (heap s' i) /\
    ring s' ++ torn = ring s ++ xs /\ zlen torn <= 1 /\ (torn <> [] -> primaryEOF s' = true) /\
    (primaryEOF s = true \/ pendingErr s <> None -> s' = s /\ xs = [] /\ torn = []).

Lemma refilled_stop s i :
  source_inv s -> (primaryEOF s = false -> pendingErr s = None -> 0 < bufLen s) -> refilled s s i.
Proof.
  intros Hinv Hp; repeat (split; [by auto using same_tracks_refl|]).
  exists [], []; repeat split; auto; try done; constructor.
Qed.

Lemma refill_loop_stop fuel budget s :
  primaryEOF s = true \/ pendingErr s <> None -> refill_loop fuel budget s = Ret s.
Proof.
  intros Hs; destruct fuel; cbn [refill_loop]; destruct (primaryEOF s); simpl; auto;
    case_bool_decide; simpl; auto; naive_solver.
Qed.

Lemma refill_loop_spec fuel budget s i :
  source_inv s -> fading s = false -> 0 < crossfadeSamples s -> primary s = Some i ->
  Z.max 0 budget + (if decide (bufLen s = 0) then 1 else 0) <= Z.of_nat fuel ->
  exists s', refill_loop fuel budget s = Ret s' /\ refilled s s' i.
Proof.
  revert budget s; induction fuel as [|fuel IH]; intros budget s Hinv Hnf Hpos Hpr Hfuel;
    pose proof (si_buf s Hinv) as Hbuf;
    pose proof (si_len s Hinv) as Hlen; cbn [refill_loop];
    destruct (negb (primaryEOF s) && bool_decide (pendingErr s = None) &&
      bool_decide (bufLen s < zlen (buf s)) &&
      (bool_decide (bufLen s = 0) || bool_decide (0 < budget))) eqn:Hcond.
  - exfalso; rewrite !andb_true_iff, orb_true_iff, !bool_decide_eq_true in Hcond.
    destruct Hcond as [_ [?|?]]; case_decide; lia.
  - exists s; split; [done|]; apply refilled_stop; [done|]; intros E1 E2; rewrite E1, E2 in Hcond.
    unfold lookaheadHeadroom in *; simpl in Hcond.
    rewrite andb_false_iff, orb_false_iff, !bool_decide_eq_false in Hcond; lia.
  - rewrite !andb_true_iff, orb_true_iff, !bool_decide_eq_true in Hcond.
    destruct Hcond as [[[Hne%negb_true_iff Hpe] Hlt] Hbud].
    destruct (freeChunk_spec s Hinv Hpos Hlt) as (len & -> & Hst0 & Hl0 & Hfit & Hcap); simpl.
    rewrite Hpr; set (st := Z.rem (bufStart s + bufLen s) (zlen (buf s))) in *.
    destruct (as_Read (heap s i) (Z.min len scratchLen)) as [[a out] err] eqn:Hread.
    assert (Hout : zlen out <= Z.min len scratchLen).
    { pose proof (as_Read_len (heap s i) (Z.min len scratchLen)) as Hl.
      rewrite Hread in Hl; simpl in Hl; apply Hl; unfold scratchLen; lia. }
    destruct (refill_round_inv s i a out st len Hinv Hnf Hne Hpos eq_refl) as [Hinv1 Hring1]; try lia.
    set (s1 := set_ring _ _ _ _) in *.
    assert (Hst1 : same_tracks s s1) by (by split).
    assert (Hh1 : heap s1 i = a) by (unfold s1; simpl; by rewrite decide_True).
    assert (Hho : forall j, j <> i -> heap s1 j = heap s j)
      by (intros j Hj; unfold s1; simpl; by rewrite decide_False).
    destruct (opt_Is err io_EOF) eqn:Heof; [|destruct err as [e|]].
    + change (pendingErr s1) with (pendingErr s); rewrite Hpe.
      destruct (drop_torn s1 Hinv1 Hne Hpe Hnf Hpos) as (Hinv2 & torn & Htorn & Hz).
      rewrite refill_loop_stop by (by left); eexists; split; [reflexivity|].
      split; [done|split; [by split|split; [done|split; [done|]]]].
      exists out, torn; split; [|split; [|split; [done|split; [done|]]]].
      * simpl; rewrite decide_True by done; rewrite <- (app_nil_r out); econstructor; [done|constructor].
      * etrans; [exact Htorn | exact Hring1].
      * intros [E|E]; congruence.
    + rewrite refill_loop_stop by (by right); eexists; split; [reflexivity|].
      split; [|split; [by split|split; [done|split; [done|]]]].
      { destruct Hinv1 as [? ? ? ? ? He1 Hf1]; split; simpl; auto.
        all: simpl in *; rewrite ?Hne, ?Hnf; done. }
      exists out, []; split; [|split; [|split; [done|split; [done|]]]].
      * simpl; rewrite decide_True by done; rewrite <- (app_nil_r out); econstructor; [done|constructor].
      * by rewrite app_nil_r.
      * intros [E|E]; congruence.
    + assert (Hprog : 0 < zlen out).
      { pose proof (as_Read_progress (heap s i) (Z.min len scratchLen)) as Hl.
        rewrite Hread in Hl; simpl in Hl; apply Hl; [unfold scratchLen; lia | done]. }
      destruct (IH (budget - zlen out) s1) as (s' & Hrun & Hinv' & Hst' & Hho' & Hprog' & xs & torn & Hr & Hring & Hz & Ht & _);
        try done.
      { rewrite decide_False by (simpl; lia); case_decide; lia. }
      exists s'; split; [done|].
      split; [done|split; [by eapply same_tracks_trans|split; [|split; [done|]]]].
      { intros j Hj; rewrite Hho'; auto. }
      exists (out ++ xs), torn; split; [|split; [|split; [done|split; [done|]]]].
      * rewrite Hh1 in Hr; by econstructor.
      * by rewrite Hring, Hring1, app_assoc.
      * intros [E|E]; congruence.
  - exists s; split; [done|]; apply refilled_stop; [done|]; intros E1 E2; rewrite E1, E2 in Hcond.
    unfold lookaheadHeadroom in *; simpl in Hcond.
    rewrite andb_false_iff, orb_false_iff, !bool_decide_eq_false in Hcond; lia.
Qed.

Lemma refill_spec s i :
  source_inv s -> fading s = false -> 0 < crossfadeSamples s -> primary s = Some i ->
  exists s', refill s = Ret s' /\ refilled s s' i.
Proof.
  intros; apply refill_loop_spec; auto.
  rewrite Nat2Z.inj_add, Z2Nat.id by (unfold refill_budget, scratchLen; lia).
  case_decide; unfold refill_budget, scratchLen; lia.
Qed.

(** ** Fading *)
Lemma mapM_run {X Y} (f : X -> run Y) (g : X -> Y) (l : list X) :
  (forall x, x ∈ l -> f x = Ret (g x)) -> mapM f l = Ret (g <$> l).
Proof.
  induction l as [|x l IH]; intros Hf; [done|]; cbn.
  rewrite (Hf x) by left; cbn; rewrite IH by (intros; apply Hf; by right); done.
Qed.

Lemma rem_sub_even x y : Z.rem x Channels = 0 -> Z.rem y Channels = 0 -> Z.rem (x - y) Channels = 0.
Proof.
  unfold Channels; intros Hx%Z.rem_divide Hy%Z.rem_divide; try lia.
  apply Z.rem_divide; [lia|]; by apply Z.divide_sub_r.
Qed.

Lemma frames_down x : 0 <= x ->
  0 <= x - Z.rem x Channels <= x /\ Z.rem (x - Z.rem x Channels) Channels = 0.
Proof.
  intros Hx; unfold Channels; pose proof (rem_even x Hx); pose proof (Z.rem_le x 2 Hx ltac:(lia)).
  split; [lia|]; replace (x - Z.rem x 2) with (Z.quot x 2 * 2)
    by (pose proof (Z.quot_rem x 2); lia); by apply Z.rem_mul.
Qed.

(** The sample a fade plays at [j]: the buffered tail fading out and, as far
    as it reaches, the incoming track fading in. *)
Definition faded s (incoming : list F) (nIn j : Z) : F :=
  let i := j - Z.rem j Channels in
  let out := f_mul (default f_zero (nthZ (ring s) j)) (gainOut (fadePos s + i) (fadeTotal s)) in
  clamp (if decide (j < nIn)
         then f_add out (f_mul (default f_zero (nthZ incoming j)) (gainIn (fadePos s + i) (fadeTotal s)))
         else out).

Lemma mix_sample_spec s incoming nIn j :
  source_inv s -> 0 < crossfadeSamples s -> 0 <= j < bufLen s -> nIn <= zlen incoming ->
  mix_sample s incoming nIn j = Ret (faded s incoming nIn j).
Proof.
  intros [_ _ Hb Hs Hl _ _] Hpos Hj Hn; unfold mix_sample, faded, ring.
  rewrite nthZ_ring by lia; destruct (decide (0 <= j < bufLen s)) as [_|]; [|lia].
  destruct (index_returns (buf s) (Z.rem (bufStart s + j) (zlen (buf s)))) as (x & -> & ->).
  { apply Z.rem_bound_pos; lia. }
  simpl; case_decide; [|done].
  by destruct (index_returns incoming j) as (y & -> & ->); [lia|].
Qed.

Definition fade_chunk (nIn want : Z) : Z := if decide (0 < nIn) then nIn else want.

Lemma finishFade_inv s : source_inv s -> 0 < crossfadeSamples s -> source_inv (finishFade s).
Proof.
  intros [Hc He Hb Hs Hl _ _] Hpos; unfold lookaheadHeadroom in *.
  split; simpl; auto; try lia; try done.
Qed.

Lemma fade_mix_spec s incoming nIn want :
  source_inv s -> fading s = true ->
  0 <= nIn <= want -> nIn <= zlen incoming -> Z.rem nIn Channels = 0 ->
  0 < want <= fadeTotal s - fadePos s -> Z.rem want Channels = 0 ->
  let chunk := fade_chunk nIn want in
  exists s', fade_mix s incoming nIn want = Ret (s', Got (faded s incoming nIn <$> seqZ 0 chunk) None) /\
    source_inv s' /\ heap s' = heap s /\ slot s' = slot s /\ which s' = which s /\
    crossfadeSamples s' = crossfadeSamples s /\ ring s' = dropZ chunk (ring s) /\
    fading s' = bool_decide (chunk < bufLen s) /\
    (fading s' = true -> fadePos s' = fadePos s + chunk /\ fadeTotal s' = fadeTotal s).
Proof.
  intros Hinv Hf Hn Hin Hne Hw Hwe chunk; pose proof Hinv as [Hc He Hb Hs Hl Heof Hfade].
  destruct (Hfade Hf) as (HE & Hp0 & Hlen); destruct (Heof HE) as (Hpos & Heven & Hpend).
  assert (Hch : 0 < chunk <= bufLen s /\ Z.rem chunk Channels = 0)
    by (unfold chunk, fade_chunk; case_decide; split; auto; lia).
  unfold fade_mix; fold (fade_chunk nIn want); fold chunk.
  rewrite (mapM_run _ (faded s incoming nIn)); cycle 1.
  { intros j Hj%elem_of_seqZ; apply mix_sample_spec; auto; lia. }
  cbn [mbind run_bind].
  assert (Hst : 0 <= Z.rem (bufStart s + chunk) (zlen (buf s)) < zlen (buf s))
    by (apply Z.rem_bound_pos; lia).
  assert (Hring : ring_of (buf s) (Z.rem (bufStart s + chunk) (zlen (buf s))) (bufLen s - chunk) =
                  dropZ chunk (ring s)).
  { apply nthZ_ext; intros j; destruct (decide (0 <= j)); [|by rewrite !nthZ_out by lia].
    rewrite nthZ_dropZ by lia; unfold ring; rewrite !nthZ_ring by lia.
    repeat case_decide; try lia; try done; f_equal; rewrite !rem_wrap.
    all: try (rewrite ?rem_wrap by lia; repeat case_decide; lia). }
  cbv zeta; set (q := set_fade _ _ _ _).
  assert (Hq : source_inv q).
  { split; simpl; auto; try lia.
    - intros _; repeat split; auto; apply rem_sub_even; tauto.
  }
  eexists; split; [reflexivity|]; case_decide as Hd; simpl in Hd.
  - split; [by apply finishFade_inv|]; do 4 (split; [done|]).
    split; [|split; [by simpl; rewrite bool_decide_false by lia | done]].
    rewrite (dropZ_all chunk) by (rewrite (zlen_ring_inv s Hinv); lia); done.
  - split; [done|]; do 4 (split; [done|]); split; [exact Hring|].
    by split; [simpl; rewrite Hf, bool_decide_true by lia|].
Qed.

Lemma set_heap_inv s i a : source_inv s -> source_inv (set_heap s i a).
Proof. by intros []; split. Qed.

Lemma faded_set_heap s i a incoming nIn j :
  faded (set_heap s i a) incoming nIn j = faded s incoming nIn j.
Proof. reflexivity. Qed.

Lemma zlen_fmap_seqZ {X} (f : Z -> X) n : 0 <= n -> zlen (f <$> seqZ 0 n) = n.
Proof. intros; rewrite zlen_fmap; unfold zlen; rewrite length_seqZ; lia. Qed.

Lemma fade_chunk_bounds nIn want :
  0 <= nIn <= want -> 0 < want -> 0 < fade_chunk nIn want <= want.
Proof. intros; unfold fade_chunk; case_decide; lia. Qed.

(** A read during a fade: an aborted fade when there is no room for a frame,
    an error of the incoming track, or a mixed chunk. *)
Lemma readFade_spec s plen :
  source_inv s -> fading s = true -> 0 <= plen ->
  exists s' out err, readFade s plen = Ret (s', Got out err) /\ source_inv s' /\
    crossfadeSamples s' = crossfadeSamples s /\ slot s' = slot s /\ which s' = which s /\
    ((out = [] /\ fading s' = false /\ (plen < Channels \/ bufLen s = 0) /\ err = None) \/
     (out = [] /\ err <> None /\ ring s' = ring s) \/
     (exists incoming nIn,
        err = None /\ 0 < zlen out <= bufLen s /\ nIn <= zlen incoming /\
        out = faded s incoming nIn <$> seqZ 0 (zlen out) /\
        (nIn = 0 \/ nIn = zlen out) /\
        match primary s with
        | Some i => exists n e, as_Read (heap s i) n = (heap s' i, incoming, e)
        | None => incoming = []
        end /\
        ring s' = dropZ (zlen out) (ring s) /\ fading s' = bool_decide (zlen out < bufLen s) /\
        (fading s' = true -> fadePos s' = fadePos s + zlen out /\ fadeTotal s' = fadeTotal s))).
Proof.
  intros Hinv Hf Hp; pose proof Hinv as [Hc He Hb Hs Hl Heof Hfade].
  destruct (Hfade Hf) as (HE & Hp0 & Hlen); destruct (Heof HE) as (Hpos & Heven & Hpend).
  unfold readFade; set (w0 := Z.min (Z.min plen (fadeTotal s - fadePos s)) scratchLen).
  assert (Hw0 : 0 <= w0) by (unfold w0, scratchLen; lia).
  destruct (frames_down w0 Hw0) as [Hw Hwe]; set (want := w0 - Z.rem w0 Channels) in *.
  case_decide as Hd.
  { exists (finishFade s), [], None; do 4 (split; [by auto using finishFade_inv|]).
    split; [done|]; left; repeat split; auto.
    pose proof (rem_even w0 Hw0) as Hr2; change (Z.rem w0 Channels) with (Z.rem w0 2) in *.
    destruct (decide (plen < 2)); [by left|right].
    destruct (decide (bufLen s < 2)).
    2: { assert (2 <= w0) by (unfold w0, scratchLen; lia); unfold want in Hd.
         change (Z.rem w0 Channels) with (Z.rem w0 2) in Hd; lia. }
    destruct (decide (bufLen s = 1)) as [E|]; [rewrite E in Heven; discriminate Heven | lia]. }
  assert (Hwant : want <= fadeTotal s - fadePos s) by (unfold w0 in *; lia).
  destruct (primary s) as [i|] eqn:Hpr; cycle 1.
  { destruct (fade_mix_spec s [] 0 want) as (s' & -> & Hi & _ & Hsl & Hwh & Hcf & Hr & Hfa & Hpo); auto; try lia.
    { apply zlen_nonneg. }
    assert (Hz : zlen (faded s [] 0 <$> seqZ 0 (fade_chunk 0 want)) = fade_chunk 0 want).
    { apply zlen_fmap_seqZ; pose proof (fade_chunk_bounds 0 want); lia. }
    pose proof (fade_chunk_bounds 0 want).
    exists s', (faded s [] 0 <$> seqZ 0 (fade_chunk 0 want)), None.
    do 5 (split; [done|]); right; right; exists [], 0; rewrite Hz.
    split; [done|split; [lia|split; [done|split; [done|split; [by left|done]]]]]. }
  destruct (as_Read (heap s i) want) as [[a out] err] eqn:Hread.
  assert (Hout : zlen out <= want).
  { pose proof (as_Read_len (heap s i) want) as Hx; rewrite Hread in Hx; apply Hx; lia. }
  destruct (frames_down (zlen out) (zlen_nonneg out)) as [Hn Hne].
  set (nIn := zlen out - Z.rem (zlen out) Channels) in *.
  assert (Hmix : exists s' o, fade_mix (set_heap s i a) out nIn want = Ret (s', Got o None) /\
    source_inv s' /\ crossfadeSamples s' = crossfadeSamples s /\ slot s' = slot s /\ which s' = which s /\
    0 < zlen o <= bufLen s /\ o = faded s out nIn <$> seqZ 0 (zlen o) /\ (nIn = 0 \/ nIn = zlen o) /\
    heap s' i = a /\ ring s' = dropZ (zlen o) (ring s) /\ fading s' = bool_decide (zlen o < bufLen s) /\
    (fading s' = true -> fadePos s' = fadePos s + zlen o /\ fadeTotal s' = fadeTotal s)).
  { destruct (fade_mix_spec (set_heap s i a) out nIn want)
      as (s' & -> & Hi & Hh & Hsl & Hwh & Hcf & Hr & Hfa & Hpo); auto using set_heap_inv; try (simpl; lia).
    assert (Hz : zlen (faded s out nIn <$> seqZ 0 (fade_chunk nIn want)) = fade_chunk nIn want).
    { apply zlen_fmap_seqZ; pose proof (fade_chunk_bounds nIn want); lia. }
    exists s', (faded s out nIn <$> seqZ 0 (fade_chunk nIn want)); rewrite Hz.
    do 5 (split; [done|]).
    split; [pose proof (fade_chunk_bounds nIn want); lia|]; split; [done|].
    split; [unfold fade_chunk; destruct (decide (0 < nIn)); [by right | left; lia]|].
    split; [rewrite Hh; simpl; by rewrite decide_True|]; auto. }
  destruct Hmix as (s' & o & Hm & Hi & Hcf & Hsl & Hwh & Hz & Ho & Hnz & Hh & Hr & Hfa & Hpo).
  destruct err as [e|]; [destruct (errors_Is e io_EOF) eqn:HisEOF|].
  2: { exists (set_heap s i a), [], (Some e); do 5 (split; [by auto using set_heap_inv|]).
       right; left; repeat split; auto. }
  all: exists s', o, None; do 5 (split; [done|]); right; right; exists out, nIn;
    (split; [done|split; [done|split; [lia|split; [done|split; [done|split; [|done]]]]]]);
    rewrite Hh; eauto.
Qed.
End props.
