(* ===== verification/SourceClaims.v ===== *)
(** * The switching audio source: what it promises

    Every sequence of operations is safe; a track plays out in full; a fade is
    the pointwise mix of the two tracks; a source that tears a frame and fails
    is never reported. *)

From S2P Require Import Prelude Source SourceProps.
#[local] Open Scope list_scope.
#[local] Open Scope Z_scope.

Section reading.
Context {A F : Type} `{AudioSourceLaws A F} `{Float F}.
Implicit Types s : SwitchingAudioSource A F.

Lemma reportDone_inv s : source_inv s -> source_inv (reportDone s).
Proof. unfold reportDone; destruct (eofReported s); [done|]; by intros []; split. Qed.

Lemma reportDone_same s :
  ring (reportDone s) = ring s /\ fading (reportDone s) = fading s /\ heap (reportDone s) = heap s /\
  slot (reportDone s) = slot s /\ which (reportDone s) = which s /\ bufLen (reportDone s) = bufLen s /\
  primaryEOF (reportDone s) = primaryEOF s /\ crossfadeSamples (reportDone s) = crossfadeSamples s.
Proof. unfold reportDone; by destruct (eofReported s). Qed.

Lemma pop_ok s plen limit :
  source_inv s -> fading s = false -> 0 < crossfadeSamples s -> 0 <= plen -> 0 <= limit ->
  exists s' out, popChunk s plen limit = Ret (s', out) /\ source_inv s' /\ same_tracks s s' /\
    heap s' = heap s /\ primaryEOF s' = primaryEOF s /\ out ++ ring s' = ring s /\
    Z.rem (zlen out) Channels = 0.
Proof.
  intros Hi Hf Hpos Hp Hlim; destruct (popChunk_spec s plen limit Hi Hpos Hp Hlim) as (st & -> & Hst & Hr).
  pose proof (pop_count_bounds s plen limit Hp Hlim ltac:(apply (si_len s Hi))) as [Hk Hke].
  eexists _, _; split; [reflexivity|].
  split; [apply pop_inv; auto; lia|]; split; [by split|]; do 2 (split; [done|]); split.
  - change (ring (set_ring _ _ _ _)) with (ring_of (buf s) st (bufLen s - pop_count s plen limit)).
    by rewrite Hr, takeZ_dropZ.
  - rewrite zlen_takeZ, (zlen_ring_inv s Hi), Z.min_l, Z.max_r by lia; done.
Qed.

Lemma serve_ok s plen limit :
  source_inv s -> fading s = false -> 0 < crossfadeSamples s -> 0 <= plen -> 0 <= limit ->
  exists s' out, serve s plen limit = Ret (s', Got out None) /\ source_inv s' /\ same_tracks s s' /\
    heap s' = heap s /\ primaryEOF s' = primaryEOF s /\ out ++ ring s' = ring s /\
    Z.rem (zlen out) Channels = 0.
Proof.
  intros; unfold serve; destruct (pop_ok s plen limit) as (s' & out & -> & ?); auto.
  by exists s', out.
Qed.

(** The read after a refill, with no next track to fade into. *)
Lemma after_refill_last s plen :
  source_inv s -> fading s = false -> 0 < crossfadeSamples s -> 0 <= plen -> secondary s = None ->
  exists s' out err, after_refill s plen = Ret (s', Got out err) /\ source_inv s' /\
    heap s' = heap s /\ slot s' = slot s /\ which s' = which s /\ fading s' = false /\
    crossfadeSamples s' = crossfadeSamples s /\
    (primaryEOF s = true -> primaryEOF s' = true) /\
    out ++ ring s' = ring s /\ Z.rem (zlen out) Channels = 0 /\ (err <> None -> ring s' = []).
Proof.
  intros Hi Hf Hpos Hp Hsec; unfold after_refill; rewrite Hsec; pose proof (si_len s Hi) as Hl.
  assert (Hserve : forall limit, 0 <= limit ->
    exists s' out err, serve s plen limit = Ret (s', Got out err) /\ source_inv s' /\
    heap s' = heap s /\ slot s' = slot s /\ which s' = which s /\ fading s' = false /\
    crossfadeSamples s' = crossfadeSamples s /\
    (primaryEOF s = true -> primaryEOF s' = true) /\
    out ++ ring s' = ring s /\ Z.rem (zlen out) Channels = 0 /\ (err <> None -> ring s' = [])).
  { intros limit Hlim; destruct (serve_ok s plen limit Hi Hf Hpos Hp Hlim)
      as (s' & out & -> & Hi' & [E1 E2 E3 _ _ E6 E7] & Hh & He & Hr & Hz).
    exists s', out, None; unfold slot; rewrite E1, E2, E3, E6, E7, He; split_and!; auto; try done; by intros []. }
  destruct (negb (primaryEOF s) && bool_decide (pendingErr s = None)) eqn:E1.
  { apply Hserve; case_decide; lia. }
  destruct (negb (bool_decide (pendingErr s = None)) && negb (primaryEOF s)) eqn:E2.
  { case_decide as Hd; [apply Hserve; lia|].
    eexists _, [], _; split; [reflexivity|]; cbn [app].
    apply andb_true_iff in E2 as [_ E2%negb_true_iff].
    split; [|split_and!; auto; try congruence].
    - destruct Hi; split; simpl; auto; congruence.
    - intros _; apply zlen_0; change (ring (set_end s (primaryEOF s) None)) with (ring s).
      rewrite (zlen_ring_inv s Hi); lia. }
  destruct (reportDone_same s) as (R1 & R2 & R3 & R4 & R5 & R6 & R7 & R8).
  case_decide as Hd.
  { eexists _, [], _; split; [reflexivity|]; rewrite R1, R2, R3, R4, R5, R7, R8.
    split; [by apply reportDone_inv|]; split_and!; auto.
    intros _; apply zlen_0; rewrite (zlen_ring_inv s Hi); lia. }
  destruct (pop_ok s plen (bufLen s) Hi Hf Hpos Hp ltac:(lia))
    as (s' & out & -> & Hi' & [S1 S2 S3 _ _ S6 S7] & Hh & He & Hr & Hz); simpl.
  destruct (reportDone_same s') as (R1' & R2' & R3' & R4' & R5' & R6' & R7' & R8').
  case_decide as Hd'.
  - eexists _, out, _; split; [reflexivity|]; rewrite R1', R2', R3', R4', R5', R7', R8'.
    unfold slot; rewrite S1, S2, S3, S6, S7, He.
    split; [by apply reportDone_inv|]; split_and!; auto.
    intros _; apply zlen_0; etrans; [exact (zlen_ring_inv s' Hi') | exact Hd'].
  - exists s', out, None; unfold slot; rewrite S1, S2, S3, S6, S7, He; split_and!; auto; try done; by intros [].
Qed.

(** One read of a track with nothing to follow it: what comes out and what is
    still held is what was held and what the track delivered, but for one
    torn sample at its very end. *)
Lemma Read_last s plen i :
  source_inv s -> fading s = false -> 0 < crossfadeSamples s -> 0 <= plen ->
  primary s = Some i -> secondary s = None ->
  exists s' out err xs torn, Read s plen = Ret (s', Got out err) /\ source_inv s' /\
    fading s' = false /\ crossfadeSamples s' = crossfadeSamples s /\
    primary s' = Some i /\ secondary s' = None /\
    (primaryEOF s = true -> primaryEOF s' = true /\ xs = [] /\ torn = []) /\
    (torn <> [] -> primaryEOF s' = true) /\ zlen torn <= 1 /\ reads (heap s i) xs (heap s' i) /\
    out ++ ring s' ++ torn = ring s ++ xs /\ (err <> None -> ring s' = []).
Proof.
  intros Hi Hf Hpos Hp Hpr Hsec; unfold Read; rewrite bool_decide_false by lia; simpl.
  destruct (primaryDeclinesCrossfade s) eqn:Hdec.
  - unfold primaryDeclinesCrossfade in Hdec; rewrite Hf in Hdec; simpl in Hdec.
    case_bool_decide as Hb; [done|]; simpl in Hdec; destruct (primaryEOF s) eqn:HE; [done|].
    assert (Hr0 : ring s = []).
    { apply zlen_0; rewrite (zlen_ring_inv s Hi); pose proof (si_len s Hi); lia. }
    unfold readDirect; rewrite Hpr; destruct (as_Read (heap s i) plen) as [[a out] err] eqn:Hread.
    set (s1 := set_heap s i a).
    assert (Hi1 : source_inv s1) by (by apply set_heap_inv).
    destruct (reportDone_same s1) as (R1 & R2 & R3 & R4 & R5 & R6 & R7 & R8).
    assert (Hrd : reads (heap s i) out (heap s1 i)).
    { unfold s1; simpl; rewrite decide_True by done.
      rewrite <- (app_nil_r out); econstructor; [done|constructor]. }
    destruct (opt_Is err io_EOF).
    + assert (secondary (reportDone s1) = None) as ->
        by (unfold secondary; rewrite R4, R5; done).
      exists (reportDone s1), out, err, out, []; unfold primary, secondary.
      rewrite R1, R2, R3, R4, R5, R8, app_nil_r.
      change (ring s1) with (ring s); rewrite Hr0, app_nil_r.
      split_and!; auto; try done; by apply reportDone_inv.
    + exists s1, out, err, out, []; rewrite app_nil_r.
      change (ring s1) with (ring s); rewrite Hr0, app_nil_r; split_and!; auto; done.
  - unfold readCrossfade; rewrite Hf, Hpr; simpl.
    destruct (refill_spec s i Hi Hf Hpos Hpr)
      as (s1 & -> & Hi1 & Hst & Hho & _ & xs & torn & Hrd & Hring & Hz & Ht & Hsame); simpl.
    assert (Hf1 : fading s1 = false) by (destruct Hst; congruence).
    destruct (after_refill_last s1 plen Hi1 Hf1)
      as (s' & out & err & -> & Hi' & Hh & Hsl & Hw & Hf' & Hcf & He & Hr & _ & Herr); auto.
    { destruct Hst as [_ _ _ _ _ Hcf1 _]; lia. }
    { by rewrite (same_tracks_secondary s s1 Hst). }
    exists s', out, err, xs, torn; split; [done|split; [done|split; [done|]]].
    split; [destruct Hst; congruence|].
    split; [unfold primary; rewrite Hsl, Hw; rewrite <- Hpr; by apply same_tracks_primary|].
    split; [unfold secondary; rewrite Hsl, Hw; rewrite <- Hsec; by apply same_tracks_secondary|].
    split.
    { intros HE; destruct Hsame as (-> & ? & ?); auto. }
    split; [|split; [done|split; [by rewrite Hh|split; [|done]]]].
    { intros Hne; apply He, Ht, Hne. }
    by rewrite app_assoc, Hr, Hring.
Qed.

(** ** Every operation keeps the invariant and comes back *)
Lemma promote_inv s :
  source_inv s -> primaryEOF s = true ->
  source_inv (set_fade (set_which (set_slot (reportDone s) (which (reportDone s)) None)
                          (negb (which (reportDone s)))) true (bufLen s) 0).
Proof.
  intros Hi HE; apply reportDone_inv in Hi.
  destruct (reportDone_same s) as (_ & _ & _ & _ & _ & R6 & R7 & _).
  destruct Hi as [? ? ? ? ? He _]; split; simpl; auto; rewrite R7; intros _; split_and!; auto; lia.
Qed.

Lemma after_refill_ok s plen :
  source_inv s -> fading s = false -> 0 < crossfadeSamples s -> 0 <= plen ->
  exists s' o, after_refill s plen = Ret (s', o) /\ source_inv s' /\
    crossfadeSamples s' = crossfadeSamples s.
Proof.
  intros Hi Hf Hpos Hp; destruct (secondary s) as [k|] eqn:Hsec; cycle 1.
  { destruct (after_refill_last s plen) as (s' & out & err & ? & ? & _ & _ & _ & _ & ? & _); eauto. }
  assert (Hserve : forall limit, 0 <= limit -> exists s' o, serve s plen limit = Ret (s', o) /\
    source_inv s' /\ crossfadeSamples s' = crossfadeSamples s).
  { intros limit Hlim; destruct (serve_ok s plen limit) as (s' & out & -> & ? & [] & _); eauto. }
  pose proof (si_len s Hi); unfold after_refill; rewrite Hsec.
  destruct (primaryEOF s) eqn:HE; simpl; [rewrite andb_false_r|].
  - case_decide; [apply Hserve; lia|].
    destruct (reportDone_same s) as (_ & _ & _ & _ & _ & R6 & _ & R8); cbv zeta; simpl bufLen.
    rewrite R6; destruct (readFade_spec _ plen (promote_inv s Hi HE) eq_refl Hp)
      as (s' & out & err & -> & Hi' & Hcf & _); eexists _, _; split_and!; [done..|].
    rewrite Hcf; simpl; exact R8.
  - case_bool_decide as Hpe; simpl; [apply Hserve; case_decide; lia|].
    case_decide; [apply Hserve; lia|]; eexists _, _; split; [reflexivity|]; split; [|done].
    destruct Hi; split; simpl; auto; congruence.
Qed.

Lemma readDirect_inv s plen :
  source_inv s -> fading s = false -> source_inv (readDirect s plen).1 /\
  crossfadeSamples (readDirect s plen).1 = crossfadeSamples s.
Proof.
  intros Hi Hf; unfold readDirect; destruct (primary s) as [i|]; [|done].
  destruct (as_Read (heap s i) plen) as [[a out] err]; set (s1 := set_heap s i a).
  assert (Hi1 : source_inv (reportDone s1)) by (by apply reportDone_inv, set_heap_inv).
  destruct (reportDone_same s1) as (_ & _ & _ & _ & _ & _ & _ & R8).
  destruct (opt_Is err io_EOF); [destruct (secondary (reportDone s1))|]; simpl; split; auto.
  - destruct Hi1; by split.
  - by apply set_heap_inv.
Qed.

Lemma Read_ok s plen :
  source_inv s -> 0 <= plen ->
  exists s' o, Read s plen = Ret (s', o) /\ source_inv s' /\ crossfadeSamples s' = crossfadeSamples s.
Proof.
  intros Hi Hp; unfold Read; pose proof (si_cf s Hi); pose proof (si_buf s Hi); pose proof (si_len s Hi).
  destruct (fading s) eqn:Hf.
  - destruct (si_eof s Hi) as [Hpos _]; [by apply (si_fade s Hi)|].
    unfold primaryDeclinesCrossfade; rewrite bool_decide_false, Hf by lia; simpl.
    unfold readCrossfade; rewrite Hf.
    destruct (readFade_spec s plen Hi Hf Hp) as (s' & out & err & -> & ? & ? & _); eauto.
  - destruct (bool_decide (crossfadeSamples s = 0) || primaryDeclinesCrossfade s) eqn:Hdir.
    + destruct (readDirect s plen) as [s' o] eqn:E.
      pose proof (readDirect_inv s plen Hi Hf) as [Hi' Hc']; rewrite E in *; eauto.
    + apply orb_false_iff in Hdir as [Hcf%bool_decide_eq_false _].
      unfold readCrossfade; rewrite Hf; destruct (primary s) as [i|] eqn:Hpr; simpl.
      * destruct (refill_spec s i Hi Hf ltac:(lia) Hpr) as (s1 & -> & Hi1 & [? ? ? ? ? Hc1 Hf1] & _); simpl.
        destruct (after_refill_ok s1 plen) as (s' & o & -> & ? & ?); auto; try lia.
        exists s', o; split_and!; auto; congruence.
      * destruct (primaryEOF s) eqn:HE; simpl; [case_bool_decide; simpl|]; eauto.
        unfold refill; rewrite refill_loop_stop by (by left); simpl; apply after_refill_ok; auto; lia.
Qed.

Lemma resetCrossfade_inv s : source_inv s -> source_inv (resetCrossfade s).
Proof.
  intros Hi; unfold resetCrossfade; pose proof (si_cf s Hi).
  case_decide; [done|]; apply finishFade_inv; [|simpl; lia].
  destruct Hi as [? ? ? ? ? He ?]; split; simpl; auto.
  intros E; destruct (He E) as (? & ? & _); auto.
Qed.

Lemma set_slot_inv s b o : source_inv s -> source_inv (set_slot s b o).
Proof. by intros []; split. Qed.
Lemma set_eof_inv s d r : source_inv s -> source_inv (set_eof s d r).
Proof. by intros []; split. Qed.

Lemma SetPrimary_inv s i : source_inv s -> source_inv (SetPrimary s i).
Proof.
  intros Hi; unfold SetPrimary; cbv zeta; apply set_eof_inv.
  set (s1 := if decide (primary s = Some i) then s else _).
  assert (Hi1 : source_inv s1).
  { unfold s1; destruct (decide (primary s = Some i)); auto using set_slot_inv, resetCrossfade_inv. }
  destruct (decide (secondary s1 = Some i)); auto using set_slot_inv.
Qed.

Lemma SetPositionMs_inv s pos : source_inv s -> source_inv (SetPositionMs s pos).1.
Proof.
  intros Hi; unfold SetPositionMs; destruct (primary s) as [i|]; [|done].
  destruct (as_SetPositionMs (heap (resetCrossfade s) i) pos) as [a err].
  destruct err; simpl; [|case_decide]; auto using set_eof_inv, set_heap_inv, resetCrossfade_inv.
Qed.

Inductive source_op :=
| OpRead (plen : Z)
| OpSetPrimary (i : nat)
| OpSetSecondary (o : option nat)
| OpSeek (pos : Z).

Fixpoint exec_source s (ops : list source_op) : run (SwitchingAudioSource A F) :=
  match ops with
  | [] => Ret s
  | OpRead n :: ops => '(s', _) ← Read s n; exec_source s' ops
  | OpSetPrimary i :: ops => exec_source (SetPrimary s i) ops
  | OpSetSecondary o :: ops => exec_source (SetSecondary s o) ops
  | OpSeek pos :: ops => exec_source (SetPositionMs s pos).1 ops
  end.

Lemma exec_source_ok s ops :
  source_inv s -> Forall (fun op => forall n, op = OpRead n -> 0 <= n) ops ->
  exists s', exec_source s ops = Ret s' /\ source_inv s'.
Proof.
  intros Hi Hops; revert s Hi; induction Hops as [|op ops Hop _ IH]; intros s Hi; simpl; [eauto|].
  destruct op as [plen|i|o|pos]; [|by apply IH, SetPrimary_inv|by apply IH, set_slot_inv|by apply IH, SetPositionMs_inv].
  destruct (Read_ok s plen Hi (Hop _ eq_refl)) as (s' & o & -> & ? & _); simpl; auto.
Qed.

Lemma NewSwitchingAudioSource_inv (h : nat -> A) c : source_inv (NewSwitchingAudioSource h c).
Proof.
  unfold NewSwitchingAudioSource; cbv zeta.
  set (c0 := if decide (c < 0) then 0 else c); assert (Hc0 : 0 <= c0) by (unfold c0; case_decide; lia).
  destruct (frames_down c0 Hc0) as [Hb He]; set (k := c0 - Z.rem c0 Channels) in *.
  assert (Hlen : zlen (if decide (0 < k) then replicate (Z.to_nat (k + lookaheadHeadroom)) (f_zero : F) else [])
                 = if decide (0 < k) then k + lookaheadHeadroom else 0).
  { case_decide; [rewrite zlen_replicate; unfold lookaheadHeadroom; lia | done]. }
  split; simpl; rewrite ?Hlen; auto; try done; try lia; unfold lookaheadHeadroom;
    repeat case_decide; lia.
Qed.

(** A track played with reads of the given sizes, up to the first error. *)
Fixpoint play s (plens : list Z) : run (SwitchingAudioSource A F * list F * option error) :=
  match plens with
  | [] => Ret (s, [], None)
  | n :: plens =>
    '(s1, o) ← Read s n;
    match o with
    | Got out None => '(s2, outs, e) ← play s1 plens; Ret (s2, out ++ outs, e)
    | Got out (Some e) => Ret (s1, out, Some e)
    | Blocked => Ret (s1, [], None)
    end
  end.

Lemma play_spec plens s i :
  source_inv s -> fading s = false -> 0 < crossfadeSamples s -> Forall (Z.le 0) plens ->
  primary s = Some i -> secondary s = None ->
  exists s' outs err xs torn, play s plens = Ret (s', outs, err) /\
    (primaryEOF s = true -> xs = [] /\ torn = []) /\ zlen torn <= 1 /\
    reads (heap s i) xs (heap s' i) /\ outs ++ ring s' ++ torn = ring s ++ xs /\
    (err <> None -> ring s' = []).
Proof.
  intros Hi Hf Hpos Hns; revert s Hi Hf Hpos; induction Hns as [|n ns Hn _ IH];
    intros s Hi Hf Hpos Hpr Hsec; simpl.
  { exists s, [], None, [], []; rewrite !app_nil_r; split_and!; try done; constructor. }
  destruct (Read_last s n i) as (s1 & out & err & xs & torn & -> & Hi1 & Hf1 & Hc1 & Hp1 & Hs1 &
    HE & Ht & Hz & Hr & Hring & Herr); auto; simpl.
  destruct err as [e|].
  { exists s1, out, (Some e), xs, torn; split_and!; auto; naive_solver. }
  destruct (IH s1) as (s2 & outs & err2 & xs2 & torn2 & -> & HE2 & Hz2 & Hr2 & Hring2 & Herr2); auto; [lia|].
  simpl; destruct (decide (torn = [])) as [->|Hne].
  - exists s2, (out ++ outs), err2, (xs ++ xs2), torn2; split_and!; auto.
    + intros E; destruct (HE E) as (E1 & -> & _); destruct (HE2 E1) as [-> ->]; done.
    + by eapply reads_app.
    + rewrite app_nil_r in Hring.
      by rewrite <- app_assoc, Hring2, app_assoc, Hring, app_assoc.
  - destruct (HE2 (Ht Hne)) as [-> ->]; rewrite !app_nil_r in Hring2.
    exists s2, (out ++ outs), err2, (xs ++ []), torn; split_and!; auto.
    + intros E; destruct (HE E) as (_ & -> & ->); done.
    + by eapply reads_app.
    + by rewrite app_nil_r, <- app_assoc, (app_assoc outs), Hring2.
Qed.
End reading.

(** ** A scripted source, for concrete runs *)
Definition script := list (list Z * option error).

#[export] Instance script_source : AudioSource script Z := {
  as_Read a n :=
    match a with
    | [] => ([], [], Some io_EOF)
    | (out, e) :: rest =>
      if bool_decide (zlen out <= n) && (bool_decide (0 < zlen out) || negb (bool_decide (e = None)))
      then (rest, out, e) else ([], [], Some io_EOF)
    end;
  as_SetPositionMs a _ := (a, None);
  as_PositionMs a := 0;
  as_NoCrossfade a := false
}.

#[export] Instance script_laws : AudioSourceLaws script Z.
Proof.
  split.
  - intros [|[out e] a] n Hn; simpl; [zlen|].
    case_bool_decide; simpl; [case_match; simpl; zlen | zlen].
  - intros [|[out e] a] n Hn; simpl; [done|].
    repeat (case_bool_decide; simpl); try done; naive_solver.
Defined.

(** Integer gains: the tail weighs what is left of the fade, the head what is past. *)
#[export] Instance int_float : Float Z := {
  f_zero := 0; f_mul := Z.mul; f_add := Z.add; f_lt := Z.ltb;
  gainOut pos total := total - pos; gainIn pos total := pos;
  maxSampleValue := 32767; minusOne := -32768
}.

#[export] Instance int_float_laws : FloatLaws Z.
Proof. split; [apply Z.ltb_irrefl | reflexivity]. Defined.

Definition demo_sources (i : nat) : script :=
  match i with
  | O => [([1; 2; 3; 4], None); ([5; 6], None)]
  | S O => [([10; 20], None); ([30; 40], None)]
  | _ => [([7; 8; 9], Some net_ErrClosed)]
  end.

Definition demo_source (i : nat) : SwitchingAudioSource script Z :=
  SetPrimary (NewSwitchingAudioSource demo_sources 5) i.

(** Playback never crashes or hangs on its own: any sequence of reads,
    primary and secondary changes and seeks, in any order and whatever the
    crossfade length, comes back without a panic, every loop of it terminating,
    with the ring's indices in range, the fade's counters consistent with what
    is buffered, and whole frames buffered once a track has ended. *)
Theorem source_operations_safe {A F} `{AudioSourceLaws A F} `{Float F}
    (h : nat -> A) (crossfade : Z) (ops : list source_op) :
  Forall (fun op => forall n, op = OpRead n -> 0 <= n) ops ->
  exists s, exec_source (NewSwitchingAudioSource h crossfade) ops = Ret s /\ source_inv s.
Proof. intros; apply exec_source_ok; auto using NewSwitchingAudioSource_inv. Qed.

Lemma source_operations_safe_witness :
  exists s, exec_source (NewSwitchingAudioSource demo_sources 4)
    [OpSetPrimary 0; OpSetSecondary (Some 1%nat); OpRead 4; OpRead 4; OpSeek 0; OpRead 4] = Ret s /\ source_inv s.
Proof.
  apply (source_operations_safe demo_sources 4
    [OpSetPrimary 0; OpSetSecondary (Some 1%nat); OpRead 4; OpRead 4; OpSeek 0; OpRead 4]).
  repeat constructor; intros n [= <-]; lia.
Defined.

(** C4: A track plays out in full and in order.  With nothing queued behind it,
    the samples a listener gets over any run of reads, followed by those still
    held, are exactly those the track delivered, in order, but for at most one
    sample of a torn final frame; and no read reports an error (or the end)
    while samples are still held. *)
Theorem track_plays_in_full {A F} `{AudioSourceLaws A F} `{Float F}
    (s : SwitchingAudioSource A F) (i : nat) (plens : list Z) :
  source_inv s -> fading s = false -> 0 < crossfadeSamples s -> Forall (Z.le 0) plens ->
  primary s = Some i -> secondary s = None -> bufLen s = 0 ->
  exists s' outs err xs torn, play s plens = Ret (s', outs, err) /\
    reads (heap s i) xs (heap s' i) /\ outs ++ ring s' ++ torn = xs /\ zlen torn <= 1 /\
    (err <> None -> ring s' = []).
Proof.
  intros Hi Hf Hpos Hns Hpr Hsec Hb.
  destruct (play_spec plens s i Hi Hf Hpos Hns Hpr Hsec)
    as (s' & outs & err & xs & torn & Hrun & _ & Hz & Hr & Hring & Herr).
  assert (ring s = []) as Hr0 by (apply zlen_0; rewrite (zlen_ring_inv s Hi); lia).
  rewrite Hr0 in Hring; exists s', outs, err, xs, torn; auto.
Qed.

Lemma track_plays_in_full_witness :
  exists s' outs err xs torn, play (demo_source 0) [4; 4; 4] = Ret (s', outs, err) /\
    reads (heap (demo_source 0) 0) xs (heap s' 0) /\ outs ++ ring s' ++ torn = xs /\ zlen torn <= 1 /\
    (err <> None -> ring s' = []).
Proof.
  apply (track_plays_in_full (demo_source 0) 0 [4; 4; 4]);
    [apply SetPrimary_inv, NewSwitchingAudioSource_inv | reflexivity | reflexivity
    | repeat constructor; lia | reflexivity | reflexivity | reflexivity].
Defined.

(** A crossfade is the mix of the two tracks.  A read of at least a frame
    while a tail is fading gives either the incoming track's error, with the
    tail kept, or a nonempty chunk in which every sample is the buffered tail
    under its gain plus, as far as one read of the incoming track reached, the
    incoming sample under its own, clamped into [-1, maxSampleValue]; exactly
    that much of the tail is consumed, and the fade ends when it is used up. *)
Theorem crossfade_mixes_tail {A F} `{AudioSourceLaws A F} `{FloatLaws F}
    (s : SwitchingAudioSource A F) (plen : Z) :
  source_inv s -> fading s = true -> 2 <= plen -> 0 < bufLen s ->
  exists s' out err, Read s plen = Ret (s', Got out err) /\
    (forall x, x ∈ out -> f_lt maxSampleValue x = false /\ f_lt x minusOne = false) /\
    ((out = [] /\ err <> None /\ ring s' = ring s) \/
     exists incoming nIn, err = None /\ 0 < zlen out /\ (nIn = 0 \/ nIn = zlen out) /\ nIn <= zlen incoming /\
       match primary s with
       | Some i => exists n e, as_Read (heap s i) n = (heap s' i, incoming, e)
       | None => incoming = []
       end /\
       out = faded s incoming nIn <$> seqZ 0 (zlen out) /\
       ring s' = dropZ (zlen out) (ring s) /\ fading s' = bool_decide (zlen out < bufLen s)).
Proof.
  intros Hi Hf Hp Hb; destruct (si_eof s Hi) as [Hpos _]; [by apply (si_fade s Hi)|].
  unfold Read, primaryDeclinesCrossfade, readCrossfade; rewrite bool_decide_false, Hf by lia; simpl.
  destruct (readFade_spec s plen Hi Hf ltac:(lia)) as (s' & out & err & -> & _ & _ & _ & _ & Hcases).
  exists s', out, err; split; [done|]; split.
  - destruct Hcases as [(-> & _)|[(-> & _)|(inc & nIn & _ & _ & _ & -> & _)]]; intros x Hx;
      try (by apply not_elem_of_nil in Hx).
    apply list_elem_of_fmap in Hx as (j & -> & _); unfold faded, clamp.
    repeat (case_match; try done); auto using f_lt_irrefl, f_bounds.
  - destruct Hcases as [(_ & _ & [Hx|Hx] & _)|[?|(inc & nIn & ? & ? & ? & ? & ? & ? & ? & ? & _)]];
      [unfold Channels in Hx; lia | lia | by left | right].
    exists inc, nIn; split_and!; auto; lia.
Qed.

(** The first track's tail of four samples, fading under the second track. *)
Definition demo_fading : SwitchingAudioSource script Z :=
  set_fade (set_end (set_ring (SetPrimary (NewSwitchingAudioSource demo_sources 5) 1)
    (write_at (buf (NewSwitchingAudioSource demo_sources 5)) 0 [1; 2; 3; 4]) 0 4) true None) true 4 0.

Lemma demo_fading_inv : source_inv demo_fading.
Proof.
  split; try (vm_compute; repeat split; (discriminate || reflexivity)).
  all: unfold demo_fading; simpl; try done; lia.
Qed.

Lemma crossfade_mixes_tail_witness :
  exists s' out err, Read demo_fading 4 = Ret (s', Got out err) /\
    (forall x, x ∈ out -> f_lt maxSampleValue x = false /\ f_lt x minusOne = false).
Proof.
  destruct (crossfade_mixes_tail demo_fading 4 demo_fading_inv eq_refl ltac:(lia) ltac:(reflexivity))
    as (s' & out & err & H1 & H2 & _).
  exists s', out, err; split; assumption.
Defined.

(** Without crossfade the switch is gapless: when the current track ends
    and another is prefetched, the same read gives the ended track's last
    samples without an error, reports the end once, and leaves the prefetched
    track as the primary with its own samples untouched; with nothing
    prefetched the end is passed on. *)
Theorem gapless_switch {A F} `{AudioSource A F} `{Float F}
    (s : SwitchingAudioSource A F) (plen : Z) (i : nat) (a : A) (out : list F) (e : error) :
  crossfadeSamples s = 0 -> primary s = Some i ->
  as_Read (heap s i) plen = (a, out, Some e) -> errors_Is e io_EOF = true ->
  exists s', Read s plen = Ret (s', Got out (match secondary s with Some _ => None | None => Some e end)) /\
    eofReported s' = true /\ (eofReported s = false -> done s' = true) /\
    match secondary s with
    | Some k => primary s' = Some k /\ secondary s' = None /\ (k <> i -> heap s' k = heap s k)
    | None => primary s' = Some i
    end.
Proof.
  intros Hcf Hpr Hread Heof; unfold Read; rewrite bool_decide_true by done; simpl.
  unfold readDirect; rewrite Hpr, Hread; simpl; rewrite Heof.
  set (s1 := set_heap s i a); destruct (reportDone_same s1) as (_ & _ & R3 & R4 & R5 & _ & _ & _).
  assert (Hrep : eofReported (reportDone s1) = true /\ (eofReported s = false -> done (reportDone s1) = true)).
  { unfold reportDone; change (eofReported s1) with (eofReported s).
    destruct (eofReported s) eqn:E; done. }
  assert (secondary (reportDone s1) = secondary s) as -> by (unfold secondary; by rewrite R4, R5).
  destruct (secondary s) as [k|] eqn:Hsec.
  - eexists; split; [reflexivity|]; split; [apply Hrep|split; [apply Hrep|]].
    assert (Hk : slot (reportDone s1) (negb (which (reportDone s1))) = Some k) by (by rewrite R4, R5).
    unfold primary, secondary, slot in *; simpl in *; rewrite R3.
    destruct (which (reportDone s1)); simpl in *; split_and!; auto;
      intros Hne; unfold s1; simpl; by rewrite decide_False.
  - eexists; split; [reflexivity|]; split; [apply Hrep|split; [apply Hrep|]].
    unfold primary; by rewrite R4, R5.
Qed.

Lemma gapless_switch_witness :
  let s := SetSecondary (SetPrimary (NewSwitchingAudioSource (fun i => match i with O => [] | _ => demo_sources i end) 0) 0) (Some 1%nat) in
  exists s', Read s 8 = Ret (s', Got [] None) /\ primary s' = Some 1%nat.
Proof.
  cbv zeta.
  destruct (gapless_switch (SetSecondary (SetPrimary (NewSwitchingAudioSource
      (fun i => match i with O => [] | _ => demo_sources i end) 0) 0) (Some 1%nat)) 8 0 [] [] io_EOF)
    as (s' & H1 & _ & _ & H2 & _); [reflexivity..|].
  exists s'; split; [exact H1 | exact H2].
Defined.

(** A failing source that tears a frame silences playback for good: once
    the error is pending and a single sample is left, every read of any length
    returns no samples and no error and changes nothing, so the error is never
    reported. *)
Theorem torn_error_never_reported {A F} `{AudioSource A F} `{Float F}
    (s : SwitchingAudioSource A F) (plen : Z) (i : nat) (e : error) :
  0 < crossfadeSamples s -> fading s = false -> primaryEOF s = false ->
  pendingErr s = Some e -> bufLen s = 1 -> primary s = Some i -> 0 <= plen ->
  Read s plen = Ret (s, Got [] None).
Proof.
  intros Hpos Hf HE Hpe Hb Hpr Hp; unfold Read, primaryDeclinesCrossfade, readCrossfade.
  rewrite bool_decide_false, Hf, Hb by lia; simpl; rewrite Hpr; simpl.
  unfold refill; rewrite refill_loop_stop by (right; by rewrite Hpe); simpl.
  unfold after_refill, serve, popChunk; rewrite HE, Hpe, Hb; simpl.
  assert (Hw : Z.min (Z.min plen 1) 1 - Z.rem (Z.min (Z.min plen 1) 1) Channels = 0).
  { destruct (decide (plen = 0)) as [->|]; [done|].
    assert (Z.min (Z.min plen 1) 1 = 1) as -> by lia; done. }
  rewrite Hw; reflexivity.
Qed.

(** The state one read of the third demonstration track leads to. *)
Lemma torn_error_never_reported_witness :
  exists s, exec_source (demo_source 2) [OpRead 2] = Ret s /\ pendingErr s = Some net_ErrClosed /\
    Read s 1024 = Ret (s, Got [] None).
Proof.
  eexists; split; [vm_compute; reflexivity|]; split; [reflexivity|].
  apply (torn_error_never_reported _ 1024 2 net_ErrClosed);
    first [reflexivity | lia].
Defined.
