(* ===== verification/Narration.v ===== *)
(** * Narration around a track ([src/player/narration.go], [src/daemon/narration.go])

    A DJ context has a voice talk before and after a track.  [NarratedSource]
    plays the clips and the track one after the other and is itself an
    [AudioSource], so that everything proved of the switching source in
    [SourceClaims] holds with narrated tracks in its slots. *)

From Stdlib Require Import String.
From stdpp Require Import gmap.
From S2P Require Import Prelude Ids Source SourceProps.
#[local] Open Scope string_scope.
#[local] Open Scope list_scope.
#[local] Open Scope Z_scope.

(** ** The source *)
Section narrated.
Context {A F : Type} `{AudioSource A F}.

(** [parts] are played in order; [main] is the index of the track. *)
Record NarratedSource := MkNarrated { parts : list A; main : nat; cur : nat }.

Implicit Types s : NarratedSource.

Definition NewNarratedSource (intro : option A) (track : A) (outro : option A) : NarratedSource :=
  let before := option_list intro in
  MkNarrated (before ++ [track] ++ option_list outro) (length before) 0.

Definition set_part s (i : nat) (a : A) : NarratedSource := MkNarrated (<[i := a]> (parts s)) (main s) (cur s).
Definition next_part s : NarratedSource := MkNarrated (parts s) (main s) (S (cur s)).

(** The loop of [Read]: at most one round for each part left. *)
Fixpoint read_parts (rounds : nat) s (plen : Z) : NarratedSource * list F * option error :=
  match rounds with
  | O => (s, [], Some io_EOF)
  | S rounds =>
    match parts s !! cur s with
    | None => (s, [], Some io_EOF)
    | Some a =>
      let '(a', out, err) := as_Read a plen in
      let s := set_part s (cur s) a' in
      match err with
      | None => (s, out, None)
      | Some e =>
        if errors_Is e io_EOF then
          let s := next_part s in
          if decide (0 < zlen out) then (s, out, if decide (length (parts s) <= cur s)%nat then Some io_EOF else None)
          else read_parts rounds s plen
        else if decide (cur s = main s) then (s, out, Some e)
        else
          let s := next_part s in
          if decide (0 < zlen out) then (s, out, None) else read_parts rounds s plen
      end
    end
  end.

Definition narrated_Read s (plen : Z) : NarratedSource * list F * option error :=
  read_parts (length (parts s) - cur s) s plen.

(** [s.parts[s.main]] exists in every source [NewNarratedSource] makes. *)
Definition narrated_SetPositionMs s (pos : Z) : NarratedSource * option error :=
  let s := MkNarrated (parts s) (main s) (Nat.max (cur s) (main s)) in
  match parts s !! main s with
  | Some a => let '(a', err) := as_SetPositionMs a pos in (set_part s (main s) a', err)
  | None => (s, None)
  end.

Definition narrated_NoCrossfade s : bool := bool_decide (main s < length (parts s) - 1)%nat.

Definition narrated_PositionMs s : Z := from_option as_PositionMs 0 (parts s !! main s).

#[export] Instance narrated_source : AudioSource NarratedSource F := {
  as_Read := narrated_Read;
  as_SetPositionMs := narrated_SetPositionMs;
  as_PositionMs := narrated_PositionMs;
  as_NoCrossfade := narrated_NoCrossfade
}.
End narrated.
Arguments NarratedSource A : clear implicits.

(** ** Which clips a track gets *)
Definition narrationIntroPrefix : string := "narration.intro".
Definition narrationJumpPrefix : string := "narration.jump".
Definition narrationOutroPrefix : string := "narration.outro".

Definition meta_value (m : metadata) (key : string) : string := default "" (m !! key).

Definition has_script (m : metadata) (prefix : string) : bool :=
  bool_decide (meta_value m (prefix ++ ".ssml")%string <> "").

Definition narrationKinds (m : metadata) : list string :=
  (fun x => x.1) <$> filter (fun x => has_script m x.2 = true)
    [("intro", narrationIntroPrefix); ("jump", narrationJumpPrefix); ("outro", narrationOutroPrefix)].

Definition maxNarrationSize : Z := 8 * 2 ^ 20.

(** What fetching a clip met: the request, the status, the body (cut one byte
    over the limit), and what the decoder found in it. *)
Record ClipFetch (A : Type) := MkClip {
  cf_request : option error;
  cf_status : Z;
  cf_body : result (list Z);
  cf_decoder : result (A * Z * Z)
}.
Arguments MkClip {A}.
Arguments cf_request {A}.
Arguments cf_status {A}.
Arguments cf_body {A}.
Arguments cf_decoder {A}.

Section clips.
Context {A : Type}.

(** The decoder is closed when its rate or its channels are wrong; the flag
    tells whether one is left open. *)
Definition NewNarrationSource (c : ClipFetch A) : result A * bool :=
  match cf_request c with
  | Some e => (Err (EWrap "failed fetching narration audio" e), false)
  | None =>
    if decide (cf_status c <> 200) then (Err (EMsg "invalid status code from narration audio"), false)
    else
      match cf_body c with
      | Err e => (Err (EWrap "failed reading narration audio" e), false)
      | Ok data =>
        let data := takeZ (maxNarrationSize + 1) data in
        if decide (maxNarrationSize < zlen data) then (Err (EMsg "narration audio is too large"), false)
        else if decide (zlen data = 0) then (Err (EMsg "narration audio is empty"), false)
        else
          match cf_decoder c with
          | Err e => (Err (EWrap "failed initializing narration mp3 stream" e), false)
          | Ok (dec, rate, channels) =>
            if decide (rate <> SampleRate) then (Err (EMsg "unsupported sample rate"), false)
            else if decide (channels <> Channels) then (Err (EMsg "unsupported channels"), false)
            else (Ok dec, true)
          end
      end
  end.

(** [url] is what asking for the speech to be synthesized returned. *)
Definition narrationFor (m : metadata) (prefix : string) (url : result string) (fetch : string -> ClipFetch A) : option A :=
  if has_script m prefix then
    match url with
    | Err _ => None
    | Ok u => match (NewNarrationSource (fetch u)).1 with Ok a => Some a | Err _ => None end
    end
  else None.

(** The track itself, or the track with its clips. *)
Definition narrate (m : metadata) (introPrefix : string) (url : string -> result string)
    (fetch : string -> ClipFetch A) (source : A) : A + NarratedSource A :=
  let intro := narrationFor m introPrefix (url introPrefix) fetch in
  let outro := narrationFor m narrationOutroPrefix (url narrationOutroPrefix) fetch in
  match intro, outro with
  | None, None => inl source
  | _, _ => inr (NewNarratedSource intro source outro)
  end.
End clips.

(** ** A narrated track is a source like any other *)
Section laws.
Context {A F : Type} `{AudioSourceLaws A F}.
Implicit Types s : NarratedSource A.

Lemma read_parts_laws rounds : forall s n,
  (0 <= n -> zlen (read_parts rounds s n).1.2 <= n) /\
  (0 < n -> (read_parts rounds s n).2 = None -> 0 < zlen (read_parts rounds s n).1.2).
Proof.
  induction rounds as [|rounds IH]; intros s n; simpl; [split; [unfold zlen; simpl; lia|done]|].
  destruct (parts s !! cur s) as [a|]; simpl; [|split; [unfold zlen; simpl; lia|done]].
  pose proof (as_Read_len a n) as Hl; pose proof (as_Read_progress a n) as Hp.
  destruct (as_Read a n) as [[a' out] err]; simpl in *.
  destruct err as [e|]; [|auto]; repeat (case_decide || case_match); simpl; auto; split; auto; done.
Qed.

#[export] Instance narrated_laws : AudioSourceLaws (NarratedSource A) F.
Proof. split; intros s n; [apply (proj1 (read_parts_laws _ s n))|apply (proj2 (read_parts_laws _ s n))]. Qed.
End laws.
