(* ===== verification/NarrationClaims.v ===== *)
(** * Narration around a track: theorems

    The clips and the track are heard one after the other, the music is never
    lost to a clip, and a seek during the closing remark is not heard. *)

From stdpp Require Import gmap.
From S2P Require Import Prelude Ids Source SourceProps SourceClaims Narration.
#[local] Open Scope string_scope.
#[local] Open Scope list_scope.
#[local] Open Scope Z_scope.

Section order.
Context {A F : Type} `{AudioSource A F}.

(** [a] delivered [xs] and then ended: at its end or, for a clip, by failing. *)
Definition ended (is_track : bool) (a : A) (xs : list F) : Prop :=
  exists ys a1 n a2 out e, xs = ys ++ out /\ reads a ys a1 /\ as_Read a1 n = (a2, out, Some e) /\
    (is_track = true -> errors_Is e io_EOF = true).

(** What a listener of a list of parts, each flagged whether it is the track,
    hears: the parts in order, each to its end before the next begins. *)
Inductive heard : list (bool * A) -> list F -> list (bool * A) -> Prop :=
| heard_done : heard [] [] []
| heard_here b a rest xs a' : reads a xs a' -> heard ((b, a) :: rest) xs ((b, a') :: rest)
| heard_next b a rest xs ys rest' : ended b a xs -> heard rest ys rest' -> heard ((b, a) :: rest) (xs ++ ys) rest'.

Lemma ended_reads b a xs a' ys : reads a xs a' -> ended b a' ys -> ended b a (xs ++ ys).
Proof.
  intros Hr (zs & a1 & n & a2 & out & e & -> & Hz & He & Hb); exists (xs ++ zs), a1, n, a2, out, e.
  split_and!; [by rewrite app_assoc|by eapply reads_app|done|done].
Qed.

Lemma heard_refl l : heard l [] l.
Proof. destruct l as [|[b a] rest]; constructor; constructor. Qed.

Lemma heard_app l xs l1 ys l2 : heard l xs l1 -> heard l1 ys l2 -> heard l (xs ++ ys) l2.
Proof.
  induction 1 as [|b a rest xs a' Hr|b a rest xs zs rest' He Hh IH]; intros H2.
  - done.
  - inversion H2; subst.
    + constructor; by eapply reads_app.
    + rewrite app_assoc; constructor; [by eapply ended_reads|done].
  - rewrite <- app_assoc; constructor; auto.
Qed.

Implicit Types s : NarratedSource A.

(** The parts left to play. *)
Definition remaining s : list (bool * A) :=
  imap (fun i a => (bool_decide (cur s + i = main s)%nat, a)) (drop (cur s) (parts s)).

Lemma remaining_nil s : parts s !! cur s = None -> remaining s = [].
Proof. intros Hn%lookup_ge_None; unfold remaining; by rewrite drop_ge. Qed.

Lemma remaining_cons s a : parts s !! cur s = Some a ->
  remaining s = (bool_decide (cur s = main s), a) :: remaining (next_part s).
Proof.
  intros Ha; unfold remaining; simpl; rewrite (drop_S _ a) by done; simpl; rewrite Nat.add_0_r; f_equal.
  apply imap_ext; intros i x _; simpl; f_equal; apply bool_decide_ext; lia.
Qed.

Lemma remaining_set s a a' : parts s !! cur s = Some a ->
  remaining (set_part s (cur s) a') = (bool_decide (cur s = main s), a') :: remaining (next_part s).
Proof.
  intros Ha; pose proof (lookup_lt_Some _ _ _ Ha).
  rewrite (remaining_cons (set_part s (cur s) a') a') by (simpl; by rewrite list_lookup_insert_eq).
  f_equal; unfold remaining; simpl; by rewrite drop_insert_lt by lia.
Qed.

Lemma remaining_next_set s a' : remaining (next_part (set_part s (cur s) a')) = remaining (next_part s).
Proof. unfold remaining; simpl; by rewrite drop_insert_lt by lia. Qed.

(** One read. *)
Lemma read_parts_heard rounds : forall s n s' out err,
  read_parts rounds s n = (s', out, err) -> heard (remaining s) out (remaining s').
Proof.
  induction rounds as [|rounds IH]; intros s n s' out err; simpl; [intros; simplify_eq; apply heard_refl|].
  destruct (parts s !! cur s) as [a|] eqn:Ha; [|intros; simplify_eq; apply heard_refl].
  destruct (as_Read a n) as [[a' o] e0] eqn:Hr; intros Hread.
  rewrite (remaining_cons s a Ha).
  assert (Hreads : reads a o a') by (rewrite <- (app_nil_r o); econstructor; [exact Hr|constructor]).
  destruct e0 as [e|]; [|simplify_eq; rewrite (remaining_set s a) by done; by constructor].
  assert (Hend : (cur s = main s -> errors_Is e io_EOF = true) -> ended (bool_decide (cur s = main s)) a o).
  { intros He; exists [], a, n, a', o, e; split_and!; [done|constructor|done|].
    intros Hb%bool_decide_eq_true; auto. }
  assert (Hmove : (cur s = main s -> errors_Is e io_EOF = true) ->
    forall xs s1, heard (remaining (next_part (set_part s (cur s) a'))) xs (remaining s1) ->
    heard ((bool_decide (cur s = main s), a) :: remaining (next_part s)) (o ++ xs) (remaining s1)).
  { intros He xs s1 Hx; rewrite remaining_next_set in Hx; constructor; auto. }
  assert (Hstep : (cur s = main s -> errors_Is e io_EOF = true) -> forall last,
    (if decide (0 < zlen o) then (next_part (set_part s (cur s) a'), o, last)
     else read_parts rounds (next_part (set_part s (cur s) a')) n) = (s', out, err) ->
    heard ((bool_decide (cur s = main s), a) :: remaining (next_part s)) out (remaining s')).
  { intros He last; case_decide as Hz; intros Hx.
    - simplify_eq; rewrite <- (app_nil_r out); apply Hmove; [done|apply heard_refl].
    - assert (o = []) as -> by (apply zlen_0; pose proof (zlen_nonneg o); lia).
      apply IH in Hx; by apply (Hmove He out s'). }
  destruct (errors_Is e io_EOF) eqn:Ee; [by eapply Hstep|].
  simpl in Hread; destruct (decide (cur s = main s)) as [Hm|Hm];
    [injection Hread as <- <- <-; rewrite (remaining_set s a) by done; by constructor|].
  eapply Hstep; [done|exact Hread].
Qed.

Lemma narrated_reads_heard s xs s' : reads s xs s' -> heard (remaining s) xs (remaining s').
Proof.
  induction 1 as [|s n s1 out err xs s2 Hr _ IH]; [apply heard_refl|].
  eapply heard_app; [|exact IH]; eapply read_parts_heard; exact Hr.
Qed.

Lemma remaining_new intro track outro :
  remaining (NewNarratedSource intro track outro) =
    (pair false <$> option_list intro) ++ (true, track) :: (pair false <$> option_list outro).
Proof. destruct intro, outro; reflexivity. Qed.
End order.

(** A track narrated on both sides: the remark before it breaks off. *)
Definition demo_narrated : NarratedSource script :=
  NewNarratedSource (Some [([1; 2], None); ([3; 4], Some net_ErrClosed); ([5; 6], None)])
    [([10; 20; 30], None); ([40], None)] (Some [([7; 8], None)]).

Definition demo_narration : SwitchingAudioSource (NarratedSource script) Z :=
  SetPrimary (NewSwitchingAudioSource (fun _ => demo_narrated) 4) 0.

(** A narrated track played through the player's switching source is heard
    as its opening remark, its music and its closing remark, one after the
    other: whatever run of reads the output makes, what it received followed by
    what is still held (but for a torn final frame) is the parts in order, each
    to its end before the next begins, where a clip may end by failing but the
    track is only ever left at its own end. *)
Theorem narrated_track_heard {A F} `{AudioSourceLaws A F} `{Float F}
    (s : SwitchingAudioSource (NarratedSource A) F) (i : nat) (plens : list Z)
    (intro : option A) (track : A) (outro : option A) :
  source_inv s -> fading s = false -> 0 < crossfadeSamples s -> Forall (Z.le 0) plens ->
  primary s = Some i -> secondary s = None -> bufLen s = 0 ->
  heap s i = NewNarratedSource intro track outro ->
  exists s' outs err torn, play s plens = Ret (s', outs, err) /\ zlen torn <= 1 /\
    (err <> None -> ring s' = []) /\
    heard ((pair false <$> option_list intro) ++ (true, track) :: (pair false <$> option_list outro))
      (outs ++ ring s' ++ torn) (remaining (heap s' i)).
Proof.
  intros Hi Hf Hpos Hns Hpr Hsec Hb Hh.
  destruct (play_spec plens s i Hi Hf Hpos Hns Hpr Hsec)
    as (s' & outs & err & xs & torn & Hrun & _ & Hz & Hr & Hring & Herr).
  assert (ring s = []) as Hr0 by (apply zlen_0; rewrite (zlen_ring_inv s Hi); lia).
  exists s', outs, err, torn; split_and!; auto.
  rewrite Hring, Hr0, <- remaining_new, <- Hh; by apply narrated_reads_heard.
Qed.

Lemma narrated_track_heard_witness :
  exists s' outs err torn, play demo_narration [4; 4; 4; 4; 4; 4] = Ret (s', outs, err) /\ zlen torn <= 1 /\
    (err <> None -> ring s' = []) /\
    heard ((pair false <$> option_list (Some [([1; 2], None); ([3; 4], Some net_ErrClosed); ([5; 6], None)])) ++
           (true, [([10; 20; 30], None); ([40], None)]) :: (pair false <$> option_list (Some [([7; 8], None)])))
      (outs ++ ring s' ++ torn) (remaining (heap s' 0)).
Proof.
  apply (narrated_track_heard demo_narration 0 [4; 4; 4; 4; 4; 4]);
    [apply SetPrimary_inv, NewSwitchingAudioSource_inv | reflexivity | reflexivity
    | repeat constructor; lia | reflexivity | reflexivity | reflexivity | reflexivity].
Defined.

(** Every sample of that track is heard, the broken clip cut where it failed. *)
Lemma demo_narration_heard :
  exists s', play demo_narration [4; 4; 4; 4; 4; 4; 4; 4; 4] =
    Ret (s', [1; 2; 3; 4; 10; 20; 30; 40; 7; 8], Some io_EOF).
Proof. eexists; vm_compute; reflexivity. Qed.

(** A seek made while the closing remark plays moves the track's position but
    not what is heard: the remark goes on from where it was. *)
Theorem seek_in_outro_ignored {A F} `{AudioSource A F} (s : NarratedSource A) (pos : Z) :
  (main s < cur s)%nat -> (main s < length (parts s))%nat ->
  remaining (narrated_SetPositionMs s pos).1 = remaining s.
Proof.
  intros Hc Hm; unfold narrated_SetPositionMs; simpl.
  destruct (lookup_lt_is_Some_2 _ _ Hm) as [a Ha]; rewrite Ha.
  destruct (as_SetPositionMs a pos) as [a' err]; unfold remaining; simpl.
  by rewrite Nat.max_l, drop_insert_lt by lia.
Qed.

Lemma seek_in_outro_ignored_witness :
  remaining (narrated_SetPositionMs (MkNarrated (parts demo_narrated) 1 2) 0).1 =
    remaining (MkNarrated (parts demo_narrated) 1 2).
Proof. apply (seek_in_outro_ignored (MkNarrated (parts demo_narrated) 1 2) 0); simpl; lia. Defined.
