(* ===== verification/Chunked.v ===== *)
(** * Chunked audio download ([src/audio/chunked-reader.go])

    A file fetched in 512 KiB ranges: random access reads over the chunks, seek,
    and the goroutines that fetch chunks and report completion. *)

From S2P Require Import Prelude.
#[local] Open Scope list_scope.
#[local] Open Scope Z_scope.

(** ** [io.ReaderAt]

    One [ReadAt] of at most [n] bytes at [pos]: the bytes copied into the
    buffer and the error. *)
Class ReaderAt (R : Type) := {
  ra_ReadAt : R -> Z -> Z -> run (R * list Z * option error)
}.

(** What a reader promises of the file it serves: the bytes are the file's at
    that position, fewer than asked only with an error, and [io.EOF] exactly
    after the rest of the file. *)
Definition reads_file (file : list Z) (n pos : Z) (out : list Z) (err : option error) : Prop :=
  out = takeZ (zlen out) (dropZ pos file) /\ zlen out <= n /\
  (err = None -> zlen out = n) /\
  (err = Some io_EOF -> out = dropZ pos file).

Class ReaderAtLaws (R : Type) `{ReaderAt R} (serves : R -> list Z -> Prop) := {
  ra_ReadAt_ok : forall r file n pos, serves r file -> 0 <= n -> 0 <= pos < 2 ^ 63 ->
    exists r' out err, ra_ReadAt r n pos = Ret (r', out, err) /\ serves r' file /\
      reads_file file n pos out err
}.

Definition DefaultChunkSize : Z := 512 * 1024.
Definition PrefetchCount : Z := 3.

Record chunkItem := MkChunk { chunk_data : option (list Z); chunk_fetching : bool }.

Definition newChunkItem : chunkItem := MkChunk None false.

Record HttpChunkedReader := MkReader {
  chunks : list chunkItem;
  rlen : Z;
  rpos : Z;
  isClosed : bool;
  completedChunks : Z;
  hasCallback : bool;
  onCompleteFired : bool;
  fires : nat;
  downloads : nat
}.

(** The Range header asked for chunk [idx]. *)
Definition chunkRange (len idx : Z) : Z * Z :=
  (idx * DefaultChunkSize,
   Z.min (Z.max len DefaultChunkSize) ((idx + 1) * DefaultChunkSize) - 1).

Definition totalChunks (len : Z) : Z := Z.quot (len + DefaultChunkSize - 1) DefaultChunkSize.

Definition maybeFireComplete (r : HttpChunkedReader) : HttpChunkedReader :=
  if onCompleteFired r || negb (hasCallback r) || bool_decide (completedChunks r < zlen (chunks r)) then r
  else MkReader (chunks r) (rlen r) (rpos r) (isClosed r) (completedChunks r) (hasCallback r) true
                (S (fires r)) (downloads r).

Definition OnComplete (r : HttpChunkedReader) : HttpChunkedReader :=
  maybeFireComplete
    (MkReader (chunks r) (rlen r) (rpos r) (isClosed r) (completedChunks r) true (onCompleteFired r)
              (fires r) (downloads r)).

Definition markChunkComplete (r : HttpChunkedReader) : HttpChunkedReader :=
  maybeFireComplete
    (MkReader (chunks r) (rlen r) (rpos r) (isClosed r) (completedChunks r + 1) (hasCallback r)
              (onCompleteFired r) (fires r) (downloads r)).

Definition set_chunk (r : HttpChunkedReader) (idx : Z) (c : chunkItem) : HttpChunkedReader :=
  MkReader (setZ (chunks r) idx c) (rlen r) (rpos r) (isClosed r) (completedChunks r) (hasCallback r)
           (onCompleteFired r) (fires r) (downloads r).

Definition count_download (r : HttpChunkedReader) : HttpChunkedReader :=
  MkReader (chunks r) (rlen r) (rpos r) (isClosed r) (completedChunks r) (hasCallback r)
           (onCompleteFired r) (fires r) (S (downloads r)).

Definition set_pos (r : HttpChunkedReader) (p : Z) : HttpChunkedReader :=
  MkReader (chunks r) (rlen r) p (isClosed r) (completedChunks r) (hasCallback r)
           (onCompleteFired r) (fires r) (downloads r).

Definition Close (r : HttpChunkedReader) : HttpChunkedReader :=
  MkReader (chunks r) (rlen r) (rpos r) true (completedChunks r) (hasCallback r)
           (onCompleteFired r) (fires r) (downloads r).

Section reader.
(** [downloadAndRead]: what the [n]-th download made returns for a range, its
    retries included. *)
Context (download : nat -> Z * Z -> result (list Z)).

(** The reader after its first chunk: [content] is the parsed Content-Range
    size, [body] the first response's body. *)
Definition NewHttpChunkedReader (size : Z) (body : list Z) : run HttpChunkedReader :=
  let total := totalChunks size in
  let cs := replicate (Z.to_nat total) newChunkItem in
  match nthZ cs 0 with
  | None => Panic "index out of range"
  | Some _ => Ret (MkReader (setZ cs 0 (MkChunk (Some body) false)) size 0 false 1 false false 0 0)
  end.

(** [fetchChunk] of a chunk no other goroutine is fetching. *)
Definition fetchChunk (r : HttpChunkedReader) (idx : Z) : run (HttpChunkedReader * result (list Z)) :=
  chunk ← index (chunks r) idx;
  if isClosed r then Ret (r, Err net_ErrClosed)
  else
    match chunk_data chunk with
    | Some data => Ret (r, Ok data)
    | None =>
      let '(start, stop) := chunkRange (rlen r) idx in
      let r := count_download r in
      match download (downloads r) (start, stop) with
      | Err e => Ret (set_chunk r idx (MkChunk None false), Err (EWrap "failed downloading chunk" e))
      | Ok data => Ret (markChunkComplete (set_chunk r idx (MkChunk (Some data) false)), Ok data)
      end
    end.

(** The loop of [ReadAt]; [plen] is what is left of the buffer. *)
Fixpoint read_loop (fuel : nat) (r : HttpChunkedReader) (chunkIdx off plen : Z) (acc : list Z)
  : run (HttpChunkedReader * list Z * option error) :=
  if decide (0 < plen) then
    if decide (zlen (chunks r) <= chunkIdx) then Ret (r, acc, Some io_EOF)
    else
      match fuel with
      | O => OutOfFuel
      | S fuel =>
        '(r, res) ← fetchChunk r chunkIdx;
        match res with
        | Err e => Ret (r, acc, Some (EWrap "failed reading chunk" e))
        | Ok chunk =>
          if decide (Z.min off (zlen chunk) < 0) then Panic "slice bounds out of range"
          else
            let c := dropZ (Z.min off (zlen chunk)) chunk in
            if decide (plen < zlen c) then Ret (r, acc ++ takeZ plen c, None)
            else read_loop fuel r (chunkIdx + 1) 0 (plen - zlen c) (acc ++ c)
        end
      end
  else Ret (r, acc, None).

(** The chunks from [chunkIdx] on bound the rounds.  Prefetching fills chunks
    from other goroutines and is part of [fetch_step] below. *)
Definition ReadAt (r : HttpChunkedReader) (plen pos : Z)
  : run (HttpChunkedReader * list Z * option error) :=
  if isClosed r then Ret (r, [], Some net_ErrClosed)
  else
    let chunkIdx := Z.quot pos DefaultChunkSize in
    let off := Z.rem pos DefaultChunkSize in
    if decide (zlen (chunks r) <= chunkIdx) then Ret (r, [], Some io_EOF)
    else read_loop (Z.to_nat (zlen (chunks r) - chunkIdx)) r chunkIdx off plen [].

Definition Read (r : HttpChunkedReader) (plen : Z) : run (HttpChunkedReader * list Z * option error) :=
  '(r', out, err) ← ReadAt r plen (rpos r);
  Ret (set_pos r' (rpos r' + zlen out), out, err).
End reader.

Inductive whence := SeekStart | SeekCurrent | SeekEnd.

Definition Seek (r : HttpChunkedReader) (offset : Z) (w : whence) : HttpChunkedReader * result Z :=
  let target :=
    match w with
    | SeekCurrent => i64 (rpos r + offset)
    | SeekStart => offset
    | SeekEnd => i64 (rlen r + offset)
    end in
  if decide (target < 0 \/ rlen r <= target) then (r, Err (EMsg "invalid seek position"))
  else (set_pos r target, Ok target).

(** The chunks [prefetchChunks] starts goroutines for. *)
Definition prefetchChunks (r : HttpChunkedReader) (curr : Z) : list Z :=
  if isClosed r then []
  else filter (fun i => i < zlen (chunks r)) (seqZ (curr + 1) PrefetchCount).

(** ** Goroutines fetching chunks

    [unmarked] counts the goroutines that stored their chunk and have not yet
    called [markChunkComplete]. *)
Record fetching := MkFetching { reader : HttpChunkedReader; unmarked : nat }.

Inductive fetch_step : fetching -> fetching -> Prop :=
| fs_start r n idx c :
    isClosed r = false -> nthZ (chunks r) idx = Some c ->
    chunk_data c = None -> chunk_fetching c = false ->
    fetch_step (MkFetching r n) (MkFetching (set_chunk r idx (MkChunk None true)) n)
| fs_failed r n idx c :
    nthZ (chunks r) idx = Some c -> chunk_data c = None -> chunk_fetching c = true ->
    fetch_step (MkFetching r n) (MkFetching (set_chunk r idx (MkChunk None false)) n)
| fs_stored r n idx c data :
    nthZ (chunks r) idx = Some c -> chunk_data c = None -> chunk_fetching c = true ->
    fetch_step (MkFetching r n) (MkFetching (set_chunk r idx (MkChunk (Some data) false)) (S n))
| fs_mark r n : fetch_step (MkFetching r (S n)) (MkFetching (markChunkComplete r) n)
| fs_onComplete r n : fetch_step (MkFetching r n) (MkFetching (OnComplete r) n)
| fs_seek r n p : fetch_step (MkFetching r n) (MkFetching (set_pos r p) n)
| fs_close r n : fetch_step (MkFetching r n) (MkFetching (Close r) n).

(** ** Reading the file *)
Definition chunk_slice (file : list Z) (i : Z) : list Z :=
  takeZ DefaultChunkSize (dropZ (i * DefaultChunkSize) file).

(** A server that answers a range request with those bytes of the file. *)
Definition honest (download : nat -> Z * Z -> result (list Z)) (file : list Z) : Prop :=
  forall n start stop data, download n (start, stop) = Ok data ->
    data = takeZ (stop + 1 - start) (dropZ start file).

Record serves (r : HttpChunkedReader) (file : list Z) : Prop := {
  sv_len : rlen r = zlen file;
  sv_count : zlen (chunks r) = totalChunks (zlen file);
  sv_data : forall i c d, nthZ (chunks r) i = Some c -> chunk_data c = Some d -> d = chunk_slice file i
}.

Lemma totalChunks_bounds len :
  0 <= len -> 0 <= totalChunks len /\
  (totalChunks len - 1) * DefaultChunkSize < Z.max 1 len /\ len <= totalChunks len * DefaultChunkSize.
Proof.
  intros Hl; unfold totalChunks; rewrite Z.quot_div_nonneg by (unfold DefaultChunkSize; lia).
  unfold DefaultChunkSize; pose proof (Z.div_mod (len + 512 * 1024 - 1) (512 * 1024) ltac:(lia)).
  pose proof (Z.mod_pos_bound (len + 512 * 1024 - 1) (512 * 1024) ltac:(lia)).
  set (q := (len + 512 * 1024 - 1) `div` (512 * 1024)) in *; lia.
Qed.

(** The range asked for a chunk covers it. *)
Lemma chunkRange_slice file idx :
  0 <= idx < totalChunks (zlen file) ->
  let '(start, stop) := chunkRange (zlen file) idx in
  takeZ (stop + 1 - start) (dropZ start file) = chunk_slice file idx.
Proof.
  intros Hi; unfold chunkRange, chunk_slice; cbv beta iota.
  pose proof (totalChunks_bounds (zlen file) (zlen_nonneg file)).
  pose proof (zlen_nonneg file) as Hf; unfold DefaultChunkSize in *.
  set (CS := 512 * 1024) in *.
  set (m := Z.min (Z.max (zlen file) CS) ((idx + 1) * CS) - 1 + 1 - idx * CS).
  destruct (decide (m = CS)) as [->|Hm]; [done|].
  assert (Hz : zlen (dropZ (idx * CS) file) <= m) by (rewrite zlen_dropZ; unfold m, CS in *; lia).
  assert (m <= CS) by (unfold m, CS; lia).
  rewrite !takeZ_all by (unfold CS in *; lia); done.
Qed.

Lemma set_chunk_serves r file idx c :
  serves r file -> (forall d, chunk_data c = Some d -> d = chunk_slice file idx) ->
  serves (set_chunk r idx c) file.
Proof.
  intros [Hl Hc Hd] Hnew; split; simpl; auto; [by rewrite zlen_setZ|].
  intros i c' d Hi Hc'; destruct (decide (idx = i)) as [->|Hne].
  - destruct (decide (0 <= i < zlen (chunks r))) as [Hr|Hr].
    + rewrite nthZ_setZ_eq in Hi by done; injection Hi as <-; auto.
    + apply nthZ_Some_lt in Hi; rewrite zlen_setZ in Hi; lia.
  - rewrite nthZ_setZ_ne in Hi by done; eauto.
Qed.

Lemma markChunkComplete_chunks r : chunks (markChunkComplete r) = chunks r /\
  rlen (markChunkComplete r) = rlen r /\ isClosed (markChunkComplete r) = isClosed r /\
  rpos (markChunkComplete r) = rpos r.
Proof. unfold markChunkComplete, maybeFireComplete; by case_match. Qed.

Lemma markChunkComplete_serves r file : serves r file -> serves (markChunkComplete r) file.
Proof.
  destruct (markChunkComplete_chunks r) as (E1 & E2 & _ & _).
  intros [? ? ?]; split; rewrite ?E1, ?E2; auto.
Qed.

Section reading.
Context (download : nat -> Z * Z -> result (list Z)) (file : list Z).
Hypothesis server : honest download file.

Lemma fetchChunk_spec r idx :
  serves r file -> 0 <= idx < zlen (chunks r) ->
  exists r' res, fetchChunk download r idx = Ret (r', res) /\ serves r' file /\
    rpos r' = rpos r /\ zlen (chunks r') = zlen (chunks r) /\
    (forall d, res = Ok d -> d = chunk_slice file idx).
Proof.
  intros Hs Hidx; unfold fetchChunk.
  destruct (index_returns (chunks r) idx Hidx) as (c & -> & Hc); cbn [mbind run_bind].
  destruct (isClosed r) eqn:Hcl.
  { eexists _, _; split; [reflexivity|]; split_and!; auto; done. }
  destruct (chunk_data c) as [d|] eqn:Hd.
  { eexists _, _; split; [reflexivity|]; split_and!; auto; try done.
    intros ? [= <-]; destruct Hs; eauto. }
  set (r1 := count_download r).
  assert (Hs1 : serves r1 file) by (destruct Hs; by split).
  rewrite (sv_len r file Hs).
  pose proof (chunkRange_slice file idx) as Hrange.
  destruct (chunkRange (zlen file) idx) as [start stop] eqn:Hrg.
  destruct (download (downloads r1) (start, stop)) as [data|e] eqn:Hdl.
  - assert (Hdata : data = chunk_slice file idx).
    { rewrite (server _ _ _ _ Hdl); apply Hrange; rewrite <- (sv_count r file Hs); lia. }
    destruct (markChunkComplete_chunks (set_chunk r1 idx (MkChunk (Some data) false))) as (E1 & _ & _ & E4).
    eexists _, _; split; [reflexivity|]; split_and!; rewrite ?E1, ?E4; simpl; rewrite ?zlen_setZ; auto; try done.
    + apply markChunkComplete_serves, set_chunk_serves; [done|]; by intros d [= <-].
    + by intros d [= <-].
  - eexists _, _; split; [reflexivity|]; split_and!; simpl; rewrite ?zlen_setZ; auto; try done.
    by apply set_chunk_serves.
Qed.

Lemma take_then {X} (k m : Z) (D : list X) :
  0 <= k -> 0 <= m ->
  takeZ (zlen (takeZ k D ++ takeZ m (dropZ k D))) D = takeZ k D ++ takeZ m (dropZ k D).
Proof.
  intros Hk Hm; rewrite zlen_app, !zlen_takeZ, zlen_dropZ.
  destruct (decide (zlen D <= k)).
  - rewrite (takeZ_all k D), (dropZ_all k D) by lia.
    rewrite takeZ_all by (pose proof (zlen_nonneg D); lia).
    unfold takeZ; by rewrite take_nil, app_nil_r.
  - rewrite <- takeZ_add by lia; pose proof (zlen_nonneg D).
    destruct (decide (k + m <= zlen D)); [f_equal; lia|].
    rewrite !takeZ_all by lia; done.
Qed.

Lemma reads_file_chunk ci off plen c out err :
  let pos := ci * DefaultChunkSize + off in
  0 <= ci -> 0 <= off <= DefaultChunkSize ->
  c = takeZ (DefaultChunkSize - off) (dropZ pos file) -> zlen c <= plen ->
  reads_file file (plen - zlen c) ((ci + 1) * DefaultChunkSize) out err ->
  reads_file file plen pos (c ++ out) err.
Proof.
  intros pos Hci Hoff Hc Hle (Ho & Hz & Hn & He).
  assert (Hdrop : dropZ ((ci + 1) * DefaultChunkSize) file = dropZ (DefaultChunkSize - off) (dropZ pos file)).
  { rewrite dropZ_dropZ by (unfold pos, DefaultChunkSize in *; lia); f_equal; unfold pos, DefaultChunkSize in *; lia. }
  rewrite Hdrop in *; pose proof (zlen_nonneg out); split_and!.
  - remember (zlen out) as m eqn:Em; rewrite Hc, Ho; symmetry; apply take_then; lia.
  - rewrite zlen_app; lia.
  - intros E; rewrite zlen_app, (Hn E); lia.
  - intros E; rewrite (He E), Hc; apply takeZ_dropZ.
Qed.

Lemma chunk_tail ci off :
  0 <= ci -> 0 <= off < DefaultChunkSize ->
  dropZ (Z.min off (zlen (chunk_slice file ci))) (chunk_slice file ci) =
  takeZ (DefaultChunkSize - off) (dropZ (ci * DefaultChunkSize + off) file).
Proof.
  intros Hci Hoff; unfold chunk_slice.
  rewrite <- (dropZ_dropZ off (ci * DefaultChunkSize)) by (unfold DefaultChunkSize in *; lia).
  set (D := dropZ (ci * DefaultChunkSize) file); apply nthZ_ext; intros j.
  pose proof (zlen_nonneg D).
  destruct (decide (0 <= j)); [|rewrite !nthZ_out by lia; done].
  rewrite nthZ_dropZ by (try rewrite zlen_takeZ; lia).
  destruct (decide (j < DefaultChunkSize - off)) as [Hj|Hj].
  - rewrite (nthZ_takeZ (dropZ off D)) by lia; rewrite nthZ_dropZ by lia.
    rewrite zlen_takeZ; destruct (decide (off <= zlen D)).
    + rewrite nthZ_takeZ by lia; f_equal; lia.
    + rewrite !nthZ_out; [done | lia | rewrite zlen_takeZ; lia].
  - rewrite !nthZ_out; [done | rewrite zlen_takeZ; lia | rewrite !zlen_takeZ; lia].
Qed.

Lemma read_loop_spec fuel r ci off plen acc :
  serves r file -> 0 <= ci -> 0 <= off < DefaultChunkSize -> 0 <= plen ->
  zlen (chunks r) - ci <= Z.of_nat fuel ->
  exists r' out err, read_loop download fuel r ci off plen acc = Ret (r', acc ++ out, err) /\
    serves r' file /\ rpos r' = rpos r /\
    reads_file file plen (ci * DefaultChunkSize + off) out err.
Proof.
  revert r ci off plen acc; induction fuel as [|fuel IH]; intros r ci off plen acc Hs Hci Hoff Hp Hf;
    cbn [read_loop]; (case_decide as Hpl; [case_decide as Hend|]).
  2: lia.
  all: try (exists r, [], None; rewrite app_nil_r; split_and!; auto;
            unfold reads_file; rewrite zlen_nil; split_and!; auto; try done; lia).
  1,2: exists r, [], (Some io_EOF); rewrite app_nil_r; split_and!; auto;
    pose proof (totalChunks_bounds (zlen file) (zlen_nonneg file));
    rewrite (sv_count r file Hs) in Hend;
    unfold reads_file; rewrite zlen_nil, dropZ_all by (unfold DefaultChunkSize in *; nia);
    split_and!; auto; try done; lia.
  destruct (fetchChunk_spec r ci Hs) as (r1 & res & -> & Hs1 & Hpos & Hzl & Hres); [lia|].
  cbn [mbind run_bind]; destruct res as [chunk|e]; cycle 1.
  { eexists r1, [], _; rewrite app_nil_r; split_and!; auto.
    unfold reads_file; rewrite zlen_nil; split_and!; auto; done. }
  assert (chunk = chunk_slice file ci) as -> by auto.
  rewrite decide_False by (pose proof (zlen_nonneg (chunk_slice file ci)); lia).
  cbv zeta; rewrite chunk_tail by lia.
  set (c := takeZ (DefaultChunkSize - off) (dropZ (ci * DefaultChunkSize + off) file)).
  case_decide as Hbig.
  - assert (Htk : takeZ plen c = takeZ plen (dropZ (ci * DefaultChunkSize + off) file)).
    { unfold c in *; rewrite takeZ_takeZ by lia; f_equal; rewrite zlen_takeZ in Hbig; lia. }
    assert (Hz : zlen (takeZ plen c) = plen) by (rewrite zlen_takeZ; lia).
    eexists r1, (takeZ plen c), None; split_and!; auto.
    unfold reads_file; rewrite Hz; split_and!; auto; done.
  - destruct (IH r1 (ci + 1) 0 (plen - zlen c) (acc ++ c)) as (r2 & out & err & -> & Hs2 & Hp2 & Hrf);
      auto; try (unfold DefaultChunkSize; lia); try lia.
    exists r2, (c ++ out), err; rewrite <- app_assoc; split_and!; auto; [congruence|].
    apply reads_file_chunk; auto; try lia.
    by replace ((ci + 1) * DefaultChunkSize + 0) with ((ci + 1) * DefaultChunkSize) in Hrf by lia.
Qed.

Lemma ReadAt_spec r plen pos :
  serves r file -> 0 <= plen -> 0 <= pos ->
  exists r' out err, ReadAt download r plen pos = Ret (r', out, err) /\ serves r' file /\
    rpos r' = rpos r /\ reads_file file plen pos out err.
Proof.
  intros Hs Hp Hpos; unfold ReadAt; destruct (isClosed r).
  { eexists r, [], _; split_and!; auto; unfold reads_file; rewrite zlen_nil; split_and!; auto; done. }
  cbv zeta; assert (HCS : 0 < DefaultChunkSize) by (unfold DefaultChunkSize; lia).
  pose proof (Z.quot_rem pos DefaultChunkSize ltac:(lia)) as Hqr.
  pose proof (Z.rem_bound_pos pos DefaultChunkSize Hpos HCS).
  pose proof (Z.quot_pos pos DefaultChunkSize Hpos HCS).
  set (ci := Z.quot pos DefaultChunkSize) in *; set (off := Z.rem pos DefaultChunkSize) in *.
  case_decide as Hend.
  - eexists r, [], _; split_and!; auto.
    pose proof (totalChunks_bounds (zlen file) (zlen_nonneg file)).
    rewrite (sv_count r file Hs) in Hend.
    unfold reads_file; rewrite zlen_nil, dropZ_all by nia; split_and!; auto; done.
  - destruct (read_loop_spec (Z.to_nat (zlen (chunks r) - ci)) r ci off plen [])
      as (r' & out & err & -> & ? & ? & Hrf); auto; try lia.
    exists r', out, err; split_and!; auto.
    by replace pos with (ci * DefaultChunkSize + off) by lia.
Qed.
End reading.

(** [HttpChunkedReader] as an [io.ReaderAt], over a server that is honest
    about some file. *)
#[export] Instance chunked_ReaderAt (download : nat -> Z * Z -> result (list Z)) : ReaderAt HttpChunkedReader := {
  ra_ReadAt := ReadAt download
}.

Lemma chunked_ReaderAtLaws download file :
  honest download file ->
  @ReaderAtLaws HttpChunkedReader (chunked_ReaderAt download) (fun r f => f = file /\ serves r f).
Proof.
  intros Hh; split; intros r f n pos [-> Hs] Hn Hp.
  destruct (ReadAt_spec download file Hh r n pos Hs Hn (proj1 Hp)) as (r' & out & err & ? & ? & _ & ?).
  exists r', out, err; split_and!; auto.
Qed.

(** ** Completion *)
Definition has_data (c : chunkItem) : bool := match chunk_data c with Some _ => true | None => false end.

Definition data_count (cs : list chunkItem) : Z := zlen (filter (fun c => has_data c = true) cs).

Record fetching_inv (f : fetching) : Prop := {
  fi_count : completedChunks (reader f) + Z.of_nat (unmarked f) = data_count (chunks (reader f));
  fi_idle : Forall (fun c => chunk_data c <> None -> chunk_fetching c = false) (chunks (reader f));
  fi_fired : onCompleteFired (reader f) =
             hasCallback (reader f) && bool_decide (zlen (chunks (reader f)) <= completedChunks (reader f));
  fi_fires : fires (reader f) = if onCompleteFired (reader f) then 1%nat else 0%nat
}.

Lemma data_count_app cs ds : data_count (cs ++ ds) = data_count cs + data_count ds.
Proof. unfold data_count; rewrite filter_app; zlen. Qed.

Lemma data_count_one c : data_count [c] = if has_data c then 1 else 0.
Proof. unfold data_count; rewrite filter_cons; case_decide as H; destruct (has_data c); done. Qed.

Lemma data_count_le cs : 0 <= data_count cs <= zlen cs.
Proof. unfold data_count, zlen; pose proof (length_filter (fun c => has_data c = true) cs); lia. Qed.

Lemma data_count_all cs : data_count cs = zlen cs -> Forall (fun c => has_data c = true) cs.
Proof.
  induction cs as [|c cs IH]; [constructor|]; rewrite zlen_cons.
  change (data_count (c :: cs)) with (data_count ([c] ++ cs)).
  rewrite data_count_app, data_count_one; pose proof (data_count_le cs).
  destruct (has_data c) eqn:E; intros; [constructor; [done | apply IH; lia] | lia].
Qed.

Lemma setZ_split {X} (l : list X) i x y :
  nthZ l i = Some x -> exists l1 l2, l = l1 ++ x :: l2 /\ setZ l i y = l1 ++ y :: l2.
Proof.
  unfold nthZ, setZ; case_decide; [|done]; intros Hx.
  pose proof (list_elem_of_split_length l _ x Hx) as (l1 & l2 & -> & Hl).
  exists l1, l2; split; [done|]; rewrite Hl.
  by rewrite insert_app_r_alt, Nat.sub_diag by lia.
Qed.

Lemma data_count_set cs i c c' :
  nthZ cs i = Some c ->
  data_count (setZ cs i c') = data_count cs - data_count [c] + data_count [c'].
Proof.
  intros Hc; destruct (setZ_split cs i c c' Hc) as (l1 & l2 & -> & ->).
  change (c :: l2) with ([c] ++ l2); change (c' :: l2) with ([c'] ++ l2).
  rewrite !data_count_app; lia.
Qed.

Lemma Forall_setZ {X} (P : X -> Prop) l i x : Forall P l -> P x -> Forall P (setZ l i x).
Proof. intros; unfold setZ; case_decide; auto using Forall_insert. Qed.

Lemma set_chunk_inv r n idx c c' k :
  fetching_inv (MkFetching r n) -> nthZ (chunks r) idx = Some c -> chunk_data c = None ->
  (chunk_data c' <> None -> chunk_fetching c' = false) ->
  k = (n + if has_data c' then 1 else 0)%nat ->
  fetching_inv (MkFetching (set_chunk r idx c') k).
Proof.
  intros [Hc Hi Hf Hn] Hidx Hd Hc' ->; split; simpl in *; rewrite ?zlen_setZ; auto using Forall_setZ.
  rewrite (data_count_set _ _ c) by done; rewrite !data_count_one.
  unfold has_data at 2; rewrite Hd; destruct (has_data c'); lia.
Qed.

Lemma maybeFire_inv r n :
  completedChunks r + Z.of_nat n = data_count (chunks r) ->
  Forall (fun c => chunk_data c <> None -> chunk_fetching c = false) (chunks r) ->
  (onCompleteFired r = true -> hasCallback r = true /\ zlen (chunks r) <= completedChunks r) ->
  fires r = (if onCompleteFired r then 1%nat else 0%nat) ->
  fetching_inv (MkFetching (maybeFireComplete r) n).
Proof.
  intros Hc Hi Hf Hn; unfold maybeFireComplete.
  destruct (onCompleteFired r) eqn:E1; simpl.
  { destruct (Hf eq_refl) as [E2 E3]; split; simpl; rewrite ?E1, ?E2; auto.
    by rewrite bool_decide_true by lia. }
  destruct (hasCallback r) eqn:E2; simpl; [case_bool_decide as E3|]; split; simpl; rewrite ?E1, ?E2; auto.
  - by rewrite bool_decide_false by lia.
  - by rewrite bool_decide_true by lia.
Qed.

Lemma fetch_step_inv f f' : fetching_inv f -> fetch_step f f' -> fetching_inv f'.
Proof.
  intros Hinv Hstep; destruct Hstep as
    [r n idx c _ Hidx Hd _|r n idx c Hidx Hd _|r n idx c data Hidx Hd _|r n|r n|r n p|r n].
  - by eapply set_chunk_inv; [exact Hinv|exact Hidx|exact Hd|done|simpl; lia].
  - by eapply set_chunk_inv; [exact Hinv|exact Hidx|exact Hd|done|simpl; lia].
  - by eapply set_chunk_inv; [exact Hinv|exact Hidx|exact Hd|done|simpl; lia].
  - destruct Hinv as [Hc Hi Hf Hn]; simpl in *; apply maybeFire_inv; simpl; auto; [lia|].
    rewrite Hf; intros [? ?%bool_decide_eq_true]%andb_true_iff; split; [done|lia].
  - destruct Hinv as [Hc Hi Hf Hn]; simpl in *; apply maybeFire_inv; simpl; auto.
    rewrite Hf; intros [? ?%bool_decide_eq_true]%andb_true_iff; split; [done|lia].
  - by destruct Hinv; split.
  - by destruct Hinv; split.
Qed.

Lemma new_reader_inv size body r :
  NewHttpChunkedReader size body = Ret r -> fetching_inv (MkFetching r 0).
Proof.
  unfold NewHttpChunkedReader; cbv zeta.
  set (cs := replicate _ _); destruct (nthZ cs 0) as [c|] eqn:E; [|done]; intros [= <-].
  assert (Hnone : Forall (fun c => c = newChunkItem) cs) by (unfold cs; by apply Forall_replicate).
  assert (c = newChunkItem) as -> by (rewrite Forall_forall in Hnone; apply Hnone; by eapply nthZ_In).
  assert (Hzero : data_count cs = 0).
  { clear -Hnone; induction Hnone as [|c cs -> _ IH]; [done|].
    change (newChunkItem :: cs) with ([newChunkItem] ++ cs); by rewrite data_count_app, IH. }
  split; simpl; auto.
  - rewrite (data_count_set _ _ newChunkItem), Hzero by done; reflexivity.
  - apply Forall_setZ; [|done]; eapply Forall_impl; [exact Hnone|]; by intros ? ->.
Qed.

(** A ten-byte file behind an honest server. *)
Definition demo_file : list Z := [0; 1; 2; 3; 4; 5; 6; 7; 8; 9].

Definition demo_server (_ : nat) (rg : Z * Z) : result (list Z) :=
  Ok (takeZ (rg.2 + 1 - rg.1) (dropZ rg.1 demo_file)).

Lemma demo_server_honest : honest demo_server demo_file.
Proof. intros n start stop data [= <-]; reflexivity. Qed.

Definition demo_reader : HttpChunkedReader :=
  MkReader [newChunkItem] 10 0 false 0 false false 0 0.

Lemma demo_reader_serves : serves demo_reader demo_file.
Proof.
  split; [reflexivity | reflexivity |]; simpl; intros i c d Hi Hc.
  apply nthZ_In, list_elem_of_singleton in Hi as ->; done.
Qed.

(** C5: A random-access read gives the file's bytes.  With an honest server,
    whichever chunks are already there, [ReadAt] at any position and length
    returns: the bytes copied are the file's at that position, the whole
    buffer when there is no error, exactly the rest of the file on [io.EOF],
    and a prefix of it on any other error; chunks fetched on the way are the
    file's, so later reads keep the guarantee. *)
Theorem readAt_returns_file_bytes (download : nat -> Z * Z -> result (list Z)) (file : list Z)
    (r : HttpChunkedReader) (plen pos : Z) :
  honest download file -> serves r file -> 0 <= plen -> 0 <= pos ->
  exists r' out err, ReadAt download r plen pos = Ret (r', out, err) /\ serves r' file /\
    out = takeZ (zlen out) (dropZ pos file) /\ zlen out <= plen /\
    (err = None -> zlen out = plen) /\ (err = Some io_EOF -> out = dropZ pos file).
Proof.
  intros Hh Hs Hp Hpos.
  destruct (ReadAt_spec download file Hh r plen pos Hs Hp Hpos) as (r' & out & err & H1 & H2 & _ & H3).
  exists r', out, err; auto.
Qed.

Lemma readAt_returns_file_bytes_witness :
  exists r' out err, ReadAt demo_server demo_reader 4 3 = Ret (r', out, err) /\ serves r' demo_file /\
    out = takeZ (zlen out) (dropZ 3 demo_file) /\ zlen out <= 4 /\
    (err = None -> zlen out = 4) /\ (err = Some io_EOF -> out = dropZ 3 demo_file).
Proof.
  apply (readAt_returns_file_bytes demo_server demo_file demo_reader 4 3 demo_server_honest
           demo_reader_serves); lia.
Defined.

(** Sequential reads walk the file: from any position inside it, a
    [Read] returns the bytes at the current position and moves it by exactly
    as many, so that the position never passes the end of the file. *)
Theorem sequential_read_advances (download : nat -> Z * Z -> result (list Z)) (file : list Z)
    (r : HttpChunkedReader) (plen : Z) :
  honest download file -> serves r file -> 0 <= plen -> 0 <= rpos r <= zlen file ->
  exists r' out err, Read download r plen = Ret (r', out, err) /\ serves r' file /\
    reads_file file plen (rpos r) out err /\
    rpos r' = rpos r + zlen out /\ 0 <= rpos r' <= zlen file.
Proof.
  intros Hh Hs Hp Hpos; unfold Read.
  destruct (ReadAt_spec download file Hh r plen (rpos r) Hs Hp ltac:(lia))
    as (r' & out & err & -> & Hs' & Hp' & Hrf).
  eexists _, out, err; split; [reflexivity|]; split_and!; auto; simpl; rewrite Hp'; [by destruct Hs'|done|zlen|].
  destruct Hrf as (Ho & _ & _ & _); apply (f_equal zlen) in Ho; rewrite zlen_takeZ, zlen_dropZ in Ho.
  pose proof (zlen_nonneg out); lia.
Qed.

Lemma sequential_read_advances_witness :
  exists r' out err, Read demo_server demo_reader 4 = Ret (r', out, err) /\ serves r' demo_file /\
    reads_file demo_file 4 0 out err /\ rpos r' = 0 + zlen out /\ 0 <= rpos r' <= 10.
Proof.
  apply (sequential_read_advances demo_server demo_file demo_reader 4 demo_server_honest
           demo_reader_serves); [lia | vm_compute; split; discriminate].
Defined.

(** A seek never leaves the file: for any 64-bit offset and origin, even
    where the sum wraps around, it either fails without moving or lands at the
    returned position, inside the file. *)
Theorem seek_stays_in_file (r : HttpChunkedReader) (offset : Z) (w : whence) :
  match Seek r offset w with
  | (r', Ok p) => r' = set_pos r p /\ 0 <= p < rlen r
  | (r', Err _) => r' = r
  end.
Proof. unfold Seek; cbv zeta; case_decide; [done|]; split; [done|lia]. Qed.

(** Completion is reported exactly once.  Over any interleaving of chunk
    fetches that start, fail or store their data, completion marks, a callback
    registered at any time, seeks and a close, the callback has run exactly
    once when it is registered and every chunk has been marked, and not at all
    before: when it runs every chunk is there.  No chunk is fetched again once
    it is stored. *)
Theorem completion_fires_once (size : Z) (body : list Z) (r : HttpChunkedReader) (f : fetching) :
  NewHttpChunkedReader size body = Ret r -> star fetch_step (MkFetching r 0) f ->
  fires (reader f) =
    (if hasCallback (reader f) && bool_decide (zlen (chunks (reader f)) <= completedChunks (reader f))
     then 1%nat else 0%nat) /\
  (fires (reader f) = 1%nat -> Forall (fun c => has_data c = true) (chunks (reader f))) /\
  Forall (fun c => chunk_data c <> None -> chunk_fetching c = false) (chunks (reader f)).
Proof.
  intros Hnew Hsteps.
  destruct (star_invariant fetch_step fetching_inv fetch_step_inv _ _ Hsteps (new_reader_inv _ _ _ Hnew))
    as [Hc Hi Hf Hn].
  rewrite Hn, Hf; split_and!; [done| |done].
  destruct (hasCallback (reader f)); simpl; [case_bool_decide as Hz|]; intros; try done.
  apply data_count_all; pose proof (data_count_le (chunks (reader f))); lia.
Qed.

Lemma completion_fires_once_witness :
  exists r, NewHttpChunkedReader 10 demo_file = Ret r /\
    fires (reader (MkFetching (OnComplete r) 0)) = 1%nat.
Proof.
  eexists; split; [reflexivity|].
  eapply eq_trans;
    [eapply (completion_fires_once 10 demo_file _ (MkFetching (OnComplete _) 0));
       [reflexivity | eapply star_step; [apply fs_onComplete | apply star_refl]]
    | reflexivity].
Defined.

(** A zero-length resource crashes the reader: with a Content-Range size
    of 0 no chunk is made and storing the first one is out of range. *)
Theorem empty_file_panics (body : list Z) :
  exists why, NewHttpChunkedReader 0 body = Panic why.
Proof. eexists; reflexivity. Qed.
