(* ===== verification/ChunkedRefine.v ===== *)
(** * The chunked reader implements a file cursor ([src/audio/chunked-reader.go])

    What the decoders rely on: an [io.ReadSeeker] and [io.ReaderAt] over one
    file, specified without chunks, downloads or 64-bit sums, and the proof
    that any sequence of operations on [HttpChunkedReader] is one of it. *)

From S2P Require Import Prelude Chunked.
#[local] Open Scope list_scope.
#[local] Open Scope Z_scope.

(** ** Operations and their answers *)
Inductive reader_op :=
| OpReadAt (n pos : Z)
| OpRead (n : Z)
| OpSeek (offset : Z) (w : whence)
| OpClose.

Inductive answer :=
| ABytes (out : list Z) (err : option error)
| APos (res : result Z)
| AClosed.

(** Arguments the callers give: buffers have a length, positions are not
    negative, offsets are 64-bit. *)
Definition op_ok (o : reader_op) : Prop :=
  match o with
  | OpReadAt n pos => 0 <= n /\ 0 <= pos
  | OpRead n => 0 <= n
  | OpSeek offset _ => - 2 ^ 63 <= offset < 2 ^ 63
  | OpClose => True
  end.

(** ** The abstract reader *)
Record cursor := MkCursor { at_pos : Z; shut : bool }.

(** Where a seek asks to go, over the integers. *)
Definition seek_target (file : list Z) (c : cursor) (offset : Z) (w : whence) : Z :=
  match w with
  | SeekStart => offset
  | SeekCurrent => at_pos c + offset
  | SeekEnd => zlen file + offset
  end.

Inductive file_step (file : list Z) (c : cursor) : reader_op -> answer -> cursor -> Prop :=
| fs_readAt n pos out err :
    shut c = false -> reads_file file n pos out err ->
    file_step file c (OpReadAt n pos) (ABytes out err) c
| fs_read n out err :
    shut c = false -> reads_file file n (at_pos c) out err ->
    file_step file c (OpRead n) (ABytes out err) (MkCursor (at_pos c + zlen out) false)
| fs_readAt_shut n pos :
    shut c = true -> file_step file c (OpReadAt n pos) (ABytes [] (Some net_ErrClosed)) c
| fs_read_shut n :
    shut c = true -> file_step file c (OpRead n) (ABytes [] (Some net_ErrClosed)) c
| fs_seek offset w :
    0 <= seek_target file c offset w < zlen file ->
    file_step file c (OpSeek offset w) (APos (Ok (seek_target file c offset w)))
              (MkCursor (seek_target file c offset w) (shut c))
| fs_seek_bad offset w e :
    seek_target file c offset w < 0 \/ zlen file <= seek_target file c offset w ->
    file_step file c (OpSeek offset w) (APos (Err e)) c
| fs_close : file_step file c OpClose AClosed (MkCursor (at_pos c) true).

Inductive file_trace (file : list Z) : cursor -> list reader_op -> list answer -> cursor -> Prop :=
| ft_nil c : file_trace file c [] [] c
| ft_cons c o a c' os as_ c'' :
    file_step file c o a c' -> file_trace file c' os as_ c'' ->
    file_trace file c (o :: os) (a :: as_) c''.

(** ** The same operations on the implementation *)
Definition apply_op (download : nat -> Z * Z -> result (list Z)) (r : HttpChunkedReader)
    (o : reader_op) : run (HttpChunkedReader * answer) :=
  match o with
  | OpReadAt n pos =>
    '(r', out, err) ← ReadAt download r n pos;
    Ret (r', ABytes out err)
  | OpRead n =>
    '(r', out, err) ← Read download r n;
    Ret (r', ABytes out err)
  | OpSeek offset w => let '(r', res) := Seek r offset w in Ret (r', APos res)
  | OpClose => Ret (Close r, AClosed)
  end.

Fixpoint apply_ops (download : nat -> Z * Z -> result (list Z)) (r : HttpChunkedReader)
    (os : list reader_op) : run (HttpChunkedReader * list answer) :=
  match os with
  | [] => Ret (r, [])
  | o :: os =>
    '(r', a) ← apply_op download r o;
    '(r'', as_) ← apply_ops download r' os;
    Ret (r'', a :: as_)
  end.

(** ** Simulation *)

(** The abstract state of a reader, and the relation the simulation keeps. *)
Definition cursor_of (r : HttpChunkedReader) : cursor := MkCursor (rpos r) (isClosed r).

Record tracks_file (r : HttpChunkedReader) (file : list Z) : Prop := {
  tf_serves : serves r file;
  tf_pos : 0 <= rpos r <= zlen file
}.

Lemma markChunkComplete_closed r : isClosed (markChunkComplete r) = isClosed r.
Proof. unfold markChunkComplete, maybeFireComplete; by case_match. Qed.

(** Reading never closes the reader. *)
Lemma fetchChunk_closed download r idx r' res :
  fetchChunk download r idx = Ret (r', res) -> isClosed r' = isClosed r.
Proof.
  unfold fetchChunk; destruct (index (chunks r) idx); try done; rewrite run_bind_Ret.
  destruct (isClosed r) eqn:E; [by intros [= <- <-]|].
  repeat (case_match; try done); intros [= <- <-]; rewrite ?markChunkComplete_closed; done.
Qed.

Lemma read_loop_closed download fuel r ci off plen acc r' out err :
  read_loop download fuel r ci off plen acc = Ret (r', out, err) -> isClosed r' = isClosed r.
Proof.
  revert r ci off plen acc; induction fuel as [|fuel IH]; intros r ci off plen acc; simpl;
    (case_decide; [case_decide|]); try (intros; by simplify_eq).
  intros H'; apply run_bind_inv in H' as ([r1 res] & Hf & H'); apply fetchChunk_closed in Hf; rewrite <- Hf.
  destruct res; [|by simplify_eq].
  repeat case_decide; try (by simplify_eq); eauto.
Qed.

Lemma ReadAt_closed download r plen pos r' out err :
  ReadAt download r plen pos = Ret (r', out, err) -> isClosed r' = isClosed r.
Proof.
  unfold ReadAt; destruct (isClosed r) eqn:E; [intros; by simplify_eq|]; cbv zeta.
  case_decide; [intros; by simplify_eq|]; intros H'; apply read_loop_closed in H'; congruence.
Qed.

Lemma reads_file_length file n pos out err :
  0 <= pos <= zlen file -> reads_file file n pos out err -> pos + zlen out <= zlen file.
Proof.
  intros Hp (Ho & _); apply (f_equal zlen) in Ho; rewrite zlen_takeZ, zlen_dropZ in Ho.
  pose proof (zlen_nonneg out); lia.
Qed.

Lemma i64_target a b len :
  0 <= a <= len -> len < 2 ^ 63 -> - 2 ^ 63 <= b < 2 ^ 63 ->
  (0 <= a + b < len -> i64 (a + b) = a + b) /\
  (a + b < 0 \/ len <= a + b -> i64 (a + b) < 0 \/ len <= i64 (a + b)).
Proof.
  intros Ha Hl Hb; unfold i64, swrap, wrap; change (64 - 1) with 63.
  assert (H64 : 2 ^ 64 = 2 * 2 ^ 63) by reflexivity.
  destruct (decide (a + b < 2 ^ 63)).
  - rewrite Z.mod_small by lia; lia.
  - assert ((a + b + 2 ^ 63) mod 2 ^ 64 = a + b + 2 ^ 63 - 2 ^ 64) as ->; [|lia].
    symmetry; apply Z.mod_unique with (q := 1); lia.
Qed.

Section simulation.
Context (download : nat -> Z * Z -> result (list Z)) (file : list Z).
Context (Hhonest : honest download file) (Hsize : zlen file < 2 ^ 63).

Lemma sim_seek r offset w :
  tracks_file r file -> - 2 ^ 63 <= offset < 2 ^ 63 ->
  exists r' res, Seek r offset w = (r', res) /\ tracks_file r' file /\
    file_step file (cursor_of r) (OpSeek offset w) (APos res) (cursor_of r').
Proof.
  intros [Hs Hp] Hoff; unfold Seek; cbv zeta.
  set (t := match w with SeekCurrent => _ | SeekStart => _ | SeekEnd => _ end).
  set (T := seek_target file (cursor_of r) offset w).
  assert (Ht : (0 <= T < zlen file -> t = T) /\ (T < 0 \/ zlen file <= T -> t < 0 \/ zlen file <= t)).
  { subst t T; destruct w; simpl; [lia|by apply i64_target|].
    rewrite (sv_len _ _ Hs); apply i64_target; pose proof (zlen_nonneg file); lia. }
  rewrite (sv_len _ _ Hs).
  destruct (decide (0 <= T < zlen file)) as [Hin|Hout].
  - rewrite (proj1 Ht Hin); rewrite decide_False by lia; do 2 eexists; split; [done|]; split.
    + split; [by destruct Hs|simpl; lia].
    + by apply fs_seek.
  - rewrite decide_True by (apply (proj2 Ht); lia); do 2 eexists; split; [done|]; split; [done|].
    apply fs_seek_bad; fold T; lia.
Qed.

Lemma sim_step r o :
  tracks_file r file -> op_ok o ->
  exists r' a, apply_op download r o = Ret (r', a) /\ tracks_file r' file /\
    file_step file (cursor_of r) o a (cursor_of r').
Proof.
  intros Ht Ho; destruct (Ht) as [Hs Hp]; destruct o as [n pos|n|offset w|]; simpl in *.
  - destruct (ReadAt_spec download file Hhonest r n pos Hs ltac:(lia) ltac:(lia))
      as (r' & out & err & E & Hs' & Hp' & Hrf); rewrite E; pose proof (ReadAt_closed _ _ _ _ _ _ _ E) as Hc.
    do 2 eexists; split; [reflexivity|]; split; [split; [done|lia]|].
    replace (cursor_of r') with (cursor_of r) by (unfold cursor_of; congruence).
    destruct (isClosed r) eqn:Ec; [|by apply fs_readAt].
    unfold ReadAt in E; rewrite Ec in E; simplify_eq; by apply fs_readAt_shut.
  - unfold Read; destruct (ReadAt_spec download file Hhonest r n (rpos r) Hs ltac:(lia) ltac:(lia))
      as (r' & out & err & E & Hs' & Hp' & Hrf); rewrite E; pose proof (ReadAt_closed _ _ _ _ _ _ _ E) as Hc.
    pose proof (reads_file_length _ _ _ _ _ Hp Hrf); pose proof (zlen_nonneg out).
    do 2 eexists; split; [reflexivity|]; split; [split; [by destruct Hs'|simpl; lia]|].
    unfold cursor_of at 2; simpl; rewrite Hp', Hc.
    destruct (isClosed r) eqn:Ec; [|by apply fs_read].
    unfold ReadAt in E; rewrite Ec in E; simplify_eq.
    replace (MkCursor (rpos r' + zlen []) true) with (cursor_of r')
      by (unfold cursor_of; rewrite zlen_nil, Z.add_0_r; congruence).
    by apply fs_read_shut.
  - destruct (sim_seek r offset w Ht Ho) as (r' & res & -> & ? & ?); eauto.
  - do 2 eexists; split; [reflexivity|]; split; [split; [by destruct Hs|done]|apply fs_close].
Qed.

Lemma sim_ops os : forall r, tracks_file r file -> Forall op_ok os ->
  exists r' as_, apply_ops download r os = Ret (r', as_) /\ tracks_file r' file /\
    file_trace file (cursor_of r) os as_ (cursor_of r').
Proof.
  induction os as [|o os IH]; intros r Ht Hos; simpl; [by do 2 eexists; split_and!; [| |constructor]|].
  inversion_clear Hos as [|?? Ho Hos'].
  destruct (sim_step r o Ht Ho) as (r1 & a & -> & Ht1 & Hst).
  destruct (IH r1 Ht1 Hos') as (r2 & as_ & E & Ht2 & Htr); cbn; rewrite E.
  do 2 eexists; split_and!; [reflexivity|done|by econstructor].
Qed.
End simulation.

(** What the abstract reader promises its clients: the bytes of consecutive
    sequential reads are consecutive bytes of the file. *)
Fixpoint bytes_of (as_ : list answer) : list Z :=
  match as_ with
  | ABytes out _ :: as_ => out ++ bytes_of as_
  | _ :: as_ => bytes_of as_
  | [] => []
  end.

Lemma trace_of_reads file ns : forall c as_ c',
  0 <= at_pos c <= zlen file ->
  file_trace file c (OpRead <$> ns) as_ c' ->
  bytes_of as_ = takeZ (zlen (bytes_of as_)) (dropZ (at_pos c) file) /\
  at_pos c' = at_pos c + zlen (bytes_of as_).
Proof.
  induction ns as [|n ns IH]; intros c as_ c' Hc Htr; simpl in Htr.
  - inversion Htr; subst; simpl; rewrite zlen_nil; split; [done|lia].
  - inversion Htr as [|? ? a c1 ? as1 ? Hst Htr1]; subst; inversion Hst; subst; simpl.
    + match goal with Hr : reads_file _ _ _ _ _ |- _ =>
        pose proof (reads_file_length _ _ _ _ _ Hc Hr); destruct Hr as (Ho & _) end.
      pose proof (zlen_nonneg out).
      destruct (IH (MkCursor (at_pos c + zlen out) false) as1 c' ltac:(simpl; lia) Htr1) as [Hb Hp].
      simpl in Hb, Hp; rewrite zlen_app; split; [|lia].
      pose proof (zlen_nonneg (bytes_of as1)).
      rewrite takeZ_add, dropZ_dropZ, <- Ho, <- Hb by lia; done.
    + destruct (IH _ _ _ Hc Htr1); auto.
Qed.

(** C26: The chunked reader refines a plain file.  Over an honest server and a
    file of less than 2^63 bytes, any sequence of positioned reads, sequential
    reads, seeks with any 64-bit offset and closes comes back, and its answers
    are those of a reader that holds the whole file and a cursor: bytes of the
    file, seeks that succeed exactly when the target over the integers lies
    inside it, although the code adds 64-bit numbers that may wrap, and
    [net.ErrClosed] after a close.  A run of sequential reads therefore streams
    the file from the current position without a gap. *)
Theorem chunked_reader_refines_file (download : nat -> Z * Z -> result (list Z)) (file : list Z)
    (r : HttpChunkedReader) (os : list reader_op) :
  honest download file -> zlen file < 2 ^ 63 -> serves r file -> 0 <= rpos r <= zlen file ->
  Forall op_ok os ->
  exists r' as_, apply_ops download r os = Ret (r', as_) /\
    file_trace file (cursor_of r) os as_ (cursor_of r') /\
    (forall ns, os = OpRead <$> ns ->
       bytes_of as_ = takeZ (zlen (bytes_of as_)) (dropZ (rpos r) file)).
Proof.
  intros Hh Hz Hs Hp Hos.
  destruct (sim_ops download file Hh Hz os r (Build_tracks_file _ _ Hs Hp) Hos)
    as (r' & as_ & E & _ & Htr).
  exists r', as_; split_and!; [done..|]; intros ns ->; by eapply (trace_of_reads file ns (cursor_of r)).
Qed.

Lemma chunked_reader_refines_file_witness :
  exists r' as_,
    apply_ops demo_server demo_reader [OpRead 3; OpSeek (-4) SeekEnd; OpRead 9; OpClose; OpReadAt 1 0]
      = Ret (r', as_) /\
    file_trace demo_file (MkCursor 0 false)
      [OpRead 3; OpSeek (-4) SeekEnd; OpRead 9; OpClose; OpReadAt 1 0] as_ (cursor_of r').
Proof.
  destruct (chunked_reader_refines_file demo_server demo_file demo_reader
    [OpRead 3; OpSeek (-4) SeekEnd; OpRead 9; OpClose; OpReadAt 1 0]) as (r' & as_ & E & Htr & _).
  - apply demo_server_honest.
  - reflexivity.
  - apply demo_reader_serves.
  - vm_compute; split; discriminate.
  - repeat constructor; simpl; lia.
  - exists r', as_; split; [exact E | exact Htr].
Defined.
