(* ===== verification/Audio.v ===== *)
(** * Audio decryption, keys and download statistics
    ([src/audio/decryptor.go], [src/audio/provider.go], the statistics of
    [src/audio/chunked-reader.go])

    The AES block cipher is a parameter; its counter mode and the random access
    into it are modelled, over any [io.ReaderAt]. *)

From stdpp Require Import sorting.
From S2P Require Import Prelude Chunked.
#[local] Open Scope list_scope.
#[local] Open Scope Z_scope.

(** ** Decryptor *)
Definition baseIv : list Z :=
  [0x72; 0xe0; 0x67; 0xfb; 0xdd; 0xcb; 0xcf; 0x77; 0xeb; 0xe8; 0xbc; 0x64; 0x3f; 0x63; 0x0d; 0x93].

Definition BlockSize : Z := 16.

Section decryptor.
(** The block cipher under the audio key. *)
Context (cipher : list Z -> list Z).

(** The [j]-th key stream byte of [cipher.NewCTR(c, iv)]: the 128-bit counter
    starts at [iv] and grows by one per block. *)
Definition keystream (iv : list Z) (j : Z) : Z :=
  default 0 (nthZ (cipher (be_bytes BlockSize (be_val iv + j / BlockSize))) (j `mod` BlockSize)).

(** [XORKeyStream] on a stream that has produced [used] bytes. *)
Fixpoint XORKeyStream (iv : list Z) (used : Z) (src : list Z) : list Z :=
  match src with
  | [] => []
  | b :: src => Z.lxor b (keystream iv used) :: XORKeyStream iv (used + 1) src
  end.

Definition newIv (pos : Z) : list Z :=
  let block := u64 (Z.quot pos BlockSize) in
  let counter := u64 (be_val (dropZ 8 baseIv) + block) in
  takeZ 8 baseIv ++ be_bytes 8 counter.

Context {R : Type} `{ReaderAt R}.

Definition Decryptor_ReadAt (r : R) (plen pos : Z) : run (R * list Z * option error) :=
  let off := Z.rem pos BlockSize in
  '(r, out, err) ← ra_ReadAt r plen pos;
  Ret (r, XORKeyStream (newIv pos) off out, err).
End decryptor.

(** ** Key requests *)
Inductive keyPacket :=
| PacketTypeAesKey (payload : list Z)
| PacketTypeAesKeyError (payload : list Z).

Inductive keyResponse :=
| KeyOk (key : list Z)
| KeyErr (e : error)
| KeyProviderError (code : Z).

Record keyRequest := MkKeyRequest { kr_id : nat; kr_gid : list Z; kr_fileId : list Z }.

Record keyLoop := MkKeyLoop { kl_seq : Z; kl_reqs : gmap Z keyRequest }.

Definition init_keyLoop : keyLoop := MkKeyLoop 0 ∅.

Definition payload_of (pkt : keyPacket) : list Z :=
  match pkt with PacketTypeAesKey p | PacketTypeAesKeyError p => p end.

(** [binary.Read] of [n] big-endian bytes, leaving the zero it started with
    when there are not enough. *)
Definition read_be (n : Z) (p : list Z) : Z := if decide (n <= zlen p) then be_val (takeZ n p) else 0.

(** What is left to read after a [binary.Read] of [n] bytes: a short read
    consumes what there is. *)
Definition rest_after (n : Z) (p : list Z) : list Z := dropZ n p.

(** One packet received by [recvLoop]: the new state and the answers sent. *)
Definition recv_packet (l : keyLoop) (pkt : keyPacket) : keyLoop * list (nat * keyResponse) :=
  let respSeq := read_be 4 (payload_of pkt) in
  match kl_reqs l !! respSeq with
  | None => (l, [])
  | Some req =>
    let l := MkKeyLoop (kl_seq l) (delete respSeq (kl_reqs l)) in
    let rest := rest_after 4 (payload_of pkt) in
    match pkt with
    | PacketTypeAesKey _ =>
      if decide (zlen rest < 16)
      then (l, [(kr_id req, KeyErr (EWrap "malformed aes key response"
                   (if decide (zlen rest = 0) then io_EOF else io_ErrUnexpectedEOF)))])
      else (l, [(kr_id req, KeyOk (takeZ 16 rest))])
    | PacketTypeAesKeyError _ => (l, [(kr_id req, KeyProviderError (read_be 2 rest))])
    end
  end.

(** The payload of a key request. *)
Definition request_payload (req : keyRequest) (seq : Z) : list Z :=
  kr_fileId req ++ kr_gid req ++ be_bytes 4 seq ++ be_bytes 2 0.

(** One request taken by [recvLoop]; [send] is what [ap.Send] returned. *)
Definition recv_request (l : keyLoop) (req : keyRequest) (send : option error)
  : keyLoop * list Z * list (nat * keyResponse) :=
  let reqSeq := kl_seq l in
  let l := MkKeyLoop (u32 (reqSeq + 1)) (<[reqSeq := req]> (kl_reqs l)) in
  let payload := request_payload req reqSeq in
  match send with
  | Some e => (MkKeyLoop (kl_seq l) (delete reqSeq (kl_reqs l)), payload,
               [(kr_id req, KeyErr (EWrap "failed sending key request" e))])
  | None => (l, payload, [])
  end.

(** ** Download statistics: over the recorded latencies *)
Definition InitialLatency (l : list Z) : Z := match l with [] => 0 | x :: _ => x end.

Definition MaxLatency (l : list Z) : Z :=
  match l with
  | [] => 0
  | x :: _ => foldl (fun m y => if decide (m < y) then y else m) x l
  end.

Definition MinLatency (l : list Z) : Z :=
  match l with
  | [] => 0
  | x :: _ => foldl (fun m y => if decide (y < m) then y else m) x l
  end.

Definition TotalTime (l : list Z) : Z := foldl Z.add 0 l.

Definition MedianLatency (l : list Z) : run Z :=
  if decide (zlen l = 0) then Ret 0
  else
    let sorted := merge_sort Z.le l in
    let mid := Z.quot (zlen l) 2 in
    if decide (Z.rem (zlen l) 2 = 0) then
      a ← index sorted (mid - 1);
      b ← index sorted mid;
      Ret (Z.quot (a + b) 2)
    else index sorted mid.

(** ** Counter mode at any position *)
Lemma newIv_val pos : 0 <= pos < 2 ^ 63 -> be_val (newIv pos) = be_val baseIv + pos / BlockSize.
Proof.
  intros Hp; unfold newIv, BlockSize; cbv zeta.
  rewrite Z.quot_div_nonneg by lia.
  assert (Hb : 0 <= pos / 16 < 2 ^ 59) by (split; [apply Z.div_pos; lia | apply Z.div_lt_upper_bound; lia]).
  unfold u64; rewrite (wrap_small 64 (pos / 16)) by lia.
  change (be_val (dropZ 8 baseIv)) with 0xebe8bc643f630d93.
  rewrite wrap_small by lia.
  rewrite be_val_app by (apply be_bytes_ok; lia).
  rewrite zlen_be_bytes, be_val_be_bytes, Z.mod_small by lia.
  change (be_val (takeZ 8 baseIv)) with 0x72e067fbddcbcf77.
  change (be_val baseIv) with 0x72e067fbddcbcf77ebe8bc643f630d93; lia.
Qed.

Section ctr.
Context (cipher : list Z -> list Z).

Lemma keystream_newIv pos j :
  0 <= pos < 2 ^ 63 -> 0 <= j ->
  keystream cipher (newIv pos) (Z.rem pos BlockSize + j) = keystream cipher baseIv (pos + j).
Proof.
  intros Hp Hj; unfold keystream; rewrite newIv_val by done.
  rewrite Z.rem_mod_nonneg by (unfold BlockSize; lia); unfold BlockSize in *.
  pose proof (Z.div_mod pos 16 ltac:(lia)) as Hdm.
  set (q := pos / 16) in *; set (o := pos `mod` 16) in *.
  replace (pos + j) with ((o + j) + q * 16) by lia.
  rewrite Z.div_add, Z.mod_add by lia; do 4 f_equal; lia.
Qed.

Lemma XORKeyStream_newIv pos j src :
  0 <= pos < 2 ^ 63 -> 0 <= j ->
  XORKeyStream cipher (newIv pos) (Z.rem pos BlockSize + j) src = XORKeyStream cipher baseIv (pos + j) src.
Proof.
  intros Hp; revert j; induction src as [|b src IH]; intros j Hj; simpl; [done|].
  rewrite keystream_newIv by done; f_equal.
  rewrite <- !Z.add_assoc; apply IH; lia.
Qed.

Lemma zlen_XORKeyStream iv used src : zlen (XORKeyStream cipher iv used src) = zlen src.
Proof. revert used; induction src; intros; simpl; rewrite ?zlen_cons; congruence. Qed.

Lemma takeZ_XORKeyStream iv used n src :
  takeZ n (XORKeyStream cipher iv used src) = XORKeyStream cipher iv used (takeZ n src).
Proof.
  unfold takeZ; generalize (Z.to_nat n) as m; intros m; revert used src.
  induction m; intros used [|b src]; simpl; f_equal; auto.
Qed.

Lemma drop_XORKeyStream iv used m src :
  drop m (XORKeyStream cipher iv used src) = XORKeyStream cipher iv (used + Z.of_nat m) (drop m src).
Proof.
  revert used src; induction m as [|m IH]; intros used [|b src]; cbn [drop XORKeyStream]; auto.
  - by rewrite Z.add_0_r.
  - rewrite IH; f_equal; lia.
Qed.

Lemma dropZ_XORKeyStream iv used n src :
  0 <= n -> dropZ n (XORKeyStream cipher iv used src) = XORKeyStream cipher iv (used + n) (dropZ n src).
Proof. intros Hn; unfold dropZ; by rewrite drop_XORKeyStream, Z2Nat.id by done. Qed.

(** Decrypting the piece at [pos] is the piece at [pos] of the decrypted file. *)
Lemma decrypted_piece file pos m :
  0 <= pos -> 0 <= m ->
  XORKeyStream cipher baseIv pos (takeZ m (dropZ pos file)) =
  takeZ m (dropZ pos (XORKeyStream cipher baseIv 0 file)).
Proof.
  intros Hp Hm; rewrite dropZ_XORKeyStream by lia; by rewrite takeZ_XORKeyStream.
Qed.
End ctr.

(** C38: Decryption is random access.  Over any reader that serves the
    encrypted file, the decryptor serves the decrypted one: a read at any
    64-bit position gives the bytes at that position of the file decrypted from
    its start, with the same guarantees about short reads, and the 64-bit
    counter it bumps never overflows. *)
Theorem decryptor_serves_plaintext (cipher : list Z -> list Z) (R : Type) `{ReaderAt R}
    (serves : R -> list Z -> Prop) (r : R) (file : list Z) (plen pos : Z) :
  ReaderAtLaws R serves -> serves r file -> 0 <= plen -> 0 <= pos < 2 ^ 63 ->
  exists r' out err, Decryptor_ReadAt cipher r plen pos = Ret (r', out, err) /\ serves r' file /\
    reads_file (XORKeyStream cipher baseIv 0 file) plen pos out err.
Proof.
  intros Hlaws Hs Hn Hp; unfold Decryptor_ReadAt; cbv zeta.
  destruct (ra_ReadAt_ok r file plen pos Hs Hn Hp) as (r' & out & err & -> & Hs' & Ho & Hz & Hfull & Heof).
  cbn [mbind run_bind]; eexists r', _, err; split; [reflexivity|]; split; [done|].
  rewrite <- (Z.add_0_r (Z.rem pos BlockSize)), XORKeyStream_newIv by lia; rewrite Z.add_0_r.
  unfold reads_file; rewrite zlen_XORKeyStream; split_and!; auto.
  - rewrite Ho at 1; apply decrypted_piece; [lia | apply zlen_nonneg].
  - intros E; rewrite (Heof E).
    rewrite <- (takeZ_all (zlen file) (dropZ pos file)) by (rewrite zlen_dropZ; pose proof (zlen_nonneg file); lia).
    rewrite decrypted_piece by (try apply zlen_nonneg; lia).
    apply takeZ_all; rewrite zlen_dropZ, zlen_XORKeyStream; pose proof (zlen_nonneg file); lia.
Qed.

Lemma decryptor_serves_plaintext_witness :
  let cipher b := b in
  exists r' out err, @Decryptor_ReadAt cipher HttpChunkedReader (chunked_ReaderAt demo_server) demo_reader 4 3
      = Ret (r', out, err) /\ (demo_file = demo_file /\ serves r' demo_file) /\
    reads_file (XORKeyStream cipher baseIv 0 demo_file) 4 3 out err.
Proof.
  apply (@decryptor_serves_plaintext (fun b => b) HttpChunkedReader (chunked_ReaderAt demo_server)
    (fun r f => f = demo_file /\ serves r f) demo_reader demo_file 4 3);
    [exact (chunked_ReaderAtLaws demo_server demo_file demo_server_honest)
    | split; [reflexivity | exact demo_reader_serves] | lia | lia].
Defined.

(** ** The key loop over a session *)
Inductive key_event :=
| KeyRequested (req : keyRequest) (send : option error)
| KeyReceived (pkt : keyPacket).

Record key_run := MkKeyRun { kx_loop : keyLoop; kx_asked : list nat; kx_answers : list (nat * keyResponse) }.

Definition key_step (k : key_run) (ev : key_event) : key_run :=
  match ev with
  | KeyRequested req send =>
    let '(l, _, ans) := recv_request (kx_loop k) req send in
    MkKeyRun l (kx_asked k ++ [kr_id req]) (kx_answers k ++ ans)
  | KeyReceived pkt =>
    let '(l, ans) := recv_packet (kx_loop k) pkt in
    MkKeyRun l (kx_asked k) (kx_answers k ++ ans)
  end.

Definition key_session (evs : list key_event) : key_run :=
  foldl key_step (MkKeyRun init_keyLoop [] []) evs.

Definition outstanding (l : keyLoop) : list nat := (fun p => kr_id p.2) <$> map_to_list (kl_reqs l).

Definition requests_in (evs : list key_event) : list nat :=
  omap (fun ev => match ev with KeyRequested req _ => Some (kr_id req) | KeyReceived _ => None end) evs.

Record key_inv (k : key_run) : Prop := {
  ki_seq : kl_seq (kx_loop k) = u32 (zlen (kx_asked k));
  ki_keys : forall q, is_Some (kl_reqs (kx_loop k) !! q) -> 0 <= q < zlen (kx_asked k);
  ki_account : (kx_answers k).*1 ++ outstanding (kx_loop k) ≡ₚ kx_asked k
}.

Lemma outstanding_insert l q req seq :
  kl_reqs l !! q = None ->
  outstanding (MkKeyLoop seq (<[q := req]> (kl_reqs l))) ≡ₚ kr_id req :: outstanding l.
Proof. intros Hq; unfold outstanding; cbn [kl_reqs]; by rewrite map_to_list_insert by done. Qed.

Lemma outstanding_delete l q req seq :
  kl_reqs l !! q = Some req ->
  kr_id req :: outstanding (MkKeyLoop seq (delete q (kl_reqs l))) ≡ₚ outstanding l.
Proof.
  intros Hq; unfold outstanding; cbn [kl_reqs].
  rewrite <- (map_to_list_delete (kl_reqs l) q req Hq); reflexivity.
Qed.

Lemma recv_packet_cases l pkt :
  recv_packet l pkt = (l, []) \/
  exists req resp, kl_reqs l !! read_be 4 (payload_of pkt) = Some req /\
    recv_packet l pkt =
      (MkKeyLoop (kl_seq l) (delete (read_be 4 (payload_of pkt)) (kl_reqs l)), [(kr_id req, resp)]).
Proof.
  unfold recv_packet; destruct (kl_reqs l !! read_be 4 (payload_of pkt)) as [req|] eqn:E; [|by left].
  right; destruct pkt; [case_decide|]; eexists req, _; split; reflexivity.
Qed.

Lemma key_step_inv k ev :
  key_inv k -> zlen (kx_asked k) + zlen (requests_in [ev]) < 2 ^ 32 -> key_inv (key_step k ev).
Proof.
  intros [Hseq Hkeys Hacc] Hlt; destruct ev as [req send|pkt]; unfold key_step.
  - change (zlen (requests_in [KeyRequested req send])) with 1 in Hlt.
    pose proof (zlen_nonneg (kx_asked k)); pose proof (@zlen_nil nat).
    assert (Hu : kl_seq (kx_loop k) = zlen (kx_asked k)) by (rewrite Hseq; apply wrap_small; lia).
    assert (Hfree : kl_reqs (kx_loop k) !! kl_seq (kx_loop k) = None).
    { destruct (kl_reqs (kx_loop k) !! kl_seq (kx_loop k)) eqn:E; [|done].
      destruct (Hkeys (kl_seq (kx_loop k))); [by eexists|lia]. }
    unfold recv_request; destruct send as [e|]; split; cbn [kx_loop kx_asked kx_answers kl_seq kl_reqs];
      rewrite ?zlen_app, ?zlen_cons, ?zlen_nil, ?Hu; auto; try (f_equal; lia).
    + rewrite <- Hu, delete_insert_id by done; intros q Hq; apply Hkeys in Hq; lia.
    + rewrite <- Hu, delete_insert_id by done; rewrite fmap_app, <- Hacc; simpl; unfold outstanding; cbn [kl_reqs].
      solve_Permutation.
    + intros q; destruct (decide (q = zlen (kx_asked k))) as [->|Hne]; [intros _; lia|].
      rewrite lookup_insert_ne by done; intros Hq%Hkeys; lia.
    + rewrite <- Hu, outstanding_insert, app_nil_r, <- Hacc by done; solve_Permutation.
  - destruct (recv_packet_cases (kx_loop k) pkt) as [->|(req & resp & Hq & ->)];
      split; cbn [kx_loop kx_asked kx_answers kl_seq kl_reqs]; auto.
    + by rewrite app_nil_r.
    + intros q [x Hx]; rewrite lookup_delete_Some in Hx; apply Hkeys; by eexists; apply Hx.
    + rewrite fmap_app, <- Hacc, <- (outstanding_delete _ _ _ (kl_seq (kx_loop k)) Hq); simpl; solve_Permutation.
Qed.

Lemma key_session_inv evs k :
  key_inv k -> zlen (kx_asked k) + zlen (requests_in evs) < 2 ^ 32 ->
  key_inv (foldl key_step k evs) /\ kx_asked (foldl key_step k evs) = kx_asked k ++ requests_in evs.
Proof.
  revert k; induction evs as [|ev evs IH]; intros k Hk Hlt; simpl; [by rewrite app_nil_r|].
  assert (Hsplit : requests_in (ev :: evs) = requests_in [ev] ++ requests_in evs)
    by (unfold requests_in; simpl; by case_match).
  rewrite Hsplit, zlen_app in Hlt; pose proof (zlen_nonneg (requests_in evs)).
  assert (Hask : kx_asked (key_step k ev) = kx_asked k ++ requests_in [ev]).
  { destruct ev as [req send|pkt]; unfold key_step; [by destruct send|].
    destruct (recv_packet (kx_loop k) pkt); by rewrite app_nil_r. }
  destruct (IH (key_step k ev)) as [Hi Ha].
  { apply key_step_inv; [done|lia]. }
  { rewrite Hask, zlen_app; lia. }
  split; [done|]; rewrite Ha, Hask, <- app_assoc; f_equal; symmetry; exact Hsplit.
Qed.

Lemma key_init_inv : key_inv (MkKeyRun init_keyLoop [] []).
Proof.
  split; [reflexivity | | reflexivity].
  intros q [x Hx]; cbn in Hx; by rewrite lookup_empty in Hx.
Qed.

Definition demo_request (i : nat) : keyRequest := MkKeyRequest i (replicate 16 1) (replicate 20 2).

Definition demo_key_events : list key_event :=
  [KeyRequested (demo_request 7) None; KeyRequested (demo_request 8) None;
   KeyReceived (PacketTypeAesKey (be_bytes 4 1 ++ replicate 16 5));
   KeyReceived (PacketTypeAesKeyError (be_bytes 4 0 ++ [0; 2]))].

(** Every key request is answered at most once, and by its own answer or
    failure.  Over any session of fewer than 2^32 requests, with any packets
    received in between, the requests answered together with those still
    waiting are exactly the requests made, so none is lost or answered twice
    when the requests are distinct. *)
Theorem key_requests_accounted (evs : list key_event) :
  zlen (requests_in evs) < 2 ^ 32 ->
  let k := key_session evs in
  (kx_answers k).*1 ++ outstanding (kx_loop k) ≡ₚ requests_in evs /\
  (NoDup (requests_in evs) -> NoDup (kx_answers k).*1).
Proof.
  intros Hlt k; destruct (key_session_inv evs _ key_init_inv) as [[_ _ Hacc] Hask]; [exact Hlt|].
  simpl in Hask; fold (key_session evs) in *; fold k in Hacc, Hask; rewrite Hask in Hacc.
  split; [done|]; rewrite <- Hacc; intros Hnd; by apply NoDup_app in Hnd as (? & _).
Qed.

Lemma key_requests_accounted_witness :
  (kx_answers (key_session demo_key_events)).*1 = [8%nat; 7%nat] /\
  NoDup (kx_answers (key_session demo_key_events)).*1.
Proof.
  split; [vm_compute; reflexivity|].
  apply (key_requests_accounted demo_key_events); [vm_compute; reflexivity|].
  apply (bool_decide_unpack _); vm_compute; exact I.
Defined.

(** A key goes to the request that asked for it.  The request packet
    carries the file id, the track id and the sequence number it is filed
    under; whatever else has been filed or received since, an answer that
    starts with those four bytes and holds a 16-byte key is delivered to that
    request alone, and frees its entry. *)
Theorem key_answer_reaches_requester (l l' l'' : keyLoop) (req : keyRequest) (payload key extra : list Z) :
  0 <= kl_seq l < 2 ^ 32 ->
  recv_request l req None = (l', payload, []) ->
  kl_reqs l'' !! kl_seq l = Some req -> zlen key = 16 ->
  let seqBytes := sliceZ (zlen (kr_fileId req) + zlen (kr_gid req))
                         (zlen (kr_fileId req) + zlen (kr_gid req) + 4) payload in
  kl_reqs l' !! kl_seq l = Some req /\
  recv_packet l'' (PacketTypeAesKey (seqBytes ++ key ++ extra)) =
    (MkKeyLoop (kl_seq l'') (delete (kl_seq l) (kl_reqs l'')), [(kr_id req, KeyOk key)]).
Proof.
  intros Hs Hreq Hq Hkey seqBytes; injection Hreq as <- <-.
  assert (Hb : seqBytes = be_bytes 4 (kl_seq l)).
  { unfold seqBytes, request_payload, sliceZ; pose proof (zlen_nonneg (kr_fileId req)); pose proof (zlen_nonneg (kr_gid req)).
    rewrite app_assoc; unfold dropZ; rewrite drop_app_ge by (rewrite length_app; unfold zlen; lia).
    rewrite length_app.
    replace (Z.to_nat (zlen (kr_fileId req) + zlen (kr_gid req)) -
             (length (kr_fileId req) + length (kr_gid req)))%nat with 0%nat by (unfold zlen; lia).
    rewrite drop_0; rewrite takeZ_app_le by (rewrite zlen_be_bytes; lia).
    apply takeZ_all; rewrite zlen_be_bytes; lia. }
  split; [cbn [kl_reqs]; apply lookup_insert_eq|].
  assert (Hlen : zlen (be_bytes 4 (kl_seq l)) = 4) by (apply zlen_be_bytes; lia).
  assert (Hseq : read_be 4 (seqBytes ++ key ++ extra) = kl_seq l).
  { unfold read_be; rewrite Hb, decide_True by (rewrite zlen_app, Hlen; pose proof (zlen_nonneg (key ++ extra)); lia).
    rewrite takeZ_app_le, takeZ_all by lia; rewrite be_val_be_bytes by lia; apply Z.mod_small; lia. }
  assert (Hrest : rest_after 4 (seqBytes ++ key ++ extra) = key ++ extra).
  { unfold rest_after; rewrite Hb, dropZ_app_le, dropZ_all by lia; done. }
  unfold recv_packet; cbn [payload_of]; rewrite Hseq, Hrest, Hq.
  rewrite decide_False by (rewrite zlen_app; pose proof (zlen_nonneg extra); lia).
  by rewrite takeZ_app_le, takeZ_all by lia.
Qed.

Lemma key_answer_reaches_requester_witness :
  let l' := (recv_request init_keyLoop (demo_request 7) None).1.1 in
  (recv_packet l' (PacketTypeAesKey ([0; 0; 0; 0] ++ replicate 16 5 ++ []))).2 = [(7%nat, KeyOk (replicate 16 5))].
Proof.
  cbv zeta.
  pose proof (key_answer_reaches_requester init_keyLoop
    (recv_request init_keyLoop (demo_request 7) None).1.1
    (recv_request init_keyLoop (demo_request 7) None).1.1 (demo_request 7)
    (recv_request init_keyLoop (demo_request 7) None).1.2 (replicate 16 5) []
    ltac:(split; vm_compute; [discriminate | reflexivity]) eq_refl eq_refl eq_refl) as [_ H].
  exact (f_equal snd H).
Defined.

(** A truncated answer fails the first request: a packet too short to
    hold a sequence number is read as sequence 0, so while the first key
    request is waiting it is answered with an error in its place. *)
Theorem truncated_answer_fails_first_request (l : keyLoop) (req : keyRequest) (payload : list Z) :
  kl_reqs l !! 0 = Some req -> zlen payload < 4 ->
  exists e, recv_packet l (PacketTypeAesKey payload) =
    (MkKeyLoop (kl_seq l) (delete 0 (kl_reqs l)), [(kr_id req, KeyErr e)]).
Proof.
  intros Hq Hp; unfold recv_packet, read_be; cbn [payload_of]; rewrite decide_False by lia; rewrite Hq.
  rewrite decide_True by (unfold rest_after; rewrite dropZ_all by lia; unfold zlen; simpl; lia); eauto.
Qed.

Lemma truncated_answer_fails_first_request_witness :
  exists e, recv_packet (recv_request init_keyLoop (demo_request 7) None).1.1 (PacketTypeAesKey [9]) =
    (MkKeyLoop 1 (delete 0 {[0 := demo_request 7]}), [(7%nat, KeyErr e)]).
Proof.
  apply (truncated_answer_fails_first_request
    (recv_request init_keyLoop (demo_request 7) None).1.1 (demo_request 7) [9]);
    [reflexivity | vm_compute; reflexivity].
Defined.

(** ** Statistics *)
Lemma foldl_max_spec x l :
  let m := foldl (fun m y => if decide (m < y) then y else m) x l in
  (m = x \/ m ∈ l) /\ x <= m /\ Forall (fun y => y <= m) l.
Proof.
  revert x; induction l as [|y l IH]; intros x; simpl; [split_and!; auto; lia|].
  specialize (IH (if decide (x < y) then y else x)); cbv zeta in *.
  set (m := foldl _ _ l) in *; destruct IH as (Hin & Hle & Hall).
  split_and!; [| |constructor; auto]; revert Hin Hle; case_decide; intros; try lia; set_solver.
Qed.

Lemma foldl_min_spec x l :
  let m := foldl (fun m y => if decide (y < m) then y else m) x l in
  (m = x \/ m ∈ l) /\ m <= x /\ Forall (fun y => m <= y) l.
Proof.
  revert x; induction l as [|y l IH]; intros x; simpl; [split_and!; auto; lia|].
  specialize (IH (if decide (y < x) then y else x)); cbv zeta in *.
  set (m := foldl _ _ l) in *; destruct IH as (Hin & Hle & Hall).
  split_and!; [| |constructor; auto]; revert Hin Hle; case_decide; intros; try lia; set_solver.
Qed.

(** The latency statistics are consistent: over at least one recorded
    latency the extremes are recorded values that bound all of them, and the
    median exists and lies between them. *)
Theorem latency_statistics_ordered (l : list Z) :
  l <> [] -> Forall (Z.le 0) l ->
  MinLatency l ∈ l /\ MaxLatency l ∈ l /\ Forall (fun x => MinLatency l <= x <= MaxLatency l) l /\
  exists m, MedianLatency l = Ret m /\ MinLatency l <= m <= MaxLatency l.
Proof.
  destruct l as [|x0 l0]; [done|]; set (l := x0 :: l0); intros _ Hpos.
  assert (Hmx : (MaxLatency l = x0 \/ MaxLatency l ∈ l) /\ x0 <= MaxLatency l /\
                Forall (fun y => y <= MaxLatency l) l) by exact (foldl_max_spec x0 l).
  assert (Hmn : (MinLatency l = x0 \/ MinLatency l ∈ l) /\ MinLatency l <= x0 /\
                Forall (fun y => MinLatency l <= y) l) by exact (foldl_min_spec x0 l).
  destruct Hmx as (Hmax & _ & Hmaxall), Hmn as (Hmin & _ & Hminall).
  assert (Hx0 : x0 ∈ l) by left.
  assert (Hb : Forall (fun x => MinLatency l <= x <= MaxLatency l) l)
    by (rewrite Forall_forall in Hmaxall, Hminall |- *; intros x Hx; split; auto).
  split_and!; [destruct Hmin as [->|]; auto | destruct Hmax as [->|]; auto | done |].
  assert (Hperm := merge_sort_Permutation Z.le l).
  assert (Hidx : forall i y, nthZ (merge_sort Z.le l) i = Some y -> 0 <= y /\ MinLatency l <= y <= MaxLatency l).
  { intros i y Hy%nthZ_In; rewrite Hperm in Hy; rewrite Forall_forall in Hb, Hpos; auto. }
  assert (Hlen : zlen (merge_sort Z.le l) = zlen l) by (unfold zlen; by rewrite Hperm).
  assert (Hl0 : 0 < zlen l) by (unfold l; zlen).
  assert (Hq : 0 <= Z.quot (zlen l) 2 < zlen l) by (split; [apply Z.quot_pos; lia | apply Z.quot_lt; lia]).
  unfold MedianLatency; rewrite decide_False by lia; cbv zeta; case_decide as Hev.
  - assert (Hq1 : 1 <= Z.quot (zlen l) 2) by (pose proof (Z.quot_rem (zlen l) 2); lia).
    destruct (index_returns (merge_sort Z.le l) (Z.quot (zlen l) 2 - 1)) as (a & -> & Ha); [lia|].
    destruct (index_returns (merge_sort Z.le l) (Z.quot (zlen l) 2)) as (b & -> & Hbb); [lia|]; cbn [mbind run_bind].
    apply Hidx in Ha, Hbb; eexists; split; [reflexivity|].
    rewrite Z.quot_div_nonneg by lia; split; [apply Z.div_le_lower_bound; lia | apply Z.div_le_upper_bound; lia].
  - destruct (index_returns (merge_sort Z.le l) (Z.quot (zlen l) 2)) as (b & -> & Hbb); [lia|].
    apply Hidx in Hbb; exists b; split; [done|tauto].
Qed.

Lemma latency_statistics_ordered_witness :
  MedianLatency [5; 1; 9; 3] = Ret 4 /\
  exists m, MedianLatency [5; 1; 9; 3] = Ret m /\ MinLatency [5; 1; 9; 3] <= m <= MaxLatency [5; 1; 9; 3].
Proof.
  split; [vm_compute; reflexivity|].
  apply (latency_statistics_ordered [5; 1; 9; 3]); [discriminate | repeat constructor; lia].
Defined.
