(* ===== verification/Cache.v ===== *)
(** * The audio file cache ([src/cache/cache.go], [src/cache/limiter.go])

    Files on disk keyed by file id, a size limiter that evicts the least
    recently used, and the atomic write of an entry as the sequence of file
    system operations it performs, so that a crash is a prefix of it. *)

From S2P Require Import Prelude Ids.
#[local] Open Scope list_scope.
#[local] Open Scope Z_scope.

Definition path := list Ascii.ascii.

Record limiterEntry := MkEntry { le_size : Z; le_atime : Z }.

Record sizeLimiter := MkLimiter { sl_limit : Z; sl_inUse : Z; sl_files : gmap path limiterEntry }.

(** What is on disk: contents and modification times. *)
Abbreviation disk := (gmap path (list Z * Z)).

Definition newSizeLimiter (limit : Z) : sizeLimiter := MkLimiter limit 0 ∅.

Definition tmp_suffix : path := String.list_ascii_of_string ".tmp".

(** [strings.HasSuffix(path, ".tmp")] *)
Definition is_tmp (p : path) : bool := bool_decide (tmp_suffix `suffix_of` p).

(** One file visited by [init]. *)
Definition init_visit (acc : sizeLimiter * disk) (file : path * (list Z * Z)) : sizeLimiter * disk :=
  let '(s, d) := acc in
  let '(p, (data, mtime)) := file in
  if is_tmp p then (s, delete p d)
  else (MkLimiter (sl_limit s) (sl_inUse s + zlen data) (<[p := MkEntry (zlen data) mtime]> (sl_files s)), d).

(** [filepath.Walk] visits every file once. *)
Definition limiter_init (s : sizeLimiter) (d : disk) : sizeLimiter * disk :=
  foldl init_visit (s, d) (map_to_list d).

Definition limiter_add (now : Z) (s : sizeLimiter) (p : path) (size : Z) : sizeLimiter :=
  let used := match sl_files s !! p with Some e => sl_inUse s - le_size e | None => sl_inUse s end in
  MkLimiter (sl_limit s) (used + size) (<[p := MkEntry size now]> (sl_files s)).

Definition limiter_touch (now : Z) (s : sizeLimiter) (p : path) : sizeLimiter :=
  match sl_files s !! p with
  | Some e => MkLimiter (sl_limit s) (sl_inUse s) (<[p := MkEntry (le_size e) now]> (sl_files s))
  | None => s
  end.

(** The scan for the oldest entry, over the map in Go's iteration order. *)
Definition scan_oldest (l : list (path * limiterEntry)) : option (path * limiterEntry) :=
  foldl (fun oldest pe =>
           match oldest with
           | None => Some pe
           | Some o => if decide (le_atime pe.2 < le_atime o.2) then Some pe else oldest
           end) None l.

Inductive remove_result := Removed | NotExist | RemoveFailed.

Section pruning.
(** The order in which [range] visits a map, and what [os.Remove] answers. *)
Context (range : gmap path limiterEntry -> list (path * limiterEntry)).
Context (os_Remove : disk -> path -> remove_result).

Definition removed (d : disk) (p : path) : disk :=
  match os_Remove d p with RemoveFailed => d | _ => delete p d end.

Fixpoint prune_loop (fuel : nat) (s : sizeLimiter) (d : disk) (evicted : list path)
  : run (sizeLimiter * disk * list path) :=
  if decide (sl_limit s < sl_inUse s) then
    match fuel with
    | O => OutOfFuel
    | S fuel =>
      match scan_oldest (range (sl_files s)) with
      | None => Ret (s, d, evicted)
      | Some (p, e) =>
        let s' := MkLimiter (sl_limit s) (sl_inUse s - le_size e) (delete p (sl_files s)) in
        let d' := removed d p in
        match os_Remove d p with
        | RemoveFailed => Ret (s', d', evicted)
        | _ => prune_loop fuel s' d' (evicted ++ [p])
        end
      end
    end
  else Ret (s, d, evicted).

(** Every round drops an entry, and the last finds none. *)
Definition prune (s : sizeLimiter) (d : disk) : run (sizeLimiter * disk * list path) :=
  prune_loop (S (size (sl_files s))) s d [].

(** ** The cache *)
Record Cache := MkCache { c_dir : path; c_limiter : option sizeLimiter; c_disk : disk }.

Definition hex_chars (fileId : list Z) : list Ascii.ascii :=
  b ← fileId; [hex_digit (b `div` 16); hex_digit (b `mod` 16)].

Definition dot : Ascii.ascii := Ascii.ascii_of_nat 46.
Definition slash : Ascii.ascii := Ascii.ascii_of_nat 47.

(** [filepath.Join(c.dir, name[:2], name[2:])]; an empty part is left out. *)
Definition filePath (dir : path) (fileId : list Z) : run path :=
  let name := hex_chars fileId in
  if decide (zlen name < 2) then Panic "slice bounds out of range"
  else
    let rest := dropZ 2 name in
    Ret (dir ++ [slash] ++ takeZ 2 name ++ (if decide (rest = []) then [] else slash :: rest)).

(** [New]: [sizeLimit] of zero or less disables eviction. *)
Definition cache_New (dir : path) (sizeLimit : Z) (d : disk) : run Cache :=
  if decide (0 < sizeLimit) then
    let '(s, d) := limiter_init (newSizeLimiter sizeLimit) d in
    '(s, d, _) ← prune s d;
    Ret (MkCache dir (Some s) d)
  else Ret (MkCache dir None d).

(** [File]: the contents found, with the entry's recency refreshed. *)
Definition cache_File (now : Z) (c : Cache) (fileId : list Z) : run (Cache * option (list Z)) :=
  p ← filePath (c_dir c) fileId;
  match c_disk c !! p with
  | None => Ret (c, None)
  | Some (data, _) =>
    Ret (MkCache (c_dir c) ((fun s => limiter_touch now s p) <$> c_limiter c)
                 (<[p := (data, now)]> (c_disk c)), Some data)
  end.

(** The file system operations of [SaveFile] up to the rename, for the data
    arriving in the given pieces. *)
Inductive fs_op :=
| FsCreate (p : path)
| FsAppend (p : path) (data : list Z)
| FsRename (p q : path)
| FsRemove (p : path).

Definition fs_apply (now : Z) (d : disk) (op : fs_op) : disk :=
  match op with
  | FsCreate p => <[p := ([], now)]> d
  | FsAppend p data =>
    match d !! p with Some (old, _) => <[p := (old ++ data, now)]> d | None => d end
  | FsRename p q => match d !! p with Some f => <[q := f]> (delete p d) | None => d end
  | FsRemove p => delete p d
  end.

Definition save_ops (p tmp : path) (pieces : list (list Z)) : list fs_op :=
  FsCreate tmp :: (FsAppend tmp <$> pieces) ++ [FsRename tmp p].

(** How reading the source or the file system went. *)
Inductive save_outcome := SaveOk | CreateFailed (e : error) | WriteFailed (n : nat) (e : error) | RenameFailed (e : error).

Definition SaveFile (now : Z) (c : Cache) (fileId rnd : list Z) (pieces : list (list Z)) (o : save_outcome)
  : run (Cache * option error) :=
  p ← filePath (c_dir c) fileId;
  let tmp := p ++ [dot] ++ hex_chars rnd ++ tmp_suffix in
  let ops := save_ops p tmp pieces in
  let keep d e := Ret (MkCache (c_dir c) (c_limiter c) d, Some e) in
  match o with
  | CreateFailed e => keep (c_disk c) (EWrap "failed creating temporary cache file" e)
  | WriteFailed n e =>
    keep (foldl (fs_apply now) (c_disk c) (take (S n) (FsCreate tmp :: (FsAppend tmp <$> pieces)) ++ [FsRemove tmp]))
         (EWrap "failed writing cache file" e)
  | RenameFailed e =>
    keep (foldl (fs_apply now) (c_disk c) ((FsCreate tmp :: (FsAppend tmp <$> pieces)) ++ [FsRemove tmp]))
         (EWrap "failed renaming cache file" e)
  | SaveOk =>
    let d := foldl (fs_apply now) (c_disk c) ops in
    match c_limiter c with
    | None => Ret (MkCache (c_dir c) None d, None)
    | Some s =>
      '(s, d, _) ← prune (limiter_add now s p (zlen (concat pieces))) d;
      Ret (MkCache (c_dir c) (Some s) d, None)
    end
  end.
End pruning.

(** ** Accounting *)
Definition total (m : gmap path limiterEntry) : Z := map_fold (fun _ e acc => le_size e + acc) 0 m.

Lemma total_insert m p e : m !! p = None -> total (<[p := e]> m) = le_size e + total m.
Proof.
  intros Hp; unfold total.
  rewrite (map_fold_insert_L (fun _ e acc => le_size e + acc)); [done | intros; lia | done].
Qed.

Lemma total_delete m p e : m !! p = Some e -> total m = le_size e + total (delete p m).
Proof.
  intros Hp; unfold total.
  rewrite (map_fold_delete_L (fun _ e acc => le_size e + acc) 0 p e); [done | intros; lia | done].
Qed.

Lemma total_replace m p e :
  total (<[p := e]> m) =
  le_size e + (match m !! p with Some o => total m - le_size o | None => total m end).
Proof.
  destruct (m !! p) as [o|] eqn:E.
  - rewrite <- insert_delete_eq, total_insert by apply lookup_delete_eq.
    rewrite (total_delete m p o E); lia.
  - by apply total_insert.
Qed.

Definition sizes_ok (m : gmap path limiterEntry) : Prop := map_Forall (fun _ e => 0 <= le_size e) m.

Lemma total_nonneg m : sizes_ok m -> 0 <= total m.
Proof.
  induction m as [|p e m Hp IH] using map_ind; intros Hok; [unfold total; rewrite map_fold_empty; lia|].
  rewrite total_insert by done; apply map_Forall_insert in Hok as [He Hm]; [|done].
  specialize (IH Hm); lia.
Qed.

Record limiter_ok (s : sizeLimiter) : Prop := {
  lo_total : sl_inUse s = total (sl_files s);
  lo_sizes : sizes_ok (sl_files s)
}.

Lemma add_ok now s p size : limiter_ok s -> 0 <= size -> limiter_ok (limiter_add now s p size).
Proof.
  intros [Ht Hs] Hsz; split; unfold limiter_add; simpl.
  - rewrite total_replace, Ht; simpl; destruct (sl_files s !! p); lia.
  - by apply map_Forall_insert_2.
Qed.

Lemma touch_ok now s p : limiter_ok s -> limiter_ok (limiter_touch now s p).
Proof.
  intros [Ht Hs]; unfold limiter_touch; destruct (sl_files s !! p) as [e|] eqn:E; [|by split].
  split; simpl; [rewrite total_replace, E, Ht; simpl; lia|].
  apply map_Forall_insert_2; [apply (Hs p e E) | done].
Qed.

(** ** Choosing what to evict *)
Lemma scan_oldest_fold l o :
  exists r, foldl (fun oldest pe =>
      match oldest with
      | None => Some pe
      | Some o => if decide (le_atime pe.2 < le_atime o.2) then Some pe else oldest
      end) (Some o) l = Some r /\
    (r = o \/ r ∈ l) /\ le_atime r.2 <= le_atime o.2 /\
    Forall (fun q : path * limiterEntry => le_atime r.2 <= le_atime q.2) l.
Proof.
  revert o; induction l as [|x l IH]; intros o; simpl.
  { exists o; split_and!; auto; lia. }
  case_decide; destruct (IH (if decide (le_atime x.2 < le_atime o.2) then x else o)) as (r & Hr & Hin & Hle & Hall);
    destruct (decide (le_atime x.2 < le_atime o.2)); try lia; rewrite Hr; exists r;
    split_and!; auto; try lia; try (constructor; auto; lia); set_solver.
Qed.

Lemma scan_oldest_spec l :
  match scan_oldest l with
  | None => l = []
  | Some r => r ∈ l /\ Forall (fun q : path * limiterEntry => le_atime r.2 <= le_atime q.2) l
  end.
Proof.
  destruct l as [|x l]; [done|]; unfold scan_oldest; cbn [foldl].
  destruct (scan_oldest_fold l x) as (r & -> & Hin & Hle & Hall).
  split; [set_solver | by constructor].
Qed.

(** The evictions a run of [prune] makes, oldest first, each while the
    tracked size is over the limit. *)
Inductive evictions : sizeLimiter -> disk -> list path -> sizeLimiter -> disk -> Prop :=
| ev_done s d : evictions s d [] s d
| ev_one s d p e ps s' d' :
    sl_limit s < sl_inUse s -> sl_files s !! p = Some e ->
    (forall q e', sl_files s !! q = Some e' -> le_atime e <= le_atime e') ->
    evictions (MkLimiter (sl_limit s) (sl_inUse s - le_size e) (delete p (sl_files s))) (delete p d) ps s' d' ->
    evictions s d (p :: ps) s' d'.

Lemma evictions_lookup s d ps s' d' :
  evictions s d ps s' d' ->
  (forall q, q ∈ ps -> sl_files s' !! q = None) /\
  (forall q, q ∉ ps -> sl_files s' !! q = sl_files s !! q /\ d' !! q = d !! q) /\
  (forall q, q ∈ ps -> d' !! q = None) /\
  (forall p e q e', p ∈ ps -> sl_files s !! p = Some e -> sl_files s' !! q = Some e' -> le_atime e <= le_atime e').
Proof.
  induction 1 as [s d|s d p e ps s' d' Hover Hp Hmin Hev (IH1 & IH2 & IH3 & IH4)]; [set_solver|].
  assert (Hpgone : sl_files s' !! p = None /\ d' !! p = None).
  { destruct (decide (p ∈ ps)); [by auto|]; destruct (IH2 p) as [-> ->]; [done|].
    split; apply lookup_delete_eq. }
  assert (Hrem : forall q e', sl_files s' !! q = Some e' -> le_atime e <= le_atime e').
  { intros q e' Hq; destruct (decide (q ∈ ps)) as [Hin|Hin]; [by rewrite IH1 in Hq|].
    destruct (IH2 q Hin) as [Heq _]; rewrite Heq in Hq; cbn [sl_files] in Hq.
    apply lookup_delete_Some in Hq as [_ Hq]; eauto. }
  split_and!.
  - intros q [->|Hq]%elem_of_cons; [tauto | auto].
  - intros q [Hne Hq]%not_elem_of_cons; destruct (IH2 q Hq) as [-> ->].
    split; by apply lookup_delete_ne.
  - intros q [->|Hq]%elem_of_cons; [tauto | auto].
  - intros r er q e' [->|Hr]%elem_of_cons Hre Hq.
    + rewrite Hp in Hre; injection Hre as <-; eauto.
    + destruct (decide (r = p)) as [->|Hne]; [rewrite Hp in Hre; injection Hre as <-; eauto|].
      apply (IH4 r er q e' Hr); [by rewrite <- Hre; apply lookup_delete_ne|done].
Qed.

Section prune_lemmas.
Context (range : gmap path limiterEntry -> list (path * limiterEntry)).
Context (os_Remove : disk -> path -> remove_result).
Hypothesis range_all : forall m, range m ≡ₚ map_to_list m.

Lemma scan_range m :
  match scan_oldest (range m) with
  | None => m = ∅
  | Some (p, e) => m !! p = Some e /\ forall q e', m !! q = Some e' -> le_atime e <= le_atime e'
  end.
Proof.
  pose proof (scan_oldest_spec (range m)) as Hs; pose proof (range_all m) as Hp.
  destruct (scan_oldest (range m)) as [[p e]|].
  - destruct Hs as [Hin Hall]; rewrite Hp in Hin; apply elem_of_map_to_list in Hin; split; [done|].
    intros q e' Hq; rewrite Forall_forall in Hall; apply (Hall (q, e')).
    rewrite Hp; by apply elem_of_map_to_list.
  - rewrite Hs in Hp; symmetry in Hp; apply Permutation_nil_r in Hp; by apply map_to_list_empty_iff.
Qed.

Hypothesis removable : forall d p, os_Remove d p <> RemoveFailed.

Lemma prune_loop_spec fuel s d acc :
  limiter_ok s -> (size (sl_files s) < fuel)%nat ->
  exists s' d' ps, prune_loop range os_Remove fuel s d acc = Ret (s', d', acc ++ ps) /\
    evictions s d ps s' d' /\ limiter_ok s' /\ (0 <= sl_limit s -> sl_inUse s' <= sl_limit s') /\
    sl_limit s' = sl_limit s.
Proof.
  revert s d acc; induction fuel as [|fuel IH]; intros s d acc Hok Hf; [lia|]; cbn [prune_loop].
  case_decide as Hd; cycle 1.
  { exists s, d, []; rewrite app_nil_r; split_and!; auto using ev_done; lia. }
  pose proof (scan_range (sl_files s)) as Hscan.
  destruct (scan_oldest (range (sl_files s))) as [[p e]|]; cycle 1.
  { exists s, d, []; rewrite app_nil_r; split_and!; auto using ev_done.
    intros; destruct Hok as [Ht _]; rewrite Hscan in Ht; unfold total in Ht; rewrite map_fold_empty in Ht; lia. }
  destruct Hscan as [Hp Hmin]; destruct Hok as [Ht Hs].
  set (s1 := MkLimiter (sl_limit s) (sl_inUse s - le_size e) (delete p (sl_files s))).
  assert (Hok1 : limiter_ok s1).
  { split; simpl; [rewrite Ht, (total_delete _ _ _ Hp); lia | by apply map_Forall_delete]. }
  assert (Hsz : size (sl_files s) = S (size (sl_files s1)))
    by (unfold s1; simpl; rewrite map_size_delete_Some by (by eexists); 
        destruct (size (sl_files s)) eqn:E; [apply map_size_empty_inv in E; rewrite E, lookup_empty in Hp; done | lia]).
  destruct (IH s1 (delete p d) (acc ++ [p])) as (s' & d' & ps & Hrun & Hev & Hok' & Hle & Hlim); [done|lia|].
  exists s', d', (p :: ps); unfold removed; cbv zeta; fold s1.
  destruct (os_Remove d p) eqn:Hrm; [| |by destruct (removable d p)];
    rewrite Hrun, <- app_assoc; split_and!; auto; econstructor; eauto.
Qed.

Lemma prune_spec s d :
  limiter_ok s ->
  exists s' d' ps, prune range os_Remove s d = Ret (s', d', ps) /\ evictions s d ps s' d' /\
    limiter_ok s' /\ (0 <= sl_limit s -> sl_inUse s' <= sl_limit s') /\ sl_limit s' = sl_limit s.
Proof. intros Hok; unfold prune; apply (prune_loop_spec _ s d []); [done|lia]. Qed.
End prune_lemmas.

(** ** Paths *)
Lemma hex_chars_app l k : hex_chars (l ++ k) = hex_chars l ++ hex_chars k.
Proof. unfold hex_chars; by rewrite bind_app. Qed.

Lemma hex_digit_inj a b : 0 <= a < 16 -> 0 <= b < 16 -> hex_digit a = hex_digit b -> a = b.
Proof.
  intros Ha Hb Heq; apply (f_equal Ascii.nat_of_ascii) in Heq; unfold hex_digit in Heq.
  rewrite !Ascii.nat_ascii_embedding in Heq by (repeat case_match; lia).
  destruct (Z.ltb_spec a 10), (Z.ltb_spec b 10); lia.
Qed.

Lemma hex_chars_inj l k : bytes_ok l -> bytes_ok k -> hex_chars l = hex_chars k -> l = k.
Proof.
  intros Hl; revert k; induction Hl as [|a l Ha _ IH]; intros [|b k] Hk; cbn; try done.
  intros [= H1 H2 H3]; inversion Hk as [|? ? Hb Hk']; subst; unfold is_byte in *.
  apply hex_digit_inj in H1; [|split; [apply Z.div_pos; lia | apply Z.div_lt_upper_bound; lia]..].
  apply hex_digit_inj in H2; [|apply Z.mod_pos_bound; lia..].
  f_equal; [rewrite (Z.div_mod a 16), (Z.div_mod b 16) by lia; congruence | auto].
Qed.

Lemma zlen_hex_chars l : zlen (hex_chars l) = 2 * zlen l.
Proof. induction l as [|b l IH]; [done|]; cbn; fold (hex_chars l); rewrite !zlen_cons, IH; lia. Qed.

Lemma filePath_Ret dir f :
  f <> [] -> exists p, filePath dir f = Ret p /\
    p = dir ++ [slash] ++ takeZ 2 (hex_chars f) ++
        (if decide (dropZ 2 (hex_chars f) = []) then [] else slash :: dropZ 2 (hex_chars f)).
Proof.
  intros Hf; unfold filePath; rewrite decide_False; [eauto|].
  rewrite zlen_hex_chars; destruct f; [done|]; zlen.
Qed.

Lemma filePath_inj dir f g p :
  bytes_ok f -> bytes_ok g -> filePath dir f = Ret p -> filePath dir g = Ret p -> f = g.
Proof.
  intros Hf Hg; unfold filePath; cbv zeta.
  destruct (decide (zlen (hex_chars f) < 2)), (decide (zlen (hex_chars g) < 2)); try done.
  intros H1 H2; rewrite <- H2 in H1; injection H1 as Heq.
  apply app_inv_head in Heq; injection Heq as Heq.
  apply app_inj_1 in Heq as [Ht Hr]; [|unfold takeZ; rewrite !length_take; unfold zlen in *; lia].
  apply hex_chars_inj; [done|done|].
  rewrite <- (takeZ_dropZ 2 (hex_chars f)), <- (takeZ_dropZ 2 (hex_chars g)), <- Ht; f_equal.
  revert Hr; repeat case_decide; intros Hr; simplify_eq; congruence.
Qed.

Lemma hex_digit_not_p d : 0 <= d < 16 -> hex_digit d <> Ascii.ascii_of_nat 112.
Proof.
  intros Hd Heq; apply (f_equal Ascii.nat_of_ascii) in Heq; unfold hex_digit in Heq.
  rewrite !Ascii.nat_ascii_embedding in Heq by (repeat case_match; lia).
  destruct (Z.ltb_spec d 10); lia.
Qed.

Lemma is_tmp_last p c : is_tmp (p ++ [c]) = true -> c = Ascii.ascii_of_nat 112.
Proof.
  unfold is_tmp; rewrite bool_decide_eq_true; intros [k Hk].
  change tmp_suffix with ((Ascii.ascii_of_nat <$> [46; 116; 109]%nat) ++ [Ascii.ascii_of_nat 112]) in Hk.
  rewrite app_assoc in Hk; by apply app_inj_tail in Hk as [_ ->].
Qed.

(** An entry's path is never taken for a leftover temporary file. *)
Lemma filePath_not_tmp dir f p : bytes_ok f -> filePath dir f = Ret p -> is_tmp p = false.
Proof.
  intros Hf; unfold filePath; case_decide as Hlen; [done|]; intros [= <-].
  destruct f as [|b f _] using rev_ind; [exfalso; apply Hlen; reflexivity|].
  apply bytes_ok_app in Hf as [_ Hb]; inversion Hb as [|? ? Hbb _]; subst; unfold is_byte in Hbb.
  assert (Hm : 0 <= b `mod` 16 < 16) by (apply Z.mod_pos_bound; lia).
  assert (Hlast : exists k, slash :: takeZ 2 (hex_chars (f ++ [b])) ++
     (if decide (dropZ 2 (hex_chars (f ++ [b])) = []) then [] else slash :: dropZ 2 (hex_chars (f ++ [b])))
     = k ++ [hex_digit (b `mod` 16)]).
  { rewrite hex_chars_app; destruct f as [|a f]; [by eexists [_; _]|].
    cbn; fold (hex_chars f).
    eexists (slash :: _ :: _ :: slash :: hex_chars f ++ [_]).
    rewrite decide_False by (by destruct (hex_chars f)); cbn; by rewrite <- app_assoc. }
  destruct Hlast as [k Hk]; cbv zeta; rewrite Hk, app_assoc.
  destruct (is_tmp ((dir ++ k) ++ [hex_digit (b `mod` 16)])) eqn:E; [|done].
  apply is_tmp_last in E; by apply hex_digit_not_p in E.
Qed.

Lemma tmp_is_tmp p rnd : is_tmp (p ++ [dot] ++ hex_chars rnd ++ tmp_suffix) = true.
Proof.
  unfold is_tmp; apply bool_decide_eq_true; exists (p ++ [dot] ++ hex_chars rnd).
  by rewrite <- !app_assoc.
Qed.

(** ** The write of an entry *)
Lemma fs_appends now d tmp acc pieces :
  foldl (fs_apply now) (<[tmp := (acc, now)]> d) (FsAppend tmp <$> pieces) =
  <[tmp := (acc ++ concat pieces, now)]> d.
Proof.
  revert acc; induction pieces as [|x pieces IH]; intros acc; [by rewrite app_nil_r|].
  rewrite fmap_cons; cbn [foldl concat fs_apply]; rewrite lookup_insert_eq, insert_insert_eq.
  by rewrite app_assoc, <- IH.
Qed.

Lemma fs_written now d tmp pieces n :
  foldl (fs_apply now) d (take (S n) (FsCreate tmp :: (FsAppend tmp <$> pieces))) =
  <[tmp := (concat (take n pieces), now)]> d.
Proof. cbn [take foldl fs_apply]; rewrite <- fmap_take; apply (fs_appends now d tmp []). Qed.

Lemma fs_written_all now d tmp pieces :
  foldl (fs_apply now) d (FsCreate tmp :: (FsAppend tmp <$> pieces)) =
  <[tmp := (concat pieces, now)]> d.
Proof. apply (fs_appends now d tmp []). Qed.

Lemma fs_saved now d p tmp pieces :
  foldl (fs_apply now) d (save_ops p tmp pieces) = <[p := (concat pieces, now)]> (delete tmp d).
Proof.
  unfold save_ops; rewrite app_comm_cons, foldl_app, fs_written_all; cbn [foldl fs_apply].
  by rewrite lookup_insert_eq, delete_insert_eq.
Qed.

(** ** What the limiter tracks is what is on disk *)
Definition coherent (s : sizeLimiter) (d : disk) : Prop :=
  forall p, le_size <$> sl_files s !! p = (fun f => zlen f.1) <$> d !! p.

Definition no_tmp (d : disk) : Prop := forall p f, d !! p = Some f -> is_tmp p = false.

Lemma no_tmp_delete d p : no_tmp d -> is_tmp p = true -> delete p d = d.
Proof.
  intros Hd Hp; apply delete_id; destruct (d !! p) eqn:E; [|done].
  apply Hd in E; congruence.
Qed.

Lemma init_fold l s d :
  NoDup l.*1 -> (forall p, p ∈ l.*1 -> sl_files s !! p = None) -> limiter_ok s ->
  let '(s', d') := foldl init_visit (s, d) l in
  limiter_ok s' /\ sl_limit s' = sl_limit s /\
  (forall p, p ∉ l.*1 -> sl_files s' !! p = sl_files s !! p /\ d' !! p = d !! p) /\
  (forall p data mtime, (p, (data, mtime)) ∈ l ->
     if is_tmp p then sl_files s' !! p = None /\ d' !! p = None
     else sl_files s' !! p = Some (MkEntry (zlen data) mtime) /\ d' !! p = d !! p).
Proof.
  revert s d; induction l as [|[p [data mtime]] l IH]; intros s d Hnd Hfree Hok; cbn [foldl].
  { split_and!; auto; set_solver. }
  cbn in Hnd; apply NoDup_cons in Hnd as [Hp Hnd].
  assert (Hpf : sl_files s !! p = None) by (apply Hfree; cbn; left).
  unfold init_visit at 2; destruct (is_tmp p) eqn:Ht.
  - specialize (IH s (delete p d) Hnd ltac:(intros q Hq; apply Hfree; cbn; by right) Hok).
    destruct (foldl init_visit (s, delete p d) l) as [s' d'].
    destruct IH as (Hok' & Hlim & Hout & Hin); split_and!; auto.
    + intros q; cbn; intros [Hne Hq]%not_elem_of_cons; destruct (Hout q Hq) as [-> ->]; by rewrite lookup_delete_ne.
    + intros q da mt [[= -> -> ->]|Hq]%elem_of_cons.
      * rewrite Ht; destruct (Hout p Hp) as [-> ->]; by rewrite lookup_delete_eq.
      * specialize (Hin q da mt Hq); destruct (is_tmp q) eqn:Htq; [done|].
        destruct Hin as [-> ->]; split; [done|]; apply lookup_delete_ne; congruence.
  - set (s1 := MkLimiter (sl_limit s) (sl_inUse s + zlen data) (<[p:=MkEntry (zlen data) mtime]> (sl_files s))).
    assert (Hok1 : limiter_ok s1).
    { destruct Hok as [Ht0 Hs]; split; cbn; [rewrite total_insert, Ht0 by done; cbn; lia|].
      apply map_Forall_insert_2; [apply zlen_nonneg | done]. }
    assert (Hfree1 : forall q, q ∈ l.*1 -> sl_files s1 !! q = None).
    { intros q Hq; cbn; rewrite lookup_insert_ne by (intros ->; done); apply Hfree; cbn; by right. }
    specialize (IH s1 d Hnd Hfree1 Hok1).
    destruct (foldl init_visit (s1, d) l) as [s' d'].
    destruct IH as (Hok' & Hlim & Hout & Hin); split_and!; auto.
    + intros q; cbn; intros [Hne Hq]%not_elem_of_cons; destruct (Hout q Hq) as [-> ->]; split; [|done].
      by apply lookup_insert_ne.
    + intros q da mt [[= -> -> ->]|Hq]%elem_of_cons; [|by apply Hin].
      rewrite Ht; destruct (Hout p Hp) as [-> ->]; split; [apply lookup_insert_eq | done].
Qed.

Lemma limiter_init_spec limit d :
  let '(s, d') := limiter_init (newSizeLimiter limit) d in
  limiter_ok s /\ sl_limit s = limit /\ coherent s d' /\ no_tmp d' /\
  (forall p, is_tmp p = false -> d' !! p = d !! p).
Proof.
  unfold limiter_init; pose proof (init_fold (map_to_list d) (newSizeLimiter limit) d) as H.
  destruct (foldl init_visit (newSizeLimiter limit, d) (map_to_list d)) as [s d'].
  destruct H as (Hok & Hlim & Hout & Hin).
  { apply NoDup_fst_map_to_list. }
  { intros; apply lookup_empty. }
  { split; [unfold total; cbn; by rewrite map_fold_empty | apply map_Forall_empty]. }
  assert (Hcase : forall p, (d !! p = None /\ sl_files s !! p = None /\ d' !! p = None) \/
    exists data mtime, d !! p = Some (data, mtime) /\
      (if is_tmp p then sl_files s !! p = None /\ d' !! p = None
       else sl_files s !! p = Some (MkEntry (zlen data) mtime) /\ d' !! p = Some (data, mtime))).
  { intros p; destruct (d !! p) as [[data mtime]|] eqn:E.
    - right; exists data, mtime; split; [done|].
      specialize (Hin p data mtime ltac:(by apply elem_of_map_to_list)).
      destruct (is_tmp p); [done|]; by rewrite <- E.
    - left; destruct (Hout p) as [-> ->]; [|rewrite E; split_and!; [done | apply lookup_empty | done]].
      intros Hp; apply list_elem_of_fmap in Hp as ([q f] & -> & Hq); apply elem_of_map_to_list in Hq; cbn in E; congruence. }
  split_and!; auto.
  - intros p; destruct (Hcase p) as [(_ & -> & ->)|(data & mtime & _ & Hx)]; [done|].
    by destruct (is_tmp p); destruct Hx as [-> ->].
  - intros p f Hf; destruct (Hcase p) as [(_ & _ & Hn)|(data & mtime & _ & Hx)]; [congruence|].
    destruct (is_tmp p); [destruct Hx; congruence | done].
  - intros p Hp; destruct (Hcase p) as [(-> & _ & ->)|(data & mtime & -> & Hx)]; [done|].
    rewrite Hp in Hx; tauto.
Qed.
