(* ===== verification/CacheClaims.v ===== *)
(** * The audio file cache: what it promises

    Over any session: the limiter's book-keeping matches the disk, the size
    stays within the limit, eviction is least recently used, and an entry is
    either absent, old or complete, whenever the program stops. *)

From S2P Require Import Prelude Ids Cache.
#[local] Open Scope list_scope.
#[local] Open Scope Z_scope.

Section session.
Context (range : gmap path limiterEntry -> list (path * limiterEntry)).
Context (os_Remove : disk -> path -> remove_result).
Hypothesis range_all : forall m, range m ≡ₚ map_to_list m.
Hypothesis removable : forall d p, os_Remove d p <> RemoveFailed.

Record cache_inv (c : Cache) (s : sizeLimiter) : Prop := {
  ci_limiter : c_limiter c = Some s;
  ci_ok : limiter_ok s;
  ci_coherent : coherent s (c_disk c);
  ci_no_tmp : no_tmp (c_disk c);
  ci_limit : 0 < sl_limit s;
  ci_within : sl_inUse s <= sl_limit s
}.

Lemma prune_coherent s d :
  limiter_ok s -> coherent s d -> no_tmp d -> 0 < sl_limit s ->
  exists s' d' ps, prune range os_Remove s d = Ret (s', d', ps) /\ evictions s d ps s' d' /\
    limiter_ok s' /\ coherent s' d' /\ no_tmp d' /\ sl_inUse s' <= sl_limit s' /\ sl_limit s' = sl_limit s.
Proof.
  intros Hok Hco Hnt Hpos.
  destruct (prune_spec range os_Remove range_all removable s d Hok) as (s' & d' & ps & Hrun & Hev & Hok' & Hle & Hlim).
  destruct (evictions_lookup s d ps s' d' Hev) as (Hgone & Hkept & Hdgone & _).
  exists s', d', ps; split_and!; auto; [| |apply Hle; lia].
  - intros q; destruct (decide (q ∈ ps)) as [Hq|Hq].
    + by rewrite Hgone, Hdgone.
    + destruct (Hkept q Hq) as [-> ->]; apply Hco.
  - intros q f; destruct (decide (q ∈ ps)) as [Hq|Hq]; [by rewrite Hdgone|].
    destruct (Hkept q Hq) as [_ ->]; apply Hnt.
Qed.

Lemma cache_New_inv dir limit d :
  0 < limit -> exists c s, cache_New range os_Remove dir limit d = Ret c /\ cache_inv c s /\
    sl_limit s = limit /\ c_dir c = dir.
Proof.
  intros Hl; unfold cache_New; rewrite decide_True by done.
  pose proof (limiter_init_spec limit d) as Hinit.
  destruct (limiter_init (newSizeLimiter limit) d) as [s d1]; destruct Hinit as (Hok & Hlim & Hco & Hnt & _).
  destruct (prune_coherent s d1 Hok Hco Hnt ltac:(lia)) as (s' & d' & ps & -> & _ & Hok' & Hco' & Hnt' & Hle & Hlim').
  eexists _, s'; split; [reflexivity|]; split_and!; [|lia|done]; split; auto; lia.
Qed.

Lemma saved_coherent now s d p data :
  coherent s d -> limiter_ok s ->
  coherent (limiter_add now s p (zlen data)) (<[p := (data, now)]> d).
Proof.
  intros Hco _ q; unfold limiter_add; cbn [sl_files]; destruct (decide (q = p)) as [->|Hne].
  - by rewrite !lookup_insert_eq.
  - rewrite !lookup_insert_ne by done; apply Hco.
Qed.

Lemma no_tmp_insert d p f : no_tmp d -> is_tmp p = false -> no_tmp (<[p := f]> d).
Proof.
  intros Hd Hp q g; destruct (decide (q = p)) as [->|Hne]; [done|].
  rewrite lookup_insert_ne by done; apply Hd.
Qed.

Lemma SaveFile_inv now c s fileId rnd pieces o :
  cache_inv c s -> bytes_ok fileId -> fileId <> [] ->
  exists c' s' err, SaveFile range os_Remove now c fileId rnd pieces o = Ret (c', err) /\
    cache_inv c' s' /\ sl_limit s' = sl_limit s /\ c_dir c' = c_dir c.
Proof.
  intros [Hlim Hok Hco Hnt Hpos Hwithin] Hb Hne; unfold SaveFile.
  destruct (filePath_Ret (c_dir c) fileId Hne) as (p & Hp & _); rewrite Hp; cbn [mbind run_bind]; cbv zeta.
  pose proof (filePath_not_tmp _ _ _ Hb Hp) as Hptmp.
  pose proof (tmp_is_tmp p rnd) as Htmp; set (tmp := p ++ [dot] ++ hex_chars rnd ++ tmp_suffix) in *.
  assert (Hkeep : forall e : error, exists c' s' err,
    Ret (MkCache (c_dir c) (c_limiter c) (c_disk c), Some e) = Ret (c', err) /\
    cache_inv c' s' /\ sl_limit s' = sl_limit s /\ c_dir c' = c_dir c).
  { intros e; eexists _, s, _; split; [reflexivity|]; split_and!; auto; by split. }
  assert (Hclean : forall f, delete tmp (<[tmp := f]> (c_disk c)) = c_disk c)
    by (intros f; rewrite delete_insert_eq; by apply no_tmp_delete).
  destruct o as [|e|n e|e].
  - rewrite fs_saved, no_tmp_delete, Hlim by done.
    destruct (prune_coherent (limiter_add now s p (zlen (concat pieces))) (<[p:=(concat pieces, now)]> (c_disk c)))
      as (s' & d' & ps & -> & _ & Hok' & Hco' & Hnt' & Hle & Hlim');
      auto using saved_coherent, no_tmp_insert, add_ok, zlen_nonneg.
    cbn [mbind run_bind]; eexists _, s', _; split; [reflexivity|]; cbn in Hlim'; split_and!; auto; split; auto; lia.
  - apply Hkeep.
  - rewrite foldl_app, fs_written; cbn [foldl fs_apply]; rewrite Hclean; apply Hkeep.
  - rewrite foldl_app, fs_written_all; cbn [foldl fs_apply]; rewrite Hclean; apply Hkeep.
Qed.

Lemma File_inv now c s fileId :
  cache_inv c s -> fileId <> [] ->
  exists c' s' data, cache_File now c fileId = Ret (c', data) /\
    cache_inv c' s' /\ sl_limit s' = sl_limit s /\ c_dir c' = c_dir c.
Proof.
  intros Hinv Hne; pose proof Hinv as [Hlim Hok Hco Hnt Hpos Hwithin]; unfold cache_File.
  destruct (filePath_Ret (c_dir c) fileId Hne) as (p & -> & _); cbn [mbind run_bind].
  destruct (c_disk c !! p) as [[data mt]|] eqn:E; [|by eexists _, s, _].
  rewrite Hlim; cbn [fmap option_fmap option_map]; eexists _, (limiter_touch now s p), _.
  assert (Hs : sl_inUse (limiter_touch now s p) = sl_inUse s /\ sl_limit (limiter_touch now s p) = sl_limit s)
    by (unfold limiter_touch; by destruct (sl_files s !! p)).
  destruct Hs as [Hu Hl]; split; [reflexivity|]; split_and!; auto.
  split; cbn [c_limiter c_disk]; rewrite ?Hu, ?Hl; auto using touch_ok.
  - intros q; pose proof (Hco p) as Hcp; rewrite E in Hcp; unfold limiter_touch.
    destruct (sl_files s !! p) as [e|] eqn:Ef; [|by cbn in Hcp].
    cbn [sl_files]; destruct (decide (q = p)) as [->|Hq]; [rewrite !lookup_insert_eq; exact Hcp|].
    rewrite !lookup_insert_ne by done; apply Hco.
  - apply no_tmp_insert; [done|]; by eapply Hnt.
Qed.

Inductive cache_op :=
| CacheSave (now : Z) (fileId rnd : list Z) (pieces : list (list Z)) (o : save_outcome)
| CacheFile (now : Z) (fileId : list Z)
(** the program stops in the middle of a save, [n] file system operations
    into it, and the cache is opened again *)
| CacheCrash (now : Z) (p rnd : list Z) (pieces : list (list Z)) (n : nat).

Definition cache_step (limit : Z) (c : Cache) (op : cache_op) : run Cache :=
  match op with
  | CacheSave now f rnd pieces o => '(c', _) ← SaveFile range os_Remove now c f rnd pieces o; Ret c'
  | CacheFile now f => '(c', _) ← cache_File now c f; Ret c'
  | CacheCrash now f rnd pieces n =>
    p ← filePath (c_dir c) f;
    let tmp := p ++ [dot] ++ hex_chars rnd ++ tmp_suffix in
    cache_New range os_Remove (c_dir c) limit
      (foldl (fs_apply now) (c_disk c) (take n (save_ops p tmp pieces)))
  end.

Definition op_fileId (op : cache_op) : list Z :=
  match op with CacheSave _ f _ _ _ | CacheFile _ f | CacheCrash _ f _ _ _ => f end.

Fixpoint cache_session (limit : Z) (c : Cache) (ops : list cache_op) : run Cache :=
  match ops with
  | [] => Ret c
  | op :: ops => c' ← cache_step limit c op; cache_session limit c' ops
  end.

Lemma cache_step_inv limit c s op :
  0 < limit -> cache_inv c s -> sl_limit s = limit -> bytes_ok (op_fileId op) -> op_fileId op <> [] ->
  exists c' s', cache_step limit c op = Ret c' /\ cache_inv c' s' /\ sl_limit s' = limit.
Proof.
  intros Hl Hinv Hlim Hb Hne; destruct op as [now f rnd pieces o|now f|now f rnd pieces n]; cbn in *.
  - destruct (SaveFile_inv now c s f rnd pieces o Hinv Hb Hne) as (c' & s' & err & -> & ? & ? & _).
    exists c', s'; split_and!; auto; lia.
  - destruct (File_inv now c s f Hinv Hne) as (c' & s' & data & -> & ? & ? & _).
    exists c', s'; split_and!; auto; lia.
  - destruct (filePath_Ret (c_dir c) f Hne) as (p & -> & _); cbn [mbind run_bind].
    match goal with |- context [cache_New _ _ _ _ ?d] =>
      destruct (cache_New_inv (c_dir c) limit d Hl) as (c' & s' & -> & ? & ? & _)
    end.
    exists c', s'; auto.
Qed.

Lemma cache_session_inv limit c s ops :
  0 < limit -> cache_inv c s -> sl_limit s = limit ->
  Forall (fun op => bytes_ok (op_fileId op) /\ op_fileId op <> []) ops ->
  exists c' s', cache_session limit c ops = Ret c' /\ cache_inv c' s' /\ sl_limit s' = limit.
Proof.
  intros Hl Hinv Hlim Hops; revert c s Hinv Hlim; induction Hops as [|op ops [Hb Hne] _ IH];
    intros c s Hinv Hlim; cbn [cache_session]; [eauto|].
  destruct (cache_step_inv limit c s op Hl Hinv Hlim Hb Hne) as (c' & s' & -> & Hi & Hlim'); cbn; eauto.
Qed.
End session.

(** An entry at least as young as all others is evicted only alone. *)
Lemma evictions_newest s d ps s' d' p e :
  evictions s d ps s' d' -> limiter_ok s -> sl_files s !! p = Some e -> le_size e <= sl_limit s ->
  (forall q e', sl_files s !! q = Some e' -> q <> p -> le_atime e' < le_atime e) -> p ∉ ps.
Proof.
  induction 1 as [s d|s d q eq ps s' d' Hover Hq Hmin Hev IH]; intros Hok Hp Hsz Hold; [set_solver|].
  assert (Hne : p <> q).
  { intros ->; rewrite Hp in Hq; injection Hq as <-.
    assert (Hone : delete q (sl_files s) = ∅).
    { apply map_empty; intros r; destruct (decide (r = q)) as [->|Hne]; [apply lookup_delete_eq|].
      rewrite lookup_delete_ne by done; destruct (sl_files s !! r) as [er|] eqn:Er; [|done].
      pose proof (Hold r er Er Hne); pose proof (Hmin r er Er); lia. }
    destruct Hok as [Ht _]; rewrite (total_delete _ _ _ Hp), Hone in Ht.
    unfold total in Ht; rewrite map_fold_empty in Ht; lia. }
  apply not_elem_of_cons; split; [done|]; apply IH; cbn [sl_files sl_limit sl_inUse]; auto.
  - destruct Hok as [Ht Hs]; split; cbn; [rewrite Ht, (total_delete _ _ _ Hq); lia | by apply map_Forall_delete].
  - by rewrite lookup_delete_ne.
  - intros r er [Hr1 Hr2]%lookup_delete_Some; by apply Hold.
Qed.


(** A concrete environment: entries visited in map order, every removal works. *)
Definition demo_range (m : gmap path limiterEntry) : list (path * limiterEntry) := map_to_list m.
Definition demo_remove (_ : disk) (_ : path) : remove_result := Removed.

Definition demo_dir : path := [Ascii.ascii_of_nat 100].

Definition demo_ops : list cache_op :=
  [CacheSave 10 [1; 2] [9] [[1; 2; 3]; [4]] SaveOk; CacheFile 11 [1; 2];
   CacheSave 12 [3; 4] [9] [[5; 6]; [7; 8]] SaveOk; CacheCrash 13 [5; 6] [9] [[0]] 2].

Lemma demo_ops_ok : Forall (fun op => bytes_ok (op_fileId op) /\ op_fileId op <> []) demo_ops.
Proof. repeat constructor; simpl; try done; unfold is_byte; lia. Qed.



(** Eviction is least recently used and stops as soon as it can.  A prune
    comes back whatever order the map is visited in; the entries it evicts are
    exactly those it removes from disk, each the least recently used of what
    was left and removed while the total was over the limit; no evicted entry
    is younger than a kept one; kept entries and their files are untouched; and
    the total ends within the limit. *)
Theorem prune_is_lru (range : gmap path limiterEntry -> list (path * limiterEntry))
    (os_Remove : disk -> path -> remove_result) (s : sizeLimiter) (d : disk) :
  (forall m, range m ≡ₚ map_to_list m) -> (forall d p, os_Remove d p <> RemoveFailed) ->
  limiter_ok s -> 0 <= sl_limit s ->
  exists s' d' ps, prune range os_Remove s d = Ret (s', d', ps) /\ evictions s d ps s' d' /\
    limiter_ok s' /\ sl_inUse s' <= sl_limit s' /\
    (forall p e q e', p ∈ ps -> sl_files s !! p = Some e -> sl_files s' !! q = Some e' -> le_atime e <= le_atime e') /\
    (forall q, q ∈ ps -> sl_files s' !! q = None /\ d' !! q = None) /\
    (forall q, q ∉ ps -> sl_files s' !! q = sl_files s !! q /\ d' !! q = d !! q).
Proof.
  intros Hr Hrm Hok Hl.
  destruct (prune_spec range os_Remove Hr Hrm s d Hok) as (s' & d' & ps & Hrun & Hev & Hok' & Hle & _).
  destruct (evictions_lookup s d ps s' d' Hev) as (H1 & H2 & H3 & H4).
  exists s', d', ps; split_and!; auto.
Qed.

Definition demo_limiter : sizeLimiter :=
  MkLimiter 5 8 {[ [Ascii.ascii_of_nat 97] := MkEntry 4 1; [Ascii.ascii_of_nat 98] := MkEntry 4 2 ]}.

Lemma demo_limiter_ok : limiter_ok demo_limiter.
Proof.
  split; [reflexivity|]; unfold sizes_ok, demo_limiter; cbn [sl_files].
  repeat (apply map_Forall_insert_2; [simpl; lia|]); apply map_Forall_empty.
Qed.

Lemma prune_is_lru_witness :
  exists s' d' ps, prune demo_range demo_remove demo_limiter ∅ = Ret (s', d', ps) /\
    evictions demo_limiter ∅ ps s' d' /\ limiter_ok s' /\ sl_inUse s' <= sl_limit s'.
Proof.
  destruct (prune_is_lru demo_range demo_remove demo_limiter ∅) as (s' & d' & ps & H1 & H2 & H3 & H4 & _);
    [intros m; reflexivity | discriminate | exact demo_limiter_ok | vm_compute; discriminate |].
  exists s', d', ps; split_and!; assumption.
Defined.

(** An entry is never seen truncated.  Stop the program after any number
    of the file system operations of a save and open the cache again: every
    entry on disk before eviction is the one that was there, except that the
    saved one may be there in full; what was written of it is gone otherwise. *)
Theorem save_is_atomic (now limit : Z) (d : disk) (dir rnd p : list Ascii.ascii) (id : list Z)
    (pieces : list (list Z)) (n : nat) :
  bytes_ok id -> filePath dir id = Ret p ->
  let tmp := p ++ [dot] ++ rnd ++ tmp_suffix in
  let crashed := foldl (fs_apply now) d (take n (save_ops p tmp pieces)) in
  let recovered := (limiter_init (newSizeLimiter limit) crashed).2 in
  (forall q, is_tmp q = true -> recovered !! q = None) /\
  (forall q, is_tmp q = false -> q <> p -> recovered !! q = d !! q) /\
  (recovered !! p = d !! p \/ recovered !! p = Some (concat pieces, now)).
Proof.
  intros Hb Hp tmp crashed recovered; pose proof (filePath_not_tmp _ _ _ Hb Hp) as Hpt.
  assert (Htmp : is_tmp tmp = true).
  { unfold is_tmp; apply bool_decide_eq_true; exists (p ++ [dot] ++ rnd); unfold tmp; by rewrite <- !app_assoc. }
  pose proof (limiter_init_spec limit crashed) as Hinit; fold recovered.
  destruct (limiter_init (newSizeLimiter limit) crashed) as [s d'] eqn:E; cbn [snd] in *.
  destruct Hinit as (_ & _ & _ & Hnt & Hsame); subst recovered; cbn [snd].
  assert (Hcr : forall q, q <> tmp -> crashed !! q = d !! q \/ (q = p /\ crashed !! q = Some (concat pieces, now))).
  { intros q Hq; unfold crashed, save_ops; destruct n as [|n]; [by left|].
    rewrite app_comm_cons; destruct (decide (S n <= length (FsCreate tmp :: (FsAppend tmp <$> pieces)))%nat) as [Hle|Hgt].
    - rewrite take_app_le, fs_written by done; left; by apply lookup_insert_ne.
    - rewrite take_ge by (rewrite length_app; cbn [length] in *; lia); rewrite <- app_comm_cons.
      change (FsCreate tmp :: (FsAppend tmp <$> pieces) ++ [FsRename tmp p]) with (save_ops p tmp pieces).
      rewrite fs_saved; destruct (decide (q = p)) as [->|Hne]; [right; split; [done|apply lookup_insert_eq]|].
      left; rewrite lookup_insert_ne by done; by apply lookup_delete_ne. }
  split_and!.
  - intros q Hq; destruct (d' !! q) eqn:Ed; [apply Hnt in Ed; congruence | done].
  - intros q Hq Hne; etrans; [by apply Hsame|].
    destruct (Hcr q) as [Hx|[? _]]; [congruence | exact Hx | done].
  - destruct (Hcr p) as [Hx|[_ Hx]]; [congruence | left | right]; (etrans; [by apply Hsame | exact Hx]).
Qed.

Lemma save_is_atomic_witness :
  exists p, filePath demo_dir [171; 205] = Ret p /\
    let recovered := (limiter_init (newSizeLimiter 10)
      (foldl (fs_apply 5) ∅ (take 2 (save_ops p (p ++ [dot] ++ [] ++ tmp_suffix) [[1; 2]; [3]])))).2 in
    recovered !! p = (∅ : disk) !! p \/ recovered !! p = Some ([1; 2; 3], 5).
Proof.
  eexists; split; [reflexivity|].
  apply (save_is_atomic 5 10 ∅ demo_dir [] _ [171; 205] [[1; 2]; [3]] 2);
    [repeat constructor; unfold is_byte; lia | reflexivity].
Defined.

(** What is saved can be read back.  Two distinct file ids never share a
    path, and a file that fits the limit, saved later than every entry was
    last used, survives the eviction its save causes: reading it gives exactly
    the bytes saved. *)
Theorem save_then_file (range : gmap path limiterEntry -> list (path * limiterEntry))
    (os_Remove : disk -> path -> remove_result) (c : Cache) (s : sizeLimiter) (now later : Z)
    (id rnd : list Z) (pieces : list (list Z)) :
  (forall m, range m ≡ₚ map_to_list m) -> (forall d p, os_Remove d p <> RemoveFailed) ->
  cache_inv c s -> bytes_ok id -> id <> [] -> zlen (concat pieces) <= sl_limit s ->
  map_Forall (fun _ e => le_atime e < now) (sl_files s) ->
  (forall other p, bytes_ok other -> filePath (c_dir c) id = Ret p -> filePath (c_dir c) other = Ret p -> other = id) /\
  exists c' c'', SaveFile range os_Remove now c id rnd pieces SaveOk = Ret (c', None) /\
    cache_File later c' id = Ret (c'', Some (concat pieces)).
Proof.
  intros Hr Hrm [Hlim Hok Hco Hnt Hpos Hwithin] Hb Hne Hsz Hold.
  split; [intros other q Ho Hq1 Hq2; by eapply filePath_inj|].
  unfold SaveFile; destruct (filePath_Ret (c_dir c) id Hne) as (p & Hp & _); rewrite Hp.
  pose proof (filePath_not_tmp _ _ _ Hb Hp) as Hpt; pose proof (tmp_is_tmp p rnd) as Htmp.
  cbn [mbind run_bind]; cbv zeta; rewrite fs_saved, no_tmp_delete, Hlim by done.
  set (s1 := limiter_add now s p (zlen (concat pieces))).
  set (d1 := <[p := (concat pieces, now)]> (c_disk c)).
  assert (Hok1 : limiter_ok s1) by (apply add_ok; auto using zlen_nonneg).
  destruct (prune_spec range os_Remove Hr Hrm s1 d1 Hok1) as (s' & d' & ps & -> & Hev & _).
  assert (Hnew : p ∉ ps).
  { eapply (evictions_newest s1 d1 ps s' d' p (MkEntry (zlen (concat pieces)) now)); eauto.
    - apply lookup_insert_eq.
    - intros q e' Hq Hqp; unfold s1, limiter_add in Hq; cbn [sl_files] in Hq.
      rewrite lookup_insert_ne in Hq by done; exact (Hold q e' Hq). }
  destruct (evictions_lookup s1 d1 ps s' d' Hev) as (_ & Hkept & _ & _); destruct (Hkept p Hnew) as [_ Hd].
  cbn [mbind run_bind]; eexists _, _; split; [reflexivity|].
  unfold cache_File; cbn [c_dir c_disk]; rewrite Hp; cbn [mbind run_bind].
  rewrite Hd; unfold d1; rewrite lookup_insert_eq; reflexivity.
Qed.

Definition demo_cache : Cache := MkCache demo_dir (Some (newSizeLimiter 10)) ∅.

Lemma demo_cache_inv : cache_inv demo_cache (newSizeLimiter 10).
Proof.
  split; [reflexivity | split; [reflexivity | apply map_Forall_empty] | | | vm_compute; reflexivity | vm_compute; discriminate].
  - intros q; cbn; by rewrite !lookup_empty.
  - intros q f Hq; cbn in Hq; by rewrite lookup_empty in Hq.
Qed.

Lemma save_then_file_witness :
  exists c' c'', SaveFile demo_range demo_remove 5 demo_cache [171; 205] [7] [[1; 2]; [3]] SaveOk = Ret (c', None) /\
    cache_File 6 c' [171; 205] = Ret (c'', Some [1; 2; 3]).
Proof.
  apply (save_then_file demo_range demo_remove demo_cache (newSizeLimiter 10) 5 6 [171; 205] [7] [[1; 2]; [3]]);
    [intros m; reflexivity | discriminate | exact demo_cache_inv
    | repeat constructor; unfold is_byte; lia | discriminate | vm_compute; discriminate
    | apply map_Forall_empty].
Defined.
