(* ===== verification/OutputLoop.v ===== *)
(** * The loop that owns the output device ([manageLoop] of [src/player/player.go])

    One goroutine takes the commands of the daemon, the failure of the device
    and the end of the source, and is the only one to open, use and close an
    output.  The outputs are platform drivers: what each of their calls returns
    is given by [OutEnv].  Everything the loop does that others can observe
    (calls of the device, replies, events) is recorded in order in [trace]. *)

From S2P Require Import Prelude Loader Source.
#[local] Open Scope string_scope.
#[local] Open Scope list_scope.
#[local] Open Scope Z_scope.

(** ** Outputs *)
Inductive out_call := CallPause | CallResume | CallDrop | CallSetVolume (vol : Z) | CallClose.

#[export] Instance out_call_eq_dec : EqDecision out_call.
Proof. solve_decision. Defined.

(** What the device answers while one event is handled: opening it, its calls,
    its delay; and the time. *)
Record OutEnv := MkOutEnv {
  oe_open : option error;
  oe_call : out_call -> option error;
  oe_delay : result Z;
  oe_now : Z
}.

(** ** Commands and replies *)
Definition ErrPlayerClosed : error := ESentinel "player is closed".
Definition MaxStateVolume : Z := 65535.

(** [playerCmd]; a stream is named by where it is in the heap of [Source].
    Volumes are in 1/[MaxStateVolume]. *)
Inductive playerCmd :=
| playerCmdSetPrimary (source : nat) (paused drop : bool)
| playerCmdSetSecondary (source : option nat)
| playerCmdPlay
| playerCmdPause
| playerCmdStop
| playerCmdSeek (pos : Z)
| playerCmdPosition
| playerCmdVolume (vol : Z)
| playerCmdReopenOutput (device : string)
| playerCmdClose.

Inductive reply := ReplyNil | ReplyErr (e : error) | ReplyDone | ReplyPosition (pos : Z).

Inductive action :=
| ActOpened (id : nat) (volume : Z) (device : string)
| ActOpenFailed (device : string)
| ActCalled (id : nat) (c : out_call) (res : option error)
| ActReply (cmd : nat) (r : reply)
| ActEvent (ev : Event)
| ActSourceClosed.

Section manager.
Context {A F : Type} `{AudioSource A F} `{Float F}.

(** The variables of [manageLoop], the fields of [Player] it writes, and the
    number of outputs opened so far. *)
Record Manager := MkManager {
  m_out : option nat;
  m_opened : nat;
  m_volume : Z;
  m_paused : bool;
  m_device : string;
  m_source : SwitchingAudioSource A F;
  m_streamGen : Z;
  m_startedPlaying : option Z;
  m_closed : bool;
  trace : list action
}.

Implicit Types m : Manager.

Definition act (a : action) m : Manager :=
  MkManager (m_out m) (m_opened m) (m_volume m) (m_paused m) (m_device m) (m_source m) (m_streamGen m)
    (m_startedPlaying m) (m_closed m) (trace m ++ [a]).

Definition set_out (o : option nat) m : Manager :=
  MkManager o (m_opened m) (m_volume m) (m_paused m) (m_device m) (m_source m) (m_streamGen m)
    (m_startedPlaying m) (m_closed m) (trace m).

Definition set_paused (b : bool) m : Manager :=
  MkManager (m_out m) (m_opened m) (m_volume m) b (m_device m) (m_source m) (m_streamGen m)
    (m_startedPlaying m) (m_closed m) (trace m).

Definition set_source (s : SwitchingAudioSource A F) m : Manager :=
  MkManager (m_out m) (m_opened m) (m_volume m) (m_paused m) (m_device m) s (m_streamGen m)
    (m_startedPlaying m) (m_closed m) (trace m).

Definition set_volume (v : Z) m : Manager :=
  MkManager (m_out m) (m_opened m) v (m_paused m) (m_device m) (m_source m) (m_streamGen m)
    (m_startedPlaying m) (m_closed m) (trace m).

Definition set_device (d : string) m : Manager :=
  MkManager (m_out m) (m_opened m) (m_volume m) (m_paused m) d (m_source m) (m_streamGen m)
    (m_startedPlaying m) (m_closed m) (trace m).

Definition set_started (t : Z) m : Manager :=
  MkManager (m_out m) (m_opened m) (m_volume m) (m_paused m) (m_device m) (m_source m) (m_streamGen m)
    (Some t) (m_closed m) (trace m).

Definition add_streamGen m : Manager :=
  MkManager (m_out m) (m_opened m) (m_volume m) (m_paused m) (m_device m) (m_source m)
    (u64 (m_streamGen m + 1)) (m_startedPlaying m) (m_closed m) (trace m).

Definition set_closed m : Manager :=
  MkManager (m_out m) (m_opened m) (m_volume m) (m_paused m) (m_device m) (m_source m) (m_streamGen m)
    (m_startedPlaying m) true (trace m).

(** [p.ev <- Event{...}], with the stream generation of the moment. *)
Definition send_event (t : EventType) (err : option error) m : Manager :=
  act (ActEvent (MkEvent t (m_streamGen m) err)) m.

(** A call of the current device; the caller has checked that there is one. *)
Definition call (e : OutEnv) (c : out_call) m : Manager * option error :=
  match m_out m with
  | Some id => (act (ActCalled id c (oe_call e c)) m, oe_call e c)
  | None => (m, None)
  end.

Definition closeOutput (e : OutEnv) m : Manager := set_out None (call e CallClose m).1.

(** [p.newOutput(source, volume, device)], assigned to [out]. *)
Definition newOutput (e : OutEnv) m : Manager * option error :=
  match oe_open e with
  | Some er => (act (ActOpenFailed (m_device m)) m, Some er)
  | None =>
    (MkManager (Some (m_opened m)) (S (m_opened m)) (m_volume m) (m_paused m) (m_device m) (m_source m)
       (m_streamGen m) (m_startedPlaying m) (m_closed m)
       (trace m ++ [ActOpened (m_opened m) (m_volume m) (m_device m)]), None)
  end.

Definition ensureOutput (e : OutEnv) m : Manager * option error :=
  match m_out m with
  | Some _ => (m, None)
  | None => newOutput e m
  end.

Definition runOutputOp (optimistic : bool) (e : OutEnv) (cmd : nat) (op : out_call) (onSuccess : Manager -> Manager) m
  : Manager :=
  if optimistic then
    let m := onSuccess (act (ActReply cmd ReplyNil) m) in
    let '(m, err) := call e op m in
    match err with
    | Some _ => closeOutput e m
    | None => m
    end
  else
    let '(m, err) := call e op m in
    match err with
    | Some er => act (ActReply cmd (ReplyErr er)) (closeOutput e m)
    | None => onSuccess (act (ActReply cmd ReplyNil) m)
    end.

Definition pause_or_resume (paused : bool) : out_call := if paused then CallPause else CallResume.

(** [case playerCmdSet] with a primary source. *)
Definition setPrimary (optimistic : bool) (e : OutEnv) (cmd : nat) (source : nat) (paused drop : bool) m : Manager :=
  let '(m, err) := ensureOutput e m in
  match err with
  | Some er => act (ActReply cmd (ReplyErr er)) m
  | None =>
    let m := if drop then (call e CallDrop m).1 else m in
    let m := add_streamGen m in
    let m := set_source (SetPrimary (m_source m) source) m in
    runOutputOp optimistic e cmd (pause_or_resume paused)
      (fun m => send_event (if paused then EventTypePause else EventTypePlay) None
                  (set_started (oe_now e) (set_paused paused m))) m
  end.

(** [case playerCmdSeek] after the source has moved and the device is empty. *)
Definition seek_resume (optimistic : bool) (e : OutEnv) (cmd : nat) m : Manager :=
  if m_paused m then act (ActReply cmd ReplyNil) m
  else
    let '(m, err) := ensureOutput e m in
    match err with
    | Some er => act (ActReply cmd (ReplyErr er)) m
    | None => runOutputOp optimistic e cmd CallResume (fun m => m) m
    end.

Definition seekTo (optimistic : bool) (e : OutEnv) (cmd : nat) (pos : Z) m : Manager :=
  let '(s, err) := SetPositionMs (m_source m) pos in
  let m := set_source s m in
  match err with
  | Some er => act (ActReply cmd (ReplyErr er)) m
  | None =>
    match m_out m with
    | None => seek_resume optimistic e cmd m
    | Some _ =>
      let '(m, err) := call e CallDrop m in
      match err with
      | Some er => act (ActReply cmd (ReplyErr er)) (closeOutput e m)
      | None => seek_resume optimistic e cmd m
      end
    end
  end.

Definition reopenOutput (e : OutEnv) (cmd : nat) (device : string) m : Manager :=
  let m := set_device device m in
  match m_out m with
  | None => act (ActReply cmd ReplyNil) m
  | Some _ =>
    let m := closeOutput e (call e CallDrop m).1 in
    let '(m, err) := newOutput e m in
    match err with
    | Some er => act (ActReply cmd (ReplyErr er)) m
    | None =>
      let '(m, err) := call e (pause_or_resume (m_paused m)) m in
      match err with
      | Some er => act (ActReply cmd (ReplyErr er)) (closeOutput e m)
      | None => act (ActReply cmd ReplyNil) m
      end
    end
  end.

(** One command taken from the channel. *)
Definition handle_cmd (optimistic : bool) (e : OutEnv) (cmd : nat) (c : playerCmd) m : Manager :=
  match c with
  | playerCmdSetPrimary source paused drop => setPrimary optimistic e cmd source paused drop m
  | playerCmdSetSecondary source => act (ActReply cmd ReplyNil) (set_source (SetSecondary (m_source m) source) m)
  | playerCmdPlay =>
    let '(m, err) := ensureOutput e m in
    match err with
    | Some er => act (ActReply cmd (ReplyErr er)) m
    | None => runOutputOp optimistic e cmd CallResume
                (fun m => send_event EventTypeResume None (set_paused false m)) m
    end
  | playerCmdPause =>
    match m_out m with
    | None => act (ActReply cmd ReplyNil) (set_paused true m)
    | Some _ => runOutputOp optimistic e cmd CallPause
                  (fun m => send_event EventTypePause None (set_paused true m)) m
    end
  | playerCmdStop =>
    let m := match m_out m with Some _ => closeOutput e m | None => m end in
    send_event EventTypeStop None (act (ActReply cmd ReplyDone) m)
  | playerCmdSeek pos => seekTo optimistic e cmd pos m
  | playerCmdPosition =>
    let pos := PositionMs (m_source m) in
    match m_out m with
    | Some _ => act (ActReply cmd (ReplyPosition (pos - match oe_delay e with Ok d => d | Err _ => 0 end))) m
    | None => act (ActReply cmd (ReplyPosition pos)) m
    end
  | playerCmdVolume vol =>
    let m := set_volume vol m in
    match m_out m with
    | Some _ => (call e (CallSetVolume vol) m).1
    | None => m
    end
  | playerCmdReopenOutput device => reopenOutput e cmd device m
  | playerCmdClose =>
    let m := act ActSourceClosed (set_closed m) in
    match m_out m with Some _ => closeOutput e m | None => m end
  end.

(** What a caller gets from [Play], [Stop], [PositionMs], ... when [send] finds
    the player closed; [SetVolume] and [Close] return nothing. *)
Definition closed_reply (c : playerCmd) : option reply :=
  match c with
  | playerCmdSetPrimary _ _ _ | playerCmdPlay | playerCmdPause | playerCmdSeek _ | playerCmdReopenOutput _ =>
      Some (ReplyErr ErrPlayerClosed)
  | playerCmdSetSecondary _ | playerCmdStop => Some ReplyDone
  | playerCmdPosition => Some (ReplyPosition 0)
  | playerCmdVolume _ | playerCmdClose => None
  end.

(** ** The loop *)
Inductive manage_event :=
| EvCmd (cmd : nat) (c : playerCmd)
| EvOutErr (err : option error)
| EvDone
| EvPull (plen : Z).

(** One round: a command sent by a caller, the error channel of the current
    device, the source's end, or the device pulling samples from the source,
    which it does on a goroutine of its own. *)
Definition manage_step (optimistic : bool) (e : OutEnv) (ev : manage_event) m : run Manager :=
  match ev with
  | EvCmd cmd c =>
    if m_closed m then
      Ret (match closed_reply c with Some r => act (ActReply cmd r) m | None => m end)
    else Ret (handle_cmd optimistic e cmd c m)
  | EvOutErr err =>
    if m_closed m then Ret m
    else match m_out m with
         | Some _ => Ret (send_event EventTypeStop err (closeOutput e m))
         | None => Ret m
         end
  | EvDone =>
    if m_closed m || negb (done (m_source m)) then Ret m
    else Ret (send_event EventTypeNotPlaying None
                (set_source (set_eof (m_source m) false (eofReported (m_source m))) m))
  | EvPull plen =>
    match m_out m with
    | Some _ => '(s, _) ← Read (m_source m) plen; Ret (set_source s m)
    | None => Ret m
    end
  end.

Fixpoint manageLoop (optimistic : bool) (evs : list (OutEnv * manage_event)) m : run Manager :=
  match evs with
  | [] => Ret m
  | (e, ev) :: evs => m' ← manage_step optimistic e ev m; manageLoop optimistic evs m'
  end.

(** [CrossfadeDuration] is in nanoseconds. *)
Definition crossfade_samples (duration : Z) : Z :=
  Z.quot (i64 (duration * SampleRate)) 1000000000 * Channels.

Definition NewPlayer (h : nat -> A) (crossfadeDuration : Z) (device : string) : Manager :=
  MkManager None 0 MaxStateVolume false device
    (NewSwitchingAudioSource h (crossfade_samples crossfadeDuration)) 0 None false [].
End manager.
Arguments Manager A F : clear implicits.
