(* ===== verification/OutputClaims.v ===== *)
(** * The loop that owns the output device: what it promises

    The device is used one at a time and in step with what the player wants,
    every command is answered once, and events name the stream they are about,
    over any sequence of commands, failures and reads. *)

From stdpp Require Import sorting.
From S2P Require Import Prelude Loader Source SourceProps SourceClaims OutputLoop.
#[local] Open Scope string_scope.
#[local] Open Scope list_scope.
#[local] Open Scope Z_scope.

(** ** Replaying the calls of the outputs

    An observer of the outputs alone: which device is open, under which name,
    at which volume, and whether it plays.  It refuses a second device while
    one is open, a call of a device that is not open, and any call but [Close]
    of a device that failed to pause or resume. *)
Record device := MkDevice {
  d_id : nat;
  d_name : string;
  d_volume : Z;
  d_playing : option bool;
  d_failed : bool
}.

Definition device_call (c : out_call) (res : option error) (d : device) : option (option device) :=
  match c, res with
  | CallClose, _ => Some None
  | _, _ =>
    if d_failed d then None
    else Some (Some
      match c, res with
      | CallPause, None => MkDevice (d_id d) (d_name d) (d_volume d) (Some false) false
      | CallResume, None => MkDevice (d_id d) (d_name d) (d_volume d) (Some true) false
      | CallPause, Some _ | CallResume, Some _ => MkDevice (d_id d) (d_name d) (d_volume d) (d_playing d) true
      | CallSetVolume v, _ => MkDevice (d_id d) (d_name d) v (d_playing d) false
      | CallDrop, _ | CallClose, _ => d
      end)
  end.

Definition replay_action (open : option device) (a : action) : option (option device) :=
  match a with
  | ActOpened id volume name =>
    match open with
    | None => Some (Some (MkDevice id name volume None false))
    | Some _ => None
    end
  | ActCalled id c res =>
    match open with
    | Some d => if decide (id = d_id d) then device_call c res d else None
    | None => None
    end
  | _ => Some open
  end.

Definition replay (t : list action) : option (option device) :=
  foldl (fun st a => st ≫= fun open => replay_action open a) (Some None) t.

Lemma replay_snoc t a : replay (t ++ [a]) = replay t ≫= fun open => replay_action open a.
Proof. unfold replay; by rewrite foldl_app. Qed.

(** ** What callers see *)
Definition replied (t : list action) : list nat :=
  omap (fun a => match a with ActReply cmd _ => Some cmd | _ => None end) t.

Definition events (t : list action) : list Event :=
  omap (fun a => match a with ActEvent ev => Some ev | _ => None end) t.

(** The commands that carry a channel for the answer. *)
Definition wants_reply (c : playerCmd) : bool :=
  match c with playerCmdVolume _ | playerCmdClose => false | _ => true end.

Definition asked (evs : list (OutEnv * manage_event)) : list nat :=
  omap (fun x => match x.2 with EvCmd cmd c => if wants_reply c then Some cmd else None | _ => None end) evs.

Definition pulls_ok (evs : list (OutEnv * manage_event)) : Prop :=
  Forall (fun x => forall n, x.2 = EvPull n -> 0 <= n) evs.

Lemma replied_app t u : replied (t ++ u) = replied t ++ replied u.
Proof. apply omap_app. Qed.

Lemma events_app t u : events (t ++ u) = events t ++ events u.
Proof. apply omap_app. Qed.

Section claims.
Context {A F : Type} `{AudioSourceLaws A F} `{Float F}.
Implicit Types m : Manager A F.

(** The device as the player wants it. *)
Definition wanted_device m : option device :=
  (fun id => MkDevice id (m_device m) (m_volume m) (Some (negb (m_paused m))) false) <$> m_out m.

Definition in_step m : Prop := replay (trace m) = Some (wanted_device m).

(** Between opening and the first call, a device neither plays nor is paused. *)
Definition holds_device m (playing : option bool) : Prop :=
  exists id, m_out m = Some id /\
    replay (trace m) = Some (Some (MkDevice id (m_device m) (m_volume m) playing false)).

Ltac replay_step := rewrite ?replay_snoc; simpl.

Lemma in_step_act m a :
  in_step m -> match a with ActOpened _ _ _ | ActCalled _ _ _ => False | _ => True end -> in_step (act a m).
Proof. unfold in_step, act; simpl; intros E Ha; rewrite replay_snoc, E; by destruct a. Qed.

Lemma closeOutput_in_step e m d :
  replay (trace m) = Some d -> m_out m = d_id <$> d -> in_step (closeOutput e m).
Proof.
  unfold in_step, closeOutput, call, wanted_device; intros E Hd; rewrite Hd.
  destruct d as [d|]; simpl; [|done].
  rewrite replay_snoc, E; simpl; rewrite decide_True by done; done.
Qed.

Lemma ensureOutput_spec e m :
  in_step m ->
  match ensureOutput e m with
  | (m', Some _) => in_step m' /\ m_out m' = None
  | (m', None) => exists playing, holds_device m' playing
  end.
Proof.
  unfold in_step, wanted_device, ensureOutput, newOutput; intros E.
  destruct (m_out m) as [id|] eqn:Ho; [exists (Some (negb (m_paused m))), id; done|].
  destruct (oe_open e); simpl.
  - split; [|done]; rewrite replay_snoc, E, Ho; done.
  - eexists _, (m_opened m); split; [done|]; simpl; rewrite replay_snoc, E; done.
Qed.

Lemma call_holds e c m playing :
  holds_device m playing -> c <> CallClose ->
  exists id, m_out m = Some id /\
  (call e c m).2 = oe_call e c /\
  m_out (call e c m).1 = Some id /\ m_paused (call e c m).1 = m_paused m /\
  m_device (call e c m).1 = m_device m /\ m_volume (call e c m).1 = m_volume m /\
  replay (trace (call e c m).1) =
    device_call c (oe_call e c) (MkDevice id (m_device m) (m_volume m) playing false).
Proof.
  intros (id & Ho & E) Hc; exists id; split; [done|]; unfold call; rewrite Ho; simpl; split_and!; auto.
  rewrite replay_snoc, E; simpl; by rewrite decide_True.
Qed.

(** The continuations given to [runOutputOp] only note the pause state and emit
    an event. *)
Definition notes (before paused : bool) (f : Manager A F -> Manager A F) : Prop :=
  forall m, m_paused m = before -> m_out (f m) = m_out m /\ m_device (f m) = m_device m /\ m_volume (f m) = m_volume m /\
    m_paused (f m) = paused /\ replay (trace (f m)) = replay (trace m).

Lemma runOutputOp_in_step optimistic e cmd paused f m playing :
  holds_device m playing -> notes (m_paused m) paused f ->
  in_step (runOutputOp optimistic e cmd (pause_or_resume paused) f m).
Proof.
  intros Hd Hf; unfold runOutputOp.
  assert (Hcall : forall m, holds_device m playing ->
    let '(m', err) := call e (pause_or_resume paused) m in
    err = oe_call e (pause_or_resume paused) /\ m_paused m' = m_paused m /\
    match err with
    | None => holds_device m' (Some (negb paused))
    | Some _ => in_step (closeOutput e m')
    end).
  { intros m0 Hm0; destruct (call_holds e (pause_or_resume paused) m0 playing Hm0) as
      (id & _ & He & Ho & Hp & Hn & Hv & E); [by destruct paused|].
    destruct (call e (pause_or_resume paused) m0) as [m1 err]; simpl in *; subst err; split_and!; auto.
    destruct (oe_call e (pause_or_resume paused)) as [er|] eqn:Ec.
    - eapply (closeOutput_in_step e m1 (Some (MkDevice id _ _ _ true))); [|exact Ho].
      rewrite E; destruct paused; reflexivity.
    - exists id; split; [done|]; rewrite E, Hn, Hv; unfold pause_or_resume in *; destruct paused; done. }
  assert (Hact : forall r m q, holds_device m q -> holds_device (act (ActReply cmd r) m) q).
  { intros r m0 q (id & ? & E); exists id; split; [done|]; simpl; rewrite replay_snoc, E; done. }
  destruct optimistic.
  - specialize (Hcall (f (act (ActReply cmd ReplyNil) m))).
    destruct (Hf (act (ActReply cmd ReplyNil) m) eq_refl) as (F1 & F2 & F3 & F4 & F5).
    destruct (call e _ (f _)) as [m' err]; destruct Hcall as (He & Hp & Hc).
    { destruct (Hact ReplyNil m playing Hd) as (id & ? & E); exists id; rewrite F1, F2, F3, F5; done. }
    destruct err; [done|]; destruct Hc as (id & Ho & E).
    unfold in_step, wanted_device; rewrite Ho, E, Hp, F4; done.
  - specialize (Hcall m Hd); destruct (call e _ m) as [m' err]; destruct Hcall as (He & Hp & Hc).
    destruct err; [by apply in_step_act|].
    destruct (Hact ReplyNil m' _ Hc) as (id & Ho & E).
    destruct (Hf (act (ActReply cmd ReplyNil) m') Hp) as (F1 & F2 & F3 & F4 & F5).
    unfold in_step, wanted_device; rewrite F1, F2, F3, F4, F5, Ho, E; done.
Qed.
Lemma ensureOutput_paused e m : m_paused (ensureOutput e m).1 = m_paused m.
Proof. unfold ensureOutput, newOutput; by repeat case_match. Qed.

Lemma set_source_in_step s m : in_step m -> in_step (set_source s m).
Proof. done. Qed.

(** Opening an output, then running [f] on it. *)
Lemma ensure_then_in_step e cmd m (f : Manager A F -> Manager A F) :
  in_step m ->
  (forall m' playing, m_paused m' = m_paused m -> holds_device m' playing -> in_step (f m')) ->
  in_step (let '(m', err) := ensureOutput e m in
           match err with Some er => act (ActReply cmd (ReplyErr er)) m' | None => f m' end).
Proof.
  intros Hm Hf; pose proof (ensureOutput_spec e m Hm) as He; pose proof (ensureOutput_paused e m) as Hp.
  destruct (ensureOutput e m) as [m' [er|]]; [apply in_step_act; [apply He|done]|].
  destruct He as [playing He]; eauto.
Qed.

Lemma drop_holds e m playing : holds_device m playing -> holds_device (call e CallDrop m).1 playing.
Proof.
  intros Hd; destruct (call_holds e CallDrop m playing Hd) as (id & _ & _ & Ho & Hp & Hn & Hv & E); [done|].
  exists id; split; [done|]; rewrite E, Hn, Hv; simpl; done.
Qed.

Lemma in_step_holds m id : in_step m -> m_out m = Some id -> holds_device m (Some (negb (m_paused m))).
Proof. unfold in_step, wanted_device; intros E Ho; exists id; split; [done|]; by rewrite E, Ho. Qed.

Lemma holds_in_step m : holds_device m (Some (negb (m_paused m))) -> in_step m.
Proof. intros (id & Ho & E); unfold in_step, wanted_device; by rewrite Ho, E. Qed.

Lemma call_paused e c m : m_paused (call e c m).1 = m_paused m.
Proof. unfold call; by case_match. Qed.

Lemma close_in_step e m : in_step m -> in_step (closeOutput e m).
Proof.
  intros E; eapply closeOutput_in_step; [exact E|]; unfold wanted_device; by destruct (m_out m).
Qed.

Lemma close_holds e m playing : holds_device m playing -> in_step (closeOutput e m).
Proof. intros (id & Ho & E); by eapply closeOutput_in_step; [exact E|]. Qed.

Lemma setPrimary_in_step o e cmd source paused drop m :
  in_step m -> in_step (setPrimary o e cmd source paused drop m).
Proof.
  intros Hm; unfold setPrimary; apply ensure_then_in_step; [done|]; intros m' playing Hp Hd; cbv zeta.
  eapply (runOutputOp_in_step _ _ _ _ _ _ playing).
  - destruct drop; [apply (drop_holds e) in Hd|]; destruct Hd as (id & ? & ?); by exists id.
  - intros m0 _; unfold send_event; simpl; rewrite replay_snoc; split_and!; auto; by destruct (replay (trace m0)).
Qed.

Lemma seek_resume_in_step o e cmd m : in_step m -> in_step (seek_resume o e cmd m).
Proof.
  intros Hm; unfold seek_resume; destruct (m_paused m) eqn:Hp; [by apply in_step_act|].
  apply ensure_then_in_step; [done|]; intros m' playing Hp' Hd.
  apply (runOutputOp_in_step o e cmd false (fun m => m) m' playing Hd).
  intros m0 Hm0; split_and!; auto; congruence.
Qed.

Lemma seekTo_in_step o e cmd pos m : in_step m -> in_step (seekTo o e cmd pos m).
Proof.
  intros Hm; unfold seekTo; destruct (SetPositionMs (m_source m) pos) as [s [er|]]; cbv zeta.
  { by apply in_step_act; [apply set_source_in_step|]. }
  set (m1 := set_source s m); assert (Hm1 : in_step m1) by done; clearbody m1.
  destruct (m_out m1) as [id|] eqn:Ho; [|by apply seek_resume_in_step].
  pose proof (drop_holds e m1 _ (in_step_holds m1 id Hm1 Ho)) as Hd; rewrite <- (call_paused e CallDrop m1) in Hd.
  destruct (call e CallDrop m1) as [m2 [er|]]; simpl in Hd; [by apply in_step_act; [eapply close_holds|]|].
  by apply seek_resume_in_step, holds_in_step.
Qed.

(** The name is noted before the old device is let go. *)
Lemma drop_close_in_step e m d :
  replay (trace m) = Some (Some d) -> m_out m = Some (d_id d) -> d_failed d = false ->
  let m' := closeOutput e (call e CallDrop m).1 in in_step m' /\ m_out m' = None.
Proof.
  intros E Ho Hd; split; [|done]; apply (closeOutput_in_step e _ (Some d)).
  - unfold call; rewrite Ho; simpl; rewrite replay_snoc, E; simpl; rewrite decide_True by done; by rewrite Hd.
  - unfold call; by rewrite Ho.
Qed.

Lemma resume_in_step e cmd m playing :
  holds_device m playing ->
  in_step (let '(m', err) := call e (pause_or_resume (m_paused m)) m in
           match err with
           | Some er => act (ActReply cmd (ReplyErr er)) (closeOutput e m')
           | None => act (ActReply cmd ReplyNil) m'
           end).
Proof.
  intros Hd; apply (runOutputOp_in_step false e cmd (m_paused m) (fun m => m) m playing Hd).
  intros m0 Hm0; split_and!; auto.
Qed.

Lemma reopenOutput_in_step e cmd name m : in_step m -> in_step (reopenOutput e cmd name m).
Proof.
  intros Hm; unfold reopenOutput; cbv zeta; change (m_out (set_device name m)) with (m_out m).
  destruct (m_out m) as [id|] eqn:Ho.
  - destruct (in_step_holds m id Hm Ho) as (id' & Ho' & E); simplify_eq.
    destruct (drop_close_in_step e (set_device name m) _ E Ho eq_refl) as [Hc Hn].
    set (m1 := closeOutput e _) in *; clearbody m1; pose proof (ensureOutput_spec e m1 Hc) as Hs.
    unfold ensureOutput in Hs; rewrite Hn in Hs.
    destruct (newOutput e m1) as [m2 [er|]]; [apply in_step_act; [apply Hs|done]|].
    destruct Hs as [playing Hd]; by eapply resume_in_step.
  - apply in_step_act; [|done]; unfold in_step, wanted_device in *; simpl; by rewrite Hm, Ho.
Qed.

Lemma handle_cmd_in_step o e cmd c m : in_step m -> in_step (handle_cmd o e cmd c m).
Proof.
  intros Hm; destruct c as [source paused drop|source| | | |pos| |vol|name|]; simpl.
  - by apply setPrimary_in_step.
  - by apply in_step_act; [apply set_source_in_step|].
  - apply ensure_then_in_step; [done|]; intros m' playing Hp Hd.
    apply (runOutputOp_in_step o e cmd false _ m' playing Hd).
    intros m0 _; unfold send_event; simpl; rewrite replay_snoc; split_and!; auto; by destruct (replay (trace m0)).
  - destruct (m_out m) as [id|] eqn:Ho.
    + apply (runOutputOp_in_step o e cmd true _ m _ (in_step_holds m id Hm Ho)).
      intros m0 _; unfold send_event; simpl; rewrite replay_snoc; split_and!; auto; by destruct (replay (trace m0)).
    + apply in_step_act; [|done]; unfold in_step, wanted_device in *; simpl; by rewrite Hm, Ho.
  - unfold send_event; do 2 (apply in_step_act; [|done]); case_match; auto using close_in_step.
  - by apply seekTo_in_step.
  - case_match; by apply in_step_act.
  - destruct (m_out m) as [id|] eqn:Ho.
    + destruct (in_step_holds m id Hm Ho) as (id' & Ho' & E); simplify_eq.
      unfold in_step, call, wanted_device; simpl; rewrite Ho; simpl; rewrite replay_snoc, E; simpl.
      rewrite decide_True by done; by rewrite Ho.
    + unfold in_step, wanted_device in *; simpl; by rewrite Hm, Ho.
  - by apply reopenOutput_in_step.
  - assert (Hc : in_step (act ActSourceClosed (set_closed m))) by (by apply in_step_act).
    case_match; auto using close_in_step.
Qed.

(** ** One round *)
Definition loop_inv m : Prop := in_step m /\ source_inv (m_source m).

Lemma runOutputOp_source o e cmd op f m :
  (forall m, m_source (f m) = m_source m) -> m_source (runOutputOp o e cmd op f m) = m_source m.
Proof.
  intros Hf; unfold runOutputOp, closeOutput, call.
  destruct o; repeat (case_match; simplify_eq/=; rewrite ?Hf in *; try done).
Qed.

Lemma ensureOutput_source e m : m_source (ensureOutput e m).1 = m_source m.
Proof. unfold ensureOutput, newOutput; by repeat case_match. Qed.

Lemma call_source e c m : m_source (call e c m).1 = m_source m.
Proof. unfold call; by case_match. Qed.

(** The source moves only as the commands say. *)
Definition source_after (c : playerCmd) (s s' : SwitchingAudioSource A F) : Prop :=
  s' = s \/
  match c with
  | playerCmdSetPrimary source _ _ => s' = SetPrimary s source
  | playerCmdSetSecondary source => s' = SetSecondary s source
  | playerCmdSeek pos => s' = (SetPositionMs s pos).1
  | _ => False
  end.

Lemma seek_resume_source o e cmd m : m_source (seek_resume o e cmd m) = m_source m.
Proof.
  unfold seek_resume; case_match; [done|]; pose proof (ensureOutput_source e m) as He.
  destruct (ensureOutput e m) as [m' [er|]]; simpl in *; [done|]; by rewrite runOutputOp_source.
Qed.

Lemma handle_cmd_source o e cmd c m : source_after c (m_source m) (m_source (handle_cmd o e cmd c m)).
Proof.
  unfold source_after; destruct c as [source paused drop|source| | | |pos| |vol|name|]; simpl; auto.
  - unfold setPrimary; pose proof (ensureOutput_source e m) as He.
    destruct (ensureOutput e m) as [m' [er|]]; simpl in *; [auto|right].
    rewrite runOutputOp_source by done; simpl; destruct drop; rewrite ?call_source, He; done.
  - pose proof (ensureOutput_source e m) as He.
    destruct (ensureOutput e m) as [m' [er|]]; simpl in *; [auto|left]; by rewrite runOutputOp_source.
  - case_match; [left; by rewrite runOutputOp_source|auto].
  - left; unfold closeOutput; case_match; simpl; by rewrite ?call_source.
  - right; unfold seekTo; destruct (SetPositionMs (m_source m) pos) as [s [er|]]; simpl; [done|].
    destruct (m_out m); [|by rewrite seek_resume_source].
    pose proof (call_source e CallDrop (set_source s m)) as Hc; destruct (call e CallDrop _) as [m' [er|]]; simpl in *.
    + unfold closeOutput; simpl; by rewrite call_source.
    + by rewrite seek_resume_source.
  - left; by case_match.
  - left; case_match; rewrite ?call_source; done.
  - left; unfold reopenOutput, closeOutput, newOutput, call; simpl;
      repeat (case_match; simplify_eq/=; try done).
  - left; unfold closeOutput; case_match; simpl; by rewrite ?call_source.
Qed.

Lemma manage_step_inv o e ev m :
  loop_inv m -> (forall n, ev = EvPull n -> 0 <= n) ->
  exists m', manage_step o e ev m = Ret m' /\ loop_inv m'.
Proof.
  intros [Hm Hs] Hn; destruct ev as [cmd c|err| |plen]; simpl.
  - destruct (m_closed m).
    { eexists; split; [done|]; case_match; [|done]; split; [by apply in_step_act|done]. }
    eexists; split; [done|]; split; [by apply handle_cmd_in_step|].
    destruct (handle_cmd_source o e cmd c m) as [->|Hc]; [done|].
    destruct c; try done; rewrite Hc; first [by apply SetPrimary_inv | by apply set_slot_inv | by apply SetPositionMs_inv].
  - destruct (m_closed m); [by eexists|]; destruct (m_out m) eqn:Ho; [|by eexists].
    eexists; split; [done|]; split; [apply in_step_act; [by apply close_in_step|done]|].
    unfold closeOutput, send_event; simpl; by rewrite call_source.
  - case_match; eexists; (split; [done|]); [done|].
    split; [by apply in_step_act; [apply set_source_in_step|]|by apply set_eof_inv].
  - destruct (m_out m); [|by eexists].
    destruct (Read_ok (m_source m) plen Hs (Hn _ eq_refl)) as (s' & out & -> & Hs' & _); simpl.
    eexists; split; [done|]; by split.
Qed.

Lemma manageLoop_inv o evs : forall m,
  loop_inv m -> pulls_ok evs -> exists m', manageLoop o evs m = Ret m' /\ loop_inv m'.
Proof.
  induction evs as [|[e ev] evs IH]; intros m Hm Hp; simpl; [eauto|].
  inversion_clear Hp as [|?? Hev Hp'].
  destruct (manage_step_inv o e ev m Hm Hev) as (m1 & -> & Hm1); simpl; auto.
Qed.

Lemma NewPlayer_inv h d name : loop_inv (NewPlayer h d name).
Proof. split; [done|apply NewSwitchingAudioSource_inv]. Qed.

(** ** Replies and events of one round *)

(** What a part of the loop adds to the trace: the commands answered and the
    events, which carry the generation reached. *)
Definition adds m m' (ids : list nat) : Prop :=
  replied (trace m') = replied (trace m) ++ ids /\
  exists evs, events (trace m') = events (trace m) ++ evs /\ Forall (fun ev => ev_StreamGen ev = m_streamGen m') evs.

Lemma adds_refl m : adds m m [].
Proof. split; [by rewrite app_nil_r|]; exists []; by rewrite app_nil_r. Qed.

(** Composition, as long as no new stream is set after an event. *)
Lemma adds_trans m1 m2 m3 ids1 ids2 :
  adds m1 m2 ids1 -> adds m2 m3 ids2 -> m_streamGen m2 = m_streamGen m3 \/ events (trace m2) = events (trace m1) ->
  adds m1 m3 (ids1 ++ ids2).
Proof.
  intros [R1 (e1 & E1 & F1)] [R2 (e2 & E2 & F2)] Hg; split; [by rewrite R2, R1, app_assoc|].
  destruct Hg as [Hg|Hg].
  - exists (e1 ++ e2); rewrite E2, E1, app_assoc; split; [done|]; apply Forall_app; split; [|done]; by rewrite <- Hg.
  - exists e2; by rewrite E2, Hg.
Qed.

(** Nothing but calls of the device. *)
Definition silent m m' : Prop :=
  replied (trace m') = replied (trace m) /\ events (trace m') = events (trace m) /\ m_streamGen m' = m_streamGen m.

Lemma silent_trans m1 m2 m3 : silent m1 m2 -> silent m2 m3 -> silent m1 m3.
Proof. unfold silent; intuition congruence. Qed.

Lemma silent_adds m1 m2 m3 ids : silent m1 m2 -> adds m2 m3 ids -> adds m1 m3 ids.
Proof. intros (R & E & G) [R' (evs & E' & F')]; split; [congruence|]; exists evs; by rewrite E', E. Qed.

Lemma adds_silent m1 m2 m3 ids : adds m1 m2 ids -> silent m2 m3 -> adds m1 m3 ids.
Proof. intros [R' (evs & E' & F')] (R & E & G); split; [congruence|]; exists evs; by rewrite E, G. Qed.

Lemma silent_act m a :
  match a with ActReply _ _ | ActEvent _ => False | _ => True end -> silent m (act a m).
Proof.
  intros Ha; unfold silent, act; simpl; rewrite replied_app, events_app; destruct a; simpl; try done;
    by rewrite !app_nil_r.
Qed.

Lemma silent_call e c m : silent m (call e c m).1.
Proof. unfold call; case_match; [by apply silent_act|done]. Qed.

Lemma silent_close e m : silent m (closeOutput e m).
Proof. exact (silent_call e CallClose m). Qed.

Lemma silent_ensure e m : silent m (ensureOutput e m).1.
Proof.
  unfold ensureOutput, newOutput; case_match; [done|]; case_match; [by apply silent_act|].
  unfold silent; simpl; rewrite replied_app, events_app; simpl; by rewrite !app_nil_r.
Qed.

Lemma adds_reply m cmd r : adds m (act (ActReply cmd r) m) [cmd].
Proof.
  split; simpl; [by rewrite replied_app|]; exists []; rewrite events_app; simpl; by rewrite !app_nil_r.
Qed.

Lemma adds_event m t err : adds m (send_event t err m) [].
Proof.
  split; simpl; [rewrite replied_app; simpl; done|].
  eexists; rewrite events_app; split; [done|]; by repeat constructor.
Qed.

(** What follows a reply: possibly an event, no new stream. *)
Definition follows (f : Manager A F -> Manager A F) : Prop :=
  forall m, adds m (f m) [] /\ m_streamGen (f m) = m_streamGen m.

Lemma adds_runOutputOp o e cmd op f m : follows f ->
  adds m (runOutputOp o e cmd op f m) [cmd] /\ m_streamGen (runOutputOp o e cmd op f m) = m_streamGen m.
Proof.
  intros Hf; unfold runOutputOp; destruct o.
  - destruct (Hf (act (ActReply cmd ReplyNil) m)) as [Ha Hg].
    assert (H1' : adds m (f (act (ActReply cmd ReplyNil) m)) ([cmd] ++ [])).
    { eapply adds_trans; [apply adds_reply|exact Ha|]; by left. }
    simpl in H1'; pose proof (silent_call e op (f (act (ActReply cmd ReplyNil) m))) as Hc.
    destruct (call e op _) as [m1 [er|]]; simpl in Hc; split; try (destruct Hc as (_ & _ & ->); exact Hg).
    + eapply adds_silent; [exact H1'|]; eapply silent_trans; [exact Hc|apply silent_close].
    + destruct (silent_close e m1) as (_ & _ & ->); destruct Hc as (_ & _ & ->); exact Hg.
    + by eapply adds_silent.
  - pose proof (silent_call e op m) as Hc; destruct (call e op m) as [m1 [er|]]; simpl in Hc.
    + assert (Hs : silent m (closeOutput e m1)) by (eapply silent_trans; [exact Hc|apply silent_close]).
      split; [eapply silent_adds; [exact Hs|apply adds_reply]|apply Hs].
    + destruct (Hf (act (ActReply cmd ReplyNil) m1)) as [Ha Hg]; split; [|by rewrite Hg; apply Hc].
      eapply silent_adds; [exact Hc|]; change [cmd] with ([cmd] ++ []).
      eapply adds_trans; [apply adds_reply|exact Ha|]; by left.
Qed.

Lemma follows_event t g : (forall m, trace (g m) = trace m /\ m_streamGen (g m) = m_streamGen m) ->
  follows (fun m => send_event t None (g m)).
Proof.
  intros Hg m; destruct (Hg m) as [Ht Hs]; split; [|exact Hs].
  eapply silent_adds; [|apply adds_event]; unfold silent; by rewrite Ht, Hs.
Qed.

Lemma follows_id : follows (fun m => m).
Proof. intros m; split; [apply adds_refl|done]. Qed.

(** Every command adds its reply, if it wants one, and only setting a primary
    stream counts the generation up. *)
Definition round m m' (ids : list nat) (new : bool) : Prop :=
  adds m m' ids /\ m_streamGen m' = (if new then u64 (m_streamGen m + 1) else m_streamGen m).

Lemma round_reply m m' cmd r : silent m m' -> round m (act (ActReply cmd r) m') [cmd] false.
Proof. intros Hs; split; [eapply silent_adds; [exact Hs|apply adds_reply]|apply Hs]. Qed.

Lemma round_op o e cmd op f m m' : follows f -> silent m m' -> round m (runOutputOp o e cmd op f m') [cmd] false.
Proof.
  intros Hf Hs; destruct (adds_runOutputOp o e cmd op f m' Hf) as [Ha Hg].
  split; [by eapply silent_adds|]; rewrite Hg; apply Hs.
Qed.

Lemma round_silent m m' : silent m m' -> round m m' [] false.
Proof. intros Hs; split; [by eapply adds_silent; [apply adds_refl|]|apply Hs]. Qed.

Lemma setPrimary_round o e cmd source paused drop m :
  let opened := match (ensureOutput e m).2 with None => true | Some _ => false end in
  round m (setPrimary o e cmd source paused drop m) [cmd] opened.
Proof.
  unfold setPrimary; pose proof (silent_ensure e m) as Hs; destruct (ensureOutput e m) as [m' [er|]]; cbn in *.
  { by apply round_reply. }
  set (m1 := if drop then _ else m').
  assert (Hs1 : silent m m1).
  { subst m1; destruct drop; [|done]; eapply silent_trans; [exact Hs|apply silent_call]. }
  clearbody m1; set (m2 := set_source _ (add_streamGen m1)).
  match goal with |- round _ (runOutputOp _ _ _ ?op ?f _) _ _ =>
    destruct (adds_runOutputOp o e cmd op f m2) as [Ha Hg];
      [by apply (follows_event _ (fun m => set_started (oe_now e) (set_paused paused m)))|] end.
  destruct Hs1 as (R1 & E1 & G1); split; [|rewrite Hg; simpl; by rewrite G1].
  destruct Ha as [Ra (evs & Ea & Fa)]; split; [rewrite Ra; simpl; by rewrite R1|].
  exists evs; split; [rewrite Ea; simpl; by rewrite E1|done].
Qed.

Lemma seek_resume_round o e cmd m m' : silent m m' -> round m (seek_resume o e cmd m') [cmd] false.
Proof.
  intros Hs; unfold seek_resume; destruct (m_paused m'); [by apply round_reply|].
  pose proof (silent_ensure e m') as He; destruct (ensureOutput e m') as [m1 [er|]]; simpl in He.
  - apply round_reply; by eapply silent_trans.
  - apply round_op; [apply follows_id|by eapply silent_trans].
Qed.

Lemma seekTo_round o e cmd pos m : round m (seekTo o e cmd pos m) [cmd] false.
Proof.
  unfold seekTo; destruct (SetPositionMs (m_source m) pos) as [s [er|]]; cbv zeta.
  { by apply round_reply. }
  set (m1 := set_source s m); assert (Hs : silent m m1) by done; clearbody m1.
  destruct (m_out m1); [|by apply seek_resume_round].
  pose proof (silent_call e CallDrop m1) as Hc; destruct (call e CallDrop m1) as [m2 [er|]]; simpl in Hc.
  - apply round_reply; eapply silent_trans; [exact Hs|]; eapply silent_trans; [exact Hc|apply silent_close].
  - apply seek_resume_round; by eapply silent_trans.
Qed.

Lemma reopenOutput_round e cmd name m : round m (reopenOutput e cmd name m) [cmd] false.
Proof.
  unfold reopenOutput; cbv zeta; set (m0 := set_device name m).
  assert (Hs0 : silent m m0) by done; clearbody m0.
  destruct (m_out m0); [|by apply round_reply].
  set (m1 := closeOutput e _); assert (Hs1 : silent m m1 /\ m_out m1 = None).
  { split; [|done]; eapply silent_trans; [exact Hs0|]; eapply silent_trans; [apply silent_call|apply silent_close]. }
  clearbody m1; destruct Hs1 as [Hs1 Hn]; pose proof (silent_ensure e m1) as Hs2.
  unfold ensureOutput in Hs2; rewrite Hn in Hs2; destruct (newOutput e m1) as [m2 [er|]]; simpl in Hs2.
  - apply round_reply; by eapply silent_trans.
  - apply (round_op false e cmd _ (fun m => m)); [apply follows_id|by eapply silent_trans].
Qed.

Definition sets_stream (c : playerCmd) : bool := match c with playerCmdSetPrimary _ _ _ => true | _ => false end.

Lemma handle_cmd_round o e cmd c m :
  exists new, round m (handle_cmd o e cmd c m) (if wants_reply c then [cmd] else []) new /\
    (new = true -> sets_stream c = true).
Proof.
  destruct c as [source paused drop|source| | | |pos| |vol|name|]; simpl;
    [eexists; split; [apply setPrimary_round|done]|exists false; split; [|done]..].
  - by apply round_reply.
  - pose proof (silent_ensure e m) as Hs; destruct (ensureOutput e m) as [m' [er|]]; [by apply round_reply|].
    apply round_op; [by apply (follows_event _ (set_paused false))|done].
  - case_match; [|by apply round_reply]; apply round_op; [by apply (follows_event _ (set_paused true))|done].
  - set (m1 := match m_out m with Some _ => _ | None => m end).
    assert (silent m m1) as Hs by (subst m1; case_match; [apply silent_close|done]); clearbody m1.
    split; [|apply Hs]; change [cmd] with ([cmd] ++ []).
    eapply adds_trans; [eapply silent_adds; [exact Hs|apply adds_reply]|apply adds_event|]; by left.
  - apply seekTo_round.
  - case_match; by apply round_reply.
  - apply round_silent; set (m1 := set_volume vol m); assert (silent m m1) as Hs by done; clearbody m1.
    case_match; [eapply silent_trans; [exact Hs|apply silent_call]|done].
  - apply reopenOutput_round.
  - apply round_silent; set (m1 := act _ _); assert (silent m m1) as Hs by (by apply (silent_act (set_closed m))).
    clearbody m1; case_match; [eapply silent_trans; [exact Hs|apply silent_close]|done].
Qed.

Definition reply_ids (ev : manage_event) : list nat :=
  match ev with EvCmd cmd c => if wants_reply c then [cmd] else [] | _ => [] end.

Lemma manage_step_round o e ev m m' :
  manage_step o e ev m = Ret m' -> exists new, round m m' (reply_ids ev) new.
Proof.
  destruct ev as [cmd c|err| |plen]; simpl.
  - destruct (m_closed m); intros [= <-]; [|destruct (handle_cmd_round o e cmd c m) as (new & ? & _); eauto].
    exists false; destruct c; simpl; first [by apply round_reply | by apply round_silent].
  - repeat case_match; intros [= <-]; exists false; try (by apply round_silent).
    split; [|apply silent_close]; eapply silent_adds; [apply silent_close|apply adds_event].
  - case_match; intros [= <-]; exists false; [by apply round_silent|].
    split; [|done]; apply (silent_adds _ (set_source (set_eof (m_source m) false (eofReported (m_source m))) m));
      [done|apply adds_event].
  - case_match; [|intros [= <-]; exists false; by apply round_silent].
    intros Hr; apply run_bind_inv in Hr as ([s out] & _ & Hr); simplify_eq/=; exists false; by apply round_silent.
Qed.

(** ** Whole runs *)
Lemma asked_cons e ev evs : asked ((e, ev) :: evs) = reply_ids ev ++ asked evs.
Proof. unfold asked; simpl; destruct ev as [cmd c|err| |plen]; simpl; [destruct (wants_reply c)|..]; done. Qed.

Lemma manageLoop_replied o evs : forall m m',
  manageLoop o evs m = Ret m' -> replied (trace m') = replied (trace m) ++ asked evs.
Proof.
  induction evs as [|[e ev] evs IH]; intros m m' Hr; simpl in Hr; [simplify_eq; by rewrite app_nil_r|].
  apply run_bind_inv in Hr as (m1 & Hs & Hr); apply manage_step_round in Hs as (new & [Ra _] & _).
  by rewrite (IH _ _ Hr), Ra, asked_cons, app_assoc.
Qed.

(** Generations count up by at most one a round: with fewer than 2^64 rounds
    they never wrap. *)
Lemma manageLoop_gens o evs : forall m m',
  manageLoop o evs m = Ret m' -> 0 <= m_streamGen m -> m_streamGen m + zlen evs < 2 ^ 64 ->
  m_streamGen m <= m_streamGen m' <= m_streamGen m + zlen evs /\
  exists later, events (trace m') = events (trace m) ++ later /\
    Forall (fun ev => m_streamGen m <= ev_StreamGen ev <= m_streamGen m') later.
Proof.
  induction evs as [|[e ev] evs IH]; intros m m' Hr H0' Hb; simpl in Hr.
  { simplify_eq; rewrite zlen_nil; split; [lia|]; exists []; by rewrite app_nil_r. }
  apply run_bind_inv in Hr as (m1 & Hs & Hr); apply manage_step_round in Hs as (new & [_ (evs1 & E1 & F1)] & Hg).
  rewrite zlen_cons in Hb |- *; pose proof (zlen_nonneg evs).
  assert (Hg1 : m_streamGen m <= m_streamGen m1 <= m_streamGen m + 1).
  { rewrite Hg; destruct new; [|lia]; unfold u64; rewrite wrap_small by lia; lia. }
  destruct (IH m1 m' Hr ltac:(lia) ltac:(lia)) as (Hle & later & E & Fl); split; [lia|].
  exists (evs1 ++ later); rewrite E, E1, app_assoc; split; [done|]; apply Forall_app; split.
  - eapply Forall_impl; [exact F1|]; simpl; lia.
  - eapply Forall_impl; [exact Fl|]; simpl; lia.
Qed.
End claims.

(** ** Theorems *)


(** A device that works, and one that cannot resume. *)
Definition demo_env : OutEnv := MkOutEnv None (fun _ => None) (Ok 20) 1000.

Definition stuck_env : OutEnv :=
  MkOutEnv None (fun c => if decide (c = CallResume) then Some net_ErrClosed else None) (Ok 20) 2000.

Definition demo_events : list (OutEnv * manage_event) :=
  [(demo_env, EvCmd 1 (playerCmdSetPrimary 0 false true)); (demo_env, EvPull 4);
   (demo_env, EvCmd 2 (playerCmdVolume 30000)); (demo_env, EvCmd 3 playerCmdPause);
   (demo_env, EvCmd 4 (playerCmdReopenOutput "other")); (stuck_env, EvCmd 5 playerCmdPlay);
   (demo_env, EvCmd 6 (playerCmdSeek 0)); (demo_env, EvCmd 7 playerCmdPlay)].


(** An event can be told from those of the stream before.  When setting a
    primary stream is answered without an error, the generation read afterwards
    is greater than that of every event sent before and no greater than that of
    any event sent later, as long as fewer than 2^64 rounds have passed. *)
Theorem stream_events_identified {A F} `{AudioSourceLaws A F} `{Float F} (h : nat -> A) (crossfade : Z)
    (name : string) (optimistic : bool) (evs1 evs2 : list (OutEnv * manage_event)) (e : OutEnv)
    (cmd source : nat) (paused drop : bool) (m1 m2 m3 : Manager A F) (t : list action) :
  manageLoop optimistic evs1 (NewPlayer h crossfade name) = Ret m1 ->
  manage_step optimistic e (EvCmd cmd (playerCmdSetPrimary source paused drop)) m1 = Ret m2 ->
  trace m2 = trace m1 ++ t -> ActReply cmd ReplyNil ∈ t ->
  manageLoop optimistic evs2 m2 = Ret m3 ->
  zlen evs1 + zlen evs2 + 1 < 2 ^ 64 ->
  exists later, events (trace m3) = events (trace m1) ++ later /\
    Forall (fun ev => ev_StreamGen ev < m_streamGen m2) (events (trace m1)) /\
    Forall (fun ev => m_streamGen m2 <= ev_StreamGen ev) later.
Proof.
  intros H1' H2' Ht Hin H3' Hb; pose proof (zlen_nonneg evs1); pose proof (zlen_nonneg evs2).
  destruct (manageLoop_gens _ _ _ _ H1') as (Hg1 & before & Eb & Fb); [done|simpl; lia|]; simpl in *.
  assert (Hopen : m_closed m1 = false /\ (ensureOutput e m1).2 = None).
  { destruct (m_closed m1); [simplify_eq/=|].
    - by apply list_elem_of_singleton in Hin.
    - split; [done|]; destruct ((ensureOutput e m1).2) as [er|] eqn:Ee; [|done].
      simplify_eq/=; exfalso; revert Ht Ee; unfold setPrimary, ensureOutput, newOutput.
      destruct (m_out m1); [done|]; destruct (oe_open e); simpl; [|done].
      rewrite <- app_assoc; intros Ht _; apply app_inv_head in Ht; subst t; simpl in Hin.
      apply elem_of_cons in Hin as [?|Hin]; [done|]; by apply list_elem_of_singleton in Hin. }
  destruct Hopen as [Hc He]; rewrite Hc in H2'; simplify_eq/=.
  destruct (setPrimary_round optimistic e cmd source paused drop m1) as [[_ (evs & E & Fe)] Hg]; rewrite He in Hg.
  unfold u64 in Hg; rewrite wrap_small in Hg by lia.
  destruct (manageLoop_gens _ _ _ _ H3') as (Hg3 & later & El & Fl); [lia|lia|].
  exists (evs ++ later); rewrite El, E, app_assoc; split_and!; [done|..].
  - eapply Forall_impl; [exact Fb|]; simpl; lia.
  - apply Forall_app; split; [eapply Forall_impl; [exact Fe|]; simpl; lia|].
    eapply Forall_impl; [exact Fl|]; simpl; lia.
Qed.

Definition demo_after (evs : list (OutEnv * manage_event)) : Manager script Z :=
  match manageLoop false evs (NewPlayer demo_sources 0 "default") with
  | Ret m => m
  | _ => NewPlayer demo_sources 0 "default"
  end.

Definition demo_set : OutEnv * manage_event := (demo_env, EvCmd 8 (playerCmdSetPrimary 1 true false)).

Definition demo_stop : OutEnv * manage_event := (demo_env, EvCmd 9 playerCmdStop).

Lemma stream_events_identified_witness :
  let m1 := demo_after demo_events in
  let m2 := demo_after (demo_events ++ [demo_set]) in
  let m3 := demo_after (demo_events ++ [demo_set; demo_stop]) in
  m_streamGen m2 = 2 /\
  exists later, events (trace m3) = events (trace m1) ++ later /\
    Forall (fun ev => ev_StreamGen ev < m_streamGen m2) (events (trace m1)) /\
    Forall (fun ev => m_streamGen m2 <= ev_StreamGen ev) later.
Proof.
  intros m1 m2 m3; split; [vm_compute; reflexivity|].
  apply (stream_events_identified demo_sources 0 "default" false demo_events [demo_stop] demo_env 8 1 true false
    m1 m2 m3 (drop (length (trace m1)) (trace m2))); try (vm_compute; reflexivity).
  vm_compute; repeat constructor.
Defined.

(** A track change flushes the output and ignores a failure to do so: the
    device that failed is asked to play the new track. *)
Theorem failed_flush_reuses_output {A F} `{AudioSource A F} `{Float F} (m : Manager A F) (e : OutEnv)
    (cmd source id : nat) (er : error) :
  m_out m = Some id -> oe_call e CallDrop = Some er -> oe_call e CallResume = None ->
  exists ev, trace (handle_cmd false e cmd (playerCmdSetPrimary source false true) m) =
    trace m ++ [ActCalled id CallDrop (Some er); ActCalled id CallResume None; ActReply cmd ReplyNil; ActEvent ev].
Proof.
  intros Ho Hd Hr; eexists; simpl; unfold setPrimary, ensureOutput; rewrite Ho; cbn.
  unfold runOutputOp, call; simpl; rewrite Ho; simpl; rewrite Ho, Hd, Hr; simpl; rewrite <- !app_assoc; reflexivity.
Qed.
