(* ===== verification/Conn.v ===== *)
(** * The accesspoint connection ([src/ap/shannon.go], [src/ap/conn.go], [src/ap/ap.go])

    Framing of the plain handshake messages and of the encrypted packets, the
    dispatch of received packets, and the pong watchdog.  The Shannon cipher
    (github.com/devgianlu/shannon) is a parameter with the laws of a stream
    cipher with a message authentication code. *)

From S2P Require Import Prelude.
#[local] Open Scope list_scope.
#[local] Open Scope Z_scope.

(** ** The cipher *)
Class Shannon (C : Type) := {
  sh_New : list Z -> C;
  sh_NonceU32 : C -> Z -> C;
  sh_Encrypt : C -> list Z -> C * list Z;
  sh_Decrypt : C -> list Z -> C * list Z;
  sh_Finish : C -> C * list Z;
  sh_CheckMac : C -> list Z -> C * bool
}.

(** [sh_sync e d]: what [e] encrypts next, [d] decrypts, with the same message
    authentication code.  [sh_same key c]: [c] was made from [key]. *)
Class ShannonLaws (C : Type) `{Shannon C} (sh_sync : C -> C -> Prop) (sh_same : list Z -> C -> Prop) := {
  sh_New_same : forall key, sh_same key (sh_New key);
  sh_nonce_sync : forall key e d n, sh_same key e -> sh_same key d ->
    sh_sync (sh_NonceU32 e n) (sh_NonceU32 d n) /\
    sh_same key (sh_NonceU32 e n) /\ sh_same key (sh_NonceU32 d n);
  sh_Encrypt_app : forall c a b,
    sh_Encrypt c (a ++ b) =
    ((sh_Encrypt (sh_Encrypt c a).1 b).1, (sh_Encrypt c a).2 ++ (sh_Encrypt (sh_Encrypt c a).1 b).2);
  sh_Encrypt_len : forall c a, zlen (sh_Encrypt c a).2 = zlen a;
  sh_crypt_sync : forall e d a, sh_sync e d ->
    (sh_Decrypt d (sh_Encrypt e a).2).2 = a /\
    sh_sync (sh_Encrypt e a).1 (sh_Decrypt d (sh_Encrypt e a).2).1;
  sh_mac_sync : forall e d, sh_sync e d ->
    (sh_CheckMac d (sh_Finish e).2).2 = true /\ zlen (sh_Finish e).2 = 4;
  sh_same_stable : forall key c, sh_same key c ->
    (forall a, sh_same key (sh_Encrypt c a).1) /\ (forall a, sh_same key (sh_Decrypt c a).1) /\
    sh_same key (sh_Finish c).1 /\ (forall m, sh_same key (sh_CheckMac c m).1)
}.

(** ** Reading from the connection

    The bytes that will arrive, in order, before the peer closes; [io.ReadFull]
    of [n] of them. *)
Definition ReadFull (n : Z) (wire : list Z) : list Z * result (list Z) :=
  if decide (zlen wire < n)
  then ([], Err (if decide (zlen wire = 0) then io_EOF else io_ErrUnexpectedEOF))
  else (dropZ n wire, Ok (takeZ n wire)).

(** ** Plain messages ([src/ap/conn.go])

    [data] is the marshalled message. *)
Definition writeMessage (withHello : bool) (data : list Z) : list Z :=
  let helloLen := if withHello then 2 else 0 in
  (if withHello then [0; 4] else []) ++ be_bytes 4 (u32 (helloLen + 4 + zlen data)) ++ data.

(** The outcome of a [readMessage] up to the unmarshalling of its body, and how
    many bytes it allocated for it. *)
Record read_message := MkReadMessage { rm_rest : list Z; rm_body : result (list Z); rm_alloc : Z }.

Definition readMessage (maxLength : Z) (wire : list Z) : read_message :=
  match ReadFull 4 wire with
  | (rest, Err e) => MkReadMessage rest (Err (EWrap "failed reading message length" e)) 0
  | (rest, Ok hdr) =>
    let length := be_val hdr in
    if bool_decide (0 < maxLength) && bool_decide (u32 maxLength < length)
    then MkReadMessage rest (Err (EMsg "message too long")) 0
    else
      let alloc := u32 (length - 4) in
      match ReadFull alloc rest with
      | (rest, Err e) => MkReadMessage rest (Err (EWrap "failed reading message body" e)) alloc
      | (rest, Ok data) => MkReadMessage rest (Ok data) alloc
      end
  end.

(** ** Encrypted packets ([src/ap/shannon.go]) *)
Section packets.
Context {C : Type} `{Shannon C}.

Record sender := MkSender { sendCipher : C; sendNonce : Z }.

(** [wire] is what the peer will still send, after [unreadBytes]. *)
Record receiver := MkReceiver { recvCipher : C; recvNonce : Z; unreadBytes : list Z; wire : list Z }.

Definition newSender (key : list Z) : sender := MkSender (sh_New key) 0.
Definition newReceiver (key wire : list Z) : receiver := MkReceiver (sh_New key) 0 [] wire.

(** The bytes written to the connection. *)
Definition sendPacket (s : sender) (pktType : Z) (payload : list Z) : sender * result (list Z) :=
  if decide (65535 < zlen payload) then (s, Err (EMsg "payload too big"))
  else
    let packet := u8 pktType :: be_bytes 2 (u16 (zlen payload)) ++ payload in
    let c := sh_NonceU32 (sendCipher s) (sendNonce s) in
    let '(c, packet) := sh_Encrypt c packet in
    let '(c, mac) := sh_Finish c in
    (MkSender c (u32 (sendNonce s + 1)), Ok (packet ++ mac)).

Definition peekUnencrypted (r : receiver) (count : Z) : run (receiver * result (list Z)) :=
  if decide (0 < zlen (unreadBytes r)) then Panic "not supported"
  else
    match ReadFull count (wire r) with
    | (rest, Err e) => Ret (MkReceiver (recvCipher r) (recvNonce r) [] rest,
                            Err (EWrap "failed peeking uncrypted" e))
    | (rest, Ok buf) => Ret (MkReceiver (recvCipher r) (recvNonce r) buf rest, Ok buf)
    end.

(** [io.ReadFull] on the unread bytes followed by the connection. *)
Definition read_n (n : Z) (unread wire : list Z) : list Z * list Z * result (list Z) :=
  match ReadFull n (unread ++ wire) with
  | (_, Err e) => ([], [], Err e)
  | (_, Ok data) => (dropZ n unread, dropZ (n - zlen unread) wire, Ok data)
  end.

Definition receivePacket (r : receiver) : receiver * result (Z * list Z) :=
  let c := sh_NonceU32 (recvCipher r) (recvNonce r) in
  let nonce := u32 (recvNonce r + 1) in
  match read_n 3 (unreadBytes r) (wire r) with
  | (u, w, Err e) => (MkReceiver c nonce u w, Err (EWrap "failed reading packet header" e))
  | (u, w, Ok hdr) =>
    let '(c, header) := sh_Decrypt c hdr in
    let payloadLen := be_val (sliceZ 1 3 header) in
    match read_n payloadLen u w with
    | (u, w, Err e) => (MkReceiver c nonce u w, Err (EWrap "failed reading packet payload" e))
    | (u, w, Ok body) =>
      let '(c, payload) := sh_Decrypt c body in
      match read_n 4 u w with
      | (u, w, Err e) => (MkReceiver c nonce u w, Err (EWrap "failed reading packet mac" e))
      | (u, w, Ok expectedMac) =>
        let '(c, ok) := sh_CheckMac c expectedMac in
        if (ok : bool) then (MkReceiver c nonce u w, Ok (default 0 (nthZ header 0), payload))
        else (MkReceiver c nonce u w, Err (EMsg "invalid packet mac"))
      end
    end
  end.
End packets.
Arguments sender : clear implicits.
Arguments receiver : clear implicits.

(** ** Dispatch ([recvLoop] of [src/ap/ap.go]) *)
Definition PacketTypePing : Z := 0x04.
Definition PacketTypePong : Z := 0x49.
Definition PacketTypePongAck : Z := 0x4a.
Definition pongAckInterval : Z := 120 * 10 ^ 9.

Record Packet := MkPacket { pkt_Type : Z; pkt_Payload : list Z }.

(** The channels registered per packet type, in order. *)
Abbreviation recv_chans := (gmap Z (list nat)).

Definition Receive (chans : recv_chans) (types : list Z) (ch : nat) : recv_chans :=
  foldl (fun m t => <[t := default [] (m !! t) ++ [ch]]> m) chans types.

Inductive dispatched :=
| SendPong (payload : list Z)
| NotePongAck
| Deliver (chs : list nat) (pkt : Packet).

Definition dispatch (chans : recv_chans) (pkt : Packet) : dispatched :=
  if decide (pkt_Type pkt = PacketTypePing) then SendPong (pkt_Payload pkt)
  else if decide (pkt_Type pkt = PacketTypePongAck) then NotePongAck
  else Deliver (default [] (chans !! pkt_Type pkt)) pkt.

(** The pong watchdog: when the last acknowledgement is taken to have come, and
    whether a tick closes the connection. *)
Definition resetPongAckDeadline (now : Z) : Z := now + pongAckInterval.
Definition notePongAck (now : Z) : Z := now.
Definition pongAckTick (now lastPongAck : Z) : bool := bool_decide (pongAckInterval < now - lastPongAck).

(** ** Framing lemmas *)
Lemma ReadFull_app a b : ReadFull (zlen a) (a ++ b) = (b, Ok a).
Proof.
  unfold ReadFull; rewrite decide_False by (rewrite zlen_app; pose proof (zlen_nonneg b); lia).
  by rewrite dropZ_app_le, takeZ_app_le, dropZ_all, takeZ_all by lia.
Qed.

Lemma read_n_app u w a b :
  u ++ w = a ++ b ->
  exists u' w', read_n (zlen a) u w = (u', w', Ok a) /\ u' ++ w' = b.
Proof.
  intros Heq; unfold read_n; rewrite Heq, ReadFull_app.
  eexists _, _; split; [reflexivity|].
  assert (Hd : dropZ (zlen a) (u ++ w) = b).
  { rewrite Heq, dropZ_app_le by lia; by rewrite dropZ_all by lia. }
  rewrite <- Hd; pose proof (zlen_nonneg a); destruct (decide (zlen a <= zlen u)).
  - rewrite dropZ_app_le by lia; f_equal; unfold dropZ.
    by replace (Z.to_nat (zlen a - zlen u)) with 0%nat by lia.
  - rewrite (dropZ_all (zlen a) u) by lia; unfold dropZ; rewrite drop_app_ge by (unfold zlen in *; lia).
    simpl; f_equal; unfold zlen; lia.
Qed.

Section roundtrip.
Context {C : Type} `{Shannon C} (sh_sync : C -> C -> Prop) (sh_same : list Z -> C -> Prop).
Context `{!ShannonLaws C sh_sync sh_same} (key : list Z).

(** Both ends of one direction: same key, same nonce. *)
Definition paired (s : sender C) (r : receiver C) : Prop :=
  sh_same key (sendCipher s) /\ sh_same key (recvCipher r) /\ sendNonce s = recvNonce r.

Lemma packet_roundtrip s r pktType payload rest :
  paired s r -> 0 <= pktType < 256 -> zlen payload <= 65535 ->
  exists s' bytes, sendPacket s pktType payload = (s', Ok bytes) /\
    (unreadBytes r ++ wire r = bytes ++ rest ->
     exists r', receivePacket r = (r', Ok (pktType, payload)) /\ unreadBytes r' ++ wire r' = rest /\ paired s' r').
Proof.
  intros (Hks & Hkr & Hn) Ht Hp; unfold sendPacket; rewrite decide_False by lia; cbv zeta.
  unfold u8, u16; rewrite !wrap_small by (pose proof (zlen_nonneg payload); lia).
  set (hdr := pktType :: be_bytes 2 (zlen payload)).
  assert (Hhdr : zlen hdr = 3) by (unfold hdr; rewrite zlen_cons, zlen_be_bytes; lia).
  change (pktType :: be_bytes 2 (zlen payload) ++ payload) with (hdr ++ payload).
  destruct (sh_nonce_sync key (sendCipher s) (recvCipher r) (sendNonce s) Hks Hkr) as (Hsync & Hks0 & Hkr0).
  set (e := sh_NonceU32 (sendCipher s) (sendNonce s)) in *; rewrite Hn in Hsync, Hkr0.
  set (d := sh_NonceU32 (recvCipher r) (recvNonce r)) in *.
  rewrite sh_Encrypt_app; destruct (sh_Encrypt e hdr) as [e1 ch] eqn:E1; cbn [fst snd].
  destruct (sh_crypt_sync e d hdr Hsync) as [D1 Hsync1]; pose proof (sh_Encrypt_len e hdr) as L1.
  rewrite E1 in D1, Hsync1, L1; cbn [fst snd] in *.
  destruct (sh_Decrypt d ch) as [d1 hd] eqn:ED1; cbn [fst snd] in *; subst hd.
  destruct (sh_Encrypt e1 payload) as [e2 cp] eqn:E2; cbn [fst snd].
  destruct (sh_crypt_sync e1 d1 payload Hsync1) as [D2 Hsync2]; pose proof (sh_Encrypt_len e1 payload) as L2.
  rewrite E2 in D2, Hsync2, L2; cbn [fst snd] in *.
  destruct (sh_Decrypt d1 cp) as [d2 pl] eqn:ED2; cbn [fst snd] in *; subst pl.
  destruct (sh_mac_sync e2 d2 Hsync2) as [Hmac Lm].
  destruct (sh_Finish e2) as [e3 mac] eqn:E3; cbn [fst snd] in *.
  destruct (sh_CheckMac d2 mac) as [d3 ok] eqn:E4; cbn [fst snd] in *; subst ok.
  eexists _, _; split; [reflexivity|]; intros Hwire; rewrite <- !app_assoc in Hwire.
  unfold receivePacket; fold d; cbv zeta.
  destruct (read_n_app _ _ _ _ Hwire) as (u1 & w1 & R1 & Hw1); rewrite L1, Hhdr in R1; rewrite R1, ED1.
  assert (Hlen : be_val (sliceZ 1 3 hdr) = zlen payload).
  { unfold hdr, sliceZ; change (dropZ 1 (pktType :: be_bytes 2 (zlen payload))) with (be_bytes 2 (zlen payload)).
    rewrite takeZ_all by (rewrite zlen_be_bytes; lia); rewrite be_val_be_bytes by lia.
    apply Z.mod_small; pose proof (zlen_nonneg payload); lia. }
  rewrite Hlen; destruct (read_n_app _ _ _ _ Hw1) as (u2 & w2 & R2 & Hw2); rewrite L2 in R2; rewrite R2, ED2.
  destruct (read_n_app _ _ _ _ Hw2) as (u3 & w3 & R3 & Hw3); rewrite Lm in R3; rewrite R3, E4.
  eexists; split; [reflexivity|]; split; [exact Hw3|].
  assert (Hs3 : sh_same key e3).
  { pose proof (sh_same_stable key e Hks0) as (A1 & _); specialize (A1 hdr); rewrite E1 in A1.
    pose proof (sh_same_stable key e1 A1) as (A2 & _); specialize (A2 payload); rewrite E2 in A2.
    pose proof (sh_same_stable key e2 A2) as (_ & _ & A3 & _); by rewrite E3 in A3. }
  assert (Hr3 : sh_same key d3).
  { pose proof (sh_same_stable key d Hkr0) as (_ & A1 & _); specialize (A1 ch); rewrite ED1 in A1.
    pose proof (sh_same_stable key d1 A1) as (_ & A2 & _); specialize (A2 cp); rewrite ED2 in A2.
    pose proof (sh_same_stable key d2 A2) as (_ & _ & _ & A3); specialize (A3 mac); by rewrite E4 in A3. }
  split_and!; auto; cbn; by rewrite Hn.
Qed.

(** A run of packets, and as many receives. *)
Fixpoint send_all (s : sender C) (pkts : list Packet) : sender C * result (list Z) :=
  match pkts with
  | [] => (s, Ok [])
  | p :: pkts =>
    match sendPacket s (pkt_Type p) (pkt_Payload p) with
    | (s, Err e) => (s, Err e)
    | (s, Ok bytes) =>
      match send_all s pkts with
      | (s, Err e) => (s, Err e)
      | (s, Ok more) => (s, Ok (bytes ++ more))
      end
    end
  end.

Fixpoint receive_all (r : receiver C) (n : nat) : receiver C * result (list Packet) :=
  match n with
  | O => (r, Ok [])
  | S n =>
    match receivePacket r with
    | (r, Err e) => (r, Err e)
    | (r, Ok (t, payload)) =>
      match receive_all r n with
      | (r, Err e) => (r, Err e)
      | (r, Ok more) => (r, Ok (MkPacket t payload :: more))
      end
    end
  end.

Definition sendable (p : Packet) : Prop := 0 <= pkt_Type p < 256 /\ zlen (pkt_Payload p) <= 65535.

Lemma send_receive_all pkts s r rest :
  paired s r -> Forall sendable pkts ->
  exists s' bytes, send_all s pkts = (s', Ok bytes) /\
    (unreadBytes r ++ wire r = bytes ++ rest ->
     exists r', receive_all r (length pkts) = (r', Ok pkts) /\ unreadBytes r' ++ wire r' = rest /\ paired s' r').
Proof.
  intros Hpair Hok; revert s r Hpair; induction Hok as [|[t pl] pkts [Ht Hl] _ IH]; intros s r Hpair; simpl in *.
  { eexists _, []; split; [reflexivity|]; intros Hw; exists r; auto. }
  destruct (packet_roundtrip s r t pl rest Hpair Ht Hl) as (s1 & b1 & Hs1 & _); rewrite Hs1.
  assert (Hall : exists s' more, send_all s1 pkts = (s', Ok more)).
  { destruct (IH s1 (MkReceiver (sendCipher s1) (sendNonce s1) [] [])) as (s' & more & ? & _); [|eauto].
    destruct Hpair as (Hk & _ & _); unfold sendPacket in Hs1; rewrite decide_False in Hs1 by lia; cbv zeta in Hs1.
    pose proof (sh_nonce_sync key _ _ (sendNonce s) Hk Hk) as (_ & A0 & _).
    pose proof (sh_same_stable key _ A0) as (A1 & _).
    match type of Hs1 with context [sh_Encrypt ?c ?x] => specialize (A1 x); destruct (sh_Encrypt c x) as [e1 ct] end.
    pose proof (sh_same_stable key _ A1) as (_ & _ & A2 & _); cbn [fst] in A2.
    destruct (sh_Finish e1) as [e2 mac]; injection Hs1 as <- <-; by split_and!. }
  destruct Hall as (s' & more & Hmore); rewrite Hmore; eexists s', _; split; [reflexivity|]; intros Hw.
  destruct (packet_roundtrip s r t pl (more ++ rest) Hpair Ht Hl) as (s1' & b1' & Hs1' & Hrecv).
  rewrite Hs1 in Hs1'; injection Hs1' as <- <-; rewrite <- app_assoc in Hw.
  destruct (Hrecv Hw) as (r1 & Hr1 & Hw1 & Hpair1); rewrite Hr1.
  destruct (IH s1 r1 Hpair1) as (s'' & more' & Hm & Hfin); rewrite Hmore in Hm; injection Hm as <- <-.
  destruct (Hfin Hw1) as (r' & Hr' & ? & ?); rewrite Hr'; exists r'; auto.
Qed.
End roundtrip.

(** ** A toy cipher, showing the laws can hold: each byte is shifted by the
    key, the nonce and its position; the code is the sum of the plain bytes. *)
Record toy := MkToy { toy_key : list Z; toy_at : Z; toy_sum : Z }.

Definition toy_pad (c : toy) : Z := foldr Z.add 0 (toy_key c) + toy_at c.

Fixpoint toy_encrypt (c : toy) (a : list Z) : toy * list Z :=
  match a with
  | [] => (c, [])
  | b :: a =>
    let '(c', out) := toy_encrypt (MkToy (toy_key c) (toy_at c + 1) (toy_sum c + b)) a in
    (c', b + toy_pad c :: out)
  end.

Fixpoint toy_decrypt (c : toy) (a : list Z) : toy * list Z :=
  match a with
  | [] => (c, [])
  | x :: a =>
    let b := x - toy_pad c in
    let '(c', out) := toy_decrypt (MkToy (toy_key c) (toy_at c + 1) (toy_sum c + b)) a in
    (c', b :: out)
  end.

#[export] Instance toy_shannon : Shannon toy := {
  sh_New key := MkToy key 0 0;
  sh_NonceU32 c n := MkToy (toy_key c) (1000 * n) 0;
  sh_Encrypt := toy_encrypt;
  sh_Decrypt := toy_decrypt;
  sh_Finish c := (c, be_bytes 4 (toy_sum c));
  sh_CheckMac c m := (c, bool_decide (m = be_bytes 4 (toy_sum c)))
}.

Lemma toy_encrypt_key c a : toy_key (toy_encrypt c a).1 = toy_key c.
Proof.
  revert c; induction a as [|b a IH]; intros c; simpl; [done|].
  specialize (IH (MkToy (toy_key c) (toy_at c + 1) (toy_sum c + b))).
  by destruct (toy_encrypt _ a).
Qed.

Lemma toy_decrypt_key c a : toy_key (toy_decrypt c a).1 = toy_key c.
Proof.
  revert c; induction a as [|b a IH]; intros c; simpl; [done|].
  specialize (IH (MkToy (toy_key c) (toy_at c + 1) (toy_sum c + (b - toy_pad c)))).
  by destruct (toy_decrypt _ a).
Qed.

Lemma toy_crypt c a : toy_decrypt c (toy_encrypt c a).2 = ((toy_encrypt c a).1, a).
Proof.
  revert c; induction a as [|b a IH]; intros c; simpl; [done|].
  specialize (IH (MkToy (toy_key c) (toy_at c + 1) (toy_sum c + b))).
  destruct (toy_encrypt (MkToy (toy_key c) (toy_at c + 1) (toy_sum c + b)) a) as [c' out] eqn:E; cbn in *.
  replace (b + toy_pad c - toy_pad c) with b by lia; by rewrite IH.
Qed.

#[export] Instance toy_laws : ShannonLaws toy eq (fun key c => toy_key c = key).
Proof.
  split.
  - done.
  - intros key e d n He Hd; cbn; by rewrite He, Hd.
  - intros c a b; cbn; revert c; induction a as [|x a IH]; intros c; simpl; [by destruct (toy_encrypt c b)|].
    rewrite IH; by destruct (toy_encrypt (MkToy (toy_key c) (toy_at c + 1) (toy_sum c + x)) a).
  - intros c a; cbn; revert c; induction a as [|x a IH]; intros c; simpl; [done|].
    specialize (IH (MkToy (toy_key c) (toy_at c + 1) (toy_sum c + x))).
    destruct (toy_encrypt _ a); cbn in *; by rewrite !zlen_cons, IH.
  - intros e d a ->; cbn; rewrite toy_crypt; by cbn.
  - intros e d ->; cbn; by rewrite bool_decide_true, zlen_be_bytes.
  - intros key c Hc; cbn; split_and!; auto; intros a; by rewrite ?toy_encrypt_key, ?toy_decrypt_key.
Qed.

#[export] Instance sendable_dec p : Decision (sendable p).
Proof. unfold sendable; apply _. Defined.

(** C28: The encrypted channel delivers.  Any run of packets with payloads of
    at most 65535 bytes is sent without error; a receiver keyed alike and at
    the same nonce, reading those bytes, however they are split between what
    an earlier peek left and the connection, receives exactly those types and
    payloads in that order, leaves the following bytes unread, and both ends
    stay in step for the next packet. *)
Theorem packets_delivered_in_order {C} `{Shannon C} (sh_sync : C -> C -> Prop) (sh_same : list Z -> C -> Prop)
    (key : list Z) (s : sender C) (r : receiver C) (pkts : list Packet) (rest : list Z) :
  ShannonLaws C sh_sync sh_same ->
  paired sh_same key s r -> Forall sendable pkts ->
  exists s' bytes, send_all s pkts = (s', Ok bytes) /\
    (unreadBytes r ++ wire r = bytes ++ rest ->
     exists r', receive_all r (length pkts) = (r', Ok pkts) /\ unreadBytes r' ++ wire r' = rest /\
       paired sh_same key s' r').
Proof. intros; by eapply send_receive_all. Qed.

Definition demo_pkts : list Packet := [MkPacket 0xab [1; 2; 3]; MkPacket 4 []; MkPacket 0xb2 [7; 7]].

Definition demo_wire : list Z :=
  match (send_all (newSender (C := toy) [1; 2; 3]) demo_pkts).2 with Ok bytes => bytes | Err _ => [] end.

Definition demo_receiver : receiver toy := newReceiver [1; 2; 3] (demo_wire ++ [9]).

Lemma packets_delivered_in_order_witness :
  exists s' bytes, send_all (newSender (C := toy) [1; 2; 3]) demo_pkts = (s', Ok bytes) /\
    (unreadBytes demo_receiver ++ wire demo_receiver = bytes ++ [9] ->
     exists r', receive_all demo_receiver (length demo_pkts) = (r', Ok demo_pkts) /\
       unreadBytes r' ++ wire r' = [9] /\ paired (fun key c => toy_key c = key) [1; 2; 3] s' r').
Proof.
  refine (packets_delivered_in_order eq (fun key c => toy_key c = key) [1; 2; 3] (newSender [1; 2; 3])
    demo_receiver demo_pkts [9] toy_laws _ _);
    [split_and!; reflexivity | apply (bool_decide_unpack _); vm_compute; exact I].
Defined.

(** A payload that does not fit a packet is refused without disturbing the
    connection: nothing is written and cipher and nonce are unchanged. *)
Theorem oversized_payload_refused {C} `{Shannon C} (s : sender C) (pktType : Z) (payload : list Z) :
  65535 < zlen payload -> sendPacket s pktType payload = (s, Err (EMsg "payload too big")).
Proof. intros; unfold sendPacket; by rewrite decide_True. Qed.

Lemma oversized_payload_refused_witness :
  sendPacket (newSender (C := toy) [1]) 4 (replicate (Z.to_nat 65536) 0) =
  (newSender [1], Err (EMsg "payload too big")).
Proof. apply (oversized_payload_refused (newSender [1]) 4); vm_compute; reflexivity. Defined.

(** A plain message survives the wire: what [writeMessage] wrote without
    the hello prefix, for a body under 4 GiB and within the reader's limit, is
    read back by [readMessage] exactly, leaving the bytes that follow. *)
Theorem message_roundtrip (maxLength : Z) (data rest : list Z) :
  4 + zlen data < 2 ^ 32 -> maxLength <= 0 \/ 4 + zlen data <= maxLength < 2 ^ 32 ->
  readMessage maxLength (writeMessage false data ++ rest) = MkReadMessage rest (Ok data) (zlen data).
Proof.
  intros Hlen Hmax; unfold readMessage, writeMessage; cbv zeta; cbn [app].
  pose proof (zlen_nonneg data); replace (0 + 4 + zlen data) with (4 + zlen data) by lia.
  unfold u32; rewrite (wrap_small 32 (4 + zlen data)) by lia; rewrite <- app_assoc.
  replace 4 with (zlen (be_bytes 4 (4 + zlen data))) at 1 by (apply zlen_be_bytes; lia).
  rewrite ReadFull_app, be_val_be_bytes, Z.mod_small by lia.
  replace (4 + zlen data - 4) with (zlen data) by lia; rewrite (wrap_small 32 (zlen data)) by lia.
  rewrite ReadFull_app.
  destruct (bool_decide (0 < maxLength)) eqn:E1; [|done]; simpl.
  apply bool_decide_eq_true in E1; rewrite wrap_small by lia; by rewrite bool_decide_false by lia.
Qed.

Lemma message_roundtrip_witness :
  readMessage 64 (writeMessage false [1; 2; 3] ++ [9; 9]) = MkReadMessage [9; 9] (Ok [1; 2; 3]) 3.
Proof. apply (message_roundtrip 64 [1; 2; 3] [9; 9]); [vm_compute; reflexivity | right; vm_compute; split; [discriminate | reflexivity]]. Defined.

(** The allocation guard has a hole: for any limit of at least 4, a length
    field below 4 passes it, and the unsigned subtraction makes the reader
    allocate all but four bytes of 4 GiB. *)
Theorem short_length_defeats_guard (maxLength : Z) (hdr rest : list Z) :
  4 <= maxLength < 2 ^ 32 -> bytes_ok hdr -> zlen hdr = 4 -> be_val hdr < 4 ->
  rm_alloc (readMessage maxLength (hdr ++ rest)) = 2 ^ 32 - 4 + be_val hdr /\
  maxLength < rm_alloc (readMessage maxLength (hdr ++ rest)) \/ 2 ^ 32 - 4 <= maxLength.
Proof.
  intros Hmax Hb Hl Hv; pose proof (be_val_bound hdr Hb) as [H0 _].
  assert (Halloc : rm_alloc (readMessage maxLength (hdr ++ rest)) = 2 ^ 32 - 4 + be_val hdr).
  { unfold readMessage; rewrite <- Hl at 1; rewrite ReadFull_app; cbv zeta.
    unfold u32; rewrite (wrap_small 32 maxLength) by lia.
    rewrite (bool_decide_false (maxLength < be_val hdr)), andb_false_r by lia.
    assert (Hw : wrap 32 (be_val hdr - 4) = 2 ^ 32 - 4 + be_val hdr).
    { unfold wrap; symmetry; apply Z.mod_unique_pos with (-1); lia. }
    rewrite Hw; by destruct (ReadFull _ rest) as [? []]. }
  destruct (decide (2 ^ 32 - 4 <= maxLength)); [by right | left]; split; [done|]; rewrite Halloc; lia.
Qed.

Lemma short_length_defeats_guard_witness :
  rm_alloc (readMessage 9 ([0; 0; 0; 1] ++ [5; 5; 5; 5; 5])) = 4294967293.
Proof.
  destruct (short_length_defeats_guard 9 [0; 0; 0; 1] [5; 5; 5; 5; 5]) as [[H _]|H];
    [vm_compute; split; [discriminate | reflexivity] | repeat constructor; unfold is_byte; lia
    | reflexivity | vm_compute; reflexivity | exact H | vm_compute in H; destruct (H eq_refl)].
Defined.

(** Received packets reach everyone who asked for their type, in the order
    they asked, and no one else: registering a channel for some types adds it
    last to each of them and to no other; pings are answered with their own
    payload and pong acknowledgements are kept from the receivers. *)
Theorem packets_dispatched_to_registered (chans : recv_chans) (types : list Z) (ch : nat) (pkt : Packet) :
  NoDup types ->
  dispatch (Receive chans types ch) pkt =
  if decide (pkt_Type pkt = PacketTypePing) then SendPong (pkt_Payload pkt)
  else if decide (pkt_Type pkt = PacketTypePongAck) then NotePongAck
  else Deliver (default [] (chans !! pkt_Type pkt) ++
                (if decide (pkt_Type pkt ∈ types) then [ch] else [])) pkt.
Proof.
  intros Hnd; unfold dispatch; do 2 (case_decide; [done|]); f_equal.
  generalize (pkt_Type pkt) as t; intros t; clear -Hnd; unfold Receive.
  revert chans; induction Hnd as [|x types Hx _ IH]; intros chans; simpl; [by rewrite app_nil_r|].
  rewrite IH; destruct (decide (t = x)) as [->|Hne].
  - rewrite lookup_insert_eq, (decide_False (P := x ∈ types)), (decide_True (P := x ∈ x :: types)) by (done || left).
    by rewrite app_nil_r.
  - rewrite lookup_insert_ne by done; f_equal; repeat case_decide; set_solver.
Qed.

Lemma packets_dispatched_to_registered_witness :
  dispatch (Receive (Receive ∅ [0x0d; 0x0e] 1) [0x0d; 0x1b] 2) (MkPacket 0x0d [7]) = Deliver [1%nat; 2%nat] (MkPacket 0x0d [7]).
Proof.
  rewrite (packets_dispatched_to_registered _ [0x0d; 0x1b] 2 (MkPacket 0x0d [7]));
    [reflexivity | apply (bool_decide_unpack _); vm_compute; exact I].
Defined.
