(* ===== verification/Mercury.v ===== *)
(** * Mercury requests over the accesspoint ([src/mercury/client.go])

    The framing of requests and responses, their matching by sequence number,
    and the splitting of payloads into parts, with the packet size limit of the
    connection they are sent over. *)

From S2P Require Import Prelude Conn.
#[local] Open Scope list_scope.
#[local] Open Scope Z_scope.

(** ** Reading a packet with ignored errors

    [_ = binary.Read(resp, BigEndian, &x)] of [n] bytes: a short read leaves
    [x] zero and consumes what there is. *)
Definition take_uint (n : Z) (p : list Z) : Z * list Z :=
  (if decide (n <= zlen p) then be_val (takeZ n p) else 0, dropZ n p).

(** [part := make([]byte, n); _, _ = resp.Read(part)]: a short read leaves zeros. *)
Definition take_part (n : Z) (p : list Z) : list Z * list Z :=
  (takeZ n p ++ replicate (Z.to_nat (n - zlen p)) 0, dropZ n p).

Fixpoint take_parts (count : nat) (p : list Z) : list (list Z) :=
  match count with
  | O => []
  | S count =>
    let '(len, p) := take_uint 2 p in
    let '(part, p) := take_part len p in
    part :: take_parts count p
  end.

(** ** Requests and responses *)
Record hermesRequest := MkHermes { hr_id : nat; hr_header : list Z; hr_parts : list (list Z) }.

(** The status code of an unmarshalled header, when it has one. *)
Inductive hermesResponse :=
| HermesOk (header : list Z) (parts : list (list Z))
| HermesErr (e : error).

Record mercury := MkMercury { m_seq : Z; m_reqs : gmap Z hermesRequest }.

Definition init_mercury : mercury := MkMercury 0 ∅.

Definition encode_part (part : list Z) : list Z := be_bytes 2 (u16 (zlen part)) ++ part.

(** The packet of a request; [hr_header] is the marshalled header. *)
Definition request_packet (req : hermesRequest) (seq : Z) : list Z :=
  be_bytes 2 8 ++ be_bytes 8 seq ++ [1] ++ be_bytes 2 (u16 (1 + zlen (hr_parts req))) ++
  encode_part (hr_header req) ++ concat (encode_part <$> hr_parts req).

(** [unmarshal] tells whether the header part unmarshals. *)
Section loop.
Context (unmarshal : list Z -> option error).

Definition recv_response (m : mercury) (isReq : bool) (payload : list Z)
  : mercury * list (nat * hermesResponse) :=
  if negb isReq then (m, [])
  else
    let '(seqLen, p) := take_uint 2 payload in
    if decide (seqLen = 8 \/ seqLen = 4 \/ seqLen = 2) then
      let '(respSeq, p) := take_uint seqLen p in
      let '(flags, p) := take_uint 1 p in
      if decide (flags = 1) then
        let '(partsCount, p) := take_uint 2 p in
        match m_reqs m !! respSeq with
        | None => (m, [])
        | Some req =>
          let m := MkMercury (m_seq m) (delete respSeq (m_reqs m)) in
          match take_parts (Z.to_nat partsCount) p with
          | [] => (m, [(hr_id req, HermesErr (EMsg "received empty mercury response"))])
          | header :: parts =>
            match unmarshal header with
            | Some e => (m, [(hr_id req, HermesErr (EWrap "failed unmarshaling mercury header" e))])
            | None => (m, [(hr_id req, HermesOk header parts)])
            end
          end
        end
      else (m, [])
    else (m, []).

(** A request taken by the loop; [marshal] is the error of marshalling its
    header, if any, and [send] what [ap.Send] returned. *)
Definition recv_hermes (m : mercury) (req : hermesRequest) (marshal send : option error)
  : mercury * option (list Z) * list (nat * hermesResponse) :=
  let reqSeq := m_seq m in
  let m := MkMercury (u64 (reqSeq + 1)) (m_reqs m) in
  match marshal with
  | Some e => (m, None, [(hr_id req, HermesErr (EWrap "failed marshaling mercury header" e))])
  | None =>
    let m := MkMercury (m_seq m) (<[reqSeq := req]> (m_reqs m)) in
    match send with
    | Some e => (MkMercury (m_seq m) (delete reqSeq (m_reqs m)), Some (request_packet req reqSeq),
                 [(hr_id req, HermesErr (EWrap "failed sending mercury request" e))])
    | None => (m, Some (request_packet req reqSeq), [])
    end
  end.

(** The loop over the packets and requests it takes, in their order. *)
Inductive mercury_event :=
| MPacket (isReq : bool) (payload : list Z)
| MRequest (req : hermesRequest) (marshal send : option error).

Definition mercury_step (m : mercury) (ev : mercury_event) : mercury * list (nat * hermesResponse) :=
  match ev with
  | MPacket isReq payload => recv_response m isReq payload
  | MRequest req marshal send => let '(m, _, out) := recv_hermes m req marshal send in (m, out)
  end.

Fixpoint mercury_loop (m : mercury) (evs : list mercury_event) : mercury * list (nat * hermesResponse) :=
  match evs with
  | [] => (m, [])
  | ev :: evs => let '(m, out) := mercury_step m ev in
                 let '(m, out') := mercury_loop m evs in (m, out ++ out')
  end.
End loop.

(** The parts a payload is split into: [for i := 0; i < len; i += 0xffff]. *)
Fixpoint split_loop (fuel : nat) (payload : list Z) : run (list (list Z)) :=
  match payload with
  | [] => Ret []
  | _ => match fuel with
         | O => OutOfFuel
         | S fuel => parts ← split_loop fuel (dropZ 0xffff payload);
                     Ret (takeZ 0xffff payload :: parts)
         end
  end.

Definition split_payload (payload : list Z) : run (list (list Z)) := split_loop (length payload) payload.

(** What [Request] makes of a response: [status] is the header's status code. *)
Definition request_result (status : list Z -> option Z) (resp : hermesResponse) : run (result (list Z)) :=
  match resp with
  | HermesErr e => Ret (Err e)
  | HermesOk header parts =>
    match status header with
    | None => Panic "nil pointer dereference"
    | Some code => if decide (code = 200) then Ret (Ok (concat parts))
                   else Ret (Err (EMsg "mercury request failed with status code"))
    end
  end.

(** ** Framing lemmas *)
Lemma take_uint_be n z rest :
  0 <= n -> 0 <= z < 2 ^ (n * 8) -> take_uint n (be_bytes n z ++ rest) = (z, rest).
Proof.
  intros Hn Hz; unfold take_uint; pose proof (zlen_be_bytes n z Hn) as Hl.
  rewrite decide_True by (rewrite zlen_app; pose proof (zlen_nonneg rest); lia).
  rewrite takeZ_app_le, takeZ_all, dropZ_app_le, dropZ_all by lia.
  by rewrite be_val_be_bytes, Z.mod_small by lia.
Qed.

Lemma take_part_app part rest : take_part (zlen part) (part ++ rest) = (part, rest).
Proof.
  unfold take_part; pose proof (zlen_nonneg rest); rewrite zlen_app.
  rewrite takeZ_app_le, takeZ_all, dropZ_app_le, dropZ_all by lia.
  replace (Z.to_nat _) with 0%nat by lia; by rewrite app_nil_r.
Qed.

Definition part_ok (part : list Z) : Prop := zlen part < 2 ^ 16.

Lemma take_parts_encode parts rest :
  Forall part_ok parts ->
  take_parts (length parts) (concat (encode_part <$> parts) ++ rest) = parts.
Proof.
  induction 1 as [|p parts Hp _ IH]; [done|]; unfold part_ok in Hp; cbn [length take_parts].
  rewrite fmap_cons; cbn [concat]; unfold encode_part at 1; rewrite <- !app_assoc.
  pose proof (zlen_nonneg p); unfold u16; rewrite wrap_small by lia.
  rewrite take_uint_be by lia; rewrite take_part_app; by rewrite IH.
Qed.

Lemma split_loop_spec fuel payload :
  (length payload <= fuel)%nat ->
  exists parts, split_loop fuel payload = Ret parts /\ concat parts = payload /\ Forall part_ok parts /\
    Forall (fun p => p <> []) parts.
Proof.
  revert payload; induction fuel as [|fuel IH]; intros [|x payload] Hf; cbn [length] in Hf; try lia.
  1,2: exists []; repeat split; constructor.
  cbn [split_loop]; set (p := x :: payload) in *.
  destruct (IH (dropZ 0xffff p)) as (parts & -> & Hc & Hok & Hne).
  { unfold dropZ; rewrite length_drop; unfold p; cbn [length]; lia. }
  eexists; split; [reflexivity|]; split_and!.
  - cbn [concat]; rewrite Hc; apply takeZ_dropZ.
  - constructor; [|done]; unfold part_ok; rewrite zlen_takeZ; lia.
  - constructor; [|done]; intros Hnil; apply (f_equal zlen) in Hnil; rewrite zlen_takeZ in Hnil.
    change (zlen (@nil Z)) with 0 in Hnil.
    unfold p in Hnil; rewrite zlen_cons in Hnil; pose proof (zlen_nonneg payload); lia.
Qed.

Lemma zlen_concat_encode parts : zlen (concat parts) <= zlen (concat (encode_part <$> parts)).
Proof.
  induction parts as [|p parts IH]; [done|]; rewrite fmap_cons; cbn [concat]; unfold encode_part at 1; zlen.
Qed.

(** ** Accounting for requests *)
Definition waiting (m : mercury) : list nat := hr_id ∘ snd <$> map_to_list (m_reqs m).

Definition submitted (evs : list mercury_event) : list nat :=
  omap (fun ev => match ev with MRequest req _ _ => Some (hr_id req) | MPacket _ _ => None end) evs.

Definition seq_fresh (m : mercury) : Prop := 0 <= m_seq m /\ forall k, is_Some (m_reqs m !! k) -> k < m_seq m.

Lemma waiting_insert (m : mercury) s k req :
  m_reqs m !! k = None -> waiting (MkMercury s (<[k := req]> (m_reqs m))) ≡ₚ hr_id req :: waiting m.
Proof. intros Hk; unfold waiting; cbn [m_reqs]; by rewrite map_to_list_insert, fmap_cons by done. Qed.

Lemma waiting_delete (m : mercury) k req :
  m_reqs m !! k = Some req ->
  hr_id req :: waiting (MkMercury (m_seq m) (delete k (m_reqs m))) ≡ₚ waiting m.
Proof. intros Hk; unfold waiting; cbn [m_reqs]; by rewrite <- (map_to_list_delete _ _ _ Hk), fmap_cons. Qed.

Lemma recv_response_accounts unmarshal m isReq payload m' out :
  seq_fresh m -> recv_response unmarshal m isReq payload = (m', out) ->
  seq_fresh m' /\ m_seq m' = m_seq m /\ out.*1 ++ waiting m' ≡ₚ waiting m.
Proof.
  intros [Hs Hk]; unfold recv_response, take_uint; cbn beta iota zeta.
  assert (forall k req r m1, m_reqs m !! k = Some req ->
    m1 = MkMercury (m_seq m) (delete k (m_reqs m)) ->
    seq_fresh m1 /\ m_seq m1 = m_seq m /\ [(hr_id req, r) : nat * hermesResponse].*1 ++ waiting m1 ≡ₚ waiting m) as Hdel.
  { intros k req r m1 Hlook ->; split_and!; [split; [done|] | done | by apply waiting_delete].
    intros k'; cbn [m_reqs]; rewrite lookup_delete_is_Some; intros [_ ?]; cbn [m_seq]; auto. }
  intros Hrun; repeat case_match; simplify_eq; first [by eapply Hdel | by split].
Qed.

Lemma recv_hermes_accounts m req marshal send m' packet out :
  seq_fresh m -> m_seq m + 1 < 2 ^ 64 -> recv_hermes m req marshal send = (m', packet, out) ->
  seq_fresh m' /\ m_seq m' = m_seq m + 1 /\ out.*1 ++ waiting m' ≡ₚ hr_id req :: waiting m.
Proof.
  intros [Hs Hk] Hb; unfold recv_hermes; cbn beta iota zeta; cbn [m_seq m_reqs].
  assert (m_reqs m !! m_seq m = None) as Hnew.
  { apply eq_None_not_Some; intros Hsome; apply Hk in Hsome; lia. }
  assert (u64 (m_seq m + 1) = m_seq m + 1) as -> by (unfold u64; apply wrap_small; lia).
  rewrite delete_insert_id by done.
  destruct marshal; [|destruct send]; intros [= <- <- <-]; unfold seq_fresh; cbn [m_seq m_reqs];
    split_and!; try lia; try done.
  1,2: intros k Hsome; apply Hk in Hsome; lia.
  - intros k; rewrite lookup_insert_is_Some; intros [<-|[_ Hsome%Hk]]; lia.
  - by apply waiting_insert.
Qed.

Lemma mercury_loop_accounts unmarshal evs m m' out :
  seq_fresh m -> m_seq m + zlen evs < 2 ^ 64 -> mercury_loop unmarshal m evs = (m', out) ->
  seq_fresh m' /\ m_seq m' = m_seq m + zlen (submitted evs) /\
  out.*1 ++ waiting m' ≡ₚ submitted evs ++ waiting m.
Proof.
  revert m out; induction evs as [|ev evs IH]; intros m out Hf Hb; cbn [mercury_loop].
  { intros [= <- <-]; split_and!; [done | unfold zlen; cbn; lia | done]. }
  rewrite zlen_cons in Hb; pose proof (zlen_nonneg evs).
  destruct (mercury_step unmarshal m ev) as [m1 out1] eqn:Hstep.
  destruct (mercury_loop unmarshal m1 evs) as [m2 out2] eqn:Hloop; intros [= <- <-].
  rewrite fmap_app, <- app_assoc.
  destruct ev as [isReq payload|req marshal send]; cbn [mercury_step] in Hstep.
  - apply recv_response_accounts in Hstep as (Hf1 & Hs1 & Hp1); [|done].
    destruct (IH m1 out2 Hf1) as (Hf2 & Hs2 & Hp2); [lia|done|].
    cbn [submitted omap list_omap]; split_and!; [done | unfold submitted in Hs2; cbn in *; lia |].
    rewrite Hp2; rewrite <- Hp1; rewrite !app_assoc; by rewrite (Permutation_app_comm out1.*1).
  - destruct (recv_hermes m req marshal send) as [[m1' packet] o1] eqn:Hreq; injection Hstep as -> ->.
    apply recv_hermes_accounts in Hreq as (Hf1 & Hs1 & Hp1); [|done|lia].
    destruct (IH m1 out2 Hf1) as (Hf2 & Hs2 & Hp2); [lia|done|].
    change (submitted (MRequest req marshal send :: evs)) with (hr_id req :: submitted evs).
    rewrite zlen_cons; split_and!; [done | lia |].
    rewrite Hp2; rewrite !app_assoc, (Permutation_app_comm out1.*1), <- app_assoc, Hp1.
    by rewrite <- Permutation_middle.
Qed.

Definition demo_hermes : hermesRequest := MkHermes 3 [1; 1] [[7; 8]; [9]].

(** A Mercury answer reaches the request that asked.  A request is filed
    under the sequence number its packet carries; whatever was filed or
    answered meanwhile, a complete answer framed like a request, with that
    sequence number, delivers exactly its header and parts to that request
    alone and frees its entry. *)
Theorem mercury_answer_delivered (unmarshal : list Z -> option error) (m m' m'' : mercury)
    (req answer : hermesRequest) (packet : list Z) :
  0 <= m_seq m < 2 ^ 64 -> recv_hermes m req None None = (m', Some packet, []) ->
  m_reqs m'' !! m_seq m = Some req ->
  part_ok (hr_header answer) -> Forall part_ok (hr_parts answer) -> 1 + zlen (hr_parts answer) < 2 ^ 16 ->
  unmarshal (hr_header answer) = None ->
  m_reqs m' !! m_seq m = Some req /\ packet = request_packet req (m_seq m) /\
  recv_response unmarshal m'' true (request_packet answer (m_seq m)) =
    (MkMercury (m_seq m'') (delete (m_seq m) (m_reqs m'')), [(hr_id req, HermesOk (hr_header answer) (hr_parts answer))]).
Proof.
  intros Hs Hreq Hq Hh Hp Hc Hu; injection Hreq as <- <-.
  split; [apply lookup_insert_eq|]; split; [done|].
  pose proof (zlen_nonneg (hr_parts answer)).
  unfold recv_response, request_packet; cbn [negb].
  rewrite take_uint_be by lia; rewrite decide_True by lia; rewrite take_uint_be by lia.
  change [1] with (be_bytes 1 1); rewrite take_uint_be by lia; rewrite decide_True by lia.
  unfold u16 at 1; rewrite (wrap_small 16) by lia; rewrite take_uint_be by lia; rewrite Hq.
  replace (Z.to_nat (1 + zlen (hr_parts answer))) with (length (hr_header answer :: hr_parts answer))
    by (cbn [length]; unfold zlen; lia).
  rewrite <- (app_nil_r (concat (encode_part <$> hr_parts answer))), app_assoc.
  change (encode_part (hr_header answer) ++ concat (encode_part <$> hr_parts answer)) with
    (concat (encode_part <$> (hr_header answer :: hr_parts answer))).
  rewrite take_parts_encode by (by constructor); by rewrite Hu.
Qed.

Lemma mercury_answer_delivered_witness :
  let m' := (recv_hermes init_mercury demo_hermes None None).1.1 in
  recv_response (fun _ => None) m' true (request_packet (MkHermes 0 [5] [[6]]) 0) =
    (MkMercury 1 (delete 0 (m_reqs m')), [(3%nat, HermesOk [5] [[6]])]).
Proof.
  cbv zeta.
  apply (mercury_answer_delivered (fun _ => None) init_mercury (recv_hermes init_mercury demo_hermes None None).1.1
    (recv_hermes init_mercury demo_hermes None None).1.1 demo_hermes (MkHermes 0 [5] [[6]])
    (request_packet demo_hermes 0));
    [vm_compute; split; [discriminate | reflexivity] | reflexivity | reflexivity
    | vm_compute; reflexivity | repeat constructor; vm_compute; reflexivity
    | vm_compute; reflexivity | reflexivity].
Defined.

(** Every Mercury request is answered at most once and none is lost: after
    any interleaving of packets, well or badly framed, and requests, some of
    which fail to marshal or to send, the requests answered and the ones still
    waiting are together exactly the requests taken, and the sequence numbers
    were handed out one after the other. *)
Theorem mercury_requests_accounted (unmarshal : list Z -> option error) (evs : list mercury_event)
    (m : mercury) (out : list (nat * hermesResponse)) :
  zlen evs < 2 ^ 64 -> mercury_loop unmarshal init_mercury evs = (m, out) ->
  out.*1 ++ waiting m ≡ₚ submitted evs /\ m_seq m = zlen (submitted evs) /\
  (forall seq, is_Some (m_reqs m !! seq) -> seq < m_seq m).
Proof.
  intros Hb Hrun; destruct (mercury_loop_accounts unmarshal evs init_mercury m out) as ([_ Hk] & Hs & Hp).
  - split; [done|]; intros k [req Hl]; unfold init_mercury in Hl; cbn [m_reqs] in Hl; by rewrite lookup_empty in Hl.
  - by cbn [init_mercury m_seq].
  - done.
  - split_and!; [|exact Hs|exact Hk].
    rewrite Hp; unfold waiting at 1; cbn [init_mercury m_reqs]; by rewrite map_to_list_empty, app_nil_r.
Qed.

Definition demo_history : list mercury_event :=
  [MRequest demo_hermes None None; MPacket true [0; 8];
   MRequest (MkHermes 4 [] []) None (Some net_ErrClosed);
   MPacket true (request_packet (MkHermes 0 [5] [[6]]) 0); MRequest (MkHermes 5 [] []) None None].

Lemma mercury_requests_accounted_witness :
  let '(m, out) := mercury_loop (fun _ => None) init_mercury demo_history in
  out.*1 ++ waiting m ≡ₚ submitted demo_history /\ out.*1 = [4%nat; 3%nat].
Proof.
  split; [|reflexivity].
  apply (mercury_requests_accounted (fun _ => None) demo_history
    (mercury_loop (fun _ => None) init_mercury demo_history).1); [vm_compute; reflexivity | reflexivity].
Defined.

(** Splitting a payload loses nothing: it terminates, the parts are
    nonempty, each fits the 16-bit length it is framed with, and together they
    are the payload; an answer of those parts with status 200 gives it back. *)
Theorem payload_split_roundtrip (status : list Z -> option Z) (header payload : list Z) :
  status header = Some 200 ->
  exists parts, split_payload payload = Ret parts /\ concat parts = payload /\
    Forall part_ok parts /\ Forall (fun p => p <> []) parts /\
    request_result status (HermesOk header parts) = Ret (Ok payload).
Proof.
  intros Hst; destruct (split_loop_spec (length payload) payload) as (parts & Hrun & Hc & Hok & Hne); [done|].
  exists parts; split_and!; auto; unfold request_result; by rewrite Hst, decide_True, Hc.
Qed.

Lemma payload_split_roundtrip_witness :
  exists parts, split_payload [1; 2; 3] = Ret parts /\ concat parts = [1; 2; 3] /\
    Forall part_ok parts /\ Forall (fun p => p <> []) parts /\
    request_result (fun _ => Some 200) (HermesOk [] parts) = Ret (Ok [1; 2; 3]).
Proof. apply (payload_split_roundtrip (fun _ => Some 200) [] [1; 2; 3]); reflexivity. Defined.

(** A payload long enough to be split cannot be sent: the parts all go in
    one packet, so for any payload of 65535 bytes or more the packet exceeds
    what the connection accepts and the request is refused. *)
Theorem split_payload_never_sent {C} `{Shannon C} (s : sender C) (id : nat) (header payload : list Z) (seq : Z)
    (parts : list (list Z)) :
  65535 <= zlen payload -> split_payload payload = Ret parts ->
  sendPacket s 0xb2 (request_packet (MkHermes id header parts) seq) = (s, Err (EMsg "payload too big")).
Proof.
  intros Hl Hsplit; unfold sendPacket; rewrite decide_True; [done|].
  destruct (split_loop_spec (length payload) payload) as (parts' & Hrun & Hc & _); [done|].
  unfold split_payload in Hsplit; rewrite Hrun in Hsplit; injection Hsplit as ->.
  pose proof (zlen_concat_encode parts) as Hle; rewrite Hc in Hle.
  unfold request_packet; cbn [hr_header hr_parts]; rewrite !zlen_app, !zlen_be_bytes by lia.
  pose proof (zlen_nonneg (encode_part header)); pose proof (zlen_nonneg [1]); lia.
Qed.

Lemma split_payload_never_sent_witness :
  exists parts, split_payload (replicate (Z.to_nat 65535) 0) = Ret parts /\
    sendPacket (newSender (C := toy) [1]) 0xb2 (request_packet (MkHermes 0 [] parts) 0) =
      (newSender [1], Err (EMsg "payload too big")).
Proof.
  destruct (split_loop_spec (length (replicate (Z.to_nat 65535) 0)) (replicate (Z.to_nat 65535) 0))
    as (parts & Hsplit & _); [apply le_n|].
  exists parts; split; [exact Hsplit|].
  apply (split_payload_never_sent (newSender [1]) 0 [] (replicate (Z.to_nat 65535) 0) 0 parts);
    [apply Z.leb_le; vm_compute; reflexivity | exact Hsplit].
Defined.

(** An answer without a status code crashes the caller. *)
Theorem missing_status_panics (status : list Z -> option Z) (header : list Z) (parts : list (list Z)) :
  status header = None -> exists why, request_result status (HermesOk header parts) = Panic why.
Proof. intros Hs; unfold request_result; rewrite Hs; eauto. Qed.

Lemma missing_status_panics_witness :
  exists why, request_result (fun _ => None) (HermesOk [] []) = Panic why.
Proof. apply (missing_status_panics (fun _ => None) [] []); reflexivity. Defined.
