(* ===== verification/Dealer.v ===== *)
(** * Dealer ([src/dealer/dealer.go], [src/dealer/recv.go])

    The websocket remote commands arrive on: its connection and its watchdog,
    the loop that reads frames, and the dispatcher that hands them to the
    receivers registered for them and answers requests.  The goroutines
    interleave at their channel operations: a schedule is a list of [label]s
    and [dealer_step] says what each does, [None] when it cannot happen. *)

From Stdlib Require Import Ascii String.
From stdpp Require Import gmap.
From S2P Require Import Prelude Ids.
#[local] Open Scope string_scope.
#[local] Open Scope list_scope.
#[local] Open Scope Z_scope.

(** ** Frames *)
Inductive payload := PayloadString (s : string) | PayloadBytes (b : list Z) | PayloadOther.

(** [RawMessage], less the method nothing reads. *)
Record RawMessage := MkRaw {
  rm_Type : string;
  rm_Uri : string;
  rm_Headers : gmap string string;
  rm_MessageIdent : string;
  rm_Key : string;
  rm_Payloads : list payload;
  rm_Compressed : list Z
}.

Record Message := MkMessage { msg_Uri : string; msg_Headers : gmap string string; msg_Payload : list Z }.

(** ** [base64.StdEncoding.DecodeString] *)
Definition base64_digit (c : ascii) : option Z :=
  let n := Z.of_N (N_of_ascii c) in
  if decide (65 <= n <= 90) then Some (n - 65)
  else if decide (97 <= n <= 122) then Some (n - 71)
  else if decide (48 <= n <= 57) then Some (n + 4)
  else if decide (n = 43) then Some 62
  else if decide (n = 47) then Some 63
  else None.

Definition is_pad (c : ascii) : bool := bool_decide (c = "="%char).

Fixpoint base64_quanta (s : list ascii) : option (list Z) :=
  match s with
  | [] => Some []
  | a :: b :: c :: d :: rest =>
    match base64_digit a, base64_digit b, base64_digit c, base64_digit d with
    | Some x, Some y, Some z, Some w =>
      bs ← base64_quanta rest;
      Some (x * 4 + y / 16 :: y `mod` 16 * 16 + z / 4 :: z `mod` 4 * 64 + w :: bs)
    | Some x, Some y, Some z, None =>
      if is_pad d && bool_decide (rest = []) then Some [x * 4 + y / 16; y `mod` 16 * 16 + z / 4] else None
    | Some x, Some y, None, None =>
      if is_pad c && is_pad d && bool_decide (rest = []) then Some [x * 4 + y / 16] else None
    | _, _, _, _ => None
    end
  | _ => None
  end.

(** Line breaks are skipped wherever they are. *)
Definition base64_decode (s : string) : result (list Z) :=
  let chars := filter (fun c => c <> "010"%char /\ c <> "013"%char) (list_ascii_of_string s) in
  match base64_quanta chars with
  | Some bs => Ok bs
  | None => Err (EMsg "illegal base64 data")
  end.

(** ** Receivers: the prefixes or the identifier, and the channel *)
Record Receivers := MkReceivers {
  r_messages : list (list string * nat);
  r_requests : gmap string nat
}.

Definition matches (uri : string) (recv : list string * nat) : bool := existsb (fun p => has_prefix p uri) recv.1.

Definition matchedReceivers (R : Receivers) (uri : string) : list nat :=
  (fun recv => recv.2) <$> filter (fun recv => matches uri recv = true) (r_messages R).

Section dealer.
Context {P : Type}.
Context (gunzip : list Z -> result (list Z)) (unmarshal : list Z -> result P).

Record Request := MkRequest { rq_MessageIdent : string; rq_Payload : P }.

Definition handleTransferEncoding (headers : gmap string string) (data : list Z)
  : result (list Z * gmap string string) :=
  match headers !! "Transfer-Encoding" with
  | Some enc =>
    if decide (enc = "gzip") then
      match gunzip data with
      | Ok data => Ok (data, delete "Transfer-Encoding" headers)
      | Err e => Err e
      end
    else Err (EMsg "unsupported transfer encoding")
  | None => Ok (data, headers)
  end.

(** The payload of a message; [None] when it is dropped with a log line. *)
Definition message_payload (rm : RawMessage) : option (list Z * gmap string string) :=
  match rm_Payloads rm with
  | [] => Some ([], rm_Headers rm)
  | p :: _ =>
    let decoded := match p with
                   | PayloadString s => match base64_decode s with Ok b => Some b | Err _ => None end
                   | PayloadBytes b => Some b
                   | PayloadOther => None
                   end in
    match decoded with
    | Some b => match handleTransferEncoding (rm_Headers rm) b with Ok r => Some r | Err _ => None end
    | None => None
    end
  end.

(** What [handleMessage] sends, and to which channels, in order. *)
Definition handleMessage (R : Receivers) (rm : RawMessage) : run (list (nat * Message)) :=
  if decide (1 < length (rm_Payloads rm))%nat then Panic "unsupported number of payloads"
  else
    let recvs := matchedReceivers R (rm_Uri rm) in
    if decide (recvs = []) then Ret []
    else
      match message_payload rm with
      | Some (b, headers) => Ret ((fun c => (c, MkMessage (rm_Uri rm) headers b)) <$> recvs)
      | None => Ret []
      end.

(** The request [handleRequest] hands over, and its channel. *)
Definition handleRequest (R : Receivers) (rm : RawMessage) : option (nat * Request) :=
  match r_requests R !! rm_MessageIdent rm with
  | None => None
  | Some c =>
    match handleTransferEncoding (rm_Headers rm) (rm_Compressed rm) with
    | Err _ => None
    | Ok (b, _) =>
      match unmarshal b with
      | Ok p => Some (c, MkRequest (rm_MessageIdent rm) p)
      | Err _ => None
      end
    end
  end.

(** ** State *)
Definition second : Z := 1000000000.
Definition pingInterval : Z := 30 * second.
Definition timeout : Z := 10 * second.
Definition dispatchSize : nat := 8.
Definition ErrDealerClosed : error := ESentinel "dealer closed".

(** Where [recvLoop] is: not started, at the top of the loop, reading, handing
    a frame over, out of the loop, reconnecting, about to close the receivers,
    stopped. *)
Inductive recv_pc :=
| RecvIdle | RecvTop | RecvReading | RecvHanding (rm : RawMessage) | RecvLeft | RecvReconnecting | RecvClosing
| RecvStopped.

(** Where [dispatchLoop] is: not started, waiting for a frame, sending a
    message to its receivers, sending a request, waiting for its reply,
    stopped. *)
Inductive disp_pc :=
| DispIdle
| DispWaiting
| DispSending (ds : list (nat * Message))
| DispRequesting (c : nat) (rq : Request) (key : string)
| DispAwaiting (key : string)
| DispStopped.

(** What leaves the dealer: a message or a request taken by its receiver, and
    a reply sent, with what writing it returned. *)
Inductive dealer_event :=
| EvDeliver (c : nat) (m : Message)
| EvAsk (c : nat) (rq : Request)
| EvReply (key : string) (success : bool) (err : option error).

(** The current websocket, how many were dialed and which were closed. *)
Record Conns := MkConns { k_conn : option nat; k_dialed : nat; k_closed : gset nat }.

Record Dealer := MkDealer {
  d_done : bool;
  d_conns : Conns;
  d_lastPong : Z;
  d_receivers : Receivers;
  d_chans : nat;
  d_closedChans : gset nat;
  d_queue : list RawMessage;
  d_recv : recv_pc;
  d_disp : disp_pc;
  d_trace : list dealer_event
}.

Implicit Types d : Dealer.

Definition NewDealer : Dealer :=
  MkDealer false (MkConns None 0 ∅) 0 (MkReceivers [] ∅) 0 ∅ [] RecvIdle DispIdle [].

Definition set_done d : Dealer :=
  MkDealer true (d_conns d) (d_lastPong d) (d_receivers d) (d_chans d) (d_closedChans d) (d_queue d) (d_recv d)
    (d_disp d) (d_trace d).
Definition set_conns (k : Conns) d : Dealer :=
  MkDealer (d_done d) k (d_lastPong d) (d_receivers d) (d_chans d) (d_closedChans d) (d_queue d) (d_recv d)
    (d_disp d) (d_trace d).
Definition set_lastPong (t : Z) d : Dealer :=
  MkDealer (d_done d) (d_conns d) t (d_receivers d) (d_chans d) (d_closedChans d) (d_queue d) (d_recv d)
    (d_disp d) (d_trace d).
Definition set_queue (q : list RawMessage) d : Dealer :=
  MkDealer (d_done d) (d_conns d) (d_lastPong d) (d_receivers d) (d_chans d) (d_closedChans d) q (d_recv d)
    (d_disp d) (d_trace d).
Definition set_recv (pc : recv_pc) d : Dealer :=
  MkDealer (d_done d) (d_conns d) (d_lastPong d) (d_receivers d) (d_chans d) (d_closedChans d) (d_queue d) pc
    (d_disp d) (d_trace d).
Definition set_disp (pc : disp_pc) d : Dealer :=
  MkDealer (d_done d) (d_conns d) (d_lastPong d) (d_receivers d) (d_chans d) (d_closedChans d) (d_queue d)
    (d_recv d) pc (d_trace d).
Definition set_closedChans (cs : gset nat) d : Dealer :=
  MkDealer (d_done d) (d_conns d) (d_lastPong d) (d_receivers d) (d_chans d) cs (d_queue d) (d_recv d) (d_disp d)
    (d_trace d).
Definition emit (ev : dealer_event) d : Dealer :=
  MkDealer (d_done d) (d_conns d) (d_lastPong d) (d_receivers d) (d_chans d) (d_closedChans d) (d_queue d)
    (d_recv d) (d_disp d) (d_trace d ++ [ev]).

(** ** Connections *)
Definition close_conn (k : Conns) : Conns :=
  match k_conn k with
  | Some c => MkConns (k_conn k) (k_dialed k) ({[c]} ∪ k_closed k)
  | None => k
  end.

Definition closeConn d : Dealer := set_conns (close_conn (d_conns d)) d.

(** The new websocket replaces the old one, which is closed. *)
Definition connect d : Dealer :=
  let k := close_conn (d_conns d) in
  set_conns (MkConns (Some (k_dialed k)) (S (k_dialed k)) (k_closed k)) d.

Definition conn_open d : bool :=
  match k_conn (d_conns d) with Some c => bool_decide (c ∉ k_closed (d_conns d)) | None => false end.

(** A websocket that has been closed still counts as opened. *)
Definition Connect (dial : option error) d : Dealer * option error :=
  if d_done d then (d, Some ErrDealerClosed)
  else
    match k_conn (d_conns d), dial with
    | Some _, _ => (d, None)
    | None, Some e => (d, Some e)
    | None, None => (connect d, None)
    end.

Definition Close d : Dealer := if d_done d then d else closeConn (set_done d).

Definition writeConn (write : option error) d : option error :=
  if d_done d then Some ErrDealerClosed
  else
    match k_conn (d_conns d) with
    | None => Some (EMsg "dealer connection not established")
    | Some _ => write
    end.

Definition resetPongDeadline (now : Z) d : Dealer := set_lastPong (now + pingInterval) d.

(** ** Registration *)
Definition startReceiving (now : Z) d : Dealer :=
  match d_recv d with
  | RecvIdle => set_recv RecvTop (set_disp DispWaiting (resetPongDeadline now d))
  | _ => d
  end.

Definition new_chan (R : Receivers) (closed : bool) d : Dealer :=
  MkDealer (d_done d) (d_conns d) (d_lastPong d) R (S (d_chans d))
    (if closed then {[d_chans d]} ∪ d_closedChans d else d_closedChans d) (d_queue d) (d_recv d) (d_disp d)
    (d_trace d).

Definition ReceiveMessage (now : Z) (uriPrefixes : list string) d : run (Dealer * nat) :=
  if decide (uriPrefixes = []) then Panic "uri prefixes list cannot be empty"
  else if d_done d then Ret (new_chan (d_receivers d) true d, d_chans d)
  else
    let R := MkReceivers (r_messages (d_receivers d) ++ [(uriPrefixes, d_chans d)]) (r_requests (d_receivers d)) in
    Ret (startReceiving now (new_chan R false d), d_chans d).

Definition ReceiveRequest (now : Z) (uri : string) d : run (Dealer * nat) :=
  if d_done d then Ret (new_chan (d_receivers d) true d, d_chans d)
  else
    match r_requests (d_receivers d) !! uri with
    | Some _ => Panic "cannot have more request receivers"
    | None =>
      let R := MkReceivers (r_messages (d_receivers d)) (<[uri := d_chans d]> (r_requests (d_receivers d))) in
      Ret (startReceiving now (new_chan R false d), d_chans d)
    end.

(** ** The goroutines *)
Inductive read_result := ReadErr | ReadBinary | ReadMalformed | ReadFrame (rm : RawMessage).

(** One read of [recvLoop]. *)
Definition recv_read (now : Z) (r : read_result) d : Dealer :=
  match r with
  | ReadErr | ReadMalformed => set_recv RecvLeft d
  | ReadBinary => set_recv RecvTop d
  | ReadFrame rm =>
    if decide (rm_Type rm = "message" \/ rm_Type rm = "request") then set_recv (RecvHanding rm) d
    else if decide (rm_Type rm = "pong") then set_recv RecvTop (set_lastPong now d)
    else set_recv RecvTop d
  end.

Definition all_chans (R : Receivers) : list nat := (map_to_list (r_requests R)).*2 ++ (r_messages R).*2.

(** [close(recv.c)] for every receiver. *)
Fixpoint close_chans (cs : list nat) (closed : gset nat) : run (gset nat) :=
  match cs with
  | [] => Ret closed
  | c :: cs => if decide (c ∈ closed) then Panic "close of closed channel" else close_chans cs ({[c]} ∪ closed)
  end.

(** The dispatcher with a frame in hand. *)
Definition dispatch_frame (rm : RawMessage) d : run Dealer :=
  if decide (rm_Type rm = "message") then
    ds ← handleMessage (d_receivers d) rm;
    Ret (set_disp (match ds with [] => DispWaiting | _ => DispSending ds end) d)
  else if decide (rm_Type rm = "request") then
    Ret (set_disp (match handleRequest (d_receivers d) rm with
                   | Some (c, rq) => DispRequesting c rq (rm_Key rm)
                   | None => DispWaiting
                   end) d)
  else Ret (set_disp DispWaiting d).

(** A send the receiver is ready for. *)
Definition send_chan (c : nat) (ev : dealer_event) (pc : disp_pc) d : run Dealer :=
  if decide (c ∈ d_closedChans d) then Panic "send on closed channel" else Ret (set_disp pc (emit ev d)).

(** [pingTicker]: one tick. *)
Definition ping_tick (now : Z) (write : option error) d : Dealer :=
  if decide (pingInterval + timeout < now - d_lastPong d) then closeConn d
  else
    match writeConn write d with
    | Some _ => closeConn d
    | None => d
    end.

Inductive label :=
| LConnect (dial : option error)
| LClose
| LReceiveMessage (now : Z) (uriPrefixes : list string)
| LReceiveRequest (now : Z) (uri : string)
| LTick (now : Z) (write : option error)
| LTop
| LRead (now : Z) (r : read_result)
| LHand
| LHandDone
| LLeave
| LReconnect (now : Z) (err : option error)
| LCloseReceivers
| LTake
| LStop
| LDeliver
| LDeliverDone
| LReply (success : bool) (write : option error)
| LReplyDone.

(** A [select] with several cases ready may take any of them: a label with
    [Done] in its name is the [<-d.done] case of the [select] there. *)
Definition dealer_step (l : label) d : run (option Dealer) :=
  match l with
  | LConnect dial => Ret (Some (Connect dial d).1)
  | LClose => Ret (Some (Close d))
  | LReceiveMessage now ps => r ← ReceiveMessage now ps d; Ret (Some r.1)
  | LReceiveRequest now uri => r ← ReceiveRequest now uri d; Ret (Some r.1)
  | LTick now write =>
    match d_recv d with
    | RecvIdle => Ret None
    | _ => if d_done d then Ret None else Ret (Some (ping_tick now write d))
    end
  | LTop =>
    match d_recv d with
    | RecvTop => Ret (Some (set_recv (if d_done d then RecvLeft else RecvReading) d))
    | _ => Ret None
    end
  | LRead now r =>
    match d_recv d with
    | RecvReading =>
      match r with
      | ReadErr => Ret (Some (recv_read now r d))
      | _ => if conn_open d then Ret (Some (recv_read now r d)) else Ret None
      end
    | _ => Ret None
    end
  | LHand =>
    match d_recv d with
    | RecvHanding rm =>
      if decide (length (d_queue d) < dispatchSize)%nat
      then Ret (Some (set_recv RecvTop (set_queue (d_queue d ++ [rm]) d))) else Ret None
    | _ => Ret None
    end
  | LHandDone =>
    match d_recv d with
    | RecvHanding _ => if d_done d then Ret (Some (set_recv RecvLeft d)) else Ret None
    | _ => Ret None
    end
  | LLeave =>
    match d_recv d with
    | RecvLeft =>
      let d := closeConn d in
      Ret (Some (set_recv (if d_done d then RecvClosing else RecvReconnecting) d))
    | _ => Ret None
    end
  | LReconnect now err =>
    match d_recv d, err with
    | RecvReconnecting, Some _ => Ret (Some (set_recv RecvClosing (Close d)))
    | RecvReconnecting, None => Ret (Some (set_recv RecvTop (resetPongDeadline now (connect d))))
    | _, _ => Ret None
    end
  | LCloseReceivers =>
    match d_recv d with
    | RecvClosing =>
      cs ← close_chans (all_chans (d_receivers d)) (d_closedChans d);
      Ret (Some (set_recv RecvStopped (set_closedChans cs d)))
    | _ => Ret None
    end
  | LTake =>
    match d_disp d, d_queue d with
    | DispWaiting, rm :: q => d' ← dispatch_frame rm (set_queue q d); Ret (Some d')
    | _, _ => Ret None
    end
  | LStop =>
    match d_disp d with
    | DispWaiting => if d_done d then Ret (Some (set_disp DispStopped d)) else Ret None
    | _ => Ret None
    end
  | LDeliver =>
    match d_disp d with
    | DispSending ((c, m) :: ds) =>
      d' ← send_chan c (EvDeliver c m) (match ds with [] => DispWaiting | _ => DispSending ds end) d; Ret (Some d')
    | DispRequesting c rq key => d' ← send_chan c (EvAsk c rq) (DispAwaiting key) d; Ret (Some d')
    | _ => Ret None
    end
  | LDeliverDone =>
    match d_disp d with
    | DispSending _ | DispRequesting _ _ _ => if d_done d then Ret (Some (set_disp DispWaiting d)) else Ret None
    | _ => Ret None
    end
  | LReply success write =>
    match d_disp d with
    | DispAwaiting key => Ret (Some (set_disp DispWaiting (emit (EvReply key success (writeConn write d)) d)))
    | _ => Ret None
    end
  | LReplyDone =>
    match d_disp d with
    | DispAwaiting _ => if d_done d then Ret (Some (set_disp DispWaiting d)) else Ret None
    | _ => Ret None
    end
  end.

Fixpoint dealer_run (ls : list label) d : run (option Dealer) :=
  match ls with
  | [] => Ret (Some d)
  | l :: ls =>
    r ← dealer_step l d;
    match r with
    | Some d' => dealer_run ls d'
    | None => Ret None
    end
  end.
End dealer.
Arguments Request P : clear implicits.
Arguments Dealer P : clear implicits.
Arguments disp_pc P : clear implicits.
Arguments dealer_event P : clear implicits.
