(* ===== verification/DealerClaims.v ===== *)
(** * Dealer: theorems

    Until it is closed the dealer serves its frames one at a time in the order
    they arrived, answering each request once with its receiver's answer; it
    does not panic before its receivers are closed; and its watchdog closes a
    connection that stopped answering.  After a close it may panic. *)

From Stdlib Require Import String.
From stdpp Require Import gmap.
From S2P Require Import Prelude Ids Dealer.
#[local] Open Scope string_scope.
#[local] Open Scope list_scope.
#[local] Open Scope Z_scope.

Section order.
Context {P : Type}.
Context (gunzip : list Z -> result (list Z)) (unmarshal : list Z -> result P).
Implicit Types (d : Dealer P) (rm : RawMessage) (evs : list (dealer_event P)).

(** ** Serving frames one at a time *)

(** What serving one frame in full does. *)
Inductive handles (R : Receivers) rm : list (dealer_event P) -> Prop :=
| handles_message ds : rm_Type rm = "message" -> handleMessage gunzip R rm = Ret ds ->
    handles R rm ((fun x => EvDeliver x.1 x.2) <$> ds)
| handles_ignored : rm_Type rm = "request" -> handleRequest gunzip unmarshal R rm = None -> handles R rm []
| handles_request c rq b err : rm_Type rm = "request" -> handleRequest gunzip unmarshal R rm = Some (c, rq) ->
    handles R rm [EvAsk c rq; EvReply (rm_Key rm) b err].

Definition serves (R : Receivers) (fs : list RawMessage) evs : Prop :=
  exists evss, Forall2 (handles R) fs evss /\ evs = concat evss.

(** What is left to do of the frame in hand. *)
Inductive owed : disp_pc P -> list (dealer_event P) -> Prop :=
| owed_waiting : owed DispWaiting []
| owed_sending ds : owed (DispSending ds) ((fun x => EvDeliver x.1 x.2) <$> ds)
| owed_requesting c rq key b err : owed (DispRequesting c rq key) [EvAsk c rq; EvReply key b err]
| owed_awaiting key b err : owed (DispAwaiting key) [EvReply key b err].

Lemma owed_ex pc : pc <> DispIdle -> pc <> DispStopped -> exists rest, owed pc rest.
Proof.
  destruct pc as [| |ds|c rq key|key|]; intros H1 H2; try done; eexists;
    [apply owed_waiting|apply owed_sending|apply (owed_requesting c rq key true None)|apply (owed_awaiting key true None)].
Qed.

(** The frames read and not yet taken by the dispatcher. *)
Definition held d : list RawMessage :=
  d_queue d ++ match d_recv d with RecvHanding rm => [rm] | _ => [] end.

Definition dispatched rm : bool := bool_decide (rm_Type rm = "message" \/ rm_Type rm = "request").

Definition read_by (l : label) : list RawMessage :=
  match l with
  | LRead _ (ReadFrame rm) => if dispatched rm then [rm] else []
  | _ => []
  end.

Definition frames_read (ls : list label) : list RawMessage := concat (read_by <$> ls).

Definition registers (l : label) : bool :=
  match l with LReceiveMessage _ _ | LReceiveRequest _ _ => true | _ => false end.

Lemma serves_app R fs1 fs2 evs1 evs2 : serves R fs1 evs1 -> serves R fs2 evs2 -> serves R (fs1 ++ fs2) (evs1 ++ evs2).
Proof.
  intros (e1 & H1 & ->) (e2 & H2 & ->); exists (e1 ++ e2); split; [by apply Forall2_app|by rewrite concat_app].
Qed.

Lemma serves_one R rm evs : handles R rm evs -> serves R [rm] evs.
Proof. intros Hh; exists [evs]; split; [by repeat constructor|]; simpl; by rewrite app_nil_r. Qed.

Record in_order (R : Receivers) (fs : list RawMessage) d : Prop := {
  io_receivers : d_receivers d = R;
  io_frames : Forall (fun rm => dispatched rm = true) (held d);
  io_served : d_done d = false -> exists taken, fs = taken ++ held d /\
    (exists rest, owed (d_disp d) rest) /\ forall rest, owed (d_disp d) rest -> serves R taken (d_trace d ++ rest)
}.

(** Steps that touch neither the queue nor the dispatcher. *)
Lemma in_order_same R fs fs' d d' :
  in_order R fs d -> d_receivers d' = d_receivers d -> (d_done d' = false -> d_done d = false) ->
  Forall (fun rm => dispatched rm = true) (held d') ->
  (d_done d' = false -> exists more, held d' = held d ++ more /\ fs' = fs ++ more) ->
  d_disp d' = d_disp d -> d_trace d' = d_trace d -> in_order R fs' d'.
Proof.
  intros [HR _ Hs] HR' Hd Hf Hq Hp Ht; split; [congruence|done|]; intros Hx.
  destruct (Hs (Hd Hx)) as (taken & -> & He & Hserve); destruct (Hq Hx) as (more & -> & ->).
  exists taken; rewrite Hp, Ht; split_and!; [by rewrite app_assoc|done|done].
Qed.

(** The dispatcher takes a frame. *)
Lemma in_order_take R fs d rm q d' :
  in_order R fs d -> d_disp d = DispWaiting -> d_queue d = rm :: q ->
  dispatch_frame gunzip unmarshal rm (set_queue q d) = Ret d' -> in_order R fs d'.
Proof.
  intros [<- Hall Hs] Hw Hq; set (R := d_receivers d) in *; assert (Hh : held d = rm :: held (set_queue q d)) by (unfold held; by rewrite Hq).
  rewrite Hh in Hall; apply Forall_cons in Hall as [Hrm Hall]; unfold dispatch_frame; simpl.
  assert (Hgo : forall pc, (exists rest, owed pc rest) -> (forall rest, owed pc rest -> handles R rm rest) ->
    in_order R fs (set_disp pc (set_queue q d))).
  { intros pc Hex Hall'; split; [done|done|]; intros Hf; destruct (Hs Hf) as (taken & -> & _ & Hserve).
    rewrite Hw in Hserve; specialize (Hserve [] owed_waiting); rewrite app_nil_r in Hserve.
    exists (taken ++ [rm]); split_and!; [by rewrite Hh, <- app_assoc|done|].
    simpl; intros rest Ho; apply serves_app; [done|by apply serves_one, Hall']. }
  case_decide as Hm.
  - intros Hr; run_inv Hr; injection Hr as <-.
    assert (Hd : handles R rm ((fun x => EvDeliver x.1 x.2) <$> a)) by by apply handles_message.
    apply Hgo; destruct a; try (by apply owed_ex);
      intros rest Ho; inversion Ho; subst; exact Hd.
  - case_decide as Hreq; [|unfold dispatched in Hrm; apply bool_decide_eq_true in Hrm; tauto].
    intros [= <-]; fold R; destruct (handleRequest gunzip unmarshal R rm) as [[c rq]|] eqn:Hx; apply Hgo;
      try (by apply owed_ex); try (intros rest Ho; inversion Ho; subst; by constructor).
Qed.

(** Something leaves the dispatcher. *)
Lemma in_order_emit R fs d ev pc :
  in_order R fs d -> (exists rest, owed pc rest) -> (forall rest, owed pc rest -> owed (d_disp d) (ev :: rest)) ->
  in_order R fs (set_disp pc (emit ev d)).
Proof.
  intros [HR Hall Hs] Hex Ho; split; [done|done|]; intros Hf; destruct (Hs Hf) as (taken & -> & _ & Hserve).
  exists taken; split_and!; [done|done|]; simpl; intros rest Hr; rewrite <- app_assoc; apply Hserve; by apply Ho.
Qed.

Lemma in_order_read R fs d now r : in_order R fs d -> d_recv d = RecvReading ->
  in_order R (fs ++ read_by (LRead now r)) (recv_read now r d).
Proof.
  intros Hi Hr; assert (Hh : held d = d_queue d) by (unfold held; by rewrite Hr, app_nil_r).
  pose proof (io_frames _ _ _ Hi) as Hall; rewrite Hh in Hall.
  destruct r as [| | |rm]; simpl; try (rewrite app_nil_r; eapply in_order_same; [exact Hi|done..| | |done|done];
    [unfold held; simpl; by rewrite app_nil_r|intros _; exists []; unfold held; simpl; by rewrite Hr, !app_nil_r]).
  unfold dispatched; case_decide as Ht; [rewrite bool_decide_true by done|rewrite bool_decide_false by done].
  - eapply in_order_same; [exact Hi|done..| | |done|done].
    + unfold held; simpl; apply Forall_app; split; [done|]; repeat constructor; unfold dispatched; by rewrite bool_decide_true.
    + intros _; exists [rm]; rewrite Hh; done.
  - rewrite app_nil_r; case_decide; (eapply in_order_same; [exact Hi|done..| | |done|done];
      [unfold held; simpl; by rewrite app_nil_r|intros _; exists []; unfold held; simpl; by rewrite Hr, !app_nil_r]).
Qed.

(** A step of the reading loop that leaves what is held as it is. *)
Lemma in_order_recv R fs d d' :
  in_order R fs d -> d_receivers d' = d_receivers d -> (d_done d' = false -> d_done d = false) ->
  held d' = held d -> d_disp d' = d_disp d -> d_trace d' = d_trace d -> in_order R fs d'.
Proof.
  intros Hi HR Hd Hh Hp Ht; eapply in_order_same; [exact Hi|done|done| |intros _; exists []; by rewrite !app_nil_r|done|done].
  rewrite Hh; apply (io_frames _ _ _ Hi).
Qed.

Lemma in_order_step R fs l d d' : in_order R fs d -> registers l = false ->
  dealer_step gunzip unmarshal l d = Ret (Some d') -> in_order R (fs ++ read_by l) d'.
Proof.
  intros Hi Hl Hs; destruct l as [dial| | | |now w| |now r| | | |now err| | | | | |b w|]; try done; simpl in Hs;
    try (rewrite app_nil_r).
  - injection Hs as <-; unfold Connect; repeat case_match; by apply in_order_recv with (d := d).
  - injection Hs as <-; unfold Close; case_match; [done|]; by apply in_order_recv with (d := d).
  - assert (in_order R fs (ping_tick now w d)).
    { unfold ping_tick; repeat (case_decide || case_match); by apply in_order_recv with (d := d). }
    repeat case_match; congruence.
  - destruct (d_recv d) eqn:Hr; simplify_eq; apply in_order_recv with (d := d); try done.
    unfold held; simpl; rewrite Hr; by destruct (d_done d).
  - destruct (d_recv d) eqn:Hr; try done.
    assert (Hi' := in_order_read R fs d now r Hi Hr).
    destruct r; [|destruct (conn_open d); [|done]..]; injection Hs as <-; exact Hi'.
  - destruct (d_recv d) eqn:Hr; try done; case_decide; simplify_eq; apply in_order_recv with (d := d); try done.
    unfold held; simpl; by rewrite Hr, app_nil_r.
  - destruct (d_recv d) eqn:Hr; try done; destruct (d_done d) eqn:Hd; simplify_eq.
    destruct Hi as [HR Hall Hs]; split; [done| |simpl; congruence].
    unfold held in *; simpl; rewrite Hr in Hall; apply Forall_app in Hall as [Hall _]; by rewrite app_nil_r.
  - destruct (d_recv d) eqn:Hr; simplify_eq; apply in_order_recv with (d := d); try done.
    unfold held; simpl; rewrite Hr; by destruct (d_done d).
  - destruct (d_recv d) eqn:Hr; try done; destruct err; simplify_eq; unfold Close;
      try destruct (d_done d) eqn:Hd; apply in_order_recv with (d := d); try done;
      unfold held; simpl; by rewrite Hr.
  - destruct (d_recv d) eqn:Hr; try done; run_inv Hs; simplify_eq; apply in_order_recv with (d := d); try done.
    unfold held; simpl; by rewrite Hr.
  - destruct (d_disp d) eqn:Hw; try done; destruct (d_queue d) as [|rm q] eqn:Hq; [done|].
    run_inv Hs; simplify_eq; by eapply in_order_take.
  - destruct (d_disp d) eqn:Hw; try done; destruct (d_done d) eqn:Hd; simplify_eq.
    destruct Hi as [HR Hall Hs]; split; [done|done|simpl; congruence].
  - destruct (d_disp d) as [| |[|[c m] ds]|c rq key|key|] eqn:Hw; try done; run_inv Hs; unfold send_chan in *;
      case_decide; simplify_eq; apply in_order_emit; try done; rewrite ?Hw.
    + destruct ds; by apply owed_ex.
    + intros rest Ho; destruct ds as [|x ds]; inversion Ho; subst;
        [exact (owed_sending [(c, m)])|exact (owed_sending ((c, m) :: x :: ds))].
    + by apply owed_ex.
    + intros rest Ho; inversion Ho; subst; constructor.
  - destruct (d_disp d) eqn:Hw; try done; destruct (d_done d) eqn:Hd; simplify_eq;
      destruct Hi as [HR Hall Hs]; split; done || (simpl; congruence).
  - destruct (d_disp d) eqn:Hw; try done; simplify_eq; apply in_order_emit; [done|by apply owed_ex|].
    intros rest Ho; inversion Ho; subst; rewrite Hw; constructor.
  - destruct (d_disp d) eqn:Hw; try done; destruct (d_done d) eqn:Hd; simplify_eq.
    destruct Hi as [HR Hall Hs]; split; [done|done|simpl; congruence].
Qed.

Lemma in_order_run R ls : forall fs d d', in_order R fs d -> forallb (fun l => negb (registers l)) ls = true ->
  dealer_run gunzip unmarshal ls d = Ret (Some d') -> in_order R (fs ++ frames_read ls) d'.
Proof.
  induction ls as [|l ls IH]; simpl; intros fs d d' Hi Hl Hr.
  { simplify_eq; unfold frames_read; simpl; by rewrite app_nil_r. }
  apply andb_prop in Hl as [Hl Hls]; run_inv Hr; destruct a as [d1|]; [|done].
  unfold frames_read; simpl; rewrite app_assoc; apply (IH _ d1); [|done|done].
  eapply in_order_step; [done|by destruct (registers l)|done].
Qed.
End order.

(** ** No panics before the receivers are closed *)
Section safety.
Context {P : Type}.
Context (gunzip : list Z -> result (list Z)) (unmarshal : list Z -> result P).
Implicit Types (d : Dealer P) (rm : RawMessage).

(** Frames carry one payload at most and receivers name a prefix. *)
Definition proper (l : label) : Prop :=
  match l with
  | LRead _ (ReadFrame rm) => (length (rm_Payloads rm) <= 1)%nat
  | LReceiveMessage _ ps => ps <> []
  | _ => True
  end.

Definition asked (l : label) : list string := match l with LReceiveRequest _ uri => [uri] | _ => [] end.

(** The channels the dispatcher is about to send on. *)
Definition targets (pc : disp_pc P) : list nat :=
  match pc with DispSending ds => ds.*1 | DispRequesting c _ _ => [c] | _ => [] end.

Record sound d : Prop := {
  so_nodup : NoDup (all_chans (d_receivers d));
  so_fresh c : c ∈ all_chans (d_receivers d) \/ c ∈ d_closedChans d -> (c < d_chans d)%nat;
  so_open c : d_recv d <> RecvStopped -> c ∈ all_chans (d_receivers d) -> c ∉ d_closedChans d;
  so_done : d_recv d = RecvClosing \/ d_recv d = RecvStopped -> d_done d = true;
  so_frames : Forall (fun rm => (length (rm_Payloads rm) <= 1)%nat) (held d);
  so_targets c : c ∈ targets (d_disp d) -> c ∈ all_chans (d_receivers d)
}.

Lemma matchedReceivers_chans R uri c : c ∈ matchedReceivers R uri -> c ∈ all_chans R.
Proof.
  unfold matchedReceivers, all_chans; rewrite list_elem_of_fmap; intros (x & -> & Hx).
  apply list_elem_of_filter in Hx as [_ Hx]; apply elem_of_app; right; by apply list_elem_of_fmap_2.
Qed.

Lemma request_chans R uri c : r_requests R !! uri = Some c -> c ∈ all_chans R.
Proof.
  intros Hc; unfold all_chans; apply elem_of_app; left; apply list_elem_of_fmap; exists (uri, c); split; [done|].
  by apply elem_of_map_to_list.
Qed.

Lemma close_chans_ok cs : forall closed, NoDup cs -> (forall c, c ∈ cs -> c ∉ closed) ->
  close_chans cs closed = Ret (list_to_set cs ∪ closed).
Proof.
  induction cs as [|c cs IH]; intros closed Hnd Hc; simpl; [by rewrite union_empty_l_L|].
  apply NoDup_cons in Hnd as [Hn Hnd]; rewrite decide_False by (apply Hc; set_solver).
  rewrite IH; [f_equal; set_solver|done|set_solver].
Qed.

(** Steps that touch neither receivers nor channels. *)
Lemma sound_same d d' : sound d -> d_receivers d' = d_receivers d -> d_chans d' = d_chans d ->
  d_closedChans d' = d_closedChans d -> (d_recv d' = RecvStopped <-> d_recv d = RecvStopped) ->
  (d_recv d' = RecvClosing \/ d_recv d' = RecvStopped -> d_done d' = true) ->
  (forall rm, rm ∈ held d' -> rm ∈ held d \/ (length (rm_Payloads rm) <= 1)%nat) ->
  (forall c, c ∈ targets (d_disp d') -> c ∈ targets (d_disp d) \/ c ∈ all_chans (d_receivers d)) -> sound d'.
Proof.
  intros [Hn Hf Ho Hd Hfr Ht] HR Hch Hcl Hst Hdone Hheld Htg.
  split; rewrite ?HR, ?Hch, ?Hcl; try done.
  - intros c Hs; apply Ho; by rewrite <- Hst.
  - apply Forall_forall; intros rm Hrm; destruct (Hheld rm Hrm); [|done]; by eapply Forall_forall in Hfr.
  - intros c Hc; destruct (Htg c Hc); auto.
Qed.

Lemma sound_new_closed d : sound d -> d_done d = true -> sound (new_chan (d_receivers d) true d).
Proof.
  intros [Hn Hf Ho Hd Hfr Ht] Hdone; split; simpl; try done.
  - intros c Hc; enough (c = d_chans d \/ (c < d_chans d)%nat) by lia.
    destruct Hc as [Hc|Hc]; [right; auto|]; apply elem_of_union in Hc as [Hc|Hc]; [left; set_solver|right; auto].
  - intros c Hs Hc; specialize (Hf c (or_introl Hc)); specialize (Ho c Hs Hc); set_unfold; lia || naive_solver lia.
Qed.

Lemma sound_new_open R d : sound d -> d_done d = false ->
  all_chans R ≡ₚ d_chans d :: all_chans (d_receivers d) -> sound (new_chan R false d).
Proof.
  intros [Hn Hf Ho Hd Hfr Ht] Hdone HR.
  assert (Hnew : d_chans d ∉ all_chans (d_receivers d)) by (intros Hc; specialize (Hf _ (or_introl Hc)); lia).
  assert (Hnew' : d_chans d ∉ d_closedChans d) by (intros Hc; specialize (Hf _ (or_intror Hc)); lia).
  split; simpl; try done.
  - rewrite HR; by constructor.
  - intros c; rewrite HR, elem_of_cons; intros [[-> | Hc]|Hc]; [lia|specialize (Hf c); lia || naive_solver lia..].
  - intros c Hs; rewrite HR, elem_of_cons; intros [-> | Hc]; auto.
  - intros c Hc; rewrite HR; apply elem_of_cons; auto.
Qed.

Lemma sound_start now d : sound d -> sound (startReceiving now d).
Proof.
  intros Hs; unfold startReceiving; destruct (d_recv d) eqn:Hr; try done.
  eapply sound_same; [exact Hs|done..| | | |]; simpl; rewrite ?Hr; try naive_solver.
  - intros rm Hrm; left; revert Hrm; unfold held; simpl; by rewrite Hr.
  - intros c Hc; by apply elem_of_nil in Hc.
Qed.

(** A step that returns, keeps the state sound and registers what it asked. *)
Definition safe_step (l : label) d (r : run (option (Dealer P))) : Prop :=
  exists o, r = Ret o /\ forall d', o = Some d' -> sound d' /\
    forall uri, uri ∉ asked l -> r_requests (d_receivers d) !! uri = None -> r_requests (d_receivers d') !! uri = None.

Lemma safe_none l d : safe_step l d (Ret None).
Proof. by exists None. Qed.

Lemma safe_same l d d' : sound d -> d_receivers d' = d_receivers d -> d_chans d' = d_chans d ->
  d_closedChans d' = d_closedChans d -> (d_recv d' = RecvStopped <-> d_recv d = RecvStopped) ->
  (d_recv d' = RecvClosing \/ d_recv d' = RecvStopped -> d_done d' = true) ->
  (forall rm, rm ∈ held d' -> rm ∈ held d \/ (length (rm_Payloads rm) <= 1)%nat) ->
  (forall c, c ∈ targets (d_disp d') -> c ∈ targets (d_disp d) \/ c ∈ all_chans (d_receivers d)) ->
  safe_step l d (Ret (Some d')).
Proof.
  intros Hs HR; intros; exists (Some d'); split; [done|]; intros ? [= <-]; split; [by eapply sound_same|by rewrite HR].
Qed.

(** Only the connection, the watchdog and the flag change. *)
Lemma safe_quiet l d d' : sound d -> d_receivers d' = d_receivers d -> d_chans d' = d_chans d ->
  d_closedChans d' = d_closedChans d -> d_recv d' = d_recv d -> (d_done d = true -> d_done d' = true) ->
  d_queue d' = d_queue d -> d_disp d' = d_disp d -> safe_step l d (Ret (Some d')).
Proof.
  intros Hs HR Hc Hcl Hr Hd Hq Hp; apply safe_same; try done; rewrite ?Hr, ?Hp; try done.
  - intros Hx; by apply Hd, (so_done d Hs).
  - intros rm; unfold held; rewrite Hq, Hr; auto.
  - auto.
Qed.

(** The reading loop moves on. *)
Lemma safe_recv l d d' : sound d -> d_receivers d' = d_receivers d -> d_chans d' = d_chans d ->
  d_closedChans d' = d_closedChans d -> d_recv d <> RecvStopped -> d_recv d' <> RecvStopped ->
  (d_recv d' = RecvClosing -> d_done d' = true) ->
  (forall rm, rm ∈ held d' -> rm ∈ held d \/ (length (rm_Payloads rm) <= 1)%nat) -> d_disp d' = d_disp d ->
  safe_step l d (Ret (Some d')).
Proof. intros Hs HR Hc Hcl Hr Hr' Hd Hh Hp; apply safe_same; try done; rewrite ?Hp; [naive_solver..|auto]. Qed.

(** The dispatcher moves on. *)
Lemma safe_disp l d pc evs q : sound d -> (forall rm, rm ∈ q -> rm ∈ d_queue d) ->
  (forall c, c ∈ targets pc -> c ∈ targets (d_disp d) \/ c ∈ all_chans (d_receivers d)) ->
  safe_step l d (Ret (Some (MkDealer (d_done d) (d_conns d) (d_lastPong d) (d_receivers d) (d_chans d)
    (d_closedChans d) q (d_recv d) pc evs))).
Proof.
  intros Hs Hq Hp; apply safe_same; try done; [apply (so_done d Hs)|].
  intros rm; unfold held; simpl; rewrite !elem_of_app; intros [Hx|Hx]; auto.
Qed.

Lemma safe_registered now uri ps R d l : sound d -> d_done d = false ->
  l = LReceiveMessage now ps \/ l = LReceiveRequest now uri ->
  all_chans R ≡ₚ d_chans d :: all_chans (d_receivers d) ->
  (forall u, u ∉ asked l -> r_requests (d_receivers d) !! u = None -> r_requests R !! u = None) ->
  safe_step l d (Ret (Some (startReceiving now (new_chan R false d)))).
Proof.
  intros Hs Hd Hl HR Hu; eexists; split; [done|]; intros ? [= <-]; split.
  - by apply sound_start, sound_new_open.
  - unfold startReceiving; simpl; by destruct (d_recv d).
Qed.

Lemma handleMessage_ok R rm : (length (rm_Payloads rm) <= 1)%nat ->
  exists ds, handleMessage gunzip R rm = Ret ds /\ forall c, c ∈ ds.*1 -> c ∈ all_chans R.
Proof.
  intros Hl; unfold handleMessage; rewrite decide_False by lia; case_decide; [exists []; set_solver|].
  destruct (message_payload gunzip rm) as [[b headers]|]; [|exists []; set_solver].
  eexists; split; [done|]; intros c; rewrite <- list_fmap_compose; unfold compose; simpl; rewrite list_fmap_id.
  apply matchedReceivers_chans.
Qed.

Lemma handleRequest_ok R rm c rq : handleRequest gunzip unmarshal R rm = Some (c, rq) -> c ∈ all_chans R.
Proof.
  unfold handleRequest; destruct (r_requests R !! rm_MessageIdent rm) eqn:Hc; [|done].
  apply request_chans in Hc; intros; repeat case_match; simplify_eq; done.
Qed.

Lemma safe_take l d rm q : sound d -> d_queue d = rm :: q ->
  safe_step l d (d' ← dispatch_frame gunzip unmarshal rm (set_queue q d); Ret (Some d')).
Proof.
  intros Hs Hq; assert (Hq' : forall x, x ∈ q -> x ∈ d_queue d) by (rewrite Hq; set_solver).
  assert (Hl : (length (rm_Payloads rm) <= 1)%nat).
  { pose proof (so_frames d Hs) as Hf; rewrite Forall_forall in Hf; apply Hf; unfold held; rewrite Hq; set_solver. }
  unfold dispatch_frame; case_decide; [|case_decide]; simpl.
  - destruct (handleMessage_ok (d_receivers d) rm Hl) as (ds & -> & Hds); simpl.
    apply (safe_disp l d _ _ q); [done|done|]; destruct ds; simpl; [set_solver|auto].
  - apply (safe_disp l d _ _ q); [done|done|]; destruct (handleRequest _ _ _ _) as [[c rq]|] eqn:Hr; simpl; [|set_solver].
    apply handleRequest_ok in Hr; set_solver.
  - apply (safe_disp l d _ _ q); [done|done|set_solver].
Qed.

Lemma safe_send l d c ev pc : sound d -> d_recv d <> RecvStopped -> c ∈ targets (d_disp d) ->
  (forall x, x ∈ targets pc -> x ∈ targets (d_disp d)) ->
  safe_step l d (d' ← send_chan c ev pc d; Ret (Some d')).
Proof.
  intros Hs Hr Hc Hp; unfold send_chan.
  rewrite decide_False by (apply (so_open d Hs); [done|by apply (so_targets d Hs)]); simpl.
  apply (safe_disp l d _ _ (d_queue d)); [done|done|auto].
Qed.

Lemma all_chans_message R ps c : all_chans (MkReceivers (r_messages R ++ [(ps, c)]) (r_requests R)) ≡ₚ c :: all_chans R.
Proof.
  unfold all_chans; simpl; rewrite fmap_app, app_assoc; simpl; by rewrite Permutation_app_comm.
Qed.

Lemma all_chans_request R uri c : r_requests R !! uri = None ->
  all_chans (MkReceivers (r_messages R) (<[uri := c]> (r_requests R))) ≡ₚ c :: all_chans R.
Proof. intros Hn; unfold all_chans; simpl; by rewrite map_to_list_insert. Qed.

Lemma safe_receive_message now ps d : sound d -> ps <> [] ->
  safe_step (LReceiveMessage now ps) d (r ← ReceiveMessage now ps d; Ret (Some r.1)).
Proof.
  intros Hs Hp; unfold ReceiveMessage; rewrite decide_False by done; destruct (d_done d) eqn:Hd; simpl.
  - eexists; split; [done|]; intros ? [= <-]; split; [by apply sound_new_closed|done].
  - eapply (safe_registered now ""); [done|done|by left|apply all_chans_message|done].
Qed.

Lemma safe_receive_request now uri d : sound d -> r_requests (d_receivers d) !! uri = None ->
  safe_step (LReceiveRequest now uri) d (r ← ReceiveRequest now uri d; Ret (Some r.1)).
Proof.
  intros Hs Hn; unfold ReceiveRequest; destruct (d_done d) eqn:Hd; simpl; [|rewrite Hn; simpl].
  - eexists; split; [done|]; intros ? [= <-]; split; [by apply sound_new_closed|done].
  - eapply (safe_registered now uri []); [done|done|by right|by apply all_chans_request|].
    intros u Hu; simpl; rewrite lookup_insert_ne; [done|set_solver].
Qed.

Lemma safe_close_receivers d : sound d -> d_recv d = RecvClosing ->
  safe_step LCloseReceivers d
    (cs ← close_chans (all_chans (d_receivers d)) (d_closedChans d);
     Ret (Some (set_recv RecvStopped (set_closedChans cs d)))).
Proof.
  intros Hs Hr; rewrite close_chans_ok; [simpl|apply (so_nodup d Hs)|intros c; apply (so_open d Hs); congruence].
  eexists; split; [done|]; intros ? [= <-]; split; [|done].
  destruct Hs as [Hn Hf Ho Hd Hfr Ht]; split; simpl; try done.
  - intros c Hc; apply Hf; set_unfold; tauto.
  - intros _; apply Hd; auto.
  - unfold held in *; simpl; by rewrite Hr in Hfr.
Qed.

Lemma held_recv d d' : d_queue d' = d_queue d -> (forall rm, d_recv d' <> RecvHanding rm) ->
  forall rm, rm ∈ held d' -> rm ∈ held d \/ (length (rm_Payloads rm) <= 1)%nat.
Proof.
  intros Hq Hr rm Hrm; left; revert Hrm; unfold held; rewrite Hq, !elem_of_app; intros [Hx|Hx]; [auto|].
  destruct (d_recv d'); try (by apply elem_of_nil in Hx); by destruct (Hr rm0).
Qed.

Lemma safe_read now r d : sound d -> d_recv d = RecvReading -> proper (LRead now r) ->
  safe_step (LRead now r) d (Ret (Some (recv_read now r d))).
Proof.
  intros Hs Hr Hp; destruct r as [| | |rm]; simpl in *; repeat case_decide; apply safe_recv; simpl; try done;
    try congruence; try (by apply held_recv).
  intros x; unfold held; simpl; rewrite Hr, app_nil_r, elem_of_app, list_elem_of_singleton; naive_solver.
Qed.

Lemma safe_hand d rm : sound d -> d_recv d = RecvHanding rm ->
  safe_step LHand d (Ret (Some (set_recv RecvTop (set_queue (d_queue d ++ [rm]) d)))).
Proof.
  intros Hs Hr; apply safe_recv; simpl; try done; [congruence|].
  intros x; unfold held; simpl; rewrite Hr, app_nil_r; auto.
Qed.

Lemma sound_step l d : sound d -> d_recv d <> RecvStopped -> proper l ->
  Forall (fun uri => r_requests (d_receivers d) !! uri = None) (asked l) ->
  safe_step l d (dealer_step gunzip unmarshal l d).
Proof.
  intros Hs Hst Hp Ha.
  destruct l as [dial| |now ps|now uri|now w| |now r| | | |now err| | | | | |b w|]; simpl.
  - unfold Connect; repeat case_match; by apply safe_quiet.
  - unfold Close; case_match; by apply safe_quiet.
  - by apply safe_receive_message.
  - apply safe_receive_request; [done|]; by apply Forall_cons in Ha as [Ha _].
  - assert (safe_step (LTick now w) d (Ret (Some (ping_tick now w d)))).
    { unfold ping_tick; repeat (case_decide || case_match); by apply safe_quiet. }
    destruct (d_recv d), (d_done d); auto using safe_none.
  - destruct (d_recv d) eqn:Hr; try apply safe_none; apply safe_recv; simpl; try congruence; try done;
      [by case_match..|apply held_recv; [done|]; intros; simpl; by case_match].
  - destruct (d_recv d) eqn:Hr; try apply safe_none; pose proof (safe_read now r d Hs Hr Hp) as Hx.
    destruct r; [done|destruct (conn_open d); auto using safe_none..].
  - destruct (d_recv d) eqn:Hr; try apply safe_none; case_decide; [by apply safe_hand|apply safe_none].
  - destruct (d_recv d) eqn:Hr; try apply safe_none; destruct (d_done d); [|apply safe_none].
    apply safe_recv; simpl; try done; [congruence|by apply held_recv].
  - destruct (d_recv d) eqn:Hr; try apply safe_none; apply safe_recv; simpl; try congruence; try done;
      try (by destruct (d_done d)); apply held_recv; [done|]; intros; simpl; by destruct (d_done d).
  - destruct (d_recv d) eqn:Hr; try apply safe_none; destruct err; unfold Close; try destruct (d_done d) eqn:Hd;
      apply safe_recv; simpl; try done; try congruence; by apply held_recv.
  - destruct (d_recv d) eqn:Hr; try apply safe_none; by apply safe_close_receivers.
  - destruct (d_disp d); try apply safe_none; destruct (d_queue d) eqn:Hq; [apply safe_none|by apply safe_take].
  - destruct (d_disp d); try apply safe_none; destruct (d_done d) eqn:Hd; [|apply safe_none].
    apply (safe_disp _ d _ _ (d_queue d)); [done|done|set_solver].
  - destruct (d_disp d) as [| |[|[c m] ds]|c rq key|key|] eqn:Hw; try apply safe_none; apply safe_send; try done;
      rewrite ?Hw; simpl; try set_solver; destruct ds; simpl; set_solver.
  - destruct (d_disp d) eqn:Hw; try apply safe_none; destruct (d_done d) eqn:Hd; try apply safe_none;
      apply (safe_disp _ d _ _ (d_queue d)); done || set_solver.
  - destruct (d_disp d) eqn:Hw; try apply safe_none.
    apply (safe_disp _ d _ _ (d_queue d)); done || set_solver.
  - destruct (d_disp d) eqn:Hw; try apply safe_none; destruct (d_done d) eqn:Hd; try apply safe_none;
      apply (safe_disp _ d _ _ (d_queue d)); done || set_solver.
Qed.

Lemma sound_run ls : forall d, sound d -> Forall proper ls -> NoDup (concat (asked <$> ls)) ->
  Forall (fun uri => r_requests (d_receivers d) !! uri = None) (concat (asked <$> ls)) ->
  returns (dealer_run gunzip unmarshal ls d) \/
  exists ls1 d1, ls1 `prefix_of` ls /\ dealer_run gunzip unmarshal ls1 d = Ret (Some d1) /\
    d_done d1 = true /\ d_recv d1 = RecvStopped.
Proof.
  induction ls as [|l ls IH]; intros d Hs Hp Hn Ha; [by left; eexists|].
  assert (d_recv d = RecvStopped \/ d_recv d <> RecvStopped) as [Hr|Hr] by (destruct (d_recv d); auto).
  { right; exists [], d; split_and!; [apply prefix_nil|done|apply (so_done d Hs); auto|done]. }
  apply Forall_cons in Hp as [Hl Hp]; simpl in Hn, Ha.
  apply NoDup_app in Hn as (_ & Hdis & Hn); apply Forall_app in Ha as [Ha Ha'].
  destruct (sound_step l d Hs Hr Hl Ha) as (o & Ho & Hgo); simpl; rewrite Ho; simpl.
  destruct o as [d1|]; [|by left; eexists]; destruct (Hgo d1 eq_refl) as [Hs1 Hu].
  destruct (IH d1 Hs1 Hp Hn) as [Hx|(ls1 & d2 & Hpre & Hrun & Hd & Hst)].
  { rewrite Forall_forall in *; intros uri Hx; apply Hu; [|auto]; intros Hy; by apply (Hdis uri). }
  - by left.
  - right; exists (l :: ls1), d2; split_and!; [by apply prefix_cons|simpl; rewrite Ho; done|done|done].
Qed.

Lemma sound_new : sound NewDealer.
Proof. split; simpl; try done; try apply NoDup_nil_2; try apply Forall_nil_2; set_solver || naive_solver. Qed.
End safety.

(** ** The watchdog *)
Section watchdog.
Context {P : Type}.
Context (gunzip : list Z -> result (list Z)) (unmarshal : list Z -> result P).
Implicit Types (d : Dealer P).

(** A step that puts the deadline off. *)
Definition postpones (l : label) : bool :=
  match l with
  | LRead _ (ReadFrame rm) => bool_decide (rm_Type rm = "pong")
  | LReconnect _ None => true
  | _ => false
  end.

Lemma close_conn_closed k c : k_conn k = Some c -> c ∈ k_closed (close_conn k).
Proof. intros Hc; unfold close_conn; rewrite Hc; simpl; set_solver. Qed.

Lemma close_conn_keeps k : k_conn (close_conn k) = k_conn k /\ k_closed k ⊆ k_closed (close_conn k).
Proof. unfold close_conn; destruct (k_conn k) eqn:Hk; simpl; [split; [done|set_solver]|done]. Qed.

(** Once receiving, such a step keeps the deadline, and the websocket unless it
    replaces a closed one. *)
Record keeps (c : nat) d d' : Prop := {
  ke_started : d_recv d' <> RecvIdle;
  ke_pong : d_lastPong d' = d_lastPong d;
  ke_conn : k_conn (d_conns d) = Some c -> k_conn (d_conns d') = Some c;
  ke_closed : k_closed (d_conns d) ⊆ k_closed (d_conns d')
}.

Lemma keeps_step c l d d' : d_recv d <> RecvIdle -> postpones l = false -> k_conn (d_conns d) = Some c ->
  dealer_step gunzip unmarshal l d = Ret (Some d') -> keeps c d d'.
Proof.
  intros Hr Hl Hc Hs; destruct (close_conn_keeps (d_conns d)) as [Hk1 Hk2].
  destruct l as [dial| |now ps|now uri|now w| |now r| | | |now err| | | | | |b w|]; simpl in Hs.
  - injection Hs as <-; unfold Connect; rewrite Hc; destruct (d_done d); by split.
  - injection Hs as <-; unfold Close; destruct (d_done d); split; simpl; congruence || done.
  - run_inv Hs; simplify_eq; unfold ReceiveMessage in *; repeat case_decide; simplify_eq.
    destruct (d_done d); simplify_eq; simpl; [by split|]; unfold startReceiving; simpl; destruct (d_recv d) eqn:Hx; try done; split; simpl; try congruence; done.
  - run_inv Hs; simplify_eq; unfold ReceiveRequest in *.
    destruct (d_done d); simplify_eq; simpl; [by split|].
    case_match; simplify_eq; simpl; unfold startReceiving; simpl; destruct (d_recv d) eqn:Hx; try done; split; simpl; try congruence; done.
  - assert (keeps c d (ping_tick now w d)).
    { unfold ping_tick; repeat (case_decide || case_match); split; simpl; congruence || done. }
    destruct (d_recv d), (d_done d); simplify_eq; done.
  - destruct (d_recv d) eqn:Hx; simplify_eq; split; simpl; try done; by destruct (d_done d).
  - destruct (d_recv d) eqn:Hx; try done.
    assert (Hd : Some (recv_read now r d) = Some d') by (destruct r, (conn_open d); congruence).
    simplify_eq; destruct r as [| | |rm]; simpl in *; try (by split); repeat case_decide; try (by split).
  - destruct (d_recv d); try done; case_decide; simplify_eq; by split.
  - destruct (d_recv d); try done; destruct (d_done d); simplify_eq; by split.
  - destruct (d_recv d); try done; simplify_eq; split; simpl; try congruence; try done; by destruct (d_done d).
  - destruct (d_recv d); try done; destruct err; [|done]; simplify_eq; unfold Close; destruct (d_done d); split;
      simpl; congruence || done.
  - destruct (d_recv d); try done; run_inv Hs; simplify_eq; by split.
  - destruct (d_disp d); try done; destruct (d_queue d); [done|]; run_inv Hs; simplify_eq.
    unfold dispatch_frame in *; repeat case_decide; try run_inv Hrun; simplify_eq; by split.
  - destruct (d_disp d); try done; destruct (d_done d); simplify_eq; by split.
  - destruct (d_disp d) as [| |[|[c' m] ds]|c' rq key|key|]; try done; run_inv Hs; unfold send_chan in *;
      case_decide; simplify_eq; by split.
  - destruct (d_disp d); try done; destruct (d_done d); simplify_eq; by split.
  - destruct (d_disp d); try done; simplify_eq; by split.
  - destruct (d_disp d); try done; destruct (d_done d); simplify_eq; by split.
Qed.

Lemma keeps_run c ls : forall d d', d_recv d <> RecvIdle -> forallb (fun l => negb (postpones l)) ls = true ->
  k_conn (d_conns d) = Some c -> dealer_run gunzip unmarshal ls d = Ret (Some d') -> keeps c d d'.
Proof.
  induction ls as [|l ls IH]; simpl; intros d d' Hr Hl Hc Hs; [simplify_eq; by split|].
  apply andb_prop in Hl as [Hl Hls]; run_inv Hs; destruct a as [d1|]; [|done].
  destruct (keeps_step c l d d1 Hr ltac:(by destruct (postpones l)) Hc Hrun) as [A1 A2 A3 A4].
  destruct (IH d1 d' A1 Hls (A3 Hc) Hs) as [B1 B2 B3 B4]; split; [done|congruence|auto|by etrans].
Qed.

Lemma dealer_run_app ls1 : forall ls2 d d', dealer_run gunzip unmarshal (ls1 ++ ls2) d = Ret (Some d') ->
  exists d1, dealer_run gunzip unmarshal ls1 d = Ret (Some d1) /\ dealer_run gunzip unmarshal ls2 d1 = Ret (Some d').
Proof.
  induction ls1 as [|l ls1 IH]; simpl; intros ls2 d d' Hr; [eauto|].
  run_inv Hr; rewrite Hrun; simpl; destruct a as [d1|]; [|done]; by apply IH.
Qed.
End watchdog.

(** ** Claims *)

(** A dealer with the player's two receivers, its payloads unzipped and parsed. *)
Definition demo_receivers : Receivers :=
  MkReceivers [(["hm://pusher/v1/connections/"; "hm://connect-state/v1/"], 0%nat)]
    {["hm://connect-state/v1/player/command" := 1%nat]}.

Definition demo_gunzip (b : list Z) : result (list Z) :=
  match b with [] => Err (EMsg "invalid gzip stream") | _ :: b => Ok b end.

Definition demo_dealer : Dealer Z :=
  MkDealer false (MkConns (Some 0%nat) 1 ∅) (30 * second) demo_receivers 2 ∅ [] RecvTop DispWaiting [].

Definition demo_message : RawMessage :=
  MkRaw "message" "hm://connect-state/v1/cluster" {["Transfer-Encoding" := "gzip"]} "" "" [PayloadString "AAEC"] [].

Definition demo_request : RawMessage :=
  MkRaw "request" "" ∅ "hm://connect-state/v1/player/command" "7/key" [] [1; 2; 3].

Definition demo_pong : RawMessage := MkRaw "pong" "" ∅ "" "" [] [].

(** The second frame is read while the first one's request waits for its reply. *)
Definition demo_schedule : list label :=
  [LTop; LRead 0 (ReadFrame demo_request); LHand; LTake; LTop; LRead 1 (ReadFrame demo_message); LDeliver; LHand;
   LTop; LRead 2 (ReadFrame demo_pong); LReply true None; LTake; LDeliver].



(** The dealer does not bring the process down before it has closed its
    receivers.  From its creation, under every interleaving, as long as every
    frame carries at most one payload, message receivers name a prefix and
    request receivers different identifiers: no step panics, and no channel is
    closed twice, unless the dealer was closed and has closed the channels of
    its receivers. *)
Theorem dealer_safe_until_closed {P} (gunzip : list Z -> result (list Z)) (unmarshal : list Z -> result P)
    (ls : list label) :
  Forall proper ls -> NoDup (concat (asked <$> ls)) ->
  returns (dealer_run gunzip unmarshal ls NewDealer) \/
  exists ls1 d1, ls1 `prefix_of` ls /\ dealer_run gunzip unmarshal ls1 NewDealer = Ret (Some d1) /\
    d_done d1 = true /\ d_recv d1 = RecvStopped.
Proof.
  intros Hp Hn; apply sound_run; [apply sound_new|done|done|]; by apply Forall_forall.
Qed.

Lemma dealer_safe_until_closed_witness :
  returns (dealer_run demo_gunzip (fun b => Ok (zlen b))
    (LConnect None :: LReceiveMessage 0 ["hm://"] :: LReceiveRequest 0 "hm://connect-state/v1/player/command" ::
     demo_schedule) NewDealer) \/
  exists ls1 d1, ls1 `prefix_of` (LConnect None :: LReceiveMessage 0 ["hm://"] ::
     LReceiveRequest 0 "hm://connect-state/v1/player/command" :: demo_schedule) /\
    dealer_run demo_gunzip (fun b => Ok (zlen b)) ls1 NewDealer = Ret (Some d1) /\
    d_done d1 = true /\ d_recv d1 = RecvStopped.
Proof.
  apply (dealer_safe_until_closed demo_gunzip (fun b => Ok (zlen b))
    (LConnect None :: LReceiveMessage 0 ["hm://"] :: LReceiveRequest 0 "hm://connect-state/v1/player/command" ::
     demo_schedule)).
  - repeat constructor; done.
  - vm_compute; repeat constructor; set_solver.
Defined.

(** The watchdog closes a connection that stopped answering.  Once
    receiving, whatever else happens, if no pong is read and the dealer does
    not reconnect, then a tick more than [pingInterval + timeout] after the
    deadline's mark leaves the websocket closed; and a tick within it whose
    ping is written leaves the connection alone. *)
Theorem watchdog_closes_dead_connection {P} (gunzip : list Z -> result (list Z)) (unmarshal : list Z -> result P)
    (ls1 ls2 : list label) (now : Z) (write : option error) (c : nat) (d d' : Dealer P) :
  d_recv d <> RecvIdle -> k_conn (d_conns d) = Some c ->
  forallb (fun l => negb (postpones l)) (ls1 ++ LTick now write :: ls2) = true ->
  dealer_run gunzip unmarshal (ls1 ++ LTick now write :: ls2) d = Ret (Some d') ->
  (pingInterval + timeout < now - d_lastPong d -> c ∈ k_closed (d_conns d')) /\
  (now - d_lastPong d <= pingInterval + timeout -> write = None -> forall d1,
    dealer_run gunzip unmarshal ls1 d = Ret (Some d1) -> dealer_step gunzip unmarshal (LTick now write) d1 = Ret (Some d1)).
Proof.
  intros Hr Hc Hl Hrun; rewrite forallb_app in Hl; apply andb_prop in Hl as [Hl1 Hl2]; simpl in Hl2.
  apply dealer_run_app in Hrun as (d1 & Hrun1 & Hrun2).
  pose proof (keeps_run _ _ c ls1 d d1 Hr Hl1 Hc Hrun1) as [K1 K2 K3 _].
  assert (Htick : dealer_step gunzip unmarshal (LTick now write) d1 = Ret (Some (ping_tick now write d1)) /\
    d_done d1 = false /\ dealer_run gunzip unmarshal ls2 (ping_tick now write d1) = Ret (Some d')).
  { simpl in Hrun2 |- *; destruct (d_recv d1), (d_done d1); simpl in Hrun2; try discriminate; by try split_and!. }
  destruct Htick as (Ht & Hdone & Hrest); unfold ping_tick in Ht, Hrest; rewrite K2 in Ht, Hrest; split.
  - intros Hlate; rewrite decide_True in Hrest by done.
    pose proof (close_conn_keeps (d_conns d1)) as [Hk _].
    assert (Hr1 : d_recv (closeConn d1) <> RecvIdle) by done.
    assert (Hc1 : k_conn (d_conns (closeConn d1)) = Some c) by (simpl; rewrite Hk; auto).
    destruct (keeps_run _ _ c ls2 _ d' Hr1 Hl2 Hc1 Hrest) as [_ _ _ K4].
    by apply K4, close_conn_closed, K3.
  - intros Hearly -> d2 Hd2; rewrite Hrun1 in Hd2; injection Hd2 as <-.
    rewrite Ht, decide_False by lia; unfold writeConn; by rewrite Hdone, (K3 Hc).
Qed.

Lemma watchdog_closes_dead_connection_witness :
  exists d', dealer_run demo_gunzip (fun b => Ok (zlen b))
      ([LTop; LTick (31 * second) None] ++ LTick (71 * second) None :: [LRead 0 ReadErr; LLeave]) demo_dealer =
      Ret (Some d') /\ 0%nat ∈ k_closed (d_conns d').
Proof.
  eexists; split; [vm_compute; reflexivity|].
  refine (proj1 (watchdog_closes_dead_connection demo_gunzip (fun b => Ok (zlen b)) [LTop; LTick (31 * second) None]
    [LRead 0 ReadErr; LLeave] (71 * second) None 0 demo_dealer _ _ _ _ _) _);
    [discriminate|reflexivity|reflexivity|vm_compute; reflexivity|vm_compute; reflexivity].
Defined.

(** Closing the dealer with a frame still queued may bring the process down:
    the dispatcher can take the frame rather than notice the close, and then
    send on the channel the reading loop has closed. *)
Theorem closed_dealer_panics :
  dealer_run demo_gunzip (fun b => Ok (zlen b))
    [LTop; LRead 0 (ReadFrame demo_message); LHand; LTop; LClose; LRead 1 ReadErr; LLeave; LCloseReceivers; LTake;
     LDeliver] demo_dealer = Panic "send on closed channel".
Proof. vm_compute; reflexivity. Qed.

(** A message with two payloads brings the process down, whoever it is for. *)
Theorem two_payloads_panic (gunzip : list Z -> result (list Z)) (R : Receivers) (rm : RawMessage) :
  (1 < length (rm_Payloads rm))%nat -> exists why, handleMessage gunzip R rm = Panic why.
Proof. intros Hl; unfold handleMessage; rewrite decide_True by done; eauto. Qed.
