(* ===== verification/Hashcash.v ===== *)
(** * The login proof of work ([src/login5/hashcash.go])

    The digest check, the counter increment and the search loop.  SHA-1 is a
    parameter: the theorems hold for every hash of byte strings. *)

From S2P Require Import Prelude.
#[local] Open Scope list_scope.
#[local] Open Scope Z_scope.

(** [bits.TrailingZeros8]: 8 for a zero byte. *)
Fixpoint trailing_zeros (bits : nat) (b : Z) : Z :=
  match bits with
  | O => 0
  | S bits => if Z.odd b then 0 else 1 + trailing_zeros bits (Z.div2 b)
  end.

Definition TrailingZeros8 (b : Z) : Z := trailing_zeros 8 b.

(** The loop from the last byte of the digest to the first: [from_end] is the
    part of the digest not yet inspected, last byte first. *)
Fixpoint check_loop (from_end : list Z) (length : Z) : bool :=
  match from_end with
  | [] => false
  | b :: from_end =>
    let zeros := TrailingZeros8 b in
    if decide (length <= zeros) then true
    else if decide (zeros < 8) then false
    else check_loop from_end (length - 8)
  end.

Definition checkHashcash (hash : list Z) (length : Z) : bool := check_loop (reverse hash) length.

(** [data[idx]++] on a byte, carrying into the byte before it. *)
Fixpoint incrementHashcash (data : list Z) (idx : nat) : run (list Z) :=
  b ← index data (Z.of_nat idx);
  let data := setZ data (Z.of_nat idx) (u8 (b + 1)) in
  match idx with
  | O => Ret data
  | S idx => if decide (u8 (b + 1) = 0) then incrementHashcash data idx else Ret data
  end.

Section solve.
Context (sha1 : list Z -> list Z).

(** Both increments of an iteration, on the two halves of the suffix. *)
Definition next_suffix (suffix : list Z) : run (list Z) :=
  lo ← incrementHashcash (takeZ 8 suffix) 7;
  hi ← incrementHashcash (dropZ 8 suffix) 7;
  Ret (lo ++ hi).

Fixpoint solve_loop (fuel : nat) (prefix : list Z) (length : Z) (suffix : list Z) : run (list Z) :=
  match fuel with
  | O => OutOfFuel
  | S fuel =>
    if checkHashcash (sha1 (prefix ++ suffix)) length then Ret suffix
    else suffix ← next_suffix suffix; solve_loop fuel prefix length suffix
  end.

Definition initial_suffix (loginContext : list Z) : list Z :=
  sliceZ 12 20 (sha1 loginContext) ++ replicate 8 0.

Definition solveHashcash (fuel : nat) (loginContext prefix : list Z) (length : Z) : run (list Z) :=
  solve_loop fuel prefix length (initial_suffix loginContext).
End solve.

(** ** Helper lemmas *)
Definition check_byte (b length : Z) : bool :=
  bool_decide (bool_decide (length <= TrailingZeros8 b) = bool_decide (b `mod` 2 ^ length = 0)).

Lemma check_bytes : forallb (fun b => forallb (check_byte b) (seqZ 0 9)) (seqZ 0 256) = true.
Proof. vm_compute; reflexivity. Qed.

Lemma trailing_zeros_spec b length :
  is_byte b -> 0 <= length <= 8 -> length <= TrailingZeros8 b <-> b `mod` 2 ^ length = 0.
Proof.
  intros Hb Hl; pose proof check_bytes as Hall; rewrite forallb_forall in Hall.
  assert (In b (seqZ 0 256)) as Hin by (apply list_elem_of_In, elem_of_seqZ; unfold is_byte in Hb; lia).
  apply Hall in Hin; rewrite forallb_forall in Hin.
  assert (In length (seqZ 0 9)) as Hin' by (apply list_elem_of_In, elem_of_seqZ; lia).
  apply Hin in Hin'; unfold check_byte in Hin'; apply bool_decide_eq_true in Hin'.
  by rewrite <- (bool_decide_eq_true (length <= _)), Hin', bool_decide_eq_true.
Qed.

Lemma trailing_zeros_bound b : 0 <= TrailingZeros8 b <= 8.
Proof. unfold TrailingZeros8; cbn [trailing_zeros]; repeat case_match; lia. Qed.

Lemma low_bits_mod b rest length :
  is_byte b -> 8 <= length ->
  (b + 2 ^ 8 * rest) `mod` 2 ^ length = 0 <-> b = 0 /\ rest `mod` 2 ^ (length - 8) = 0.
Proof.
  intros Hb Hl; replace length with (8 + (length - 8)) at 1 by lia.
  rewrite Z.pow_add_r by lia; pose proof (Z.pow_pos_nonneg 2 (length - 8)); unfold is_byte in Hb.
  rewrite Z.rem_mul_r, Z.mul_comm, Z.mod_add, (Z.mod_small b), Z.div_add, (Z.div_small b) by lia.
  rewrite Z.add_0_l; pose proof (Z.mod_pos_bound rest (2 ^ (length - 8))); lia.
Qed.

Lemma check_loop_spec l length :
  bytes_ok l -> 0 <= length -> l <> [] ->
  check_loop l length = bool_decide (length <= 8 * zlen l /\ le_val l `mod` 2 ^ length = 0).
Proof.
  intros Hl; revert length; induction Hl as [|b l Hb Hl IH]; intros length Hlen Hne; [done|].
  cbn [check_loop]; rewrite le_val_cons, zlen_cons by done.
  pose proof (trailing_zeros_bound b) as Ht; pose proof (zlen_nonneg l).
  destruct (decide (length <= 8)).
  - assert ((b + 2 ^ 8 * le_val l) `mod` 2 ^ length = b `mod` 2 ^ length) as ->.
    { replace (2 ^ 8) with (2 ^ (8 - length) * 2 ^ length) by (rewrite <- Z.pow_add_r by lia; f_equal; lia).
      rewrite Z.mul_shuffle0, Z.mod_add; [done|]. pose proof (Z.pow_pos_nonneg 2 length); lia. }
    pose proof (trailing_zeros_spec b length Hb ltac:(lia)) as Hspec.
    destruct (decide (length <= TrailingZeros8 b)); [symmetry; apply bool_decide_eq_true; split; [lia|tauto]|].
    destruct (decide (TrailingZeros8 b < 8)); [|lia].
    symmetry; apply bool_decide_eq_false; tauto.
  - pose proof (trailing_zeros_spec b 8 Hb ltac:(lia)) as Hspec.
    rewrite decide_False by lia; pose proof (low_bits_mod b (le_val l) length Hb ltac:(lia)) as Hlow.
    unfold is_byte in Hb; rewrite (Z.mod_small b) in Hspec by lia.
    destruct (decide (TrailingZeros8 b < 8)) as [Hz|Hz].
    + symmetry; apply bool_decide_eq_false; rewrite Hlow; intros [_ [? _]]; lia.
    + destruct l as [|b' l].
      * symmetry; apply bool_decide_eq_false; unfold zlen; cbn; lia.
      * rewrite IH by (done || lia); apply bool_decide_ext; rewrite Hlow; split; [intros []|intros (? & ? & ?)]; split_and!; try done; lia.
Qed.


Lemma setZ_snoc {A} (l rest : list A) (x y : A) : setZ (l ++ x :: rest) (zlen l) y = l ++ y :: rest.
Proof.
  unfold setZ; rewrite decide_True by apply zlen_nonneg; unfold zlen; rewrite Nat2Z.id.
  by rewrite insert_app_r_alt, Nat.sub_diag by lia.
Qed.

Lemma index_mid {A} (l rest : list A) (x : A) : index (l ++ x :: rest) (zlen l) = Ret x.
Proof. apply index_Ret; rewrite nthZ_app_r by lia; by rewrite Z.sub_diag. Qed.

Lemma be_val_snoc l b : is_byte b -> be_val (l ++ [b]) = be_val l * 2 ^ 8 + b.
Proof.
  intros Hb; rewrite be_val_app by (by constructor); f_equal.
  unfold be_val; cbn; change (le_val [b] = b); rewrite le_val_cons by done; unfold le_val; cbn; lia.
Qed.

(** Incrementing at the last index of [l] leaves what follows alone. *)
Lemma increment_spec l rest idx :
  length l = S idx -> bytes_ok l ->
  exists l', incrementHashcash (l ++ rest) idx = Ret (l' ++ rest) /\ length l' = length l /\ bytes_ok l' /\
    be_val l' = (be_val l + 1) `mod` 2 ^ (8 * zlen l).
Proof.
  revert l rest; induction idx as [|idx IH]; intros l rest Hlen Hok.
  all: destruct (exists_last (l := l)) as (init & b & ->); [by intros ->|].
  all: rewrite length_app in Hlen; cbn [length] in Hlen.
  all: apply bytes_ok_app in Hok as [Hl [Hb _]%Forall_cons].
  all: rewrite be_val_snoc, <- app_assoc, zlen_app by done; cbn [app incrementHashcash].
  all: pose proof (be_val_bound _ Hl) as Hv; pose proof Hb as [Hb0 Hb1].
  - assert (init = []) as -> by (apply length_zero_iff_nil; lia).
    exists [u8 (b + 1)]; split_and!; [done | done | |].
    + constructor; [unfold u8; apply wrap_bound; lia | done].
    + unfold u8; change (be_val []) with 0; change (8 * (zlen (@nil Z) + zlen [b])) with 8.
      change ([wrap 8 (b + 1)]) with ([] ++ [wrap 8 (b + 1)]).
      rewrite be_val_snoc by (apply wrap_bound; lia); unfold wrap; change (be_val []) with 0; done.
  - assert (Z.of_nat (S idx) = zlen init) as -> by (unfold zlen; lia).
    rewrite index_mid, run_bind_Ret, setZ_snoc; change (zlen [b]) with 1.
    replace (8 * (zlen init + 1)) with (8 * zlen init + 8) by lia.
    rewrite (Z.mul_comm _ 8) in Hv.
    rewrite Z.pow_add_r by (pose proof (zlen_nonneg init); lia).
    destruct (decide (u8 (b + 1) = 0)) as [Hz|Hz].
    + assert (b = 255) as ->.
      { unfold u8, wrap in Hz; destruct (decide (b = 255)); [done|]; rewrite Z.mod_small in Hz; lia. }
      destruct (IH init (u8 (255 + 1) :: rest)) as (l' & -> & Hlen' & Hok' & Hval); [lia|done|].
      exists (l' ++ [0]); rewrite <- app_assoc; split_and!.
      * done.
      * rewrite !length_app; cbn; lia.
      * apply bytes_ok_app; split; [done|]; by repeat constructor.
      * rewrite be_val_snoc, Hval by done; rewrite <- Z.mul_mod_distr_r by lia.
        rewrite Z.add_0_r; f_equal; lia.
    + assert (u8 (b + 1) = b + 1) as Hu.
      { unfold u8; apply wrap_small; destruct (decide (b = 255)) as [->|]; [by vm_compute in Hz | lia]. }
      assert (b + 1 < 2 ^ 8) by (rewrite <- Hu; unfold u8; apply wrap_bound; lia).
      exists (init ++ [b + 1]); rewrite Hu, <- app_assoc; split_and!.
      * done.
      * rewrite !length_app; cbn; lia.
      * apply bytes_ok_app; split; [done|]; constructor; [unfold is_byte; lia | done].
      * rewrite be_val_snoc by (unfold is_byte; lia); rewrite Z.mod_small by lia; lia.
Qed.

(** The suffix tried at iteration [k] from the seed. *)
Definition suffix_at (seed k : Z) : list Z := be_bytes 8 (seed + k) ++ be_bytes 8 k.

Lemma increment_be_bytes k : incrementHashcash (be_bytes 8 k) 7 = Ret (be_bytes 8 (k + 1)).
Proof.
  destruct (increment_spec (be_bytes 8 k) [] 7) as (l' & Hrun & Hlen & Hok & Hval).
  - pose proof (zlen_be_bytes 8 k); unfold zlen in *; lia.
  - auto with zlist lia.
  - rewrite !app_nil_r in Hrun; rewrite Hrun; f_equal.
    rewrite zlen_be_bytes, be_val_be_bytes in Hval by lia; rewrite Zplus_mod_idemp_l in Hval.
    apply be_val_inj; auto with zlist; [| |by rewrite be_val_be_bytes by lia].
    + rewrite zlen_be_bytes by lia; pose proof (zlen_be_bytes 8 k); unfold zlen in *; lia.
    + apply be_bytes_ok; lia.
Qed.

Lemma next_suffix_at seed k : next_suffix (suffix_at seed k) = Ret (suffix_at seed (k + 1)).
Proof.
  unfold next_suffix, suffix_at; pose proof (zlen_be_bytes 8 (seed + k) ltac:(lia)).
  rewrite takeZ_app_le, takeZ_all, dropZ_app_le, dropZ_all, app_nil_l by lia.
  by rewrite !increment_be_bytes, !run_bind_Ret, Z.add_assoc.
Qed.

Lemma solve_loop_spec sha1 prefix length seed (n fuel : nat) k :
  (forall j, k <= j < k + Z.of_nat n -> checkHashcash (sha1 (prefix ++ suffix_at seed j)) length = false) ->
  (n <= fuel)%nat ->
  solve_loop sha1 fuel prefix length (suffix_at seed k) =
    solve_loop sha1 (fuel - n) prefix length (suffix_at seed (k + Z.of_nat n)).
Proof.
  revert fuel k; induction n as [|n IH]; intros fuel k Hno Hf; [by rewrite Nat.sub_0_r, Z.add_0_r|].
  destruct fuel as [|fuel]; [lia|]; cbn [solve_loop].
  rewrite Hno by lia; rewrite next_suffix_at, run_bind_Ret.
  rewrite (IH fuel (k + 1)); [do 2 f_equal; lia | intros j Hj; apply Hno; lia | lia].
Qed.

Lemma initial_suffix_at sha1 loginContext :
  zlen (sha1 loginContext) = 20 -> bytes_ok (sha1 loginContext) ->
  initial_suffix sha1 loginContext = suffix_at (be_val (sliceZ 12 20 (sha1 loginContext))) 0.
Proof.
  intros Hlen Hok; unfold initial_suffix, suffix_at; rewrite Z.add_0_r.
  assert (zlen (sliceZ 12 20 (sha1 loginContext)) = 8) as Hs by (unfold sliceZ; zlen).
  pose proof (be_bytes_be_val (sliceZ 12 20 (sha1 loginContext))) as Hb; rewrite Hs in Hb; rewrite Hb; [done|].
  unfold sliceZ, takeZ, dropZ; by apply Forall_take, Forall_drop.
Qed.

(** What is known of SHA-1 here: a digest is twenty bytes. *)
Definition digests (sha1 : list Z -> list Z) : Prop := forall m, zlen (sha1 m) = 20 /\ bytes_ok (sha1 m).

(** A stand-in digest: the sum of the bytes, in twenty bytes. *)
Definition toy_digest (m : list Z) : list Z := be_bytes 20 (foldr Z.add 0 m).

Lemma toy_digests : digests toy_digest.
Proof. intros m; split; [apply zlen_be_bytes | apply be_bytes_ok]; lia. Qed.

(** The digest check is the arithmetic it stands for.  Scanning bytes from
    the end and counting trailing zeros accepts a digest exactly when it has at
    least [length] bits and, read as a big-endian number, is divisible by
    [2 ^ length]. *)
Theorem check_is_divisibility (hash : list Z) (length : Z) :
  bytes_ok hash -> hash <> [] -> 0 <= length ->
  checkHashcash hash length = bool_decide (length <= 8 * zlen hash /\ be_val hash `mod` 2 ^ length = 0).
Proof.
  intros Hok Hne Hl; unfold checkHashcash, be_val; rewrite <- (zlen_reverse hash).
  apply check_loop_spec; [by apply Forall_reverse | done |].
  intros Hr; apply Hne; by rewrite <- (reverse_involutive hash), Hr.
Qed.

Lemma check_is_divisibility_witness :
  checkHashcash [255; 16; 0] 12 = bool_decide (12 <= 8 * zlen [255; 16; 0] /\ be_val [255; 16; 0] `mod` 2 ^ 12 = 0) /\
  checkHashcash [255; 16; 0] 12 = true.
Proof.
  split; [|reflexivity].
  apply (check_is_divisibility [255; 16; 0] 12); [|discriminate|discriminate].
  repeat constructor; apply (bool_decide_unpack _); exact I.
Defined.

(** C39: The search for a proof of work visits every candidate in order and
    stops at the first solution: iteration [k] tries the 64-bit counters
    [seed + k] and [k], carries included, and whenever some candidate passes,
    the loop returns the first one that does, so its digest is divisible by
    [2 ^ length]; it needs one iteration per candidate tried. *)
Theorem solve_finds_first (sha1 : list Z -> list Z) (loginContext prefix : list Z) (length k : Z) (fuel : nat) :
  digests sha1 -> 0 <= length -> 0 <= k < Z.of_nat fuel ->
  let seed := be_val (sliceZ 12 20 (sha1 loginContext)) in
  checkHashcash (sha1 (prefix ++ suffix_at seed k)) length = true ->
  (forall j, 0 <= j < k -> checkHashcash (sha1 (prefix ++ suffix_at seed j)) length = false) ->
  solveHashcash sha1 fuel loginContext prefix length = Ret (suffix_at seed k) /\
  be_val (sha1 (prefix ++ suffix_at seed k)) `mod` 2 ^ length = 0.
Proof.
  intros Hsha Hlen Hk seed Hyes Hno; split.
  - unfold solveHashcash; destruct (Hsha loginContext); rewrite initial_suffix_at by done; fold seed.
    rewrite (solve_loop_spec _ _ _ _ (Z.to_nat k)) by (intros; try apply Hno; lia).
    destruct (fuel - Z.to_nat k)%nat as [|f] eqn:Hf; [lia|]; cbn [solve_loop].
    by rewrite Z2Nat.id, Z.add_0_l, Hyes by lia.
  - destruct (Hsha (prefix ++ suffix_at seed k)) as [H20 Hb]; revert Hyes.
    unfold checkHashcash; rewrite check_loop_spec; [|by apply Forall_reverse|done|].
    + intros Hd%bool_decide_eq_true; apply Hd.
    + intros Hr; apply (f_equal zlen) in Hr; rewrite zlen_reverse, H20 in Hr; discriminate.
Qed.

Lemma solve_finds_first_witness :
  solveHashcash toy_digest 20 [3] [1] 4 = Ret (suffix_at 3 6) /\
  be_val (toy_digest ([1] ++ suffix_at 3 6)) `mod` 2 ^ 4 = 0.
Proof.
  apply (solve_finds_first toy_digest [3] [1] 4 6 20);
    [exact toy_digests | lia | lia | reflexivity |].
  intros j Hj; assert (j = 0 \/ j = 1 \/ j = 2 \/ j = 3 \/ j = 4 \/ j = 5) as Hc by lia.
  repeat destruct Hc as [->|Hc]; try reflexivity; rewrite Hc; reflexivity.
Defined.

(** A challenge asking for more zero bits than a digest has is never
    answered: the search, which nothing cancels, goes on for ever. *)
Theorem unsolvable_challenge_loops (sha1 : list Z -> list Z) (loginContext prefix : list Z) (length : Z) :
  digests sha1 -> 160 < length ->
  forall fuel, solveHashcash sha1 fuel loginContext prefix length = OutOfFuel.
Proof.
  intros Hsha Hl fuel; unfold solveHashcash; destruct (Hsha loginContext); rewrite initial_suffix_at by done.
  rewrite (solve_loop_spec _ _ _ _ fuel fuel 0); [by rewrite Nat.sub_diag | | lia].
  intros j _; destruct (Hsha (prefix ++ suffix_at (be_val (sliceZ 12 20 (sha1 loginContext))) j)) as [H20 Hb].
  unfold checkHashcash; rewrite check_loop_spec; [|by apply Forall_reverse|lia|].
  - apply bool_decide_eq_false; rewrite zlen_reverse, H20; lia.
  - intros Hr; apply (f_equal zlen) in Hr; rewrite zlen_reverse, H20 in Hr; discriminate.
Qed.

Lemma unsolvable_challenge_loops_witness :
  forall fuel, solveHashcash toy_digest fuel [3] [1] 161 = OutOfFuel.
Proof. apply (unsolvable_challenge_loops toy_digest [3] [1] 161); [exact toy_digests | lia]. Defined.
