(* ===== verification/Service.v ===== *)
(** * Requests to the services ([src/spclient/spclient.go], [src/login5/login5.go])

    Sending a request with the access token, renewing the token when it is
    refused and repeating what may be repeated; the login that issues tokens,
    with its proof of work; and publishing the connect state.

    The retry package is a parameter: [RetryLaws] states what its
    documentation says.  The clock and what the network answers are functions
    of how often they were asked, so that a run is determined by them. *)

From stdpp Require Import gmap.
From S2P Require Import Prelude Ids Hashcash.
#[local] Open Scope string_scope.
#[local] Open Scope list_scope.
#[local] Open Scope Z_scope.

(** ** Errors with data *)
Inductive svc_error :=
| SErr (e : error)
| HTTPStatusError (endpoint : string) (code : Z)
| StatusError (op : string) (code : Z)
| RateLimitedError (retryAfter : Z)
| LoginError (code : Z)
| HTTPError (code : Z)
| SWrap (msg : string) (cause : svc_error)
| SWith (e last : svc_error).

Inductive sresult (A : Type) := SOk (a : A) | SFail (e : svc_error).
Arguments SOk {A}.
Arguments SFail {A}.

(** ** Retrying ([github.com/cenkalti/backoff])

    One attempt ends well, fails and may be repeated, or fails for good. *)
Inductive attempt (A : Type) := Done (a : A) | Transient (e : svc_error) | Permanent (e : svc_error).
Arguments Done {A}.
Arguments Transient {A}.
Arguments Permanent {A}.

Section retry.
Context {W A : Type}.
Implicit Types (f : W -> run (W * attempt A)) (w : W).

(** [n] failed attempts lead from one state to the other. *)
Inductive tries f : nat -> W -> W -> Prop :=
| tries_O w : tries f 0 w w
| tries_S n w w1 w2 e : f w = Ret (w1, Transient e) -> tries f n w1 w2 -> tries f (S n) w w2.

(** The last failure is reported, or that the context ended. *)
Inductive gives : attempt A -> sresult A -> Prop :=
| gives_done a : gives (Done a) (SOk a)
| gives_permanent e : gives (Permanent e) (SFail e)
| gives_last e : gives (Transient e) (SFail e)
| gives_ctx e c : c = context_Canceled \/ c = context_DeadlineExceeded -> gives (Transient e) (SFail (SErr c)).
End retry.

(** [RetryWithData] with, for [WithMaxRetries], the number of repetitions. *)
Class Retry := RetryWithData : forall {W A : Type}, option nat -> (W -> run (W * attempt A)) -> W -> run (W * sresult A).

Class RetryLaws `{Retry} := {
  retry_returns {W A} m (f : W -> run (W * attempt A)) w w' r : RetryWithData m f w = Ret (w', r) ->
    exists n w1 o, tries f n w w1 /\ f w1 = Ret (w', o) /\ gives o r /\ (forall k, m = Some k -> (n <= k)%nat);
  retry_panics {W A} m (f : W -> run (W * attempt A)) w why : RetryWithData m f w = Panic why ->
    exists n w1, tries f n w w1 /\ f w1 = Panic why;
  retry_ends {W A} m (f : W -> run (W * attempt A)) w : RetryWithData m f w = OutOfFuel ->
    exists n w1, tries f n w w1 /\ f w1 = OutOfFuel
}.

(** ** Login ([login5.go]) *)
Record LoginOk := MkLoginOk {
  lo_Username : string;
  lo_AccessToken : string;
  lo_StoredCredential : list Z;
  lo_AccessTokenExpiresIn : Z
}.

Inductive Challenge := Challenge_Hashcash (prefix : list Z) (length : Z) | Challenge_Code | Challenge_Other.

(** The response, with the login context beside it. *)
Inductive LoginResponse :=
| LoginResponse_Ok (ok : LoginOk)
| LoginResponse_Error (code : Z)
| LoginResponse_Challenges (challenges : list Challenge).

Inductive credentials := StoredCredential (username : string) (data : list Z) | OtherCredential | InvalidCredentials.

Record LoginRequest := MkLoginRequest {
  lr_method : credentials;
  lr_context : list Z;
  lr_solutions : option (list (list Z))
}.

Inductive login_answer :=
| LoginNet (e : error)
| LoginRead (e : error)
| LoginHttp (code : Z)
| LoginBody (body : result (list Z * LoginResponse)).

Record Login5 := MkLogin5 {
  l_ok : option LoginOk;
  l_exp : Z;
  l_clock : nat;
  l_log : list (LoginRequest * login_answer)
}.

Definition Retryable (code : Z) : bool := bool_decide (500 <= code \/ code = 429).

Section login.
Context `{Retry}.
(** [ctxErr n] and [ctxEnd n]: the context's error right after the [n]-th
    exchange, and when the retry that ended there has returned. *)
Context (now : nat -> Z) (ctxErr ctxEnd : nat -> option error).
Context (login_server : nat -> LoginRequest -> login_answer).
Context (sha1 : list Z -> list Z) (fuel : nat).

Definition tick (l : Login5) : Login5 := MkLogin5 (l_ok l) (l_exp l) (S (l_clock l)) (l_log l).

Definition requestOnce (req : LoginRequest) (l : Login5) : Login5 * sresult (list Z * LoginResponse) :=
  let n := length (l_log l) in
  let a := login_server n req in
  (MkLogin5 (l_ok l) (l_exp l) (l_clock l) (l_log l ++ [(req, a)]),
   match a with
   | LoginNet e => SFail (SErr (EWrap "failed requesting login5" e))
   | LoginRead e => SFail (SErr (EWrap "failed reading login5 response" e))
   | LoginHttp code => SFail (HTTPError code)
   | LoginBody (Err e) => SFail (SErr (EWrap "failed unmarshalling LoginResponse" e))
   | LoginBody (Ok r) => SOk r
   end).

(** One attempt; the state beside the client is [lastErr], with the exchange it
    came from. *)
Definition login_attempt (req : LoginRequest) (w : Login5 * option (nat * svc_error))
  : run ((Login5 * option (nat * svc_error)) * attempt (list Z * LoginResponse)) :=
  let '(l, lastErr) := w in
  let '(l', r) := requestOnce req l in
  match r with
  | SOk resp => Ret ((l', lastErr), Done resp)
  | SFail e =>
    let n := length (l_log l') in
    let lastErr := match ctxErr n with None => Some (n, e) | Some _ => lastErr end in
    Ret ((l', lastErr), match e with
                        | HTTPError code => if Retryable code then Transient e else Permanent e
                        | _ => Transient e
                        end)
  end.

Definition ctx_error (e : svc_error) : bool :=
  match e with SErr c => bool_decide (c = context_Canceled \/ c = context_DeadlineExceeded) | _ => false end.

(** [errors.Is(err, lastErr)]: the retry reports the failure of the last
    exchange or that the context ended, and no attempt fails with the latter. *)
Definition is_last (e : svc_error) (n : nat) (l : Login5) : bool :=
  negb (ctx_error e) && bool_decide (n = length (l_log l)).

Definition request (req : LoginRequest) (l : Login5) : run (Login5 * sresult (list Z * LoginResponse)) :=
  '((l', lastErr), r) ← RetryWithData None (login_attempt req) (l, None);
  Ret (l', match r, lastErr, ctxEnd (length (l_log l')) with
           | SFail e, Some (n, last), Some _ => if is_last e n l' then SFail e else SFail (SWith e last)
           | _, _, _ => r
           end).

(** The solutions in order; [None] for a challenge that cannot be solved. *)
Fixpoint solve_challenges (loginContext : list Z) (chs : list Challenge) : run (option (list (list Z))) :=
  match chs with
  | [] => Ret (Some [])
  | Challenge_Hashcash prefix length :: chs =>
    sol ← solveHashcash sha1 fuel loginContext prefix length;
    rest ← solve_challenges loginContext chs;
    Ret (option_map (cons sol) rest)
  | Challenge_Code :: _ => Ret None
  | Challenge_Other :: chs => solve_challenges loginContext chs
  end.

Definition second : Z := 1000000000.

(** From the last response to the state. *)
Definition finish_login (resp : LoginResponse) (l : Login5) : Login5 * option svc_error :=
  match resp with
  | LoginResponse_Ok ok =>
    let t := now (l_clock l) in
    (MkLogin5 (Some ok) (t + lo_AccessTokenExpiresIn ok * second) (S (l_clock l)) (l_log l), None)
  | LoginResponse_Error code => (l, Some (LoginError code))
  | LoginResponse_Challenges _ => (l, Some (LoginError 0))
  end.

Definition Login (cred : credentials) (l : Login5) : run (Login5 * option svc_error) :=
  match cred with
  | InvalidCredentials => Ret (l, Some (SErr (EMsg "invalid credentials")))
  | _ =>
    '(l, r) ← request (MkLoginRequest cred [] None) l;
    match r with
    | SFail e => Ret (l, Some (SWrap "failed requesting login5 endpoint" e))
    | SOk (loginContext, LoginResponse_Challenges ((_ :: _) as chs)) =>
      sols ← solve_challenges loginContext chs;
      match sols with
      | None => Ret (l, Some (SErr (EMsg "login5 code challenge not supported")))
      | Some sols =>
        '(l, r) ← request (MkLoginRequest cred loginContext (Some sols)) l;
        match r with
        | SFail e => Ret (l, Some (SWrap "failed requesting login5 endpoint with challenge solutions" e))
        | SOk (_, resp) => Ret (finish_login resp l)
        end
      end
    | SOk (_, resp) => Ret (finish_login resp l)
    end
  end.

Definition AccessToken (force : bool) (l : Login5) : run (Login5 * sresult string) :=
  match l_ok l with
  | None => Panic "login5 not authenticated"
  | Some ok =>
    let t := now (l_clock l) in
    if negb force && bool_decide (t < l_exp l) then Ret (tick l, SOk (lo_AccessToken ok))
    else
      let l := if force then l else tick l in
      '(l, err) ← Login (StoredCredential (lo_Username ok) (lo_StoredCredential ok)) l;
      match err with
      | Some e => Ret (l, SFail (SWrap "failed renewing login5 access token" e))
      | None =>
        match l_ok l with
        | Some ok => Ret (l, SOk (lo_AccessToken ok))
        | None => Panic "nil pointer dereference"
        end
      end
  end.
End login.

(** ** Requests ([spclient.go]) *)
Record HttpRequest := MkHttpRequest {
  hq_Method : string;
  hq_Path : string;
  hq_Query : option (gmap string string);
  hq_Header : gmap string string;
  hq_Body : option (list Z);
  hq_Redirect : bool
}.

Record Response := MkResponse { rs_Status : Z; rs_Header : gmap string string; rs_Body : result (list Z) }.

Inductive http_answer := HttpFail (e : error) | HttpResponse (r : Response).

Inductive exchange := Sent (req : HttpRequest) (a : http_answer) | BodyClosed.

Definition isRetryableHTTPStatus (status : Z) : bool := bool_decide (status ∈ [500; 502; 503; 504]).

Definition set_header (req : HttpRequest) (key value : string) : HttpRequest :=
  MkHttpRequest (hq_Method req) (hq_Path req) (hq_Query req) (<[key := value]> (hq_Header req)) (hq_Body req)
    (hq_Redirect req).

(** The request as it is before the first attempt. *)
Definition prepare (clientToken : string) (req : HttpRequest) : HttpRequest :=
  let req := if decide (clientToken = "") then req else set_header req "Client-Token" clientToken in
  match hq_Body req with
  | Some _ =>
    if decide (default "" (hq_Header req !! "Content-Type") = "")
    then set_header req "Content-Type" "application/x-protobuf" else req
  | None => req
  end.

Record World (T : Type) := MkWorld { w_token : T; w_log : list exchange }.
Arguments MkWorld {T}.
Arguments w_token {T}.
Arguments w_log {T}.

Section spclient.
Context {T : Type} `{Retry}.
Context (token : bool -> T -> run (T * sresult string)).
Context (server : nat -> HttpRequest -> http_answer).
Context (clientToken deviceId : string).
Implicit Types w : World T.

Definition logged (x : exchange) w : World T := MkWorld (w_token w) (w_log w ++ [x]).

(** One attempt; the state beside the world is [forceNewToken]. *)
Definition request_attempt (retryTransient : bool) (req : HttpRequest) (s : World T * bool)
  : run ((World T * bool) * attempt Response) :=
  let '(w, forceNewToken) := s in
  '(t, tok) ← token forceNewToken (w_token w);
  let w := MkWorld t (w_log w) in
  match tok with
  | SFail e => Ret ((w, forceNewToken), Permanent (SWrap "failed obtaining spclient access token" e))
  | SOk accessToken =>
    let req := set_header req "Authorization" ("Bearer " +:+ accessToken)%string in
    let a := server (length (w_log w)) req in
    let w := logged (Sent req a) w in
    match a with
    | HttpFail e => Ret ((w, forceNewToken), if retryTransient then Transient (SErr e) else Permanent (SErr e))
    | HttpResponse r =>
      if decide (rs_Status r = 401) then Ret ((logged BodyClosed w, true), Transient (SErr (EMsg "unauthorized")))
      else if retryTransient && isRetryableHTTPStatus (rs_Status r)
      then Ret ((logged BodyClosed w, forceNewToken), Transient (SErr (EMsg "spclient request returned transient status")))
      else Ret ((w, forceNewToken), Done r)
    end
  end.

Definition innerRequestWith (retryTransient : bool) (req : HttpRequest) w : run (World T * sresult Response) :=
  '((w, _), r) ← RetryWithData None (request_attempt retryTransient (prepare clientToken req)) (w, false);
  Ret (w, match r with SOk r => SOk r | SFail e => SFail (SWrap "spclient request failed" e) end).

Definition Request := innerRequestWith true.
Definition RequestOnce := innerRequestWith false.

(** ** Calling a service

    The answer must have the one good status, be read and be unmarshalled; the
    body is closed on every path. *)
Definition call {A} (req : HttpRequest) (bad : Z -> svc_error) (unmarshal : list Z -> result A) w
  : run (World T * sresult A) :=
  '(w, r) ← Request req w;
  match r with
  | SFail e => Ret (w, SFail e)
  | SOk resp =>
    let w := logged BodyClosed w in
    if decide (rs_Status resp <> 200) then Ret (w, SFail (bad (rs_Status resp)))
    else
      match rs_Body resp with
      | Err e => Ret (w, SFail (SErr (EWrap "failed reading response body" e)))
      | Ok b =>
        match unmarshal b with
        | Err e => Ret (w, SFail (SErr (EWrap "failed unmarshalling response" e)))
        | Ok x => Ret (w, SOk x)
        end
      end
  end.

Definition get (path : string) (query : option (gmap string string)) : HttpRequest :=
  MkHttpRequest "GET" path query ∅ None true.
Definition post (path : string) (header : gmap string string) (body : list Z) : HttpRequest :=
  MkHttpRequest "POST" path None header (Some body) true.

Definition bad_status (what : string) (code : Z) : svc_error := SErr (EMsg ("invalid status code from " +:+ what)%string).

Section calls.
Context {A : Type} (unmarshal : list Z -> result A).

Definition ExtendedMetadata (body : list Z) :=
  call (post "/extended-metadata/v0/extended-metadata" ∅ body) (HTTPStatusError "extended metadata") unmarshal.

Definition ContextResolveAutoplay (body : list Z) :=
  call (post "/context-resolve/v1/autoplay" ∅ body) (bad_status "context resolve autoplay") unmarshal.

Definition NetFortune (bandwidth : string) :=
  call (get "/net-fortune/v2/fortune" (Some {["bandwidth" := bandwidth]})) (bad_status "net fortune") unmarshal.

Definition PublishEvents (body : list Z) :=
  call (post "/gabo-receiver-service/v3/events/" ∅ body) (bad_status "gabo events receiver") unmarshal.

Definition PlayPlayRequest (fileIdHex : string) (body : list Z) :=
  call (post ("/playplay/v1/key/" +:+ fileIdHex)%string ∅ body) (HTTPStatusError "playplay license request") unmarshal.

Definition ListCurrentStates (body : list Z) :=
  call (post "/herodotus/spotify.resumption.v1.CurrentStateService/ListCurrentStates" ∅ body)
    (bad_status "list current states") unmarshal.

Definition CreateResumePointRevision (body : list Z) :=
  call (post "/herodotus/spotify.resumption.v1.ResumePointRevisionService/CreateResumePointRevision" ∅ body)
    (bad_status "create resume point revision") unmarshal.

Definition PlaylistSignals (playlist : SpotifyId) (lenses : string) (body : list Z) w : run (World T * sresult A) :=
  if decide (id_typ playlist <> SpotifyIdTypePlaylist) then Panic "invalid type"
  else
    id ← Base62 playlist;
    call (post ("/playlist/v2/playlist/" +:+ id +:+ "/signals")%string {["Spotify-Apply-Lenses" := lenses]} body)
      (bad_status "playlist signals") unmarshal w.

(** The deferred close closes the response the variable holds by then: after a
    failed second request there is none. *)
Definition ResolveStorageInteractive (path : string) w : run (World T * sresult A) :=
  '(w, r) ← Request (get path None) w;
  match r with
  | SFail e => Ret (w, SFail e)
  | SOk resp =>
    '(w, r) ← (if decide (rs_Status resp = 503) then Request (get path None) (logged BodyClosed w) else Ret (w, SOk resp));
    match r with
    | SFail e => Panic "nil pointer dereference"
    | SOk resp =>
      let w := logged BodyClosed w in
      if decide (rs_Status resp <> 200) then Ret (w, SFail (HTTPStatusError "storage resolve" (rs_Status resp)))
      else
        match rs_Body resp with
        | Err e => Ret (w, SFail (SErr (EWrap "failed reading response body" e)))
        | Ok b =>
          match unmarshal b with
          | Err e => Ret (w, SFail (SErr (EWrap "failed unmarshalling StorageResolveResponse" e)))
          | Ok x => Ret (w, SOk x)
          end
        end
    end
  end.
End calls.

(** [RequestNoRedirect]; [Location] of the redirect. *)
Definition NarrationUrl (body : list Z) w : run (World T * sresult string) :=
  '(w, r) ← innerRequestWith true (MkHttpRequest "POST" "/client-tts/v1/fulfill" None ∅ (Some body) false) w;
  match r with
  | SFail e => Ret (w, SFail e)
  | SOk resp =>
    let w := logged BodyClosed w in
    if decide (rs_Status resp <> 303 /\ rs_Status resp <> 302)
    then Ret (w, SFail (SErr (EMsg "invalid status code from client tts")))
    else
      let url := default "" (rs_Header resp !! "Location") in
      if decide (url = "") then Ret (w, SFail (SErr (EMsg "missing location header from client tts")))
      else Ret (w, SOk url)
  end.

(** ** The connect state *)
Section put.
Context (ParseTime : string -> option Z) (time_now : Z).
Context (error_body : list Z -> option error).

Definition retry_after_default : Z := 10 * second.

(** [time.Until] of a date, [Duration] arithmetic at 64 bits. *)
Definition parseRetryAfter (h : gmap string string) : Z :=
  let v := default "" (h !! "Retry-After") in
  if decide (v = "") then retry_after_default
  else
    match Atoi v with
    | Some secs => if decide (secs <= 0) then retry_after_default else i64 (secs * second)
    | None =>
      match ParseTime v with
      | Some t => if decide (0 < t - time_now) then t - time_now else retry_after_default
      | None => retry_after_default
      end
    end.

Definition put_request (spotConnId : string) (body : list Z) : HttpRequest :=
  MkHttpRequest "PUT" ("/connect-state/v1/devices/" +:+ deviceId)%string None
    {["X-Spotify-Connection-Id" := spotConnId; "Content-Type" := "application/x-protobuf"]} (Some body) true.

Definition read_all (b : result (list Z)) : attempt (list Z) :=
  match b with Ok b => Done b | Err e => Transient (SErr e) end.

(** What decoding the error message of a refusal met, when it failed. *)
Definition decode_error (resp : Response) : option error :=
  match rs_Body resp with Ok b => error_body b | Err e => Some e end.

Definition put_attempt (spotConnId : string) (body : list Z) w : run (World T * attempt (list Z)) :=
  '(w, r) ← Request (put_request spotConnId body) w;
  match r with
  | SFail e => Ret (w, Transient e)
  | SOk resp =>
    let w := logged BodyClosed w in
    if decide (rs_Status resp <> 200) then
      match decode_error resp with
      | Some e => Ret (w, Transient (SErr (EWrap "failed reading error response" e)))
      | None =>
        if decide (rs_Status resp = 429) then Ret (w, Permanent (RateLimitedError (parseRetryAfter (rs_Header resp))))
        else if decide (400 <= rs_Status resp < 500) then Ret (w, Permanent (SErr (EMsg "put state request failed")))
        else Ret (w, Transient (SErr (EMsg "put state request failed")))
      end
    else Ret (w, read_all (rs_Body resp))
  end.

Definition PutConnectStateRaw {A} (unmarshal : list Z -> result A) (spotConnId : string) (body : list Z) w
  : run (World T * sresult A) :=
  '(w, r) ← RetryWithData (Some 2%nat) (put_attempt spotConnId body) w;
  Ret (w, match r with
          | SFail e => SFail e
          | SOk b => match unmarshal b with
                     | Ok c => SOk c
                     | Err e => SFail (SErr (EWrap "failed unmarshalling Cluster" e))
                     end
          end).

Definition PutConnectStateInactive (spotConnId : string) (notify : bool) w : run (World T * option svc_error) :=
  '(w, r) ← Request (MkHttpRequest "PUT" ("/connect-state/v1/devices/" +:+ deviceId +:+ "/inactive")%string
    (Some {["notify" := if notify then "true" else "false"]}) {["X-Spotify-Connection-Id" := spotConnId]} None true) w;
  match r with
  | SFail e => Ret (w, Some e)
  | SOk resp =>
    let w := logged BodyClosed w in
    if decide (rs_Status resp <> 204) then Ret (w, Some (SErr (EMsg "put state inactive request failed"))) else Ret (w, None)
  end.
End put.
End spclient.
