(* ===== verification/ServiceClaims.v ===== *)
(** * Requests to the services: theorems

    What a request sends and in which cases it is sent again, where the access
    token it carries comes from, that every proof of work sent is valid, and
    what a refused connect state leads to. *)

From stdpp Require Import gmap.
From S2P Require Import Prelude Ids Hashcash Service.
#[local] Open Scope string_scope.
#[local] Open Scope list_scope.
#[local] Open Scope Z_scope.

(** ** A retry policy: so many attempts *)
Fixpoint retry_times {W A} (n : nat) (f : W -> run (W * attempt A)) (w : W) : run (W * sresult A) :=
  '(w', o) ← f w;
  match o with
  | Done a => Ret (w', SOk a)
  | Permanent e => Ret (w', SFail e)
  | Transient e => match n with O => Ret (w', SFail e) | S n => retry_times n f w' end
  end.

Definition policy (m : option nat) : nat := default 5%nat m.

#[export] Instance some_retries : Retry := fun W A m f w => retry_times (policy m) f w.

Lemma retry_times_spec {W A} n (f : W -> run (W * attempt A)) : forall w,
  match retry_times n f w with
  | Ret (w', r) => exists k w1 o, tries f k w w1 /\ f w1 = Ret (w', o) /\ gives o r /\ (k <= n)%nat
  | Panic why => exists k w1, tries f k w w1 /\ f w1 = Panic why
  | OutOfFuel => exists k w1, tries f k w w1 /\ f w1 = OutOfFuel
  end.
Proof.
  assert (Hhere : forall w, tries f 0 w w) by constructor.
  induction n as [|n IH]; intros w; simpl; destruct (f w) as [[w1 [a|e|e]]|why|] eqn:Hf; simpl;
    try (eexists _, _, _; split_and!; [apply Hhere|exact Hf|constructor|lia]); try (eexists _, _; by split).
  specialize (IH w1); destruct (retry_times n f w1) as [[w' r]|why|].
  - destruct IH as (k & w2 & o & Ht & Hw & Hg & Hk); exists (S k), w2, o; split_and!; [by econstructor|done|done|lia].
  - destruct IH as (k & w2 & Ht & Hw); exists (S k), w2; split; [by econstructor|done].
  - destruct IH as (k & w2 & Ht & Hw); exists (S k), w2; split; [by econstructor|done].
Qed.

#[export] Instance some_retries_laws : RetryLaws.
Proof.
  split; intros W A m f w; intros; pose proof (retry_times_spec (policy m) f w) as Hs;
    unfold RetryWithData, some_retries in *; [|rewrite H in Hs; done..].
  rewrite H in Hs; destruct Hs as (k & w1 & o & Ht & Hf & Hg & Hk); exists k, w1, o; split_and!; try done.
  intros ? ->; done.
Qed.

(** ** Requests *)
Section requests.
Context {T : Type} `{RetryLaws}.
Context (token : bool -> T -> run (T * sresult string)).
Context (server : nat -> HttpRequest -> http_answer).
Context (clientToken : string).
Implicit Types (w : World T) (xs ys : list exchange) (t : T).

(** The request with the token it is sent with. *)
Definition authorized (req : HttpRequest) (tok : string) : HttpRequest :=
  set_header req "Authorization" ("Bearer " +:+ tok)%string.

(** Exchanges after each of which the request is sent again: each carries the
    token asked for just before it, a new one from the first refusal on. *)
Inductive repeated (rt : bool) (req : HttpRequest) : bool -> T -> list exchange -> bool -> T -> Prop :=
| rep_nil f t : repeated rt req f t [] f t
| rep_401 f t t1 tok r xs f' t' : token f t = Ret (t1, SOk tok) -> rs_Status r = 401 ->
    repeated rt req true t1 xs f' t' ->
    repeated rt req f t (Sent (authorized req tok) (HttpResponse r) :: BodyClosed :: xs) f' t'
| rep_net f t t1 tok e xs f' t' : token f t = Ret (t1, SOk tok) -> rt = true -> repeated rt req f t1 xs f' t' ->
    repeated rt req f t (Sent (authorized req tok) (HttpFail e) :: xs) f' t'
| rep_status f t t1 tok r xs f' t' : token f t = Ret (t1, SOk tok) -> rt = true ->
    isRetryableHTTPStatus (rs_Status r) = true -> repeated rt req f t1 xs f' t' ->
    repeated rt req f t (Sent (authorized req tok) (HttpResponse r) :: BodyClosed :: xs) f' t'.

(** How the last attempt ends. *)
Inductive concluded (rt : bool) (req : HttpRequest) (f : bool) (t : T) : list exchange -> T -> sresult Response -> Prop :=
| con_response t' tok r : token f t = Ret (t', SOk tok) -> rs_Status r <> 401 ->
    (rt = true -> isRetryableHTTPStatus (rs_Status r) = false) ->
    concluded rt req f t [Sent (authorized req tok) (HttpResponse r)] t' (SOk r)
| con_no_token t' e e' : token f t = Ret (t', SFail e) -> concluded rt req f t [] t' (SFail e')
| con_failed t' tok e e' : token f t = Ret (t', SOk tok) -> rt = false ->
    concluded rt req f t [Sent (authorized req tok) (HttpFail e)] t' (SFail e')
| con_given_up e' : concluded rt req f t [] t (SFail e').

Lemma repeated_app rt req f t xs f1 t1 ys f2 t2 :
  repeated rt req f t xs f1 t1 -> repeated rt req f1 t1 ys f2 t2 -> repeated rt req f t (xs ++ ys) f2 t2.
Proof. induction 1; intros Hy; simpl; [done|econstructor 2|econstructor 3|econstructor 4]; eauto. Qed.

Lemma attempt_spec rt req w f w' f' o :
  request_attempt token server rt req (w, f) = Ret ((w', f'), o) ->
  exists xs, w_log w' = w_log w ++ xs /\
    match o with
    | Transient _ => repeated rt req f (w_token w) xs f' (w_token w')
    | Done r => concluded rt req f (w_token w) xs (w_token w') (SOk r)
    | Permanent _ => forall e, concluded rt req f (w_token w) xs (w_token w') (SFail e)
    end.
Proof.
  unfold request_attempt; intros Hr; run_inv Hr; destruct a as [t1 [tok|e]]; simpl in Hr.
  2:{ simplify_eq; exists []; simpl; rewrite app_nil_r; split; [done|]; intros; by eapply con_no_token. }
  destruct (server _ _) as [e|r] eqn:Ha; simpl in Hr.
  - simplify_eq; eexists; split; [done|]; destruct rt; simpl.
    + eapply rep_net; [exact Hrun|done|constructor].
    + intros; by eapply con_failed.
  - case_decide as H401; [|destruct (rt && isRetryableHTTPStatus (rs_Status r)) eqn:Hrt]; simplify_eq; simpl.
    + eexists [_; _]; rewrite <- app_assoc; split; [done|]; eapply rep_401; [exact Hrun|done|constructor].
    + apply andb_prop in Hrt as [-> Hrt]; eexists [_; _]; rewrite <- app_assoc; split; [done|].
      eapply rep_status; [exact Hrun|done|done|constructor].
    + eexists; split; [done|]; apply con_response; [done|done|]; intros ->; by destruct (isRetryableHTTPStatus _).
Qed.

Lemma tries_spec rt req n s s' : tries (request_attempt token server rt req) n s s' ->
  exists xs, w_log s'.1 = w_log s.1 ++ xs /\ repeated rt req s.2 (w_token s.1) xs s'.2 (w_token s'.1).
Proof.
  induction 1 as [[w f]|n [w f] [w1 f1] [w2 f2] e Hf _ IH]; simpl in *.
  { exists []; rewrite app_nil_r; split; [done|constructor]. }
  apply attempt_spec in Hf as (xs & Hx & Hrep); destruct IH as (ys & Hy & Hrep').
  exists (xs ++ ys); rewrite Hy, Hx, <- app_assoc; split; [done|by eapply repeated_app].
Qed.

(** What a request did. *)
Definition performed (rt : bool) (req : HttpRequest) w w' (r : sresult Response) : Prop :=
  exists xs ys f1 t1, w_log w' = w_log w ++ xs ++ ys /\
    repeated rt req false (w_token w) xs f1 t1 /\ concluded rt req f1 t1 ys (w_token w') r.

Lemma innerRequestWith_performed rt req w w' r :
  innerRequestWith token server clientToken rt req w = Ret (w', r) -> performed rt (prepare clientToken req) w w' r.
Proof.
  unfold innerRequestWith; intros Hr; run_inv Hr; destruct a as [[w1 f1] r1]; simplify_eq.
  apply retry_returns in Hrun as (n & [w2 f2] & o & Ht & Hf & Hg & _).
  apply tries_spec in Ht as (xs & Hx & Hrep); simpl in *; apply attempt_spec in Hf as (ys & Hy & Ho).
  inversion Hg; subst.
  - exists xs, ys, f2, (w_token w2); rewrite Hy, Hx, <- app_assoc; auto.
  - exists xs, ys, f2, (w_token w2); rewrite Hy, Hx, <- app_assoc; auto.
  - exists (xs ++ ys), [], f1, (w_token w'); rewrite Hy, Hx, app_nil_r, <- app_assoc; split_and!;
      [done|by eapply repeated_app|constructor].
  - exists (xs ++ ys), [], f1, (w_token w'); rewrite Hy, Hx, app_nil_r, <- app_assoc; split_and!;
      [done|by eapply repeated_app|constructor].
Qed.

Lemma Request_status req w w' r : Request token server clientToken req w = Ret (w', SOk r) ->
  isRetryableHTTPStatus (rs_Status r) = false /\ rs_Status r <> 401.
Proof.
  intros Hr; apply innerRequestWith_performed in Hr as (xs & ys & f & t & _ & _ & Hc); inversion Hc; auto.
Qed.

Lemma innerRequestWith_returns rt req w : (forall f t, returns (token f t)) ->
  returns (innerRequestWith token server clientToken rt req w).
Proof.
  intros Htok; assert (Hstep : forall s, returns (request_attempt token server rt (prepare clientToken req) s)).
  { intros [w0 f]; unfold request_attempt; destruct (Htok f (w_token w0)) as [[t1 tok] ->]; simpl.
    repeat (case_match || case_decide); by eexists. }
  unfold innerRequestWith; destruct (RetryWithData _ _ _) as [[[w1 f1] r1]|why|] eqn:Hr; simpl; [by eexists|..].
  - apply retry_panics in Hr as (n & s & _ & Hs); destruct (Hstep s) as [x Hx]; congruence.
  - apply retry_ends in Hr as (n & s & _ & Hs); destruct (Hstep s) as [x Hx]; congruence.
Qed.
End requests.

(** ** At most once *)

(** An exchange the server may have acted on: anything but a refusal. *)
Definition acted (x : exchange) : bool :=
  match x with
  | Sent _ (HttpResponse r) => negb (bool_decide (rs_Status r = 401))
  | Sent _ (HttpFail _) => true
  | BodyClosed => false
  end.

Lemma performed_once {T} `{Retry} (token : bool -> T -> run (T * sresult string)) req (w w' : World T) r :
  performed token false req w w' r ->
  exists xs, w_log w' = w_log w ++ xs /\ (length (filter (fun x => acted x = true) xs) <= 1)%nat /\
    forall resp, r = SOk resp -> exists tok, filter (fun x => acted x = true) xs =
      [Sent (authorized req tok) (HttpResponse resp)].
Proof.
  intros (xs & ys & f1 & t1 & Hl & Hrep & Hc).
  assert (Hx : filter (fun x => acted x = true) xs = []).
  { clear -Hrep; induction Hrep; try done; rewrite !filter_cons_False; auto; simpl; by rewrite bool_decide_true. }
  exists (xs ++ ys); split; [done|]; rewrite filter_app, Hx; simpl.
  inversion Hc; subst; split; try (intros resp ?; simplify_eq); simpl; try lia; try done.
  - rewrite filter_cons; case_decide; simpl; lia.
  - rewrite filter_cons_True by (simpl; by rewrite bool_decide_false); eauto.
Qed.

(** ** Logins *)
Section logins.
Context `{RetryLaws}.
Context (now : nat -> Z) (ctxErr ctxEnd : nat -> option error).
Context (login_server : nat -> LoginRequest -> login_answer).
Context (sha1 : list Z -> list Z) (fuel : nat).
Implicit Types (l : Login5) (req : LoginRequest).

(** Only the log grows. *)
Definition asked_again req l l' : Prop :=
  l_ok l' = l_ok l /\ l_exp l' = l_exp l /\ l_clock l' = l_clock l /\
  exists new, l_log l' = l_log l ++ new /\ Forall (fun x => x.1 = req) new.

Lemma asked_again_trans req l l1 l2 : asked_again req l l1 -> asked_again req l1 l2 -> asked_again req l l2.
Proof.
  intros (A1 & A2 & A3 & n1 & A4 & A5) (B1 & B2 & B3 & n2 & B4 & B5); split_and!; try congruence.
  exists (n1 ++ n2); rewrite B4, A4, <- app_assoc; split; [done|by apply Forall_app].
Qed.

Lemma login_attempt_spec req l le l' le' o : login_attempt ctxErr login_server req (l, le) = Ret ((l', le'), o) ->
  asked_again req l l' /\ forall r, o = Done r -> last (l_log l') = Some (req, LoginBody (Ok r)).
Proof.
  unfold login_attempt, requestOnce; simpl; intros Hr; split.
  - assert (Hl : l' = MkLogin5 (l_ok l) (l_exp l) (l_clock l) (l_log l ++ [(req, login_server (length (l_log l)) req)]))
      by (destruct (login_server _ _) as [| | |[]]; congruence).
    subst l'; split_and!; try done; eexists; split; [done|by repeat constructor].
  - intros r ->; destruct (login_server _ _) as [| |code|[r'|]] eqn:Ha; simplify_eq; simpl; [|by rewrite last_snoc].
    by destruct (Retryable code).
Qed.

Lemma request_spec req l l' r : request ctxErr ctxEnd login_server req l = Ret (l', r) ->
  asked_again req l l' /\ forall a, r = SOk a -> last (l_log l') = Some (req, LoginBody (Ok a)).
Proof.
  unfold request; intros Hr; run_inv Hr; destruct a as [[l1 le] r1]; simpl in Hr.
  apply retry_returns in Hrun as (n & [l2 le2] & o & Ht & Hf & Hg & _).
  assert (Htry : asked_again req l l2).
  { clear -Ht; remember (l, None) as s eqn:Hs; remember (l2, le2) as s2 eqn:Hs2; revert l Hs.
    assert (forall l le, s = (l, le) -> asked_again req l l2); [|naive_solver].
    induction Ht as [s|n s [l1 le1] s' e Hf Ht IH]; intros l le Hs; simplify_eq.
    - split_and!; try done; exists []; by rewrite app_nil_r.
    - apply login_attempt_spec in Hf as [Hf _]; eapply asked_again_trans; [exact Hf|by eapply IH]. }
  apply login_attempt_spec in Hf as [Hf Hlast]; simplify_eq; split; [by eapply asked_again_trans|].
  intros a Ha; assert (r1 = SOk a) as -> by (destruct r1 as [a0|e]; [congruence|]; repeat case_match; done).
  inversion Hg; subst; auto.
Qed.

(** The challenges a proof of work answers. *)
Definition hashcashes (chs : list Challenge) : list (list Z * Z) :=
  omap (fun c => match c with Challenge_Hashcash prefix len => Some (prefix, len) | _ => None end) chs.

Definition proves (c : list Z * Z) (sol : list Z) : Prop := checkHashcash (sha1 (c.1 ++ sol)) c.2 = true.

Lemma solve_loop_checks n : forall prefix len suffix sol,
  solve_loop sha1 n prefix len suffix = Ret sol -> proves (prefix, len) sol.
Proof.
  induction n as [|n IH]; simpl; intros prefix len suffix sol Hs; [done|].
  destruct (checkHashcash _ _) eqn:Hc; [by simplify_eq|]; run_inv Hs; by eapply IH.
Qed.

Lemma solve_challenges_proves ctx chs : forall sols,
  solve_challenges sha1 fuel ctx chs = Ret (Some sols) -> Forall2 proves (hashcashes chs) sols.
Proof.
  induction chs as [|[prefix len| |] chs IH]; simpl; intros sols Hs; [by simplify_eq|..|done|by apply IH].
  run_inv Hs; run_inv Hs; destruct a0 as [rest|]; simplify_eq; constructor; [by eapply solve_loop_checks|auto].
Qed.

(** The exchanges of a login: the request, then perhaps its challenges' answer. *)
Record logged_in (cred : credentials) l l' (err : option svc_error) (one two : list (LoginRequest * login_answer)) : Prop := {
  li_log : l_log l' = l_log l ++ one ++ two;
  li_one : Forall (fun x => x.1 = MkLoginRequest cred [] None) one;
  li_two : two = [] \/ exists ctx chs sols,
    last one = Some (MkLoginRequest cred [] None, LoginBody (Ok (ctx, LoginResponse_Challenges chs))) /\
    Forall (fun x => x.1 = MkLoginRequest cred ctx (Some sols)) two /\ Forall2 proves (hashcashes chs) sols;
  li_result : match err with
    | Some _ => l_ok l' = l_ok l /\ l_exp l' = l_exp l
    | None => exists req ctx ok, last (one ++ two) = Some (req, LoginBody (Ok (ctx, LoginResponse_Ok ok))) /\
        l_ok l' = Some ok /\ l_exp l' = now (l_clock l) + lo_AccessTokenExpiresIn ok * second
    end
}.

Lemma last_app_r {X} (l k : list X) x : last (l ++ k) = Some x -> k <> [] -> last k = Some x.
Proof. destruct k as [|y k]; [done|]; rewrite last_app; by destruct (last (y :: k)) eqn:E; [|apply last_None in E]. Qed.

Lemma finish_login_spec resp l l' err : finish_login now resp l = (l', err) -> l_log l' = l_log l /\
  match err with
  | Some _ => l_ok l' = l_ok l /\ l_exp l' = l_exp l
  | None => exists ok, resp = LoginResponse_Ok ok /\ l_ok l' = Some ok /\
      l_exp l' = now (l_clock l) + lo_AccessTokenExpiresIn ok * second
  end.
Proof. destruct resp; simpl; intros; simplify_eq; simpl; eauto. Qed.

Lemma last_request req l l' x : asked_again req l l' -> last (l_log l') = Some x -> l_log l' <> l_log l ->
  exists new, l_log l' = l_log l ++ new /\ Forall (fun x => x.1 = req) new /\ last new = Some x.
Proof.
  intros (_ & _ & _ & new & Hl & Hf) Hx Hne; exists new; split_and!; [done|done|].
  rewrite Hl in Hx; eapply last_app_r; [exact Hx|]; intros ->; by rewrite app_nil_r in Hl.
Qed.

(** A request that got an answer made an exchange. *)
Lemma request_answered req l l' a : request ctxErr ctxEnd login_server req l = Ret (l', SOk a) ->
  l_ok l' = l_ok l /\ l_exp l' = l_exp l /\ l_clock l' = l_clock l /\
  exists new, l_log l' = l_log l ++ new /\ Forall (fun x => x.1 = req) new /\
    last new = Some (req, LoginBody (Ok a)).
Proof.
  intros Hr; assert (Hne : (length (l_log l) < length (l_log l'))%nat).
  { unfold request in Hr; run_inv Hr; destruct a0 as [[l1 le] r1]; simplify_eq.
    apply retry_returns in Hrun as (n & [l2 le2] & o & Ht & Hf & _).
    assert (length (l_log l) <= length (l_log l2))%nat.
    { clear -Ht; remember (l, None) as s eqn:Hs; remember (l2, le2) as s2 eqn:Hs2.
      change l with (l, @None (nat * svc_error)).1; rewrite <- Hs; clear l Hs.
      change l2 with (l2, le2).1; rewrite <- Hs2; clear l2 le2 Hs2.
      induction Ht as [s|n [l le] [l1 le1] s' e Hf Ht IH]; simpl in *; [lia|].
      apply login_attempt_spec in Hf as [(_ & _ & _ & new & Hl & _) _]; rewrite Hl, length_app in IH; lia. }
    unfold login_attempt, requestOnce in Hf; simpl in Hf.
    assert (l_log l' = l_log l2 ++ [(req, login_server (length (l_log l2)) req)]) as ->
      by (destruct (login_server _ _) as [| | |[]]; simplify_eq; done).
    rewrite length_app; simpl; lia. }
  apply request_spec in Hr as [Ha Hlast]; specialize (Hlast a eq_refl).
  destruct (last_request req l l' _ Ha Hlast) as (new & Hl & Hf & Hn); [intros E; rewrite E in Hne; lia|].
  destruct Ha as (A1 & A2 & A3 & _); split_and!; try done; by exists new.
Qed.

Lemma Login_spec cred l l' err : cred <> InvalidCredentials ->
  Login now ctxErr ctxEnd login_server sha1 fuel cred l = Ret (l', err) ->
  exists one two, logged_in cred l l' err one two.
Proof.
  intros Hcred Hlog.
  assert (Hlog' : ('(l, r) ← request ctxErr ctxEnd login_server (MkLoginRequest cred [] None) l;
    match r with
    | SFail e => Ret (l, Some (SWrap "failed requesting login5 endpoint" e))
    | SOk (loginContext, LoginResponse_Challenges ((_ :: _) as chs)) =>
      sols ← solve_challenges sha1 fuel loginContext chs;
      match sols with
      | None => Ret (l, Some (SErr (EMsg "login5 code challenge not supported")))
      | Some sols =>
        '(l, r) ← request ctxErr ctxEnd login_server (MkLoginRequest cred loginContext (Some sols)) l;
        match r with
        | SFail e => Ret (l, Some (SWrap "failed requesting login5 endpoint with challenge solutions" e))
        | SOk (_, resp) => Ret (finish_login now resp l)
        end
      end
    | SOk (_, resp) => Ret (finish_login now resp l)
    end) = Ret (l', err)) by (destruct cred; done).
  clear Hlog; run_inv Hlog'; destruct a as [l1 r]; destruct r as [[ctx resp]|e].
  2:{ simplify_eq; apply request_spec in Hrun as [(A1 & A2 & _ & new & A4 & A5) _].
      exists new, []; split; [by rewrite app_nil_r|done|by left|done]. }
  apply request_answered in Hrun as (A1 & A2 & A3 & new & A4 & A5 & A6).
  assert (Hfin : forall resp', resp = resp' -> finish_login now resp' l1 = (l', err) ->
    exists one two, logged_in cred l l' err one two).
  { intros ? <- Hf; apply finish_login_spec in Hf as [B1 B2]; exists new, []; split; rewrite ?app_nil_r.
    - by rewrite B1.
    - done.
    - by left.
    - destruct err; [destruct B2; split; congruence|]; destruct B2 as (ok & -> & B3 & B4).
      rewrite A3 in B4; eauto 10. }
  destruct resp as [ok|code|[|ch chs]]; [eapply Hfin; [done|simpl in *; congruence]..|]; cbn beta iota in Hlog'.
  run_inv Hlog'; destruct a as [sols|].
  2:{ simplify_eq; exists new, []; split; [by rewrite app_nil_r|done|by left|done]. }
  apply solve_challenges_proves in Hrun; run_inv Hlog'; destruct a as [l2 r].
  assert (Htwo : forall two, l_log l2 = l_log l1 ++ two ->
    Forall (fun x => x.1 = MkLoginRequest cred ctx (Some sols)) two ->
    l_log l2 = l_log l ++ new ++ two /\ (two = [] \/ exists ctx chs sols,
      last new = Some (MkLoginRequest cred [] None, LoginBody (Ok (ctx, LoginResponse_Challenges chs))) /\
      Forall (fun x => x.1 = MkLoginRequest cred ctx (Some sols)) two /\ Forall2 proves (hashcashes chs) sols)).
  { intros two Hl Hf; split; [by rewrite Hl, A4, <- app_assoc|]; right; exists ctx, (ch :: chs), sols; done. }
  destruct r as [[ctx' resp']|e].
  - apply request_answered in Hrun0 as (B1 & B2 & B3 & two & B4 & B5 & B6).
    destruct (Htwo two B4 B5) as [C1 C2]; injection Hlog' as Hf; apply finish_login_spec in Hf as [D1 D2].
    exists new, two; split; [congruence|done|done|].
    destruct err; [destruct D2; split; congruence|]; destruct D2 as (ok & -> & D3 & D4).
    exists (MkLoginRequest cred ctx (Some sols)), ctx', ok; split_and!; [|done|congruence].
    rewrite last_app, B6; done.
  - simplify_eq; apply request_spec in Hrun0 as [(B1 & B2 & _ & two & B4 & B5) _].
    destruct (Htwo two B4 B5) as [C1 C2]; exists new, two; split; [done|done|done|split; congruence].
Qed.
End logins.

(** ** Claims *)
Definition demo_token (force : bool) (t : nat) : run (nat * sresult string) :=
  Ret (if force then S t else t, SOk (if force then "new" else "old")).

(** Refuses the first token, then fails, then answers. *)
Definition demo_server (n : nat) (req : HttpRequest) : http_answer :=
  match n with
  | 0%nat => HttpResponse (MkResponse 401 ∅ (Ok []))
  | 2%nat => HttpFail net_ErrClosed
  | _ => HttpResponse (MkResponse 200 ∅ (Ok [42]))
  end.

Definition demo_world : World nat := MkWorld 0%nat [].

(** C10: A request is sent again only when that is safe.  What a request does is
    a number of exchanges after which it is sent again and one that concludes
    it: a refused token, or for an idempotent request a network error or a
    transient status, is followed by another attempt, with the body of the
    answer closed; every attempt carries the prepared request under the token
    obtained just before it, and from the first refusal on a renewed one; the
    answer handed over is neither a refusal nor, for an idempotent request, a
    transient failure.  A request that is not idempotent reaches a server that
    may have acted on it at most once. *)
Theorem requests_repeat_safely {T} `{RetryLaws} (token : bool -> T -> run (T * sresult string))
    (server : nat -> HttpRequest -> http_answer) (clientToken : string) (rt : bool) (req : HttpRequest)
    (w w' : World T) (r : sresult Response) :
  innerRequestWith token server clientToken rt req w = Ret (w', r) ->
  performed token rt (prepare clientToken req) w w' r /\
  (rt = false -> exists xs, w_log w' = w_log w ++ xs /\ (length (filter (fun x => acted x = true) xs) <= 1)%nat).
Proof.
  intros Hr; apply innerRequestWith_performed in Hr; split; [done|]; intros ->.
  destruct (performed_once _ _ _ _ _ Hr) as (xs & Hl & Hn & _); eauto.
Qed.

Lemma requests_repeat_safely_witness :
  exists w' r, innerRequestWith demo_token demo_server "" false (get "/x" None) demo_world = Ret (w', r) /\
    performed demo_token false (prepare "" (get "/x" None)) demo_world w' r /\
    (false = false -> exists xs, w_log w' = w_log demo_world ++ xs /\
      (length (filter (fun x => acted x = true) xs) <= 1)%nat).
Proof.
  eexists _, _; split; [vm_compute; reflexivity|].
  refine (requests_repeat_safely demo_token demo_server "" false (get "/x" None) demo_world _ _ _).
  vm_compute; reflexivity.
Defined.

Definition demo_ok (tok : string) : LoginOk := MkLoginOk "user" tok [7] 3600.

Definition demo_login : Login5 := MkLogin5 (Some (demo_ok "old")) (50 * second) 0 [].

(** A challenge first, then a new token. *)
Definition demo_login_server (n : nat) (req : LoginRequest) : login_answer :=
  match n with
  | 0%nat => LoginHttp 503
  | 1%nat => LoginBody (Ok ([5], LoginResponse_Challenges [Challenge_Hashcash [1] 2]))
  | _ => LoginBody (Ok ([], LoginResponse_Ok (demo_ok "new")))
  end.

(** The access token is the one of the last login, and current.  Asking for
    it gives the stored one, with nothing sent, only when no new one was asked
    for and it has not expired; otherwise the stored credential is logged in
    with, every proof of work sent meets the challenge it answers, and the
    token is that of the response, kept together with its expiry.  When the
    login fails, the token and the expiry stay as they were. *)
Theorem access_token_current `{RetryLaws} (now : nat -> Z) (ctxErr ctxEnd : nat -> option error)
    (login_server : nat -> LoginRequest -> login_answer) (sha1 : list Z -> list Z) (fuel : nat)
    (force : bool) (l l' : Login5) (r : sresult string) :
  AccessToken now ctxErr ctxEnd login_server sha1 fuel force l = Ret (l', r) ->
  exists ok, l_ok l = Some ok /\
  ((force = false /\ now (l_clock l) < l_exp l /\ r = SOk (lo_AccessToken ok) /\ l_ok l' = l_ok l /\
    l_exp l' = l_exp l /\ l_log l' = l_log l) \/
   (force = true \/ l_exp l <= now (l_clock l)) /\ exists l0 err one two,
      (l0 = l \/ l0 = tick l) /\
      logged_in now sha1 (StoredCredential (lo_Username ok) (lo_StoredCredential ok)) l0 l' err one two /\
      (forall tok, r = SOk tok -> err = None /\ exists ok', l_ok l' = Some ok' /\ tok = lo_AccessToken ok') /\
      (forall e, r = SFail e -> l_ok l' = l_ok l /\ l_exp l' = l_exp l)).
Proof.
  unfold AccessToken; destruct (l_ok l) as [ok|] eqn:Hok; [|done]; intros Hr; exists ok; split; [done|].
  destruct (negb force && bool_decide (now (l_clock l) < l_exp l)) eqn:Hc.
  { left; apply andb_prop in Hc as [Hf Ht]; apply bool_decide_eq_true in Ht; simplify_eq.
    destruct force; [done|]; by rewrite <- Hok. }
  right; split; [destruct force; [by left|right]; simpl in Hc; apply bool_decide_eq_false in Hc; lia|].
  run_inv Hr; destruct a as [l1 err]; apply Login_spec in Hrun as (one & two & Hl); [|done].
  assert (Hl0 : l_ok (if force then l else tick l) = Some ok /\ l_exp (if force then l else tick l) = l_exp l)
    by (destruct force; done).
  exists (if force then l else tick l), err, one, two; split; [destruct force; auto|].
  pose proof (li_result _ _ _ _ _ _ _ _ Hl) as Hres; destruct err as [e|].
  - simplify_eq; split_and!; [done|done|]; intros _ _; destruct Hl0, Hres; split; congruence.
  - destruct Hres as (req & ctx & ok' & _ & Hok' & _); rewrite Hok' in Hr; simplify_eq; split_and!; [done| |done].
    intros tok ?; simplify_eq; eauto.
Qed.

Lemma access_token_current_witness :
  exists l', AccessToken (fun n => Z.of_nat n * 100 * second) (fun _ => None) (fun _ => None) demo_login_server
      toy_digest 100 true demo_login = Ret (l', SOk "new") /\
  exists ok, l_ok demo_login = Some ok /\
  ((true = false /\ 0 < l_exp demo_login /\ SOk "new" = SOk (lo_AccessToken ok) /\ l_ok l' = l_ok demo_login /\
    l_exp l' = l_exp demo_login /\ l_log l' = l_log demo_login) \/
   (true = true \/ l_exp demo_login <= 0) /\ exists l0 err one two,
      (l0 = demo_login \/ l0 = tick demo_login) /\
      logged_in (fun n => Z.of_nat n * 100 * second) toy_digest
        (StoredCredential (lo_Username ok) (lo_StoredCredential ok)) l0 l' err one two /\
      (forall tok, SOk "new" = SOk tok -> err = None /\ exists ok', l_ok l' = Some ok' /\ tok = lo_AccessToken ok') /\
      (forall e, SOk "new" = SFail e -> l_ok l' = l_ok demo_login /\ l_exp l' = l_exp demo_login)).
Proof.
  eexists; split; [vm_compute; reflexivity|].
  refine (access_token_current (fun n => Z.of_nat n * 100 * second) (fun _ => None) (fun _ => None) demo_login_server
    toy_digest 100 true demo_login _ _ _); vm_compute; reflexivity.
Defined.

(** Resolving where a file is stored comes back.  The code closes a
    response it may no longer have if its own second request fails; that
    request is never made, because the answer of the first one is not the
    status it is made for.  So whenever tokens can be obtained without a
    panic, so can the answer, and a failure reports the status it had. *)
Theorem storage_resolve_returns {T A} `{RetryLaws} (token : bool -> T -> run (T * sresult string))
    (server : nat -> HttpRequest -> http_answer) (clientToken : string) (unmarshal : list Z -> result A)
    (path : string) (w : World T) :
  (forall f t, returns (token f t)) ->
  exists w' r, ResolveStorageInteractive token server clientToken unmarshal path w = Ret (w', r) /\
    forall endpoint code, r = SFail (HTTPStatusError endpoint code) -> code <> 503 /\ code <> 200.
Proof.
  intros Htok; destruct (innerRequestWith_returns token server clientToken true (get path None) w Htok) as [[w1 r] Hr].
  unfold ResolveStorageInteractive, Request; rewrite Hr; simpl; destruct r as [resp|e].
  2:{ eexists _, _; split; [done|]; intros endpoint code Hf; simplify_eq.
      unfold innerRequestWith in Hr; run_inv Hr; destruct a as [[w2 f2] r2]; destruct r2; simplify_eq. }
  apply Request_status in Hr as [Hs _].
  assert (Hne : rs_Status resp <> 503) by (intros E; rewrite E in Hs; done).
  rewrite decide_False by done; simpl; case_decide as H200; [eexists _, _; split; [done|]; intros; by simplify_eq|].
  destruct (rs_Body resp) as [b|]; [destruct (unmarshal b)|]; eexists _, _; (split; [done|]); intros; by simplify_eq.
Qed.

Lemma storage_resolve_returns_witness :
  exists w' r, ResolveStorageInteractive demo_token demo_server "" (fun b => Ok (zlen b)) "/storage" demo_world =
      Ret (w', r) /\
    forall endpoint code, r = SFail (HTTPStatusError endpoint code) -> code <> 503 /\ code <> 200.
Proof.
  apply (storage_resolve_returns demo_token demo_server "" (fun b => Ok (zlen b)) "/storage" demo_world).
  intros f t; by eexists.
Defined.

(** C40: A refused connect state is not sent again.  When the service answers a
    push with a 4xx status and an error message, the push ends there with that
    one exchange; a 429 is reported with the cooldown its header advises, which
    is positive unless the advised seconds overflow a duration. *)
Theorem refused_state_not_repeated {T A} `{RetryLaws} (token : bool -> T -> run (T * sresult string))
    (server : nat -> HttpRequest -> http_answer) (clientToken deviceId : string) (ParseTime : string -> option Z)
    (time_now : Z) (error_body : list Z -> option error) (unmarshal : list Z -> result A) (spotConnId : string)
    (body : list Z) (w w1 w' : World T) (resp : Response) (r : sresult A) :
  Request token server clientToken (put_request deviceId spotConnId body) w = Ret (w1, SOk resp) ->
  400 <= rs_Status resp < 500 -> decode_error error_body resp = None ->
  PutConnectStateRaw token server clientToken deviceId ParseTime time_now error_body unmarshal spotConnId body w =
    Ret (w', r) ->
  w' = logged BodyClosed w1 /\
  (rs_Status resp = 429 -> r = SFail (RateLimitedError (parseRetryAfter ParseTime time_now (rs_Header resp)))) /\
  ((forall s, Atoi (default "" (rs_Header resp !! "Retry-After")) = Some s -> s * second < 2 ^ 63) ->
    0 < parseRetryAfter ParseTime time_now (rs_Header resp)).
Proof.
  intros Hreq Hst Hdec Hput; apply and_assoc; split.
  { assert (Hp : exists e, put_attempt token server clientToken deviceId ParseTime time_now error_body spotConnId body w =
        Ret (logged BodyClosed w1, Permanent e) /\
        (rs_Status resp = 429 -> e = RateLimitedError (parseRetryAfter ParseTime time_now (rs_Header resp)))).
    { unfold put_attempt; rewrite Hreq; simpl; rewrite decide_True, Hdec by lia.
      repeat case_decide; try lia; eexists; (split; [done|]); done || lia. }
    destruct Hp as (e & Hp & He); unfold PutConnectStateRaw in Hput; run_inv Hput; destruct a as [w2 r2]; simplify_eq.
    apply retry_returns in Hrun as (n & w3 & o & Ht & Hf & Hg & _).
    destruct Ht as [|n ? w4 ? e' Hx]; [|congruence]; rewrite Hp in Hf; simplify_eq; inversion Hg; subst.
    split; [done|]; intros H429; by rewrite He. }
  intros Hfit; unfold parseRetryAfter, retry_after_default; case_decide; [done|].
  destruct (Atoi _) as [s|] eqn:Hs.
  - specialize (Hfit s eq_refl); case_decide; [done|]; unfold i64, swrap.
    rewrite wrap_small; unfold second in *; lia.
  - repeat (case_match || case_decide); unfold second in *; lia.
Qed.

Definition limited_server (n : nat) (req : HttpRequest) : http_answer :=
  HttpResponse (MkResponse 429 {["Retry-After" := "7"]} (Ok [1])).

Lemma refused_state_not_repeated_witness :
  exists w1 w' r, PutConnectStateRaw demo_token limited_server "" "dev" (fun _ => None) 0
      (fun b => match b with [] => Some io_EOF | _ => None end) (fun b => Ok b) "conn" [1; 2] demo_world = Ret (w', r) /\
    r = SFail (RateLimitedError (7 * second)) /\ w' = logged BodyClosed w1.
Proof.
  eexists _, _, _; split; [vm_compute; reflexivity|split; [reflexivity|]].
  refine (proj1 (refused_state_not_repeated demo_token limited_server "" "dev" (fun _ => None) 0
    (fun b => match b with [] => Some io_EOF | _ => None end) (fun b => Ok b) "conn" [1; 2] demo_world _ _
    (MkResponse 429 {["Retry-After" := "7"]} (Ok [1])) _ _ _ _ _)); [vm_compute; reflexivity|simpl; lia|reflexivity|].
  vm_compute; reflexivity.
Defined.

(** A 429 whose body is not an error message is sent again at once, twice, and
    the cooldown it advises is lost. *)
Theorem unreadable_refusal_repeated :
  exists w' e, PutConnectStateRaw demo_token
      (fun _ _ => HttpResponse (MkResponse 429 {["Retry-After" := "7"]} (Ok []))) "" "dev" (fun _ => None) 0
      (fun b => match b with [] => Some io_EOF | _ => None end) (fun b => Ok b) "conn" [1; 2] demo_world =
      Ret (w', SFail (SErr e)) /\ length (filter (fun x => acted x = true) (w_log w')) = 3%nat.
Proof. eexists _, _; split; vm_compute; reflexivity. Qed.

(** A cooldown of three hundred years is taken for a negative one. *)
Theorem retry_after_overflows :
  parseRetryAfter (fun _ => None) 0 {["Retry-After" := "9223372037"]} < 0.
Proof. vm_compute; reflexivity. Qed.
