(* ===== verification/Library.v ===== *)
(** * The user's library ([src/spclient/library_write.go], [rootlist.go],
    [src/daemon/library.go], [library_collections.go], [liked.go])

    Listing playlists with their folders, albums and artists; liked songs; and
    appending to and removing from playlists, over the request layer of
    [Service].  Marshalling is a parameter: a request is made from the message
    it carries, and the answers are unmarshalled. *)

From Stdlib Require Import Ascii String.
From stdpp Require Import gmap pretty.
From S2P Require Import Prelude Ids Hashcash Service.
#[local] Open Scope string_scope.
#[local] Open Scope list_scope.
#[local] Open Scope Z_scope.

(** ** Messages *)
Record CollectionItem := MkCollectionItem { ci_Uri : string; ci_AddedAt : Z; ci_IsRemoved : bool }.

Record CollectionPageResponse := MkPageResponse { pr_Items : list CollectionItem; pr_NextPageToken : string }.

(** What a [MetaItem] of the rootlist says of its playlist; the sizes of its
    picture are target names and URLs, [mi_Picture] is its file id in
    hexadecimal. *)
Record MetaItem := MkMeta {
  mi_Name : string;
  mi_Description : string;
  mi_OwnerUsername : string;
  mi_Length : Z;
  mi_Collaborative : bool;
  mi_CanEditItems : bool;
  mi_PictureSize : list (string * string);
  mi_Picture : string
}.

Record ListContent := MkListContent {
  lc_Revision : list Z;
  lc_Items : list string;
  lc_Metas : list MetaItem;
  lc_Truncated : bool
}.

(** [playlist4pb.Op]: append at the end, or remove by position. *)
Inductive playlist_op := OpAdd (uris : list string) | OpRem (fromIndex length : Z) (items : list string).

Record ListChanges := MkListChanges { ch_BaseRevision : list Z; ch_Op : playlist_op; ch_User : string }.

Record CollectionWriteRequest := MkCollectionWrite { cw_Username : string; cw_Set : string; cw_Items : list CollectionItem }.

Definition ErrPlaylistConflict : error := ESentinel "playlist changed concurrently".
Definition ErrForbidden : error := ESentinel "forbidden".
Definition ErrNotFound : error := ESentinel "resource not found".
Definition errPlaylistItemMoved : error := EWrap "the item is no longer at that position" ErrPlaylistConflict.

(** [errors.Is] on the errors of the services. *)
Fixpoint svc_Is (e : svc_error) (target : error) : bool :=
  match e with
  | SErr e => errors_Is e target
  | SWrap _ c => svc_Is c target
  | SWith a b => svc_Is a target || svc_Is b target
  | _ => false
  end.

Section library.
Context {T : Type} `{Retry}.
Context (token : bool -> T -> run (T * sresult string)).
Context (server : nat -> HttpRequest -> http_answer).
Context (clientToken : string).
Context (marshal_changes : ListChanges -> list Z) (marshal_write : CollectionWriteRequest -> list Z)
  (marshal_page : string -> string -> string -> Z -> list Z) (marshal_contains : string -> string -> list string -> list Z).
Context (unmarshal_list : list Z -> result ListContent) (unmarshal_page : list Z -> result CollectionPageResponse)
  (unmarshal_found : list Z -> result (list bool)).
Context (now_unix : Z).
Implicit Types w : World T.

(** ** Collections ([library_write.go]) *)
Definition collectionContentType : string := "application/vnd.collection-v2.spotify.proto".
Definition CollectionSetLikedSongs : string := "collection".
Definition CollectionSetArtists : string := "artist".

Definition collection_header : gmap string string :=
  {["Content-Type" := collectionContentType; "Accept" := collectionContentType]}.

Definition collection_item (remove : bool) (uri : string) : CollectionItem :=
  MkCollectionItem uri (if remove then 0 else now_unix) remove.

Definition CollectionWrite (username set : string) (uris : list string) (remove : bool) w : run (World T * option svc_error) :=
  let req := MkCollectionWrite username set (collection_item remove <$> uris) in
  '(w, r) ← Request token server clientToken (post "/collection/v2/write" collection_header (marshal_write req)) w;
  match r with
  | SFail e => Ret (w, Some e)
  | SOk resp =>
    let w := logged BodyClosed w in
    if decide (rs_Status resp <> 200) then Ret (w, Some (StatusError "collection write" (rs_Status resp))) else Ret (w, None)
  end.

Definition CollectionPage (username set tok : string) (limit : Z) : World T -> run (World T * sresult CollectionPageResponse) :=
  call token server clientToken (post "/collection/v2/paging" collection_header (marshal_page username set tok limit))
    (bad_status "collection paging") unmarshal_page.

Definition CollectionContains (username set : string) (uris : list string) w : run (World T * sresult (list bool)) :=
  '(w, r) ← call token server clientToken
    (post "/collection/v2/contains" collection_header (marshal_contains username set uris))
    (StatusError "collection contains") unmarshal_found w;
  match r with
  | SFail e => Ret (w, SFail e)
  | SOk found =>
    if decide (length found <> length uris)
    then Ret (w, SFail (SErr (EMsg "collection contains answered another number of items"))) else Ret (w, SOk found)
  end.

(** ** Playlists ([library_write.go]) *)
Definition playlist_path (playlist : SpotifyId) (suffix : string) : run string :=
  id ← Base62 playlist; Ret ("/playlist/v2/playlist/" +:+ id +:+ suffix)%string.

Definition list_query (decorate : string) (from length : Z) : gmap string string :=
  {["decorate" := decorate; "from" := pretty from; "length" := pretty length]}.

Definition getPlaylist (playlist : SpotifyId) (query : gmap string string) w : run (World T * sresult ListContent) :=
  path ← playlist_path playlist "";
  call token server clientToken (get path (Some query)) (StatusError "playlist") unmarshal_list w.

Definition PlaylistRevision (playlist : SpotifyId) w : run (World T * sresult (list Z)) :=
  '(w, r) ← getPlaylist playlist (list_query "revision" 0 1) w;
  Ret (w, match r with SOk c => SOk (lc_Revision c) | SFail e => SFail e end).

Definition playlistContentsPageSize : Z := 1000.
Definition playlistMaxPages : nat := 50.

(** [revision] is [None] before the first page. *)
Fixpoint contents_loop (pages : nat) (playlist : SpotifyId) (revision : option (list Z)) (uris : list string) w
  : run (World T * sresult (list Z * list string)) :=
  match pages with
  | O => Ret (w, SFail (SErr (EMsg "playlist still truncated")))
  | S pages =>
    '(w, r) ← getPlaylist playlist (list_query "revision" (zlen uris) playlistContentsPageSize) w;
    match r with
    | SFail e => Ret (w, SFail e)
    | SOk c =>
      let base := default (lc_Revision c) revision in
      if decide (base <> lc_Revision c) then Ret (w, SFail (SErr ErrPlaylistConflict))
      else
        let uris := uris ++ lc_Items c in
        if negb (lc_Truncated c) || bool_decide (lc_Items c = []) then Ret (w, SOk (base, uris))
        else contents_loop pages playlist (Some base) uris w
    end
  end.

Definition PlaylistContents (playlist : SpotifyId) : World T -> run (World T * sresult (list Z * list string)) :=
  contents_loop playlistMaxPages playlist None [].

Definition playlistChange (playlist : SpotifyId) (username : string) (revision : list Z) (op : playlist_op) w
  : run (World T * option svc_error) :=
  path ← playlist_path playlist "/changes";
  '(w, r) ← RequestOnce token server clientToken
    (post path ∅ (marshal_changes (MkListChanges revision op username))) w;
  match r with
  | SFail e => Ret (w, Some e)
  | SOk resp =>
    let w := logged BodyClosed w in
    if decide (rs_Status resp = 200) then Ret (w, None)
    else if decide (rs_Status resp = 409) then Ret (w, Some (SErr ErrPlaylistConflict))
    else Ret (w, Some (StatusError "playlist changes" (rs_Status resp)))
  end.

Definition PlaylistAppend (playlist : SpotifyId) (username : string) (revision : list Z) (uris : list string) :=
  playlistChange playlist username revision (OpAdd uris).

Definition PlaylistRemove (playlist : SpotifyId) (username : string) (revision : list Z) (uri : string) (position : Z) :=
  playlistChange playlist username revision (OpRem (i32 position) 1 [uri]).

(** ** Changing a playlist ([daemon/library.go]) *)
Definition is_conflict (err : option svc_error) : bool :=
  match err with Some e => svc_Is e ErrPlaylistConflict | None => false end.

(** [attempts] counts the attempts left after this one. *)
Fixpoint append_loop (attempts : nat) (id : SpotifyId) (username : string) (uris : list string) w
  : run (World T * option svc_error) :=
  '(w, r) ← PlaylistRevision id w;
  match r with
  | SFail e => Ret (w, Some e)
  | SOk revision =>
    '(w, err) ← PlaylistAppend id username revision uris w;
    match is_conflict err, attempts with
    | true, S attempts => append_loop attempts id username uris w
    | _, _ => Ret (w, err)
    end
  end.

Definition appendToPlaylist (username playlistUri : string) (uris : list string) w : run (World T * option svc_error) :=
  id ← SpotifyIdFromUri playlistUri;
  match id with
  | Err e => Ret (w, Some (SErr e))
  | Ok id => append_loop 1 id username uris w
  end.

(** An index the API has let through is not negative; a negative one panics. *)
Definition itemPosition (uris : list string) (uri : string) (position : option Z) : run (result Z) :=
  match position with
  | Some p =>
    if decide (p < zlen uris) then
      u ← index uris p;
      Ret (if decide (u = uri) then Ok p else Err errPlaylistItemMoved)
    else Ret (Err errPlaylistItemMoved)
  | None =>
    Ret (match list_find (eq uri) uris with
         | Some (i, _) => Ok (Z.of_nat i)
         | None => Err ErrNotFound
         end)
  end.

Fixpoint remove_loop (attempts : nat) (id : SpotifyId) (username uri : string) (position : option Z) w
  : run (World T * option svc_error) :=
  '(w, r) ← PlaylistContents id w;
  let again w err :=
    match is_conflict err, attempts with
    | true, S attempts => remove_loop attempts id username uri position w
    | _, _ => Ret (w, err)
    end in
  match r with
  | SFail e => again w (Some e)
  | SOk (revision, uris) =>
    pos ← itemPosition uris uri position;
    match pos with
    | Err e => Ret (w, Some (SErr e))
    | Ok i => '(w, err) ← PlaylistRemove id username revision uri i w; again w err
    end
  end.

Definition removeFromPlaylist (username playlistUri uri : string) (position : option Z) w
  : run (World T * option svc_error) :=
  id ← SpotifyIdFromUri playlistUri;
  match id with
  | Err e => Ret (w, Some (SErr e))
  | Ok id => remove_loop 1 id username uri position w
  end.

Definition playlistContains (playlistUri : string) (uris : list string) w : run (World T * sresult (list (string * bool))) :=
  id ← SpotifyIdFromUri playlistUri;
  match id with
  | Err e => Ret (w, SFail (SErr e))
  | Ok id =>
    '(w, r) ← PlaylistContents id w;
    Ret (w, match r with
            | SFail e => SFail e
            | SOk (_, items) => SOk ((fun uri => (uri, bool_decide (uri ∈ items))) <$> uris)
            end)
  end.

(** [errors.As] with a [StatusError]. *)
Fixpoint status_of (e : svc_error) : option Z :=
  match e with
  | StatusError _ code => Some code
  | SWrap _ c => status_of c
  | SWith a b => match status_of a with Some s => Some s | None => status_of b end
  | _ => None
  end.

Definition libraryError (what : string) (e : svc_error) : svc_error :=
  match status_of e with
  | Some 403 => SWrap what (SWith (SErr ErrForbidden) e)
  | Some 404 => SWrap what (SWith (SErr ErrNotFound) e)
  | _ => SWrap what e
  end.

(** [ApiRequestTypePlaylistAddTracks] and [ApiRequestTypePlaylistRemoveTrack]:
    the listings to drop, and the error. *)
Definition after_change (what playlistUri : string) (r : World T * option svc_error) : World T * (list string * option svc_error) :=
  (r.1, match r.2 with Some e => ([], Some (libraryError what e)) | None => ([playlistUri], None) end).

Definition addTracks (username playlistUri : string) (uris : list string) w : run (World T * (list string * option svc_error)) :=
  r ← appendToPlaylist username playlistUri uris w; Ret (after_change "failed appending to playlist" playlistUri r).

Definition removeTrack (username playlistUri uri : string) (position : option Z) w
  : run (World T * (list string * option svc_error)) :=
  r ← removeFromPlaylist username playlistUri uri position w;
  Ret (after_change "failed removing from playlist" playlistUri r).

(** ** Liked songs ([liked.go]) *)
Fixpoint canonical_uris (uris : list string) : run (result (list string)) :=
  match uris with
  | [] => Ret (Ok [])
  | uri :: uris =>
    id ← SpotifyIdFromUri uri;
    match id with
    | Err e => Ret (Err (EWrap "invalid track uri" e))
    | Ok id =>
      u ← Uri id;
      rest ← canonical_uris uris;
      Ret (match rest with Ok us => Ok (u :: us) | Err e => Err e end)
    end
  end.

(** The answer has as many entries as were asked for. *)
Definition likedStates (username : string) (uris : list string) w : run (World T * sresult (list (string * bool))) :=
  c ← canonical_uris uris;
  match c with
  | Err e => Ret (w, SFail (SErr e))
  | Ok canonical =>
    '(w, r) ← CollectionContains username CollectionSetLikedSongs canonical w;
    Ret (w, match r with SOk found => SOk (zip uris found) | SFail e => SFail e end)
  end.

Definition likedSongsContextUris (username : string) : list string :=
  [("spotify:user:" +:+ username +:+ ":collection")%string; "spotify:collection:tracks"].

(** [ApiRequestTypeSetLiked]: the listings to drop, and the error. *)
Definition setLiked (username : string) (uris : list string) (liked : bool) w
  : run (World T * (list string * option svc_error)) :=
  '(w, err) ← CollectionWrite username CollectionSetLikedSongs uris (negb liked) w;
  Ret (w, match err with
          | Some e => ([], Some (libraryError "failed writing liked songs" e))
          | None => (likedSongsContextUris username, None)
          end).

(** ** Albums and artists ([library_collections.go]) *)
Definition collectionPageSize : Z := 500.
Definition collectionMaxPages : nat := 100.

(** [slices.SortStableFunc], most recently added first. *)
Fixpoint insert_newest (x : CollectionItem) (l : list CollectionItem) : list CollectionItem :=
  match l with
  | [] => [x]
  | y :: l' => if decide (ci_AddedAt y <= ci_AddedAt x) then x :: l else y :: insert_newest x l'
  end.

Definition sort_newest (l : list CollectionItem) : list CollectionItem := foldr insert_newest [] l.

Definition newestUris (items : list CollectionItem) (prefix : string) : list string :=
  ci_Uri <$> sort_newest (filter (fun i => negb (ci_IsRemoved i) && has_prefix prefix (ci_Uri i) = true) items).

Fixpoint collection_loop (pages : nat) (username set prefix tok : string) (items : list CollectionItem) w
  : run (World T * sresult (list string)) :=
  match pages with
  | O => Ret (w, SFail (SErr (EMsg "collection set still paging")))
  | S pages =>
    '(w, r) ← CollectionPage username set tok collectionPageSize w;
    match r with
    | SFail e => Ret (w, SFail e)
    | SOk p =>
      let items := items ++ pr_Items p in
      if decide (pr_NextPageToken p = "") then Ret (w, SOk (newestUris items prefix))
      else collection_loop pages username set prefix (pr_NextPageToken p) items w
    end
  end.

Definition fetchCollectionUris (username set prefix : string) : World T -> run (World T * sresult (list string)) :=
  collection_loop collectionMaxPages username set prefix "" [].

(** ** The rootlist ([rootlist.go], [daemon/library.go]) *)
Definition rootlistDecorations : string := "revision,attributes,length,owner,capabilities".
Definition rootlistPageSize : Z := 500.
Definition rootlistMaxPages : nat := 20.

(** [PathEscape] of the user name is left to the transport. *)
Definition Rootlist (username : string) (from length : Z) : World T -> run (World T * sresult ListContent) :=
  call token server clientToken
    (get ("/playlist/v2/user/" +:+ username +:+ "/rootlist")%string (Some (list_query rootlistDecorations from length)))
    (bad_status "rootlist") unmarshal_list.

Definition rootlistStartGroupPrefix : string := "spotify:start-group:".
Definition rootlistEndGroupPrefix : string := "spotify:end-group:".
End library.

(** ** Folders ([daemon/library.go]) *)
Definition hex_digit (c : ascii) : option N :=
  let n := N_of_ascii c in
  if decide (48 <= n <= 57)%N then Some (n - 48)%N
  else if decide (65 <= n <= 70)%N then Some (n - 55)%N
  else if decide (97 <= n <= 102)%N then Some (n - 87)%N
  else None.

(** [url.QueryUnescape]: [None] for its error. *)
Fixpoint QueryUnescape (s : string) : option string :=
  match s with
  | EmptyString => Some EmptyString
  | String "%" (String a (String b s)) =>
    match hex_digit a, hex_digit b with
    | Some x, Some y => s ← QueryUnescape s; Some (String (ascii_of_N (x * 16 + y)) s)
    | _, _ => None
    end
  | String "%" _ => None
  | String "+" s => s ← QueryUnescape s; Some (String " " s)
  | String c s => s ← QueryUnescape s; Some (String c s)
  end.

(** [strings.TrimPrefix], for a string that has the prefix. *)
Definition after_prefix (p s : string) : string :=
  string_of_list_ascii (drop (String.length p) (list_ascii_of_string s)).

(** What [strings.Cut(s, ":")] finds after the first colon. *)
Fixpoint after_colon (s : string) : string :=
  match s with
  | EmptyString => EmptyString
  | String c s => if decide (c = ":"%char) then s else after_colon s
  end.

Definition rootlistFolderName (uri : string) : string :=
  let rest := after_colon (after_prefix rootlistStartGroupPrefix uri) in
  default rest (QueryUnescape rest).

Definition imageUrlPrefix : string := "https://i.scdn.co/image/".

(** The first size named default, else the first with a URL. *)
Fixpoint picture_url (sizes : list (string * string)) (first : string) : option string :=
  match sizes with
  | [] => if decide (first = "") then None else Some first
  | (target, url) :: sizes =>
    if decide (url = "") then picture_url sizes first
    else if decide (target = "default") then Some url
    else picture_url sizes (if decide (first = "") then url else first)
  end.

Definition playlistImageUrl (m : MetaItem) : option string :=
  match picture_url (mi_PictureSize m) "" with
  | Some u => Some u
  | None => if decide (mi_Picture m = "") then None else Some (imageUrlPrefix +:+ mi_Picture m)%string
  end.

Record ApiLibraryPlaylist := MkApiPlaylist {
  ap_Uri : string;
  ap_Name : string;
  ap_Description : string;
  ap_OwnerUsername : string;
  ap_Length : Z;
  ap_ImageUrl : option string;
  ap_Collaborative : bool;
  ap_CanEdit : bool;
  ap_Folder : list string
}.

Definition libraryPlaylist (uri : string) (m : MetaItem) (folders : list string) : ApiLibraryPlaylist :=
  MkApiPlaylist uri (mi_Name m) (mi_Description m) (mi_OwnerUsername m) (mi_Length m) (playlistImageUrl m)
    (mi_Collaborative m) (mi_CanEditItems m) folders.

(** [items] and [metas] side by side; the code indexes the second by the first. *)
Fixpoint flatten_loop (entries : list (string * MetaItem)) (folders : list string) : list ApiLibraryPlaylist :=
  match entries with
  | [] => []
  | (uri, m) :: entries =>
    if has_prefix rootlistStartGroupPrefix uri then flatten_loop entries (folders ++ [rootlistFolderName uri])
    else if has_prefix rootlistEndGroupPrefix uri then flatten_loop entries (take (length folders - 1) folders)
    else if has_prefix "spotify:playlist:" uri then libraryPlaylist uri m folders :: flatten_loop entries folders
    else flatten_loop entries folders
  end.

Definition flattenRootlist (items : list string) (metas : list MetaItem) : list ApiLibraryPlaylist :=
  flatten_loop (zip items metas) [].

Section listing.
Context {T : Type} `{Retry}.
Context (token : bool -> T -> run (T * sresult string)) (server : nat -> HttpRequest -> http_answer) (clientToken : string).
Context (unmarshal_list : list Z -> result ListContent).

Fixpoint rootlist_loop (pages : nat) (username : string) (items : list string) (metas : list MetaItem) (w : World T)
  : run (World T * sresult (list ApiLibraryPlaylist)) :=
  match pages with
  | O => Ret (w, SFail (SErr (EMsg "rootlist still truncated")))
  | S pages =>
    '(w, r) ← Rootlist token server clientToken unmarshal_list username (zlen items) rootlistPageSize w;
    match r with
    | SFail e => Ret (w, SFail e)
    | SOk c =>
      if decide (length (lc_Metas c) <> length (lc_Items c))
      then Ret (w, SFail (SErr (EMsg "rootlist page has another number of meta items")))
      else
        let items := items ++ lc_Items c in
        let metas := metas ++ lc_Metas c in
        if negb (lc_Truncated c) || bool_decide (lc_Items c = []) then Ret (w, SOk (flattenRootlist items metas))
        else rootlist_loop pages username items metas w
    end
  end.

Definition fetchLibraryPlaylists (username : string) : World T -> run (World T * sresult (list ApiLibraryPlaylist)) :=
  rootlist_loop rootlistMaxPages username [] [].
End listing.

(** ** Pages *)
Definition pageBounds (n offset limit : Z) : Z * Z :=
  let start := Z.min offset n in (start, Z.min (i64 (start + limit)) n).

Definition slice {A} (l : list A) (a b : Z) : run (list A) :=
  if decide (0 <= a <= b /\ b <= zlen l) then Ret (sliceZ a b l) else Panic "slice bounds out of range".

Definition pageLibraryPlaylists {A} (playlists : list A) (offset limit : Z) : run (list A) :=
  let '(start, stop) := pageBounds (zlen playlists) offset limit in slice playlists start stop.

(** ** What the API lets through ([daemon/api_server.go]) *)
Definition libraryPlaylistsDefaultLimit : Z := 50.
Definition libraryPlaylistsMaxLimit : Z := 500.
Definition maxLibraryUris : Z := 50.

(** [None] is a bad request. *)
Definition handleLibraryPage (offset : Z) (limit : option Z) : option (Z * Z) :=
  let limit := default libraryPlaylistsDefaultLimit limit in
  if decide (offset < 0 \/ limit < 1 \/ libraryPlaylistsMaxLimit < limit) then None else Some (offset, limit).

Fixpoint all_of_types (types : list SpotifyIdType) (uris : list string) : run bool :=
  match uris with
  | [] => Ret true
  | uri :: uris =>
    id ← SpotifyIdFromUri uri;
    match id with
    | Err _ => Ret false
    | Ok id => if decide (id_typ id ∈ types) then all_of_types types uris else Ret false
    end
  end.

Definition validItemUris (uris : list string) (types : list SpotifyIdType) : run bool :=
  if decide (uris = [] \/ maxLibraryUris < zlen uris) then Ret false else all_of_types types uris.

Definition validPlaylistUri (uri : string) : run bool :=
  id ← SpotifyIdFromUri uri;
  Ret (match id with Ok id => bool_decide (id_typ id = SpotifyIdTypePlaylist) | Err _ => false end).

(** Whether the request to remove a track goes on. *)
Definition PlaylistRemoveTrack (playlistUri uri : string) (position : option Z) : run bool :=
  p ← validPlaylistUri playlistUri;
  if p : bool then
    u ← validItemUris [uri] [SpotifyIdTypeTrack; SpotifyIdTypeEpisode];
    Ret (u && match position with Some pos => bool_decide (0 <= pos) | None => true end)
  else Ret false.

(** Whether the request to append tracks goes on. *)
Definition PlaylistAddTracks (playlistUri : string) (uris : list string) : run bool :=
  u ← validItemUris uris [SpotifyIdTypeTrack; SpotifyIdTypeEpisode];
  if u : bool then validPlaylistUri playlistUri else Ret false.
