(* ===== verification/LibraryClaims.v ===== *)
(** * The user's library: theorems

    A change to a playlist is applied at most once and to the contents it was
    based on, a playlist is read in full, folders come out as they are nested,
    and every page the API lets through exists. *)

From Stdlib Require Import Ascii String.
From stdpp Require Import gmap pretty.
From S2P Require Import Prelude Ids Hashcash Service ServiceClaims Library.
#[local] Open Scope string_scope.
#[local] Open Scope list_scope.
#[local] Open Scope Z_scope.

(** An exchange that may have changed the playlist: one that was neither
    refused nor in conflict with another change. *)
Definition applied (x : exchange) : bool :=
  match x with
  | Sent req (HttpResponse r) =>
    bool_decide (hq_Method req = "POST") && bool_decide (rs_Status r <> 401) && bool_decide (rs_Status r <> 409)
  | Sent req (HttpFail _) => bool_decide (hq_Method req = "POST")
  | BodyClosed => false
  end.

Definition changes (xs : list exchange) : list exchange := filter (fun x => applied x = true) xs.

Section changes.
Context {T : Type} `{RetryLaws}.
Context (token : bool -> T -> run (T * sresult string)).
Context (server : nat -> HttpRequest -> http_answer).
Context (clientToken : string).
Context (marshal_changes : ListChanges -> list Z) (unmarshal_list : list Z -> result ListContent).
Implicit Types (w : World T) (xs : list exchange).

Lemma changes_app xs ys : changes (xs ++ ys) = changes xs ++ changes ys.
Proof. apply filter_app. Qed.

Lemma prepare_method req : hq_Method (prepare clientToken req) = hq_Method req.
Proof. unfold prepare; repeat case_match; repeat case_decide; done. Qed.

(** What is not a POST changes nothing. *)
Lemma performed_reads rt req w w' r : hq_Method req <> "POST" -> performed token rt req w w' r ->
  exists xs, w_log w' = w_log w ++ xs /\ changes xs = [].
Proof.
  intros Hm (xs & ys & f1 & t1 & Hl & Hrep & Hc); exists (xs ++ ys); split; [done|].
  assert (Hno : forall tok a, applied (Sent (authorized req tok) a) = false).
  { intros tok [e|resp]; simpl; by rewrite bool_decide_false. }
  assert (Hone : forall tok a zs, changes (Sent (authorized req tok) a :: zs) = changes zs).
  { intros; unfold changes; by rewrite filter_cons_False by (by rewrite Hno). }
  assert (Hclose : forall zs, changes (BodyClosed :: zs) = changes zs) by (intros; unfold changes; by rewrite filter_cons_False).
  rewrite changes_app; apply app_nil.
  split; [clear -Hrep Hone Hclose; induction Hrep; rewrite ?Hone, ?Hclose; done|].
  inversion Hc; subst; rewrite ?Hone; done.
Qed.

(** A read through [call]. *)
Lemma call_reads {A} req bad (unmarshal : list Z -> result A) w w' r : hq_Method req <> "POST" ->
  call token server clientToken req bad unmarshal w = Ret (w', r) -> exists xs, w_log w' = w_log w ++ xs /\ changes xs = [].
Proof.
  intros Hm Hc; unfold call in Hc; run_inv Hc; destruct a as [w1 r1]; apply innerRequestWith_performed in Hrun.
  apply performed_reads in Hrun as (xs & Hx & Hn); [|by rewrite prepare_method].
  destruct r1 as [resp|e]; [|simplify_eq; eauto].
  assert (w' = logged BodyClosed w1) as -> by (repeat (case_decide || case_match); simplify_eq; done).
  exists (xs ++ [BodyClosed]); simpl; rewrite Hx, <- app_assoc, changes_app, Hn; done.
Qed.

Lemma getPlaylist_reads id q w w' r :
  getPlaylist token server clientToken unmarshal_list id q w = Ret (w', r) ->
  exists xs, w_log w' = w_log w ++ xs /\ changes xs = [].
Proof. unfold getPlaylist; intros Hg; run_inv Hg; by eapply call_reads in Hg. Qed.

Lemma PlaylistRevision_reads id w w' r : PlaylistRevision token server clientToken unmarshal_list id w = Ret (w', r) ->
  exists xs, w_log w' = w_log w ++ xs /\ changes xs = [].
Proof.
  unfold PlaylistRevision; intros Hg; run_inv Hg; destruct a as [w1 r1]; simplify_eq; by eapply getPlaylist_reads.
Qed.

Lemma reads_trans w w1 w2 : (exists xs, w_log w1 = w_log w ++ xs /\ changes xs = []) ->
  (exists xs, w_log w2 = w_log w1 ++ xs /\ changes xs = []) -> exists xs, w_log w2 = w_log w ++ xs /\ changes xs = [].
Proof.
  intros (xs & Hx & Hn) (ys & Hy & Hm); exists (xs ++ ys); rewrite Hy, Hx, <- app_assoc, changes_app, Hn; done.
Qed.

Lemma contents_reads pages : forall id rev uris w w' r,
  contents_loop token server clientToken unmarshal_list pages id rev uris w = Ret (w', r) ->
  exists xs, w_log w' = w_log w ++ xs /\ changes xs = [].
Proof.
  induction pages as [|pages IH]; simpl; intros id rev uris w w' r Hc.
  { simplify_eq; exists []; by rewrite app_nil_r. }
  run_inv Hc; destruct a as [w1 [c|e]]; apply getPlaylist_reads in Hrun; [|by simplify_eq].
  case_decide; [by simplify_eq|]; case_match; [by simplify_eq|]; eapply reads_trans; [exact Hrun|by eapply IH].
Qed.

(** The request a change is. *)
Definition change_request (path username : string) (revision : list Z) (op : playlist_op) : HttpRequest :=
  prepare clientToken (post path ∅ (marshal_changes (MkListChanges revision op username))).

(** Neither the network nor the login reports the error this package names a
    conflict with. *)
Definition no_false_conflicts : Prop :=
  (forall n req e, server n req = HttpFail e -> errors_Is e ErrPlaylistConflict = false) /\
  (forall f t t' e, token f t = Ret (t', SFail e) -> svc_Is e ErrPlaylistConflict = false).

Lemma request_error rt req w w' e : no_false_conflicts ->
  innerRequestWith token server clientToken rt req w = Ret (w', SFail e) -> svc_Is e ErrPlaylistConflict = false.
Proof.
  intros [Hnet Htok] Hr; unfold innerRequestWith in Hr; run_inv Hr; destruct a as [[w1 f1] [r1|e1]]; simplify_eq; simpl.
  apply retry_returns in Hrun as (n & [w2 f2] & o & _ & Hf & Hg & _).
  assert (Ho : forall e, o = Transient e \/ o = Permanent e -> svc_Is e ErrPlaylistConflict = false).
  { intros e Ho; unfold request_attempt in Hf; run_inv Hf; destruct a as [t1 [tok|e2]]; simpl in Hf.
    2:{ simplify_eq; destruct Ho as [|]; simplify_eq; simpl; by eapply Htok. }
    destruct (server _ _) as [e2|resp] eqn:Ha; [apply Hnet in Ha; destruct rt; destruct Ho; by simplify_eq|].
    repeat (case_decide || case_match); destruct Ho; by simplify_eq. }
  inversion Hg; subst; auto; simpl; naive_solver.
Qed.

Lemma changes_acted xs : changes xs = changes (filter (fun x => acted x = true) xs).
Proof.
  unfold changes; induction xs as [|x xs IH]; [done|]; rewrite !filter_cons.
  destruct x as [rq [e|resp]|]; simpl; repeat case_decide; simpl; rewrite ?filter_cons; simpl; repeat case_decide;
    try done; try (by f_equal); exfalso; repeat case_bool_decide; simpl in *; done.
Qed.

(** One change: what it may have applied, with the answer it got. *)
Lemma playlistChange_once id username revision op w w' err : no_false_conflicts ->
  playlistChange token server clientToken marshal_changes id username revision op w = Ret (w', err) ->
  exists xs, w_log w' = w_log w ++ xs /\ (length (changes xs) <= 1)%nat /\
    (is_conflict err = true -> changes xs = []) /\
    (err = None -> exists path tok resp, rs_Status resp = 200 /\
      changes xs = [Sent (authorized (change_request path username revision op) tok) (HttpResponse resp)]).
Proof.
  intros Hnc; unfold playlistChange; intros Hc; run_inv Hc; rename a into path; run_inv Hc; destruct a as [w1 r].
  pose proof Hrun0 as Hperf; apply innerRequestWith_performed in Hperf; pose proof Hperf as Hstatus.
  apply performed_once in Hperf as (xs & Hx & Hn & Hok).
  assert (Hlen : (length (changes xs) <= 1)%nat).
  { rewrite changes_acted; etrans; [apply length_filter|done]. }
  destruct r as [resp|e].
  2:{ simplify_eq; exists xs; split_and!; try done; simpl; intros Hx'.
      by rewrite (request_error _ _ _ _ _ Hnc Hrun0) in Hx'. }
  destruct (Hok resp eq_refl) as [tok Hf]; fold (change_request path username revision op) in Hf; destruct Hstatus as (zs & ys & f1 & t1 & _ & _ & Hcon).
  assert (H401 : rs_Status resp <> 401) by (by inversion Hcon).
  assert (Hreq : hq_Method (authorized (change_request path username revision op) tok) = "POST")
    by (unfold authorized; simpl; apply prepare_method).
  assert (w' = logged BodyClosed w1) as -> by (repeat case_decide; simplify_eq; done).
  exists (xs ++ [BodyClosed]); simpl; rewrite Hx, <- app_assoc; split; [done|].
  assert (Hch : changes (xs ++ [BodyClosed]) = changes xs) by (rewrite changes_app; unfold changes at 2; simpl; by rewrite app_nil_r).
  rewrite Hch; rewrite changes_acted, Hf in *; split; [done|]; unfold changes; rewrite filter_cons, filter_nil.
  assert (Happ : applied (Sent (authorized (change_request path username revision op) tok) (HttpResponse resp)) =
    bool_decide (rs_Status resp <> 409)) by (cbn [applied]; by rewrite (bool_decide_true _ Hreq), (bool_decide_true _ H401)).
  rewrite Happ; destruct (decide (rs_Status resp = 200)) as [H200|H200].
  { simplify_eq; split; [done|]; intros _; exists path, tok, resp; rewrite bool_decide_true by lia; done. }
  destruct (decide (rs_Status resp = 409)) as [H409|H409]; simplify_eq; split; try done.
  intros _; by rewrite bool_decide_false by lia.
Qed.

(** A run of attempts that may have applied one change at most; when it went
    well, exactly the one built by [made] from what was read just before it. *)
Definition changed_once (made : playlist_op -> list Z -> World T -> Prop) (username : string) w w'
    (err : option svc_error) : Prop :=
  exists xs, w_log w' = w_log w ++ xs /\ (length (changes xs) <= 1)%nat /\
    (err = None -> exists op revision w1 path tok resp, made op revision w1 /\ rs_Status resp = 200 /\
      changes xs = [Sent (authorized (change_request path username revision op) tok) (HttpResponse resp)]).

Lemma changed_once_reads made username w w1 w2 err :
  (exists xs, w_log w1 = w_log w ++ xs /\ changes xs = []) -> changed_once made username w1 w2 err ->
  changed_once made username w w2 err.
Proof.
  intros (xs & Hx & Hn) (ys & Hy & Hl & Hok); exists (xs ++ ys); rewrite Hy, Hx, <- app_assoc, changes_app, Hn; auto.
Qed.

Lemma changed_none made username w w' e : (exists xs, w_log w' = w_log w ++ xs /\ changes xs = []) ->
  changed_once made username w w' (Some e).
Proof. intros (xs & Hx & Hn); exists xs; rewrite Hn; split_and!; [done|simpl; lia|done]. Qed.

(** A change, and what follows a conflict. *)
Lemma changed_step made username id revision op w w1 w' err err' :
  no_false_conflicts -> (forall w0, w0 = w -> made op revision w0) ->
  playlistChange token server clientToken marshal_changes id username revision op w = Ret (w1, err) ->
  (w1 = w' /\ err = err') \/ (is_conflict err = true /\ changed_once made username w1 w' err') ->
  changed_once made username w w' err'.
Proof.
  intros Hnc Hm Hc Hnext; apply playlistChange_once in Hc as (xs & Hx & Hl & Hcon & Hok); [|done].
  destruct Hnext as [[-> ->]|[Hconf Hn]]; [|eapply changed_once_reads; [|exact Hn]; eauto].
  exists xs; split_and!; [done|done|]; intros He; destruct (Hok He) as (path & tok & resp & H200 & Hch).
  exists op, revision, w, path, tok, resp; auto.
Qed.

(** What an append is made from: the revision read just before. *)
Definition append_made (id : SpotifyId) (uris : list string) (op : playlist_op) (revision : list Z) (w : World T) : Prop :=
  op = OpAdd uris /\ exists w0, PlaylistRevision token server clientToken unmarshal_list id w0 = Ret (w, SOk revision).

Lemma append_loop_once id username uris attempts : no_false_conflicts -> forall w w' err,
  append_loop token server clientToken marshal_changes unmarshal_list attempts id username uris w = Ret (w', err) ->
  changed_once (append_made id uris) username w w' err.
Proof.
  intros Hnc; induction attempts as [|attempts IH]; intros w w' err Ha; cbn [append_loop] in Ha;
    run_inv Ha; destruct a as [w1 [revision|e]];
    try (simplify_eq; by apply changed_none, PlaylistRevision_reads in Hrun || by eapply changed_none, PlaylistRevision_reads);
    pose proof Hrun as Hread; apply PlaylistRevision_reads in Hread; run_inv Ha; destruct a as [w2 err2];
    (eapply changed_once_reads; [exact Hread|]); eapply changed_step; try exact Hrun0; try done;
    try (intros ? ->; split; [done|by eexists]).
  - left; destruct (is_conflict err2); by simplify_eq.
  - destruct (is_conflict err2) eqn:Hc; [right; auto|left; by simplify_eq].
Qed.

(** What a removal is made from: the contents read just before. *)
Definition remove_made (id : SpotifyId) (uri : string) (position : option Z) (op : playlist_op) (revision : list Z)
    (w : World T) : Prop :=
  exists w0 uris i, PlaylistContents token server clientToken unmarshal_list id w0 = Ret (w, SOk (revision, uris)) /\
    nthZ uris i = Some uri /\ op = OpRem (i32 i) 1 [uri] /\
    match position with Some p => i = p | None => uri ∉ takeZ i uris end.

Lemma itemPosition_spec uris uri position i : itemPosition uris uri position = Ret (Ok i) ->
  nthZ uris i = Some uri /\ match position with Some p => i = p | None => uri ∉ takeZ i uris end.
Proof.
  unfold itemPosition; destruct position as [p|].
  - case_decide; [|done]; intros Hp; run_inv Hp; apply index_Ret in Hrun; case_decide; simplify_eq; done.
  - destruct (list_find (eq uri) uris) as [[k y]|] eqn:Hk; intros; simplify_eq.
    apply list_find_Some in Hk as (Hk & <- & Hno); unfold nthZ, takeZ; rewrite decide_True, Nat2Z.id by lia.
    split; [done|]; intros (j & Hj)%list_elem_of_lookup.
    assert (j < k)%nat by (apply lookup_lt_Some in Hj; rewrite length_take in Hj; lia).
    rewrite lookup_take_lt in Hj by done; by eapply Hno.
Qed.

Lemma remove_loop_once id username uri position attempts : no_false_conflicts -> forall w w' err,
  remove_loop token server clientToken marshal_changes unmarshal_list attempts id username uri position w = Ret (w', err) ->
  changed_once (remove_made id uri position) username w w' err.
Proof.
  intros Hnc; induction attempts as [|attempts IH]; intros w w' err Ha; cbn [remove_loop] in Ha;
    run_inv Ha; destruct a as [w1 [[revision uris]|e]]; pose proof Hrun as Hread; apply contents_reads in Hread.
  2:{ destruct (svc_Is e ErrPlaylistConflict); simplify_eq; by apply changed_none. }
  3:{ destruct (svc_Is e ErrPlaylistConflict); [eapply changed_once_reads; [exact Hread|auto]|simplify_eq; by apply changed_none]. }
  all: run_inv Ha; destruct a as [i|e]; [|simplify_eq; by apply changed_none].
  all: apply itemPosition_spec in Hrun0 as [Hi Hp]; run_inv Ha; destruct a as [w2 err2].
  all: eapply changed_once_reads; [exact Hread|]; eapply changed_step; try exact Hrun0; try done.
  all: try (intros ? ->; by exists w, uris, i).
  - left; destruct (is_conflict err2); by simplify_eq.
  - destruct (is_conflict err2) eqn:Hc; [right; auto|left; by simplify_eq].
Qed.
End changes.

(** ** Reading a playlist in full *)
Section contents.
Context {T : Type} `{Retry}.
Context (token : bool -> T -> run (T * sresult string)) (server : nat -> HttpRequest -> http_answer) (clientToken : string).
Context (unmarshal_list : list Z -> result ListContent).

(** The service holds [items] at [rev] and answers with pages of at least [k]
    of them, telling whether there are more. *)
Definition holds_playlist (id : SpotifyId) (rev : list Z) (items : list string) (k : nat) : Prop :=
  forall w n, (n <= length items)%nat -> exists w' c,
    getPlaylist token server clientToken unmarshal_list id (list_query "revision" (Z.of_nat n) playlistContentsPageSize) w =
      Ret (w', SOk c) /\ lc_Revision c = rev /\
    exists m, lc_Items c = take m (drop n items) /\ (Nat.min k (length items - n) <= m)%nat /\
      lc_Truncated c = bool_decide (n + m < length items)%nat.

Lemma contents_full id rev items k (pages : nat) : holds_playlist id rev items k -> (0 < k)%nat ->
  forall n r w, (n <= length items)%nat -> (r = None \/ r = Some rev) -> (length items - n < pages * k)%nat ->
  exists w', contents_loop token server clientToken unmarshal_list pages id r (take n items) w = Ret (w', SOk (rev, items)).
Proof.
  intros Hs Hk; induction pages as [|pages IH]; intros n r w Hn Hr Hp; [lia|]; simpl.
  unfold zlen; rewrite length_take, Nat.min_l by done.
  destruct (Hs w n Hn) as (w1 & c & -> & Hrev & m & Hitems & Hm & Ht); simpl.
  assert (default (lc_Revision c) r = rev) as -> by (destruct Hr as [-> | ->]; done).
  rewrite decide_False, Ht, Hitems, take_take_drop by (rewrite Hrev; tauto).
  case_bool_decide as Hmore; simpl.
  - rewrite bool_decide_false.
    + apply IH; [lia| |lia]; right; done.
    + intros E; apply (f_equal length) in E; rewrite length_take, length_drop in E; simpl in E; lia.
  - rewrite take_ge by lia; eauto.
Qed.
End contents.

(** ** Folders *)

(** A library: playlists and folders, each with what follows it. *)
Inductive library :=
| LNil
| LPlaylist (uri : string) (m : MetaItem) (rest : library)
| LFolder (id name : string) (m : MetaItem) (inner rest : library).

Definition no_colon (s : string) : Prop := ":"%char ∉ list_ascii_of_string s.

Fixpoint library_ok (l : library) : Prop :=
  match l with
  | LNil => True
  | LPlaylist uri _ rest => has_prefix "spotify:playlist:" uri = true /\ library_ok rest
  | LFolder id _ _ inner rest => no_colon id /\ library_ok inner /\ library_ok rest
  end.

(** [url.QueryEscape], which the service names folders with. *)
Definition unreserved (c : ascii) : bool :=
  let n := N_of_ascii c in
  bool_decide (48 <= n <= 57)%N || bool_decide (65 <= n <= 90)%N || bool_decide (97 <= n <= 122)%N ||
  bool_decide (c ∈ ["-"; "_"; "."; "~"]%char).

Definition hex_char (n : N) : ascii := ascii_of_N (if decide (n < 10)%N then 48 + n else 55 + n)%N.

Definition escape_char (c : ascii) (s : string) : string :=
  if unreserved c then String c s
  else if decide (c = " "%char) then String "+" s
  else String "%" (String (hex_char (N_of_ascii c / 16)) (String (hex_char (N_of_ascii c mod 16)) s)).

Fixpoint QueryEscape (s : string) : string :=
  match s with EmptyString => EmptyString | String c s => escape_char c (QueryEscape s) end.

Definition all_ascii : list ascii := ascii_of_nat <$> seq 0 256.

Lemma in_all_ascii c : c ∈ all_ascii.
Proof.
  apply list_elem_of_fmap; exists (nat_of_ascii c); rewrite ascii_nat_embedding; split; [done|].
  apply elem_of_seq; pose proof (nat_ascii_bounded c); lia.
Qed.

Lemma hex_chars : forallb (fun c => bool_decide (hex_digit (hex_char (N_of_ascii c / 16)) = Some (N_of_ascii c / 16)%N) &&
  bool_decide (hex_digit (hex_char (N_of_ascii c mod 16)) = Some (N_of_ascii c mod 16)%N)) all_ascii = true.
Proof. vm_compute; reflexivity. Qed.

Lemma unescape_plain c s : unreserved c = true -> QueryUnescape (String c s) = option_map (String c) (QueryUnescape s).
Proof.
  destruct c as [[] [] [] [] [] [] [] []]; intros Hu; try (by vm_compute in Hu); simpl; by destruct (QueryUnescape s).
Qed.

Lemma unescape_escape s : QueryUnescape (QueryEscape s) = Some s.
Proof.
  induction s as [|c s IH]; [done|]; simpl; unfold escape_char; destruct (unreserved c) eqn:Hu.
  { by rewrite unescape_plain, IH. }
  case_decide as Hc; [simpl; rewrite IH; by subst|].
  pose proof hex_chars as Hall; rewrite forallb_forall in Hall.
  specialize (Hall c); rewrite <- list_elem_of_In in Hall; specialize (Hall (in_all_ascii c)).
  apply andb_prop in Hall as [H1%bool_decide_eq_true H2%bool_decide_eq_true]; simpl; rewrite H1, H2, IH; simpl.
  f_equal; f_equal; rewrite <- (ascii_N_embedding c) at 3; f_equal.
  rewrite N.mul_comm; symmetry; apply N.div_mod; lia.
Qed.

Definition start_group (id name : string) : string := (rootlistStartGroupPrefix +:+ id +:+ ":" +:+ QueryEscape name)%string.
Definition end_group (id : string) : string := (rootlistEndGroupPrefix +:+ id)%string.

Fixpoint rootlist_of (l : library) : list (string * MetaItem) :=
  match l with
  | LNil => []
  | LPlaylist uri m rest => (uri, m) :: rootlist_of rest
  | LFolder id name m inner rest =>
    (start_group id name, m) :: rootlist_of inner ++ (end_group id, m) :: rootlist_of rest
  end.

Fixpoint listed (folders : list string) (l : library) : list ApiLibraryPlaylist :=
  match l with
  | LNil => []
  | LPlaylist uri m rest => libraryPlaylist uri m folders :: listed folders rest
  | LFolder _ name _ inner rest => listed (folders ++ [name]) inner ++ listed folders rest
  end.

Lemma prefix_app p s : has_prefix p (p +:+ s)%string = true.
Proof. unfold has_prefix; induction p as [|c p IH]; simpl; [by destruct s|]; by destruct (ascii_dec c c). Qed.

Lemma after_prefix_app p s : after_prefix p (p +:+ s)%string = s.
Proof.
  unfold after_prefix; induction p as [|c p IH]; [apply string_of_list_ascii_of_string|exact IH].
Qed.

Lemma after_colon_app id s : no_colon id -> after_colon (id +:+ ":" +:+ s)%string = s.
Proof.
  unfold no_colon; induction id as [|c id IH]; simpl; intros Hn; [done|].
  apply not_elem_of_cons in Hn as [Hc Hn]; rewrite decide_False by congruence; auto.
Qed.

Lemma folder_name_start id name : no_colon id -> rootlistFolderName (start_group id name) = name.
Proof.
  intros Hn; unfold rootlistFolderName, start_group; rewrite after_prefix_app, after_colon_app by done.
  by rewrite unescape_escape.
Qed.

(** The prefixes tell the three kinds of entry apart. *)
Lemma prefix_split p q s : has_prefix p s = true -> has_prefix q p = false -> has_prefix p q = false -> has_prefix q s = false.
Proof.
  unfold has_prefix; revert q s; induction p as [|c p IH]; intros [|c' q] [|c'' s]; simpl; try done.
  destruct (ascii_dec c c'') as [->|]; [|done]; destruct (ascii_dec c' c'') as [->|Hne]; [|done].
  destruct (ascii_dec c'' c''); [|done]; eauto.
Qed.

Lemma flatten_forest l : library_ok l -> forall folders rest,
  flatten_loop (rootlist_of l ++ rest) folders = listed folders l ++ flatten_loop rest folders.
Proof.
  induction l as [|uri m l IH|id name m inner IHi l IH]; intros Hok folders rest; [done|..].
  - destruct Hok as [Hp Hok]; cbn [rootlist_of app flatten_loop listed].
    rewrite (prefix_split "spotify:playlist:" rootlistStartGroupPrefix uri) by done.
    rewrite (prefix_split "spotify:playlist:" rootlistEndGroupPrefix uri), Hp by done; by rewrite IH.
  - destruct Hok as (Hid & Hi & Hr); cbn [rootlist_of app flatten_loop listed].
    assert (has_prefix rootlistStartGroupPrefix (start_group id name) = true) as -> by apply prefix_app.
    assert (He : has_prefix rootlistEndGroupPrefix (end_group id) = true) by apply prefix_app.
    rewrite folder_name_start, <- app_assoc, IHi by done; cbn [app flatten_loop].
    rewrite (prefix_split rootlistEndGroupPrefix rootlistStartGroupPrefix (end_group id)), He by done.
    rewrite length_app, Nat.add_sub, take_app_length, IH by done; by rewrite app_assoc.
Qed.

(** ** Claims *)
Definition demo_playlist : string := "spotify:playlist:37i9dQZF1DXcBWIGoYBM5M".

(** A service where another change gets in between the first read and write. *)
Definition contested_server (n : nat) (req : HttpRequest) : http_answer :=
  if decide (hq_Method req = "GET") then HttpResponse (MkResponse 200 ∅ (Ok [Z.of_nat n]))
  else if decide (n < 4)%nat then HttpResponse (MkResponse 409 ∅ (Ok []))
  else HttpResponse (MkResponse 200 ∅ (Ok [])).

Definition demo_unmarshal (b : list Z) : result ListContent := Ok (MkListContent b ["a"; "b"; "a"] [] false).

Definition demo_marshal (c : ListChanges) : list Z := ch_BaseRevision c.

Lemma contested_no_false_conflicts : no_false_conflicts demo_token contested_server.
Proof.
  split; [intros n req e; unfold contested_server; repeat case_decide; done|intros f t t' e Ht; by simplify_eq].
Qed.



(** Removing from a playlist removes one entry, the right one.  Of all the
    exchanges a removal makes at most one may have changed the playlist; when
    it reports success, exactly one did, naming the revision of contents read
    in full just before, the given track, and a position at which those
    contents hold it: the asked one, or the first. *)
Theorem playlist_remove_exact {T} `{RetryLaws} (token : bool -> T -> run (T * sresult string))
    (server : nat -> HttpRequest -> http_answer) (clientToken : string) (marshal_changes : ListChanges -> list Z)
    (unmarshal_list : list Z -> result ListContent) (username playlistUri uri : string) (position : option Z)
    (w w' : World T) (err : option svc_error) :
  no_false_conflicts token server ->
  removeFromPlaylist token server clientToken marshal_changes unmarshal_list username playlistUri uri position w =
    Ret (w', err) ->
  (exists e, SpotifyIdFromUri playlistUri = Ret (Err e) /\ w' = w) \/
  exists id, SpotifyIdFromUri playlistUri = Ret (Ok id) /\
    changed_once clientToken marshal_changes (remove_made token server clientToken unmarshal_list id uri position)
      username w w' err.
Proof.
  intros Hnc Ha; unfold removeFromPlaylist in Ha; run_inv Ha; destruct a as [id|e]; [right|left].
  - exists id; split; [done|]; by apply (remove_loop_once _ _ _ _ _ _ _ _ _ 1 Hnc).
  - simplify_eq; by exists e.
Qed.

Lemma playlist_remove_exact_witness :
  exists w', removeFromPlaylist demo_token contested_server "" demo_marshal demo_unmarshal "me" demo_playlist "a" (Some 2)
      demo_world = Ret (w', None) /\
  ((exists e, SpotifyIdFromUri demo_playlist = Ret (Err e) /\ w' = demo_world) \/
   exists id, SpotifyIdFromUri demo_playlist = Ret (Ok id) /\
    changed_once "" demo_marshal (remove_made demo_token contested_server "" demo_unmarshal id "a" (Some 2)) "me"
      demo_world w' None).
Proof.
  eexists; split; [vm_compute; reflexivity|].
  refine (playlist_remove_exact demo_token contested_server "" demo_marshal demo_unmarshal "me" demo_playlist "a" (Some 2)
    demo_world _ None contested_no_false_conflicts _); vm_compute; reflexivity.
Defined.

(** A playlist of up to fifty pages is read in full.  When the service
    holds the playlist unchanged and every page it answers with has at least
    [k] items or all that are left, reading the contents of fewer than [50 * k]
    items gives the revision and all the items, in order. *)
Theorem playlist_contents_complete {T} `{Retry} (token : bool -> T -> run (T * sresult string))
    (server : nat -> HttpRequest -> http_answer) (clientToken : string) (unmarshal_list : list Z -> result ListContent)
    (id : SpotifyId) (rev : list Z) (items : list string) (k : nat) (w : World T) :
  holds_playlist token server clientToken unmarshal_list id rev items k -> (length items < 50 * k)%nat ->
  exists w', PlaylistContents token server clientToken unmarshal_list id w = Ret (w', SOk (rev, items)).
Proof.
  intros Hs Hk; apply (contents_full token server clientToken unmarshal_list id rev items k playlistMaxPages Hs
    ltac:(lia) 0 None w); [lia|by left|unfold playlistMaxPages; lia].
Qed.

Definition steady_server (n : nat) (req : HttpRequest) : http_answer := HttpResponse (MkResponse 200 ∅ (Ok [7])).

Definition demo_id : SpotifyId := MkSpotifyId SpotifyIdTypePlaylist (replicate 16 1).

(** A service with three items in pages of two. *)
Definition paging_server (n : nat) (req : HttpRequest) : http_answer :=
  HttpResponse (MkResponse 200 ∅ (Ok [default 0 (from ← default ∅ (hq_Query req) !! "from"; Atoi from)])).

Definition unmarshal_three (b : list Z) : result ListContent :=
  let n := Z.to_nat (default 0 (head b)) in
  Ok (MkListContent [7] (take 2 (drop n ["a"; "b"; "a"])) [] (bool_decide (n + 2 < 3)%nat)).

Lemma paging_holds : holds_playlist demo_token paging_server "" unmarshal_three demo_id [7] ["a"; "b"; "a"] 2.
Proof.
  intros [t log] n Hn; simpl in Hn; destruct n as [|[|[|[|n]]]]; [| | | |lia]; eexists _, _;
    (split; [vm_compute; reflexivity|split; [reflexivity|]]); exists 2%nat; repeat split; simpl; lia || reflexivity.
Qed.

Lemma playlist_contents_complete_witness :
  exists w', PlaylistContents demo_token paging_server "" unmarshal_three demo_id demo_world =
    Ret (w', SOk ([7], ["a"; "b"; "a"])).
Proof.
  apply (playlist_contents_complete demo_token paging_server "" unmarshal_three demo_id [7] ["a"; "b"; "a"] 2 demo_world);
    [apply paging_holds|simpl; lia].
Defined.

(** The folders of the library come out as they are nested.  Listing the
    rootlist of a library of playlists and nested folders gives its playlists
    in order, each under the names of the folders around it, outermost first,
    whatever characters those names have. *)
Theorem library_folders_listed (l : library) :
  library_ok l -> flattenRootlist (rootlist_of l).*1 (rootlist_of l).*2 = listed [] l.
Proof.
  intros Hok; unfold flattenRootlist; rewrite zip_fst_snd.
  pose proof (flatten_forest l Hok [] []) as Hf; by rewrite !app_nil_r in Hf.
Qed.

Definition demo_meta : MetaItem := MkMeta "" "" "me" 0 false true [] "".

Definition demo_library : library :=
  LFolder "ab12" "Rock & roll: 100%" demo_meta
    (LPlaylist "spotify:playlist:1" demo_meta (LFolder "cd" "Live" demo_meta (LPlaylist "spotify:playlist:2" demo_meta LNil) LNil))
    (LPlaylist "spotify:playlist:3" demo_meta LNil).

Lemma library_folders_listed_witness :
  flattenRootlist (rootlist_of demo_library).*1 (rootlist_of demo_library).*2 = listed [] demo_library /\
  ap_Folder <$> listed [] demo_library = [["Rock & roll: 100%"]; ["Rock & roll: 100%"; "Live"]; []].
Proof.
  split; [|reflexivity]; apply (library_folders_listed demo_library).
  unfold demo_library, library_ok, no_colon; split_and!; try done; vm_compute; set_solver.
Defined.

(** Every page the API lets through exists and is the right one.  For an
    offset and a limit the API accepts, listing a page does not go out of
    bounds and gives the at most [limit] entries from the offset on, none past
    the end. *)
Theorem library_pages_in_bounds {A} (l : list A) (offset offset' limit' : Z) (limit : option Z) :
  zlen l < 2 ^ 62 -> handleLibraryPage offset limit = Some (offset', limit') ->
  pageLibraryPlaylists l offset' limit' = Ret (takeZ limit' (dropZ offset' l)).
Proof.
  unfold handleLibraryPage, libraryPlaylistsMaxLimit, pageLibraryPlaylists, pageBounds, slice.
  intros Hl Hh; case_decide; simplify_eq; pose proof (zlen_nonneg l).
  assert (i64 (Z.min offset' (zlen l) + default libraryPlaylistsDefaultLimit limit) =
    Z.min offset' (zlen l) + default libraryPlaylistsDefaultLimit limit) as ->.
  { unfold i64, swrap; rewrite wrap_small; lia. }
  rewrite decide_True by lia; f_equal; unfold sliceZ.
  destruct (Z.le_gt_cases (zlen l) offset') as [Hc|Hc].
  - rewrite (dropZ_all offset') by lia; rewrite dropZ_all by lia; unfold takeZ; by rewrite !take_nil.
  - rewrite (Z.min_l offset') by lia.
    destruct (Z.le_gt_cases (offset' + default libraryPlaylistsDefaultLimit limit) (zlen l)).
    + rewrite Z.min_l by lia; f_equal; lia.
    + rewrite Z.min_r by lia; rewrite !takeZ_all; [done|rewrite zlen_dropZ; lia..].
Qed.

Lemma library_pages_in_bounds_witness :
  pageLibraryPlaylists [1; 2; 3] 2 50 = Ret (takeZ 50 (dropZ 2 [1; 2; 3])).
Proof. apply (library_pages_in_bounds [1; 2; 3] 2 2 50 None); [vm_compute; reflexivity|reflexivity]. Defined.

(** Liking a song writes the identifier as it was given, while asking whether it
    is liked asks for its canonical form: an identifier of 21 characters is
    liked under a name it is never looked up under. *)
Theorem liked_not_canonical :
  (exists w', setLiked demo_token steady_server "" (fun c => Z.of_nat (String.length (default "" (head (ci_Uri <$> cw_Items c)))) :: nil)
      0 "me" ["spotify:track:4uLU6hMCjMI75M1A2tKUQ"] true demo_world = Ret (w', (likedSongsContextUris "me", None)) /\
    exists req, head (w_log w') = Some (Sent req (steady_server 0 req)) /\ hq_Body req = Some [35]) /\
  exists u, canonical_uris ["spotify:track:4uLU6hMCjMI75M1A2tKUQ"] = Ret (Ok [u]) /\ String.length u = 36%nat.
Proof. split; eexists; (split; [vm_compute; reflexivity|]); [eexists; split|]; vm_compute; reflexivity. Qed.
