(* ===== verification/Resolve.v ===== *)
(** * The endpoint directory ([src/apresolve/resolve.go], [types.go])

    Fetching and caching the addresses of accesspoints, dealers and spclients,
    preferring ports that firewalls let through, and the address functions that
    walk through them.  The HTTP exchange is an argument: what came back. *)

From S2P Require Import Prelude Ids.
#[local] Open Scope list_scope.
#[local] Open Scope Z_scope.

Inductive endpointType := EndpointAccesspoint | EndpointDealer | EndpointSpclient.

#[export] Instance endpointType_eq_dec : EqDecision endpointType.
Proof. solve_decision. Defined.

#[export] Instance endpointType_countable : Countable endpointType.
Proof.
  refine (inj_countable'
    (fun t => match t with EndpointAccesspoint => 0%nat | EndpointDealer => 1%nat | EndpointSpclient => 2%nat end)
    (fun n => match n with 0%nat => EndpointAccesspoint | 1%nat => EndpointDealer | _ => EndpointSpclient end) _).
  by intros [].
Defined.

Record apResolveResponse := MkResponse {
  resp_accesspoint : list string; resp_dealer : list string; resp_spclient : list string }.

(** Times are in milliseconds. *)
Record ApResolver := MkResolver {
  endpoints : gmap endpointType (list string);
  endpointsExp : gmap endpointType Z;
  preferFirewallFriendlyPorts : bool }.

Definition NewApResolver (prefer : bool) : ApResolver := MkResolver ∅ ∅ prefer.

Definition firewallFriendlyPortRank (addr : string) : Z :=
  if has_suffix ":443" addr then 0 else if has_suffix ":80" addr then 1 else 2.

(** [sort.SliceStable]: an insertion that never moves an address past one of
    the same rank. *)
Fixpoint rank_insert (addr : string) (addrs : list string) : list string :=
  match addrs with
  | [] => [addr]
  | a :: rest =>
    if decide (firewallFriendlyPortRank addr <= firewallFriendlyPortRank a) then addr :: addrs
    else a :: rank_insert addr rest
  end.

Definition sortFirewallFriendly (addrs : list string) : list string := foldr rank_insert [] addrs.

(** What the directory answered. *)
Inductive exchange_outcome :=
| NoResponse (e : error)
| StatusNot200
| BadJson (e : error)
| Answered (resp : apResolveResponse).

Definition one_hour : Z := 3600000.

Definition expired (now : Z) (r : ApResolver) (t : endpointType) : bool :=
  match endpointsExp r !! t with
  | None => true
  | Some exp => bool_decide (exp < now)
  end.

Definition store (now : Z) (types : list endpointType) (t : endpointType) (addrs : list string)
    (r : ApResolver) : ApResolver :=
  if decide (t ∈ types) then
    MkResolver (<[t := addrs]> (endpoints r)) (<[t := now + one_hour]> (endpointsExp r)) (preferFirewallFriendlyPorts r)
  else r.

(** [asked] tells whether a request went out. *)
Definition fetchUrls (now : Z) (r : ApResolver) (types : list endpointType) (outcome : exchange_outcome)
  : ApResolver * option error * bool :=
  if existsb (expired now r) types then
    match outcome with
    | NoResponse e => (r, Some (EWrap "failed fetching apresolve URL" e), true)
    | StatusNot200 => (r, Some (EMsg "invalid status code from apresolve"), true)
    | BadJson e => (r, Some (EWrap "failed unmarhsalling apresolve response" e), true)
    | Answered resp =>
      let accesspoint := if preferFirewallFriendlyPorts r then sortFirewallFriendly (resp_accesspoint resp)
                         else resp_accesspoint resp in
      let r := store now types EndpointAccesspoint accesspoint r in
      let r := store now types EndpointDealer (resp_dealer resp) r in
      (store now types EndpointSpclient (resp_spclient resp) r, None, true)
    end
  else (r, None, false).

Definition FetchAll (now : Z) (r : ApResolver) (outcome : exchange_outcome) : ApResolver * option error * bool :=
  fetchUrls now r [EndpointAccesspoint; EndpointDealer; EndpointSpclient] outcome.

Definition resolver_get (now : Z) (r : ApResolver) (t : endpointType) (outcome : exchange_outcome)
  : ApResolver * result (list string) :=
  match fetchUrls now r [t] outcome with
  | (r, Some e, _) => (r, Err e)
  | (r, None, _) =>
    match endpoints r !! t with
    | Some (a :: addrs) => (r, Ok (a :: addrs))
    | _ => (r, Err (EMsg "no endpoint present"))
    end
  end.

(** The closure [getFunc] returns, with the variables it captures. *)
Record GetAddressFunc := MkGetAddress { ga_type : endpointType; ga_addrs : list string; ga_idx : Z }.

Definition getFunc (now : Z) (r : ApResolver) (t : endpointType) (outcome : exchange_outcome)
  : ApResolver * result GetAddressFunc :=
  match resolver_get now r t outcome with
  | (r, Err e) => (r, Err e)
  | (r, Ok addrs) => (r, Ok (MkGetAddress t addrs 0))
  end.

Definition call_address (now : Z) (r : ApResolver) (f : GetAddressFunc) (outcome : exchange_outcome)
  : run (ApResolver * GetAddressFunc * string) :=
  if decide (ga_idx f < zlen (ga_addrs f)) then
    newAddr ← index (ga_addrs f) (ga_idx f);
    Ret (r, MkGetAddress (ga_type f) (ga_addrs f) (ga_idx f + 1), newAddr)
  else
    match resolver_get now r (ga_type f) outcome with
    | (r, Err _) => addr ← index (ga_addrs f) 0; Ret (r, f, addr)
    | (r, Ok newAddrs) => addr ← index newAddrs 0; Ret (r, MkGetAddress (ga_type f) newAddrs 1, addr)
    end.

(** A sequence of calls of the function, each at its time with what the
    directory would answer. *)
Fixpoint call_all (r : ApResolver) (f : GetAddressFunc) (calls : list (Z * exchange_outcome))
  : run (ApResolver * GetAddressFunc * list string) :=
  match calls with
  | [] => Ret (r, f, [])
  | (now, outcome) :: calls =>
    '(r, f, addr) ← call_address now r f outcome;
    '(r, f, addrs) ← call_all r f calls;
    Ret (r, f, addr :: addrs)
  end.

(** ** Helper lemmas *)
Definition with_rank (k : Z) (addrs : list string) : list string :=
  filter (fun a => firewallFriendlyPortRank a = k) addrs.

Lemma rank_cases a :
  firewallFriendlyPortRank a = 0 \/ firewallFriendlyPortRank a = 1 \/ firewallFriendlyPortRank a = 2.
Proof. unfold firewallFriendlyPortRank; repeat case_match; auto. Qed.

Lemma rank_insert_skip a pre post :
  Forall (fun x => firewallFriendlyPortRank x < firewallFriendlyPortRank a) pre ->
  Forall (fun x => firewallFriendlyPortRank a <= firewallFriendlyPortRank x) post ->
  rank_insert a (pre ++ post) = pre ++ a :: post.
Proof.
  induction 1 as [|x pre Hx _ IH]; intros Hpost; cbn [app rank_insert].
  - destruct Hpost; cbn [rank_insert]; [done | by rewrite decide_True].
  - rewrite decide_False by lia; by rewrite IH.
Qed.

Lemma with_rank_Forall k (P : Z -> Prop) l :
  P k -> Forall (fun x => P (firewallFriendlyPortRank x)) (with_rank k l).
Proof. intros HP; apply Forall_forall; intros x [Hx _]%list_elem_of_filter; by rewrite Hx. Qed.

Lemma with_rank_cons k a l :
  with_rank k (a :: l) = if decide (firewallFriendlyPortRank a = k) then a :: with_rank k l else with_rank k l.
Proof. unfold with_rank; rewrite filter_cons; done. Qed.

Lemma sort_is_by_rank l : sortFirewallFriendly l = with_rank 0 l ++ with_rank 1 l ++ with_rank 2 l.
Proof.
  induction l as [|a l IH]; [done|]; change (rank_insert a (sortFirewallFriendly l) =
    with_rank 0 (a :: l) ++ with_rank 1 (a :: l) ++ with_rank 2 (a :: l)).
  rewrite IH, !with_rank_cons; clear IH.
  destruct (rank_cases a) as [Ha|[Ha|Ha]]; rewrite Ha; repeat case_decide; try lia.
  - apply (rank_insert_skip a []); [constructor|].
    rewrite !Forall_app; split_and!; rewrite Ha; by apply (with_rank_Forall _ (fun k => 0 <= k)).
  - apply rank_insert_skip; [rewrite Ha; by apply (with_rank_Forall _ (fun k => k < 1))|].
    rewrite !Forall_app; split; rewrite Ha; by apply (with_rank_Forall _ (fun k => 1 <= k)).
  - rewrite app_assoc, rank_insert_skip, <- app_assoc; [done| |].
    + rewrite !Forall_app; split; rewrite Ha; by apply (with_rank_Forall _ (fun k => k < 2)).
    + rewrite Ha; by apply (with_rank_Forall _ (fun k => 2 <= k)).
Qed.

(** The list of an endpoint type in an answer, as it is stored. *)
Definition answered (prefer : bool) (t : endpointType) (resp : apResolveResponse) : list string :=
  match t with
  | EndpointAccesspoint => if prefer then sortFirewallFriendly (resp_accesspoint resp) else resp_accesspoint resp
  | EndpointDealer => resp_dealer resp
  | EndpointSpclient => resp_spclient resp
  end.

Lemma store_endpoints now types t addrs r t' :
  endpoints (store now types t addrs r) !! t' =
    if decide (t = t' /\ t ∈ types) then Some addrs else endpoints r !! t'.
Proof.
  unfold store; destruct (decide (t ∈ types)); cbn [endpoints].
  - destruct (decide (t = t')) as [->|]; [rewrite decide_True by done; apply lookup_insert_eq|].
    rewrite decide_False by tauto; by apply lookup_insert_ne.
  - by rewrite decide_False by tauto.
Qed.

Lemma store_exp now types t addrs r t' :
  endpointsExp (store now types t addrs r) !! t' =
    if decide (t = t' /\ t ∈ types) then Some (now + one_hour) else endpointsExp r !! t'.
Proof.
  unfold store; destruct (decide (t ∈ types)); cbn [endpointsExp].
  - destruct (decide (t = t')) as [->|]; [rewrite decide_True by done; apply lookup_insert_eq|].
    rewrite decide_False by tauto; by apply lookup_insert_ne.
  - by rewrite decide_False by tauto.
Qed.

Lemma fetch_stores now r types resp t :
  t ∈ types -> existsb (expired now r) types = true ->
  exists r', fetchUrls now r types (Answered resp) = (r', None, true) /\
    endpoints r' !! t = Some (answered (preferFirewallFriendlyPorts r) t resp) /\
    endpointsExp r' !! t = Some (now + one_hour).
Proof.
  intros Ht Hexp; unfold fetchUrls; rewrite Hexp; eexists; split; [reflexivity|].
  rewrite !store_endpoints, !store_exp; destruct t; repeat case_decide; naive_solver.
Qed.

Lemma get_cached now r t outcome exp a addrs :
  endpointsExp r !! t = Some exp -> now <= exp -> endpoints r !! t = Some (a :: addrs) ->
  resolver_get now r t outcome = (r, Ok (a :: addrs)).
Proof.
  intros He Hn Ha; unfold resolver_get, fetchUrls, expired; cbn [existsb]; rewrite He.
  by rewrite bool_decide_eq_false_2, orb_false_r, Ha by lia.
Qed.

Lemma get_ok_nonempty now r t outcome r' addrs :
  resolver_get now r t outcome = (r', Ok addrs) -> addrs <> [].
Proof. unfold resolver_get; repeat case_match; intros; by simplify_eq. Qed.

Definition address_ok (f : GetAddressFunc) : Prop := ga_addrs f <> [] /\ 0 <= ga_idx f.

Lemma index_nonempty {A} (l : list A) : l <> [] -> exists x, index l 0 = Ret x /\ x ∈ l.
Proof. destruct l as [|x l]; [done|]; intros _; exists x; split; [reflexivity | left]. Qed.

Lemma call_address_ok now r f outcome :
  address_ok f -> exists r' f' addr, call_address now r f outcome = Ret (r', f', addr) /\ address_ok f' /\
    addr ∈ ga_addrs f'.
Proof.
  intros [Hne Hi]; unfold call_address; destruct (decide _).
  - destruct (index_returns (ga_addrs f) (ga_idx f)) as (x & -> & Hx); [lia|].
    eexists _, _, x; split; [reflexivity|]; split; [split; [done | cbn; lia] | by eapply nthZ_In].
  - destruct (resolver_get now r (ga_type f) outcome) as [r' [newAddrs|e]] eqn:Hget.
    + apply get_ok_nonempty in Hget; destruct (index_nonempty newAddrs Hget) as (x & -> & Hx).
      eexists _, _, x; split; [reflexivity|]; split; [split; [done | cbn; lia] | done].
    + destruct (index_nonempty _ Hne) as (x & -> & Hx).
      eexists _, _, x; split; [reflexivity | done].
Qed.

Lemma call_all_cycles r f calls exp (i : nat) :
  address_ok f -> ga_idx f = Z.of_nat i -> (i <= length (ga_addrs f))%nat ->
  endpoints r !! ga_type f = Some (ga_addrs f) -> endpointsExp r !! ga_type f = Some exp ->
  Forall (fun c => c.1 <= exp) calls ->
  exists f' out, call_all r f calls = Ret (r, f', out) /\ length out = length calls /\
    forall k a, out !! k = Some a -> ga_addrs f !! ((i + k) mod length (ga_addrs f))%nat = Some a.
Proof.
  intros [Hne _] Hi Hle Hends Hexp Hcalls; destruct f as [t A idx]; cbn in *; subst idx.
  assert (0 < length A)%nat as Hpos by (destruct A; [done | cbn; lia]).
  revert i Hle; induction Hcalls as [|[now outcome] calls Hnow _ IH]; intros i Hle; [by eexists _, []|].
  cbn [call_all]; cbn in Hnow; unfold call_address; cbn [ga_addrs ga_idx ga_type].
  destruct (decide (Z.of_nat i < zlen A)) as [Hlt|Hge].
  - destruct (index_returns A (Z.of_nat i)) as (x & -> & Hx); [lia|]; cbn [mbind run_bind].
    destruct (IH (S i)) as (f' & out & Hrun & Hlen & Hout); [unfold zlen in Hlt; lia|].
    replace (Z.of_nat i + 1) with (Z.of_nat (S i)) by lia; rewrite Hrun; cbn [mbind run_bind].
    eexists _, _; split; [reflexivity|]; split; [cbn; lia|].
    intros [|k] a; [|intros Ha; rewrite <- Nat.add_succ_comm; by apply Hout].
    intros [= ->]; rewrite Nat.add_0_r, Nat.mod_small by (unfold zlen in Hlt; lia).
    unfold nthZ in Hx; by rewrite decide_True, Nat2Z.id in Hx by lia.
  - assert (i = length A) as -> by (unfold zlen in Hge; lia).
    destruct A as [|x A]; [done|]; rewrite (get_cached now r t outcome exp x A) by done.
    cbn [index nthZ mbind run_bind decide]; rewrite (proj2 (index_Ret (x :: A) 0 x)) by done.
    cbn [mbind run_bind]; destruct (IH 1%nat) as (f' & out & Hrun & Hlen & Hout); [cbn; lia|].
    change 1 with (Z.of_nat 1); rewrite Hrun; cbn [mbind run_bind].
    eexists _, _; split; [reflexivity|]; split; [cbn; lia|].
    intros [|k] a; [intros [= ->]; by rewrite Nat.add_0_r, Nat.Div0.mod_same|].
    intros Ha; replace (length (x :: A) + S k)%nat with (1 + k + 1 * length (x :: A))%nat by lia.
    rewrite Nat.Div0.mod_add; by apply Hout.
Qed.

Lemma getFunc_ok now r t outcome r' f :
  getFunc now r t outcome = (r', Ok f) ->
  address_ok f /\ f = MkGetAddress t (ga_addrs f) 0 /\ endpoints r' !! t = Some (ga_addrs f).
Proof.
  unfold getFunc, resolver_get; repeat case_match; intros; simplify_eq; cbn.
  split_and!; [split; [done | cbn; lia] | done | done].
Qed.

Definition demo_response : apResolveResponse :=
  MkResponse ["a:4070"; "b:443"; "c:80"; "d:443"] ["dealer:443"] [].

Definition demo_resolver : ApResolver := (FetchAll 0 (NewApResolver true) (Answered demo_response)).1.1.

(** An answer of the directory serves every request of the next hour.
    After a fetch that was due, each type asked for is answered from the cache
    until its expiry, whatever the directory would say, without a request; and
    with firewall friendly ports preferred, the accesspoints come with those on
    port 443 first, then those on port 80, then the others, each group in the
    order the server gave. *)
Theorem directory_cached_for_an_hour (now now' : Z) (r : ApResolver) (types : list endpointType)
    (resp : apResolveResponse) (t : endpointType) (outcome : exchange_outcome) :
  t ∈ types -> existsb (expired now r) types = true -> now' <= now + one_hour ->
  answered (preferFirewallFriendlyPorts r) t resp <> [] ->
  let r' := (fetchUrls now r types (Answered resp)).1.1 in
  resolver_get now' r' t outcome = (r', Ok (answered (preferFirewallFriendlyPorts r) t resp)) /\
  (fetchUrls now' r' [t] outcome).2 = false /\
  answered true EndpointAccesspoint resp =
    with_rank 0 (resp_accesspoint resp) ++ with_rank 1 (resp_accesspoint resp) ++ with_rank 2 (resp_accesspoint resp).
Proof.
  intros Ht Hexp Hnow Hne; destruct (fetch_stores now r types resp t Ht Hexp) as (r' & -> & Hends & Hexp'); cbn.
  destruct (answered _ t resp) as [|a addrs]; [done|]; split_and!.
  - by eapply get_cached.
  - unfold fetchUrls, expired; cbn [existsb]; rewrite Hexp'.
    by rewrite bool_decide_eq_false_2 by lia.
  - apply sort_is_by_rank.
Qed.

Lemma directory_cached_for_an_hour_witness :
  resolver_get one_hour demo_resolver EndpointAccesspoint StatusNot200 =
    (demo_resolver, Ok ["b:443"; "d:443"; "c:80"; "a:4070"]).
Proof.
  apply (directory_cached_for_an_hour 0 one_hour (NewApResolver true)
    [EndpointAccesspoint; EndpointDealer; EndpointSpclient] demo_response EndpointAccesspoint StatusNot200);
    [left | reflexivity | discriminate | discriminate].
Defined.

(** The function handed out for an endpoint type walks through the
    addresses in their order and, while the directory's answer is fresh, starts
    over after the last: call [k] returns address [k] modulo their number. *)
Theorem addresses_cycle (now exp : Z) (r r' : ApResolver) (t : endpointType) (outcome : exchange_outcome)
    (f : GetAddressFunc) (calls : list (Z * exchange_outcome)) :
  getFunc now r t outcome = (r', Ok f) -> endpointsExp r' !! t = Some exp ->
  Forall (fun c => c.1 <= exp) calls ->
  exists f' out, call_all r' f calls = Ret (r', f', out) /\ length out = length calls /\
    forall k a, out !! k = Some a -> ga_addrs f !! (k mod length (ga_addrs f))%nat = Some a.
Proof.
  intros (Hok & Hf & Hends)%getFunc_ok Hexp Hcalls; rewrite Hf in *.
  eapply (call_all_cycles r' _ calls exp 0); cbn; eauto; lia.
Qed.

Lemma addresses_cycle_witness :
  exists f' out, call_all demo_resolver (MkGetAddress EndpointDealer ["dealer:443"] 0)
      [(5, StatusNot200); (6, StatusNot200); (7, StatusNot200)] = Ret (demo_resolver, f', out) /\
    length out = 3%nat /\ forall k a, out !! k = Some a -> ["dealer:443"] !! (k mod 1)%nat = Some a.
Proof.
  apply (addresses_cycle 1 one_hour demo_resolver demo_resolver EndpointDealer StatusNot200
    (MkGetAddress EndpointDealer ["dealer:443"] 0)); [reflexivity | reflexivity |].
  repeat constructor; apply Z.leb_le; reflexivity.
Defined.

(** An address function always has an address to give: whatever the
    directory answers, and however often and late it is called, it never
    panics, and it keeps addresses to fall back on. *)
Theorem address_function_total (now : Z) (r r' : ApResolver) (t : endpointType) (outcome : exchange_outcome)
    (f : GetAddressFunc) (calls : list (Z * exchange_outcome)) :
  getFunc now r t outcome = (r', Ok f) ->
  exists r'' f' out, call_all r' f calls = Ret (r'', f', out) /\ length out = length calls /\ ga_addrs f' <> [].
Proof.
  intros (Hok & _ & _)%getFunc_ok; clear now r t outcome.
  revert r' f Hok; induction calls as [|[now outcome] calls IH]; intros r f Hok; cbn [call_all].
  { eexists _, _, _; split; [reflexivity|]; split; [done | apply Hok]. }
  destruct (call_address_ok now r f outcome Hok) as (r1 & f1 & a & -> & Hok1 & _); cbn [mbind run_bind].
  destruct (IH r1 f1 Hok1) as (r2 & f2 & out & -> & Hlen & Hne); cbn [mbind run_bind].
  eexists _, _, _; split; [reflexivity|]; split; [cbn; lia | done].
Qed.

Lemma address_function_total_witness :
  exists r'' f' out, call_all demo_resolver (MkGetAddress EndpointDealer ["dealer:443"] 0)
      [(5, StatusNot200); (2 * one_hour, NoResponse io_EOF); (3 * one_hour, Answered (MkResponse [] [] []))] =
        Ret (r'', f', out) /\ length out = 3%nat /\ ga_addrs f' <> [].
Proof.
  apply (address_function_total 1 demo_resolver demo_resolver EndpointDealer StatusNot200); reflexivity.
Defined.

(** An empty answer locks an endpoint type out for an hour: it is cached as
    if it were an answer, and until it expires every request for that type
    fails without asking the directory again. *)
Theorem empty_answer_sticks (now now' : Z) (r : ApResolver) (t : endpointType)
    (resp : apResolveResponse) (outcome : exchange_outcome) :
  expired now r t = true -> now' <= now + one_hour ->
  answered (preferFirewallFriendlyPorts r) t resp = [] ->
  let r' := (resolver_get now r t (Answered resp)).1 in
  resolver_get now' r' t outcome = (r', Err (EMsg "no endpoint present")) /\
  (fetchUrls now' r' [t] outcome).2 = false.
Proof.
  intros Hexp Hnow Hempty; destruct (fetch_stores now r [t] resp t) as (r' & Hf & Hends & Hexp').
  { by left. } { cbn; by rewrite Hexp. }
  rewrite Hempty in Hends.
  assert ((resolver_get now r t (Answered resp)).1 = r') as ->.
  { unfold resolver_get; rewrite Hf; by rewrite Hends. }
  assert (forall o, fetchUrls now' r' [t] o = (r', None, false)) as Hcached.
  { intros o; unfold fetchUrls, expired; cbn [existsb]; rewrite Hexp'.
    by rewrite bool_decide_eq_false_2 by lia. }
  cbv zeta; rewrite Hcached; split; [|done]; unfold resolver_get; by rewrite Hcached, Hends.
Qed.

Lemma empty_answer_sticks_witness :
  let r' := (resolver_get 0 (NewApResolver false) EndpointSpclient (Answered demo_response)).1 in
  resolver_get 10 r' EndpointSpclient (Answered (MkResponse [] [] ["s:443"])) =
    (r', Err (EMsg "no endpoint present")).
Proof.
  apply (empty_answer_sticks 0 10 (NewApResolver false) EndpointSpclient demo_response);
    [reflexivity | apply Z.leb_le; reflexivity | reflexivity].
Defined.
