(* ===== verification/MetaCache.v ===== *)
(** * The metadata and listing caches ([src/daemon/track_meta_cache.go])

    The bounded cache of track metadata, the cache of context listings with its
    guard against listings that predate a change, the enumeration of a context,
    the batched sweep over it and the queue that serialises sweeps.  The LRU
    cache underneath ([golang-lru]) is an interface with its documented laws. *)

From stdpp Require Import functions.
From S2P Require Import Prelude PagedList Ids Tracks.
#[local] Open Scope string_scope.
#[local] Open Scope list_scope.
#[local] Open Scope Z_scope.

(** [lru.Cache[string, V]]. *)
Class Lru (L V : Type) := {
  lru_New : Z -> L;
  lru_Peek : L -> string -> option V;
  lru_Get : L -> string -> L * option V;
  lru_Add : L -> string -> V -> L;
  lru_Remove : L -> string -> L
}.

(** A lookup changes no entry; an addition is found, and may evict others; a
    removal removes that entry alone. *)
Class LruLaws (L V : Type) `{Lru L V} := {
  lru_new_empty : forall n k, lru_Peek (lru_New n) k = None;
  lru_get_value : forall c k, (lru_Get c k).2 = lru_Peek c k;
  lru_get_keeps : forall c k k', lru_Peek (lru_Get c k).1 k' = lru_Peek c k';
  lru_add_same : forall c k v, lru_Peek (lru_Add c k v) k = Some v;
  lru_add_other : forall c k v k' v', k' <> k -> lru_Peek (lru_Add c k v) k' = Some v' -> lru_Peek c k' = Some v';
  lru_remove_same : forall c k, lru_Peek (lru_Remove c k) k = None;
  lru_remove_other : forall c k k', k' <> k -> lru_Peek (lru_Remove c k) k' = lru_Peek c k'
}.

(** ** Sizes *)
Definition trackMetaCacheLimit : Z := 1000.
Definition trackMetaCacheHeadroom : Z := 200.
Definition trackMetaCacheCapacity (maxTracks : Z) : Z := Z.max trackMetaCacheLimit (maxTracks + trackMetaCacheHeadroom).
Definition defaultMetaMaxTracks : Z := 800.
Definition effectiveMetaMaxTracks (configured : Z) : Z :=
  if decide (0 < configured) then configured else defaultMetaMaxTracks.
Definition contextListTTL : Z := 300000.
Definition contextListCacheLimit : Z := 8.
Definition maxMetaBatch : Z := 100.
Definition maxContextPages : Z := 256.

(** ** Kinds of uris *)
Inductive ExtensionKind := TRACK_V4 | EPISODE_V4 | OTHER_KIND.

Definition metaExtensionKind (uri : string) : option ExtensionKind :=
  if has_prefix "spotify:track:" uri then Some TRACK_V4
  else if has_prefix "spotify:episode:" uri then Some EPISODE_V4
  else None.

Definition isListableContextUri (uri : string) : bool :=
  bool_decide (InferSpotifyIdTypeFromContextUri uri <> SpotifyIdTypeUnknown).

Definition listable (uri : string) : bool := bool_decide (is_Some (metaExtensionKind uri)).

Definition contextTrackUri (typ : SpotifyIdType) (track : ContextTrack) : run string :=
  if decide (0 < str_len (ct_Uri track)) then Ret (ct_Uri track)
  else if decide (zlen (ct_Gid track) = 16) then gid_uri typ (ct_Gid track)
  else Ret "".

(** ** The metadata cache

    A nil cache, [None] here, is metadata disabled. *)
Section meta_cache.
Context {Media L : Type} `{Lru L Media} (media_uri : Media -> string).

Definition meta_cache_get (c : option L) (uri : string) : option L * option Media :=
  match c with
  | None => (None, None)
  | Some c => let '(c, m) := lru_Get c uri in (Some c, m)
  end.

Definition meta_cache_put (c : option L) (uri : string) (media : option Media) : option L :=
  match c, media with
  | Some c, Some media => if decide (uri = "") then Some c else Some (lru_Add c uri media)
  | _, _ => c
  end.

Definition putStream (c : option L) (requestedUri : string) (media : option Media) : option L :=
  match c, media with
  | Some _, Some m => meta_cache_put (meta_cache_put c requestedUri media) (media_uri m) media
  | _, _ => c
  end.

Fixpoint missing_loop (c : L) (seen : gset string) (uris : list string) : list string :=
  match uris with
  | [] => []
  | uri :: uris =>
    if decide (uri = "" \/ uri ∈ seen) then missing_loop c seen uris
    else
      let seen := {[uri]} ∪ seen in
      match lru_Peek c uri with
      | None => uri :: missing_loop c seen uris
      | Some _ => missing_loop c seen uris
      end
  end.

Definition missing (c : option L) (uris : list string) : list string :=
  match c with
  | None => []
  | Some c => missing_loop c ∅ uris
  end.

(** One extension of the answer: the status of its header and its payload,
    when it has them. *)
Record ExtensionData := MkExtData { ed_uri : string; ed_status : option Z; ed_data : option (list Z) }.
Definition BatchedExtensionResponse := list (ExtensionKind * list ExtensionData).

(** [decode] is the unmarshalling of a payload into a media. *)
Context (decode : ExtensionKind -> list Z -> option Media).

Definition ext_media (kind : ExtensionKind) (ext : ExtensionData) : option Media :=
  match ed_status ext, ed_data ext with
  | Some status, Some data =>
    if decide (status = 200) then
      match kind with
      | TRACK_V4 | EPISODE_V4 => decode kind data
      | OTHER_KIND => None
      end
    else None
  | _, _ => None
  end.

Definition cache_ext (kind : ExtensionKind) (st : option L * Z) (ext : ExtensionData) : option L * Z :=
  let '(c, cached) := st in
  match ext_media kind ext with
  | Some media => (meta_cache_put c (ed_uri ext) (Some media), cached + 1)
  | None => (c, cached)
  end.

Definition cache_response (c : option L) (resp : BatchedExtensionResponse) : option L * Z :=
  foldl (fun st item => foldl (cache_ext item.1) st item.2) (c, 0) resp.

(** The uris asked for, each under its own kind. *)
Definition batch_request (uris : list string) : list (string * ExtensionKind) :=
  omap (fun uri => match metaExtensionKind uri with Some k => Some (uri, k) | None => None end) uris.

Definition fetchBatch (fetch : list (string * ExtensionKind) -> result BatchedExtensionResponse)
    (c : option L) (uris : list string) : option L * result Z :=
  match batch_request uris with
  | [] => (c, Ok 0)
  | req =>
    match fetch req with
    | Err e => (c, Err e)
    | Ok resp => let '(c, cached) := cache_response c resp in (c, Ok cached)
    end
  end.

(** The paced batches of a sweep: [fetch i] is the exchange of batch [i],
    [done i] tells whether the context ended during the pause after it.  The
    batches asked for are returned with the cache. *)
Fixpoint sweep_loop (fuel : nat) (fetch : nat -> list (string * ExtensionKind) -> result BatchedExtensionResponse)
    (done : nat -> bool) (i : nat) (c : option L) (missing : list string) : run (option L * list (list string)) :=
  match missing with
  | [] => Ret (c, [])
  | _ =>
    match fuel with
    | O => OutOfFuel
    | S fuel =>
      let batch := takeZ (Z.min (zlen missing) maxMetaBatch) missing in
      let missing := dropZ (zlen batch) missing in
      match fetchBatch (fetch i) c batch with
      | (c, Err _) => Ret (c, [batch])
      | (c, Ok _) =>
        match missing with
        | [] => Ret (c, [batch])
        | _ => if done i then Ret (c, [batch])
               else '(c, batches) ← sweep_loop fuel fetch done (S i) c missing; Ret (c, batch :: batches)
        end
      end
    end
  end.

Definition sweep fetch done (c : option L) (missing : list string) : run (option L * list (list string)) :=
  sweep_loop (length missing) fetch done 0 c missing.
End meta_cache.

(** ** The enumeration of a context *)
Section enumerate.
Context {R : Type} `{!ContextResolver R}.

(** The items of a page; [true] when [maxTracks] was reached. *)
Fixpoint add_items (typ : SpotifyIdType) (maxTracks : Z) (uris : list string) (items : list ContextTrack)
  : run (bool * list string) :=
  match items with
  | [] => Ret (false, uris)
  | item :: items =>
    uri ← contextTrackUri typ item;
    if listable uri then
      let uris := uris ++ [uri] in
      if decide (zlen uris = maxTracks) then Ret (true, uris)
      else add_items typ maxTracks uris items
    else add_items typ maxTracks uris items
  end.

(** [pages] counts the pages the cap still allows. *)
Fixpoint enumerate_loop (pages : nat) (r : R) (typ : SpotifyIdType) (maxTracks page : Z) (uris : list string)
  : run (R * result (list string)) :=
  match pages with
  | O => Ret (r, Ok uris)
  | S pages =>
    match Page r page with
    | (r, Err e) => if errors_Is e io_EOF then Ret (r, Ok uris)
                    else Ret (r, Err (EWrap "failed fetching page" e))
    | (r, Ok items) =>
      '(full, uris) ← add_items typ maxTracks uris items;
      if (full : bool) then Ret (r, Ok uris) else enumerate_loop pages r typ maxTracks (page + 1) uris
    end
  end.

Definition enumerateContextTracks (r : R) (maxTracks : Z) : run (R * result (list string)) :=
  enumerate_loop (Z.to_nat maxContextPages) r (cr_Type r) maxTracks 0 [].
End enumerate.

(** ** The cache of context listings *)
Record contextListEntry := MkListEntry { le_uris : list string; le_fetched : Z }.

Section listings.
Context {L : Type} `{Lru L contextListEntry}.

Record contextListCache := MkListCache { cl_lru : L; cl_inFlight : gmap string Z }.

Definition newContextListCache : contextListCache := MkListCache (lru_New contextListCacheLimit) ∅.

Definition list_get (now : Z) (c : contextListCache) (uri : string) : contextListCache * option (list string) :=
  let '(l, e) := lru_Get (cl_lru c) uri in
  (MkListCache l (cl_inFlight c),
   match e with
   | Some e => if decide (contextListTTL < now - le_fetched e) then None else Some (le_uris e)
   | None => None
   end).

Definition list_put (now : Z) (c : contextListCache) (uri : string) (uris : list string) (gen : Z) : contextListCache :=
  let store := MkListCache (lru_Add (cl_lru c) uri (MkListEntry uris now)) (cl_inFlight c) in
  match cl_inFlight c !! uri with
  | Some started => if decide (started <> gen) then c else store
  | None => store
  end.

Definition list_invalidate (c : contextListCache) (uri : string) : contextListCache :=
  MkListCache (lru_Remove (cl_lru c) uri)
    (match cl_inFlight c !! uri with
     | Some gen => <[uri := u64 (gen + 1)]> (cl_inFlight c)
     | None => cl_inFlight c
     end).

(** The part of [beginFetch] under the lock. *)
Definition claim_fetch (c : contextListCache) (uri : string) : contextListCache * option Z :=
  match cl_inFlight c !! uri with
  | Some _ => (c, None)
  | None => (MkListCache (cl_lru c) (<[uri := 0]> (cl_inFlight c)), Some 0)
  end.

Definition beginFetch (now : Z) (c : contextListCache) (uri : string) : contextListCache * option Z :=
  match list_get now c uri with
  | (c, Some _) => (c, None)
  | (c, None) => claim_fetch c uri
  end.

Definition endFetch (c : contextListCache) (uri : string) : contextListCache :=
  MkListCache (cl_lru c) (delete uri (cl_inFlight c)).
End listings.

(** ** The queue of sweeps *)
Record metaSweepJob := MkSweep { sj_uris : list string; sj_label : string }.
Record metaSweepQueue := MkSweepQueue { sq_running : bool; sq_pending : option metaSweepJob }.

Definition sweep_enqueue (q : metaSweepQueue) (job : metaSweepJob) : metaSweepQueue * bool :=
  if sq_running q then (MkSweepQueue true (Some job), false) else (MkSweepQueue true (Some job), true).

Definition sweep_next (q : metaSweepQueue) : metaSweepQueue * option metaSweepJob :=
  match sq_pending q with
  | None => (MkSweepQueue false None, None)
  | Some job => (MkSweepQueue (sq_running q) None, Some job)
  end.

(** ** A concrete cache: entries from the most to the least recently used *)
Record lru_list (V : Type) := MkLru { ll_cap : nat; ll_entries : list (string * V) }.
Arguments MkLru {V} _ _.
Arguments ll_cap {V} _.
Arguments ll_entries {V} _.

Section lru_list.
Context {V : Type}.

Fixpoint assoc (k : string) (l : list (string * V)) : option V :=
  match l with
  | [] => None
  | (k', v) :: l => if decide (k' = k) then Some v else assoc k l
  end.

Definition without (k : string) (l : list (string * V)) : list (string * V) := filter (fun e => e.1 <> k) l.

#[export] Instance lru_list_ops : Lru (lru_list V) V := {
  lru_New n := MkLru (Z.to_nat n) [];
  lru_Peek c k := assoc k (ll_entries c);
  lru_Get c k := match assoc k (ll_entries c) with
                 | Some v => (MkLru (ll_cap c) ((k, v) :: without k (ll_entries c)), Some v)
                 | None => (c, None)
                 end;
  lru_Add c k v := MkLru (ll_cap c) ((k, v) :: take (ll_cap c - 1) (without k (ll_entries c)));
  lru_Remove c k := MkLru (ll_cap c) (without k (ll_entries c))
}.

Lemma assoc_without_same k l : assoc k (without k l) = None.
Proof.
  induction l as [|[k' v] l IH]; [done|]; unfold without; rewrite filter_cons; cbn [fst].
  destruct (decide (k' <> k)) as [Hk|Hk]; [cbn; by rewrite decide_False | done].
Qed.

Lemma assoc_without_other k k' l : k' <> k -> assoc k' (without k l) = assoc k' l.
Proof.
  intros Hk; induction l as [|[k1 v] l IH]; [done|]; unfold without; rewrite filter_cons; cbn [fst].
  destruct (decide (k1 <> k)) as [Hk1|Hk1]; cbn [assoc]; [by destruct (decide (k1 = k'))|].
  destruct (decide (k1 = k)) as [->|]; [|tauto]; by rewrite decide_False by congruence.
Qed.

Lemma assoc_take k n l v : assoc k (take n l) = Some v -> assoc k l = Some v.
Proof.
  revert n; induction l as [|[k' v'] l IH]; intros [|n]; cbn; try done.
  destruct (decide (k' = k)); [done | apply IH].
Qed.

#[export] Instance lru_list_laws : LruLaws (lru_list V) V.
Proof.
  split; unfold lru_Peek, lru_Get, lru_Add, lru_Remove; cbn.
  - done.
  - intros c k; by destruct (assoc k (ll_entries c)).
  - intros c k k'; destruct (assoc k (ll_entries c)) eqn:E; cbn; [|done].
    destruct (decide (k = k')) as [<-|]; [done | by rewrite assoc_without_other].
  - intros; by rewrite decide_True.
  - intros c k v k' v' Hk; rewrite decide_False by congruence; intros Ha%assoc_take.
    by rewrite assoc_without_other in Ha.
  - intros; apply assoc_without_same.
  - intros; by apply assoc_without_other.
Qed.
End lru_list.

(** ** Enumerations and invalidations of the listing cache, interleaved

    A goroutine that claimed a fetch holds the generation it was given and ends
    up with the tracks [f_uris]; it may put them once, and always ends its
    fetch.  [ls_fresh] collects, per uri, the outcomes of the enumerations begun
    since the uri was last invalidated. *)
Record fetcher := MkFetcher { f_uri : string; f_gen : Z; f_uris : list string }.

Section listing_system.
Context {L : Type} `{LruLaws L contextListEntry}.

Record listing_system := MkListing {
  ls_cache : contextListCache (L := L);
  ls_fetchers : list fetcher;
  ls_fresh : string -> list (list string);
  ls_invals : Z }.

Definition init_listing : listing_system := MkListing newContextListCache [] (fun _ => []) 0.

(** A request may look the cache up at any time, in particular some time
    before it claims the fetch. *)
Inductive listing_step : listing_system -> listing_system -> Prop :=
| listing_get s now uri :
    listing_step s (MkListing (list_get now (ls_cache s) uri).1 (ls_fetchers s) (ls_fresh s) (ls_invals s))
| listing_claim s uri uris c gen :
    claim_fetch (ls_cache s) uri = (c, Some gen) ->
    listing_step s (MkListing c (MkFetcher uri gen uris :: ls_fetchers s)
                      (<[uri := uris :: ls_fresh s uri]> (ls_fresh s)) (ls_invals s))
| listing_put s now f :
    f ∈ ls_fetchers s ->
    listing_step s (MkListing (list_put now (ls_cache s) (f_uri f) (f_uris f) (f_gen f))
                      (ls_fetchers s) (ls_fresh s) (ls_invals s))
| listing_end s f before after :
    ls_fetchers s = before ++ f :: after ->
    listing_step s (MkListing (endFetch (ls_cache s) (f_uri f)) (before ++ after) (ls_fresh s) (ls_invals s))
| listing_invalidate s uri :
    listing_step s (MkListing (list_invalidate (ls_cache s) uri) (ls_fetchers s)
                      (<[uri := []]> (ls_fresh s)) (ls_invals s + 1)).

(** An enumeration in flight: its uri is claimed at the number of
    invalidations since, and its outcome is fresh while there are none. *)
Definition fetcher_ok (s : listing_system) (f : fetcher) : Prop :=
  f_gen f = 0 /\ exists n, 0 <= n <= ls_invals s /\ cl_inFlight (ls_cache s) !! f_uri f = Some (u64 n) /\
    (n = 0 -> f_uris f ∈ ls_fresh s (f_uri f)).

Definition entries_fresh (s : listing_system) : Prop :=
  ls_invals s < 2 ^ 64 -> forall uri e, lru_Peek (cl_lru (ls_cache s)) uri = Some e ->
  le_uris e ∈ ls_fresh s uri.

Definition listing_inv (s : listing_system) : Prop :=
  0 <= ls_invals s /\ NoDup (f_uri <$> ls_fetchers s) /\
  Forall (fetcher_ok s) (ls_fetchers s) /\ entries_fresh s.

Lemma listing_get_inv s now uri :
  listing_inv s ->
  listing_inv (MkListing (list_get now (ls_cache s) uri).1 (ls_fetchers s) (ls_fresh s) (ls_invals s)).
Proof.
  intros (Hn & Hnd & Hf & He); pose proof (lru_get_keeps (cl_lru (ls_cache s)) uri) as Hk.
  unfold list_get; destruct (lru_Get (cl_lru (ls_cache s)) uri) as [l e]; cbn in *.
  split_and!; try done; intros Hb uri' e'; cbn; rewrite Hk; by apply He.
Qed.

Lemma listing_claim_inv s uri uris c gen :
  claim_fetch (ls_cache s) uri = (c, Some gen) -> listing_inv s ->
  listing_inv (MkListing c (MkFetcher uri gen uris :: ls_fetchers s)
                 (<[uri := uris :: ls_fresh s uri]> (ls_fresh s)) (ls_invals s)).
Proof.
  unfold claim_fetch; destruct (cl_inFlight (ls_cache s) !! uri) eqn:Hin; [done|].
  intros [= <- <-] (Hn & Hnd & Hf & He).
  assert (forall f, f ∈ ls_fetchers s -> f_uri f <> uri) as Hne.
  { intros f Hel <-; rewrite Forall_forall in Hf; destruct (Hf f Hel) as (_ & n & _ & Hl & _); congruence. }
  split; [done|]; split; [|split].
  - cbn; constructor; [|done]; intros (f & Heq & Hel)%list_elem_of_fmap; by eapply Hne.
  - constructor.
    + split; [done|]; exists 0; cbn; rewrite lookup_insert_eq, fn_lookup_insert.
      split; [lia|]; split; [done | left].
    + eapply Forall_impl; [apply Forall_and; split; [exact Hf | by apply Forall_forall, Hne]|].
      intros f [(Hg & n & Hb & Hl & Hfr) Hfne]; split; [done|]; exists n; cbn.
      by rewrite lookup_insert_ne, fn_lookup_insert_ne by congruence.
  - intros Hb uri' e Hp; cbn in *; specialize (He Hb uri' e Hp).
    destruct (decide (uri' = uri)) as [->|]; [rewrite fn_lookup_insert; by right|].
    by rewrite fn_lookup_insert_ne by congruence.
Qed.

Lemma listing_put_inv s now f :
  f ∈ ls_fetchers s -> listing_inv s ->
  listing_inv (MkListing (list_put now (ls_cache s) (f_uri f) (f_uris f) (f_gen f))
                 (ls_fetchers s) (ls_fresh s) (ls_invals s)).
Proof.
  intros Hel (Hn & Hnd & Hf & He); pose proof Hf as Hf'; rewrite Forall_forall in Hf'.
  destruct (Hf' f Hel) as (Hg & n & Hb & Hl & Hfr); unfold list_put; rewrite Hl, Hg.
  destruct (decide (u64 n <> 0)) as [Hz|Hz]; [by split_and!|].
  split; [done|]; split; [done|]; split; [done|].
  intros Hbound uri e Hp; cbn in *.
  destruct (decide (uri = f_uri f)) as [->|Hne].
  - rewrite lru_add_same in Hp; injection Hp as <-; apply Hfr.
    unfold u64 in Hz; rewrite wrap_small in Hz by lia; lia.
  - apply lru_add_other in Hp; [by eapply He | done].
Qed.

Lemma listing_end_inv s f before after :
  ls_fetchers s = before ++ f :: after -> listing_inv s ->
  listing_inv (MkListing (endFetch (ls_cache s) (f_uri f)) (before ++ after) (ls_fresh s) (ls_invals s)).
Proof.
  intros Hs (Hn & Hnd & Hf & He); rewrite Hs in Hnd, Hf.
  rewrite fmap_app, fmap_cons, <- Permutation_middle in Hnd; apply NoDup_cons in Hnd as [Hnin Hnd].
  apply Forall_app in Hf as [Hf1 [_ Hf2]%Forall_cons].
  split; [done|]; split; [by cbn; rewrite fmap_app|]; split; [|done].
  assert (Forall (fetcher_ok s) (before ++ after)) as Hrest by (by apply Forall_app).
  cbn [ls_fetchers]; rewrite Forall_forall in Hrest; apply Forall_forall; intros g Hel.
  destruct (Hrest g Hel) as (Hg & n & Hb & Hl & Hfr); split; [done|]; exists n; cbn.
  rewrite lookup_delete_ne; [done|]; intros Heq; apply Hnin; rewrite Heq, <- fmap_app.
  by apply list_elem_of_fmap_2.
Qed.

Lemma listing_invalidate_inv s uri :
  listing_inv s ->
  listing_inv (MkListing (list_invalidate (ls_cache s) uri) (ls_fetchers s) (<[uri := []]> (ls_fresh s)) (ls_invals s + 1)).
Proof.
  intros (Hn & Hnd & Hf & He); split; [cbn; lia|]; split; [done|]; split.
  - eapply Forall_impl; [exact Hf|]; intros f (Hg & n & Hb & Hl & Hfr); split; [done|]; cbn.
    destruct (decide (f_uri f = uri)) as [<-|Hne].
    + exists (n + 1); rewrite Hl, lookup_insert_eq; split; [lia|]; split; [|lia].
      f_equal; unfold u64, wrap; by rewrite Zplus_mod_idemp_l.
    + exists n; rewrite fn_lookup_insert_ne by done; split; [lia|]; split; [|done].
      destruct (cl_inFlight (ls_cache s) !! uri); [by rewrite lookup_insert_ne | done].
  - intros Hb uri' e Hp; cbn in *; destruct (decide (uri' = uri)) as [->|Hne].
    + by rewrite lru_remove_same in Hp.
    + rewrite lru_remove_other in Hp by done; rewrite fn_lookup_insert_ne by done; apply He; [lia | done].
Qed.

Lemma listing_step_inv s s' : listing_inv s -> listing_step s s' -> listing_inv s'.
Proof.
  intros Hinv Hstep; revert Hinv; destruct Hstep; eauto using listing_get_inv, listing_claim_inv, listing_put_inv, listing_end_inv,
    listing_invalidate_inv.
Qed.

Lemma init_listing_inv : listing_inv init_listing.
Proof.
  split; [done|]; split; [constructor|]; split; [constructor|].
  intros _ uri e Hp; cbn in Hp; by rewrite lru_new_empty in Hp.
Qed.
End listing_system.

(** ** Sweeps and the goroutines that run them

    A worker is about to take its next job, or sweeping one. *)
Record sweep_system := MkSweeps {
  ss_queue : metaSweepQueue;
  ss_workers : list (option metaSweepJob);
  ss_enqueued : list metaSweepJob;
  ss_ran : list metaSweepJob }.

Definition init_sweeps : sweep_system := MkSweeps (MkSweepQueue false None) [] [] [].

Inductive sweep_step : sweep_system -> sweep_system -> Prop :=
| sweep_submit s job q start :
    sweep_enqueue (ss_queue s) job = (q, start) ->
    sweep_step s (MkSweeps q (ss_workers s ++ if (start : bool) then [None] else []) (ss_enqueued s ++ [job]) (ss_ran s))
| sweep_take s before after q job :
    ss_workers s = before ++ None :: after -> sweep_next (ss_queue s) = (q, Some job) ->
    sweep_step s (MkSweeps q (before ++ Some job :: after) (ss_enqueued s) (ss_ran s ++ [job]))
| sweep_stop s before after q :
    ss_workers s = before ++ None :: after -> sweep_next (ss_queue s) = (q, None) ->
    sweep_step s (MkSweeps q (before ++ after) (ss_enqueued s) (ss_ran s))
| sweep_finish s before after job :
    ss_workers s = before ++ Some job :: after ->
    sweep_step s (MkSweeps (ss_queue s) (before ++ None :: after) (ss_enqueued s) (ss_ran s)).

Definition pending_list (s : sweep_system) : list metaSweepJob := option_list (sq_pending (ss_queue s)).

Definition sweep_inv (s : sweep_system) : Prop :=
  length (ss_workers s) = (if sq_running (ss_queue s) then 1 else 0)%nat /\
  (sq_pending (ss_queue s) <> None -> sq_running (ss_queue s) = true) /\
  (ss_ran s ++ pending_list s) `sublist_of` ss_enqueued s /\
  last (ss_ran s ++ pending_list s) = last (ss_enqueued s).

Lemma sweep_step_inv s s' : sweep_inv s -> sweep_step s s' -> sweep_inv s'.
Proof.
  unfold sweep_inv, pending_list; intros (Hw & Hp & Hsub & Hlast) Hstep; revert Hw Hp Hsub Hlast.
  destruct Hstep as [s job q start Hq|s before after q job Hw Hq|s before after q Hw Hq|s before after job Hw];
    cbn [ss_queue ss_workers ss_enqueued ss_ran]; intros Hw' Hp Hsub Hlast.
  - assert (ss_ran s `sublist_of` ss_enqueued s) as Hran.
    { etrans; [|exact Hsub]; by apply sublist_inserts_r. }
    unfold sweep_enqueue in Hq; destruct (sq_running (ss_queue s)); injection Hq as <- <-; cbn;
      rewrite length_app, Hw'; cbn; rewrite !last_snoc; split_and!; try done; by apply sublist_app.
  - rewrite Hw in Hw'; unfold sweep_next in Hq; destruct (sq_pending (ss_queue s)); [|done].
    injection Hq as <- <-; cbn in *; rewrite app_nil_r; rewrite !length_app in *; cbn in *; done.
  - rewrite Hw in Hw'; unfold sweep_next in Hq; destruct (sq_pending (ss_queue s)); [done|].
    injection Hq as <-; cbn in *; rewrite !length_app in *; cbn in *.
    split_and!; try done; destruct (sq_running (ss_queue s)); lia.
  - rewrite Hw in Hw'; rewrite !length_app in *; cbn in *; done.
Qed.

(** ** Lists of the sweep and the enumeration *)
Section sweeping.
Context {Media L : Type} `{Lru L Media} (decode : ExtensionKind -> list Z -> option Media).

Definition missing_ok (c : L) (seen : gset string) (uri : string) : Prop :=
  uri <> "" /\ uri ∉ seen /\ lru_Peek c uri = None.

Lemma missing_loop_spec c seen uris :
  NoDup (missing_loop c seen uris) /\ missing_loop c seen uris `sublist_of` uris /\
  forall uri, uri ∈ missing_loop c seen uris <-> uri ∈ uris /\ missing_ok c seen uri.
Proof.
  unfold missing_ok; revert seen; induction uris as [|u uris IH]; intros seen; cbn [missing_loop].
  { split_and!; [constructor | constructor |]; intros uri; split; [by intros ?%elem_of_nil | by intros [?%elem_of_nil _]]. }
  destruct (decide (u = "" \/ u ∈ seen)) as [Hskip|Hnew].
  { destruct (IH seen) as (Hnd & Hsub & Hel); split_and!; [done | by constructor |].
    intros uri; rewrite Hel, elem_of_cons; naive_solver. }
  destruct (IH ({[u]} ∪ seen)) as (Hnd & Hsub & Hel).
  destruct (lru_Peek c u) eqn:Hc.
  - split_and!; [done | by constructor |]; intros uri; rewrite Hel, elem_of_cons; set_solver.
  - split_and!; [constructor; [|done]; rewrite Hel; set_solver | by constructor |].
    intros uri; rewrite !elem_of_cons, Hel; destruct (decide (uri = u)) as [->|]; set_solver.
Qed.

Lemma fetch_ok_continues (fetch : nat -> list (string * ExtensionKind) -> result BatchedExtensionResponse)
    (c : option L) uris n :
  (forall req, exists resp, fetch n req = Ok resp) -> exists c' k, fetchBatch decode (fetch n) c uris = (c', Ok k).
Proof.
  intros Hok; unfold fetchBatch; destruct (batch_request uris) as [|x req]; [eauto|].
  destruct (Hok (x :: req)) as [resp ->]; destruct (cache_response decode c resp); eauto.
Qed.

Definition batch_ok (b : list string) : Prop := b <> [] /\ zlen b <= maxMetaBatch.

Lemma sweep_loop_spec fetch done fuel i (c : option L) uris :
  (length uris <= fuel)%nat ->
  exists c' batches, sweep_loop decode fuel fetch done i c uris = Ret (c', batches) /\
    concat batches `prefix_of` uris /\ Forall batch_ok batches /\
    ((forall n req, exists resp, fetch n req = Ok resp) -> (forall n, done n = false) -> concat batches = uris).
Proof.
  revert i c uris; induction fuel as [|fuel IH]; intros i c [|u uris] Hf; cbn [length] in Hf; try lia.
  1,2: exists c, []; split_and!; [done | done | constructor | done].
  cbn [sweep_loop]; set (us := u :: uris) in *; set (k := Z.min (zlen us) maxMetaBatch).
  assert (0 < zlen us) as Hpos by (unfold us; rewrite zlen_cons; pose proof (zlen_nonneg uris); lia).
  assert (zlen (takeZ k us) = k) as Hk by (rewrite zlen_takeZ; unfold k, maxMetaBatch; lia).
  rewrite Hk; assert (batch_ok (takeZ k us)) as Hb.
  { split; [intros Hnil; rewrite Hnil in Hk; change (zlen (@nil string)) with 0 in Hk; unfold k, maxMetaBatch in Hk; lia|].
    rewrite Hk; unfold k, maxMetaBatch; lia. }
  assert (forall c', exists c1 bs, Ret (c' : option L, [takeZ k us]) = Ret (c1, bs) /\ concat bs `prefix_of` us /\
    Forall batch_ok bs /\ concat bs = takeZ k us) as Hone.
  { intros c'; eexists _, _; split; [reflexivity|]; cbn [concat]; rewrite app_nil_r.
    split_and!; [by exists (dropZ k us); rewrite takeZ_dropZ | constructor; [done | constructor] | done]. }
  destruct (fetchBatch decode (fetch i) c (takeZ k us)) as [c1 [n|e]] eqn:Hfetch.
  - destruct (dropZ k us) as [|v rest] eqn:Hrest.
    { destruct (Hone c1) as (c2 & bs & -> & Hpre & Hbs & Hc); exists c2, bs; split_and!; try done.
      intros _ _; rewrite Hc; pose proof (takeZ_dropZ k us) as Htd; by rewrite Hrest, app_nil_r in Htd. }
    destruct (done i) eqn:Hdone.
    { destruct (Hone c1) as (c2 & bs & -> & Hpre & Hbs & Hc); exists c2, bs; split_and!; try done.
      intros _ Hnd; by rewrite Hnd in Hdone. }
    destruct (IH (S i) c1 (v :: rest)) as (c2 & bs & -> & [tl Htl] & Hbs & Hall).
    { assert (zlen (dropZ k us) = zlen us - k) as Hd by (rewrite zlen_dropZ; unfold k, maxMetaBatch; lia).
      assert (0 < k) by (unfold k, maxMetaBatch; lia); clearbody k.
      rewrite Hrest in Hd; unfold zlen, us in Hd; cbn [length] in Hd |- *; lia. }
    cbn [mbind run_bind]; eexists _, _; split; [reflexivity|]; cbn [concat]; split_and!.
    + exists tl; by rewrite <- app_assoc, <- Htl, <- Hrest, takeZ_dropZ.
    + by constructor.
    + intros Hok Hnd; by rewrite Hall, <- Hrest, takeZ_dropZ by done.
  - destruct (Hone c1) as (c2 & bs & -> & Hpre & Hbs & Hc); exists c2, bs; split_and!; try done.
    intros Hok _; destruct (fetch_ok_continues fetch c (takeZ k us) i (Hok i)) as (? & ? & ?); congruence.
Qed.
End sweeping.

(** The uris with metadata among [uris], in their order. *)
Definition listed (uris : list string) : list string := filter (fun u => is_Some (metaExtensionKind u)) uris.

Lemma listed_cons u uris : listed (u :: uris) = if listable u then u :: listed uris else listed uris.
Proof.
  unfold listed, listable; rewrite filter_cons.
  destruct (decide (is_Some (metaExtensionKind u))); [by rewrite bool_decide_eq_true_2 | by rewrite bool_decide_eq_false_2].
Qed.

Lemma listed_app us vs : listed (us ++ vs) = listed us ++ listed vs.
Proof. apply filter_app. Qed.

Definition item_uris (typ : SpotifyIdType) (items : list ContextTrack) (uris : list string) : Prop :=
  Forall2 (fun t u => contextTrackUri typ t = Ret u) items uris.

Lemma add_items_spec typ maxTracks acc items uris :
  item_uris typ items uris -> zlen acc < maxTracks ->
  add_items typ maxTracks acc items =
    Ret (bool_decide (maxTracks <= zlen (acc ++ listed uris)), takeZ maxTracks (acc ++ listed uris)).
Proof.
  intros Hi; revert acc; induction Hi as [|t u items uris Ht _ IH]; intros acc Hacc; cbn [add_items].
  { change (listed []) with (@nil string); rewrite app_nil_r, bool_decide_eq_false_2, takeZ_all by lia; done. }
  rewrite Ht, run_bind_Ret, listed_cons; destruct (listable u); [|by apply IH].
  replace (acc ++ u :: listed uris) with ((acc ++ [u]) ++ listed uris) by (by rewrite <- app_assoc).
  assert (zlen (acc ++ [u]) = zlen acc + 1) as Hl by (rewrite zlen_app; unfold zlen; cbn; lia).
  destruct (decide (zlen (acc ++ [u]) = maxTracks)) as [Hm|Hm]; [|apply IH; lia].
  rewrite bool_decide_eq_true_2 by (rewrite zlen_app; pose proof (zlen_nonneg (listed uris)); lia).
  by rewrite takeZ_app_le, takeZ_all by lia.
Qed.

(** A resolver that, in any state satisfying [I], serves the pages [pages] and
    then the end of the context. *)
Definition serves_pages {R} `{!ContextResolver R} (I : R -> Prop) (pages : list (list ContextTrack)) : Prop :=
  forall r i, I r -> 0 <= i -> exists r' res, Page r i = (r', res) /\ I r' /\
    match nthZ pages i with
    | Some items => res = Ok items
    | None => exists e, res = Err e /\ errors_Is e io_EOF = true
    end.

Lemma enumerate_loop_spec {R} `{!ContextResolver R} (I : R -> Prop) typ maxTracks pages : forall r before uris acc (n : nat),
  I r -> serves_pages I (before ++ pages) -> item_uris typ (concat pages) uris ->
  zlen acc < maxTracks -> (length pages <= n)%nat ->
  exists r', enumerate_loop n r typ maxTracks (zlen before) acc = Ret (r', Ok (takeZ maxTracks (acc ++ listed uris))) /\ I r'.
Proof.
  induction pages as [|p pages IH]; intros r before uris acc n HI Hs Hu Hacc Hn.
  - apply Forall2_nil_inv_l in Hu as ->; change (listed []) with (@nil string).
    rewrite app_nil_r, takeZ_all by lia; destruct n as [|n]; [by exists r|]; cbn [enumerate_loop].
    destruct (Hs r (zlen before) HI (zlen_nonneg _)) as (r' & res & -> & HI' & Hres).
    rewrite nthZ_out in Hres by (rewrite app_nil_r; lia); destruct Hres as (e & -> & ->); by exists r'.
  - destruct n as [|n]; [cbn in Hn; lia|]; cbn [enumerate_loop concat] in *.
    apply Forall2_app_inv_l in Hu as (us & vs & Hus & Hvs & ->).
    destruct (Hs r (zlen before) HI (zlen_nonneg _)) as (r' & res & -> & HI' & Hres).
    rewrite nthZ_app_r, Z.sub_diag, (nthZ_cons_0 p pages) in Hres by lia; subst res.
    rewrite (add_items_spec typ maxTracks acc p us) by done; cbn [mbind run_bind].
    rewrite listed_app, app_assoc; destruct (decide (maxTracks <= zlen (acc ++ listed us))) as [Hfull|Hnot].
    + rewrite bool_decide_eq_true_2, (takeZ_app_le _ (acc ++ listed us)) by done; by exists r'.
    + rewrite bool_decide_eq_false_2, (takeZ_all _ (acc ++ listed us)) by lia.
      replace (zlen before + 1) with (zlen (before ++ [p])) by (rewrite zlen_app; unfold zlen; cbn; lia).
      apply IH; [done | by rewrite <- app_assoc | done | lia | cbn in Hn; lia].
Qed.
