(* ===== verification/MetaCacheClaims.v ===== *)
(** * What the metadata and listing caches guarantee

    The theorems about [MetaCache], with their witnesses. *)

From stdpp Require Import functions.
From S2P Require Import Prelude PagedList Ids Tracks MetaCache.
#[local] Open Scope string_scope.
#[local] Open Scope list_scope.
#[local] Open Scope Z_scope.

(** ** Concrete values for the witnesses *)
Abbreviation demo_listings := (listing_system (L := lru_list contextListEntry)).

Definition demo_claimed : demo_listings :=
  MkListing (claim_fetch (ls_cache init_listing) "spotify:playlist:p").1
    [MkFetcher "spotify:playlist:p" 0 ["a"]]
    (<["spotify:playlist:p" := [["a"]]]> (fun _ => [])) 0.

Definition demo_stored : demo_listings :=
  MkListing (list_put 10 (ls_cache demo_claimed) "spotify:playlist:p" ["a"] 0)
    (ls_fetchers demo_claimed) (ls_fresh demo_claimed) 0.

Definition demo_job (label : string) : metaSweepJob := MkSweep [label] label.

#[local] Instance demo_context : ContextResolver (list (list ContextTrack)) := {
  cr_pages := fun r i => (r, match nthZ r i with Some items => Ok items | None => Err io_EOF end);
  cr_Type _ := "track";
  cr_Metadata _ := None
}.

Definition demo_item (uri : string) : ContextTrack := MkContextTrack uri "" [] None.

(** C35: A context listing served from the cache is never older than a change
    made through the daemon: however enumerations, invalidations and requests
    interleave, with a change arriving while an enumeration is under way in
    particular, the listing served for a context was obtained by an enumeration
    begun after the context was last invalidated; and at most one enumeration
    of a context runs at a time. *)
Theorem stale_listing_never_served {L} `{LruLaws L contextListEntry} (s : listing_system (L := L)) (now : Z)
    (uri : string) (uris : list string) :
  star listing_step init_listing s -> ls_invals s < 2 ^ 64 ->
  (list_get now (ls_cache s) uri).2 = Some uris ->
  uris ∈ ls_fresh s uri /\ NoDup (f_uri <$> ls_fetchers s).
Proof.
  intros Hreach Hb Hget.
  assert (listing_inv s) as (_ & Hnd & _ & He).
  { eapply (star_invariant listing_step listing_inv); eauto using listing_step_inv, init_listing_inv. }
  split; [|done]; pose proof (lru_get_value (cl_lru (ls_cache s)) uri) as Hv.
  unfold list_get in Hget; destruct (lru_Get (cl_lru (ls_cache s)) uri) as [l e]; cbn in Hv, Hget.
  subst e; destruct (lru_Peek (cl_lru (ls_cache s)) uri) as [e|] eqn:Hp; [|done].
  destruct (decide _); [done|]; injection Hget as <-; by eapply He.
Qed.

Lemma stale_listing_never_served_witness :
  ["a"] ∈ ls_fresh demo_stored "spotify:playlist:p" /\ NoDup (f_uri <$> ls_fetchers demo_stored).
Proof.
  apply (stale_listing_never_served demo_stored 20 "spotify:playlist:p" ["a"]); [|reflexivity|reflexivity].
  eapply star_step; [apply (listing_claim init_listing "spotify:playlist:p" ["a"]); reflexivity|].
  eapply star_step; [apply (listing_put demo_claimed 10 (MkFetcher "spotify:playlist:p" 0 ["a"])); left|].
  apply star_refl.
Defined.

(** Metadata sweeps run one at a time and the newest is never lost: at every
    moment at most one worker exists, the jobs run so far and the one waiting
    are jobs submitted, in their order, the last of them is the last one
    submitted, and when no worker is left every job but the replaced ones has
    run. *)
Theorem sweeps_serialised (s : sweep_system) :
  star sweep_step init_sweeps s ->
  (length (ss_workers s) <= 1)%nat /\
  (ss_ran s ++ pending_list s) `sublist_of` ss_enqueued s /\
  last (ss_ran s ++ pending_list s) = last (ss_enqueued s) /\
  (ss_workers s = [] -> last (ss_ran s) = last (ss_enqueued s)).
Proof.
  intros Hreach; assert (sweep_inv s) as (Hw & Hp & Hsub & Hlast).
  { eapply (star_invariant sweep_step sweep_inv); [exact sweep_step_inv | exact Hreach |].
    split_and!; [done | done | constructor | done]. }
  split_and!; [destruct (sq_running (ss_queue s)); lia | done | done |].
  intros Hnone; rewrite Hnone in Hw; revert Hlast; unfold pending_list.
  destruct (sq_pending (ss_queue s)); [|by rewrite app_nil_r].
  by rewrite Hp in Hw by done.
Qed.

Definition demo_sweeping : sweep_system :=
  MkSweeps (MkSweepQueue true (Some (demo_job "c"))) [Some (demo_job "a")]
    [demo_job "a"; demo_job "b"; demo_job "c"] [demo_job "a"].

Lemma sweeps_serialised_witness :
  (length (ss_workers demo_sweeping) <= 1)%nat /\
  last (ss_ran demo_sweeping ++ pending_list demo_sweeping) = last (ss_enqueued demo_sweeping).
Proof.
  destruct (sweeps_serialised demo_sweeping) as (Hw & _ & Hl & _); [|split; [exact Hw | exact Hl]].
  eapply star_step; [apply (sweep_submit init_sweeps (demo_job "a")); reflexivity|].
  eapply star_step; [apply (sweep_take _ [] [] (MkSweepQueue true None) (demo_job "a")); reflexivity|].
  eapply star_step; [apply (sweep_submit _ (demo_job "b")); reflexivity|].
  eapply star_step; [apply (sweep_submit _ (demo_job "c")); reflexivity|].
  apply star_refl.
Defined.

(** What a sweep asks for is what is missing: the nonempty uris without
    metadata in the cache, in the order given and once each. *)
Theorem missing_is_uncached {Media L} `{Lru L Media} (c : L) (uris : list string) :
  let out := missing (Media := Media) (Some c) uris in
  NoDup out /\ out `sublist_of` uris /\
  (forall uri, uri ∈ out <-> uri ∈ uris /\ uri <> "" /\ lru_Peek (V := Media) c uri = None).
Proof.
  destruct (missing_loop_spec (Media := Media) c ∅ uris) as (Hnd & Hsub & Hel); split_and!; [done | done |].
  intros uri; unfold missing; rewrite Hel; unfold missing_ok; set_solver.
Qed.

(** A sweep always ends, and asks for the missing uris in order, in
    nonempty batches of at most a hundred, skipping none; when every request is
    answered and the sweep is not cancelled, it asks for all of them. *)
Theorem sweep_covers_missing {Media L} `{Lru L Media} (decode : ExtensionKind -> list Z -> option Media)
    (fetch : nat -> list (string * ExtensionKind) -> result BatchedExtensionResponse) (done : nat -> bool)
    (c : option L) (uris : list string) :
  exists c' batches, sweep decode fetch done c uris = Ret (c', batches) /\
    concat batches `prefix_of` uris /\ Forall batch_ok batches /\
    ((forall n req, exists resp, fetch n req = Ok resp) -> (forall n, done n = false) -> concat batches = uris).
Proof. by apply sweep_loop_spec. Qed.

(** Enumerating a context lists it: of a context of at most 256 pages, the
    uris that carry metadata, in the context's order, cut off at the
    configured number of tracks, and the walk ends. *)
Theorem enumerate_lists_context {R} `{!ContextResolver R} (I : R -> Prop) (r : R) (pages : list (list ContextTrack))
    (uris : list string) (configured : Z) :
  I r -> serves_pages I pages -> item_uris (cr_Type r) (concat pages) uris -> zlen pages <= maxContextPages ->
  exists r', enumerateContextTracks r (effectiveMetaMaxTracks configured) =
    Ret (r', Ok (takeZ (effectiveMetaMaxTracks configured) (listed uris))) /\ I r'.
Proof.
  intros HI Hs Hu Hn; unfold enumerateContextTracks.
  apply (enumerate_loop_spec I (cr_Type r) _ pages r [] uris []); [done | done | done | | unfold zlen, maxContextPages in *; lia].
  unfold effectiveMetaMaxTracks, defaultMetaMaxTracks; change (zlen (@nil string)) with 0; case_decide; lia.
Qed.

Lemma enumerate_lists_context_witness :
  let r := [[demo_item "spotify:track:x"; demo_item "spotify:local:y"]; [demo_item "spotify:episode:z"]] in
  enumerateContextTracks r 800 = Ret (r, Ok ["spotify:track:x"; "spotify:episode:z"]).
Proof.
  intros r; destruct (enumerate_lists_context (fun r' => r' = r) r r
    ["spotify:track:x"; "spotify:local:y"; "spotify:episode:z"] 0) as (r' & E & Hr').
  - reflexivity.
  - intros r' i -> Hi; do 2 eexists; split; [reflexivity|]; split; [reflexivity|].
    destruct (nthZ r i); [reflexivity|]; by exists io_EOF.
  - repeat constructor.
  - apply Z.leb_le; reflexivity.
  - subst r'; exact E.
Defined.
