(* ===== verification/PlayerState.v ===== *)
(** * The player's state ([src/daemon/player_state.go], [src/daemon/player.go])

    The connect state the device reports, the rest of what the player loop
    keeps, and the operations of [State].  The loop's handlers are in
    [Controls].  Left out of the reported state are the fields no handler reads
    back (restrictions, suppressions, play origin, context metadata). *)

From stdpp Require Import gmap.
From S2P Require Import Prelude Ids Tracks.
#[local] Open Scope string_scope.
#[local] Open Scope list_scope.
#[local] Open Scope Z_scope.

Inductive SleepTimerType := SleepTimerTimestamp (at_ : Z) | SleepTimerEndOfTrack.

(** ** [connectpb.PlayerState]; times and positions are in milliseconds *)
Record PlayerState := MkPlayerState {
  ps_IsPlaying : bool;
  ps_IsPaused : bool;
  ps_IsBuffering : bool;
  ps_PlaybackSpeed : Z;
  ps_Timestamp : Z;
  ps_PositionAsOfTimestamp : Z;
  ps_Duration : Z;
  ps_PlaybackId : string;
  ps_SessionId : string;
  ps_ContextUri : string;
  ps_ContextUrl : string;
  ps_Track : option ProvidedTrack;
  ps_PrevTracks : list ProvidedTrack;
  ps_NextTracks : list ProvidedTrack;
  ps_Index : option ContextIndex;
  ps_RepeatingContext : bool;
  ps_RepeatingTrack : bool;
  ps_ShufflingContext : bool;
  ps_Modes : gmap string string;
  ps_SleepTimer : option SleepTimerType
}.

(** Field updates of the reported state. *)
Definition set_IsPlaying (v : bool) (s : PlayerState) : PlayerState :=
  MkPlayerState v (ps_IsPaused s) (ps_IsBuffering s) (ps_PlaybackSpeed s) (ps_Timestamp s)
    (ps_PositionAsOfTimestamp s) (ps_Duration s) (ps_PlaybackId s) (ps_SessionId s) (ps_ContextUri s)
    (ps_ContextUrl s) (ps_Track s) (ps_PrevTracks s) (ps_NextTracks s) (ps_Index s) (ps_RepeatingContext s)
    (ps_RepeatingTrack s) (ps_ShufflingContext s) (ps_Modes s) (ps_SleepTimer s).
Definition set_IsPaused (v : bool) (s : PlayerState) : PlayerState :=
  MkPlayerState (ps_IsPlaying s) v (ps_IsBuffering s) (ps_PlaybackSpeed s) (ps_Timestamp s)
    (ps_PositionAsOfTimestamp s) (ps_Duration s) (ps_PlaybackId s) (ps_SessionId s) (ps_ContextUri s)
    (ps_ContextUrl s) (ps_Track s) (ps_PrevTracks s) (ps_NextTracks s) (ps_Index s) (ps_RepeatingContext s)
    (ps_RepeatingTrack s) (ps_ShufflingContext s) (ps_Modes s) (ps_SleepTimer s).
Definition set_IsBuffering (v : bool) (s : PlayerState) : PlayerState :=
  MkPlayerState (ps_IsPlaying s) (ps_IsPaused s) v (ps_PlaybackSpeed s) (ps_Timestamp s)
    (ps_PositionAsOfTimestamp s) (ps_Duration s) (ps_PlaybackId s) (ps_SessionId s) (ps_ContextUri s)
    (ps_ContextUrl s) (ps_Track s) (ps_PrevTracks s) (ps_NextTracks s) (ps_Index s) (ps_RepeatingContext s)
    (ps_RepeatingTrack s) (ps_ShufflingContext s) (ps_Modes s) (ps_SleepTimer s).
Definition set_PlaybackSpeed (v : Z) (s : PlayerState) : PlayerState :=
  MkPlayerState (ps_IsPlaying s) (ps_IsPaused s) (ps_IsBuffering s) v (ps_Timestamp s) (ps_PositionAsOfTimestamp
    s) (ps_Duration s) (ps_PlaybackId s) (ps_SessionId s) (ps_ContextUri s) (ps_ContextUrl s) (ps_Track s)
    (ps_PrevTracks s) (ps_NextTracks s) (ps_Index s) (ps_RepeatingContext s) (ps_RepeatingTrack s)
    (ps_ShufflingContext s) (ps_Modes s) (ps_SleepTimer s).
Definition set_Timestamp (v : Z) (s : PlayerState) : PlayerState :=
  MkPlayerState (ps_IsPlaying s) (ps_IsPaused s) (ps_IsBuffering s) (ps_PlaybackSpeed s) v
    (ps_PositionAsOfTimestamp s) (ps_Duration s) (ps_PlaybackId s) (ps_SessionId s) (ps_ContextUri s)
    (ps_ContextUrl s) (ps_Track s) (ps_PrevTracks s) (ps_NextTracks s) (ps_Index s) (ps_RepeatingContext s)
    (ps_RepeatingTrack s) (ps_ShufflingContext s) (ps_Modes s) (ps_SleepTimer s).
Definition set_PositionAsOfTimestamp (v : Z) (s : PlayerState) : PlayerState :=
  MkPlayerState (ps_IsPlaying s) (ps_IsPaused s) (ps_IsBuffering s) (ps_PlaybackSpeed s) (ps_Timestamp s) v
    (ps_Duration s) (ps_PlaybackId s) (ps_SessionId s) (ps_ContextUri s) (ps_ContextUrl s) (ps_Track s)
    (ps_PrevTracks s) (ps_NextTracks s) (ps_Index s) (ps_RepeatingContext s) (ps_RepeatingTrack s)
    (ps_ShufflingContext s) (ps_Modes s) (ps_SleepTimer s).
Definition set_Duration (v : Z) (s : PlayerState) : PlayerState :=
  MkPlayerState (ps_IsPlaying s) (ps_IsPaused s) (ps_IsBuffering s) (ps_PlaybackSpeed s) (ps_Timestamp s)
    (ps_PositionAsOfTimestamp s) v (ps_PlaybackId s) (ps_SessionId s) (ps_ContextUri s) (ps_ContextUrl s)
    (ps_Track s) (ps_PrevTracks s) (ps_NextTracks s) (ps_Index s) (ps_RepeatingContext s) (ps_RepeatingTrack s)
    (ps_ShufflingContext s) (ps_Modes s) (ps_SleepTimer s).
Definition set_PlaybackId (v : string) (s : PlayerState) : PlayerState :=
  MkPlayerState (ps_IsPlaying s) (ps_IsPaused s) (ps_IsBuffering s) (ps_PlaybackSpeed s) (ps_Timestamp s)
    (ps_PositionAsOfTimestamp s) (ps_Duration s) v (ps_SessionId s) (ps_ContextUri s) (ps_ContextUrl s) (ps_Track
    s) (ps_PrevTracks s) (ps_NextTracks s) (ps_Index s) (ps_RepeatingContext s) (ps_RepeatingTrack s)
    (ps_ShufflingContext s) (ps_Modes s) (ps_SleepTimer s).
Definition set_SessionId (v : string) (s : PlayerState) : PlayerState :=
  MkPlayerState (ps_IsPlaying s) (ps_IsPaused s) (ps_IsBuffering s) (ps_PlaybackSpeed s) (ps_Timestamp s)
    (ps_PositionAsOfTimestamp s) (ps_Duration s) (ps_PlaybackId s) v (ps_ContextUri s) (ps_ContextUrl s) (ps_Track
    s) (ps_PrevTracks s) (ps_NextTracks s) (ps_Index s) (ps_RepeatingContext s) (ps_RepeatingTrack s)
    (ps_ShufflingContext s) (ps_Modes s) (ps_SleepTimer s).
Definition set_ContextUri (v : string) (s : PlayerState) : PlayerState :=
  MkPlayerState (ps_IsPlaying s) (ps_IsPaused s) (ps_IsBuffering s) (ps_PlaybackSpeed s) (ps_Timestamp s)
    (ps_PositionAsOfTimestamp s) (ps_Duration s) (ps_PlaybackId s) (ps_SessionId s) v (ps_ContextUrl s) (ps_Track
    s) (ps_PrevTracks s) (ps_NextTracks s) (ps_Index s) (ps_RepeatingContext s) (ps_RepeatingTrack s)
    (ps_ShufflingContext s) (ps_Modes s) (ps_SleepTimer s).
Definition set_ContextUrl (v : string) (s : PlayerState) : PlayerState :=
  MkPlayerState (ps_IsPlaying s) (ps_IsPaused s) (ps_IsBuffering s) (ps_PlaybackSpeed s) (ps_Timestamp s)
    (ps_PositionAsOfTimestamp s) (ps_Duration s) (ps_PlaybackId s) (ps_SessionId s) (ps_ContextUri s) v (ps_Track
    s) (ps_PrevTracks s) (ps_NextTracks s) (ps_Index s) (ps_RepeatingContext s) (ps_RepeatingTrack s)
    (ps_ShufflingContext s) (ps_Modes s) (ps_SleepTimer s).
Definition set_Track (v : option ProvidedTrack) (s : PlayerState) : PlayerState :=
  MkPlayerState (ps_IsPlaying s) (ps_IsPaused s) (ps_IsBuffering s) (ps_PlaybackSpeed s) (ps_Timestamp s)
    (ps_PositionAsOfTimestamp s) (ps_Duration s) (ps_PlaybackId s) (ps_SessionId s) (ps_ContextUri s)
    (ps_ContextUrl s) v (ps_PrevTracks s) (ps_NextTracks s) (ps_Index s) (ps_RepeatingContext s)
    (ps_RepeatingTrack s) (ps_ShufflingContext s) (ps_Modes s) (ps_SleepTimer s).
Definition set_PrevTracks (v : list ProvidedTrack) (s : PlayerState) : PlayerState :=
  MkPlayerState (ps_IsPlaying s) (ps_IsPaused s) (ps_IsBuffering s) (ps_PlaybackSpeed s) (ps_Timestamp s)
    (ps_PositionAsOfTimestamp s) (ps_Duration s) (ps_PlaybackId s) (ps_SessionId s) (ps_ContextUri s)
    (ps_ContextUrl s) (ps_Track s) v (ps_NextTracks s) (ps_Index s) (ps_RepeatingContext s) (ps_RepeatingTrack s)
    (ps_ShufflingContext s) (ps_Modes s) (ps_SleepTimer s).
Definition set_NextTracks (v : list ProvidedTrack) (s : PlayerState) : PlayerState :=
  MkPlayerState (ps_IsPlaying s) (ps_IsPaused s) (ps_IsBuffering s) (ps_PlaybackSpeed s) (ps_Timestamp s)
    (ps_PositionAsOfTimestamp s) (ps_Duration s) (ps_PlaybackId s) (ps_SessionId s) (ps_ContextUri s)
    (ps_ContextUrl s) (ps_Track s) (ps_PrevTracks s) v (ps_Index s) (ps_RepeatingContext s) (ps_RepeatingTrack s)
    (ps_ShufflingContext s) (ps_Modes s) (ps_SleepTimer s).
Definition set_Index (v : option ContextIndex) (s : PlayerState) : PlayerState :=
  MkPlayerState (ps_IsPlaying s) (ps_IsPaused s) (ps_IsBuffering s) (ps_PlaybackSpeed s) (ps_Timestamp s)
    (ps_PositionAsOfTimestamp s) (ps_Duration s) (ps_PlaybackId s) (ps_SessionId s) (ps_ContextUri s)
    (ps_ContextUrl s) (ps_Track s) (ps_PrevTracks s) (ps_NextTracks s) v (ps_RepeatingContext s)
    (ps_RepeatingTrack s) (ps_ShufflingContext s) (ps_Modes s) (ps_SleepTimer s).
Definition set_RepeatingContext (v : bool) (s : PlayerState) : PlayerState :=
  MkPlayerState (ps_IsPlaying s) (ps_IsPaused s) (ps_IsBuffering s) (ps_PlaybackSpeed s) (ps_Timestamp s)
    (ps_PositionAsOfTimestamp s) (ps_Duration s) (ps_PlaybackId s) (ps_SessionId s) (ps_ContextUri s)
    (ps_ContextUrl s) (ps_Track s) (ps_PrevTracks s) (ps_NextTracks s) (ps_Index s) v (ps_RepeatingTrack s)
    (ps_ShufflingContext s) (ps_Modes s) (ps_SleepTimer s).
Definition set_RepeatingTrack (v : bool) (s : PlayerState) : PlayerState :=
  MkPlayerState (ps_IsPlaying s) (ps_IsPaused s) (ps_IsBuffering s) (ps_PlaybackSpeed s) (ps_Timestamp s)
    (ps_PositionAsOfTimestamp s) (ps_Duration s) (ps_PlaybackId s) (ps_SessionId s) (ps_ContextUri s)
    (ps_ContextUrl s) (ps_Track s) (ps_PrevTracks s) (ps_NextTracks s) (ps_Index s) (ps_RepeatingContext s) v
    (ps_ShufflingContext s) (ps_Modes s) (ps_SleepTimer s).
Definition set_ShufflingContext (v : bool) (s : PlayerState) : PlayerState :=
  MkPlayerState (ps_IsPlaying s) (ps_IsPaused s) (ps_IsBuffering s) (ps_PlaybackSpeed s) (ps_Timestamp s)
    (ps_PositionAsOfTimestamp s) (ps_Duration s) (ps_PlaybackId s) (ps_SessionId s) (ps_ContextUri s)
    (ps_ContextUrl s) (ps_Track s) (ps_PrevTracks s) (ps_NextTracks s) (ps_Index s) (ps_RepeatingContext s)
    (ps_RepeatingTrack s) v (ps_Modes s) (ps_SleepTimer s).
Definition set_Modes (v : gmap string string) (s : PlayerState) : PlayerState :=
  MkPlayerState (ps_IsPlaying s) (ps_IsPaused s) (ps_IsBuffering s) (ps_PlaybackSpeed s) (ps_Timestamp s)
    (ps_PositionAsOfTimestamp s) (ps_Duration s) (ps_PlaybackId s) (ps_SessionId s) (ps_ContextUri s)
    (ps_ContextUrl s) (ps_Track s) (ps_PrevTracks s) (ps_NextTracks s) (ps_Index s) (ps_RepeatingContext s)
    (ps_RepeatingTrack s) (ps_ShufflingContext s) v (ps_SleepTimer s).
Definition set_SleepTimer (v : option SleepTimerType) (s : PlayerState) : PlayerState :=
  MkPlayerState (ps_IsPlaying s) (ps_IsPaused s) (ps_IsBuffering s) (ps_PlaybackSpeed s) (ps_Timestamp s)
    (ps_PositionAsOfTimestamp s) (ps_Duration s) (ps_PlaybackId s) (ps_SessionId s) (ps_ContextUri s)
    (ps_ContextUrl s) (ps_Track s) (ps_PrevTracks s) (ps_NextTracks s) (ps_Index s) (ps_RepeatingContext s)
    (ps_RepeatingTrack s) (ps_ShufflingContext s) (ps_Modes s) v.

(** The state [reset] installs. *)
Definition newPlayerState : PlayerState :=
  MkPlayerState false false false 1 0 0 0 "" "" "" "" None [] [] None false false false ∅ None.

(** ** Errors a load can end with *)
Definition ErrMediaRestricted : error := ESentinel "librespot.ErrMediaRestricted".
Definition ErrNoSupportedFormats : error := ESentinel "librespot.ErrNoSupportedFormats".

(** Any [*audio.KeyProviderError]; its code is only logged. *)
Definition KeyProviderError : error := ESentinel "audio.KeyProviderError".

(** [player.Stream]: the id it was requested as, its media's duration and its
    playback id; [st_MediaId] is the id of the media that came back. *)
Record Stream := MkStream {
  st_RequestedId : SpotifyId;
  st_MediaId : SpotifyId;
  st_Duration : Z;
  st_PlaybackId : string
}.

(** [Stream.Is]. *)
Definition same_id (a b : SpotifyId) : bool := bool_decide (id_typ a = id_typ b) && bool_decide (id_id a = id_id b).
Definition Stream_Is (s : Stream) (id : SpotifyId) : bool := same_id id (st_RequestedId s) || same_id id (st_MediaId s).

(** [player.StartPosition]. *)
Definition StartPosition (position duration : Z) : Z :=
  if decide (position <= 0 \/ duration <= position) then 0 else position.

(** ** What handlers do besides changing the state *)
Inductive PlayerCommand := PlayerPlay | PlayerPause | PlayerSeek (pos : Z) | PlayerStop | PlayerSetSecondary (src : option nat).

Inductive ApiEvent :=
| ApiPlaying (resume : bool) | ApiPaused | ApiNotPlaying | ApiStopped | ApiWillPlay (uri : string)
| ApiSeek (pos : Z) | ApiMetadata | ApiRepeatContext (v : bool) | ApiRepeatTrack (v : bool)
| ApiShuffleContext (v : bool) | ApiPlaybackError (stage uri : string) (e : error) | ApiInactive | ApiActive.

Inductive effect :=
| EffUpdateState (s : PlayerState)
| EffFlushState (s : PlayerState)
| EffBecameInactive
| EffPlayer (c : PlayerCommand)
| EffEmit (ev : ApiEvent)
| EffReportResume (id : SpotifyId) (pos : Z)
| EffReportFinished (id : SpotifyId)
| EffDropLoads
| EffLogout.

(** Why the code stopped: a panic, or the fuel of the model. *)
Inductive Crash := Panicked (why : string) | NoFuel.

(** ** The loop's own state, apart from the lanes and their counters

    [c_tracks] is the identity of the track list, which is reachable from the
    loader lane only; [c_effects] lists what was done, in order; [c_crash] is
    set when the code panics. *)
Record Ctl := MkCtl {
  c_active : bool;
  c_activeSince : option Z;
  c_activationTimestamp : Z;
  c_lastClusterTimestamp : Z;
  c_tracks : option nat;
  c_queueID : Z;
  c_primaryStream : option Stream;
  c_secondaryStream : option Stream;
  c_secondarySource : option nat;
  c_prefetchTimer : option Z;
  c_narrationJumped : bool;
  c_lastSkipAt : Z;
  c_consecutiveUnplayableSkips : Z;
  c_sleepAtEndOfTrack : bool;
  c_sleepTimer : option Z;
  c_resumeFinishedPlaybackId : option string;
  c_player : PlayerState;
  c_effects : list effect;
  c_crash : option Crash
}.

Definition set_active (v : bool) (c : Ctl) : Ctl :=
  MkCtl v (c_activeSince c) (c_activationTimestamp c) (c_lastClusterTimestamp c) (c_tracks c) (c_queueID c)
    (c_primaryStream c) (c_secondaryStream c) (c_secondarySource c) (c_prefetchTimer c) (c_narrationJumped c)
    (c_lastSkipAt c) (c_consecutiveUnplayableSkips c) (c_sleepAtEndOfTrack c) (c_sleepTimer c)
    (c_resumeFinishedPlaybackId c) (c_player c) (c_effects c) (c_crash c).
Definition set_activeSince (v : option Z) (c : Ctl) : Ctl :=
  MkCtl (c_active c) v (c_activationTimestamp c) (c_lastClusterTimestamp c) (c_tracks c) (c_queueID c)
    (c_primaryStream c) (c_secondaryStream c) (c_secondarySource c) (c_prefetchTimer c) (c_narrationJumped c)
    (c_lastSkipAt c) (c_consecutiveUnplayableSkips c) (c_sleepAtEndOfTrack c) (c_sleepTimer c)
    (c_resumeFinishedPlaybackId c) (c_player c) (c_effects c) (c_crash c).
Definition set_activationTimestamp (v : Z) (c : Ctl) : Ctl :=
  MkCtl (c_active c) (c_activeSince c) v (c_lastClusterTimestamp c) (c_tracks c) (c_queueID c) (c_primaryStream
    c) (c_secondaryStream c) (c_secondarySource c) (c_prefetchTimer c) (c_narrationJumped c) (c_lastSkipAt c)
    (c_consecutiveUnplayableSkips c) (c_sleepAtEndOfTrack c) (c_sleepTimer c) (c_resumeFinishedPlaybackId c)
    (c_player c) (c_effects c) (c_crash c).
Definition set_lastClusterTimestamp (v : Z) (c : Ctl) : Ctl :=
  MkCtl (c_active c) (c_activeSince c) (c_activationTimestamp c) v (c_tracks c) (c_queueID c) (c_primaryStream
    c) (c_secondaryStream c) (c_secondarySource c) (c_prefetchTimer c) (c_narrationJumped c) (c_lastSkipAt c)
    (c_consecutiveUnplayableSkips c) (c_sleepAtEndOfTrack c) (c_sleepTimer c) (c_resumeFinishedPlaybackId c)
    (c_player c) (c_effects c) (c_crash c).
Definition set_tracks (v : option nat) (c : Ctl) : Ctl :=
  MkCtl (c_active c) (c_activeSince c) (c_activationTimestamp c) (c_lastClusterTimestamp c) v (c_queueID c)
    (c_primaryStream c) (c_secondaryStream c) (c_secondarySource c) (c_prefetchTimer c) (c_narrationJumped c)
    (c_lastSkipAt c) (c_consecutiveUnplayableSkips c) (c_sleepAtEndOfTrack c) (c_sleepTimer c)
    (c_resumeFinishedPlaybackId c) (c_player c) (c_effects c) (c_crash c).
Definition set_queueID (v : Z) (c : Ctl) : Ctl :=
  MkCtl (c_active c) (c_activeSince c) (c_activationTimestamp c) (c_lastClusterTimestamp c) (c_tracks c) v
    (c_primaryStream c) (c_secondaryStream c) (c_secondarySource c) (c_prefetchTimer c) (c_narrationJumped c)
    (c_lastSkipAt c) (c_consecutiveUnplayableSkips c) (c_sleepAtEndOfTrack c) (c_sleepTimer c)
    (c_resumeFinishedPlaybackId c) (c_player c) (c_effects c) (c_crash c).
Definition set_primaryStream (v : option Stream) (c : Ctl) : Ctl :=
  MkCtl (c_active c) (c_activeSince c) (c_activationTimestamp c) (c_lastClusterTimestamp c) (c_tracks c)
    (c_queueID c) v (c_secondaryStream c) (c_secondarySource c) (c_prefetchTimer c) (c_narrationJumped c)
    (c_lastSkipAt c) (c_consecutiveUnplayableSkips c) (c_sleepAtEndOfTrack c) (c_sleepTimer c)
    (c_resumeFinishedPlaybackId c) (c_player c) (c_effects c) (c_crash c).
Definition set_secondaryStream (v : option Stream) (c : Ctl) : Ctl :=
  MkCtl (c_active c) (c_activeSince c) (c_activationTimestamp c) (c_lastClusterTimestamp c) (c_tracks c)
    (c_queueID c) (c_primaryStream c) v (c_secondarySource c) (c_prefetchTimer c) (c_narrationJumped c)
    (c_lastSkipAt c) (c_consecutiveUnplayableSkips c) (c_sleepAtEndOfTrack c) (c_sleepTimer c)
    (c_resumeFinishedPlaybackId c) (c_player c) (c_effects c) (c_crash c).
Definition set_secondarySource (v : option nat) (c : Ctl) : Ctl :=
  MkCtl (c_active c) (c_activeSince c) (c_activationTimestamp c) (c_lastClusterTimestamp c) (c_tracks c)
    (c_queueID c) (c_primaryStream c) (c_secondaryStream c) v (c_prefetchTimer c) (c_narrationJumped c)
    (c_lastSkipAt c) (c_consecutiveUnplayableSkips c) (c_sleepAtEndOfTrack c) (c_sleepTimer c)
    (c_resumeFinishedPlaybackId c) (c_player c) (c_effects c) (c_crash c).
Definition set_prefetchTimer (v : option Z) (c : Ctl) : Ctl :=
  MkCtl (c_active c) (c_activeSince c) (c_activationTimestamp c) (c_lastClusterTimestamp c) (c_tracks c)
    (c_queueID c) (c_primaryStream c) (c_secondaryStream c) (c_secondarySource c) v (c_narrationJumped c)
    (c_lastSkipAt c) (c_consecutiveUnplayableSkips c) (c_sleepAtEndOfTrack c) (c_sleepTimer c)
    (c_resumeFinishedPlaybackId c) (c_player c) (c_effects c) (c_crash c).
Definition set_narrationJumped (v : bool) (c : Ctl) : Ctl :=
  MkCtl (c_active c) (c_activeSince c) (c_activationTimestamp c) (c_lastClusterTimestamp c) (c_tracks c)
    (c_queueID c) (c_primaryStream c) (c_secondaryStream c) (c_secondarySource c) (c_prefetchTimer c) v
    (c_lastSkipAt c) (c_consecutiveUnplayableSkips c) (c_sleepAtEndOfTrack c) (c_sleepTimer c)
    (c_resumeFinishedPlaybackId c) (c_player c) (c_effects c) (c_crash c).
Definition set_lastSkipAt (v : Z) (c : Ctl) : Ctl :=
  MkCtl (c_active c) (c_activeSince c) (c_activationTimestamp c) (c_lastClusterTimestamp c) (c_tracks c)
    (c_queueID c) (c_primaryStream c) (c_secondaryStream c) (c_secondarySource c) (c_prefetchTimer c)
    (c_narrationJumped c) v (c_consecutiveUnplayableSkips c) (c_sleepAtEndOfTrack c) (c_sleepTimer c)
    (c_resumeFinishedPlaybackId c) (c_player c) (c_effects c) (c_crash c).
Definition set_consecutiveUnplayableSkips (v : Z) (c : Ctl) : Ctl :=
  MkCtl (c_active c) (c_activeSince c) (c_activationTimestamp c) (c_lastClusterTimestamp c) (c_tracks c)
    (c_queueID c) (c_primaryStream c) (c_secondaryStream c) (c_secondarySource c) (c_prefetchTimer c)
    (c_narrationJumped c) (c_lastSkipAt c) v (c_sleepAtEndOfTrack c) (c_sleepTimer c) (c_resumeFinishedPlaybackId
    c) (c_player c) (c_effects c) (c_crash c).
Definition set_sleepAtEndOfTrack (v : bool) (c : Ctl) : Ctl :=
  MkCtl (c_active c) (c_activeSince c) (c_activationTimestamp c) (c_lastClusterTimestamp c) (c_tracks c)
    (c_queueID c) (c_primaryStream c) (c_secondaryStream c) (c_secondarySource c) (c_prefetchTimer c)
    (c_narrationJumped c) (c_lastSkipAt c) (c_consecutiveUnplayableSkips c) v (c_sleepTimer c)
    (c_resumeFinishedPlaybackId c) (c_player c) (c_effects c) (c_crash c).
Definition set_sleepTimer (v : option Z) (c : Ctl) : Ctl :=
  MkCtl (c_active c) (c_activeSince c) (c_activationTimestamp c) (c_lastClusterTimestamp c) (c_tracks c)
    (c_queueID c) (c_primaryStream c) (c_secondaryStream c) (c_secondarySource c) (c_prefetchTimer c)
    (c_narrationJumped c) (c_lastSkipAt c) (c_consecutiveUnplayableSkips c) (c_sleepAtEndOfTrack c) v
    (c_resumeFinishedPlaybackId c) (c_player c) (c_effects c) (c_crash c).
Definition set_resumeFinishedPlaybackId (v : option string) (c : Ctl) : Ctl :=
  MkCtl (c_active c) (c_activeSince c) (c_activationTimestamp c) (c_lastClusterTimestamp c) (c_tracks c)
    (c_queueID c) (c_primaryStream c) (c_secondaryStream c) (c_secondarySource c) (c_prefetchTimer c)
    (c_narrationJumped c) (c_lastSkipAt c) (c_consecutiveUnplayableSkips c) (c_sleepAtEndOfTrack c) (c_sleepTimer
    c) v (c_player c) (c_effects c) (c_crash c).
Definition set_player (v : PlayerState) (c : Ctl) : Ctl :=
  MkCtl (c_active c) (c_activeSince c) (c_activationTimestamp c) (c_lastClusterTimestamp c) (c_tracks c)
    (c_queueID c) (c_primaryStream c) (c_secondaryStream c) (c_secondarySource c) (c_prefetchTimer c)
    (c_narrationJumped c) (c_lastSkipAt c) (c_consecutiveUnplayableSkips c) (c_sleepAtEndOfTrack c) (c_sleepTimer
    c) (c_resumeFinishedPlaybackId c) v (c_effects c) (c_crash c).
Definition set_effects (v : list effect) (c : Ctl) : Ctl :=
  MkCtl (c_active c) (c_activeSince c) (c_activationTimestamp c) (c_lastClusterTimestamp c) (c_tracks c)
    (c_queueID c) (c_primaryStream c) (c_secondaryStream c) (c_secondarySource c) (c_prefetchTimer c)
    (c_narrationJumped c) (c_lastSkipAt c) (c_consecutiveUnplayableSkips c) (c_sleepAtEndOfTrack c) (c_sleepTimer
    c) (c_resumeFinishedPlaybackId c) (c_player c) v (c_crash c).
Definition set_crash (v : option Crash) (c : Ctl) : Ctl :=
  MkCtl (c_active c) (c_activeSince c) (c_activationTimestamp c) (c_lastClusterTimestamp c) (c_tracks c)
    (c_queueID c) (c_primaryStream c) (c_secondaryStream c) (c_secondarySource c) (c_prefetchTimer c)
    (c_narrationJumped c) (c_lastSkipAt c) (c_consecutiveUnplayableSkips c) (c_sleepAtEndOfTrack c) (c_sleepTimer
    c) (c_resumeFinishedPlaybackId c) (c_player c) (c_effects c) v.

Definition newCtl : Ctl := MkCtl false None 0 0 None 0 None None None None false 0 0 false None None newPlayerState [] None.

Definition on_player (f : PlayerState -> PlayerState) (c : Ctl) : Ctl := set_player (f (c_player c)) c.
Definition add_effect (e : effect) (c : Ctl) : Ctl := set_effects (c_effects c ++ [e]) c.

(** ** [State] *)
Definition setPaused (val : bool) (s : PlayerState) : PlayerState :=
  set_PlaybackSpeed (if val then 0 else 1) (set_IsPaused val s).

Definition setActive (now : Z) (val : bool) (c : Ctl) : Ctl :=
  if val then if c_active c then c else set_activeSince (Some now) (set_active true c)
  else set_activeSince None (set_active false c).

Definition takeOver (now : Z) (c : Ctl) : Ctl :=
  let c := if c_active c then c else set_activationTimestamp (c_lastClusterTimestamp c) c in
  setActive now true c.

Definition state_reset (c : Ctl) : Ctl := set_player newPlayerState (set_activeSince None (set_active false c)).

Definition maxReasonableElapsed : Z := 600000.

Definition trackPosition (now : Z) (s : PlayerState) : Z :=
  if ps_IsPaused s || negb (ps_IsPlaying s) then ps_PositionAsOfTimestamp s
  else
    let elapsed := now - ps_Timestamp s in
    if decide (maxReasonableElapsed < elapsed \/ elapsed < 0) then ps_PositionAsOfTimestamp s
    else
      let calculated := ps_PositionAsOfTimestamp s + elapsed in
      if decide (calculated < 0) then ps_PositionAsOfTimestamp s else calculated.

(** The playback speed is a whole number here: the code only ever sets 0 or 1. *)
Definition updateTimestamp (now : Z) (s : PlayerState) : PlayerState :=
  let advancedPosition := (now - ps_Timestamp s) * ps_PlaybackSpeed s in
  set_Timestamp now (set_PositionAsOfTimestamp (ps_PositionAsOfTimestamp s + advancedPosition) s).

(** [max(0, min(position, duration))], the clamp of [play] and [seek]. *)
Definition clamp_position (position duration : Z) : Z := Z.max 0 (Z.min position duration).
