(* ===== verification/Resume.v ===== *)
(** * Where an episode was left, and why playing failed
    ([src/spclient/resumption.go], [src/daemon/resume.go],
    [src/daemon/playback_error.go], [ExtendedMetadataSimple])

    The resume points of episodes, the look-up of one entity's metadata in a
    batched answer, and the kind of a playback error. *)

From stdpp Require Import gmap.
From S2P Require Import Prelude Ids Hashcash Service PlayerState.
#[local] Open Scope string_scope.
#[local] Open Scope list_scope.
#[local] Open Scope Z_scope.

(** ** Resume points

    Durations and times are in nanoseconds. *)
Inductive ResumePoint :=
| ResumePoint_Position (d : Z)
| ResumePoint_RelativePosition (startOffset : Z)
| ResumePoint_Finished
| ResumePoint_Other.

Record ResumePointRevision := MkRevision { rv_UpdateTime : Z; rv_Snapshot : ResumePoint }.

Record CurrentState := MkCurrent { cs_Uri : string; cs_Revisions : list ResumePointRevision }.

Definition Milliseconds (d : Z) : Z := Z.quot d 1000000.

(** The most recently updated revision, the first of several as recent. *)
Definition latest_revision (revs : list ResumePointRevision) : option ResumePointRevision :=
  foldl (fun latest rev =>
    match latest with
    | None => Some rev
    | Some l => if decide (rv_UpdateTime l < rv_UpdateTime rev) then Some rev else latest
    end) None revs.

Definition position_of (p : ResumePoint) : Z :=
  match p with
  | ResumePoint_Position d => Milliseconds d
  | ResumePoint_RelativePosition d => Milliseconds d
  | ResumePoint_Finished | ResumePoint_Other => 0
  end.

Fixpoint resumePositionFromStates (uri : string) (states : list CurrentState) : Z :=
  match states with
  | [] => 0
  | s :: states =>
    if decide (cs_Uri s <> uri) then resumePositionFromStates uri states
    else
      match latest_revision (cs_Revisions s) with
      | None => resumePositionFromStates uri states
      | Some rev => position_of (rv_Snapshot rev)
      end
  end.

(** The point [SetResumePositionMs] stores: whole seconds. *)
Definition position_point (positionMs : Z) : ResumePoint :=
  ResumePoint_Position (i64 (Z.quot positionMs 1000 * second)).

Section resume.
Context {T : Type} `{Retry}.
Context (token : bool -> T -> run (T * sresult string)).
Context (server : nat -> HttpRequest -> http_answer).
Context (clientToken : string).
Context (marshal_filter : string -> list Z) (unmarshal_states : list Z -> result (list CurrentState)).
Context (marshal_point : string -> ResumePoint -> list Z).
Implicit Types w : World T.

Definition ResumePositionMs (id : SpotifyId) w : run (World T * sresult Z) :=
  uri ← Uri id;
  '(w, r) ← ListCurrentStates token server clientToken unmarshal_states (marshal_filter uri) w;
  Ret (w, match r with SOk states => SOk (resumePositionFromStates uri states) | SFail e => SFail e end).

Definition createResumePoint (id : SpotifyId) (point : ResumePoint) w : run (World T * option svc_error) :=
  uri ← Uri id;
  '(w, r) ← CreateResumePointRevision token server clientToken (fun b => Ok b) (marshal_point uri point) w;
  Ret (w, match r with SOk _ => None | SFail e => Some e end).

Definition SetResumePositionMs (id : SpotifyId) (positionMs : Z) : World T -> run (World T * option svc_error) :=
  createResumePoint id (position_point positionMs).

Definition SetResumeFinished (id : SpotifyId) : World T -> run (World T * option svc_error) :=
  createResumePoint id ResumePoint_Finished.

(** [None] is "not found". *)
Definition lookupResumePosition (id : SpotifyId) w : run (World T * option Z) :=
  if decide (id_typ id <> SpotifyIdTypeEpisode) then Ret (w, None)
  else
    '(w, r) ← ResumePositionMs id w;
    Ret (w, match r with
            | SFail _ => None
            | SOk pos => if decide (pos <= 0) then None else Some pos
            end).

(** ** One entity's metadata *)

(** An answer: the kind, and for each entity the status of its header, if it has
    one, and its data. *)
Record ExtensionArray (A : Type) := MkExtension { ex_Kind : Z; ex_Data : list (string * option Z * result A) }.
Arguments MkExtension {A}.
Arguments ex_Kind {A}.
Arguments ex_Data {A}.

Fixpoint entity_data {A} (uri : string) (data : list (string * option Z * result A)) : run (option (sresult A)) :=
  match data with
  | [] => Ret None
  | (entity, status, value) :: data =>
    if decide (entity <> uri) then entity_data uri data
    else
      match status with
      | None => Panic "nil pointer dereference"
      | Some status =>
        if decide (status <> 200) then Ret (Some (SFail (SErr (EMsg "extended metadata request returned status"))))
        else Ret (Some (match value with
                        | Ok a => SOk a
                        | Err e => SFail (SErr (EWrap "failed unmarshalling extended metadata data" e))
                        end))
      end
  end.

Fixpoint find_extension {A} (uri : string) (kind : Z) (items : list (ExtensionArray A)) : run (sresult A) :=
  match items with
  | [] => Ret (SFail (SErr (EMsg "extended metadata not found")))
  | item :: items =>
    if decide (ex_Kind item <> kind) then find_extension uri kind items
    else
      r ← entity_data uri (ex_Data item);
      match r with Some r => Ret r | None => find_extension uri kind items end
  end.

Definition ExtendedMetadataSimple {A} (marshal_query : string -> Z -> list Z)
    (unmarshal : list Z -> result (list (ExtensionArray A))) (id : SpotifyId) (kind : Z) w : run (World T * sresult A) :=
  uri ← Uri id;
  '(w, r) ← ExtendedMetadata token server clientToken unmarshal (marshal_query uri kind) w;
  match r with
  | SOk items => x ← find_extension uri kind items; Ret (w, x)
  | SFail e => Ret (w, SFail e)
  end.
End resume.

(** ** The kind of a playback error *)
Definition errSessionLost : error := ESentinel "lost the connection to Spotify".

Definition network_errors : list error :=
  [errSessionLost; ESentinel "syscall.ECONNRESET"; ESentinel "syscall.ECONNREFUSED"; ESentinel "syscall.ENETUNREACH";
   ESentinel "syscall.EHOSTUNREACH"; io_ErrUnexpectedEOF].

Inductive error_kind :=
| KindRestricted | KindUnsupported | KindRateLimited | KindRejected | KindServer | KindTimeout | KindNetwork | KindUnknown.

#[export] Instance error_kind_eq_dec : EqDecision error_kind.
Proof. solve_decision. Defined.

(** [errors.Is] and [errors.As] down the chain of causes. *)
Fixpoint chain_Is (e : svc_error) (target : error) : bool :=
  match e with
  | SErr e => errors_Is e target
  | SWrap _ c => chain_Is c target
  | SWith a b => chain_Is a target || chain_Is b target
  | _ => false
  end.

Fixpoint rate_limited (e : svc_error) : bool :=
  match e with
  | RateLimitedError _ => true
  | SWrap _ c => rate_limited c
  | SWith a b => rate_limited a || rate_limited b
  | _ => false
  end.

Fixpoint http_status (e : svc_error) : option Z :=
  match e with
  | HTTPStatusError _ code => Some code
  | SWrap _ c => http_status c
  | SWith a b => match http_status a with Some s => Some s | None => http_status b end
  | _ => None
  end.

(** [net_timeout e]: the [Timeout] of a [net.Error] in the chain. *)
Definition classifyPlaybackError (net_timeout : svc_error -> option bool) (e : svc_error) : error_kind :=
  if chain_Is e ErrMediaRestricted || chain_Is e KeyProviderError then KindRestricted
  else if chain_Is e ErrNoSupportedFormats then KindUnsupported
  else if rate_limited e then KindRateLimited
  else
    match http_status e with
    | Some code =>
      if decide (code = 429) then KindRateLimited
      else if decide (500 <= code) then KindServer
      else if decide (400 <= code) then KindRejected
      else KindUnknown
    | None =>
      if chain_Is e context_DeadlineExceeded then KindTimeout
      else
        match net_timeout e with
        | Some timeout => if timeout : bool then KindTimeout else KindNetwork
        | None => if existsb (chain_Is e) network_errors then KindNetwork else KindUnknown
        end
    end.

(** [isUnplayableMedia] on the errors of the services. *)
Definition unplayable (e : svc_error) : bool :=
  chain_Is e ErrMediaRestricted || chain_Is e ErrNoSupportedFormats || chain_Is e KeyProviderError.

(** ** Theorems *)

(** The latest revision is one of them, and none is later. *)
Lemma latest_revision_spec revs rev : latest_revision revs = Some rev ->
  rev ∈ revs /\ forall r, r ∈ revs -> rv_UpdateTime r <= rv_UpdateTime rev.
Proof.
  unfold latest_revision; revert rev; induction revs as [|x revs IH] using rev_ind; intros rev; [done|].
  rewrite foldl_app; simpl; destruct (foldl _ None revs) as [l|] eqn:Hl.
  - destruct (IH l eq_refl) as [Hin Hmax]; case_decide; intros; simplify_eq; split; try set_solver;
      intros r [Hr| ->%list_elem_of_singleton]%elem_of_app; try lia; specialize (Hmax r Hr); lia.
  - intros; simplify_eq; assert (revs = []) as ->; [|split; [set_solver|intros r Hr; set_unfold; naive_solver lia]].
    destruct revs as [|y revs] using rev_ind; [done|]; rewrite foldl_app in Hl; simpl in Hl; repeat case_match; done.
Qed.

(** Progress is found where it was left, to the second.  When the service lists
    for the episode the revision this device stored and no later one, the
    look-up gives the stored position rounded down to the second, and nothing
    when the episode was marked as finished. *)
Theorem resume_point_roundtrip (uri : string) (positionMs t : Z) (before after : list ResumePointRevision)
    (others : list CurrentState) (finished : bool) :
  0 <= positionMs < 2 ^ 43 ->
  Forall (fun r => rv_UpdateTime r < t) (before ++ after) -> Forall (fun s => cs_Uri s <> uri) others ->
  let point := if finished then ResumePoint_Finished else position_point positionMs in
  resumePositionFromStates uri (others ++ [MkCurrent uri (before ++ MkRevision t point :: after)]) =
    if finished then 0 else positionMs / 1000 * 1000.
Proof.
  intros Hp Hold Hoth point.
  assert (Hskip : forall l, resumePositionFromStates uri (others ++ l) = resumePositionFromStates uri l).
  { intros l; induction Hoth as [|s others Hs _ IH]; simpl; [done|]; by rewrite decide_True. }
  rewrite Hskip; simpl; rewrite decide_False by tauto.
  destruct (latest_revision _) as [rev|] eqn:Hl.
  2:{ exfalso; revert Hl; unfold latest_revision; rewrite foldl_app; simpl.
      assert (Hs : forall l x, foldl (fun latest rev => match latest with
        | None => Some rev | Some l => if decide (rv_UpdateTime l < rv_UpdateTime rev) then Some rev else latest end)
        (Some x) l <> None) by (intros l; induction l as [|y l IHl]; intros x; simpl; [done|]; case_decide; auto).
      destruct (foldl _ None before); [case_decide|]; apply Hs. }
  apply latest_revision_spec in Hl as [Hin Hmax].
  assert (rev = MkRevision t point) as ->.
  { rewrite Forall_forall in Hold; specialize (Hmax (MkRevision t point) ltac:(set_solver)); simpl in Hmax.
    apply elem_of_app in Hin as [Hin|Hin]; [specialize (Hold rev ltac:(set_solver)); lia|].
    apply elem_of_cons in Hin as [-> | Hin]; [done|specialize (Hold rev ltac:(set_solver)); lia]. }
  unfold point; destruct finished; [done|]; simpl; unfold Milliseconds, i64, swrap, second.
  rewrite (Z.quot_div_nonneg positionMs 1000) by lia.
  assert (Hs : 0 <= positionMs / 1000 <= 2 ^ 43 / 1000) by (split; [apply Z.div_pos|apply Z.div_le_mono]; lia).
  change (2 ^ 43 / 1000) with 8796093022 in Hs; rewrite wrap_small by lia.
  rewrite Z.quot_div_nonneg by lia.
  replace (positionMs / 1000 * 1000000000 + 2 ^ (64 - 1) - 2 ^ (64 - 1)) with (positionMs / 1000 * 1000 * 1000000) by lia.
  by rewrite Z.div_mul.
Qed.

Lemma resume_point_roundtrip_witness :
  resumePositionFromStates "spotify:episode:1"
    ([MkCurrent "spotify:episode:2" []] ++
     [MkCurrent "spotify:episode:1" ([MkRevision 5 ResumePoint_Finished] ++ MkRevision 9 (position_point 61234) :: [])]) = 61000.
Proof.
  apply (resume_point_roundtrip "spotify:episode:1" 61234 9 [MkRevision 5 ResumePoint_Finished] []
    [MkCurrent "spotify:episode:2" []] false); [lia|repeat constructor; simpl; lia|repeat constructor; done].
Defined.

(** An error is reported as unplayable media exactly when its kind is
    restricted or unsupported, so the two fields of the event agree. *)
Theorem unplayable_agrees_with_kind (net_timeout : svc_error -> option bool) (e : svc_error) :
  unplayable e = true <->
  classifyPlaybackError net_timeout e = KindRestricted \/ classifyPlaybackError net_timeout e = KindUnsupported.
Proof.
  unfold unplayable, classifyPlaybackError.
  destruct (chain_Is e ErrMediaRestricted), (chain_Is e KeyProviderError), (chain_Is e ErrNoSupportedFormats);
    simpl; try tauto; (split; [done|]); intros [Hk|Hk]; exfalso; revert Hk; repeat (case_match || case_decide); done.
Qed.

(** An entity without a header in the answer brings the process down. *)
Theorem missing_header_panics {A} (uri : string) (kind : Z) (value : result A) (rest : list (string * option Z * result A)) :
  find_extension uri kind [MkExtension A kind ((uri, None, value) :: rest)] = Panic "nil pointer dereference".
Proof. simpl; rewrite decide_False by tauto; simpl; by rewrite decide_False by tauto. Qed.
