(* ===== verification/StreamLoad.v ===== *)
(** * Building the stream of a track ([NewStream] of [src/player/player.go],
    [src/player/format.go], [src/player/restriction.go], [Media] of
    [src/player.go])

    What the loader lane does to turn an id into samples: metadata, relinking
    of a restricted track, choice of a file, audio key, cached or downloaded
    file, decryption, decoder, start position.  What the services and codecs
    answer is given by [LoadEnv]; what is opened and closed, and the telemetry
    of each stage, is recorded in order. *)

From Stdlib Require Import Ascii String.
From stdpp Require Import gmap.
From S2P Require Import Prelude Ids Source PlayerState.
#[local] Open Scope string_scope.
#[local] Open Scope list_scope.
#[local] Open Scope Z_scope.

(** ** Formats *)
Inductive AudioFile_Format :=
| OGG_VORBIS_96 | OGG_VORBIS_160 | OGG_VORBIS_320
| MP3_256 | MP3_320 | MP3_160 | MP3_96 | MP3_160_ENC
| AAC_24 | AAC_48
| FLAC_FLAC
| XHE_AAC_24 | XHE_AAC_16 | XHE_AAC_12
| FLAC_FLAC_24BIT.

#[export] Instance AudioFile_Format_eq_dec : EqDecision AudioFile_Format.
Proof. solve_decision. Defined.

(** [Format] is nil when the message has none or one this version of the schema
    does not know. *)
Record AudioFile := MkAudioFile { af_Format : option AudioFile_Format; af_FileId : list Z }.

Inductive AudioFormat := AudioFormatUnknown | AudioFormatFLAC | AudioFormatOGGVorbis | AudioFormatMP3 | AudioFormatAAC.

#[export] Instance AudioFormat_eq_dec : EqDecision AudioFormat.
Proof. solve_decision. Defined.

Definition GetFormatBitrate (f : AudioFile_Format) : Z :=
  match f with
  | MP3_96 => 96 | MP3_160 => 160 | MP3_256 => 256 | MP3_320 => 320
  | OGG_VORBIS_96 => 96 | OGG_VORBIS_160 => 160 | OGG_VORBIS_320 => 320
  | _ => 0
  end.

Definition GetAudioFileFormatAudioFormat (f : AudioFile_Format) : AudioFormat :=
  match f with
  | OGG_VORBIS_96 | OGG_VORBIS_160 | OGG_VORBIS_320 => AudioFormatOGGVorbis
  | FLAC_FLAC | FLAC_FLAC_24BIT => AudioFormatFLAC
  | MP3_96 | MP3_160 | MP3_256 | MP3_320 | MP3_160_ENC => AudioFormatMP3
  | AAC_24 | AAC_48 | XHE_AAC_12 | XHE_AAC_16 | XHE_AAC_24 => AudioFormatAAC
  end.

Definition GetFormatCodec (f : AudioFile_Format) : string :=
  match GetAudioFileFormatAudioFormat f with
  | AudioFormatOGGVorbis => "vorbis"
  | AudioFormatFLAC => "flac"
  | AudioFormatMP3 => "mp3"
  | AudioFormatAAC => "aac"
  | AudioFormatUnknown => "unknown"
  end.

Definition absDist (a b : Z) : Z := if decide (b < a) then a - b else b - a.

Definition deref {X} (o : option X) : run X :=
  match o with Some x => Ret x | None => Panic "nil pointer dereference" end.

(** The loop of [selectBestMediaFormat]; a nil file is dereferenced too. *)
Fixpoint select_loop (flac : bool) (preferred : Z) (files : list (option AudioFile)) (best : option (AudioFile * Z))
  : run (option AudioFile) :=
  match files with
  | [] => Ret (fst <$> best)
  | ff :: files =>
    ff ← deref ff;
    format ← deref (af_Format ff);
    if flac && bool_decide (format = FLAC_FLAC_24BIT \/ format = FLAC_FLAC) then Ret (Some ff)
    else
      let dist := absDist (GetFormatBitrate format) preferred in
      match best with
      | None => select_loop flac preferred files (Some (ff, dist))
      | Some (_, bestDist) =>
        select_loop flac preferred files (if decide (dist < bestDist) then Some (ff, dist) else best)
      end
  end.

Definition selectBestMediaFormat (files : list (option AudioFile)) (preferred : Z) (flac : bool)
  : run (option AudioFile) := select_loop flac preferred files None.

(** ** Restrictions *)
Inductive CountryRestriction :=
| CountriesAllowed (list : string)
| CountriesForbidden (list : string)
| NoCountryRestriction.

(** [strings.EqualFold] of a two-letter country code, which is ASCII. *)
Definition fold_char (c : ascii) : Z :=
  let n := Z.of_nat (nat_of_ascii c) in
  if decide (65 <= n <= 90) then n + 32 else n.

Fixpoint EqualFold (s t : string) : bool :=
  match s, t with
  | "", "" => true
  | String a s, String b t => bool_decide (fold_char a = fold_char b) && EqualFold s t
  | _, _ => false
  end.

(** Codes of two letters, one after the other: [list[i:i+2]] for [i] stepping
    by two, which a list of odd length makes go out of range. *)
Fixpoint country_in (country : string) (list : string) : run bool :=
  match list with
  | "" => Ret false
  | String _ "" => Panic "slice bounds out of range"
  | String a (String b rest) =>
    if EqualFold (String a (String b "")) country then Ret true else country_in country rest
  end.

(** Only the first restriction is looked at. *)
Definition isMediaRestricted (restrictions : list CountryRestriction) (country : string) : run bool :=
  if decide (String.length country <> 2%nat) then Ret false
  else
    match restrictions with
    | [] => Ret false
    | CountriesAllowed list :: _ =>
      if decide (list = "") then Ret true
      else b ← country_in country list; Ret (negb b)
    | CountriesForbidden list :: _ => country_in country list
    | NoCountryRestriction :: _ => Panic "unexpected country restriction"
    end.

(** ** Media *)

(** A track's alternative, as far as it is read. *)
Record AltTrack := MkAlt {
  alt_Gid : list Z;
  alt_Restriction : list CountryRestriction
}.

Record Track := MkTrack {
  tr_Gid : list Z;
  tr_Duration : option Z;
  tr_Restriction : list CountryRestriction;
  tr_Alternative : list AltTrack
}.

Record Episode := MkEpisode {
  ep_Gid : list Z;
  ep_Duration : option Z;
  ep_Restriction : list CountryRestriction;
  ep_Audio : list (option AudioFile)
}.

Inductive Media := MediaTrack (t : Track) | MediaEpisode (e : Episode).

Definition Media_Id (m : Media) : run SpotifyId :=
  match m with
  | MediaTrack t => SpotifyIdFromGid SpotifyIdTypeTrack (tr_Gid t)
  | MediaEpisode e => SpotifyIdFromGid SpotifyIdTypeEpisode (ep_Gid e)
  end.

(** The id [Stream.Is] compares with: the media's gid under its type. *)
Definition Media_gid (m : Media) : SpotifyId :=
  match m with
  | MediaTrack t => MkSpotifyId SpotifyIdTypeTrack (tr_Gid t)
  | MediaEpisode e => MkSpotifyId SpotifyIdTypeEpisode (ep_Gid e)
  end.

Definition Media_Duration (m : Media) : run Z :=
  match m with MediaTrack t => deref (tr_Duration t) | MediaEpisode e => deref (ep_Duration e) end.

Definition Media_Restriction (m : Media) : list CountryRestriction :=
  match m with MediaTrack t => tr_Restriction t | MediaEpisode e => ep_Restriction e end.

(** ** What the services answer *)
Inductive StorageResult := STORAGE_CDN | STORAGE_STORAGE | STORAGE_RESTRICTED | STORAGE_OTHER (n : Z).

Record StorageResolve := MkStorage { sr_Result : StorageResult; sr_Cdnurl : list string }.

(** [NormalizationParams] is opaque: the gain is floating point arithmetic. *)
Record AudioFiles := MkAudioFiles {
  fs_Files : list (option AudioFile);
  fs_DefaultFileNormalizationParams : option Z;
  fs_DefaultAlbumNormalizationParams : option Z
}.

(** What a decoder found in the file. *)
Record Decoder := MkDecoder { dec_SampleRate : Z; dec_Channels : Z; dec_BitDepth : Z }.

Record LoadEnv := MkLoadEnv {
  le_track : SpotifyId -> result Track;
  le_audioFiles : SpotifyId -> result AudioFiles;
  le_episode : SpotifyId -> result Episode;
  le_playplay : bool;
  le_license : list Z -> result (list Z);
  le_deobfuscate : list Z -> list Z -> result (list Z);
  le_keyRequest : SpotifyId -> list Z -> result (list Z);
  le_cached : list Z -> bool;
  le_storage : list Z -> AudioFile_Format -> result StorageResolve;
  le_urlHost : string -> result string;
  le_openUrl : nat -> string -> option error;
  le_now : nat -> Z;
  le_failedAt : nat -> Z;
  le_metadataPage : option error;
  le_decoder : AudioFormat -> result Decoder;
  le_seek : Z -> option error;
  le_playbackId : string
}.

Record LoadConfig := MkLoadConfig {
  lc_country : string;
  lc_flacEnabled : bool;
  lc_normalisationEnabled : bool;
  lc_normalisationUseAlbumGain : bool;
  lc_cache : bool
}.

(** ** Effects *)
Inductive load_effect :=
| LPreStreamLoadNew
| LPostStreamResolveAudioFile
| LPostStreamRequestAudioKey
| LPostStreamResolveStorage
| LPostStreamInitHttpChunkReader
| LOpenCached
| LOpenUrl (url : string)
| LSaveOnComplete
| LOpenDecoder (f : AudioFormat)
| LCloseRaw.

#[export] Instance load_effect_eq_dec : EqDecision load_effect.
Proof. solve_decision. Defined.

(** The CDN hosts that failed, with when, and the effects so far. *)
Record LoadState := MkLoadState { ld_quarantine : gmap string Z; ld_effects : list load_effect }.

(** A computation that may fail, with the effects it had either way. *)
Definition load (X : Type) : Type := LoadState -> run (LoadState * result X).

Definition lret {X} (x : X) : load X := fun st => Ret (st, Ok x).
Definition lfail {X} (e : error) : load X := fun st => Ret (st, Err e).
Definition lbind {X Y} (m : load X) (f : X -> load Y) : load Y := fun st =>
  '(st, r) ← m st;
  match r with Ok x => f x st | Err e => Ret (st, Err e) end.
Definition leff (x : load_effect) : load unit := fun st =>
  Ret (MkLoadState (ld_quarantine st) (ld_effects st ++ [x]), Ok ()).
Definition lquarantine (f : gmap string Z -> gmap string Z) : load unit := fun st =>
  Ret (MkLoadState (f (ld_quarantine st)) (ld_effects st), Ok ()).
Definition lift {X} (m : run X) : load X := fun st => x ← m; Ret (st, Ok x).
Definition lres {X} (r : result X) : load X := match r with Ok x => lret x | Err e => lfail e end.
Definition lwrap {X} (msg : string) (r : result X) : load X :=
  match r with Ok x => lret x | Err e => lfail (EWrap msg e) end.

Declare Scope load_scope.
Delimit Scope load_scope with load.
Notation "x <- m ;; k" := (lbind m (fun x => k)) (at level 100, m at next level, right associativity) : load_scope.
Notation "m ;;; k" := (lbind m (fun _ : unit => k)) (at level 100, right associativity) : load_scope.
#[local] Open Scope load_scope.

(** ** Where the encrypted file comes from *)
Definition CdnUrlQuarantineDuration : Z := 15 * 60 * 1000000000.

(** The loop over the CDN urls; [err] is the last failure, nil before one. *)
Fixpoint cdn_loop (env : LoadEnv) (i : nat) (urls : list string) (err : option error) : load string :=
  match urls with
  | [] => lfail (match err with
                 | Some e => EWrap "failed creating chunked reader for any cdn url" e
                 | None => EMsg "failed creating chunked reader for any cdn url"
                 end)
  | raw :: urls =>
    match le_urlHost env raw with
    | Err e => cdn_loop env (S i) urls (Some e)
    | Ok host => fun st =>
      let recent := match ld_quarantine st !! host with
                    | Some lastFailed => bool_decide (le_now env i - lastFailed < CdnUrlQuarantineDuration)
                    | None => false
                    end in
      let last := bool_decide (urls = []) in
      if recent && negb last then cdn_loop env (S i) urls None st
      else
        match le_openUrl env i raw with
        | Some e => (lquarantine (<[host := le_failedAt env i]>) ;;; cdn_loop env (S i) urls (Some e)) st
        | None => (leff (LOpenUrl raw) ;;; lquarantine (delete host) ;;; lret raw) st
        end
    end
  end.

Definition httpChunkedReaderFromStorageResolve (env : LoadEnv) (s : StorageResolve) : load string :=
  match sr_Result s with
  | STORAGE_STORAGE => lfail (EMsg "old storage not supported")
  | STORAGE_RESTRICTED => lfail (EMsg "storage is restricted")
  | STORAGE_CDN =>
    if decide (sr_Cdnurl s = []) then lfail (EMsg "no cdn urls") else cdn_loop env 0 (sr_Cdnurl s) None
  | STORAGE_OTHER _ => lfail (EMsg "unknown storage resolve result")
  end.

Definition retrieveAudioKey (env : LoadEnv) (id : SpotifyId) (fileId : list Z) : load (list Z) :=
  if le_playplay env then
    obfuscated <- lwrap "failed requesting playplay license" (le_license env fileId) ;;
    lwrap "failed deobfuscating playplay key" (le_deobfuscate env obfuscated fileId)
  else lres (le_keyRequest env id fileId).

(** [aes.NewCipher] takes keys of 16, 24 and 32 bytes. *)
Definition NewAesAudioDecryptor (key : list Z) : result unit :=
  if decide (zlen key = 16 \/ zlen key = 24 \/ zlen key = 32) then Ok () else Err (EMsg "invalid key size").

(** ** Relinking *)
Definition relinked (t : Track) (a : AltTrack) : Track :=
  MkTrack (alt_Gid a) (tr_Duration t) (tr_Restriction t) [].

Fixpoint first_alternative (country : string) (t : Track) (alts : list AltTrack) : run (result Track) :=
  match alts with
  | [] => Ret (Err ErrMediaRestricted)
  | alt :: alts =>
    restricted ← isMediaRestricted (alt_Restriction alt) country;
    if restricted : bool then first_alternative country t alts else Ret (Ok (relinked t alt))
  end.

Definition getUnrestrictedTrack (env : LoadEnv) (country : string) (id : SpotifyId) : load Track :=
  t <- lwrap "failed getting track metadata" (le_track env id) ;;
  restricted <- lift (isMediaRestricted (Media_Restriction (MediaTrack t)) country) ;;
  if restricted : bool then
    r <- lift (first_alternative country t (tr_Alternative t)) ;; lres r
  else lret t.

(** ** The stream *)

(** Which loudness the gain is computed from. *)
Inductive Normalisation := NormalisationOne | NormalisationFrom (params : Z).

Definition normalisation (cfg : LoadConfig) (fs : AudioFiles) : Normalisation :=
  if lc_normalisationEnabled cfg then
    match (if lc_normalisationUseAlbumGain cfg then fs_DefaultAlbumNormalizationParams fs
           else fs_DefaultFileNormalizationParams fs) with
    | Some params => NormalisationFrom params
    | None => NormalisationOne
    end
  else NormalisationOne.

(** The media, the id the key is asked for, the file and the gain. *)
Definition select_file (env : LoadEnv) (cfg : LoadConfig) (spotId : SpotifyId) (bitrate : Z)
  : load (Media * SpotifyId * AudioFile * Normalisation) :=
  if decide (id_typ spotId = SpotifyIdTypeTrack) then
    t <- getUnrestrictedTrack env (lc_country cfg) spotId ;;
    spotId <- lift (Media_Id (MediaTrack t)) ;;
    fs <- lwrap "failed getting audio files metadata" (le_audioFiles env spotId) ;;
    file <- lift (selectBestMediaFormat (fs_Files fs) bitrate (lc_flacEnabled cfg)) ;;
    match file with
    | None => lfail ErrNoSupportedFormats
    | Some file => lret (MediaTrack t, spotId, file, normalisation cfg fs)
    end
  else if decide (id_typ spotId = SpotifyIdTypeEpisode) then
    ep <- lwrap "failed getting episode metadata" (le_episode env spotId) ;;
    restricted <- lift (isMediaRestricted (Media_Restriction (MediaEpisode ep)) (lc_country cfg)) ;;
    if restricted : bool then lfail ErrMediaRestricted
    else
      file <- lift (selectBestMediaFormat (ep_Audio ep) bitrate (lc_flacEnabled cfg)) ;;
      match file with
      | None => lfail ErrNoSupportedFormats
      | Some file => lret (MediaEpisode ep, spotId, file, NormalisationOne)
      end
  else lfail (EMsg "unsupported spotify type").

Definition openRaw (env : LoadEnv) (cfg : LoadConfig) (file : AudioFile) : load unit :=
  if lc_cache cfg && le_cached env (af_FileId file) then leff LOpenCached
  else
    format <- lift (deref (af_Format file)) ;;
    storage <- lwrap "failed resolving track storage" (le_storage env (af_FileId file) format) ;;
    leff LPostStreamResolveStorage ;;;
    (fun st => '(st, r) ← httpChunkedReaderFromStorageResolve env storage st;
               match r with
               | Err e => Ret (st, Err (EWrap "failed creating chunked reader" e))
               | Ok _ => (leff LPostStreamInitHttpChunkReader ;;;
                          if lc_cache cfg then leff LSaveOnComplete else lret ()) st
               end).

(** The decoder of a format, and what it must have found. *)
Definition openDecoder (env : LoadEnv) (f : AudioFormat) (msg : string) : load Decoder :=
  d <- lwrap msg (le_decoder env f) ;;
  leff (LOpenDecoder f) ;;;
  if decide (dec_SampleRate d <> SampleRate) then lfail (EMsg "unsupported sample rate")
  else if decide (dec_Channels d <> Channels) then lfail (EMsg "unsupported channels")
  else lret d.

Definition decode (env : LoadEnv) (format : AudioFile_Format) : load Decoder :=
  match GetAudioFileFormatAudioFormat format with
  | AudioFormatOGGVorbis =>
    match le_metadataPage env with
    | Some e => lfail (EWrap "failed reading metadata page" e)
    | None => openDecoder env AudioFormatOGGVorbis "failed initializing ogg vorbis stream"
    end
  | AudioFormatFLAC => openDecoder env AudioFormatFLAC "failed initializing flac stream"
  | AudioFormatMP3 => openDecoder env AudioFormatMP3 "failed initializing mp3 stream"
  | AudioFormatAAC | AudioFormatUnknown => lfail (EMsg "unsupported audio format")
  end.

Record LoadedStream := MkLoaded {
  ls_stream : Stream;
  ls_file : AudioFile;
  ls_normalisation : Normalisation;
  ls_position : Z;
  ls_SampleRate : Z;
  ls_BitDepth : Z
}.

(** From the raw stream to the stream handed over. *)
Definition finishStream (env : LoadEnv) (requestedId : SpotifyId) (media : Media) (file : AudioFile)
    (norm : Normalisation) (key : list Z) (mediaPosition : Z) : load LoadedStream :=
  lwrap "failed intializing audio decryptor" (NewAesAudioDecryptor key) ;;;
  format <- lift (deref (af_Format file)) ;;
  dec <- decode env format ;;
  duration <- lift (Media_Duration media) ;;
  let position := StartPosition mediaPosition duration in
  (if decide (0 < position) then
     match le_seek env position with
     | Some e => lfail (EWrap "failed seeking stream" e)
     | None => lret ()
     end
   else lret ()) ;;;
  lret (MkLoaded (MkStream requestedId (Media_gid media) duration (le_playbackId env)) file norm position
          (dec_SampleRate dec)
          (if decide (GetAudioFileFormatAudioFormat format = AudioFormatFLAC) then dec_BitDepth dec else 0)).

(** The deferred call closes the raw stream unless it was handed over. *)
Definition closing {X} (m : load X) : load X := fun st =>
  '(st, r) ← m st;
  match r with
  | Ok x => Ret (st, Ok x)
  | Err e => Ret (MkLoadState (ld_quarantine st) (ld_effects st ++ [LCloseRaw]), Err e)
  end.

Definition NewStream (env : LoadEnv) (cfg : LoadConfig) (spotId : SpotifyId) (bitrate mediaPosition : Z)
  : load LoadedStream :=
  leff LPreStreamLoadNew ;;;
  x <- select_file env cfg spotId bitrate ;;
  let '(media, keyId, file, norm) := x in
  leff LPostStreamResolveAudioFile ;;;
  key <- (fun st => '(st, r) ← retrieveAudioKey env keyId (af_FileId file) st;
                    Ret (st, match r with Ok k => Ok k | Err e => Err (EWrap "failed retrieving audio key" e) end)) ;;
  leff LPostStreamRequestAudioKey ;;;
  openRaw env cfg file ;;;
  closing (finishStream env spotId media file norm key mediaPosition).
