(* ===== verification/StreamClaims.v ===== *)
(** * Building the stream of a track: theorems

    The file chosen, the tracks that may be played, the CDN urls tried, and
    what a load leaves open. *)

From Stdlib Require Import Ascii String.
From stdpp Require Import gmap.
From S2P Require Import Prelude Ids Source PlayerState StreamLoad.
#[local] Open Scope string_scope.
#[local] Open Scope list_scope.
#[local] Open Scope Z_scope.

(** ** The file chosen *)
Definition known_file (o : option AudioFile) : Prop :=
  exists f format, o = Some f /\ af_Format f = Some format.

Definition is_flac (f : AudioFile) : Prop := af_Format f = Some FLAC_FLAC_24BIT \/ af_Format f = Some FLAC_FLAC.

#[local] Instance is_flac_dec f : Decision (is_flac f).
Proof. unfold is_flac; apply _. Defined.

Definition distance (preferred : Z) (f : AudioFile) : Z :=
  absDist (match af_Format f with Some format => GetFormatBitrate format | None => 0 end) preferred.

Definition file_distance (preferred : Z) (o : option AudioFile) : Z := from_option (distance preferred) 0 o.

(** The first of the files at the least distance. *)
Definition nearest (preferred : Z) (files : list (option AudioFile)) (f : AudioFile) : Prop :=
  exists pre post, files = pre ++ Some f :: post /\
    Forall (fun g => distance preferred f < file_distance preferred g) pre /\
    Forall (fun g => distance preferred f <= file_distance preferred g) post.

Definition no_flac (files : list (option AudioFile)) : Prop := Forall (fun o => from_option is_flac False o -> False) files.

Lemma select_loop_nearest flac preferred files : forall seen best,
  Forall known_file files -> (flac = true -> no_flac files) ->
  (match best with
   | None => seen = []
   | Some (f, d) => d = distance preferred f /\ nearest preferred seen f
   end) ->
  exists r, select_loop flac preferred files best = Ret r /\
    match r with None => seen ++ files = [] | Some f => nearest preferred (seen ++ files) f end.
Proof.
  induction files as [|o files IH]; intros seen best Hk Hf Hb; simpl.
  { rewrite app_nil_r; eexists; split; [done|]; destruct best as [[f d]|]; simpl; [apply Hb|done]. }
  apply Forall_cons in Hk as [(f & format & -> & Ef) Hk']; simpl; rewrite Ef; simpl.
  assert (Hff : flac && bool_decide (format = FLAC_FLAC_24BIT \/ format = FLAC_FLAC) = false).
  { destruct flac; [|done]; simpl; apply bool_decide_eq_false; intros Hor; specialize (Hf eq_refl).
    apply Forall_cons in Hf as [Hnf _]; apply Hnf; simpl; unfold is_flac; rewrite Ef; destruct Hor as [-> | ->]; auto. }
  rewrite Hff.
  assert (Hf' : flac = true -> no_flac files) by (intros Hx; specialize (Hf Hx); by apply Forall_cons in Hf as [_ ?]).
  assert (Hd : absDist (GetFormatBitrate format) preferred = distance preferred f)
    by (unfold distance; by rewrite Ef).
  rewrite Hd; replace (seen ++ Some f :: files) with ((seen ++ [Some f]) ++ files) by (by rewrite <- app_assoc).
  destruct best as [[g d]|].
  - destruct Hb as [-> (pre & post & -> & Fpre & Fpost)].
    apply IH; [done|done|]; destruct (decide (distance preferred f < distance preferred g)); (split; [done|]).
    + exists (pre ++ Some g :: post), []; rewrite <- !app_assoc; split; [done|]; split; [|done].
      apply Forall_app; split; [eapply Forall_impl; [exact Fpre|]; simpl; lia|].
      constructor; [done|]; eapply Forall_impl; [exact Fpost|]; simpl; lia.
    + exists pre, (post ++ [Some f]); rewrite <- !app_assoc; split; [done|]; split; [done|].
      apply Forall_app; split; [done|]; repeat constructor; simpl; lia.
  - subst seen; apply IH; [done|done|]; split; [done|]; by exists [], [].
Qed.

Lemma select_loop_flac preferred pre f post : forall best,
  Forall known_file pre -> no_flac pre -> is_flac f ->
  select_loop true preferred (pre ++ Some f :: post) best = Ret (Some f).
Proof.
  induction pre as [|o pre IH]; intros best Hk Hn Hf; simpl.
  - destruct Hf as [Hf|Hf]; by rewrite Hf.
  - apply Forall_cons in Hk as [(g & format & -> & Eg) Hk']; apply Forall_cons in Hn as [Hng Hn'].
    simpl; rewrite Eg; simpl; rewrite bool_decide_eq_false_2; [simpl; destruct best as [[? ?]|]; auto|].
    intros Hor; apply Hng; simpl; unfold is_flac; rewrite Eg; destruct Hor as [-> | ->]; auto.
Qed.

(** The first FLAC file of a list, if it has one. *)
Lemma flac_split files : Forall known_file files ->
  no_flac files \/ exists pre f post, files = pre ++ Some f :: post /\ no_flac pre /\ is_flac f.
Proof.
  induction 1 as [|o files (f & format & -> & Ef) Hk IH]; [by left; apply Forall_nil|].
  destruct (decide (is_flac f)) as [Hf|Hf]; [right; exists [], f, files; split_and!; [done|by apply Forall_nil|done]|].
  destruct IH as [Hn|(pre & g & post & -> & Hn & Hg)]; [left; by apply Forall_cons|].
  right; exists (Some f :: pre), g, post; split_and!; [done|by apply Forall_cons|done].
Qed.

(** ** Where a track may be played *)
Fixpoint country_codes (l : string) : list string :=
  match l with
  | String a (String b rest) => String a (String b "") :: country_codes rest
  | _ => []
  end.

Fixpoint even_length (s : string) : bool :=
  match s with
  | "" => true
  | String _ "" => false
  | String _ (String _ rest) => even_length rest
  end.

Definition listed (country list : string) : bool := existsb (fun code => EqualFold code country) (country_codes list).

(** What a restriction means, read off its list of codes. *)
Definition restricted_in (country : string) (rs : list CountryRestriction) : bool :=
  bool_decide (String.length country = 2%nat) &&
  match rs with
  | CountriesAllowed list :: _ => negb (listed country list)
  | CountriesForbidden list :: _ => listed country list
  | _ => false
  end.

Definition restriction_ok (r : CountryRestriction) : Prop :=
  match r with
  | CountriesAllowed list | CountriesForbidden list => even_length list = true
  | NoCountryRestriction => False
  end.

Lemma country_in_spec country n : forall list, (String.length list <= n)%nat ->
  even_length list = true -> country_in country list = Ret (listed country list).
Proof.
  induction n as [|n IH]; intros [|a [|b rest]] Hn He; try done; cbn [String.length] in Hn; [lia|].
  unfold listed; cbn [country_in country_codes existsb]; destruct (EqualFold _ country); [done|].
  apply IH; [lia|done].
Qed.

Lemma isMediaRestricted_spec country rs :
  Forall restriction_ok rs -> isMediaRestricted rs country = Ret (restricted_in country rs).
Proof.
  intros Hrs; unfold isMediaRestricted, restricted_in.
  destruct (decide (String.length country = 2%nat)) as [Hl|Hl];
    [rewrite decide_False, bool_decide_eq_true_2 by lia|rewrite decide_True, bool_decide_eq_false_2 by lia; done].
  destruct rs as [|r rs]; [done|]; apply Forall_cons in Hrs as [Hr _].
  destruct r as [list|list|]; simpl in *; [| |done].
  - case_decide as Hn; [by subst list|]; by rewrite (country_in_spec country _ list (le_n _) Hr).
  - by apply (country_in_spec country _ list (le_n _)).
Qed.

Definition track_meta_ok (t : Track) : Prop :=
  zlen (tr_Gid t) = 16 /\ tr_Duration t <> None /\ Forall restriction_ok (tr_Restriction t) /\
  Forall (fun a => zlen (alt_Gid a) = 16 /\ Forall restriction_ok (alt_Restriction a)) (tr_Alternative t).

(** The first alternative that is not restricted. *)
Definition relinks (country : string) (t t' : Track) : Prop :=
  exists pre alt post, tr_Alternative t = pre ++ alt :: post /\
    Forall (fun a => restricted_in country (alt_Restriction a) = true) pre /\
    restricted_in country (alt_Restriction alt) = false /\ t' = relinked t alt.

Lemma first_alternative_spec country t alts :
  Forall (fun a => zlen (alt_Gid a) = 16 /\ Forall restriction_ok (alt_Restriction a)) alts ->
  (exists pre alt post, alts = pre ++ alt :: post /\
     Forall (fun a => restricted_in country (alt_Restriction a) = true) pre /\
     restricted_in country (alt_Restriction alt) = false /\
     first_alternative country t alts = Ret (Ok (relinked t alt))) \/
  (Forall (fun a => restricted_in country (alt_Restriction a) = true) alts /\
   first_alternative country t alts = Ret (Err ErrMediaRestricted)).
Proof.
  induction 1 as [|a alts [_ Ha] _ IH]; simpl; [by right; split; [apply Forall_nil|]|].
  rewrite isMediaRestricted_spec by done; simpl; destruct (restricted_in country (alt_Restriction a)) eqn:Er.
  - destruct IH as [(pre & alt & post & -> & Hpre & Halt & E)|[Hall E]]; [left|right].
    + exists (a :: pre), alt, post; split_and!; [done|by apply Forall_cons|done|done].
    + split; [by apply Forall_cons|done].
  - left; exists [], a, alts; split_and!; [done|by apply Forall_nil|done|done].
Qed.

Lemma getUnrestrictedTrack_spec env country id st :
  (forall t, le_track env id = Ok t -> track_meta_ok t) ->
  exists r, getUnrestrictedTrack env country id st = Ret (st, r) /\
    match r with
    | Ok t' => exists t, le_track env id = Ok t /\
        ((restricted_in country (tr_Restriction t) = false /\ t' = t) \/
         (restricted_in country (tr_Restriction t) = true /\ relinks country t t'))
    | Err e => (exists cause, le_track env id = Err cause /\ e = EWrap "failed getting track metadata" cause) \/
        (exists t, le_track env id = Ok t /\ e = ErrMediaRestricted /\
         restricted_in country (tr_Restriction t) = true /\
         Forall (fun a => restricted_in country (alt_Restriction a) = true) (tr_Alternative t))
    end.
Proof.
  intros Hok; unfold getUnrestrictedTrack, lbind, lwrap, lret, lfail, lift; cbn.
  destruct (le_track env id) as [t|cause] eqn:Et; cbn; [|eexists; split; [done|]; left; eauto].
  destruct (Hok t eq_refl) as (_ & _ & Hr & Ha).
  rewrite isMediaRestricted_spec by done; cbn; destruct (restricted_in country (tr_Restriction t)) eqn:Er; cbn.
  - destruct (first_alternative_spec country t _ Ha) as [(pre & alt & post & E & Hpre & Halt & ->)|[Hall ->]]; cbn.
    + eexists; split; [done|]; exists t; split; [done|]; right; split; [done|]; by exists pre, alt, post.
    + eexists; split; [done|]; right; eauto 6.
  - eexists; split; [done|]; exists t; auto.
Qed.

(** ** The CDN urls *)

(** Why a url was passed over: it does not parse, it was refused, or it is not
    the last one and its host failed recently, before or during this load. *)
Definition passed_over (env : LoadEnv) (q : gmap string Z) (n j : nat) (u : string) : Prop :=
  (exists e, le_urlHost env u = Err e) \/ le_openUrl env j u <> None \/
  ((S j < n)%nat /\ exists host t, le_urlHost env u = Ok host /\
     le_now env j - t < CdnUrlQuarantineDuration /\
     (q !! host = Some t \/ exists k, (k < j)%nat /\ t = le_failedAt env k)).

Definition quarantined_by (env : LoadEnv) (q0 : gmap string Z) (i : nat) (q : gmap string Z) : Prop :=
  forall host t, q !! host = Some t -> q0 !! host = Some t \/ exists k, (k < i)%nat /\ t = le_failedAt env k.

Lemma quarantined_by_S env q0 i q : quarantined_by env q0 i q -> quarantined_by env q0 (S i) q.
Proof. intros Hq host t Ht; destruct (Hq host t Ht) as [?|(k & ? & ?)]; [by left|right; exists k; split; [lia|done]]. Qed.

(** What came of the urls from index [i] on. *)
Definition cdn_outcome (env : LoadEnv) (q0 : gmap string Z) (n i : nat) (urls : list string)
    (effects : list load_effect) (st : LoadState) (r : result string) : Prop :=
  match r with
  | Ok u => exists j host, urls !! j = Some u /\ le_urlHost env u = Ok host /\ le_openUrl env (i + j) u = None /\
      ld_quarantine st !! host = None /\ ld_effects st = effects ++ [LOpenUrl u] /\
      (forall k v, (k < j)%nat -> urls !! k = Some v -> passed_over env q0 n (i + k) v)
  | Err e => (exists cause, e = EWrap "failed creating chunked reader for any cdn url" cause) /\
      ld_effects st = effects /\
      (forall k v, urls !! k = Some v -> passed_over env q0 n (i + k) v)
  end.

Lemma cdn_outcome_cons env q0 n i u urls effects st r :
  passed_over env q0 n i u -> cdn_outcome env q0 n (S i) urls effects st r ->
  cdn_outcome env q0 n i (u :: urls) effects st r.
Proof.
  intros Hp; destruct r as [u'|e]; simpl.
  - intros (j & host & Hj & Hh & Ho & Hq & He & Hlt); exists (S j), host.
    rewrite <- Nat.add_succ_comm; split_and!; auto; intros [|k] v Hkj Hv; simpl in Hv; [|].
    + simplify_eq; by rewrite Nat.add_0_r.
    + rewrite <- Nat.add_succ_comm; apply Hlt; [lia|done].
  - intros (Hc & He & Hall); split_and!; auto; intros [|k] v Hv; simpl in Hv.
    + simplify_eq; by rewrite Nat.add_0_r.
    + rewrite <- Nat.add_succ_comm; by apply Hall.
Qed.

Lemma cdn_loop_spec env q0 n urls : forall i err st,
  n = (i + length urls)%nat -> (urls = [] -> err <> None) -> quarantined_by env q0 i (ld_quarantine st) ->
  exists st' r, cdn_loop env i urls err st = Ret (st', r) /\ cdn_outcome env q0 n i urls (ld_effects st) st' r.
Proof.
  induction urls as [|u urls IH]; intros i err st Hn Herr Hq; simpl.
  { destruct err as [e|]; [|by destruct (Herr eq_refl)]; do 2 eexists; split; [done|]; split_and!; [eauto|done|by intros [|k] v]. }
  assert (Hgo : forall err' st1, passed_over env q0 n i u -> (urls = [] -> err' <> None) ->
    quarantined_by env q0 (S i) (ld_quarantine st1) -> ld_effects st1 = ld_effects st ->
    exists st' r, cdn_loop env (S i) urls err' st1 = Ret (st', r) /\
      cdn_outcome env q0 n i (u :: urls) (ld_effects st) st' r).
  { intros err' st1 Hp He' Hq1 Heff; destruct (IH (S i) err' st1) as (st' & r & E & Hr); [simpl in *; lia|done|done|].
    exists st', r; split; [done|]; apply cdn_outcome_cons; [done|by rewrite <- Heff]. }
  destruct (le_urlHost env u) as [host|e] eqn:Eh; [|apply Hgo; [left; eauto|done|by apply quarantined_by_S|done]].
  set (recent := match ld_quarantine st !! host with Some _ => _ | None => false end).
  destruct (recent && negb (bool_decide (urls = []))) eqn:Erec.
  - apply andb_true_iff in Erec as [Hrec Hlast]; subst recent.
    assert (urls <> []) as Hne by (intros ->; simpl in Hlast; done).
    apply Hgo; [right; right|done|by apply quarantined_by_S|done].
    destruct (ld_quarantine st !! host) as [t|] eqn:Eq; [|done]; apply bool_decide_eq_true in Hrec.
    split; [destruct urls; [done|simpl in *; lia]|]; exists host, t; split_and!; auto.
  - destruct (le_openUrl env i u) as [e|] eqn:Eo.
    + unfold lbind, lquarantine; cbn; apply Hgo; [right; left; congruence|done| |done].
      intros h t; simpl; destruct (decide (h = host)) as [->|Hne].
      * rewrite lookup_insert_eq; intros [= <-]; right; exists i; split; [lia|done].
      * rewrite lookup_insert_ne by done; intros Ht; by apply quarantined_by_S in Hq; apply Hq.
    + unfold lbind, leff, lquarantine, lret; cbn; do 2 eexists; split; [done|]; exists O, host; simpl.
      rewrite Nat.add_0_r; split_and!; auto; [by rewrite lookup_delete_eq|intros; lia].
Qed.

(** ** What a load leaves open *)
Definition raw_count (x : load_effect) : Z :=
  match x with LOpenCached | LOpenUrl _ => 1 | LCloseRaw => -1 | _ => 0 end.

Definition raws_open (effects : list load_effect) : Z := foldr (fun x n => raw_count x + n) 0 effects.

Lemma raws_open_app a b : raws_open (a ++ b) = raws_open a + raws_open b.
Proof. induction a; simpl; lia. Qed.

(** [m] comes back from [st], having opened [d] raw streams more than it
    closed, with a result that satisfies [Q]; [d] depends on whether it failed. *)
Definition comes_back {X} (m : load X) (st : LoadState) (dOk dErr : Z) (Q : X -> Prop) : Prop :=
  exists st' r, m st = Ret (st', r) /\
    raws_open (ld_effects st') = raws_open (ld_effects st) + (match r with Ok _ => dOk | Err _ => dErr end) /\
    match r with Ok x => Q x | Err _ => True end.

Lemma comes_back_bind {X Y} (m : load X) (f : X -> load Y) st a b d (Q : X -> Prop) (R : Y -> Prop) :
  comes_back m st a d Q -> (forall x st', Q x -> comes_back (f x) st' b (d - a) R) ->
  comes_back (lbind m f) st (a + b) d R.
Proof.
  intros (st1 & r & E & Hc & Hq) Hf; unfold comes_back, lbind; rewrite E; simpl.
  destruct r as [x|e]; [|do 2 eexists; split; [done|]; auto].
  destruct (Hf x st1 Hq) as (st2 & r2 & -> & Hc2 & Hr2); do 2 eexists; split; [done|]; split; [|done].
  destruct r2; lia.
Qed.

Lemma comes_back_weaken {X} (m : load X) st a d (Q R : X -> Prop) :
  comes_back m st a d Q -> (forall x, Q x -> R x) -> comes_back m st a d R.
Proof. intros (st1 & r & E & Hc & Hq) Hqr; exists st1, r; split_and!; auto; destruct r; auto. Qed.

Lemma comes_back_ret {X} (x : X) st d (Q : X -> Prop) : Q x -> comes_back (lret x) st 0 d Q.
Proof. intros; do 2 eexists; split; [done|]; split; [lia|done]. Qed.

Lemma comes_back_fail {X} e st a (Q : X -> Prop) : comes_back (lfail e) st a 0 Q.
Proof. do 2 eexists; split; [done|]; split; [lia|done]. Qed.

Lemma comes_back_res {X} (r : result X) st (Q : X -> Prop) :
  (forall x, r = Ok x -> Q x) -> comes_back (lres r) st 0 0 Q.
Proof. intros; destruct r; [apply comes_back_ret; auto|apply comes_back_fail]. Qed.

Lemma comes_back_wrap {X} msg (r : result X) st (Q : X -> Prop) :
  (forall x, r = Ok x -> Q x) -> comes_back (lwrap msg r) st 0 0 Q.
Proof. intros; destruct r; [apply comes_back_ret; auto|apply comes_back_fail]. Qed.

Lemma comes_back_lift {X} (m : run X) st d (Q : X -> Prop) :
  (exists x, m = Ret x /\ Q x) -> comes_back (lift m) st 0 d Q.
Proof. intros (x & -> & Hx); do 2 eexists; split; [done|]; split; [lia|done]. Qed.

Lemma comes_back_eff x st d (Q : unit -> Prop) : Q () -> comes_back (leff x) st (raw_count x) d Q.
Proof.
  intros; do 2 eexists; split; [done|]; split; [|done]; simpl; rewrite raws_open_app; simpl; lia.
Qed.

Lemma comes_back_closing {X} (m : load X) st a d (Q : X -> Prop) :
  comes_back m st a d Q -> comes_back (closing m) st a (d - 1) Q.
Proof.
  intros (st1 & r & E & Hc & Hq); unfold comes_back, closing; rewrite E; simpl.
  destruct r; do 2 eexists; split; try done; simpl; rewrite ?raws_open_app; simpl; split; try done; lia.
Qed.

(** The file chosen: the first FLAC one if that is wanted and there is one, and
    otherwise the first at the least distance from the bitrate. *)
Definition best_of (flac : bool) (preferred : Z) (files : list (option AudioFile)) (f : AudioFile) : Prop :=
  (flac = true /\ exists pre post, files = pre ++ Some f :: post /\ no_flac pre /\ is_flac f) \/
  ((flac = true -> no_flac files) /\ nearest preferred files f).

Lemma selectBestMediaFormat_spec files preferred flac :
  Forall known_file files ->
  exists r, selectBestMediaFormat files preferred flac = Ret r /\
    match r with None => files = [] | Some f => best_of flac preferred files f end.
Proof.
  intros Hk; unfold selectBestMediaFormat.
  assert (Hnear : (flac = true -> no_flac files) -> exists r, select_loop flac preferred files None = Ret r /\
    match r with None => files = [] | Some f => best_of flac preferred files f end).
  { intros Hn; destruct (select_loop_nearest flac preferred files [] None Hk Hn eq_refl) as (r & E & Hr).
    exists r; split; [done|]; destruct r; [right; auto|done]. }
  destruct flac; [|by apply Hnear].
  destruct (flac_split files Hk) as [Hn|(pre & f & post & -> & Hn & Hf)]; [by apply Hnear|].
  apply Forall_app in Hk as [Hk _]; rewrite (select_loop_flac preferred pre f post None Hk Hn Hf).
  eexists; split; [done|]; left; split; [done|]; by exists pre, post.
Qed.

(** The metadata the services give is well formed. *)
Record metadata_ok (env : LoadEnv) : Prop := {
  mo_track : forall id t, le_track env id = Ok t -> track_meta_ok t;
  mo_files : forall id fs, le_audioFiles env id = Ok fs -> Forall known_file (fs_Files fs);
  mo_episode : forall id e, le_episode env id = Ok e ->
    ep_Duration e <> None /\ Forall restriction_ok (ep_Restriction e) /\ Forall known_file (ep_Audio e)
}.

(** What [NewStream] has settled on before it asks for the key. *)
Definition selected (env : LoadEnv) (cfg : LoadConfig) (id : SpotifyId) (bitrate : Z)
    (x : Media * SpotifyId * AudioFile * Normalisation) : Prop :=
  let '(media, keyId, file, _) := x in
  match media with
  | MediaTrack t' =>
    id_typ id = SpotifyIdTypeTrack /\
    (exists t, le_track env id = Ok t /\
       ((restricted_in (lc_country cfg) (tr_Restriction t) = false /\ t' = t) \/
        (restricted_in (lc_country cfg) (tr_Restriction t) = true /\ relinks (lc_country cfg) t t'))) /\
    keyId = MkSpotifyId SpotifyIdTypeTrack (tr_Gid t') /\
    exists fs, le_audioFiles env keyId = Ok fs /\ best_of (lc_flacEnabled cfg) bitrate (fs_Files fs) file
  | MediaEpisode e =>
    id_typ id = SpotifyIdTypeEpisode /\ keyId = id /\ le_episode env id = Ok e /\
    restricted_in (lc_country cfg) (ep_Restriction e) = false /\
    best_of (lc_flacEnabled cfg) bitrate (ep_Audio e) file
  end.

Lemma best_of_known flac preferred files f : Forall known_file files -> best_of flac preferred files f ->
  exists format, af_Format f = Some format.
Proof.
  intros Hk [(_ & pre & post & -> & _)|(_ & pre & post & -> & _)];
    apply Forall_app in Hk as [_ Hk]; apply Forall_cons in Hk as [(g & format & [= <-] & E) _]; eauto.
Qed.

Definition media_ok (media : Media) : Prop := exists d, Media_Duration media = Ret d.

Section new_stream.
Context (env : LoadEnv) (cfg : LoadConfig) (Henv : metadata_ok env).

Lemma getUnrestrictedTrack_back id st :
  comes_back (getUnrestrictedTrack env (lc_country cfg) id) st 0 0 (fun t' =>
    zlen (tr_Gid t') = 16 /\ tr_Duration t' <> None /\
    exists t, le_track env id = Ok t /\
       ((restricted_in (lc_country cfg) (tr_Restriction t) = false /\ t' = t) \/
        (restricted_in (lc_country cfg) (tr_Restriction t) = true /\ relinks (lc_country cfg) t t'))).
Proof.
  destruct (getUnrestrictedTrack_spec env (lc_country cfg) id st (mo_track env Henv id)) as (r & E & Hr).
  exists st, r; split; [done|]; split; [destruct r; lia|]; destruct r as [t'|]; [|done].
  destruct Hr as (t & Et & Hr); destruct (mo_track env Henv id t Et) as (Hg & Hd & _ & Ha).
  destruct Hr as [[Hn ->]|[Hn Hrel]]; [split_and!; eauto 7|].
  destruct (Hrel) as (pre & alt & post & Ealt & _ & _ & ->); split_and!; [|done|eauto 6].
  rewrite Ealt in Ha; apply Forall_app in Ha as [_ Ha]; by apply Forall_cons in Ha as [[? _] _].
Qed.

Lemma select_file_back id bitrate st :
  comes_back (select_file env cfg id bitrate) st 0 0 (fun x =>
    selected env cfg id bitrate x /\ media_ok x.1.1.1 /\ exists format, af_Format x.1.2 = Some format).
Proof.
  unfold select_file; case_decide as Ht; [|case_decide as He; [|apply comes_back_fail]].
  - apply (comes_back_bind _ _ _ 0 0 0 _ _ (getUnrestrictedTrack_back id st)).
    intros t' st1 (Hg & Hd & Hsel).
    eapply (comes_back_bind _ _ _ 0 0 0 (fun keyId => keyId = MkSpotifyId SpotifyIdTypeTrack (tr_Gid t'))).
    { apply comes_back_lift; simpl; unfold SpotifyIdFromGid; rewrite decide_False by lia; eauto. }
    intros keyId st2 ->.
    apply (comes_back_bind _ _ _ 0 0 0 (fun fs => le_audioFiles env (MkSpotifyId SpotifyIdTypeTrack (tr_Gid t')) = Ok fs)).
    { apply comes_back_wrap; auto. }
    intros fs st3 Hfs; pose proof (mo_files env Henv _ _ Hfs) as Hk.
    destruct (selectBestMediaFormat_spec (fs_Files fs) bitrate (lc_flacEnabled cfg) Hk) as (r & Er & Hr).
    eapply (comes_back_bind _ _ _ 0 0 0 (fun x => x = r)); [apply comes_back_lift; eauto|].
    intros ? st4 ->; destruct r as [file|]; [|apply comes_back_fail].
    apply comes_back_ret; simpl; split_and!; eauto using best_of_known.
    unfold media_ok; simpl; destruct (tr_Duration t') eqn:Ed; [eauto|done].
  - apply (comes_back_bind _ _ _ 0 0 0 (fun ep => le_episode env id = Ok ep)); [apply comes_back_wrap; auto|].
    intros ep st1 Hep; destruct (mo_episode env Henv _ _ Hep) as (Hd & Hres & Hk).
    eapply (comes_back_bind _ _ _ 0 0 0 (fun b => b = restricted_in (lc_country cfg) (ep_Restriction ep))).
    { apply comes_back_lift; simpl; rewrite isMediaRestricted_spec by done; eauto. }
    intros b st2 ->; destruct (restricted_in _ _) eqn:Er; [apply comes_back_fail|].
    destruct (selectBestMediaFormat_spec (ep_Audio ep) bitrate (lc_flacEnabled cfg) Hk) as (r & Es & Hr).
    eapply (comes_back_bind _ _ _ 0 0 0 (fun x => x = r)); [apply comes_back_lift; eauto|].
    intros ? st4 ->; destruct r as [file|]; [|apply comes_back_fail].
    apply comes_back_ret; simpl; split_and!; eauto using best_of_known.
    unfold media_ok; simpl; destruct (ep_Duration ep) eqn:Ed; [eauto|done].
Qed.

Lemma reader_back storage st :
  comes_back (httpChunkedReaderFromStorageResolve env storage) st 1 0 (fun _ => True).
Proof.
  unfold httpChunkedReaderFromStorageResolve; destruct (sr_Result storage); try apply comes_back_fail.
  case_decide as Hn; [apply comes_back_fail|].
  destruct (cdn_loop_spec env (ld_quarantine st) (length (sr_Cdnurl storage)) (sr_Cdnurl storage) 0 None st)
    as (st' & r & E & Hr); [done|done|by left|].
  exists st', r; split; [done|]; split; [|by destruct r]; destruct r as [u|e]; simpl in Hr.
  - destruct Hr as (j & host & _ & _ & _ & _ & -> & _); rewrite raws_open_app; simpl; lia.
  - destruct Hr as (_ & -> & _); lia.
Qed.

Lemma openRaw_back file format st : af_Format file = Some format ->
  comes_back (openRaw env cfg file) st 1 0 (fun _ => True).
Proof.
  intros Hf; unfold openRaw; case_match; [by apply (comes_back_eff LOpenCached)|].
  apply (comes_back_bind _ _ _ 0 1 0 (fun _ => True)); [apply comes_back_lift; rewrite Hf; eauto|]; intros f st1 _.
  apply (comes_back_bind _ _ _ 0 1 0 (fun _ => True)); [by apply comes_back_wrap|]; intros storage st2 _.
  apply (comes_back_bind _ _ _ 0 1 0 (fun _ => True)); [by apply (comes_back_eff LPostStreamResolveStorage)|]; intros _ st3 _.
  destruct (reader_back storage st3) as (st4 & r & E & Hc & _); unfold comes_back; rewrite E; cbn.
  destruct r as [u|e]; [|do 2 eexists; split; [done|]; split; [lia|done]].
  unfold lbind, leff, lret; cbn; destruct (lc_cache cfg); do 2 eexists; (split; [done|]); cbn;
    rewrite !raws_open_app; cbn; split; try done; lia.
Qed.

Lemma retrieveAudioKey_back id fileId st : comes_back (retrieveAudioKey env id fileId) st 0 0 (fun _ => True).
Proof.
  unfold retrieveAudioKey; case_match; [|by apply comes_back_res].
  by apply (comes_back_bind _ _ _ 0 0 0 (fun _ => True)); intros; apply comes_back_wrap.
Qed.

Definition decodable (format : AudioFile_Format) : Prop :=
  GetAudioFileFormatAudioFormat format ∈ [AudioFormatOGGVorbis; AudioFormatFLAC; AudioFormatMP3].

Lemma openDecoder_back f msg st :
  comes_back (openDecoder env f msg) st 0 0 (fun d => dec_SampleRate d = SampleRate /\ dec_Channels d = Channels).
Proof.
  apply (comes_back_bind _ _ _ 0 0 0 (fun _ => True)); [by apply comes_back_wrap|]; intros d st1 _.
  apply (comes_back_bind _ _ _ 0 0 0 (fun _ => True)); [by apply (comes_back_eff (LOpenDecoder f))|]; intros _ st2 _.
  repeat case_decide; [apply comes_back_fail..|].
  apply comes_back_ret; split; lia.
Qed.

Lemma decode_back format st :
  comes_back (decode env format) st 0 0 (fun d => dec_SampleRate d = SampleRate /\ decodable format).
Proof.
  unfold decode, decodable; destruct (GetAudioFileFormatAudioFormat format); try apply comes_back_fail.
  2: case_match; [apply comes_back_fail|].
  all: eapply comes_back_weaken; [apply openDecoder_back|]; intros d [? _]; split; [done|]; by vm_compute; repeat constructor.
Qed.

(** What the stream handed over is. *)
Definition loaded (id : SpotifyId) (bitrate mediaPosition : Z) (s : LoadedStream) : Prop :=
  exists media keyId norm duration format, selected env cfg id bitrate (media, keyId, ls_file s, norm) /\
    st_RequestedId (ls_stream s) = id /\ st_MediaId (ls_stream s) = Media_gid media /\
    Media_Duration media = Ret duration /\ st_Duration (ls_stream s) = duration /\
    ls_position s = StartPosition mediaPosition duration /\
    ls_SampleRate s = SampleRate /\ af_Format (ls_file s) = Some format /\ decodable format.

Lemma finishStream_back id bitrate media keyId file norm key mediaPosition format st :
  selected env cfg id bitrate (media, keyId, file, norm) -> media_ok media -> af_Format file = Some format ->
  comes_back (finishStream env id media file norm key mediaPosition) st 0 0 (loaded id bitrate mediaPosition).
Proof.
  intros Hs [duration Hd] Hf.
  apply (comes_back_bind _ _ _ 0 0 0 (fun _ => True)); [by apply comes_back_wrap|]; intros _ st1 _.
  apply (comes_back_bind _ _ _ 0 0 0 (fun x => x = format)); [apply comes_back_lift; rewrite Hf; eauto|].
  intros ? st2 ->; apply (comes_back_bind _ _ _ 0 0 0 _ _ (decode_back format st2)); intros dec st3 [Hr Hdec].
  apply (comes_back_bind _ _ _ 0 0 0 (fun x => x = duration)); [apply comes_back_lift; eauto|].
  intros ? st4 ->; cbv zeta.
  apply (comes_back_bind _ _ _ 0 0 0 (fun _ => True)).
  { case_decide; [case_match; [apply comes_back_fail|by apply comes_back_ret]|by apply comes_back_ret]. }
  intros _ st5 _; apply comes_back_ret; exists media, keyId, norm, duration, format; split_and!; auto.
Qed.

Lemma NewStream_back id bitrate mediaPosition st :
  comes_back (NewStream env cfg id bitrate mediaPosition) st 1 0 (loaded id bitrate mediaPosition).
Proof.
  apply (comes_back_bind _ _ _ 0 1 0 (fun _ => True)); [by apply (comes_back_eff LPreStreamLoadNew)|]; intros _ st1 _.
  apply (comes_back_bind _ _ _ 0 1 0 _ _ (select_file_back id bitrate st1)).
  intros [[[media keyId] file] norm] st2 (Hs & Hm & format & Hf).
  apply (comes_back_bind _ _ _ 0 1 0 (fun _ => True)); [by apply (comes_back_eff LPostStreamResolveAudioFile)|]; intros _ st3 _.
  apply (comes_back_bind _ _ _ 0 1 0 (fun _ => True)).
  { destruct (retrieveAudioKey_back keyId (af_FileId file) st3) as (st4 & r & E & Hc & _).
    unfold comes_back; rewrite E; cbn; do 2 eexists; split; [done|]; destruct r; auto. }
  intros key st4 _.
  apply (comes_back_bind _ _ _ 0 1 0 (fun _ => True)); [by apply (comes_back_eff LPostStreamRequestAudioKey)|]; intros _ st5 _.
  apply (comes_back_bind _ _ _ 1 0 0 _ _ (openRaw_back file format st5 Hf)); intros _ st6 _.
  apply (comes_back_closing _ _ 0 0); by eapply finishStream_back.
Qed.
End new_stream.

(** ** Theorems *)


(** A track restricted in Italy with one alternative, in three formats, served
    by the second of two hosts. *)
Definition gid_of (n : Z) : list Z := replicate 16 n.

Definition demo_meta : Track :=
  MkTrack (gid_of 1) (Some 180000) [CountriesForbidden "ITFR"]
    [MkAlt (gid_of 2) [CountriesAllowed "USDE"]; MkAlt (gid_of 3) [CountriesAllowed "DEit"]].

Definition demo_files : AudioFiles :=
  MkAudioFiles [Some (MkAudioFile (Some OGG_VORBIS_96) [1]); Some (MkAudioFile (Some OGG_VORBIS_320) [2]);
                Some (MkAudioFile (Some MP3_320) [3])] (Some 7) None.

Definition demo_load : LoadEnv := {|
  le_track _ := Ok demo_meta;
  le_audioFiles _ := Ok demo_files;
  le_episode _ := Err (EMsg "no such episode");
  le_playplay := false;
  le_license _ := Err (EMsg "no plugin");
  le_deobfuscate _ _ := Err (EMsg "no plugin");
  le_keyRequest _ _ := Ok (gid_of 9);
  le_cached _ := false;
  le_storage _ _ := Ok (MkStorage STORAGE_CDN ["https://a/1"; "https://b/1"]);
  le_urlHost u := Ok (if decide (u = "https://a/1") then "a" else "b");
  le_openUrl _ u := if decide (u = "https://a/1") then Some (EMsg "refused") else None;
  le_now _ := 5000;
  le_failedAt _ := 5001;
  le_metadataPage := None;
  le_decoder _ := Ok (MkDecoder 44100 2 0);
  le_seek _ := None;
  le_playbackId := "p"
|}.

Definition demo_load_cfg : LoadConfig := MkLoadConfig "IT" false true false true.
Definition demo_id : SpotifyId := MkSpotifyId SpotifyIdTypeTrack (gid_of 1).
Definition demo_state : LoadState := MkLoadState ∅ [].

Lemma demo_load_ok : metadata_ok demo_load.
Proof.
  split; simpl; [|intros _ fs [= <-]|done].
  - intros _ t [= <-]; unfold track_meta_ok; simpl; split_and!; [done|done|by repeat constructor|by repeat constructor].
  - simpl; repeat (apply Forall_cons; split; [by eexists _, _|]); by apply Forall_nil.
Qed.


(** Every CDN url gets its chance.  The urls are tried in order; one is
    passed over only because it does not parse, because it was refused, or
    because its host failed less than fifteen minutes ago and it is not the last
    one, so that a quarantine alone never makes a load fail.  The first that
    opens is used and its host leaves the quarantine; otherwise the error names
    the cause and nothing was opened. *)
Theorem cdn_urls_tried (env : LoadEnv) (urls : list string) (st : LoadState) :
  urls <> [] ->
  exists st' r, httpChunkedReaderFromStorageResolve env (MkStorage STORAGE_CDN urls) st = Ret (st', r) /\
    match r with
    | Ok u => exists j host, urls !! j = Some u /\ le_urlHost env u = Ok host /\ le_openUrl env j u = None /\
        ld_quarantine st' !! host = None /\ ld_effects st' = ld_effects st ++ [LOpenUrl u] /\
        (forall k v, (k < j)%nat -> urls !! k = Some v -> passed_over env (ld_quarantine st) (length urls) k v)
    | Err e => (exists cause, e = EWrap "failed creating chunked reader for any cdn url" cause) /\
        ld_effects st' = ld_effects st /\
        (forall k v, urls !! k = Some v -> passed_over env (ld_quarantine st) (length urls) k v)
    end.
Proof.
  intros Hn; unfold httpChunkedReaderFromStorageResolve; simpl; rewrite decide_False by done.
  apply (cdn_loop_spec env (ld_quarantine st) (length urls) urls 0 None st); [done|done|by left].
Qed.

Lemma cdn_urls_tried_witness :
  exists st', httpChunkedReaderFromStorageResolve demo_load (MkStorage STORAGE_CDN ["https://a/1"; "https://b/1"])
      (MkLoadState {["b" := 4000]} []) = Ret (st', Ok "https://b/1") /\
    ld_quarantine st' = {["a" := 5001]}.
Proof.
  destruct (cdn_urls_tried demo_load ["https://a/1"; "https://b/1"] (MkLoadState {["b" := 4000]} []))
    as (st' & r & E & _); [done|].
  exists st'; rewrite E; vm_compute in E; injection E as <- <-; split; reflexivity.
Defined.

(** An undecodable file can be preferred to one that plays: formats without a
    known bitrate count as 0 kbit/s, which is nearer to 96 than 320 is. *)
Theorem undecodable_file_preferred :
  let files := [Some (MkAudioFile (Some OGG_VORBIS_320) [1]); Some (MkAudioFile (Some AAC_24) [2])] in
  selectBestMediaFormat files 96 false = Ret (Some (MkAudioFile (Some AAC_24) [2])) /\
  forall env st, decode env AAC_24 st = Ret (st, Err (EMsg "unsupported audio format")).
Proof. split; reflexivity. Qed.

(** A file in a format newer than the schema has none, and is dereferenced. *)
Theorem unknown_format_panics (preferred : Z) (flac : bool) (id : list Z) (files : list (option AudioFile)) :
  selectBestMediaFormat (Some (MkAudioFile None id) :: files) preferred flac = Panic "nil pointer dereference".
Proof. reflexivity. Qed.

(** A restriction without countries, and a list cut in the middle of a code. *)
Theorem malformed_restriction_panics :
  isMediaRestricted [NoCountryRestriction] "IT" = Panic "unexpected country restriction" /\
  isMediaRestricted [CountriesForbidden "FRI"] "IT" = Panic "slice bounds out of range".
Proof. split; reflexivity. Qed.

(** A decoder that found another sample rate is left open. *)
Theorem unsupported_rate_leaks_decoder (env : LoadEnv) (f : AudioFormat) (msg : string) (d : Decoder) (st : LoadState) :
  le_decoder env f = Ok d -> dec_SampleRate d <> SampleRate ->
  openDecoder env f msg st =
    Ret (MkLoadState (ld_quarantine st) (ld_effects st ++ [LOpenDecoder f]), Err (EMsg "unsupported sample rate")).
Proof. intros Hd Hr; unfold openDecoder, lbind, lwrap, leff; rewrite Hd; cbn; by rewrite decide_True. Qed.
