(* ===== verification/Requests.v ===== *)
(** * What the player loop is asked to do ([src/dealer/recv.go], [src/daemon/player.go],
    [src/daemon/controls.go])

    Contexts, transfers, the commands of other devices and the requests of the
    API and of the desktop, as far as the handlers read them; and the pure
    functions on them. *)

From stdpp Require Import gmap.
From S2P Require Import Prelude Ids Tracks.
#[local] Open Scope string_scope.
#[local] Open Scope list_scope.
#[local] Open Scope Z_scope.

(** ** Contexts *)
Record ContextPage := MkPage { pg_Tracks : list ContextTrack; pg_PageUrl : string; pg_NextPageUrl : string }.

(** [connectpb.Context]; the flags tell whether its restrictions give reasons
    against shuffling and repeating. *)
Record SpotContextRef := MkContextRef {
  cx_uri : string;
  cx_url : string;
  cx_pages : list ContextPage;
  cx_noShuffle : bool;
  cx_noRepeatTrack : bool;
  cx_noRepeatContext : bool
}.

Definition uri_context (uri : string) : SpotContextRef := MkContextRef uri "" [] false false false.

Definition context_type (cx : SpotContextRef) : SpotifyIdType :=
  InferSpotifyIdTypeFromContext (MkSpotContext (cx_uri cx) (pg_Tracks <$> cx_pages cx)).

Definition singleTrackContext (track : option ContextTrack) : run (option SpotContextRef) :=
  match track with
  | None => Ret None
  | Some t =>
    if decide (ct_Uri t <> "") then Ret (Some (uri_context (ct_Uri t)))
    else if decide (zlen (ct_Gid t) = 16) then
      id ← SpotifyIdFromGid SpotifyIdTypeTrack (ct_Gid t);
      uri ← Uri id;
      Ret (Some (uri_context uri))
    else Ret None
  end.

Definition empty_page (pg : ContextPage) : bool :=
  negb (bool_decide (0 < zlen (pg_Tracks pg)) || bool_decide (pg_PageUrl pg <> "") || bool_decide (pg_NextPageUrl pg <> "")).

Definition emptyContext (cx : SpotContextRef) : bool :=
  if decide (cx_uri cx <> "" \/ cx_url cx <> "") then false else forallb empty_page (cx_pages cx).

Definition trackOnlyContext (track : option ContextTrack) : run (option SpotContextRef) :=
  cx ← singleTrackContext track;
  match cx, track with
  | Some cx, Some t => Ret (Some (MkContextRef (cx_uri cx) (cx_url cx) [MkPage [t] "" ""] false false false))
  | _, _ => Ret None
  end.

(** ** Transfers *)
Record PlayerOptions := MkOptions {
  op_ShufflingContext : bool;
  op_RepeatingContext : bool;
  op_RepeatingTrack : bool;
  op_Modes : gmap string string
}.

Record Playback := MkPlayback {
  pb_Timestamp : Z;
  pb_PositionAsOfTimestamp : Z;
  pb_IsPaused : bool;
  pb_CurrentTrack : option ContextTrack
}.

(** [connectpb.TransferState] with its playback, its session and its options
    present; a context that is missing reads like an empty one. *)
Record TransferState := MkTransfer {
  ts_Playback : Playback;
  ts_Context : SpotContextRef;
  ts_OriginalSessionId : option string;
  ts_CurrentUid : string;
  ts_Options : PlayerOptions;
  ts_Queue : list ContextTrack;
  ts_IsPlayingQueue : bool
}.

Definition with_context (ts : TransferState) (cx : SpotContextRef) : TransferState :=
  MkTransfer (ts_Playback ts) cx (ts_OriginalSessionId ts) (ts_CurrentUid ts) (ts_Options ts) (ts_Queue ts)
    (ts_IsPlayingQueue ts).

Definition playingQueuedTrack (queue : list ContextTrack) (isPlaying : bool) (current : option ContextTrack) : run bool :=
  match isPlaying, queue, current with
  | true, head :: _, Some current =>
    if decide (ct_Uid head <> "" /\ ct_Uid current <> "") then Ret (bool_decide (ct_Uid head = ct_Uid current))
    else cmp ← ContextTrackComparator SpotifyIdTypeTrack current; cmp head
  | _, _, _ => Ret false
  end.

(** ** Where a context starts

    [SkipToPlay] is what a play command asks for, [SkipToUri] what the API does;
    a station starts at its first track. *)
Inductive SkipTo :=
| SkipToNone
| SkipToFirst
| SkipToPlay (uri uid : string) (index : Z)
| SkipToUri (uri : string).

(** The [skip_to] of a play command; without any of its fields nothing is asked for. *)
Definition play_skip (uri uid : string) (index : Z) : SkipTo :=
  if decide (uri <> "" \/ uid <> "" \/ 0 < index) then SkipToPlay uri uid index else SkipToNone.

Definition api_skip (uri : string) : SkipTo := if decide (uri = "") then SkipToNone else SkipToUri uri.

(** The match of a play command that names a track; [SkipTo.TrackIndex] alone
    counts the tracks it is shown instead. *)
Definition play_matches (uri uid : string) (track : ContextTrack) : bool :=
  bool_decide (uid <> "" /\ uid = ct_Uid track) || bool_decide (uri <> "" /\ uri = ct_Uri track).

(** The match of the API: a uri that could not be parsed leaves no id to compare
    a gid with. *)
Definition api_matches (uri : string) (track : ContextTrack) : run bool :=
  if decide (ct_Uri track <> "") then Ret (bool_decide (uri = ct_Uri track))
  else if decide (0 < zlen (ct_Gid track)) then
    id ← SpotifyIdFromUri uri;
    match id with
    | Ok id => Ret (bool_decide (id_id id = ct_Gid track))
    | Err _ => Panic "nil pointer dereference"
    end
  else Ret false.

(** ** Commands of other devices ([dealer.RequestPayload])

    The value of a command comes from JSON; a number is cut to an integer. *)
Inductive JsonValue := JBool (b : bool) | JNumber (n : Z) | JOther.

(** [PlayerOptionsOverride] of a play command. *)
Record Overrides := MkOverrides { ov_shuffle : bool; ov_repeatTrack : bool; ov_repeatContext : bool }.

(** The timer of a sleep command: clearing it, a missing one and an unknown one
    come to the same. *)
Inductive SleepCommand := SleepDuration (seconds : Z) | SleepEndOfTrack | SleepClear.

Inductive DealerCommand :=
| CmdTransfer (data : option TransferState) (restoreTrack restorePaused retainSession : string)
| CmdPlay (cx : SpotContextRef) (override : option Overrides) (skipTo : SkipTo) (initiallyPaused : bool)
| CmdPause
| CmdResume
| CmdSeekTo (relative : string) (position : Z) (value : JsonValue)
| CmdSkipPrev (allowSeeking : bool)
| CmdSkipNext (track : option ContextTrack)
| CmdUpdateContext (uri : string)
| CmdSetRepeatingContext (value : JsonValue)
| CmdSetRepeatingTrack (value : JsonValue)
| CmdSetShufflingContext (value : JsonValue)
| CmdSetOptions (repeatingContext repeatingTrack shufflingContext : option bool) (modes : gmap string string)
| CmdSetQueue (prev next : list ContextTrack)
| CmdAddToQueue (track : ContextTrack)
| CmdSetSleepTimer (t : SleepCommand)
| CmdUnsupported (endpoint : string).

(** ** Requests of the API that reach the player's state *)
Record ApiPlay := MkApiPlay { ap_Uri : string; ap_SkipToUri : string; ap_Paused : bool; ap_Position : Z }.

Inductive ApiRequest :=
| ReqResume | ReqPause | ReqStop | ReqPlayPause
| ReqSeek (position : Z) (relative : bool)
| ReqPrev
| ReqNext (uri : option string)
| ReqPlay (data : ApiPlay)
| ReqSetRepeatingContext (v : bool) | ReqSetRepeatingTrack (v : bool) | ReqSetShufflingContext (v : bool)
| ReqAddToQueue (uri : string).

(** ** Requests of the desktop ([mpris.MediaPlayer2PlayerCommand]) *)
Inductive LoopStatus := LoopNone | LoopPlaylist | LoopTrack | LoopInvalid.

Inductive MprisCommand :=
| MprisNext | MprisPrevious | MprisPlay | MprisPause | MprisPlayPause | MprisStop
| MprisLoopStatus (status : LoopStatus)
| MprisShuffle (v : bool)
| MprisSetPosition (validPath : bool) (path : string) (positionUs : Z)
| MprisSeek (offsetUs : Z)
| MprisUnimplemented.
