(* ===== verification/QueueIds.v ===== *)
(** * Ids of queued tracks ([highestQueueID] of [src/daemon/controls.go])

    A track added to the queue without a uid is given ["q<n>"], counting on from
    the highest such id a transfer brought along.  Printing and parsing are
    inverse to each other. *)

From Stdlib Require Import Ascii String.
From stdpp Require Import pretty.
From S2P Require Import Prelude Ids Tracks.
#[local] Open Scope string_scope.
#[local] Open Scope list_scope.
#[local] Open Scope Z_scope.

(** The number of a ["q<n>"] uid. *)
Definition queue_number (uid : string) : option Z :=
  match list_ascii_of_string uid with
  | "q"%char :: digits => ParseUint digits
  | _ => None
  end.

(** [fmt.Sprintf("q%d", n)]. *)
Definition queue_uid (n : Z) : string := String.append "q" (pretty n).

Definition highestQueueID (queued : list ContextTrack) : Z :=
  foldl (fun highest t => match queue_number (ct_Uid t) with Some n => Z.max highest n | None => highest end) 0 queued.

(** ** Printing and parsing *)
Lemma decimal_pretty_char x : (x < 10)%N -> decimal_digit (pretty_N_char x) = Some (Z.of_N x).
Proof.
  intros Hx; assert (x = 0 \/ x = 1 \/ x = 2 \/ x = 3 \/ x = 4 \/ x = 5 \/ x = 6 \/ x = 7 \/ x = 8 \/ x = 9)%N as Hc by lia.
  repeat destruct Hc as [->|Hc]; try reflexivity; rewrite Hc; reflexivity.
Qed.

Lemma parse_pretty_go x s : parse_digits 0 (list_ascii_of_string (pretty_N_go x s)) = parse_digits (Z.of_N x) (list_ascii_of_string s).
Proof.
  revert s; induction (N.lt_wf_0 x) as [x _ IH]; intros s; destruct (decide (x = 0)%N) as [->|Hx].
  - by rewrite pretty_N_go_0.
  - rewrite pretty_N_go_step by lia; rewrite IH by (apply N.div_lt; lia); cbn [list_ascii_of_string parse_digits].
    rewrite decimal_pretty_char by (apply N.mod_lt; lia); f_equal.
    rewrite N2Z.inj_div, N2Z.inj_mod; pose proof (Z.div_mod (Z.of_N x) 10); lia.
Qed.

Lemma pretty_go_nonempty x s : s <> "" -> pretty_N_go x s <> "".
Proof.
  revert s; induction (N.lt_wf_0 x) as [x _ IH]; intros s Hs; destruct (decide (x = 0)%N) as [->|Hx].
  - by rewrite pretty_N_go_0.
  - rewrite pretty_N_go_step by lia; apply IH; [apply N.div_lt; lia | done].
Qed.

Lemma parse_pretty n : 0 <= n < 2 ^ 64 -> ParseUint (list_ascii_of_string (pretty n)) = Some n.
Proof.
  intros Hn; destruct n as [|x|x]; [reflexivity| |lia].
  change (pretty (Z.pos x)) with (pretty (N.pos x)); unfold pretty, pretty_N; rewrite decide_False by done.
  unfold ParseUint; rewrite parse_pretty_go.
  destruct (list_ascii_of_string (pretty_N_go (N.pos x) "")) as [|c l] eqn:E.
  - exfalso; rewrite pretty_N_go_step in E by lia.
    apply (f_equal string_of_list_ascii) in E; rewrite string_of_list_ascii_of_string in E.
    by eapply pretty_go_nonempty in E.
  - cbn [list_ascii_of_string parse_digits]; by rewrite decide_True by (cbn; lia).
Qed.

Lemma queue_number_uid n : 0 <= n < 2 ^ 64 -> queue_number (queue_uid n) = Some n.
Proof. intros Hn; unfold queue_number, queue_uid; cbn; by apply parse_pretty. Qed.

Lemma highest_bound queued t n :
  t ∈ queued -> queue_number (ct_Uid t) = Some n -> n <= highestQueueID queued.
Proof.
  unfold highestQueueID; intros Ht Hn.
  assert (forall l h, h <= foldl (fun highest t => match queue_number (ct_Uid t) with
    Some n => Z.max highest n | None => highest end) h l) as Hmono.
  { induction l as [|t' l IH]; intros h; cbn [foldl]; [lia|].
    etrans; [|apply IH]; destruct (queue_number (ct_Uid t')); lia. }
  generalize 0; induction queued as [|t' queued IH]; [by apply elem_of_nil in Ht|]; intros h; cbn [foldl].
  apply elem_of_cons in Ht as [<-|Ht]; [|by apply IH].
  rewrite Hn; etrans; [|apply Hmono]; lia.
Qed.

Lemma highest_nonneg queued : 0 <= highestQueueID queued.
Proof.
  unfold highestQueueID; assert (forall l h, 0 <= h -> 0 <= foldl (fun highest t => match queue_number (ct_Uid t) with
    Some n => Z.max highest n | None => highest end) h l) as Hpos; [|by apply Hpos].
  induction l as [|t l IH]; intros h Hh; cbn [foldl]; [done|]; apply IH; destruct (queue_number (ct_Uid t)); lia.
Qed.

