(* ===== verification/Contexts.v ===== *)
(** * Contexts and their pages ([src/spclient/context_resolver.go],
    [src/spclient/playlist_context.go], [ContextResolve] of
    [src/spclient/spclient.go])

    A context comes with some pages and the urls of others; playlists are built
    from the playlist service, fifty items a page.  [ContextResolver] is what
    the track list and the listings read pages through: the state of the class
    of the same name in [Tracks].  The HTTP exchanges are parameters: what the
    n-th request made is answered. *)

From Stdlib Require Import Ascii String.
From stdpp Require Import gmap pretty.
From S2P Require Import Prelude PagedList Ids Tracks Requests QueueIds.
#[local] Open Scope string_scope.
#[local] Open Scope list_scope.
#[local] Open Scope Z_scope.

(** ** Answers *)

(** The request failed, a status other than 200, or a body with what reading
    and decoding it gave. *)
Inductive answer (X : Type) :=
| AnsFail (e : error)
| AnsStatus (code : Z)
| AnsBody (r : result X).
Arguments AnsFail {X} e.
Arguments AnsStatus {X} code.
Arguments AnsBody {X} r.

(** [playlist4pb.SelectedListContent] and its items, as far as they are read. *)
Record PlaylistItem := MkItem {
  it_Uri : string;
  it_ItemId : list Z;
  it_AddedBy : string;
  it_Timestamp : option Z;
  it_FormatAttributes : list (string * string)
}.

Record SelectedList := MkSelected {
  sl_Revision : list Z;
  sl_Owner : string;
  sl_Name : string;
  sl_Description : string;
  sl_Format : string;
  sl_Picture : list Z;
  sl_FormatAttributes : list (string * string);
  sl_Pos : Z;
  sl_Truncated : bool;
  sl_Items : list PlaylistItem
}.

(** [connectpb.Context] with its metadata. *)
Record Context_ := MkContext {
  c_ref : SpotContextRef;
  c_Metadata : option metadata;
  c_Loading : bool
}.

(** What the services answer to the n-th request, and where the metadata map of
    a new track or context is kept. *)
Record Service := MkService {
  sv_page : nat -> string -> answer ContextPage;
  sv_playlist : nat -> string -> answer SelectedList;
  sv_contextUrl : nat -> string -> answer Context_;
  sv_contextResolve : nat -> string -> answer Context_;
  sv_place : metadata -> option loc
}.

(** ** Playlists *)
Definition playlistPageSize : Z := 50.
Definition playlistPageUrlPrefix : string := "hm://playlist/v2/playlist/".

Definition playlistPageUrl (playlist : SpotifyId) (from : Z) : run string :=
  b ← Base62 playlist;
  Ret (playlistPageUrlPrefix ++ b ++ "?from=" ++ pretty from ++ "&length=" ++ pretty playlistPageSize)%string.

Definition IsPlaylistPageUrl (url : string) : bool := has_prefix playlistPageUrlPrefix url.

(** Later attributes win: [metadata[key] = value] in order. *)
Definition add_attributes (m : metadata) (attrs : list (string * string)) : metadata :=
  foldl (fun m '(k, v) => <[k := v]> m) m attrs.

Definition playlistMetadata (l : SelectedList) : metadata :=
  let m : metadata := {[ "context_description" := sl_Name l; "context_owner" := sl_Owner l;
                         "playlist.revision" := hex_encode (sl_Revision l) ]} in
  let m := if decide (sl_Description l <> "") then <["context_long_description" := sl_Name l]> m else m in
  let m := if decide (sl_Format l <> "") then <["format_list_type" := sl_Format l]> m else m in
  let m := if decide (sl_Picture l <> [])
           then <["image_url" := ("https://u.scdn.co/images/pl/default/" ++ hex_encode (sl_Picture l))%string]> m
           else m in
  add_attributes m (sl_FormatAttributes l).

Definition itemMetadata (owner : string) (i : PlaylistItem) : metadata :=
  let uid := hex_encode (it_ItemId i) in
  let addedBy := if decide (it_AddedBy i = "") then owner else it_AddedBy i in
  let m : metadata := {[ "added_by_username" := addedBy; "highlight_id" := uid ]} in
  let m := match it_Timestamp i with
           | Some t => <["added_at" := pretty t]> m
           | None => m
           end in
  add_attributes m (it_FormatAttributes i).

Definition itemTrack (sv : Service) (owner : string) (i : PlaylistItem) : ContextTrack :=
  MkContextTrack (it_Uri i) (hex_encode (it_ItemId i)) [] (sv_place sv (itemMetadata owner i)).

Definition playlistContextPage (sv : Service) (playlist : SpotifyId) (l : SelectedList) : run ContextPage :=
  let tracks := itemTrack sv (sl_Owner l) <$> sl_Items l in
  if sl_Truncated l && bool_decide (0 < zlen (sl_Items l)) then
    url ← playlistPageUrl playlist (sl_Pos l + zlen (sl_Items l));
    Ret (MkPage tracks "" url)
  else Ret (MkPage tracks "" "").

Definition playlist (sv : Service) (n : nat) (url : string) : result SelectedList :=
  match sv_playlist sv n url with
  | AnsFail e => Err e
  | AnsStatus _ => Err (EMsg "invalid status code from playlist")
  | AnsBody r => r
  end.

(** [strings.Cut(s, "?")]: the part before the first question mark. *)
Fixpoint cut_query (s : string) : string :=
  match s with
  | "" => ""
  | String c s => if decide (c = "?"%char) then "" else String c (cut_query s)
  end.

Fixpoint trim_prefix (p s : string) : string :=
  match p, s with
  | "", _ => s
  | String a p, String b s => if decide (a = b) then trim_prefix p s else String b s
  | _, "" => ""
  end.

Definition TrimPrefix (p s : string) : string := if has_prefix p s then trim_prefix p s else s.

Definition PlaylistPage (sv : Service) (n : nat) (pageUrl : string) : run (result ContextPage) :=
  id ← SpotifyIdFromBase62 SpotifyIdTypePlaylist (cut_query (TrimPrefix playlistPageUrlPrefix pageUrl));
  match id with
  | Err e => Ret (Err (EWrap "invalid playlist page url" e))
  | Ok id =>
    match playlist sv n pageUrl with
    | Err e => Ret (Err e)
    | Ok l => page ← playlistContextPage sv id l; Ret (Ok page)
    end
  end.

Definition PlaylistContext (sv : Service) (n : nat) (id : SpotifyId) : run (result Context_) :=
  url ← playlistPageUrl id 0;
  match playlist sv n url with
  | Err e => Ret (Err e)
  | Ok l =>
    uri ← Uri id;
    page ← playlistContextPage sv id l;
    Ret (Ok (MkContext (MkContextRef uri ("context://" ++ uri)%string [page] false false false)
               (Some (playlistMetadata l)) false))
  end.

(** ** Resolving a context *)

(** [&ContextResolveError{StatusCode: ...}]; the code is only printed. *)
Definition ContextResolveError : error := ESentinel "spclient.ContextResolveError".

Definition resolved (a : answer Context_) : result Context_ :=
  match a with
  | AnsFail e => Err e
  | AnsStatus _ => Err ContextResolveError
  | AnsBody r => r
  end.

(** Two requests at most: the playlist, then context resolve. *)
Definition ContextResolve (sv : Service) (n : nat) (uri : string) : run (nat * result Context_) :=
  if decide (InferSpotifyIdTypeFromContextUri uri = SpotifyIdTypeUnknown)
  then Ret (n, Err (EMsg "unsupported context type"))
  else
    id ← SpotifyIdFromUri uri;
    let resolve n := Ret (S n, resolved (sv_contextResolve sv n uri)) in
    match id with
    | Ok id =>
      if decide (id_typ id = SpotifyIdTypePlaylist) then
        r ← PlaylistContext sv n id;
        match r with
        | Ok c => Ret (S n, Ok c)
        | Err _ => resolve (S n)
        end
      else resolve n
    | Err _ => resolve n
    end.

Definition ContextResolveUrl (sv : Service) (n : nat) (url : string) : nat * result Context_ :=
  (S n, resolved (sv_contextUrl sv n url)).

Fixpoint pages_complete (expected total : Z) (pages : list ContextPage) : bool :=
  match pages with
  | [] => bool_decide (expected = total)
  | p :: pages =>
    if decide (pg_NextPageUrl p <> "") then true
    else pages_complete expected (total + zlen (pg_Tracks p)) pages
  end.

Definition isTracksComplete (c : Context_) : bool :=
  match default ∅ (c_Metadata c) !! "playlist_number_of_tracks" with
  | None => true
  | Some s =>
    match Atoi s with
    | None => true
    | Some expected => if decide (expected < 0) then true else pages_complete expected 0 (cx_pages (c_ref c))
    end
  end.

Definition hasResolvablePages (c : Context_) : bool :=
  existsb (fun p => bool_decide (0 < zlen (pg_Tracks p)) || bool_decide (pg_PageUrl p <> "")
                    || bool_decide (pg_NextPageUrl p <> "")) (cx_pages (c_ref c)).

Definition isItemUri (uri : string) : bool :=
  str_in (ContextUriType uri) ["track"; "episode"; "chapter"] && negb (has_prefix "spotify:user:" uri).

(** [track.Metadata[key] = value], which panics on a nil map. *)
Definition meta_set (h : mheap) (m : option loc) (key value : string) : run mheap :=
  match m with
  | None => Panic "assignment to entry in nil map"
  | Some p => Ret (alter (fun mm : metadata => <[key := value]> mm) p h)
  end.

Fixpoint mark_autoplay (h : mheap) (ts : list ContextTrack) : run mheap :=
  match ts with
  | [] => Ret h
  | t :: ts => h ← meta_set h (ct_Metadata t) "autoplay.is_autoplay" "true"; mark_autoplay h ts
  end.

(** The resolver: its type, its context, and how many requests it has made. *)
Record Resolver := MkResolver {
  rs_typ : SpotifyIdType;
  rs_ctx : Context_;
  rs_requests : nat
}.

Definition with_pages (c : Context_) (pages : list ContextPage) : Context_ :=
  MkContext (MkContextRef (cx_uri (c_ref c)) (cx_url (c_ref c)) pages (cx_noShuffle (c_ref c))
               (cx_noRepeatTrack (c_ref c)) (cx_noRepeatContext (c_ref c))) (c_Metadata c) (c_Loading c).

(** The context to page through: the given one, or what the service knows of
    it, with the given metadata on top. *)
Definition fetch_context (sv : Service) (c : Context_) : run (nat * result Context_) :=
  if bool_decide (cx_pages (c_ref c) = []) || negb (hasResolvablePages c) || negb (isTracksComplete c) then
    '(n, r) ← (if has_prefix "hm://" (cx_url (c_ref c))
               then Ret (ContextResolveUrl sv 0 (cx_url (c_ref c)))
               else ContextResolve sv 0 (cx_uri (c_ref c)));
    Ret (n, match r with
            | Err e => Err (EWrap "failed resolving context" e)
            | Ok new =>
              if c_Loading new then Err (EMsg "context is loading")
              else Ok (MkContext (c_ref new) (Some (default ∅ (c_Metadata c) ∪ default ∅ (c_Metadata new))) (c_Loading new))
            end)
  else Ret (0%nat, Ok c).

Definition NewContextResolver (sv : Service) (h : mheap) (c : Context_) : run (mheap * result Resolver) :=
  let typ := context_type (c_ref c) in
  if decide (typ = SpotifyIdTypeUnknown) then Ret (h, Err (EMsg "unsupported context type"))
  else
    '(n, r) ← fetch_context sv c;
    match r with
    | Err e => Ret (h, Err e)
    | Ok c =>
      if negb (hasResolvablePages c) && negb (isItemUri (cx_uri (c_ref c)))
      then Ret (h, Err (EMsg "context has no tracks"))
      else
        let c := if hasResolvablePages c then c
                 else with_pages c [MkPage [MkContextTrack (cx_uri (c_ref c)) "" [] (sv_place sv ∅)] "" ""] in
        h ← (if has_prefix "spotify:station:" (cx_uri (c_ref c))
             then mark_autoplay h (mjoin (pg_Tracks <$> cx_pages (c_ref c))) else Ret h);
        Ret (h, Ok (MkResolver typ c n))
    end.

(** ** Pages *)
Definition rs_pages (r : Resolver) : list ContextPage := cx_pages (c_ref (rs_ctx r)).

Definition loadPage (sv : Service) (r : Resolver) (url : string) : run (Resolver * result ContextPage) :=
  let asked := MkResolver (rs_typ r) (rs_ctx r) (S (rs_requests r)) in
  if negb (has_prefix "hm://" url) then Ret (r, Err (EMsg "invalid page url"))
  else if IsPlaylistPageUrl url then
    res ← PlaylistPage sv (rs_requests r) url;
    Ret (asked, match res with Err e => Err (EWrap "failed requesting page" e) | Ok p => Ok p end)
  else
    Ret (asked, match sv_page sv (rs_requests r) url with
                | AnsFail e => Err (EWrap "failed requesting page" e)
                | AnsStatus code => if decide (code = 404) then Err io_EOF else Err (EMsg "invalid status code from page")
                | AnsBody r => r
                end).

Definition set_pages (r : Resolver) (pages : list ContextPage) : Resolver :=
  MkResolver (rs_typ r) (with_pages (rs_ctx r) pages) (rs_requests r).

(** [for idx >= len(r.ctx.Pages)]: one page is added a round. *)
Fixpoint extend_loop (sv : Service) (fuel : nat) (r : Resolver) (idx : Z) : run (Resolver * option error) :=
  if decide (idx < zlen (rs_pages r)) then Ret (r, None)
  else
    match last (rs_pages r) with
    | None => Ret (r, Some io_EOF)
    | Some lastPage =>
      if decide (pg_NextPageUrl lastPage = "") then Ret (r, Some io_EOF)
      else
        match fuel with
        | O => OutOfFuel
        | S fuel =>
          '(r, res) ← loadPage sv r (pg_NextPageUrl lastPage);
          match res with
          | Err e => Ret (r, Some (EWrap "failed fetching next page" e))
          | Ok newPage => extend_loop sv fuel (set_pages r (rs_pages r ++ [newPage])) idx
          end
        end
    end.

Definition Resolver_Page (sv : Service) (r : Resolver) (idx : Z) : run (Resolver * result (list ContextTrack)) :=
  if decide (idx < 0) then Ret (r, Err (EMsg "invalid page index"))
  else
    '(r, err) ← extend_loop sv (Z.to_nat (idx + 1 - zlen (rs_pages r))) r idx;
    match err with
    | Some e => Ret (r, Err e)
    | None =>
      page ← index (rs_pages r) idx;
      if decide (pg_Tracks page = []) then
        if decide (pg_PageUrl page = "") then Ret (r, Err (EMsg "invalid empty page without url"))
        else
          '(r, res) ← loadPage sv r (pg_PageUrl page);
          match res with
          | Err e => Ret (r, Err (EWrap "failed fetching page" e))
          | Ok newPage => Ret (set_pages r (setZ (rs_pages r) idx newPage), Ok (pg_Tracks newPage))
          end
      else Ret (r, Ok (pg_Tracks page))
    end.
