(* ===== verification/ContextClaims.v ===== *)
(** * Contexts and their pages: theorems

    The resolver serves the pages of its context in order whatever it is asked
    for first, ends where they end, and reads a playlist of any length in full. *)

From Stdlib Require Import Ascii String.
From stdpp Require Import gmap pretty.
From S2P Require Import Prelude PagedList Ids Tracks MetaCache Requests QueueIds Contexts.
#[local] Open Scope string_scope.
#[local] Open Scope list_scope.
#[local] Open Scope Z_scope.

(** ** The resolver as an interface *)

(** [*spclient.ContextResolver] as the [ContextResolver] the track list reads
    through.  The class has no room for a panic; where the theorems use the
    instance, [Resolver_Page] is proved to come back. *)
#[export] Instance spclient_resolver (sv : Service) : ContextResolver Resolver := {
  cr_pages := fun r i => match Resolver_Page sv r i with Ret x => x | _ => (r, Err (EMsg "panic")) end;
  cr_Type := rs_typ;
  cr_Metadata r := m ← c_Metadata (rs_ctx r); sv_place sv m
}.

(** ** Pages linked by their urls *)
Definition url_serves (sv : Service) (url : string) (p : ContextPage) : Prop :=
  forall r, loadPage sv r url = Ret (MkResolver (rs_typ r) (rs_ctx r) (S (rs_requests r)), Ok p).

(** A page url that turns out not to exist. *)
Definition url_gone (sv : Service) (url : string) : Prop :=
  has_prefix "hm://" url = true /\ IsPlaylistPageUrl url = false /\ forall n, sv_page sv n url = AnsStatus 404.

Inductive chain (sv : Service) : list ContextPage -> Prop :=
| chain_last p : pg_NextPageUrl p = "" -> chain sv [p]
| chain_gone p : pg_NextPageUrl p <> "" -> url_gone sv (pg_NextPageUrl p) -> chain sv [p]
| chain_cons p q ps : pg_NextPageUrl p <> "" -> url_serves sv (pg_NextPageUrl p) q -> chain sv (q :: ps) ->
    chain sv (p :: q :: ps).

Lemma chain_next sv ps : chain sv ps -> forall k p q, ps !! k = Some p -> ps !! S k = Some q ->
  pg_NextPageUrl p <> "" /\ url_serves sv (pg_NextPageUrl p) q.
Proof.
  induction 1 as [p Hp|p Hp Hg|p q ps Hp Hs Hc IH]; intros [|k] p' q' Hk Hk'; simplify_eq/=; auto.
  by apply (IH k).
Qed.

Lemma chain_end sv ps : chain sv ps -> exists p, last ps = Some p /\
  (pg_NextPageUrl p = "" \/ (pg_NextPageUrl p <> "" /\ url_gone sv (pg_NextPageUrl p))).
Proof. induction 1 as [p Hp|p Hp Hg|p q ps Hp Hs Hc IH]; [eauto..|]; destruct IH as (p' & ? & ?); eauto. Qed.

(** The resolver has loaded the first pages of the context. *)
Definition has_loaded (pages : list ContextPage) (r : Resolver) : Prop :=
  rs_pages r <> [] /\ rs_pages r `prefix_of` pages.

Lemma set_pages_pages r ps : rs_pages (set_pages r ps) = ps.
Proof. done. Qed.

Section pages.
Context (sv : Service) (pages : list ContextPage) (typ : SpotifyIdType).
Context (Hchain : chain sv pages) (Hne : Forall (fun p => pg_Tracks p <> []) pages).

Definition paging (r : Resolver) : Prop := has_loaded pages r /\ rs_typ r = typ.

Lemma url_gone_load url r : url_gone sv url ->
  loadPage sv r url = Ret (MkResolver (rs_typ r) (rs_ctx r) (S (rs_requests r)), Err io_EOF).
Proof. intros (Hp & Hn & Ha); unfold loadPage; by rewrite Hp, Hn, Ha. Qed.

Lemma extend_loop_loaded fuel r idx : idx < zlen (rs_pages r) -> extend_loop sv fuel r idx = Ret (r, None).
Proof. intros; destruct fuel; simpl; by rewrite decide_True. Qed.

(** Extending the loaded pages up to [idx], or to the end. *)
Lemma extend_loop_spec fuel : forall r idx,
  paging r -> idx + 1 - zlen (rs_pages r) <= Z.of_nat fuel ->
  exists r' err, extend_loop sv fuel r idx = Ret (r', err) /\ paging r' /\
    rs_pages r `prefix_of` rs_pages r' /\
    match err with
    | None => idx < zlen (rs_pages r')
    | Some e => zlen pages <= idx /\ errors_Is e io_EOF = true
    end.
Proof.
  induction fuel as [|fuel IH]; intros r idx [[Hn Hpre] Ht] Hf; simpl.
  { rewrite decide_True by lia; exists r, None; split_and!; [done|by split|done|lia]. }
  case_decide as Hlt; [exists r, None; split_and!; [done|by split|done|lia]|].
  destruct Hpre as [rest Hrest]; destruct (last (rs_pages r)) as [lp|] eqn:Hl;
    [|apply last_None in Hl; done].
  destruct rest as [|q rest].
  - rewrite app_nil_r in Hrest; destruct (chain_end sv pages Hchain) as (p & Hp & Hend).
    assert (p = lp) as -> by congruence.
    assert (Hz : zlen pages <= idx) by (rewrite Hrest; lia).
    destruct Hend as [He|[He Hg]].
    + rewrite decide_True by done; exists r, (Some io_EOF).
      split_and!; [done|split; [split; [done|by rewrite Hrest]|done]|done|done|done].
    + rewrite decide_False by done; rewrite url_gone_load by done; simpl; eexists _, _; split; [done|].
      split_and!; [split; [split; [done|by rewrite Hrest]|done]|done|done|done].
  - rewrite last_lookup in Hl; set (k := pred (length (rs_pages r))) in *.
    assert (Hlen : S k = length (rs_pages r)) by (unfold k; destruct (rs_pages r); [done|simpl; lia]).
    destruct (chain_next sv pages Hchain k lp q) as [Hu Hs].
    { rewrite Hrest; by apply lookup_app_l_Some. }
    { rewrite Hrest, Hlen, lookup_app_r, Nat.sub_diag by lia; done. }
    rewrite decide_False, Hs by done; cbn [mbind run_bind].
    destruct (IH (set_pages (MkResolver (rs_typ r) (rs_ctx r) (S (rs_requests r))) (rs_pages r ++ [q])) idx)
      as (r' & err & E & Hp' & Hpre' & Herr).
    { split; [|done]; split; rewrite set_pages_pages; [by destruct (rs_pages r)|].
      exists rest; by rewrite Hrest, <- app_assoc. }
    { rewrite set_pages_pages, zlen_app; unfold zlen at 2; cbn; lia. }
    exists r', err; split_and!; [exact E|done| |done].
    rewrite set_pages_pages in Hpre'; etrans; [|exact Hpre']; by apply prefix_app_r.
Qed.

(** [Page] reads the pages as an array. *)
Lemma Resolver_Page_spec r idx :
  paging r -> 0 <= idx ->
  exists r' res, Resolver_Page sv r idx = Ret (r', res) /\ paging r' /\
    (idx < zlen (rs_pages r) -> r' = r) /\
    match nthZ pages idx with
    | Some p => res = Ok (pg_Tracks p)
    | None => exists e, res = Err e /\ errors_Is e io_EOF = true
    end.
Proof.
  intros Hp Hi; unfold Resolver_Page; rewrite decide_False by lia.
  destruct (extend_loop_spec (Z.to_nat (idx + 1 - zlen (rs_pages r))) r idx Hp ltac:(lia))
    as (r' & err & E & Hp' & Hpre & Herr).
  assert (Hsame : idx < zlen (rs_pages r) -> r' = r).
  { intros Hlt; rewrite extend_loop_loaded in E by done; by simplify_eq. }
  rewrite E; cbn [mbind run_bind]; destruct err as [e|].
  - destruct Herr as [Hz He]; rewrite nthZ_out by lia.
    do 2 eexists; split; [reflexivity|]; split_and!; eauto.
  - destruct (Hp') as [[_ [rest Hrest]] _].
    destruct (nthZ_lt (rs_pages r') idx ltac:(lia)) as [p Hx].
    assert (Hx' : nthZ pages idx = Some p) by (rewrite Hrest, nthZ_app_l by lia; done).
    rewrite (proj2 (index_Ret (rs_pages r') idx p) Hx), Hx'; cbn [mbind run_bind].
    pose proof (proj1 (Forall_forall _ _) Hne p (nthZ_In _ _ _ Hx')) as Hnep; rewrite decide_False by done.
    do 2 eexists; split; [reflexivity|]; split_and!; auto.
Qed.

(** Through the interface: any reader of the context sees its pages. *)
Lemma resolver_serves_pages :
  @serves_pages Resolver (spclient_resolver sv) paging (pg_Tracks <$> pages).
Proof.
  intros r i Hp Hi; destruct (Resolver_Page_spec r i Hp Hi) as (r' & res & E & Hp' & _ & Hr).
  exists r', res; split; [unfold Page; simpl; by rewrite E|]; split; [done|].
  unfold nthZ in *; case_decide; [|done]; rewrite list_lookup_fmap; by destruct (pages !! Z.to_nat i).
Qed.
End pages.

(** ** Playlists *)

Lemma has_prefix_app p s : has_prefix p (p ++ s)%string = true.
Proof. unfold has_prefix; induction p as [|c p IH]; simpl; [by destruct s|]; by destruct (ascii_dec c c). Qed.

Lemma trim_prefix_app p s : TrimPrefix p (p ++ s)%string = s.
Proof.
  unfold TrimPrefix; rewrite has_prefix_app; induction p as [|c p IH]; simpl; [by destruct s|].
  by rewrite decide_True.
Qed.

Lemma cut_query_app a b : no_sep "?"%char a -> cut_query (a ++ String "?" b)%string = a.
Proof.
  unfold no_sep; induction a as [|c a IH]; simpl; [done|].
  intros [Hc Ha]%not_elem_of_cons; rewrite decide_False by done; by rewrite IH.
Qed.

Lemma has_prefix_chars p s c : has_prefix p s = true -> c ∈ list_ascii_of_string p -> c ∈ list_ascii_of_string s.
Proof.
  unfold has_prefix; revert s; induction p as [|a p IH]; intros s; [by intros _ Hc; apply not_elem_of_nil in Hc|].
  destruct s as [|b s]; simpl; [done|].
  destruct (ascii_dec a b) as [->|]; [|done]; intros Hp Hc; apply elem_of_cons in Hc; apply elem_of_cons.
  destruct Hc; auto.
Qed.

Lemma has_suffix_chars p s c : has_suffix p s = true -> c ∈ list_ascii_of_string p -> c ∈ list_ascii_of_string s.
Proof.
  unfold has_suffix, str_rev; intros Hp Hc; apply (has_prefix_chars _ _ c) in Hp.
  - rewrite list_ascii_of_string_of_list_ascii in Hp; by rewrite elem_of_reverse in Hp.
  - by rewrite list_ascii_of_string_of_list_ascii, elem_of_reverse.
Qed.

Lemma suffix_of_digits ds : Forall digit62 ds ->
  has_suffix ":collection:your-episodes" ("spotify:playlist:" ++ string_of_list_ascii (digit_char <$> ds)) = false.
Proof.
  intros Hds; apply not_true_is_false; intros Hs; apply (has_suffix_chars _ _ "-"%char) in Hs.
  - assert (Hno : no_sep "-" (string_of_list_ascii (digit_char <$> ds)))
      by (eapply no_sep_forall; [by apply forallb_alnum_digits|done]).
    cbn [String.append list_ascii_of_string] in Hs; repeat (apply elem_of_cons in Hs as [Hs|Hs]; [done|]); done.
  - apply (bool_decide_unpack _); vm_compute; exact I.
Qed.

Lemma fmap_mjoin {X Y} (f : X -> Y) (ls : list (list X)) : f <$> mjoin ls = mjoin (fmap f <$> ls).
Proof. induction ls as [|l ls IH]; simpl; [done|]; by rewrite fmap_app, IH. Qed.

Lemma concat_mjoin {X} (ls : list (list X)) : concat ls = mjoin ls.
Proof. induction ls as [|l ls IH]; simpl; [done|]; by rewrite IH. Qed.

(** The pages of a list, [playlistPageSize] items each. *)
Definition page_count {X} (l : list X) : Z := (zlen l + (playlistPageSize - 1)) / playlistPageSize.

Definition window {X} (l : list X) (i : Z) : list X := takeZ playlistPageSize (dropZ (playlistPageSize * i) l).

Lemma windows_concat {X} (l : list X) n : forall k, 0 <= k ->
  mjoin (window l <$> seqZ k (Z.of_nat n)) = takeZ (playlistPageSize * Z.of_nat n) (dropZ (playlistPageSize * k) l).
Proof.
  induction n as [|n IH]; intros k Hk; [done|].
  rewrite Nat2Z.inj_succ, seqZ_cons by lia; cbn [fmap list_fmap mjoin list_join].
  rewrite Z.pred_succ, IH by lia; unfold window, playlistPageSize.
  replace (50 * Z.succ (Z.of_nat n)) with (50 + 50 * Z.of_nat n) by lia.
  rewrite takeZ_add, dropZ_dropZ by lia; repeat f_equal; lia.
Qed.

Lemma page_count_bounds {X} (l : list X) :
  playlistPageSize * (page_count l - 1) < zlen l <= playlistPageSize * page_count l.
Proof.
  unfold page_count, playlistPageSize; pose proof (Z.div_mod (zlen l + (50 - 1)) 50 ltac:(lia)).
  pose proof (Z.mod_pos_bound (zlen l + (50 - 1)) 50 ltac:(lia)); lia.
Qed.

Section playlists.
Context (sv : Service) (id : SpotifyId) (owner : string) (items : list PlaylistItem).
Context (Htyp : id_typ id = SpotifyIdTypePlaylist) (Hlen : zlen (id_id id) = 16) (Hok : bytes_ok (id_id id)).

(** A playlist service that answers a page url with that window of the playlist. *)
Definition honest_playlist : Prop := forall n from url, 0 <= from < zlen items -> playlistPageUrl id from = Ret url ->
  exists l, sv_playlist sv n url = AnsBody (Ok l) /\ sl_Owner l = owner /\ sl_Pos l = from /\
    sl_Items l = takeZ playlistPageSize (dropZ from items) /\
    sl_Truncated l = bool_decide (from + playlistPageSize < zlen items).

Context (Hhonest : honest_playlist) (Hitems : items <> []).

Definition page_url (from : Z) : string :=
  match playlistPageUrl id from with Ret u => u | _ => "" end.

Definition playlist_page (i : Z) : ContextPage :=
  MkPage (itemTrack sv owner <$> window items i) ""
    (if decide (playlistPageSize * (i + 1) < zlen items) then page_url (playlistPageSize * (i + 1)) else "").

Definition playlist_pages : list ContextPage := playlist_page <$> seqZ 0 (page_count items).

Lemma id_digits : exists ds, Forall digit62 ds /\ zlen ds = 22 /\
    let b := string_of_list_ascii (digit_char <$> ds) in
    let u := ("spotify:playlist:" ++ b)%string in
    Base62 id = Ret b /\ Uri id = Ret u /\ SpotifyIdFromBase62 SpotifyIdTypePlaylist b = Ret (Ok id) /\
    SpotifyIdFromUri u = Ret (Ok id).
Proof.
  destruct id as [typ gid]; simpl in *; subst typ.
  by apply (Uri_digits SpotifyIdTypePlaylist gid); [split; [discriminate|reflexivity]| |].
Qed.

Lemma page_url_spec from : playlistPageUrl id from = Ret (page_url from) /\ page_url from <> "" /\
  IsPlaylistPageUrl (page_url from) = true /\ has_prefix "hm://" (page_url from) = true /\
  SpotifyIdFromBase62 SpotifyIdTypePlaylist (cut_query (TrimPrefix playlistPageUrlPrefix (page_url from))) = Ret (Ok id).
Proof.
  destruct id_digits as (ds & Hds & _ & Hb & _ & Hp & _); unfold page_url, playlistPageUrl; rewrite Hb; cbn [mbind run_bind].
  split; [done|]; split; [done|]; split; [apply has_prefix_app|]; split; [done|].
  rewrite trim_prefix_app.
  match goal with |- context [("?from=" ++ ?t)%string] =>
    change ("?from=" ++ t)%string with (String "?" ("from=" ++ t)) end.
  rewrite cut_query_app; [done|].
  eapply no_sep_forall; [by apply forallb_alnum_digits|done].
Qed.

Lemma listed_page i l : 0 <= i < page_count items ->
  sl_Owner l = owner -> sl_Pos l = playlistPageSize * i -> sl_Items l = window items i ->
  sl_Truncated l = bool_decide (playlistPageSize * i + playlistPageSize < zlen items) ->
  playlistContextPage sv id l = Ret (playlist_page i).
Proof.
  intros Hi Ho Hp Hw Ht; unfold playlistContextPage, playlist_page; rewrite Ho, Hp, Hw, Ht.
  pose proof (page_count_bounds items) as Hc; pose proof (zlen_nonneg items).
  assert (Hz : zlen (window items i) = Z.min playlistPageSize (zlen items - playlistPageSize * i)).
  { unfold window; rewrite zlen_takeZ, zlen_dropZ; unfold playlistPageSize in *; lia. }
  replace (playlistPageSize * (i + 1)) with (playlistPageSize * i + playlistPageSize) by lia.
  destruct (decide (playlistPageSize * i + playlistPageSize < zlen items)) as [Hmore|Hno].
  - rewrite !bool_decide_eq_true_2 by (unfold playlistPageSize in *; lia); cbn [andb].
    replace (playlistPageSize * i + zlen (window items i)) with (playlistPageSize * i + playlistPageSize)
      by (unfold playlistPageSize in *; lia).
    destruct (page_url_spec (playlistPageSize * i + playlistPageSize)) as [-> _]; done.
  - by rewrite bool_decide_eq_false_2.
Qed.

Lemma page_count_pos : 0 < page_count items.
Proof.
  pose proof (page_count_bounds items); unfold playlistPageSize in *.
  destruct items as [|x l]; [done|]; rewrite zlen_cons in *; pose proof (zlen_nonneg l); lia.
Qed.

Lemma page_start i : 0 <= i < page_count items -> 0 <= playlistPageSize * i < zlen items.
Proof. pose proof (page_count_bounds items); unfold playlistPageSize in *; lia. Qed.

Lemma page_url_serves i : 0 <= i < page_count items -> url_serves sv (page_url (playlistPageSize * i)) (playlist_page i).
Proof.
  intros Hi r; destruct (page_url_spec (playlistPageSize * i)) as (Hu & _ & Hpl & Hhm & Hid).
  unfold loadPage; rewrite Hhm, Hpl; unfold PlaylistPage; rewrite Hid; cbn [mbind run_bind negb]; unfold playlist.
  destruct (Hhonest (rs_requests r) (playlistPageSize * i) _ (page_start i Hi) Hu)
    as (l & -> & Ho & Hp & Hw & Ht).
  by rewrite (listed_page i l Hi Ho Hp Hw Ht).
Qed.

Lemma playlist_chain n : forall k, 0 <= k -> (0 < n)%nat -> k + Z.of_nat n = page_count items ->
  chain sv (playlist_page <$> seqZ k (Z.of_nat n)).
Proof.
  pose proof (page_count_bounds items) as Hc.
  induction n as [|n IH]; intros k Hk Hn Hs; [lia|].
  rewrite Nat2Z.inj_succ, seqZ_cons, Z.pred_succ by lia; cbn [fmap list_fmap].
  destruct n as [|n].
  - apply chain_last; simpl; rewrite decide_False; [done|]; unfold playlistPageSize in *; lia.
  - specialize (IH (Z.succ k) ltac:(lia) ltac:(lia) ltac:(lia)); revert IH.
    rewrite Nat2Z.inj_succ, seqZ_cons, Z.pred_succ by lia; cbn [fmap list_fmap].
    assert (Hnext : pg_NextPageUrl (playlist_page k) = page_url (playlistPageSize * Z.succ k)).
    { simpl; rewrite decide_True; [f_equal; lia|]; unfold playlistPageSize in *; lia. }
    apply chain_cons; rewrite Hnext; [apply page_url_spec|apply page_url_serves; lia].
Qed.

Lemma playlist_pages_chain : chain sv playlist_pages.
Proof.
  pose proof page_count_pos; unfold playlist_pages.
  replace (page_count items) with (Z.of_nat (Z.to_nat (page_count items))) by lia.
  apply playlist_chain; lia.
Qed.

Lemma playlist_pages_nonempty : Forall (fun p => pg_Tracks p <> []) playlist_pages.
Proof.
  unfold playlist_pages; apply Forall_fmap, Forall_forall; intros i Hi%elem_of_seqZ; simpl.
  pose proof (page_count_bounds items) as Hc; intros Hn%fmap_nil_inv.
  assert (Hz : zlen (window items i) = 0) by (by rewrite Hn).
  revert Hz; unfold window; rewrite zlen_takeZ, zlen_dropZ; unfold playlistPageSize in *; lia.
Qed.

Lemma playlist_pages_tracks : mjoin (pg_Tracks <$> playlist_pages) = itemTrack sv owner <$> items.
Proof.
  pose proof page_count_pos; pose proof (page_count_bounds items) as Hc; pose proof (zlen_nonneg items).
  unfold playlist_pages; rewrite <- list_fmap_compose.
  assert (pg_Tracks ∘ playlist_page = fmap (itemTrack sv owner) ∘ window items) as -> by reflexivity.
  rewrite list_fmap_compose; replace (page_count items) with (Z.of_nat (Z.to_nat (page_count items))) by lia.
  rewrite <- fmap_mjoin, windows_concat by lia; f_equal.
  rewrite Z.mul_0_r; change (dropZ 0 items) with items; apply takeZ_all; lia.
Qed.

Lemma playlist_uri_type ds : Forall digit62 ds ->
  ContextUriType ("spotify:playlist:" ++ string_of_list_ascii (digit_char <$> ds)) = "playlist".
Proof.
  intros Hds; set (b := string_of_list_ascii (digit_char <$> ds)); unfold ContextUriType.
  change ("spotify:playlist:" ++ b)%string with ("spotify" ++ String ":" ("playlist" ++ String ":" b))%string.
  rewrite split_on_app by (by eapply (no_sep_forall is_alnum)).
  rewrite split_on_app by (by eapply (no_sep_forall is_alnum)).
  rewrite split_on_single by (eapply no_sep_forall; [by apply forallb_alnum_digits|done]); done.
Qed.

(** Resolving the bare uri of a playlist. *)
Lemma playlist_context n : exists l uri page,
  Uri id = Ret uri /\ page = playlist_page 0 /\
  ContextResolve sv n uri = Ret (S n, Ok (MkContext (MkContextRef uri ("context://" ++ uri)%string [page] false false false)
    (Some (playlistMetadata l)) false)) /\
  InferSpotifyIdTypeFromContextUri uri = SpotifyIdTypeTrack /\ has_prefix "spotify:station:" uri = false /\ uri <> "".
Proof.
  destruct id_digits as (ds & Hds & _ & Hb & Hu & _ & Hp); cbv zeta in *.
  set (uri := ("spotify:playlist:" ++ string_of_list_ascii (digit_char <$> ds))%string) in *.
  assert (Hinf : InferSpotifyIdTypeFromContextUri uri = SpotifyIdTypeTrack).
  { unfold InferSpotifyIdTypeFromContextUri, uri; rewrite playlist_uri_type by done.
    change (str_in "playlist" ["episode"; "show"; "chapter"; "audiobook"]) with false; cbv iota.
    match goal with |- (if ?c then _ else _) = _ => change c with true end; cbv iota.
    rewrite suffix_of_digits by done; done. }
  destruct (page_url_spec 0) as (Hpu & _).
  destruct (Hhonest n 0 _ (page_start 0 ltac:(pose proof page_count_pos; lia)) Hpu) as (l & Hl & Ho & Hpos & Hw & Ht).
  exists l, uri, (playlist_page 0); split_and!; [done|done| |done|done|done].
  unfold ContextResolve; rewrite Hinf, Hp; cbn [decide mbind run_bind]; rewrite decide_False by done.
  rewrite decide_True by done; unfold PlaylistContext; rewrite Hpu; cbn [mbind run_bind]; unfold playlist; rewrite Hl, Hu.
  pose proof page_count_pos; rewrite (listed_page 0 l); [done|lia|done|lia|exact Hw|].
  by rewrite Ht.
Qed.

Lemma playlist_resolver h uri : Uri id = Ret uri ->
  exists r, NewContextResolver sv h (MkContext (uri_context uri) None false) = Ret (h, Ok r) /\
    paging playlist_pages SpotifyIdTypeTrack r.
Proof.
  intros Hu; destruct (playlist_context 0) as (l & uri' & page & Hu' & -> & Hr & Hinf & Hst & Hne).
  assert (uri' = uri) as -> by congruence.
  pose proof page_count_pos as Hc; pose proof playlist_pages_nonempty as Hpn.
  assert (Hhead : playlist_pages = playlist_page 0 :: (playlist_page <$> seqZ 1 (page_count items - 1))).
  { unfold playlist_pages; rewrite seqZ_cons by lia; simpl; repeat f_equal; lia. }
  rewrite Hhead in Hpn; apply Forall_cons in Hpn as [Hp0 _].
  assert (Hres : forall m, hasResolvablePages (MkContext (MkContextRef uri ("context://" ++ uri)%string [playlist_page 0]
    false false false) m false) = true).
  { intros m; unfold hasResolvablePages; cbn [c_ref cx_pages existsb]; rewrite bool_decide_eq_true_2; [done|].
    destruct (pg_Tracks (playlist_page 0)) as [|t ts]; [done|]; rewrite zlen_cons; pose proof (zlen_nonneg ts); lia. }
  eexists; split.
  - unfold NewContextResolver, context_type, InferSpotifyIdTypeFromContext; simpl.
    destruct (String.eqb_spec uri "") as [|_]; [done|]; simpl; rewrite Hinf, decide_False by done.
    unfold fetch_context; simpl; rewrite Hr; cbn [mbind run_bind c_Loading c_ref]; rewrite !Hres; simpl.
    rewrite Hst; reflexivity.
  - split; [split; [done|]|done]; rewrite Hhead; by exists (playlist_page <$> seqZ 1 (page_count items - 1)).
Qed.
End playlists.

(** ** Theorems *)

(** A series of requests for pages. *)
Fixpoint ask_pages (sv : Service) (r : Resolver) (idxs : list Z) : run (Resolver * list (result (list ContextTrack))) :=
  match idxs with
  | [] => Ret (r, [])
  | i :: idxs =>
    '(r, res) ← Resolver_Page sv r i;
    '(r, rest) ← ask_pages sv r idxs;
    Ret (r, res :: rest)
  end.

(** What the answer for a page of a context should be. *)
Definition page_answer (pages : list ContextPage) (i : Z) (res : result (list ContextTrack)) : Prop :=
  match nthZ pages i with
  | Some p => res = Ok (pg_Tracks p)
  | None => exists e, res = Err e /\ errors_Is e io_EOF = true
  end.


(** A playlist is read in full.  Given the uri of a playlist, whose service
    hands out windows of fifty items, the resolver built for it lists every item
    of it, episodes included, in order and once, page urls and all, up to the
    configured number; the sweep over it ends. *)
Theorem playlist_read_in_full (sv : Service) (h : mheap) (id : SpotifyId) (uri owner : string)
    (items : list PlaylistItem) (configured : Z) :
  id_typ id = SpotifyIdTypePlaylist -> zlen (id_id id) = 16 -> bytes_ok (id_id id) -> Uri id = Ret uri ->
  honest_playlist sv id owner items -> items <> [] -> Forall (fun i => it_Uri i <> "") items ->
  zlen items <= playlistPageSize * maxContextPages ->
  exists r r', NewContextResolver sv h (MkContext (uri_context uri) None false) = Ret (h, Ok r) /\
    @enumerateContextTracks Resolver (spclient_resolver sv) r (effectiveMetaMaxTracks configured) =
      Ret (r', Ok (takeZ (effectiveMetaMaxTracks configured) (listed (it_Uri <$> items)))).
Proof.
  intros Ht Hl Hok Hu Hh Hne Huris Hmax.
  destruct (playlist_resolver sv id owner items Ht Hl Hok Hh Hne h uri Hu) as (r & Hr & Hp).
  destruct (@enumerate_loop_spec Resolver (spclient_resolver sv) (paging (playlist_pages sv id owner items) SpotifyIdTypeTrack)
    (rs_typ r) (effectiveMetaMaxTracks configured) (pg_Tracks <$> playlist_pages sv id owner items) r []
    (it_Uri <$> items) [] (Z.to_nat maxContextPages) Hp) as (r' & E & _).
  - apply resolver_serves_pages; [by apply playlist_pages_chain|by apply playlist_pages_nonempty].
  - rewrite concat_mjoin, playlist_pages_tracks by done; unfold item_uris; rewrite Forall2_fmap.
    apply Forall_Forall2_diag; eapply Forall_impl; [exact Huris|]; intros i Hi; unfold contextTrackUri; simpl.
    rewrite decide_True; [done|]; unfold str_len; destruct (it_Uri i) eqn:Ei; [by destruct Hi|simpl; lia].
  - unfold effectiveMetaMaxTracks, defaultMetaMaxTracks; change (zlen (@nil string)) with 0; case_decide; lia.
  - unfold playlist_pages; rewrite !length_fmap, length_seqZ; pose proof (page_count_bounds items).
    unfold playlistPageSize in *; lia.
  - exists r, r'; split; [exact Hr|exact E].
Qed.

(** A playlist of fifty-two items, two of them episodes, and its service. *)
Definition demo_playlist : SpotifyId := MkSpotifyId "playlist" sample_gid.

Definition demo_item (n : Z) : PlaylistItem :=
  MkItem (if decide (n = 3 \/ n = 51) then ("spotify:episode:" ++ pretty n)%string else ("spotify:track:" ++ pretty n)%string)
    [n] "" (Some (1000 + n)) [].

Definition demo_playlist_items : list PlaylistItem := demo_item <$> seqZ 0 52.

Definition demo_window (from : Z) : SelectedList :=
  MkSelected [1; 2] "owner" "name" "" "" [] [] from (bool_decide (from + playlistPageSize < zlen demo_playlist_items))
    (takeZ playlistPageSize (dropZ from demo_playlist_items)).

(** The position a page url names, from a table of all of them. *)
Definition demo_from (url : string) : Z :=
  default 0 (snd <$> List.find (fun x => String.eqb x.1 url)
    ((fun from => (page_url demo_playlist from, from)) <$> seqZ 0 52)).

Definition demo_service : Service := {|
  sv_page _ _ := AnsStatus 404;
  sv_playlist _ url := AnsBody (Ok (demo_window (demo_from url)));
  sv_contextUrl _ _ := AnsStatus 404;
  sv_contextResolve _ _ := AnsStatus 404;
  sv_place _ := None
|}.

Lemma demo_service_honest : honest_playlist demo_service demo_playlist "owner" demo_playlist_items.
Proof.
  intros n from url Hf Hu.
  assert (Hall : Forall (fun from => demo_from (page_url demo_playlist from) = from) (seqZ 0 52))
    by (apply (bool_decide_unpack _); vm_compute; exact I).
  assert (Hfrom : demo_from url = from).
  { rewrite Forall_forall in Hall; transitivity (demo_from (page_url demo_playlist from)).
    - unfold page_url; by rewrite Hu.
    - apply Hall, elem_of_seqZ; exact Hf. }
  exists (demo_window from); simpl; rewrite Hfrom; split_and!; reflexivity.
Qed.

Definition demo_uri : string := match Uri demo_playlist with Ret u => u | _ => "" end.

Lemma playlist_read_in_full_witness :
  exists r r', Uri demo_playlist = Ret demo_uri /\
    NewContextResolver demo_service ∅ (MkContext (uri_context demo_uri) None false) = Ret (∅, Ok r) /\
    @enumerateContextTracks Resolver (spclient_resolver demo_service) r (effectiveMetaMaxTracks 0) =
      Ret (r', Ok (takeZ (effectiveMetaMaxTracks 0) (listed (it_Uri <$> demo_playlist_items)))) /\
    zlen (listed (it_Uri <$> demo_playlist_items)) = 52.
Proof.
  destruct (playlist_read_in_full demo_service ∅ demo_playlist demo_uri "owner" demo_playlist_items 0 eq_refl eq_refl)
    as (r & r' & Hr & He).
  - apply (bool_decide_unpack _); vm_compute; exact I.
  - reflexivity.
  - exact demo_service_honest.
  - discriminate.
  - apply (bool_decide_unpack _); vm_compute; exact I.
  - vm_compute; discriminate.
  - exists r, r'; split; [reflexivity|]; split; [exact Hr|]; split; [exact He|vm_compute; reflexivity].
Defined.

(** The demo playlist's two pages, asked for out of order and past the end. *)
Definition demo_paging : Resolver :=
  MkResolver SpotifyIdTypeTrack
    (MkContext (MkContextRef "u" "" [playlist_page demo_service demo_playlist "owner" demo_playlist_items 0] false false false)
       None false) 0.


(** A station's tracks are marked by writing to their metadata: a track that
    came without any crashes the program. *)
Theorem bare_station_panics (sv : Service) (h : mheap) (track : string) :
  NewContextResolver sv h
    (MkContext (MkContextRef "spotify:station:album:x" "" [MkPage [MkContextTrack track "" [] None] "" ""] false false false)
       None false) = Panic "assignment to entry in nil map".
Proof. reflexivity. Qed.
