(* ===== verification/ContextStart.v ===== *)
(** * Positioning a context's list ([resolveContext] and [transferContext] of
    [src/daemon/controls.go])

    What the loader lane does with a context once its resolver exists: place the
    list on the track to start from, shuffle it, give it the queue and take a
    snapshot.  The resolver itself comes from a service. *)

From S2P Require Import Prelude PagedList Ids Tracks TracksProps Requests.
#[local] Open Scope string_scope.
#[local] Open Scope list_scope.
#[local] Open Scope Z_scope.

Section starting.
Context {R G : Type} `{!ContextResolver R, !RandSource G}.
Implicit Types (r : R) (h : mheap) (tl : List).

(** [for _, track := range queued { list.AddToQueue(track) }] *)
Fixpoint add_to_queue h tl (queued : list ContextTrack) : mheap * List :=
  match queued with
  | [] => (h, tl)
  | t :: queued => let '(h', tl') := AddToQueue h tl t in add_to_queue h' tl' queued
  end.

(** What the lane hands back: the resolver, the list and its snapshot. *)
Definition finish_start h r tl : run (mheap * R * result (List * TrackSnapshot)) :=
  '(h', r', tl', snap) ← Snapshot h r tl None;
  Ret (h', r', Ok (tl', snap)).

(** [rnd1] and [rnd2] are what the two calls of [ToggleShuffle] draw; only one of
    them shuffles. *)
Definition resolveContext (fuel : nat) h r (skipTo : option (ContextTrack -> run bool)) (shuffle : bool)
    (queued : list ContextTrack) (rnd1 rnd2 : Z) : run (mheap * R * result (List * TrackSnapshot)) :=
  '(r1, tl1, err1) ← (match skipTo with
                      | None => ToggleShuffle (G := G) fuel r newTrackList shuffle rnd1
                      | Some _ => Ret (r, newTrackList, None)
                      end);
  match err1 with
  | Some er => Ret (h, r1, Err (EWrap "failed shuffling context" er))
  | None =>
    '(r2, tl2, err2) ← TrySeek fuel r1 tl1 (default (fun _ => Ret true) skipTo);
    match err2 with
    | Some er => Ret (h, r2, Err (EWrap "failed seeking to track" er))
    | None =>
      '(r3, tl3, err3) ← ToggleShuffle (G := G) fuel r2 tl2 shuffle rnd2;
      match err3 with
      | Some er => Ret (h, r3, Err (EWrap "failed shuffling context" er))
      | None => let '(h4, tl4) := add_to_queue h tl3 queued in finish_start h4 r3 tl4
      end
    end
  end.

(** ** The list of a transfer

    [refused] tells that the backend refused the transferred context, so that the
    list holds the transferred track alone. *)

(** Leaving the list before the context track that follows the queue. *)
Definition before_uid (fuel : nat) r tl (refused : bool) (uid : string) (queue : list ContextTrack) (isPlaying : bool)
    (current : option ContextTrack) : run (R * List * bool) :=
  if refused || bool_decide (uid = "") then Ret (r, tl, false)
  else
    playing ← playingQueuedTrack queue isPlaying current;
    if playing : bool then
      cmp ← ContextTrackComparator SpotifyIdTypeTrack (MkContextTrack "" uid [] None);
      '(r1, tl1, err) ← Seek fuel r tl cmp;
      match err with
      | Some _ => Ret (r1, tl1, false)
      | None => '(tl2, moved) ← GoPrev tl1; Ret (r1, tl2, moved)
      end
    else Ret (r, tl, false).

Definition transfer_position (fuel : nat) r tl (refused : bool) (ts : TransferState) : run (R * List * option error) :=
  let current := pb_CurrentTrack (ts_Playback ts) in
  '(r1, tl1, placed) ← before_uid fuel r tl refused (ts_CurrentUid ts) (ts_Queue ts) (ts_IsPlayingQueue ts) current;
  if placed : bool then Ret (r1, tl1, None)
  else
    named ← singleTrackContext current;
    match named, current with
    | Some _, Some current => '(r2, tl2) ← TrySeekTo fuel r1 tl1 current; Ret (r2, tl2, None)
    | _, _ =>
      let '(r2, tl2, started) := GoStart r1 tl1 in
      Ret (r2, tl2, if started : bool then None else Some (EMsg "transferred context has no track to start from"))
    end.

Definition transfer_list (fuel : nat) h r (refused : bool) (ts : TransferState) (rnd : Z)
  : run (mheap * R * result (List * TrackSnapshot)) :=
  '(r1, tl1, err1) ← transfer_position fuel r newTrackList refused ts;
  match err1 with
  | Some er => Ret (h, r1, Err er)
  | None =>
    '(r2, tl2, err2) ← ToggleShuffle (G := G) fuel r1 tl1 (op_ShufflingContext (ts_Options ts)) rnd;
    match err2 with
    | Some er => Ret (h, r2, Err (EWrap "failed shuffling context" er))
    | None =>
      let '(h3, tl3) := add_to_queue h tl2 (ts_Queue ts) in
      finish_start h3 r2 (SetPlayingQueue tl3 (ts_IsPlayingQueue ts))
    end
  end.
End starting.
