(* ===== verification/StartClaims.v ===== *)
(** * Starting a context and taking one over: what the list is then

    Theorems about [ContextStart], with their witnesses on the demo context of
    [TracksProps]. *)

From S2P Require Import Prelude PagedList Ids Tracks TracksProps TracksClaims Requests ContextStart.
#[local] Open Scope string_scope.
#[local] Open Scope list_scope.
#[local] Open Scope Z_scope.

(** ** More fuel changes nothing *)
Section fuel.
Context {R G : Type} `{!ContextResolver R, !RandSource G}.
Implicit Types (r : R) (tl : List).

Lemma Seek_mono fuel1 fuel2 r tl f v :
  (fuel1 <= fuel2)%nat -> Seek fuel1 r tl f = Ret v -> Seek fuel2 r tl f = Ret v.
Proof.
  intros Hle; unfold Seek; intros ([[r' l'] err] & Hs & Heq)%run_bind_inv.
  by rewrite (seek_loop_mono _ _ _ _ _ _ _ Hle Hs).
Qed.

Lemma TrySeek_mono fuel1 fuel2 r tl f v :
  (fuel1 <= fuel2)%nat -> TrySeek fuel1 r tl f = Ret v -> TrySeek fuel2 r tl f = Ret v.
Proof.
  intros Hle; unfold TrySeek; intros (x & Hs & Heq)%run_bind_inv; by rewrite (Seek_mono _ _ _ _ _ _ Hle Hs).
Qed.

Lemma ToggleShuffle_mono fuel1 fuel2 r tl b rnd v :
  (fuel1 <= fuel2)%nat -> ToggleShuffle (G := G) fuel1 r tl b rnd = Ret v -> ToggleShuffle (G := G) fuel2 r tl b rnd = Ret v.
Proof.
  intros Hle; unfold ToggleShuffle; case_match; [done|]; destruct b.
  - rewrite !walk_is_seek; intros ([r' l'] & Hw & Heq)%run_bind_inv.
    apply run_bind_inv in Hw as (x & Hs & Hx); by rewrite (seek_loop_mono _ _ _ _ _ _ _ Hle Hs), run_bind_Ret, Hx, run_bind_Ret.
  - case_decide; [done|]; intros (t & Ht & Heq)%run_bind_inv; rewrite Ht, run_bind_Ret.
    apply run_bind_inv in Heq as (cmp & Hc & Heq); rewrite Hc, run_bind_Ret.
    apply run_bind_inv in Heq as (x & Hs & Heq); by rewrite (Seek_mono _ _ _ _ _ _ Hle Hs).
Qed.

(** Two runs of a seek agree, whatever their fuel. *)
Lemma Seek_deterministic fuel1 fuel2 r tl f v1 v2 :
  Seek fuel1 r tl f = Ret v1 -> Seek fuel2 r tl f = Ret v2 -> v1 = v2.
Proof.
  intros H1 H2; destruct (Nat.le_ge_cases fuel1 fuel2) as [Hle|Hle].
  - rewrite (Seek_mono _ _ _ _ _ _ Hle H1) in H2; congruence.
  - rewrite (Seek_mono _ _ _ _ _ _ Hle H2) in H1; congruence.
Qed.
End fuel.

(** ** A list that has no position yet *)
Record tl_loose (tl : List) : Prop := {
  loose_pos : pl_pos (tl_tracks tl) = -1;
  loose_queue : tl_playingQueue tl = false /\ tl_queue tl = [];
  loose_loaded : all_loaded track_ok (tl_tracks tl);
  loose_keep : tl_shuffleKeep tl <= 0
}.

Section loose.
Context {R G : Type} `{!ContextResolver R, !ResolverLaws R, !RandSource G, !RandLaws G}.
Implicit Types (r : R) (tl : List).

Lemma newTrackList_loose : tl_loose newTrackList.
Proof. split; try done; constructor. Qed.

Lemma shuffle_loop_unpositioned {T} n (g : G) (xs : list (pagedListItem T)) : (shuffle_loop n g xs (-1)).2 = -1.
Proof.
  revert g xs; induction n as [|n IH]; intros g xs; [done|]; cbn [shuffle_loop].
  pose proof (Intn_bound g (Z.of_nat (S n) + 1)) as Hj; destruct (Intn g _) as [g' j]; cbn [snd] in Hj.
  assert (follow (Z.of_nat (S n)) j (-1) = -1) as ->; [|apply IH].
  unfold follow; rewrite !decide_False by lia; done.
Qed.

Lemma shuffle_unpositioned {T} (l : pagedList T) (g : G) : pl_pos l = -1 -> pl_pos (shuffle l g) = -1.
Proof.
  intros Hp; unfold shuffle; case_decide; [done|]; rewrite Hp.
  pose proof (shuffle_loop_unpositioned (Z.to_nat (zlen (pl_list l) - 1)) g (pl_list l)) as Hs.
  by destruct (shuffle_loop _ _ _ _).
Qed.

Lemma ToggleShuffle_loose r tl b rnd :
  tl_loose tl -> tl_shuffled tl = false ->
  exists fuel r' tl', ToggleShuffle (G := G) fuel r tl b rnd = Ret (r', tl', None) /\ tl_loose tl' /\ tl_shuffled tl' = b.
Proof.
  intros [Hp [Hq1 Hq2] Hl Hk] Hsh; unfold ToggleShuffle; rewrite Hsh.
  destruct b; cbn [Bool.eqb]; [|exists O, r, tl; split_and!; [done | by split | done]].
  destruct (seek_loop_terminates track_ok (fun _ => Ret false) r (tl_tracks tl) pl_iterStart)
    as (fuel & ((r' & l') & err) & Hs); [apply cr_serves_ok | by eexists | done | cbn; pose proof (zlen_nonneg (pl_list (tl_tracks tl))); lia |].
  exists fuel; rewrite walk_is_seek, Hs, !run_bind_Ret.
  pose proof (seek_loop_all_loaded _ _ _ _ _ _ _ _ _ cr_serves_ok Hl Hs) as Hl'.
  apply seek_loop_spec in Hs as (_ & Hres); [|simpl; lia].
  assert (pl_pos l' = -1) as Hp' by (destruct err; [congruence|by destruct Hres as (x & _ & _ & [=] & _)]).
  cbn [fst]; unfold shuffle_on; cbv zeta; rewrite shuffle_unpositioned by done; rewrite decide_False by lia; rewrite !run_bind_Ret.
  do 2 eexists; split; [reflexivity|]; split; [|done].
  split; cbn; [by apply shuffle_unpositioned | done | eapply all_loaded_perm; [apply shuffle_perm | done] | lia].
Qed.

(** The list [TrySeek] leaves. *)
Lemma TrySeek_loose r tl f :
  tl_loose tl -> (forall t, track_ok t -> returns (f t)) ->
  exists fuel r' tl' err, TrySeek fuel r tl f = Ret (r', tl', err) /\
    match err with
    | Some _ => exists r1, (pl_moveStart r1 (tl_tracks tl)).2 <> None
    | None => tl_inv tl' /\ tl_shuffled tl' = tl_shuffled tl /\ tl_playingQueue tl' = false /\ tl_queue tl' = [] /\
              (forall r2 tl2, Seek fuel r tl f = Ret (r2, tl2, None) ->
                 exists x, nthZ (pl_list (tl_tracks tl')) (pl_pos (tl_tracks tl')) = Some x /\ f (item x) = Ret true)
    end.
Proof.
  intros [Hp [Hq1 Hq2] Hl Hk] Hf.
  destruct (Seek_total r tl f Hl Hf) as (fuel & r' & l' & err & Hs & Hl' & Hlen & Hres).
  assert (forall l, 0 <= pl_pos l < zlen (pl_list l) -> all_loaded track_ok l -> tl_inv (set_tracks tl l)) as Hinv.
  { intros l Hpos Hload; constructor; cbn; [done | by rewrite Hq1 | by rewrite Hq2 | done | by left]. }
  exists fuel; unfold TrySeek; rewrite Hs, run_bind_Ret; destruct err as [er|].
  - cbn [tl_tracks set_tracks]; destruct (pl_moveStart r' l') as [[r2 l2] err2] eqn:Hm; do 3 eexists; split; [reflexivity|].
    pose proof (pl_moveStart_spec _ _ _ _ _ Hm) as [[ext Hext] Hpos]; destruct err2 as [er2|].
    + unfold Seek in Hs; apply run_bind_inv in Hs as ([[? ?] ?] & Hs & [= -> -> ->]).
      apply seek_loop_spec in Hs as ((ext' & Hext') & _); [|simpl; lia].
      exists r'; unfold pl_moveStart in *; case_decide as Hz; [|done].
      assert (tl_tracks tl = l') as ->; [|rewrite decide_True by done; by rewrite Hm].
      destruct (tl_tracks tl) as [xs pos], l' as [ys pos']; cbn in *; subst.
      assert (xs ++ ext' = []) as [-> ->]%app_eq_nil by (apply nil_length_inv; unfold zlen in Hz; lia); done.
    + destruct Hpos as [Hpos Hne]; split_and!; [|done|done|done|intros r3 tl3 Hs3; congruence].
      apply Hinv; [lia|]; unfold pl_moveStart in Hm; case_decide.
      * destruct (fetchNextPage r' l') as [[[r4 l4] pg] e4] eqn:E; pose proof (fetch_all_loaded _ _ _ _ _ _ _ cr_serves_ok Hl' E).
        destruct e4; [case_match; congruence|]; by injection Hm as <- <-.
      * by injection Hm as <- <-.
  - do 3 eexists; split; [reflexivity|]; split_and!; [by apply Hinv | done | done | done|].
    intros _ _ _; unfold Seek in Hs; apply run_bind_inv in Hs as ([[? ?] ?] & Hs & [= -> -> ->]).
    apply seek_loop_spec in Hs as (_ & x & _ & Hx & Hfx & _); [|simpl; lia]; by exists x.
Qed.
End loose.

(** ** Shuffling around the current track, and the queue *)

(** The entry the list is on. *)
Definition here (tl : List) : option (pagedListItem ContextTrack) :=
  nthZ (pl_list (tl_tracks tl)) (pl_pos (tl_tracks tl)).

(** What a queued track keeps when its metadata is marked. *)
Definition same_track (a b : ContextTrack) : Prop := ct_Uri a = ct_Uri b /\ ct_Uid a = ct_Uid b /\ ct_Gid a = ct_Gid b.

Section placing.
Context {R G : Type} `{!ContextResolver R, !ResolverLaws R, !RandSource G, !RandLaws G}.
Implicit Types (r : R) (h : mheap) (tl : List).

Lemma nthZ_prefix {A} (xs ext : list A) i : 0 <= i < zlen xs -> nthZ (xs ++ ext) i = nthZ xs i.
Proof. intros; apply nthZ_app_l; lia. Qed.

Lemma shuffle_on_here tl (l : pagedList ContextTrack) seed tl' :
  shuffle_on (G := G) tl l seed = Ret tl' ->
  here tl' = nthZ (pl_list l) (pl_pos l) /\ tl_shuffled tl' = true /\ tl_playingQueue tl' = tl_playingQueue tl /\
  tl_queue tl' = tl_queue tl.
Proof.
  unfold shuffle_on, here; cbv zeta; pose proof (shuffle_follows l (rand_New (G := G) seed)) as Hf.
  set (l1 := shuffle l _) in *; case_decide as Hp.
  - unfold pl_swap; case_decide as Hr; [done|]; cbn [mbind run_bind]; intros [= <-]; cbn; split; [|done].
    rewrite nthZ_exchange by lia; done.
  - cbn [mbind run_bind]; intros [= <-]; by cbn.
Qed.

Lemma ToggleShuffle_keeps r tl b rnd :
  tl_inv tl -> (tl_shuffled tl = false \/ tl_shuffled tl = b) ->
  exists fuel r' tl', ToggleShuffle (G := G) fuel r tl b rnd = Ret (r', tl', None) /\ tl_inv tl' /\ tl_shuffled tl' = b /\
    tl_playingQueue tl' = tl_playingQueue tl /\ tl_queue tl' = tl_queue tl /\ here tl' = here tl.
Proof.
  intros Hi Hsh; destruct (ToggleShuffle_inv (G := G) r tl b rnd Hi) as (fuel & r' & tl' & err & Ht & Hi').
  exists fuel, r', tl'; rewrite Ht; revert Ht; unfold ToggleShuffle.
  destruct (Bool.eqb b (tl_shuffled tl)) eqn:Hb; [apply Bool.eqb_prop in Hb; intros [= <- <- <-]; by split_and!|].
  destruct b; [|by destruct Hsh as [Hsh|Hsh]; rewrite Hsh in Hb].
  rewrite walk_is_seek; intros ([r1 l1] & Hw & Hrest)%run_bind_inv; apply run_bind_inv in Hw as ([[r2 l2] e2] & Hs & [= -> ->]).
  apply run_bind_inv in Hrest as (tl1 & Hon & [= <- <- <-]).
  apply seek_loop_spec in Hs as ((ext & Hext) & Hpos); [|simpl; lia].
  assert (pl_pos l1 = pl_pos (tl_tracks tl)) as Hp1 by (destruct e2; [done|by destruct Hpos as (x & _ & _ & [=] & _)]).
  apply shuffle_on_here in Hon as (Hh & H1 & H2 & H3); split_and!; try done.
  rewrite Hh, Hext, Hp1; apply nthZ_prefix, (inv_pos _ Hi).
Qed.

Lemma add_to_queue_spec h tl queued h' tl' :
  tl_inv tl -> Forall track_ok queued -> add_to_queue h tl queued = (h', tl') ->
  tl_inv tl' /\ tl_tracks tl' = tl_tracks tl /\ tl_shuffled tl' = tl_shuffled tl /\
  tl_playingQueue tl' = tl_playingQueue tl /\ exists q, tl_queue tl' = tl_queue tl ++ q /\ Forall2 same_track q queued.
Proof.
  intros Hi Hq; revert h tl Hi; induction Hq as [|t queued Ht _ IH]; intros h tl Hi; cbn [add_to_queue].
  - intros [= <- <-]; split_and!; try done; exists []; split; [by rewrite app_nil_r | constructor].
  - pose proof (AddToQueue_inv h tl t Hi Ht) as Hi1; destruct (AddToQueue h tl t) as [h1 tl1] eqn:Ha; cbn [snd] in Hi1.
    assert (exists p, tl1 = set_queue tl (tl_playingQueue tl) (tl_queue tl ++
      [MkContextTrack (ct_Uri t) (ct_Uid t) (ct_Gid t) (Some p)])) as [p ->].
    { unfold AddToQueue in Ha; destruct (match ct_Metadata t with Some p => (h, p) | None => meta_alloc h ∅ end) as [h2 p].
      injection Ha as <- <-; by exists p. }
    intros Hadd; destruct (IH _ _ Hi1 Hadd) as (Hi' & Htr & Hs & Hp & q & Hqq & Hsame).
    split_and!; try done; eexists (_ :: q); split; [rewrite Hqq; cbn; by rewrite <- app_assoc|].
    constructor; [by split_and! | done].
Qed.

Lemma here_current tl x : tl_playingQueue tl = false -> 0 <= pl_pos (tl_tracks tl) -> here tl = Some x -> current tl = Ret (item x).
Proof.
  intros Hp Hpos Hx; unfold current, pl_get; rewrite Hp, decide_False by lia.
  unfold here in Hx; by rewrite (proj2 (index_Ret _ _ _) Hx).
Qed.

(** Shuffling and queueing once the list is placed. *)
Lemma dress_spec h r tl shuffle rnd queued :
  tl_inv tl -> tl_playingQueue tl = false -> tl_queue tl = [] -> (tl_shuffled tl = false \/ tl_shuffled tl = shuffle) ->
  Forall track_ok queued ->
  exists fuel r' tl1 h2 tl2, (forall n, (fuel <= n)%nat -> ToggleShuffle (G := G) n r tl shuffle rnd = Ret (r', tl1, None)) /\
    add_to_queue h tl1 queued = (h2, tl2) /\ tl_inv tl2 /\ tl_shuffled tl2 = shuffle /\ tl_playingQueue tl2 = false /\
    Forall2 same_track (tl_queue tl2) queued /\ here tl2 = here tl.
Proof.
  intros Hi Hp Hq Hs Hok.
  destruct (ToggleShuffle_keeps r tl shuffle rnd Hi Hs) as (fuel & r' & tl1 & Ht & Hi1 & Hs1 & Hp1 & Hq1 & Hh1).
  destruct (add_to_queue h tl1 queued) as [h2 tl2] eqn:Hadd.
  destruct (add_to_queue_spec h tl1 queued h2 tl2 Hi1 Hok Hadd) as (Hi2 & Ht2 & Hs2 & Hp2 & q & Hq2 & Hsame).
  exists fuel, r', tl1, h2, tl2; split_and!; try done; [|congruence|congruence| |].
  - intros n Hn; by eapply ToggleShuffle_mono.
  - by rewrite Hq2, Hq1, Hq.
  - unfold here in *; by rewrite Ht2.
Qed.

(** The snapshot a start ends with names the track the list is on. *)
Lemma finish_start_total h r tl t :
  tl_inv tl -> current tl = Ret t ->
  exists h' r' tl' snap cur, finish_start h r tl = Ret (h', r', Ok (tl', snap)) /\ tl_inv tl' /\
    tl_shuffled tl' = tl_shuffled tl /\ tl_playingQueue tl' = tl_playingQueue tl /\ tl_queue tl' = tl_queue tl /\
    (exists ext, pl_list (tl_tracks tl') = pl_list (tl_tracks tl) ++ ext) /\ pl_pos (tl_tracks tl') = pl_pos (tl_tracks tl) /\
    track_uri (cr_Type r) t = Ret cur /\ pt_Uri (sn_Current snap) = cur /\ pt_Uid (sn_Current snap) = ct_Uid t.
Proof.
  intros Hi Hcur; unfold finish_start, Snapshot, CurrentTrack.
  destruct (maps_Clone h (cr_Metadata r)) as [h1 m]; rewrite Hcur, run_bind_Ret.
  destruct (current_total tl Hi) as (t' & Hcur' & Ht); rewrite Hcur in Hcur'; injection Hcur' as <-.
  destruct (provided_returns h1 (cr_Type r) t Ht) as [cur Hc]; rewrite Hc, run_bind_Ret.
  destruct (cloneProvided h1 cur) as [h2 cur'] eqn:Hcl.
  destruct (PrevTracks_total h2 r tl Hi) as (prev & Hp & _); rewrite Hp, run_bind_Ret.
  destruct (cloneProvidedAll h2 prev) as [h3 prev'].
  destruct (NextTracks_total h3 r tl None Hi) as (h4 & r' & tl' & next & Hn & Hi' & _); [constructor|].
  rewrite Hn, run_bind_Ret; destruct (cloneProvidedAll h4 next) as [h5 next'].
  destruct (Index_total tl' Hi') as [ix Hx]; rewrite Hx, !run_bind_Ret; do 5 eexists; split; [reflexivity|].
  unfold NextTracks in Hn; apply run_bind_inv in Hn as (ts0 & _ & Hn).
  rewrite iterHere_inv, run_bind_Ret in Hn by done; apply run_bind_inv in Hn as ([[r1 l1] ts] & Hloop & [= <- <- <- <-]).
  destruct (next_tracks_loop_spec (Z.to_nat (MaxTracksInContext - zlen ts0)) h3 r (tl_tracks tl)
    (PagedIter (pl_pos (tl_tracks tl)) None) ts0 (inv_loaded _ Hi)) as (r2 & l2 & ps & Hs & _ & Hpos & Hext & _);
    [cbn; pose proof (inv_pos _ Hi); lia|].
  rewrite Hs in Hloop; injection Hloop as <- <- <-.
  unfold ContextTrackToProvidedTrack in Hc; apply run_bind_inv in Hc as (uri & Huri & [= <-]).
  unfold cloneProvided in Hcl; repeat case_match; simplify_eq; split_and!; try done; exact Huri.
Qed.
End placing.

(** ** Starting a context *)
Section claims.
Context {R G : Type} `{!ContextResolver R, !ResolverLaws R, !RandSource G, !RandLaws G}.
Implicit Types (r : R) (h : mheap) (tl : List).

Lemma moveStart_empty r1 (l : pagedList ContextTrack) :
  pl_pos l = -1 -> (pl_moveStart r1 l).2 <> None -> l = newPagedList.
Proof.
  intros Hp; unfold pl_moveStart; case_decide as Hz; [|done]; intros _; destruct l as [xs pos]; cbn in *; subst.
  by rewrite (nil_length_inv xs) by (unfold zlen in Hz; lia).
Qed.

(** A start without a track to find shuffles first, so that shuffling chooses it. *)
Lemma first_shuffle r (skipTo : option (ContextTrack -> run bool)) shuffle rnd :
  exists fuel r' tl', (forall n, (fuel <= n)%nat -> (match skipTo with
      | None => ToggleShuffle (G := G) n r newTrackList shuffle rnd
      | Some _ => Ret (r, newTrackList, None) end) = Ret (r', tl', None)) /\ tl_loose tl' /\
    (tl_shuffled tl' = false \/ tl_shuffled tl' = shuffle) /\ (skipTo <> None -> r' = r /\ tl' = newTrackList).
Proof.
  destruct skipTo as [f|]; [exists O, r, newTrackList; split_and!; auto using newTrackList_loose|].
  destruct (ToggleShuffle_loose (G := G) r newTrackList shuffle rnd newTrackList_loose eq_refl)
    as (fuel & r' & tl' & Ht & Hl & Hs); exists fuel, r', tl'; split_and!; auto; [|done].
  intros n Hn; by eapply ToggleShuffle_mono.
Qed.

(** ** A queued track handed over *)

(** Playing through a queue and back into the context. *)
Lemma play_out_queue q r tl x :
  tl_inv tl -> tl_playingQueue tl = true -> tl_queue tl = q ->
  nthZ (pl_list (tl_tracks tl)) (pl_pos (tl_tracks tl) + 1) = Some x ->
  exists tl', go_next_n (length q) r tl = Ret (r, tl') /\ current tl' = Ret (item x) /\ tl_playingQueue tl' = false /\
    tl_queue tl' = [].
Proof.
  revert tl; induction q as [|t q IH]; intros tl Hi Hp Hq Hx; [by destruct (inv_queue _ Hi Hp)|].
  pose proof (inv_pos _ Hi) as Hpos; pose proof (nthZ_Some_lt _ _ _ Hx) as Hlt; destruct q as [|t2 q].
  - cbn [length go_next_n]; unfold GoNext; rewrite Hp, Hq, run_bind_Ret; cbn [tl_queue set_queue tl_tracks].
    cbv zeta; cbn [tl_tracks set_queue]; unfold pl_iterHere; rewrite decide_False by lia; rewrite run_bind_Ret.
    rewrite it_next_resident by (cbn; lia); rewrite run_bind_Ret; cbn [pl_move it_err it_pos]; rewrite !run_bind_Ret.
    eexists; split; [reflexivity|]; split; [|done].
    unfold current, pl_get; cbn; rewrite decide_False by lia; by rewrite (proj2 (index_Ret _ _ _) Hx).
  - assert (GoNext r tl = Ret (r, set_queue tl true (t2 :: q), true)) as Hg.
    { apply GoNext_queue; [done|]; unfold UpcomingQueue; rewrite Hp, Hq; reflexivity. }
    change (length (t :: t2 :: q)) with (S (length (t2 :: q))); cbn [go_next_n]; rewrite Hg, run_bind_Ret.
    apply IH; [|done|done|exact Hx].
    apply inv_set_queue; [done|done|]; pose proof (inv_queue_ok _ Hi) as Hok; rewrite Hq in Hok; by inversion Hok.
Qed.

(** A match by uid alone. *)
Lemma uid_match typ uid t : uid <> "" -> track_matches typ uid "" t = Ret true -> ct_Uid t = uid.
Proof.
  intros Hu; unfold track_matches; destruct (bool_decide (ct_Uid t <> "") && String.eqb (ct_Uid t) uid) eqn:Hm.
  - intros _; apply andb_true_iff in Hm as [_ Hm]; by apply String.eqb_eq.
  - destruct (bool_decide (ct_Uri t <> "") && String.eqb (ct_Uri t) "") eqn:Hm2.
    { apply andb_true_iff in Hm2 as [Hne He]; apply String.eqb_eq in He; by apply bool_decide_eq_true_1 in Hne. }
    case_match; [|done]; intros (u & Hg & [= He])%run_bind_inv; apply String.eqb_eq in He as ->.
    unfold gid_uri, Uri in Hg; apply run_bind_inv in Hg as (sid & _ & Hg); by apply run_bind_inv in Hg as (b & _ & [=]).
Qed.

Lemma matches_return typ uid uri t : track_ok t -> returns (track_matches typ uid uri t).
Proof. apply track_matches_returns. Qed.

(** The list left before the track a search found. *)
Lemma before_uid_spec fuel r r1 tl1 uid queue isPlaying cur :
  uid <> "" -> playingQueuedTrack queue isPlaying cur = Ret true ->
  Seek fuel r newTrackList (track_matches SpotifyIdTypeTrack uid "") = Ret (r1, tl1, None) ->
  0 < pl_pos (tl_tracks tl1) ->
  exists tl2, before_uid fuel r newTrackList false uid queue isPlaying cur = Ret (r1, tl2, true) /\ tl_inv tl2 /\
    tl_playingQueue tl2 = false /\ tl_queue tl2 = [] /\ tl_shuffled tl2 = false /\
    pl_list (tl_tracks tl2) = pl_list (tl_tracks tl1) /\ pl_pos (tl_tracks tl2) = pl_pos (tl_tracks tl1) - 1.
Proof.
  intros Hu Hplay Hseek Hpos; unfold before_uid; rewrite bool_decide_eq_false_2 by done; cbn [orb].
  change (ContextTrackComparator SpotifyIdTypeTrack (MkContextTrack "" uid [] None))
    with (Ret (track_matches SpotifyIdTypeTrack uid "")).
  rewrite Hplay, !run_bind_Ret, Hseek, run_bind_Ret.
  destruct (Seek_total r newTrackList (track_matches SpotifyIdTypeTrack uid "") (loose_loaded _ newTrackList_loose)
    (matches_return SpotifyIdTypeTrack uid "")) as (n & r2 & l2 & err & Hs & Hl & _ & Hres).
  pose proof (Seek_deterministic _ _ _ _ _ _ _ Hseek Hs) as [= -> -> <-]; cbn in Hpos |- *.
  unfold GoPrev; cbn [set_queue set_tracks tl_tracks tl_queue]; unfold pl_iterHere; rewrite decide_False by lia; rewrite run_bind_Ret.
  unfold it_prev; cbn [it_pos]; rewrite !decide_False by lia; rewrite run_bind_Ret; cbn [pl_move it_err]; rewrite !run_bind_Ret.
  eexists; split; [reflexivity|]; split; [|done].
  constructor; cbn; [lia | done | constructor | done | by left].
Qed.

(** A transfer of a queued track goes back to where the context was.  If the
    session names the context track that follows the queue and the context has
    it, past its first track, then the transferred queue plays first, its head
    at once and the rest in order, and after it exactly that track: nothing of
    the context is repeated or left out. *)
Theorem transferred_queue_resumes_context (h : mheap) (r r1 : R) (ts : TransferState) (rnd : Z) (fuel0 : nat) (tl1 : List)
    (Hok : Forall track_ok (ts_Queue ts)) (Huid : ts_CurrentUid ts <> "")
    (Hplay : playingQueuedTrack (ts_Queue ts) (ts_IsPlayingQueue ts) (pb_CurrentTrack (ts_Playback ts)) = Ret true)
    (Hshuffle : op_ShufflingContext (ts_Options ts) = false)
    (Hseek : Seek fuel0 r newTrackList (track_matches SpotifyIdTypeTrack (ts_CurrentUid ts) "") = Ret (r1, tl1, None))
    (Hpos : 0 < pl_pos (tl_tracks tl1)) :
  exists h' r' tl snap, transfer_list (G := G) fuel0 h r false ts rnd = Ret (h', r', Ok (tl, snap)) /\ tl_inv tl /\
    Forall2 same_track (tl_queue tl) (ts_Queue ts) /\ tl_playingQueue tl = true /\
    exists tl' t, go_next_n (length (ts_Queue ts)) r' tl = Ret (r', tl') /\ current tl' = Ret t /\
      ct_Uid t = ts_CurrentUid ts /\ tl_queue tl' = [].
Proof.
  destruct (before_uid_spec fuel0 r r1 tl1 (ts_CurrentUid ts) (ts_Queue ts) (ts_IsPlayingQueue ts)
    (pb_CurrentTrack (ts_Playback ts)) Huid Hplay Hseek Hpos) as (tl2 & Hb & Hi2 & Hp2 & Hq2 & Hs2 & Hl2 & Hpos2).
  destruct (add_to_queue h tl2 (ts_Queue ts)) as [h3 tl3] eqn:Hadd.
  destruct (add_to_queue_spec h tl2 (ts_Queue ts) h3 tl3 Hi2 Hok Hadd) as (Hi3 & Ht3 & _ & Hp3 & q & Hq3 & Hsame).
  rewrite Hq2 in Hq3; cbn [app] in Hq3; set (tl4 := SetPlayingQueue tl3 (ts_IsPlayingQueue ts)).
  assert (ts_IsPlayingQueue ts = true /\ tl_queue tl3 <> []) as [Hisp Hne].
  { unfold playingQueuedTrack in Hplay; destruct (ts_IsPlayingQueue ts); [|done]; split; [done|].
    destruct (ts_Queue ts); [done|]; rewrite Hq3; by destruct q; inversion Hsame. }
  assert (tl_playingQueue tl4 = true /\ tl_queue tl4 = q /\ tl_tracks tl4 = tl_tracks tl2 /\ tl_inv tl4) as (Hp4 & Hq4 & Ht4 & Hi4).
  { pose proof (SetPlayingQueue_inv tl3 (ts_IsPlayingQueue ts) Hi3) as Hi4; fold tl4 in Hi4; split_and!; try done.
    unfold tl4, SetPlayingQueue; cbn; rewrite Hisp, andb_true_r; apply bool_decide_eq_true_2.
    destruct (tl_queue tl3) as [|t q']; [done|]; rewrite zlen_cons; pose proof (zlen_nonneg q'); lia. }
  destruct (current_total tl4 Hi4) as (t & Hcur & _).
  destruct (finish_start_total h3 r1 tl4 t Hi4 Hcur)
    as (h5 & r5 & tl5 & snap & cur & Hfin & Hi5 & _ & Hp5 & Hq5 & (ext & Hext) & Hpos5 & _).
  exists h5, r5, tl5, snap; split_and!; [| done | rewrite Hq5, Hq4; done | congruence |].
  { unfold transfer_list, transfer_position; cbv zeta; rewrite Hb, !run_bind_Ret, Hshuffle.
    unfold ToggleShuffle; rewrite Hs2; cbn [Bool.eqb]; rewrite run_bind_Ret, Hadd; exact Hfin. }
  unfold Seek in Hseek; apply run_bind_inv in Hseek as ([[? l0] ?] & Hs & [= -> <- ->]).
  apply seek_loop_spec in Hs as (_ & x & _ & Hx & Hfx & _); [|simpl; lia]; cbn in *.
  destruct (play_out_queue q r5 tl5 x Hi5) as (tl6 & Hn6 & Hc6 & _ & Hq6); [congruence|congruence| |].
  { rewrite Hext, Hpos5, Ht4, Hl2, Hpos2, Z.sub_add, nthZ_app_l; [done|]; apply nthZ_Some_lt in Hx; lia. }
  exists tl6, (item x); rewrite <- (Forall2_length _ _ _ Hsame); split_and!; [done|done| |done].
  by eapply uid_match.
Qed.
End claims.


(** A context of three tracks with uids, and a transfer of a queued track that
    comes before the second of them. *)
Inductive uid_context := UidContext.

Definition uid_track (n : string) : ContextTrack :=
  MkContextTrack (String.append "spotify:track:" n) (String.append "u" n) [] None.

#[export] Instance uid_resolver : ContextResolver uid_context := {
  cr_pages := fun r i => (r, if decide (i = 0) then Ok [uid_track "a"; uid_track "b"; uid_track "c"] else Err io_EOF);
  cr_Type _ := "track";
  cr_Metadata _ := None
}.

#[export] Instance uid_laws : ResolverLaws uid_context.
Proof.
  split; [|done]; intros r i r' items; unfold Page; cbn; case_decide; [|done]; intros Heq; simplify_eq.
  apply (bool_decide_unpack _); vm_compute; exact I.
Defined.

Definition queued_transfer : TransferState :=
  MkTransfer (MkPlayback 0 0 false (Some (uid_track "q"))) (uri_context "spotify:playlist:p") None "ub"
    (MkOptions false false false ∅) [uid_track "q"; uid_track "z"] true.

Lemma transferred_queue_resumes_context_witness :
  exists h' r' tl snap, transfer_list (R := uid_context) (G := Z) 5 ∅ UidContext false queued_transfer 0 = Ret (h', r', Ok (tl, snap)) /\
    exists tl' t, go_next_n 2 r' tl = Ret (r', tl') /\ current tl' = Ret t /\ ct_Uid t = "ub".
Proof.
  destruct (transferred_queue_resumes_context (R := uid_context) (G := Z) ∅ UidContext UidContext queued_transfer 0 5
    (MkList false 0 0 0 (PagedList (page_items 0 [uid_track "a"; uid_track "b"; uid_track "c"]) 1) false []))
    as (h' & r' & tl & snap & Ht & _ & _ & _ & tl' & t & Hn & Hc & Hu & _).
  - apply (bool_decide_unpack _); vm_compute; exact I.
  - discriminate.
  - vm_compute; reflexivity.
  - reflexivity.
  - vm_compute; reflexivity.
  - reflexivity.
  - exists h', r', tl, snap; split; [exact Ht|]; exists tl', t; split; [exact Hn|]; split; [exact Hc | exact Hu].
Defined.
