(* ===== verification/Controls.v ===== *)
(** * The handlers of the player loop ([src/daemon/controls.go], [src/daemon/player.go])

    Each handler is a function of the player's state and of what it reads from
    its surroundings (the clock, the output's position, what its commands
    returned).  Work handed to the loader lane is a job, kept as data with the
    continuation the code captures in a closure; the result of a job comes back
    through [applyLoaderResult] of [Loader].  Telemetry, logging and desktop
    integration are left out. *)

From stdpp Require Import gmap.
From S2P Require Import Prelude Ids Tracks Loader PlayerState Requests QueueIds.
#[local] Open Scope string_scope.
#[local] Open Scope list_scope.
#[local] Open Scope Z_scope.

(** ** Configuration and surroundings *)
Record Config := MkConfig { DisableAutoplay : bool; SkipDebounce : Z; ZeroconfEnabled : bool }.

(** What one run of a handler reads: the clock, the output's position (before
    and after a command), a fresh session id, the results of its commands, and
    the metadata of tracks. *)
Record Env := MkEnv {
  e_now : Z;
  e_position : Z;
  e_positionAfter : Z;
  e_session : string;
  e_seek : option error;
  e_play : option error;
  e_pause : option error;
  e_meta : mheap
}.

(** ** Errors *)
Definition isUnplayableMedia (e : error) : bool :=
  errors_Is e ErrMediaRestricted || errors_Is e ErrNoSupportedFormats || errors_Is e KeyProviderError.

(** ** Continuations: the [then] closures *)
Inductive Then :=
| ThenLog
| ThenContext (k : Then)
| ThenOrSkip (drop : bool) (k : Then)
| ThenAdvanced (hasNextTrack drop : bool) (k : ThenNext)
| ThenStation (k : ThenNext)
| ThenStart (position : Z) (paused : bool)
with ThenNext :=
| NextStopped
| NextPastUnplayable (k : Then).

(** ** Jobs *)

(** What [loadCurrentTrack] captures for the fetch. *)
Record LoadOpts := MkLoadOpts {
  lo_id : SpotifyId;
  lo_uri : string;
  lo_paused : bool;
  lo_drop : bool;
  lo_resume : bool;
  lo_position : Z;
  lo_fromStart : bool;
  lo_jumped : bool;
  lo_prefetched : option (Stream * option nat)
}.

Inductive JobKind :=
| JobLoad (o : LoadOpts) (k : Then)
| JobContext (cx : SpotContextRef) (skipTo : SkipTo) (paused drop shuffle : bool) (k : Then)
| JobResolve (data : ApiPlay)
| JobTransfer (ts : TransferState) (paused continuation : bool) (stream : option Stream)
| JobStation (contextUri : string) (seed : list string) (drop : bool) (k : ThenNext)
| JobAdvance (repeatingContext drop : bool) (delay : Z) (k : ThenNext)
| JobSkipPrev (delay : Z)
| JobSkipTo (track : ContextTrack) (delay : Z)
| JobPeek
| JobPrefetch (id : SpotifyId)
| JobShuffle (shuffle : bool)
| JobAddToQueue (track : ContextTrack)
| JobSetQueue (prev next : list ContextTrack).

Definition job_kind_class (k : JobKind) : loaderClass :=
  match k with
  | JobLoad _ _ | JobContext _ _ _ _ _ _ | JobResolve _ | JobTransfer _ _ _ _ | JobStation _ _ _ _ | JobSkipTo _ _ => classLoad
  | JobAdvance _ _ _ _ | JobSkipPrev _ => classNav
  | JobPeek | JobPrefetch _ => classPrefetch
  | JobShuffle _ | JobAddToQueue _ | JobSetQueue _ _ => classMutate
  end.

(** A job handed to the lane: its stamp, and the list it was given. *)
Record Job := MkCtlJob { cj_kind : JobKind; cj_gen : Z; cj_list : option nat }.

Definition cj_class (j : Job) : loaderClass := job_kind_class (cj_kind j).

(** What a job's run came to. *)
Inductive Outcome :=
| OutError (e : error)
| OutWalked (snap : TrackSnapshot) (hasNextTrack : bool) (seed : list string)
| OutPeeked (uri : string)
| OutLoaded (s : Stream) (streamGen : Z) (resumed : option Z)
| OutPrefetched (s : Stream) (src : nat)
| OutContext (list_id : nat) (snap : TrackSnapshot)
| OutStation (cx : SpotContextRef)
| OutResolved (cx : SpotContextRef)
| OutTransferred (list_id : nat) (snap : TrackSnapshot) (fallback : option SpotContextRef).

(** ** The player: counters, held events, the lane and the rest

    A job's identity on the lane is its position in [r_jobs]. *)
Record Rest := MkRest { r_lane : loaderLane; r_jobs : list Job; r_ctl : Ctl }.

Abbreviation Player := (appPlayer Rest).

Definition set_rest (p : Player) (r : Rest) : Player :=
  MkPlayer (loadGen p) (prefetchGen p) (loadInFlight p) (pendingPlayerEvents p) r.

Definition ctl (p : Player) : Ctl := r_ctl (rest p).
Definition state (p : Player) : PlayerState := c_player (ctl p).

Definition upd (f : Ctl -> Ctl) (p : Player) : Player :=
  set_rest p (MkRest (r_lane (rest p)) (r_jobs (rest p)) (f (ctl p))).
Definition upd_state (f : PlayerState -> PlayerState) (p : Player) : Player := upd (on_player f) p.
Definition do_effect (ef : effect) (p : Player) : Player := upd (add_effect ef) p.
Definition emit (ev : ApiEvent) (p : Player) : Player := do_effect (EffEmit ev) p.
Definition command (c : PlayerCommand) (p : Player) : Player := do_effect (EffPlayer c) p.
Definition crash_with (why : Crash) (p : Player) : Player := upd (set_crash (Some why)) p.

(** [p.updateState()] and [p.flushState()], with the state they report. *)
Definition do_updateState (p : Player) : Player := do_effect (EffUpdateState (state p)) p.
Definition do_flushState (p : Player) : Player := do_effect (EffFlushState (state p)) p.

Definition bumpLoadGen (p : Player) : Player :=
  MkPlayer (u64 (loadGen p + 1)) (prefetchGen p) (loadInFlight p) (pendingPlayerEvents p) (rest p).
Definition bumpPrefetchGen (p : Player) : Player :=
  MkPlayer (loadGen p) (u64 (prefetchGen p + 1)) (loadInFlight p) (pendingPlayerEvents p) (rest p).
Definition set_loadInFlight (v : bool) (p : Player) : Player :=
  MkPlayer (loadGen p) (prefetchGen p) v (pendingPlayerEvents p) (rest p).

(** [p.loader.submit], stamping the job as every caller does. *)
Definition submit_job (k : JobKind) (notBefore : Z) (p : Player) : Player :=
  let gen := generation p (job_kind_class k) in
  let id := length (r_jobs (rest p)) in
  set_rest p
    (MkRest (submit (r_lane (rest p)) (MkJob id (job_kind_class k) gen notBefore)).1
       (r_jobs (rest p) ++ [MkCtlJob k gen (c_tracks (ctl p))]) (ctl p)).

Definition track_uri_of (p : Player) : string :=
  match ps_Track (state p) with Some t => pt_Uri t | None => "" end.

(** ** The prefetched stream *)
Definition clearUpcoming (p : Player) : Player :=
  command (PlayerSetSecondary None) (upd (fun c => set_secondarySource None (set_secondaryStream None c)) p).

Definition invalidateUpcoming (p : Player) : Player := clearUpcoming (bumpPrefetchGen p).

Definition publishUpcoming (snap : TrackSnapshot) (p : Player) : Player :=
  upd_state (fun s => set_NextTracks (sn_Next snap) (set_PrevTracks (sn_Prev snap) s)) p.

Definition publishSnapshot (snap : TrackSnapshot) (p : Player) : Player :=
  publishUpcoming snap
    (upd_state (fun s => set_Index (Some (sn_Index snap)) (set_Track (Some (sn_Current snap)) s)) p).

Definition schedulePrefetchNext (e : Env) (p : Player) : Player :=
  match c_primaryStream (ctl p) with
  | Some s =>
    if ps_IsPaused (state p) then upd (set_prefetchTimer None) p
    else
      let untilTrackEnd := i32 (st_Duration s - i32 (e_position e)) - 30000 in
      upd (set_prefetchTimer (Some (if decide (untilTrackEnd < 10000) then e_now e else e_now e + untilTrackEnd))) p
  | None => upd (set_prefetchTimer None) p
  end.

(** Runs [f] on the id of a uri that parses. *)
Definition submitPrefetch (uri : string) (p : Player) : Player :=
  if decide (uri = "") then p
  else
    match SpotifyIdFromUri uri with
    | Ret (Ok id) =>
      match c_secondaryStream (ctl p) with
      | Some s => if Stream_Is s id then p else submit_job (JobPrefetch id) 0 p
      | None => submit_job (JobPrefetch id) 0 p
      end
    | Ret (Err _) => p
    | Panic why => crash_with (Panicked why) p
    | OutOfFuel => crash_with NoFuel p
    end.

Definition prefetchNext (p : Player) : Player :=
  if ps_RepeatingTrack (state p) then submitPrefetch (track_uri_of p) p
  else
    match c_tracks (ctl p) with
    | None => p
    | Some _ => submit_job JobPeek 0 p
    end.

Definition commitPrefetch (s : Stream) (src : nat) (p : Player) : Player :=
  command (PlayerSetSecondary (Some src))
    (upd (fun c => set_secondarySource (Some src) (set_secondaryStream (Some s) c)) p).

(** ** Reporting *)
Definition is_episode (id : SpotifyId) : bool := bool_decide (id_typ id = SpotifyIdTypeEpisode).

Definition reportResumePosition (stream : option Stream) (pos : Z) (p : Player) : Player :=
  match stream with
  | None => p
  | Some s =>
    if negb (is_episode (st_RequestedId s)) || bool_decide (pos <= 0) then p
    else if decide (c_resumeFinishedPlaybackId (ctl p) = Some (st_PlaybackId s)) then p
    else do_effect (EffReportResume (st_RequestedId s) pos) p
  end.

Definition reportResumeFinished (stream : option Stream) (p : Player) : Player :=
  match stream with
  | None => p
  | Some s =>
    if negb (is_episode (st_RequestedId s)) then p
    else do_effect (EffReportFinished (st_RequestedId s))
           (upd (set_resumeFinishedPlaybackId (Some (st_PlaybackId s))) p)
  end.

Definition emitPlaybackError (stage uri : string) (err : option error) (p : Player) : Player :=
  match err with
  | None => p
  | Some e => if errors_Is e context_Canceled then p else emit (ApiPlaybackError stage uri e) p
  end.

(** ** Playback *)
Definition play (e : Env) (p : Player) : Player * option error :=
  match c_primaryStream (ctl p) with
  | None =>
    if loadInFlight p then (do_updateState (upd_state (setPaused false) p), None)
    else (p, Some (EMsg "no primary stream"))
  | Some s =>
    let seekPos := clamp_position (trackPosition (e_now e) (state p)) (st_Duration s) in
    let p := command (PlayerSeek seekPos) p in
    match e_seek e with
    | Some er => (p, Some (EWrap "failed seeking before play" er))
    | None =>
      let p := command PlayerPlay p in
      match e_play e with
      | Some er => (p, Some (EWrap "failed starting playback" er))
      | None =>
        let p := upd_state (fun ps => setPaused false
                   (set_PositionAsOfTimestamp (e_positionAfter e) (set_Timestamp (e_now e) ps))) p in
        (schedulePrefetchNext e (do_updateState p), None)
      end
    end
  end.

Definition pause (e : Env) (p : Player) : Player * option error :=
  match c_primaryStream (ctl p) with
  | None =>
    if loadInFlight p then (do_updateState (upd_state (setPaused true) p), None)
    else (p, Some (EMsg "no primary stream"))
  | Some s =>
    let p := command PlayerPause p in
    match e_pause e with
    | Some er => (p, Some (EWrap "failed pausing playback" er))
    | None =>
      let p := reportResumePosition (Some s) (e_position e) p in
      let p := upd_state (fun ps => setPaused true
                 (set_PositionAsOfTimestamp (e_position e) (set_Timestamp (e_now e) ps))) p in
      (schedulePrefetchNext e (do_updateState p), None)
    end
  end.

Definition seek (e : Env) (position : Z) (p : Player) : Player * option error :=
  match c_primaryStream (ctl p) with
  | None => (p, Some (EMsg "no primary stream"))
  | Some s =>
    let position := clamp_position position (st_Duration s) in
    let p := command (PlayerSeek position) p in
    match e_seek e with
    | Some er => (p, Some er)
    | None =>
      let p := upd_state (fun ps => set_PositionAsOfTimestamp position (set_Timestamp (e_now e) ps)) p in
      (emit (ApiSeek position) (schedulePrefetchNext e (do_updateState p)), None)
    end
  end.

(** What the API does once the context it asked for plays: a start away from the
    beginning is loaded paused and sought to before it is heard. *)
Definition start_at (e : Env) (position : Z) (paused : bool) (p : Player) : Player :=
  if decide (position <= 0) then p
  else
    let p := (seek e position p).1 in
    if paused then p else (play e p).1.

(** ** Loading the current track *)

(** The state a load announces while it buffers. *)
Definition announce_load (now : Z) (paused : bool) (s : PlayerState) : PlayerState :=
  set_PlaybackSpeed 0 (set_IsPaused paused (set_IsBuffering true (set_IsPlaying true (updateTimestamp now s)))).

Section handlers.
Context (cfg : Config).

(** Calling a [then] closure at once. *)
Context (call_then : Then -> option error -> Player -> Player).
Context (call_next : ThenNext -> bool -> option error -> Player -> Player).

(** The stream on its way out. *)
Definition unload_primary (e : Env) (p : Player) : Player :=
  match c_primaryStream (ctl p) with
  | None => p
  | Some s => upd (set_primaryStream None) (reportResumePosition (Some s) (e_position e) p)
  end.

Definition start_load (e : Env) (id : SpotifyId) (uri : string) (paused drop resume : bool) (delay : Z)
    (k : Then) (p : Player) : Player :=
  let position := trackPosition (e_now e) (state p) in
  let fromStart := bool_decide (ps_PositionAsOfTimestamp (state p) = 0) in
  let p := do_updateState (upd_state (announce_load (e_now e) paused) p) in
  let p := emit (ApiWillPlay uri) p in
  let p := bumpPrefetchGen (bumpLoadGen p) in
  let matching := match c_secondaryStream (ctl p) with Some s => Stream_Is s id | None => false end in
  let prefetched := if matching
                    then match c_secondaryStream (ctl p) with
                         | Some s => Some (s, c_secondarySource (ctl p))
                         | None => None
                         end
                    else None in
  let p := if matching then upd (fun c => set_secondarySource None (set_secondaryStream None c)) p
           else clearUpcoming p in
  let jumped := c_narrationJumped (ctl p) in
  let p := set_loadInFlight true (upd (set_narrationJumped false) p) in
  submit_job (JobLoad (MkLoadOpts id uri paused drop resume position fromStart jumped prefetched) k)
    (if decide (0 < delay) then e_now e + delay else 0) p.

Definition loadCurrentTrack (e : Env) (paused drop resume : bool) (delay : Z) (k : Then) (p : Player) : Player :=
  let p := unload_primary e p in
  match SpotifyIdFromUri (track_uri_of p) with
  | Ret (Err err) => call_then k (Some (EWrap "failed parsing uri" err)) p
  | Ret (Ok id) =>
    if bool_decide (id_typ id <> SpotifyIdTypeTrack) && bool_decide (id_typ id <> SpotifyIdTypeEpisode)
    then call_then k (Some (EMsg "unsupported spotify type")) p
    else
      match Uri id with
      | Ret uri => start_load e id uri paused drop resume delay k p
      | Panic why => crash_with (Panicked why) p
      | OutOfFuel => crash_with NoFuel p
      end
  | Panic why => crash_with (Panicked why) p
  | OutOfFuel => crash_with NoFuel p
  end.

Definition loadCurrentTrackOrSkip (e : Env) (paused drop resume : bool) (k : Then) (p : Player) : Player :=
  loadCurrentTrack e paused drop resume 0 (ThenOrSkip drop k) p.

(** ** Starting a context *)
Definition claim_context (e : Env) (cx : SpotContextRef) (paused : bool) (s : PlayerState) : PlayerState :=
  let s := setPaused paused s in
  let s := set_ContextUrl (cx_url cx) (set_ContextUri (cx_uri cx) (set_SessionId (e_session e) s)) in
  let s := if cx_noShuffle cx then set_ShufflingContext false s else s in
  let s := if cx_noRepeatTrack cx then set_RepeatingTrack false s else s in
  let s := if cx_noRepeatContext cx then set_RepeatingContext false s else s in
  let s := set_Index None (set_NextTracks [] (set_PrevTracks [] (set_Track None s))) in
  let s := set_PositionAsOfTimestamp 0 (set_Timestamp (e_now e) s) in
  set_PlaybackSpeed 0 (set_IsBuffering true (set_IsPlaying true s)).

Definition loadContext (e : Env) (cx : SpotContextRef) (skipTo : SkipTo) (paused drop : bool) (k : Then)
    (p : Player) : Player :=
  let p := do_updateState (upd_state (claim_context e cx paused) p) in
  let shuffle := ps_ShufflingContext (state p) in
  submit_job (JobContext cx skipTo paused drop shuffle k) 0 (bumpLoadGen p).

(** ** Moving on *)
Definition startAutoplay (seed : list string) (drop : bool) (k : ThenNext) (p : Player) : Player :=
  match seed with
  | [] => call_next k false None p
  | _ => submit_job (JobStation (ps_ContextUri (state p)) seed drop k) 0 (bumpLoadGen p)
  end.

Definition advanceTo (e : Env) (hasNextTrack : bool) (seed : list string) (drop : bool) (delay : Z)
    (k : ThenNext) (p : Player) : Player :=
  let p := upd_state (fun s => set_PositionAsOfTimestamp 0 (set_Timestamp (e_now e) s)) p in
  if negb hasNextTrack && negb (DisableAutoplay cfg) &&
     negb (has_prefix "spotify:station:" (ps_ContextUri (state p)))
  then startAutoplay seed drop k p
  else
    let p := if hasNextTrack then p
             else upd_state (fun s => set_IsBuffering false (set_IsPaused false (set_IsPlaying false s))) p in
    loadCurrentTrack e (negb hasNextTrack) drop true delay (ThenAdvanced hasNextTrack drop k) p.

Definition advanceNext (e : Env) (forceNext drop : bool) (delay : Z) (k : ThenNext) (p : Player) : Player :=
  match c_tracks (ctl p) with
  | None => advanceTo e false [] drop delay k p
  | Some _ =>
    if negb forceNext && ps_RepeatingTrack (state p)
    then advanceTo e true [] drop delay k (upd_state (set_IsPaused false) p)
    else submit_job (JobAdvance (ps_RepeatingContext (state p)) drop delay k) 0 (bumpLoadGen p)
  end.

Definition maxConsecutiveUnplayableSkips : Z := 50.

(** The closure [advanceTo] gives to [loadCurrentTrack]. *)
Definition after_advance (e : Env) (hasNextTrack drop : bool) (k : ThenNext) (err : option error) (p : Player)
  : Player :=
  match err with
  | None => call_next k hasNextTrack None (upd (set_consecutiveUnplayableSkips 0) p)
  | Some er =>
    if negb (isUnplayableMedia er)
    then call_next k false (Some (EWrap "failed loading current track (advance)" er))
           (upd (set_consecutiveUnplayableSkips 0) p)
    else
      let p := upd (fun c => set_consecutiveUnplayableSkips (c_consecutiveUnplayableSkips c + 1) c) p in
      if decide (maxConsecutiveUnplayableSkips < c_consecutiveUnplayableSkips (ctl p))
      then call_next k false (Some er) (upd (set_consecutiveUnplayableSkips 0) p)
      else advanceNext e true drop 0 k p
  end.
End handlers.

(** ** Running continuations

    Every closure is called in tail position, so a call is a step; the fuel
    bounds the calls of one handler. *)
Fixpoint call_then (cfg : Config) (e : Env) (fuel : nat) (k : Then) (err : option error) (p : Player) : Player :=
  match fuel with
  | O => crash_with NoFuel p
  | S fuel =>
    match k with
    | ThenLog => p
    | ThenContext k =>
      call_then cfg e fuel k
        (match err with Some er => Some (EWrap "failed loading current track (load context)" er) | None => None end) p
    | ThenOrSkip drop k =>
      match err with
      | Some er =>
        if isUnplayableMedia er
        then advanceNext cfg (call_then cfg e fuel) (call_next cfg e fuel) e true drop 0 (NextPastUnplayable k) p
        else call_then cfg e fuel k err p
      | None => call_then cfg e fuel k err p
      end
    | ThenAdvanced hasNextTrack drop k =>
      after_advance cfg (call_then cfg e fuel) (call_next cfg e fuel) e hasNextTrack drop k err p
    | ThenStation k => call_next cfg e fuel k (match err with Some _ => false | None => true end) None p
    | ThenStart position paused => match err with Some _ => p | None => start_at e position paused p end
    end
  end
with call_next (cfg : Config) (e : Env) (fuel : nat) (k : ThenNext) (hasNextTrack : bool) (err : option error)
    (p : Player) : Player :=
  match fuel with
  | O => crash_with NoFuel p
  | S fuel =>
    match k with
    | NextStopped => if hasNextTrack then p else emit ApiStopped p
    | NextPastUnplayable k =>
      call_then cfg e fuel k
        (match err with Some er => Some (EWrap "failed advancing past unplayable track" er) | None => None end) p
    end
  end.

(** Enough calls for a continuation: a closure skips forward at most once before
    it calls the closure inside it. *)
Fixpoint then_size (k : Then) : nat :=
  match k with
  | ThenLog => 1
  | ThenContext k => S (then_size k)
  | ThenOrSkip _ k => S (then_size k)
  | ThenAdvanced _ _ k => S (next_size k)
  | ThenStation k => S (next_size k)
  | ThenStart _ _ => 1
  end
with next_size (k : ThenNext) : nat :=
  match k with
  | NextStopped => 1
  | NextPastUnplayable k => S (then_size k)
  end.

Definition then_fuel (k : Then) : nat := 4 * then_size k + 4.
Definition next_fuel (k : ThenNext) : nat := 4 * next_size k + 8.

(** The handlers with their closures called. *)
Definition run_then (cfg : Config) (e : Env) (k : Then) : option error -> Player -> Player :=
  call_then cfg e (then_fuel k) k.
Definition run_next (cfg : Config) (e : Env) (k : ThenNext) : bool -> option error -> Player -> Player :=
  call_next cfg e (next_fuel k) k.
Definition run_advanceNext (cfg : Config) (e : Env) (forceNext drop : bool) (delay : Z) (k : ThenNext)
  : Player -> Player :=
  advanceNext cfg (call_then cfg e (next_fuel k)) (call_next cfg e (next_fuel k)) e forceNext drop delay k.
Definition run_advanceTo (cfg : Config) (e : Env) (hasNextTrack : bool) (seed : list string) (drop : bool)
    (delay : Z) (k : ThenNext) : Player -> Player :=
  advanceTo cfg (call_then cfg e (next_fuel k)) (call_next cfg e (next_fuel k)) e hasNextTrack seed drop delay k.
Definition run_loadCurrentTrack (cfg : Config) (e : Env) (paused drop resume : bool) (delay : Z) (k : Then)
  : Player -> Player :=
  loadCurrentTrack (call_then cfg e (then_fuel k)) e paused drop resume delay k.
Definition run_loadCurrentTrackOrSkip (cfg : Config) (e : Env) (paused drop resume : bool) (k : Then)
  : Player -> Player :=
  loadCurrentTrackOrSkip (call_then cfg e (then_fuel (ThenOrSkip drop k))) e paused drop resume k.

(** ** A load that landed *)
Definition report_track (e : Env) (s : Stream) (paused : bool) (position : Z) (ps : PlayerState) : PlayerState :=
  let ps := set_PositionAsOfTimestamp position (set_Timestamp (e_now e) ps) in
  let ps := set_Duration (st_Duration s) (set_PlaybackId (st_PlaybackId s) ps) in
  setPaused paused (set_IsBuffering false (set_IsPlaying true ps)).

Definition commitLoad (e : Env) (s : Stream) (paused : bool) (position : Z) (p : Player) : Player :=
  let p := upd (set_primaryStream (Some s)) p in
  let wanted := ps_IsPaused (state p) in
  let p := if bool_decide (wanted = paused) then p
           else command (if wanted then PlayerPause else PlayerPlay) p in
  let p := do_updateState (upd_state (report_track e s wanted position) p) in
  emit ApiMetadata (schedulePrefetchNext e p).

(** ** Skipping *)
Definition skipDelay (debounce now lastSkip : Z) : Z :=
  if decide (0 < debounce /\ now - lastSkip < debounce) then debounce else 0.

Definition noteSkip (cfg : Config) (e : Env) (p : Player) : Player * Z :=
  (upd (set_lastSkipAt (e_now e)) p, skipDelay (SkipDebounce cfg) (e_now e) (c_lastSkipAt (ctl p))).

Definition skipPrev (cfg : Config) (e : Env) (allowSeeking : bool) (p : Player) : Player * option error :=
  if allowSeeking && negb (loadInFlight p) && bool_decide (3000 < e_position e) then seek e 0 p
  else
    match c_tracks (ctl p) with
    | None => (p, None)
    | Some _ =>
      let '(p, delay) := noteSkip cfg e p in
      (submit_job (JobSkipPrev delay) 0 (bumpLoadGen p), None)
    end.

Definition skipNext (cfg : Config) (e : Env) (track : option ContextTrack) (p : Player) : Player * option error :=
  let '(p, delay) := noteSkip cfg e p in
  match track with
  | None => (run_advanceNext cfg e true true delay NextStopped p, None)
  | Some track =>
    match c_tracks (ctl p) with
    | None => (p, Some (EWrap "cannot skip" ErrNoContext))
    | Some _ =>
      let p := upd (set_narrationJumped true) p in
      (submit_job (JobSkipTo track delay) 0 (bumpLoadGen p), None)
    end
  end.

(** ** Options and the queue *)
Definition plan_changed (e : Env) (p : Player) : Player :=
  do_updateState (schedulePrefetchNext e (invalidateUpcoming p)).

Definition setOptions (e : Env) (repeatingContext repeatingTrack shufflingContext : option bool) (p : Player) : Player :=
  let '(p, u1) :=
    match repeatingContext with
    | Some v => if decide (v = ps_RepeatingContext (state p)) then (p, false)
                else (emit (ApiRepeatContext v) (upd_state (set_RepeatingContext v) p), true)
    | None => (p, false)
    end in
  let '(p, u2) :=
    match repeatingTrack with
    | Some v => if decide (v = ps_RepeatingTrack (state p)) then (p, false)
                else (emit (ApiRepeatTrack v) (upd_state (set_RepeatingTrack v) p), true)
    | None => (p, false)
    end in
  let '(p, u3) :=
    match c_tracks (ctl p), shufflingContext with
    | Some _, Some v =>
      if decide (v = ps_ShufflingContext (state p)) then (p, false)
      else (submit_job (JobShuffle v) 0 (emit (ApiShuffleContext v) (upd_state (set_ShufflingContext v) p)), true)
    | _, _ => (p, false)
    end in
  if u1 || u2 || u3 then plan_changed e p else p.

Definition set_uid (uid : string) (t : ContextTrack) : ContextTrack :=
  MkContextTrack (ct_Uri t) uid (ct_Gid t) (ct_Metadata t).

Definition addToQueue (track : ContextTrack) (p : Player) : Player :=
  match c_tracks (ctl p) with
  | None => p
  | Some _ =>
    if decide (ct_Uid track = "") then
      let p := upd (fun c => set_queueID (u64 (c_queueID c + 1)) c) p in
      submit_job (JobAddToQueue (set_uid (queue_uid (c_queueID (ctl p))) track)) 0 p
    else submit_job (JobAddToQueue track) 0 p
  end.

Definition setQueue (prev next : list ContextTrack) (p : Player) : Player :=
  match c_tracks (ctl p) with
  | None => p
  | Some _ => submit_job (JobSetQueue prev next) 0 p
  end.

(** ** Stopping *)
Definition drop_lane_loads (p : Player) : Player :=
  do_effect EffDropLoads
    (set_rest p (MkRest (dropLoads (r_lane (rest p))).1 (r_jobs (rest p)) (ctl p))).

Definition forget_streams (c : Ctl) : Ctl := set_secondaryStream None (set_primaryStream None c).

Definition stopPlayback (cfg : Config) (e : Env) (p : Player) : Player :=
  let p := drop_lane_loads (bumpPrefetchGen (bumpLoadGen p)) in
  let p := MkPlayer (loadGen p) (prefetchGen p) false [] (rest p) in
  let p := upd forget_streams (command PlayerStop p) in
  let p := do_effect EffBecameInactive (upd state_reset p) in
  let p := schedulePrefetchNext e p in
  let p := if ZeroconfEnabled cfg then do_effect EffLogout p else p in
  emit ApiInactive p.

Definition abandoned_state (now : Z) (s : PlayerState) : PlayerState :=
  let s := set_ContextUrl "" (set_ContextUri "" s) in
  let s := set_Index None (set_NextTracks [] (set_PrevTracks [] (set_Track None s))) in
  let s := setPaused false (set_IsBuffering false (set_IsPlaying false s)) in
  set_PositionAsOfTimestamp 0 (set_Timestamp now s).

Definition abandonTransfer (e : Env) (p : Player) : Player :=
  let p := match c_primaryStream (ctl p) with
           | Some _ => upd forget_streams (command PlayerStop (upd (set_prefetchTimer None) (bumpPrefetchGen p)))
           | None => emit ApiStopped p
           end in
  let p := upd (fun c => set_queueID 0 (set_tracks None c)) p in
  do_flushState (upd_state (abandoned_state (e_now e)) p).

