(* ===== verification/Transfer.v ===== *)
(** * Taking over playback from another device ([src/daemon/player.go],
    [src/daemon/controls.go])

    The transfer command claims the session at once and leaves resolving its
    context to the loader lane; a transfer of the track already playing keeps its
    stream.  Enriching the metadata of the reported track is left out. *)

From stdpp Require Import gmap.
From S2P Require Import Prelude Ids Tracks Loader PlayerState Requests QueueIds Controls.
#[local] Open Scope string_scope.
#[local] Open Scope list_scope.
#[local] Open Scope Z_scope.

(** Goes on with a value that may not come. *)
Definition with_run {A B} (m : run A) (p : Player) (f : A -> Player * option B) : Player * option B :=
  match m with
  | Ret a => f a
  | Panic why => (crash_with (Panicked why) p, None)
  | OutOfFuel => (crash_with NoFuel p, None)
  end.

(** ** The claim *)
Definition set_Options (o : PlayerOptions) (s : PlayerState) : PlayerState :=
  set_Modes (op_Modes o)
    (set_ShufflingContext (op_ShufflingContext o)
       (set_RepeatingTrack (op_RepeatingTrack o) (set_RepeatingContext (op_RepeatingContext o) s))).

Definition applyTransferSession (e : Env) (ts : TransferState) (s : PlayerState) : PlayerState :=
  let s := set_SessionId (default (e_session e) (ts_OriginalSessionId ts)) s in
  let s := set_Options (ts_Options ts) s in
  set_ContextUrl (cx_url (ts_Context ts)) (set_ContextUri (cx_uri (ts_Context ts)) s).

(** The playback of a transfer. *)
Definition apply_playback (pb : Playback) (paused : bool) (s : PlayerState) : PlayerState :=
  setPaused paused (set_PositionAsOfTimestamp (pb_PositionAsOfTimestamp pb) (set_Timestamp (pb_Timestamp pb) s)).

(** What the device reports while the context resolves. *)
Definition claim_transfer (e : Env) (ts : TransferState) (paused : bool) (track : option ProvidedTrack)
    (s : PlayerState) : PlayerState :=
  let s := apply_playback (ts_Playback ts) paused (applyTransferSession e ts s) in
  let s := set_Index None (set_NextTracks [] (set_PrevTracks [] (set_Track track s))) in
  set_PlaybackSpeed 0 (set_IsBuffering true (set_IsPlaying true s)).

(** The track reported meanwhile, if the transfer names one. *)
Definition claimed_track (e : Env) (ts : TransferState) : run (option ProvidedTrack) :=
  named ← singleTrackContext (pb_CurrentTrack (ts_Playback ts));
  match named, pb_CurrentTrack (ts_Playback ts) with
  | Some _, Some current =>
    t ← ContextTrackToProvidedTrack (e_meta e) (context_type (ts_Context ts)) current;
    Ret (Some t)
  | _, _ => Ret None
  end.

Definition transferContext (ts : TransferState) (paused continuation : bool) (p : Player) : Player :=
  submit_job (JobTransfer ts paused continuation (c_primaryStream (ctl p))) 0 (bumpLoadGen p).

(** ** A transfer of the track already playing *)
Definition uid_differs (a b : string) : bool := bool_decide (a <> "") && bool_decide (b <> "") && bool_decide (a <> b).

Definition transferContinues (retainSession : string) (ts : TransferState) (p : Player) : run bool :=
  match c_primaryStream (ctl p) with
  | None => Ret false
  | Some stream =>
    if decide (retainSession <> "retain_original" \/ c_active (ctl p) = false) then Ret false
    else
      named ← singleTrackContext (pb_CurrentTrack (ts_Playback ts));
      match named, pb_CurrentTrack (ts_Playback ts) with
      | Some named, Some current =>
        playing ← Uri (st_RequestedId stream);
        if decide (cx_uri named <> playing) then Ret false
        else
          let playing_uid := match ps_Track (state p) with Some t => pt_Uid t | None => "" end in
          Ret (negb (uid_differs (ct_Uid current) playing_uid))
      | _, _ => Ret false
      end
  end.

(** ** The command; [None] is a transfer without data *)
Definition claim_and_load (e : Env) (ts : TransferState) (paused : bool) (p : Player) : Player * option error :=
  with_run (claimed_track e ts) p (fun track =>
    let p := upd_state (claim_transfer e ts paused track) (upd (setActive (e_now e) true) p) in
    let p := emit ApiActive (do_flushState p) in
    (transferContext ts paused false p, None)).

Definition take_over (e : Env) (ts : TransferState) (restorePaused retainSession : string) (p : Player)
  : Player * option error :=
  let paused := pb_IsPaused (ts_Playback ts) && bool_decide (restorePaused <> "resume") in
  with_run (transferContinues retainSession ts p) p (fun continues =>
    if continues : bool then (transferContext ts paused true p, None) else claim_and_load e ts paused p).

Definition transferCommand (e : Env) (data : option TransferState) (restoreTrack restorePaused retainSession : string)
    (p : Player) : Player * option error :=
  match data with
  | None => (emit ApiActive p, None)
  | Some ts =>
    let p := upd (set_activationTimestamp (pb_Timestamp (ts_Playback ts))) p in
    if emptyContext (ts_Context ts) then
      with_run (singleTrackContext (pb_CurrentTrack (ts_Playback ts))) p (fun named =>
        match named with
        | Some cx => take_over e (with_context ts cx) restorePaused retainSession p
        | None =>
          if decide (restoreTrack = "always_play_something") then
            (emit ApiActive (abandonTransfer e (upd (setActive (e_now e) true) p)), None)
          else (p, Some (EMsg "transfer command carries neither a context nor a track"))
        end)
    else take_over e ts restorePaused retainSession p
  end.

(** ** The result *)
Definition transferSeekTolerance : Z := 3000.

(** Where the sending side is by now. *)
Definition transferred_position (now : Z) (pb : Playback) : Z :=
  let elapsed := now - pb_Timestamp pb in
  if negb (pb_IsPaused pb) && bool_decide (0 < elapsed < 600000)
  then pb_PositionAsOfTimestamp pb + elapsed else pb_PositionAsOfTimestamp pb.

Definition continuePlayback (e : Env) (pb : Playback) (paused : bool) (p : Player) : Player :=
  let p := invalidateUpcoming p in
  let want := transferred_position (e_now e) pb in
  let p := if decide (transferSeekTolerance < Z.abs (want - trackPosition (e_now e) (state p)))
           then (seek e want p).1 else p in
  let p := upd_state (fun s => set_IsBuffering false (set_IsPlaying true s)) p in
  if paused && negb (ps_IsPaused (state p)) then (pause e p).1
  else if negb paused && ps_IsPaused (state p) then (play e p).1
  else schedulePrefetchNext e (do_updateState (upd_state (setPaused paused) p)).

(** Two mentions of one stream: its playback id is drawn for it alone. *)
Definition same_stream (a b : option Stream) : bool :=
  match a, b with Some a, Some b => bool_decide (st_PlaybackId a = st_PlaybackId b) | _, _ => false end.

(** [fallback] is the context of the transferred track alone, played when the
    backend refuses the one that was transferred. *)
Definition commit_transfer (cfg : Config) (e : Env) (ts : TransferState) (paused continuation : bool)
    (stream : option Stream) (list_id : nat) (snap : TrackSnapshot) (fallback : option SpotContextRef) (p : Player)
  : Player :=
  let keep := continuation && same_stream (c_primaryStream (ctl p)) stream in
  let p := if continuation && negb keep then upd_state (apply_playback (ts_Playback ts) paused) p else p in
  let p := if continuation then upd_state (applyTransferSession e ts) p else p in
  let p := match fallback with
           | Some played => upd_state (fun s => set_ContextUrl "" (set_ContextUri (cx_uri played) s)) p
           | None => p
           end in
  let p := upd (fun c => set_tracks (Some list_id) (set_queueID (highestQueueID (ts_Queue ts)) c)) p in
  let p := publishSnapshot snap p in
  if keep then continuePlayback e (ts_Playback ts) paused p
  else run_loadCurrentTrackOrSkip cfg e paused true false ThenLog p.

(** A transfer that failed; a continuation claimed nothing. *)
Definition fail_transfer (e : Env) (continuation : bool) (p : Player) : Player :=
  if continuation then p else abandonTransfer e p.
