(* ===== verification/Loop.v ===== *)
(** * The player loop ([Run] of [src/daemon/player.go])

    What comes back from the output and from the loader lane, the dispatch of
    commands and requests, and the loop that takes them one at a time.  A panic
    ends the loop.  Reads of the API, volumes (see [Volume]) and the pushing of
    the state (see [StatePush]) are elsewhere or left out. *)

From Stdlib Require Import Ascii String.
From stdpp Require Import gmap.
From S2P Require Import Prelude Ids Tracks Loader PlayerState Requests QueueIds Controls Transfer.
#[local] Open Scope string_scope.
#[local] Open Scope list_scope.
#[local] Open Scope Z_scope.

(** ** Events of the output *)
Definition handlePlayerEvent (cfg : Config) (e : Env) (p : Player) (ev : Event) : Player :=
  let playing paused ps := set_IsBuffering false (setPaused paused (set_IsPlaying true ps)) in
  match ev_Type ev with
  | EventTypePlay => emit (ApiPlaying false) (do_updateState (upd_state (playing false) p))
  | EventTypeResume => emit (ApiPlaying true) (do_updateState (upd_state (playing false) p))
  | EventTypePause => emit ApiPaused (do_updateState (upd_state (playing true) p))
  | EventTypeNotPlaying =>
    let p := emit ApiNotPlaying (reportResumeFinished (c_primaryStream (ctl p)) p) in
    if c_sleepAtEndOfTrack (ctl p) then
      (pause e (upd_state (set_SleepTimer None) (upd (set_sleepAtEndOfTrack false) p))).1
    else run_advanceNext cfg e false false 0 NextStopped p
  | EventTypeStop => emit ApiStopped (emitPlaybackError "playback" (track_uri_of p) (ev_Err ev) p)
  end.

(** ** Results of jobs *)

(** What [listJob] gives to its commit: the snapshot, unless a context load has
    replaced the list meanwhile. *)
Definition list_commit (j : Job) (p : Player) (snap : TrackSnapshot) : result TrackSnapshot :=
  if decide (c_tracks (ctl p) = cj_list j) then Ok snap else Err ErrSuperseded.

(** A skip that landed: report it and load it. *)
Definition commit_skip (cfg : Config) (e : Env) (delay : Z) (snap : TrackSnapshot) (p : Player) : Player :=
  let p := publishSnapshot snap p in
  let p := upd_state (fun s => set_PositionAsOfTimestamp 0 (set_Timestamp (e_now e) s)) p in
  run_loadCurrentTrack cfg e (ps_IsPaused (state p)) true true delay ThenLog p.

Definition commit_edit (e : Env) (snap : TrackSnapshot) (p : Player) : Player :=
  plan_changed e (publishUpcoming snap p).

Definition commit_loaded (e : Env) (o : LoadOpts) (s : Stream) (streamGen : Z) (resumed : option Z) (p : Player)
  : Player :=
  let position := StartPosition (default (lo_position o) resumed) (st_Duration s) in
  commitLoad e s (lo_paused o) position (forgetReplacedStreamEvents p streamGen).

(** A context the API asked for. *)
Definition commit_resolve (e : Env) (data : ApiPlay) (cx : SpotContextRef) (p : Player) : Player :=
  let p := upd_state (setPaused (ap_Paused data)) (upd (takeOver (e_now e)) p) in
  loadContext e cx (api_skip (ap_SkipToUri data)) (ap_Paused data || bool_decide (0 < ap_Position data)) true
    (ThenStart (ap_Position data) (ap_Paused data)) p.

(** The commit of a job's result, given what its run came to. *)
Definition commit_job (cfg : Config) (e : Env) (j : Job) (out : Outcome) (p : Player) : Player :=
  match cj_kind j, out with
  | JobLoad o k, OutError er => run_then cfg e k (Some er) (emitPlaybackError "load" (lo_uri o) (Some er) p)
  | JobLoad o k, OutLoaded s streamGen resumed => run_then cfg e k None (commit_loaded e o s streamGen resumed p)
  | JobContext _ _ _ _ _ k, OutError er => run_then cfg e k (Some er) p
  | JobContext _ _ paused drop _ k, OutContext list_id snap =>
    run_loadCurrentTrackOrSkip cfg e paused drop true (ThenContext k)
      (publishSnapshot snap (upd (set_tracks (Some list_id)) p))
  | JobStation _ _ _ k, OutError _ => run_next cfg e k false None p
  | JobStation _ _ drop k, OutStation cx => loadContext e cx SkipToFirst false drop (ThenStation k) p
  | JobResolve data, OutResolved cx => commit_resolve e data cx p
  | JobTransfer _ _ continuation _, OutError _ => fail_transfer e continuation p
  | JobTransfer ts paused continuation stream, OutTransferred list_id snap fallback =>
    commit_transfer cfg e ts paused continuation stream list_id snap fallback p
  | JobAdvance _ _ _ k, OutError er => run_next cfg e k false (Some er) p
  | JobAdvance _ drop delay k, OutWalked snap hasNextTrack seed =>
    match list_commit j p snap with
    | Err er => run_next cfg e k false (Some er) p
    | Ok snap =>
      run_advanceTo cfg e hasNextTrack seed drop delay k
        (publishSnapshot snap (upd_state (set_IsPaused (negb hasNextTrack)) p))
    end
  | JobSkipPrev delay, OutWalked snap _ _ =>
    match list_commit j p snap with Err _ => p | Ok snap => commit_skip cfg e delay snap p end
  | JobSkipTo _ _, OutError _ => upd (set_narrationJumped false) p
  | JobSkipTo _ delay, OutWalked snap _ _ =>
    match list_commit j p snap with
    | Err _ => upd (set_narrationJumped false) p
    | Ok snap => commit_skip cfg e delay snap p
    end
  | JobPeek, OutPeeked uri => if decide (c_tracks (ctl p) = cj_list j) then submitPrefetch uri p else p
  | JobPrefetch _, OutPrefetched s src => commitPrefetch s src p
  | JobShuffle shuffle, OutError _ => do_updateState (upd_state (set_ShufflingContext (negb shuffle)) p)
  | JobShuffle shuffle, OutWalked snap _ _ =>
    match list_commit j p snap with
    | Err _ => do_updateState (upd_state (set_ShufflingContext (negb shuffle)) p)
    | Ok snap => plan_changed e (publishSnapshot snap p)
    end
  | JobAddToQueue _, OutWalked snap _ _ | JobSetQueue _ _, OutWalked snap _ _ =>
    match list_commit j p snap with Err _ => p | Ok snap => commit_edit e snap p end
  | _, _ => p
  end.

(** The discard of a result that is out of date. *)
Definition discard_job (j : Job) (out : Outcome) (p : Player) : Player :=
  match cj_kind j, out with
  | JobLoad _ _, OutLoaded _ _ _ =>
    match loadInFlight p, c_primaryStream (ctl p) with
    | false, None => command PlayerStop p
    | _, _ => p
    end
  | _, _ => p
  end.

Definition outcome_error (out : Outcome) : option error := match out with OutError er => Some er | _ => None end.

(** A result taken off the lane's channel. *)
Definition handle_result (cfg : Config) (e : Env) (id : nat) (out : Outcome) (p : Player) : Player :=
  match r_jobs (rest p) !! id with
  | None => p
  | Some j =>
    let res := MkResult (cj_class j) (cj_gen j) (outcome_error out)
                 (Some (fun p _ => commit_job cfg e j out p)) true in
    let '(p, _, discarded) := applyLoaderResult (handlePlayerEvent cfg e) p res in
    if (discarded : bool) then discard_job j out p else p
  end.

(** ** Commands of other devices *)

(** A cluster update; [named] tells whether it names this device active. *)
Definition handleCluster (cfg : Config) (e : Env) (named : bool) (timestamp : Z) (p : Player) : Player :=
  let p := if c_active (ctl p) then p else upd (set_lastClusterTimestamp timestamp) p in
  if c_active (ctl p) && negb named && bool_decide (c_activationTimestamp (ctl p) < timestamp)
  then stopPlayback cfg e p else p.

Definition apply_overrides (o : option Overrides) (s : PlayerState) : PlayerState :=
  match o with
  | None => s
  | Some o => set_RepeatingContext (ov_repeatContext o)
                (set_RepeatingTrack (ov_repeatTrack o) (set_ShufflingContext (ov_shuffle o) s))
  end.

Definition playContext (e : Env) (cx : SpotContextRef) (override : option Overrides) (skipTo : SkipTo) (paused : bool)
    (p : Player) : Player :=
  loadContext e cx skipTo paused true ThenLog
    (upd_state (apply_overrides override) (upd (takeOver (e_now e)) p)).

Definition seekTo (e : Env) (relative : string) (position : Z) (value : JsonValue) (p : Player) : Player * option error :=
  let go position := match seek e position p with
                     | (p, Some er) => (p, Some (EWrap "failed seeking stream" er))
                     | (p, None) => (p, None)
                     end in
  if decide (relative = "current") then go (e_position e + position)
  else if decide (relative = "beginning") then go position
  else if decide (relative = "") then match value with JNumber n => go n | _ => (p, None) end
  else (p, None).

(** [req.Command.Value.(bool)]. *)
Definition with_bool (v : JsonValue) (p : Player) (f : bool -> Player) : Player :=
  match v with JBool b => f b | _ => crash_with (Panicked "interface conversion") p end.

(** One entry of the modes that change. *)
Definition set_mode (mode value : string) (acc : gmap string string * bool) : gmap string string * bool :=
  if decide (default "" (acc.1 !! mode) = value) then acc else (<[mode := value]> acc.1, true).

Definition setModes (modes : gmap string string) (p : Player) : Player :=
  let '(m, changed) := map_fold set_mode (ps_Modes (state p), false) modes in
  if (changed : bool) then do_updateState (upd_state (set_Modes m) p) else p.

Definition setSleepTimer (e : Env) (t : SleepCommand) (p : Player) : Player :=
  let p := upd (fun c => set_sleepAtEndOfTrack false (set_sleepTimer None c)) p in
  let p :=
    match t with
    | SleepDuration d =>
      if decide (0 < d) then
        upd_state (set_SleepTimer (Some (SleepTimerTimestamp (e_now e + 1000 * d))))
          (upd (set_sleepTimer (Some (e_now e + 1000 * d))) p)
      else upd_state (set_SleepTimer None) p
    | SleepEndOfTrack =>
      upd_state (set_SleepTimer (Some SleepTimerEndOfTrack)) (upd (set_sleepAtEndOfTrack true) p)
    | SleepClear => upd_state (set_SleepTimer None) p
    end in
  do_updateState p.

Definition handlePlayerCommand (cfg : Config) (e : Env) (cmd : DealerCommand) (p : Player) : Player * option error :=
  match cmd with
  | CmdTransfer data restoreTrack restorePaused retainSession =>
    transferCommand e data restoreTrack restorePaused retainSession p
  | CmdPlay cx override skipTo paused => (playContext e cx override skipTo paused p, None)
  | CmdPause => pause e p
  | CmdResume => play e p
  | CmdSeekTo relative position value => seekTo e relative position value p
  | CmdSkipPrev allowSeeking => skipPrev cfg e allowSeeking p
  | CmdSkipNext track => skipNext cfg e track p
  | CmdUpdateContext uri => if decide (uri <> ps_ContextUri (state p)) then (p, None) else (do_updateState p, None)
  | CmdSetRepeatingContext v => (with_bool v p (fun b => setOptions e (Some b) None None p), None)
  | CmdSetRepeatingTrack v => (with_bool v p (fun b => setOptions e None (Some b) None p), None)
  | CmdSetShufflingContext v => (with_bool v p (fun b => setOptions e None None (Some b) p), None)
  | CmdSetOptions rc rt sc modes => (setModes modes (setOptions e rc rt sc p), None)
  | CmdSetQueue prev next => (setQueue prev next p, None)
  | CmdAddToQueue track => (addToQueue track p, None)
  | CmdSetSleepTimer t => (setSleepTimer e t p, None)
  | CmdUnsupported _ => (p, Some (EMsg "unsupported player command"))
  end.

(** ** Requests of the API *)
Definition uri_track (uri : string) : ContextTrack := MkContextTrack uri "" [] None.

(** The uri to skip to is parsed at once; one that does not parse is only logged. *)
Definition apiPlay (data : ApiPlay) (p : Player) : Player :=
  let go := submit_job (JobResolve data) 0 (bumpLoadGen p) in
  if decide (ap_SkipToUri data = "") then go
  else
    match SpotifyIdFromUri (ap_SkipToUri data) with
    | Ret _ => go
    | Panic why => crash_with (Panicked why) p
    | OutOfFuel => crash_with NoFuel p
    end.

Definition handleApiRequest (cfg : Config) (e : Env) (req : ApiRequest) (p : Player) : Player :=
  match req with
  | ReqResume => (play e p).1
  | ReqPause => (pause e p).1
  | ReqStop => stopPlayback cfg e p
  | ReqPlayPause => if ps_IsPaused (state p) then (play e p).1 else (pause e p).1
  | ReqSeek position relative => (seek e (if relative then e_position e + position else position) p).1
  | ReqPrev => (skipPrev cfg e true p).1
  | ReqNext uri => (skipNext cfg e (uri_track <$> uri) p).1
  | ReqPlay data => apiPlay data p
  | ReqSetRepeatingContext v => setOptions e (Some v) None None p
  | ReqSetRepeatingTrack v => setOptions e None (Some v) None p
  | ReqSetShufflingContext v => setOptions e None None (Some v) p
  | ReqAddToQueue uri => addToQueue (uri_track uri) p
  end.

(** ** Requests of the desktop *)

(** [strings.Join(strings.Split(path, "/")[3:], ":")]. *)
Definition path_uri (path : string) : run string :=
  let parts := split_on "/"%char path in
  if decide (zlen parts < 3) then Panic "slice bounds out of range"
  else Ret (String.concat ":" (drop 3 parts)).

Definition set_loop (e : Env) (status : LoopStatus) (p : Player) : Player :=
  match status with
  | LoopNone => setOptions e (Some false) (Some false) None p
  | LoopPlaylist => setOptions e (Some true) (Some false) None p
  | LoopTrack => setOptions e (Some true) (Some true) None p
  | LoopInvalid => p
  end.

(** Integer division rounds towards zero. *)
Definition setPosition (e : Env) (validPath : bool) (path : string) (positionUs : Z) (p : Player)
  : Player * option error :=
  if validPath then
    with_run (path_uri path) p (fun uri =>
      if decide (uri <> track_uri_of p) then (p, Some (EMsg "seek tries to jump to different uri"))
      else seek e (positionUs `quot` 1000) p)
  else seek e (positionUs `quot` 1000) p.

Definition handleMprisEvent (cfg : Config) (e : Env) (req : MprisCommand) (p : Player) : Player * option error :=
  match req with
  | MprisNext => skipNext cfg e None p
  | MprisPrevious => skipPrev cfg e true p
  | MprisPlay => play e p
  | MprisPause => pause e p
  | MprisPlayPause => if ps_IsPaused (state p) then play e p else pause e p
  | MprisStop => (stopPlayback cfg e p, None)
  | MprisLoopStatus status => (set_loop e status p, None)
  | MprisShuffle v => (setOptions e None None (Some v) p, None)
  | MprisSetPosition validPath path positionUs => setPosition e validPath path positionUs p
  | MprisSeek offsetUs => seek e (e_position e + offsetUs `quot` 1000) p
  | MprisUnimplemented => (p, Some (EMsg "unimplemented mpris event"))
  end.

(** ** The loop *)
Inductive LoopEvent :=
| EvCommand (cmd : DealerCommand)
| EvApi (req : ApiRequest)
| EvMpris (req : MprisCommand)
| EvCluster (named : bool) (timestamp : Z)
| EvPlayer (ev : Event)
| EvPrefetchTimer
| EvSleepTimer
| EvJobResult (id : nat) (out : Outcome).

Definition handle_event (cfg : Config) (e : Env) (ev : LoopEvent) (p : Player) : Player :=
  match ev with
  | EvCommand cmd => (handlePlayerCommand cfg e cmd p).1
  | EvApi req => handleApiRequest cfg e req p
  | EvMpris req => (handleMprisEvent cfg e req p).1
  | EvCluster named timestamp => handleCluster cfg e named timestamp p
  | EvPlayer ev =>
    let '(p, deferred) := deferPlayerEvent p ev in
    if (deferred : bool) then p else handlePlayerEvent cfg e p ev
  | EvPrefetchTimer => prefetchNext p
  | EvSleepTimer => (pause e (upd_state (set_SleepTimer None) (upd (set_sleepTimer None) p))).1
  | EvJobResult id out => handle_result cfg e id out p
  end.

(** Nothing is handled after a panic. *)
Definition loop_step (cfg : Config) (p : Player) (ev : Env * LoopEvent) : Player :=
  match c_crash (ctl p) with
  | Some _ => p
  | None => handle_event cfg ev.1 ev.2 p
  end.

Definition run_loop (cfg : Config) (evs : list (Env * LoopEvent)) (p : Player) : Player :=
  foldl (loop_step cfg) p evs.

Definition newPlayer : Player := MkPlayer 0 0 false [] (MkRest newLoaderLane [] newCtl).
