(* ===== verification/ControlsProps.v ===== *)
(** * Invariants of the player loop

    How every handler moves the load counter, the jobs stamped with it, the
    count of unplayable tracks and the held events. *)

From stdpp Require Import gmap.
From S2P Require Import Prelude Ids Tracks Loader PlayerState Requests QueueIds Controls Transfer Loop.
#[local] Open Scope string_scope.
#[local] Open Scope list_scope.
#[local] Open Scope Z_scope.

(** The stamps of the jobs that decide what plays, oldest first. *)
Definition decides (j : Job) : bool := loads (cj_class j).
Definition load_gens (p : Player) : list Z := cj_gen <$> filter (fun j => decides j = true) (r_jobs (rest p)).

Definition skips_ok (p : Player) : Prop :=
  0 <= c_consecutiveUnplayableSkips (ctl p) <= maxConsecutiveUnplayableSkips.

(** Leaves the counter and its jobs alone. *)
Record quiet (p p' : Player) : Prop := {
  q_gen : loadGen p' = loadGen p;
  q_gens : load_gens p' = load_gens p;
  q_skips : skips_ok p -> skips_ok p';
  q_held : zlen (pendingPlayerEvents p') <= zlen (pendingPlayerEvents p);
  q_jobs : r_jobs (rest p) `prefix_of` r_jobs (rest p')
}.

(** At most one step of the counter, and at most one job stamped with it. *)
Record moves (p p' : Player) : Prop := {
  m_gens : (loadGen p' = loadGen p /\ load_gens p' = load_gens p) \/
           (loadGen p' = u64 (loadGen p + 1) /\
            (load_gens p' = load_gens p \/ load_gens p' = load_gens p ++ [loadGen p']));
  m_skips : skips_ok p -> skips_ok p';
  m_held : zlen (pendingPlayerEvents p') <= zlen (pendingPlayerEvents p);
  m_jobs : r_jobs (rest p) `prefix_of` r_jobs (rest p')
}.

Lemma quiet_refl p : quiet p p.
Proof. by split. Qed.

Lemma quiet_trans p1 p2 p3 : quiet p1 p2 -> quiet p2 p3 -> quiet p1 p3.
Proof. intros [] []; split; try congruence; try lia; auto; by etrans. Qed.

Lemma quiet_moves p p' : quiet p p' -> moves p p'.
Proof. intros []; split; auto. Qed.

Lemma quiet_then_moves p1 p2 p3 : quiet p1 p2 -> moves p2 p3 -> moves p1 p3.
Proof.
  intros [Hg Hgs Hs Hh Hj] [Hm Hs' Hh' Hj']; split; [|auto|lia|by etrans].
  by rewrite Hg, Hgs in Hm.
Qed.

Lemma moves_then_quiet p1 p2 p3 : moves p1 p2 -> quiet p2 p3 -> moves p1 p3.
Proof.
  intros [Hm Hs' Hh' Hj'] [Hg Hgs Hs Hh Hj]; split; [|auto|lia|by etrans].
  by rewrite Hg, Hgs.
Qed.

(** ** The primitives *)
Lemma quiet_upd f p :
  c_consecutiveUnplayableSkips (f (ctl p)) = c_consecutiveUnplayableSkips (ctl p) -> quiet p (upd f p).
Proof. intros Hf; split; try done; unfold skips_ok; change (ctl (upd f p)) with (f (ctl p)); by rewrite Hf. Qed.

Lemma quiet_upd_state f p : quiet p (upd_state f p).
Proof. by apply quiet_upd. Qed.

Lemma quiet_effect ef p : quiet p (do_effect ef p).
Proof. by apply quiet_upd. Qed.

Lemma quiet_bumpPrefetch p : quiet p (bumpPrefetchGen p).
Proof. by split. Qed.

Lemma quiet_inFlight v p : quiet p (set_loadInFlight v p).
Proof. by split. Qed.

Lemma load_gens_submit k notBefore p :
  load_gens (submit_job k notBefore p) =
    load_gens p ++ (if loads (job_kind_class k) then [generation p (job_kind_class k)] else []).
Proof.
  unfold load_gens, submit_job, set_rest; cbn; rewrite filter_app, fmap_app; f_equal.
  rewrite filter_cons, filter_nil; unfold decides, cj_class; cbn.
  destruct (loads (job_kind_class k)); [by rewrite decide_True | by rewrite decide_False].
Qed.

Lemma quiet_submit k notBefore p : loads (job_kind_class k) = false -> quiet p (submit_job k notBefore p).
Proof. intros Hk; split; try done; [by rewrite load_gens_submit, Hk, app_nil_r | by apply prefix_app_r]. Qed.

(** A counter step and the job stamped with it, with quiet steps in between. *)
Lemma moves_submit k notBefore p p1 :
  loads (job_kind_class k) = true -> quiet (bumpLoadGen p) p1 -> moves p (submit_job k notBefore p1).
Proof.
  intros Hk [Hg Hgs Hs Hh Hj]; split; [|done|done|by apply prefix_app_r].
  right; split; [done|]; right; rewrite load_gens_submit, Hk, Hgs; f_equal; f_equal.
  unfold generation; destruct (decide (job_kind_class k = classPrefetch)) as [Heq|]; [by rewrite Heq in Hk|done].
Qed.

Create HintDb quiet.
#[export] Hint Resolve quiet_refl quiet_upd_state quiet_effect quiet_bumpPrefetch quiet_inFlight : quiet.

(** Peel the outermost primitive of the target state. *)
Ltac quiet_step :=
  lazymatch goal with
  | |- quiet ?p ?p => apply quiet_refl
  | |- quiet _ (upd_state _ _) => eapply quiet_trans; [|apply quiet_upd_state]
  | |- quiet _ (upd _ _) => eapply quiet_trans; [|apply quiet_upd; reflexivity]
  | |- quiet _ (do_effect _ _) => eapply quiet_trans; [|apply quiet_effect]
  | |- quiet _ (emit _ _) => eapply quiet_trans; [|apply quiet_effect]
  | |- quiet _ (command _ _) => eapply quiet_trans; [|apply quiet_effect]
  | |- quiet _ (do_updateState _) => eapply quiet_trans; [|apply quiet_effect]
  | |- quiet _ (do_flushState _) => eapply quiet_trans; [|apply quiet_effect]
  | |- quiet _ (crash_with _ _) => eapply quiet_trans; [|apply quiet_upd; reflexivity]
  | |- quiet _ (bumpPrefetchGen _) => eapply quiet_trans; [|apply quiet_bumpPrefetch]
  | |- quiet _ (set_loadInFlight _ _) => eapply quiet_trans; [|apply quiet_inFlight]
  | |- quiet _ (submit_job _ _ _) => eapply quiet_trans; [|apply quiet_submit; reflexivity]
  | |- quiet _ (match ?x with _ => _ end) => destruct x eqn:?
  | |- quiet _ (let '(_, _) := ?x in _) => destruct x eqn:?
  end.
Ltac quiet := repeat quiet_step; try apply quiet_refl; auto with quiet.

(** ** The quiet helpers *)
Lemma quiet_clearUpcoming p : quiet p (clearUpcoming p).
Proof. unfold clearUpcoming; quiet. Qed.
Lemma quiet_invalidateUpcoming p : quiet p (invalidateUpcoming p).
Proof. unfold invalidateUpcoming; eapply quiet_trans; [|apply quiet_clearUpcoming]; quiet. Qed.
Lemma quiet_publishUpcoming snap p : quiet p (publishUpcoming snap p).
Proof. unfold publishUpcoming; quiet. Qed.
Lemma quiet_publishSnapshot snap p : quiet p (publishSnapshot snap p).
Proof. unfold publishSnapshot; eapply quiet_trans; [|apply quiet_publishUpcoming]; quiet. Qed.
Lemma quiet_schedulePrefetchNext e p : quiet p (schedulePrefetchNext e p).
Proof. unfold schedulePrefetchNext; quiet. Qed.
Lemma quiet_submitPrefetch uri p : quiet p (submitPrefetch uri p).
Proof. unfold submitPrefetch; quiet. Qed.
Lemma quiet_prefetchNext p : quiet p (prefetchNext p).
Proof. unfold prefetchNext; quiet; apply quiet_submitPrefetch. Qed.
Lemma quiet_commitPrefetch s src p : quiet p (commitPrefetch s src p).
Proof. unfold commitPrefetch; quiet. Qed.
Lemma quiet_reportResumePosition s pos p : quiet p (reportResumePosition s pos p).
Proof. unfold reportResumePosition; quiet. Qed.
Lemma quiet_reportResumeFinished s p : quiet p (reportResumeFinished s p).
Proof. unfold reportResumeFinished; quiet. Qed.
Lemma quiet_emitPlaybackError stage uri err p : quiet p (emitPlaybackError stage uri err p).
Proof. unfold emitPlaybackError; quiet. Qed.
Lemma quiet_unload_primary e p : quiet p (unload_primary e p).
Proof. unfold unload_primary; quiet; apply quiet_reportResumePosition. Qed.
Lemma quiet_plan_changed e p : quiet p (plan_changed e p).
Proof.
  unfold plan_changed; quiet_step; eapply quiet_trans; [|apply quiet_schedulePrefetchNext].
  apply quiet_invalidateUpcoming.
Qed.

#[export] Hint Resolve quiet_clearUpcoming quiet_invalidateUpcoming quiet_publishUpcoming quiet_publishSnapshot
  quiet_schedulePrefetchNext quiet_submitPrefetch quiet_prefetchNext quiet_commitPrefetch
  quiet_reportResumePosition quiet_reportResumeFinished quiet_emitPlaybackError quiet_unload_primary
  quiet_plan_changed : quiet.

(** Peel a helper, as [quiet_step] peels a primitive. *)
Ltac quiet_helper :=
  lazymatch goal with
  | |- quiet _ (clearUpcoming _) => eapply quiet_trans; [|apply quiet_clearUpcoming]
  | |- quiet _ (invalidateUpcoming _) => eapply quiet_trans; [|apply quiet_invalidateUpcoming]
  | |- quiet _ (publishUpcoming _ _) => eapply quiet_trans; [|apply quiet_publishUpcoming]
  | |- quiet _ (publishSnapshot _ _) => eapply quiet_trans; [|apply quiet_publishSnapshot]
  | |- quiet _ (schedulePrefetchNext _ _) => eapply quiet_trans; [|apply quiet_schedulePrefetchNext]
  | |- quiet _ (reportResumePosition _ _ _) => eapply quiet_trans; [|apply quiet_reportResumePosition]
  | |- quiet _ (reportResumeFinished _ _) => eapply quiet_trans; [|apply quiet_reportResumeFinished]
  | |- quiet _ (emitPlaybackError _ _ _ _) => eapply quiet_trans; [|apply quiet_emitPlaybackError]
  | |- quiet _ (plan_changed _ _) => eapply quiet_trans; [|apply quiet_plan_changed]
  end.
Ltac quietly := repeat (quiet_step || quiet_helper); try apply quiet_refl; auto with quiet.

(** ** Playback *)
Lemma quiet_play e p : quiet p (play e p).1.
Proof. unfold play; repeat case_match; cbn [fst]; quietly. Qed.

Lemma quiet_pause e p : quiet p (pause e p).1.
Proof. unfold pause; repeat case_match; cbn [fst]; quietly. Qed.

Lemma quiet_seek e pos p : quiet p (seek e pos p).1.
Proof. unfold seek; repeat case_match; cbn [fst]; quietly. Qed.

Lemma quiet_start_at e pos paused p : quiet p (start_at e pos paused p).
Proof.
  unfold start_at; case_decide; [apply quiet_refl|]; cbv zeta.
  destruct paused; [apply quiet_seek | eapply quiet_trans; [apply quiet_seek | apply quiet_play]].
Qed.

#[export] Hint Resolve quiet_play quiet_pause quiet_seek quiet_start_at : quiet.

(** ** The handlers that may load *)
Section handlers.
Context (cfg : Config) (e : Env).
Context (call_then : Then -> option error -> Player -> Player).
Context (call_next : ThenNext -> bool -> option error -> Player -> Player).
Hypothesis then_moves : forall k err p, moves p (call_then k err p).
Hypothesis next_moves : forall k b err p, moves p (call_next k b err p).

Lemma moves_start_load id uri paused drop resume delay k p :
  moves p (start_load e id uri paused drop resume delay k p).
Proof.
  unfold start_load; cbv zeta.
  match goal with |- moves _ (submit_job _ _ ?q) => set (p1 := q) end.
  eapply (quiet_then_moves _ (emit (ApiWillPlay uri) (do_updateState (upd_state (announce_load (e_now e) paused) p)))).
  { quiet. }
  apply moves_submit; [done|]; unfold p1; quiet.
Qed.

Lemma moves_loadCurrentTrack paused drop resume delay k p :
  moves p (loadCurrentTrack call_then e paused drop resume delay k p).
Proof.
  unfold loadCurrentTrack; cbv zeta; eapply quiet_then_moves; [apply quiet_unload_primary|].
  repeat case_match; auto using moves_start_load; apply quiet_moves; quiet.
Qed.

Lemma moves_loadContext cx skipTo paused drop k p : moves p (loadContext e cx skipTo paused drop k p).
Proof.
  unfold loadContext; cbv zeta.
  eapply (quiet_then_moves _ (do_updateState (upd_state (claim_context e cx paused) p))); [quiet|].
  apply moves_submit; [done | apply quiet_refl].
Qed.

Lemma moves_startAutoplay seed drop k p : moves p (startAutoplay call_next seed drop k p).
Proof. unfold startAutoplay; destruct seed; [done|]; apply moves_submit; [done | apply quiet_refl]. Qed.

Lemma moves_advanceTo hasNext seed drop delay k p :
  moves p (advanceTo cfg call_then call_next e hasNext seed drop delay k p).
Proof.
  unfold advanceTo; cbv zeta; eapply quiet_then_moves; [apply quiet_upd_state|].
  case_match; [apply moves_startAutoplay|].
  eapply quiet_then_moves; [|apply moves_loadCurrentTrack]; quiet.
Qed.

Lemma moves_advanceNext forceNext drop delay k p :
  moves p (advanceNext cfg call_then call_next e forceNext drop delay k p).
Proof.
  unfold advanceNext; repeat case_match.
  - eapply quiet_then_moves; [|apply moves_advanceTo]; quiet.
  - apply moves_submit; [done | apply quiet_refl].
  - apply moves_advanceTo.
Qed.

Lemma quiet_reset_skips p : quiet p (upd (set_consecutiveUnplayableSkips 0) p).
Proof. split; try done; intros _; unfold skips_ok, maxConsecutiveUnplayableSkips; cbn; lia. Qed.

Lemma moves_after_advance hasNext drop k err p :
  moves p (after_advance cfg call_then call_next e hasNext drop k err p).
Proof.
  unfold after_advance; destruct err as [er|]; [|eapply quiet_then_moves; [apply quiet_reset_skips | done]].
  destruct (negb (isUnplayableMedia er)); [eapply quiet_then_moves; [apply quiet_reset_skips | done]|].
  cbv zeta; match goal with |- context [upd ?f p] => set (p1 := upd f p) end.
  destruct (decide (maxConsecutiveUnplayableSkips < _)) as [Hlt|Hle].
  - eapply quiet_then_moves; [|done]; split; try done.
  - eapply quiet_then_moves; [|apply moves_advanceNext]; split; try done.
    unfold skips_ok; intros [H0 _]; revert Hle; unfold p1; cbn; unfold ctl in *; lia.
Qed.
End handlers.

Lemma moves_call cfg e fuel :
  (forall k err p, moves p (call_then cfg e fuel k err p)) /\
  (forall k b err p, moves p (call_next cfg e fuel k b err p)).
Proof.
  induction fuel as [|fuel [IHt IHn]]; split; intros k; cbn [call_then call_next];
    try (intros; apply quiet_moves; quiet; fail).
  - destruct k as [|k|drop k|hn drop k|k|pos paused]; intros err p; auto.
    + apply quiet_moves, quiet_refl.
    + destruct err as [er|]; [|auto]; destruct (isUnplayableMedia er); [|auto].
      by apply moves_advanceNext.
    + by apply moves_after_advance.
    + apply quiet_moves; destruct err; auto with quiet.
  - destruct k as [|k]; intros b err p; [|auto]; apply quiet_moves; quiet.
Qed.

Definition moves_call_then cfg e fuel := proj1 (moves_call cfg e fuel).
Definition moves_call_next cfg e fuel := proj2 (moves_call cfg e fuel).

Create HintDb moves.
#[export] Hint Resolve moves_call_then moves_call_next moves_loadContext quiet_moves : moves.
#[export] Hint Resolve moves_loadCurrentTrack moves_advanceTo moves_advanceNext : moves.

Lemma moves_run_then cfg e k err p : moves p (run_then cfg e k err p).
Proof. apply moves_call_then. Qed.
Lemma moves_run_next cfg e k b err p : moves p (run_next cfg e k b err p).
Proof. apply moves_call_next. Qed.
Lemma moves_run_loadCurrentTrack cfg e paused drop resume delay k p :
  moves p (run_loadCurrentTrack cfg e paused drop resume delay k p).
Proof. unfold run_loadCurrentTrack; auto with moves. Qed.
Lemma moves_run_advanceNext cfg e forceNext drop delay k p :
  moves p (run_advanceNext cfg e forceNext drop delay k p).
Proof. unfold run_advanceNext; auto with moves. Qed.
Lemma moves_run_advanceTo cfg e hasNext seed drop delay k p :
  moves p (run_advanceTo cfg e hasNext seed drop delay k p).
Proof. unfold run_advanceTo; auto with moves. Qed.

#[export] Hint Resolve moves_run_then moves_run_next moves_run_loadCurrentTrack moves_run_advanceNext
  moves_run_advanceTo : moves.

(** ** The remaining handlers *)
Lemma quiet_setOptions e rc rt sc p : quiet p (setOptions e rc rt sc p).
Proof.
  unfold setOptions; repeat case_match; simplify_eq; repeat case_match; simplify_eq; quietly.
Qed.

Lemma quiet_addToQueue t p : quiet p (addToQueue t p).
Proof. unfold addToQueue; repeat case_match; cbv zeta; quietly. Qed.

Lemma quiet_setQueue prev next p : quiet p (setQueue prev next p).
Proof. unfold setQueue; repeat case_match; quietly. Qed.

Lemma quiet_setSleepTimer e t p : quiet p (setSleepTimer e t p).
Proof. unfold setSleepTimer; cbv zeta; quietly. Qed.

Lemma quiet_abandonTransfer e p : quiet p (abandonTransfer e p).
Proof. unfold abandonTransfer; cbv zeta; quietly. Qed.

Lemma quiet_commitLoad e s paused pos p : quiet p (commitLoad e s paused pos p).
Proof. unfold commitLoad; cbv zeta; quietly. Qed.

Lemma quiet_forget p gen : quiet p (forgetReplacedStreamEvents p gen).
Proof. split; try done; cbn; unfold zlen; apply inj_le, length_filter. Qed.

#[export] Hint Resolve quiet_setOptions quiet_addToQueue quiet_setQueue
  quiet_setSleepTimer quiet_abandonTransfer quiet_commitLoad quiet_forget : quiet.

Lemma moves_skipPrev cfg e allow p : moves p (skipPrev cfg e allow p).1.
Proof.
  unfold skipPrev, noteSkip; case_match; [auto with moves quiet|]; case_match; cbn [fst]; [|auto with moves quiet].
  eapply quiet_then_moves; [|apply moves_submit; [done | apply quiet_refl]]; quietly.
Qed.

Lemma moves_skipNext cfg e t p : moves p (skipNext cfg e t p).1.
Proof.
  unfold skipNext, noteSkip; case_match; [|cbn [fst]; eapply quiet_then_moves; [|apply moves_run_advanceNext]; quietly].
  case_match; cbn [fst]; [|apply quiet_moves; quietly].
  eapply quiet_then_moves; [|apply moves_submit; [done | apply quiet_refl]]; quietly.
Qed.

Lemma moves_stopPlayback cfg e p : moves p (stopPlayback cfg e p) /\ loadGen (stopPlayback cfg e p) = u64 (loadGen p + 1).
Proof.
  unfold stopPlayback; cbv zeta.
  set (p1 := MkPlayer _ _ false [] _).
  assert (moves p p1) as Hm.
  { split; [right; split; [done | by left] | done | cbn; apply zlen_nonneg | done]. }
  assert (forall q, quiet p1 q -> moves p q /\ loadGen q = u64 (loadGen p + 1)) as Hq.
  { intros q Hq; split; [by eapply moves_then_quiet | by rewrite (q_gen _ _ Hq)]. }
  apply Hq; quietly.
Qed.

Lemma moves_handlePlayerEvent cfg e p ev : moves p (handlePlayerEvent cfg e p ev).
Proof.
  unfold handlePlayerEvent; cbv zeta; destruct (ev_Type ev); try (apply quiet_moves; quietly; fail).
  case_match.
  - apply quiet_moves; eapply quiet_trans; [|apply quiet_pause]; quietly.
  - eapply quiet_then_moves; [|apply moves_run_advanceNext]; quietly.
Qed.

Lemma moves_commit_skip cfg e delay snap p : moves p (commit_skip cfg e delay snap p).
Proof. unfold commit_skip; cbv zeta; eapply quiet_then_moves; [|apply moves_run_loadCurrentTrack]; quietly. Qed.

Lemma quiet_commit_loaded e o s gen resumed p : quiet p (commit_loaded e o s gen resumed p).
Proof.
  unfold commit_loaded; cbv zeta; eapply quiet_trans; [apply quiet_forget | apply quiet_commitLoad].
Qed.

Lemma quiet_setActive now v p : quiet p (upd (setActive now v) p).
Proof. apply quiet_upd; unfold setActive; repeat case_match; reflexivity. Qed.

Lemma quiet_takeOver now p : quiet p (upd (takeOver now) p).
Proof. apply quiet_upd; unfold takeOver, setActive; repeat case_match; reflexivity. Qed.

Lemma moves_run_loadCurrentTrackOrSkip cfg e paused drop resume k p :
  moves p (run_loadCurrentTrackOrSkip cfg e paused drop resume k p).
Proof. unfold run_loadCurrentTrackOrSkip, loadCurrentTrackOrSkip; auto with moves. Qed.

Lemma moves_commit_resolve e data cx p : moves p (commit_resolve e data cx p).
Proof.
  unfold commit_resolve; cbv zeta; eapply quiet_then_moves; [|apply moves_loadContext].
  eapply quiet_trans; [apply quiet_takeOver | apply quiet_upd_state].
Qed.

Lemma quiet_continuePlayback e pb paused p : quiet p (continuePlayback e pb paused p).
Proof.
  unfold continuePlayback; cbv zeta; set (p1 := if decide _ then _ else _).
  assert (quiet p p1) as H1.
  { eapply quiet_trans; [apply quiet_invalidateUpcoming|]; unfold p1; case_decide; auto with quiet. }
  set (p2 := upd_state _ p1); assert (quiet p p2) as H2 by (eapply quiet_trans; [exact H1 | apply quiet_upd_state]).
  repeat case_match; eapply quiet_trans; try exact H2; auto with quiet; quietly.
Qed.

Lemma moves_commit_transfer cfg e ts paused continuation stream l snap fallback p :
  moves p (commit_transfer cfg e ts paused continuation stream l snap fallback p).
Proof.
  unfold commit_transfer; cbv zeta; set (p1 := publishSnapshot snap _).
  assert (quiet p p1) as H1 by (unfold p1; quietly).
  case_match; [apply quiet_moves; eapply quiet_trans; [exact H1 | apply quiet_continuePlayback]|].
  eapply quiet_then_moves; [exact H1 | apply moves_run_loadCurrentTrackOrSkip].
Qed.

Lemma quiet_fail_transfer e continuation p : quiet p (fail_transfer e continuation p).
Proof. unfold fail_transfer; destruct continuation; auto with quiet. Qed.

#[export] Hint Resolve quiet_setActive quiet_takeOver quiet_continuePlayback quiet_fail_transfer : quiet.
#[export] Hint Resolve moves_run_loadCurrentTrackOrSkip moves_commit_resolve moves_commit_transfer : moves.

Lemma moves_commit_job cfg e j out p : moves p (commit_job cfg e j out p).
Proof.
  unfold commit_job, list_commit, commit_edit; destruct (cj_kind j), out; repeat case_match; simplify_eq;
    try (apply quiet_moves; quietly; fail); auto using moves_commit_skip with moves quiet.
  - eapply quiet_then_moves; [|apply moves_run_then]; quietly.
  - eapply quiet_then_moves; [apply quiet_commit_loaded | apply moves_run_then].
  - eapply quiet_then_moves; [|apply moves_run_loadCurrentTrackOrSkip]; quietly.
  - eapply quiet_then_moves; [|apply moves_run_advanceTo]; quietly.
Qed.

Lemma quiet_discard_job j out p : quiet p (discard_job j out p).
Proof. unfold discard_job; repeat case_match; quietly. Qed.

(** ** The invariant of a run

    [n] bounds the steps the counter has made. *)
Definition increasing (l : list Z) : Prop :=
  forall i j a b, (i < j)%nat -> l !! i = Some a -> l !! j = Some b -> a < b.

Record loop_inv (n : Z) (p : Player) : Prop := {
  li_gen : 0 <= loadGen p <= n;
  li_gens : Forall (fun g => g <= loadGen p) (load_gens p);
  li_order : increasing (load_gens p);
  li_skips : skips_ok p
}.

Lemma increasing_snoc l x : increasing l -> Forall (fun g => g < x) l -> increasing (l ++ [x]).
Proof.
  intros Hl Hx i j a b Hij Ha Hb; rewrite lookup_app in Hb; destruct (l !! j) as [b'|] eqn:Hj.
  - injection Hb as ->; assert (i < length l)%nat as Hi by (apply lookup_lt_Some in Hj; lia).
    rewrite lookup_app_l in Ha by done; exact (Hl i j a b Hij Ha Hj).
  - apply list_lookup_singleton_Some in Hb as [Hlen <-].
    apply lookup_ge_None in Hj; assert (i < length l)%nat by lia.
    rewrite lookup_app_l in Ha by done; exact (proj1 (Forall_lookup _ _) Hx i a Ha).
Qed.

Lemma loop_inv_moves n p p' : loop_inv n p -> n + 1 < 2 ^ 64 -> moves p p' -> loop_inv (n + 1) p'.
Proof.
  intros [Hg Hgs Hord Hs] Hn [Hm Hs' _ _].
  destruct Hm as [[Heq Hgs']|[Heq Hgs']].
  - split; [rewrite Heq; lia | by rewrite Heq, Hgs' | by rewrite Hgs' | auto].
  - assert (loadGen p' = loadGen p + 1) as Hnew by (rewrite Heq; unfold u64; apply wrap_small; lia).
    assert (Forall (fun g => g < loadGen p') (load_gens p)) as Hlt
      by (eapply Forall_impl; [exact Hgs|]; cbn; intros; lia).
    destruct Hgs' as [Hgs'|Hgs'].
    + split; [lia | rewrite Hgs'; eapply Forall_impl; [exact Hlt|]; cbn; intros; lia | by rewrite Hgs' | auto].
    + split; [lia | | rewrite Hgs'; by apply increasing_snoc | auto].
      rewrite Hgs'; apply Forall_app; split; [eapply Forall_impl; [exact Hlt|]; cbn; intros; lia|].
      constructor; [lia | constructor].
Qed.

Lemma loop_inv_quiet n p p' : loop_inv n p -> quiet p p' -> loop_inv n p'.
Proof.
  intros [Hg Hgs Hord Hs] [Hqg Hqs Hqk _ _]; split; [by rewrite Hqg | by rewrite Hqg, Hqs | by rewrite Hqs | auto].
Qed.

Lemma loop_inv_weaken n m p : loop_inv n p -> n <= m -> loop_inv m p.
Proof. intros [] ?; split; auto; lia. Qed.

(** Held events never exceed their bound, so a result makes at most one step
    for itself and one for each event it releases. *)
Definition held_ok (p : Player) : Prop := zlen (pendingPlayerEvents p) <= maxPendingPlayerEvents.

Definition steps_per_event : Z := 1 + maxPendingPlayerEvents.

(** [m] counter steps lead from [p] to [p']. *)
Definition within (m : Z) (p p' : Player) : Prop :=
  r_jobs (rest p) `prefix_of` r_jobs (rest p') /\
  forall n, loop_inv n p -> n + m < 2 ^ 64 -> loop_inv (n + m) p' /\ loadGen p <= loadGen p'.

Lemma within_quiet p p' : quiet p p' -> within 0 p p'.
Proof.
  intros Hq; split; [apply Hq|]; intros n Hinv _; rewrite Z.add_0_r; split; [by eapply loop_inv_quiet|].
  by rewrite (q_gen _ _ Hq).
Qed.

Lemma within_moves p p' : moves p p' -> within 1 p p'.
Proof.
  intros Hm; split; [apply Hm|]; intros n Hinv Hb; split; [by eapply loop_inv_moves|].
  destruct Hm as [Hg _ _ _], Hinv as [Hn _ _ _].
  destruct Hg as [[-> _]|[-> _]]; [done|]; unfold u64; rewrite wrap_small; lia.
Qed.

Lemma within_trans m1 m2 p1 p2 p3 : 0 <= m2 -> within m1 p1 p2 -> within m2 p2 p3 -> within (m1 + m2) p1 p3.
Proof.
  intros Hm [Hj1 H1] [Hj2 H2]; split; [by etrans|]; intros n Hinv Hb.
  destruct (H1 n Hinv) as [Hinv2 Hle1]; [lia|]; destruct (H2 (n + m1) Hinv2) as [Hinv3 Hle2]; [lia|].
  rewrite Z.add_assoc; split; [done | lia].
Qed.

Lemma within_weaken m m' p p' : m <= m' -> within m p p' -> within m' p p'.
Proof.
  intros Hm [Hj H]; split; [done|]; intros n Hinv Hb; destruct (H n Hinv) as [Hi Hl]; [lia|].
  split; [|done]; eapply loop_inv_weaken; [exact Hi | lia].
Qed.

Lemma within_drain cfg e evs p :
  within (zlen evs) p (foldl (handlePlayerEvent cfg e) p evs) /\
  zlen (pendingPlayerEvents (foldl (handlePlayerEvent cfg e) p evs)) <= zlen (pendingPlayerEvents p).
Proof.
  revert p; induction evs as [|ev evs IH]; intros p; cbn [foldl].
  - split; [apply within_quiet, quiet_refl | lia].
  - pose proof (moves_handlePlayerEvent cfg e p ev) as Hm; destruct (IH (handlePlayerEvent cfg e p ev)) as [Hw Hh].
    rewrite zlen_cons; split; [|pose proof (m_held _ _ Hm); lia].
    eapply within_trans; [apply zlen_nonneg | by apply within_moves | done].
Qed.

Lemma within_apply cfg e res p p' err d :
  held_ok p -> (forall c, res_commit res = Some c -> forall q er, moves q (c q er)) ->
  applyLoaderResult (handlePlayerEvent cfg e) p res = (p', err, d) ->
  within steps_per_event p p' /\ held_ok p'.
Proof.
  intros Hheld Hc; unfold applyLoaderResult; cbv zeta.
  set (landed := bool_decide (res_class res = classLoad) && bool_decide (res_gen res = loadGen p)).
  set (p1 := if landed then MkPlayer (loadGen p) (prefetchGen p) false (pendingPlayerEvents p) (rest p) else p).
  assert (quiet p p1) as Hq1 by (unfold p1; destruct landed; [by split | apply quiet_refl]).
  match goal with |- (let '(_, _) := ?x in _) = _ -> _ => destruct x as [[p2 er] d2] eqn:E2 end.
  assert (moves p p2) as Hm2.
  { eapply quiet_then_moves; [exact Hq1|]; revert E2; case_match; [intros [= <- _ _]; apply quiet_moves, quiet_refl|].
    destruct (res_commit res) as [c|] eqn:Hcm; intros [= <- _ _]; [by apply Hc | apply quiet_moves, quiet_refl]. }
  assert (held_ok p2) as Hh2 by (unfold held_ok in *; pose proof (m_held _ _ Hm2); lia).
  intros [= <- _ _]; unfold steps_per_event; destruct landed.
  - unfold drainPendingPlayerEvents.
    destruct (within_drain cfg e (pendingPlayerEvents p2)
      (MkPlayer (loadGen p2) (prefetchGen p2) (loadInFlight p2) [] (rest p2))) as [Hw Hh].
    split; [|unfold held_ok, maxPendingPlayerEvents in *; cbn [pendingPlayerEvents] in Hh; change (zlen []) with 0 in Hh; lia].
    eapply within_trans; [done | by apply within_moves|].
    eapply within_weaken; [exact Hh2|]; rewrite <- (Z.add_0_l (zlen _)).
    eapply within_trans; [apply zlen_nonneg | apply within_quiet | exact Hw].
    split; try done; cbn; apply zlen_nonneg.
  - split; [|done]; eapply within_weaken; [|by apply within_moves]; done.
Qed.

Lemma within_handle_result cfg e id out p :
  held_ok p -> within steps_per_event p (handle_result cfg e id out p) /\ held_ok (handle_result cfg e id out p).
Proof.
  intros Hh; unfold handle_result; destruct (r_jobs (rest p) !! id) as [j|].
  2: { split; [|done]; eapply within_weaken; [|apply within_quiet, quiet_refl]; done. }
  destruct (applyLoaderResult _ p _) as [[p' err] d] eqn:E.
  apply within_apply in E as [Hw Hh']; [|done|by intros c [= <-] q er; apply moves_commit_job].
  destruct d; [|done]; pose proof (quiet_discard_job j out p') as Hq; split.
  - rewrite <- (Z.add_0_r steps_per_event); eapply within_trans; [done | exact Hw | by apply within_quiet].
  - unfold held_ok in *; pose proof (q_held _ _ Hq); lia.
Qed.

(** ** Commands and requests *)
Lemma moves_with_run {A B} (m : run A) p (f : A -> Player * option B) :
  (forall a, moves p (f a).1) -> moves p (with_run m p f).1.
Proof. intros Hf; destruct m; cbn [with_run fst]; [apply Hf | apply quiet_moves; quiet ..]. Qed.

Lemma moves_transferContext ts paused continuation p : moves p (transferContext ts paused continuation p).
Proof. unfold transferContext; apply moves_submit; [done | apply quiet_refl]. Qed.

Lemma moves_take_over e ts restorePaused retain p : moves p (take_over e ts restorePaused retain p).1.
Proof.
  unfold take_over, claim_and_load; cbv zeta; apply moves_with_run; intros [|]; [apply moves_transferContext|].
  apply moves_with_run; intros track; cbn [fst].
  eapply quiet_then_moves; [|apply moves_transferContext]; repeat quiet_step; apply quiet_setActive.
Qed.

Lemma moves_transferCommand e data restoreTrack restorePaused retain p :
  moves p (transferCommand e data restoreTrack restorePaused retain p).1.
Proof.
  unfold transferCommand; destruct data as [ts|]; [|cbn [fst]; apply quiet_moves; quiet]; cbv zeta.
  set (p1 := upd _ p); assert (quiet p p1) as H1 by (unfold p1; quiet).
  eapply quiet_then_moves; [exact H1|]; case_match; [|apply moves_take_over].
  apply moves_with_run; intros [cx|]; [apply moves_take_over|]; case_decide; cbn [fst]; apply quiet_moves; [|apply quiet_refl].
  quiet_step; eapply quiet_trans; [apply quiet_setActive | apply quiet_abandonTransfer].
Qed.

Lemma quiet_with_bool v p f : (forall b, quiet p (f b)) -> quiet p (with_bool v p f).
Proof. intros Hf; destruct v; cbn [with_bool]; auto; quiet. Qed.

Lemma quiet_setModes modes p : quiet p (setModes modes p).
Proof. unfold setModes; destruct (map_fold _ _ _) as [m [|]]; quietly. Qed.

Lemma quiet_seekTo e relative position value p : quiet p (seekTo e relative position value p).1.
Proof.
  assert (forall pos, quiet p (match seek e pos p with
    | (p, Some er) => (p, Some (EWrap "failed seeking stream" er)) | (p, None) => (p, None) end).1) as Hgo.
  { intros pos; pose proof (quiet_seek e pos p) as Hq; by destruct (seek e pos p) as [q [er|]]. }
  unfold seekTo; cbv zeta; repeat case_decide; auto using quiet_refl; destruct value; auto using quiet_refl.
Qed.

Lemma moves_playContext e cx override skipTo paused p : moves p (playContext e cx override skipTo paused p).
Proof.
  unfold playContext; eapply quiet_then_moves; [|apply moves_loadContext].
  eapply quiet_trans; [apply quiet_takeOver | apply quiet_upd_state].
Qed.

#[export] Hint Resolve quiet_with_bool quiet_setModes quiet_seekTo : quiet.
#[export] Hint Resolve moves_transferCommand moves_playContext moves_skipPrev moves_skipNext : moves.

Lemma moves_handlePlayerCommand cfg e cmd p : moves p (handlePlayerCommand cfg e cmd p).1.
Proof.
  destruct cmd; cbn [handlePlayerCommand fst]; try case_decide; cbn [fst]; auto with moves quiet.
  - apply quiet_moves; quiet.
  - apply quiet_moves; eapply quiet_trans; [apply quiet_setOptions | apply quiet_setModes].
Qed.

Lemma moves_handleApiRequest cfg e req p : moves p (handleApiRequest cfg e req p).
Proof.
  destruct req; cbn [handleApiRequest]; auto with moves quiet.
  - apply moves_stopPlayback.
  - case_match; auto with moves quiet.
  - unfold apiPlay; cbv zeta; case_decide; [apply moves_submit; [done | apply quiet_refl]|].
    destruct (SpotifyIdFromUri _); [apply moves_submit; [done | apply quiet_refl] | |]; apply quiet_moves; quiet.
Qed.

Lemma moves_handleMprisEvent cfg e req p : moves p (handleMprisEvent cfg e req p).1.
Proof.
  destruct req; cbn [handleMprisEvent fst]; auto with moves quiet.
  - case_match; auto with moves quiet.
  - apply moves_stopPlayback.
  - destruct status; cbn; auto with moves quiet.
  - unfold setPosition; destruct validPath; [|auto with moves quiet].
    apply moves_with_run; intros uri; case_decide; cbn [fst]; auto with moves quiet.
Qed.

Lemma within_handle_event cfg e ev p :
  held_ok p -> within steps_per_event p (handle_event cfg e ev p) /\ held_ok (handle_event cfg e ev p).
Proof.
  intros Hh.
  assert (forall q, moves p q -> within steps_per_event p q /\ held_ok q) as Hmoves.
  { intros q Hm; split; [eapply within_weaken; [|by apply within_moves]; done|].
    unfold held_ok in *; pose proof (m_held _ _ Hm); lia. }
  destruct ev; cbn [handle_event].
  - apply Hmoves, moves_handlePlayerCommand.
  - apply Hmoves, moves_handleApiRequest.
  - apply Hmoves, moves_handleMprisEvent.
  - apply Hmoves; unfold handleCluster; cbv zeta; set (q := if c_active (ctl p) then p else _).
    assert (quiet p q) by (unfold q; case_match; quietly).
    case_match; [eapply quiet_then_moves; [done | apply moves_stopPlayback] | by apply quiet_moves].
  - unfold deferPlayerEvent; destruct (negb (loadInFlight p)); [apply Hmoves, moves_handlePlayerEvent|].
    destruct (decide _) as [|Hlt]; [apply Hmoves; auto with moves quiet|].
    split; [|unfold held_ok, maxPendingPlayerEvents in *; cbn; rewrite zlen_app; change (zlen [ev]) with 1; lia].
    split; [done|]; intros n Hinv Hb; split; [|done].
    apply (loop_inv_weaken n); [destruct Hinv; by split | unfold steps_per_event, maxPendingPlayerEvents; lia].
  - apply Hmoves; auto with moves quiet.
  - apply Hmoves, quiet_moves; eapply quiet_trans; [|apply quiet_pause]; quietly.
  - by apply within_handle_result.
Qed.

Lemma within_loop_step cfg ev p :
  held_ok p -> within steps_per_event p (loop_step cfg p ev) /\ held_ok (loop_step cfg p ev).
Proof.
  intros Hh; unfold loop_step; destruct (c_crash (ctl p)); [|by apply within_handle_event].
  split; [|done]; eapply within_weaken; [|apply within_quiet, quiet_refl]; done.
Qed.

Lemma within_run_loop cfg evs p :
  held_ok p -> within (zlen evs * steps_per_event) p (run_loop cfg evs p) /\ held_ok (run_loop cfg evs p).
Proof.
  unfold run_loop; revert p; induction evs as [|ev evs IH]; intros p Hh; cbn [foldl].
  - split; [apply within_quiet, quiet_refl | done].
  - destruct (within_loop_step cfg ev p Hh) as [Hw Hh'].
    destruct (IH (loop_step cfg p ev) Hh') as [Hw' Hh'']; split; [|done].
    rewrite zlen_cons, Z.mul_add_distr_r, Z.mul_1_l.
    eapply within_trans; [|exact Hw | exact Hw'].
    pose proof (zlen_nonneg evs); unfold steps_per_event, maxPendingPlayerEvents; lia.
Qed.

Lemma newPlayer_inv : loop_inv 0 newPlayer /\ held_ok newPlayer.
Proof. split; [split; [cbn; lia | constructor | by intros ? ? ? ? ? ? | done] | done]. Qed.

Lemma run_loop_inv cfg evs :
  zlen evs * steps_per_event < 2 ^ 64 -> loop_inv (zlen evs * steps_per_event) (run_loop cfg evs newPlayer).
Proof.
  intros Hb; destruct newPlayer_inv as [Hinv Hh].
  destruct (within_run_loop cfg evs newPlayer Hh) as [[_ Hw] _]; by apply (Hw 0).
Qed.
