(* ===== verification/ControlsFuel.v ===== *)
(** * The continuations of the player loop return

    Calling a [then] closure leads to at most a bounded number of further calls:
    the fuel the handlers are given is never used up. *)

From stdpp Require Import gmap.
From S2P Require Import Prelude Ids Tracks Loader PlayerState Requests QueueIds Controls Transfer Loop.
#[local] Open Scope string_scope.
#[local] Open Scope list_scope.
#[local] Open Scope Z_scope.

Definition has_fuel (p : Player) : Prop := c_crash (ctl p) <> Some NoFuel.

(** Does not run out of fuel. *)
Definition keeps (p p' : Player) : Prop := has_fuel p -> has_fuel p'.

Lemma keeps_trans p1 p2 p3 : keeps p1 p2 -> keeps p2 p3 -> keeps p1 p3.
Proof. unfold keeps; auto. Qed.

Lemma keeps_same p p' : c_crash (ctl p') = c_crash (ctl p) -> keeps p p'.
Proof. unfold keeps, has_fuel; by intros ->. Qed.

Lemma keeps_upd f p : (forall c, c_crash (f c) = c_crash c) -> keeps p (upd f p).
Proof. intros Hf; apply keeps_same; apply Hf. Qed.

(** Open every branch of a helper that leaves the crash flag alone. *)
Ltac keeps := apply keeps_same; repeat case_match; simplify_eq; reflexivity.

Lemma SpotifyIdFromUri_fuel uri : SpotifyIdFromUri uri <> OutOfFuel.
Proof.
  unfold SpotifyIdFromUri, SpotifyIdFromBase62, FillBytes16; repeat case_match; try done; by case_decide.
Qed.

Lemma Uri_fuel id : Uri id <> OutOfFuel.
Proof. unfold Uri, Base62, GidToBase62; cbv zeta; by case_decide. Qed.

Lemma keeps_panic why p : keeps p (crash_with (Panicked why) p).
Proof. by intros _. Qed.

Lemma parse_playable er : isUnplayableMedia er = false -> isUnplayableMedia (EWrap "failed parsing uri" er) = false.
Proof. unfold isUnplayableMedia; cbn; auto. Qed.

Lemma SpotifyIdFromUri_playable uri er : SpotifyIdFromUri uri = Ret (Err er) -> isUnplayableMedia er = false.
Proof.
  unfold SpotifyIdFromUri, SpotifyIdFromBase62, FillBytes16; repeat case_match; intros; simplify_eq; try done.
  all: repeat case_match; cbn in *; try case_decide; by simplify_eq.
Qed.

Lemma keeps_schedule e p : keeps p (schedulePrefetchNext e p).
Proof. unfold schedulePrefetchNext; keeps. Qed.

Lemma keeps_pause e p : keeps p (pause e p).1.
Proof. unfold pause, reportResumePosition, schedulePrefetchNext; keeps. Qed.

Lemma keeps_play e p : keeps p (play e p).1.
Proof. unfold play, schedulePrefetchNext; keeps. Qed.

Lemma keeps_seek e pos p : keeps p (seek e pos p).1.
Proof. unfold seek, schedulePrefetchNext; keeps. Qed.

Lemma keeps_start_at e pos paused p : keeps p (start_at e pos paused p).
Proof.
  unfold start_at; case_decide; [by apply keeps_same|]; cbv zeta; destruct paused; [apply keeps_seek|].
  eapply keeps_trans; [apply keeps_seek | apply keeps_play].
Qed.

Section handlers.
Context (cfg : Config) (e : Env).
Context (ct : Then -> option error -> Player -> Player).
Context (cn : ThenNext -> bool -> option error -> Player -> Player).

(** Calling the closure after an error that is not worth skipping over. *)
Definition returns_error (k : Then) : Prop :=
  forall er p, isUnplayableMedia er = false -> keeps p (ct k (Some er) p).
Definition returns_next (k : ThenNext) : Prop := forall b err p, keeps p (cn k b err p).

Lemma keeps_unload p : keeps p (unload_primary e p).
Proof. unfold unload_primary, reportResumePosition; keeps. Qed.

Lemma keeps_start_load id uri paused drop resume delay k p :
  keeps p (start_load e id uri paused drop resume delay k p).
Proof. unfold start_load, clearUpcoming; cbv zeta; keeps. Qed.

Lemma keeps_loadCurrentTrack paused drop resume delay k p :
  returns_error k -> keeps p (loadCurrentTrack ct e paused drop resume delay k p).
Proof.
  intros Hk; unfold loadCurrentTrack; cbv zeta; eapply keeps_trans; [apply keeps_unload|].
  destruct (SpotifyIdFromUri _) as [[id|er]|why|] eqn:Hid; [| |apply keeps_panic|by apply SpotifyIdFromUri_fuel in Hid].
  - case_match; [by apply Hk|].
    destruct (Uri id) as [uri|why|] eqn:Hu; [apply keeps_start_load | apply keeps_panic | by apply Uri_fuel in Hu].
  - by apply Hk, parse_playable, (SpotifyIdFromUri_playable _ _ Hid).
Qed.

Lemma keeps_advanceTo hasNext seed drop delay k p :
  (forall b, returns_error (ThenAdvanced b drop k)) -> returns_next k ->
  keeps p (advanceTo cfg ct cn e hasNext seed drop delay k p).
Proof.
  intros Hk Hn; unfold advanceTo; cbv zeta; set (p1 := upd_state _ p).
  apply (keeps_trans _ p1); [by apply keeps_same|]; case_match; [unfold startAutoplay; destruct seed; [apply Hn | by apply keeps_same]|].
  eapply keeps_trans; [|apply keeps_loadCurrentTrack, Hk]; keeps.
Qed.

Lemma keeps_advanceNext forceNext drop delay k p :
  (forall b, returns_error (ThenAdvanced b drop k)) -> returns_next k ->
  keeps p (advanceNext cfg ct cn e forceNext drop delay k p).
Proof.
  intros Hk Hn; unfold advanceNext; repeat case_match; [|by apply keeps_same|by apply keeps_advanceTo].
  eapply keeps_trans; [|by apply keeps_advanceTo]; by apply keeps_same.
Qed.

Lemma keeps_after_advance hasNext drop k err p :
  returns_next k -> (forall b, returns_error (ThenAdvanced b drop k)) ->
  keeps p (after_advance cfg ct cn e hasNext drop k err p).
Proof.
  intros Hn Hk; unfold after_advance; destruct err as [er|]; [|eapply keeps_trans; [|apply Hn]; by apply keeps_same].
  case_match; [eapply keeps_trans; [|apply Hn]; by apply keeps_same|]; cbv zeta.
  case_decide; [eapply keeps_trans; [|apply Hn] | eapply keeps_trans; [|by apply keeps_advanceNext]]; by apply keeps_same.
Qed.

(** The same after an error that is not skipped over: no further advance. *)
Lemma keeps_after_error hasNext drop k er p :
  returns_next k -> isUnplayableMedia er = false ->
  keeps p (after_advance cfg ct cn e hasNext drop k (Some er) p).
Proof.
  intros Hn Her; unfold after_advance; rewrite Her; cbn [negb].
  eapply keeps_trans; [|apply Hn]; by apply keeps_same.
Qed.
End handlers.

(** The calls a continuation needs at most. *)
Fixpoint then_need (k : Then) : nat :=
  match k with
  | ThenLog => 1
  | ThenContext k => S (then_need k)
  | ThenOrSkip _ k => 3 + then_need k
  | ThenAdvanced _ _ k => 2 + next_need k
  | ThenStation k => S (next_need k)
  | ThenStart _ _ => 1
  end
with next_need (k : ThenNext) : nat :=
  match k with
  | NextStopped => 1
  | NextPastUnplayable k => S (then_need k)
  end.

Scheme Then_mut := Induction for Then Sort Prop
with ThenNext_mut := Induction for ThenNext Sort Prop.
Combined Scheme Then_mutind from Then_mut, ThenNext_mut.

Lemma need_bound : (forall k, then_need k <= 4 * then_size k)%nat /\ (forall k, next_need k <= 4 * next_size k)%nat.
Proof. apply Then_mutind; cbn; intros; lia. Qed.

Lemma keeps_call cfg e fuel :
  (forall k err p, (then_need k <= fuel)%nat -> keeps p (call_then cfg e fuel k err p)) /\
  (forall k b err p, (next_need k <= fuel)%nat -> keeps p (call_next cfg e fuel k b err p)) /\
  (forall b drop k er p, (S (next_need k) <= fuel)%nat -> isUnplayableMedia er = false ->
     keeps p (call_then cfg e fuel (ThenAdvanced b drop k) (Some er) p)).
Proof.
  induction fuel as [|fuel (IHt & IHn & IHe)]; split_and!; intros; try (destruct k; cbn in *; lia).
  - destruct k as [|k|drop k|hn drop k|k|pos paused]; cbn [call_then then_need] in *.
    + by apply keeps_same.
    + apply IHt; lia.
    + destruct err as [er|]; [|apply IHt; lia]; destruct (isUnplayableMedia er); [|apply IHt; lia].
      apply keeps_advanceNext; [intros b er' q Her; apply IHe; [cbn; lia | done]|].
      intros b er' q; apply IHn; cbn; lia.
    + apply keeps_after_advance; [intros b er' q; apply IHn; lia|].
      intros b er' q Her; apply IHe; [lia | done].
    + apply IHn; lia.
    + destruct err; [by apply keeps_same | apply keeps_start_at].
  - destruct k as [|k]; cbn [call_next next_need] in *; [keeps | apply IHt; lia].
  - cbn [call_then]; apply keeps_after_error; [intros b' er' q; apply IHn; lia | done].
Qed.

Lemma keeps_run_then cfg e k err p : keeps p (run_then cfg e k err p).
Proof. apply keeps_call; unfold then_fuel; pose proof (proj1 need_bound k); lia. Qed.

Lemma keeps_run_next cfg e k b err p : keeps p (run_next cfg e k b err p).
Proof. apply keeps_call; unfold next_fuel; pose proof (proj2 need_bound k); lia. Qed.

Lemma next_fuel_enough cfg e k :
  (forall b drop, returns_error (call_then cfg e (next_fuel k)) (ThenAdvanced b drop k)) /\
  returns_next (call_next cfg e (next_fuel k)) k.
Proof.
  pose proof (proj2 need_bound k); unfold next_fuel.
  split; [intros b drop er p Her | intros b err p]; apply keeps_call; auto; lia.
Qed.

Lemma keeps_run_advanceNext cfg e forceNext drop delay k p : keeps p (run_advanceNext cfg e forceNext drop delay k p).
Proof. destruct (next_fuel_enough cfg e k); apply keeps_advanceNext; auto. Qed.

Lemma keeps_run_advanceTo cfg e hasNext seed drop delay k p : keeps p (run_advanceTo cfg e hasNext seed drop delay k p).
Proof. destruct (next_fuel_enough cfg e k); apply keeps_advanceTo; auto. Qed.

Lemma keeps_run_load cfg e paused drop resume delay k p : keeps p (run_loadCurrentTrack cfg e paused drop resume delay k p).
Proof. apply keeps_loadCurrentTrack; intros er q _; apply keeps_run_then. Qed.

(** ** Every event of the loop *)
Lemma keeps_submitPrefetch uri p : keeps p (submitPrefetch uri p).
Proof.
  unfold submitPrefetch; case_decide; [by apply keeps_same|].
  destruct (SpotifyIdFromUri uri) as [[id|er]|why|] eqn:Hid; [keeps | by apply keeps_same | apply keeps_panic |].
  by apply SpotifyIdFromUri_fuel in Hid.
Qed.

Lemma keeps_plan_changed e p : keeps p (plan_changed e p).
Proof. unfold plan_changed, invalidateUpcoming, clearUpcoming, schedulePrefetchNext; keeps. Qed.

Lemma keeps_commit_loaded e o s gen resumed p : keeps p (commit_loaded e o s gen resumed p).
Proof. unfold commit_loaded, commitLoad, schedulePrefetchNext, forgetReplacedStreamEvents; cbv zeta; keeps. Qed.

Lemma keeps_stopPlayback cfg e p : keeps p (stopPlayback cfg e p).
Proof. unfold stopPlayback, drop_lane_loads, schedulePrefetchNext; cbv zeta; keeps. Qed.

Lemma keeps_emitPlaybackError stage uri err p : keeps p (emitPlaybackError stage uri err p).
Proof. unfold emitPlaybackError; keeps. Qed.

Create HintDb keeps.
#[export] Hint Resolve keeps_run_then keeps_run_next keeps_run_advanceNext keeps_run_advanceTo keeps_run_load
  keeps_submitPrefetch keeps_schedule keeps_pause keeps_play keeps_seek keeps_plan_changed keeps_commit_loaded
  keeps_stopPlayback keeps_emitPlaybackError : keeps.

Lemma keeps_commit_skip cfg e delay snap p : keeps p (commit_skip cfg e delay snap p).
Proof. unfold commit_skip; cbv zeta; eapply keeps_trans; [|apply keeps_run_load]; by apply keeps_same. Qed.

Lemma keeps_run_loadOrSkip cfg e paused drop resume k p :
  keeps p (run_loadCurrentTrackOrSkip cfg e paused drop resume k p).
Proof. apply keeps_loadCurrentTrack; intros er q _; apply keeps_run_then. Qed.

Lemma crash_setActive now v c : c_crash (setActive now v c) = c_crash c.
Proof. unfold setActive; repeat case_match; reflexivity. Qed.

Lemma crash_takeOver now c : c_crash (takeOver now c) = c_crash c.
Proof. unfold takeOver; cbv zeta; rewrite crash_setActive; case_match; reflexivity. Qed.

Lemma keeps_abandonTransfer e p : keeps p (abandonTransfer e p).
Proof. unfold abandonTransfer; cbv zeta; keeps. Qed.

Lemma keeps_commit_resolve e data cx p : keeps p (commit_resolve e data cx p).
Proof.
  apply keeps_same; transitivity (c_crash (takeOver (e_now e) (ctl p))); [reflexivity | apply crash_takeOver].
Qed.

Lemma keeps_continuePlayback e pb paused p : keeps p (continuePlayback e pb paused p).
Proof.
  unfold continuePlayback; cbv zeta; set (p1 := if decide _ then _ else _).
  assert (keeps p p1) as H1.
  { apply (keeps_trans _ (invalidateUpcoming p)); [by apply keeps_same|].
    unfold p1; case_decide; [apply keeps_seek | by apply keeps_same]. }
  eapply keeps_trans; [exact H1|]; set (p2 := upd_state _ p1); apply (keeps_trans _ p2); [by apply keeps_same|].
  repeat case_match; [apply keeps_pause | apply keeps_play |]; eapply keeps_trans; [|apply keeps_schedule];
    by apply keeps_same.
Qed.

Lemma keeps_commit_transfer cfg e ts paused continuation stream l snap fallback p :
  keeps p (commit_transfer cfg e ts paused continuation stream l snap fallback p).
Proof.
  unfold commit_transfer; cbv zeta; set (p1 := publishSnapshot snap _).
  assert (keeps p p1) as H1 by (unfold p1; keeps); eapply keeps_trans; [exact H1|].
  case_match; [apply keeps_continuePlayback | apply keeps_run_loadOrSkip].
Qed.

Lemma keeps_fail_transfer e continuation p : keeps p (fail_transfer e continuation p).
Proof. unfold fail_transfer; destruct continuation; [by apply keeps_same | apply keeps_abandonTransfer]. Qed.

#[export] Hint Resolve keeps_run_loadOrSkip keeps_abandonTransfer keeps_commit_resolve keeps_commit_transfer
  keeps_fail_transfer keeps_commit_skip : keeps.

Lemma keeps_commit_job cfg e j out p : keeps p (commit_job cfg e j out p).
Proof.
  unfold commit_job, list_commit, commit_edit; destruct (cj_kind j), out; repeat case_match; simplify_eq;
    auto with keeps; try (by apply keeps_same).
  all: try (eapply keeps_trans; [|apply keeps_run_loadOrSkip]; by apply keeps_same).
  all: try (eapply keeps_trans; [|apply keeps_run_advanceTo]; by apply keeps_same).
  all: try (eapply keeps_trans; [|apply keeps_plan_changed]; by apply keeps_same).
  all: eapply keeps_trans; [|apply keeps_run_then]; auto with keeps.
Qed.

Lemma keeps_handlePlayerEvent cfg e p ev : keeps p (handlePlayerEvent cfg e p ev).
Proof.
  unfold handlePlayerEvent; cbv zeta; destruct (ev_Type ev); try (by apply keeps_same).
  - unfold emitPlaybackError; keeps.
  - set (p1 := emit ApiNotPlaying _); assert (keeps p p1) as Hp by (unfold p1, reportResumeFinished; keeps).
    case_match; [eapply keeps_trans; [|apply keeps_pause] | eapply keeps_trans; [exact Hp | apply keeps_run_advanceNext]].
    eapply keeps_trans; [exact Hp|]; by apply keeps_same.
Qed.

Lemma keeps_drain cfg e evs p : keeps p (foldl (handlePlayerEvent cfg e) p evs).
Proof.
  revert p; induction evs as [|ev evs IH]; intros p; cbn; [by apply keeps_same|].
  eapply keeps_trans; [apply keeps_handlePlayerEvent | apply IH].
Qed.

Lemma keeps_handle_result cfg e id out p : keeps p (handle_result cfg e id out p).
Proof.
  unfold handle_result; destruct (r_jobs (rest p) !! id) as [j|]; [|by apply keeps_same].
  unfold applyLoaderResult; cbv zeta; cbn [res_commit res_class res_gen res_err res_discard].
  set (landed := bool_decide (cj_class j = classLoad) && _).
  set (p1 := if landed then _ else p); assert (keeps p p1) as H1 by (unfold p1; destruct landed; by apply keeps_same).
  match goal with |- context [if ?b then (p1, _, true) else _] => destruct b end.
  - assert (forall q, keeps p q -> keeps p (discard_job j out q)) as Hd.
    { intros q Hq; eapply keeps_trans; [exact Hq|]; unfold discard_job; keeps. }
    destruct landed; apply Hd; [|done].
    eapply keeps_trans; [exact H1|]; unfold drainPendingPlayerEvents; eapply keeps_trans; [|apply keeps_drain].
    by apply keeps_same.
  - assert (keeps p (commit_job cfg e j out p1)) as H2 by (eapply keeps_trans; [exact H1 | apply keeps_commit_job]).
    destruct landed; [|done].
    eapply keeps_trans; [exact H2|]; unfold drainPendingPlayerEvents; eapply keeps_trans; [|apply keeps_drain].
    by apply keeps_same.
Qed.

(** ** Commands and requests *)
Lemma keeps_with_run {A B} (m : run A) p (f : A -> Player * option B) :
  m <> OutOfFuel -> (forall a, keeps p (f a).1) -> keeps p (with_run m p f).1.
Proof. intros Hm Hf; destruct m; cbn [with_run fst]; [apply Hf | apply keeps_panic | done]. Qed.

Lemma bind_fuel {A B} (m : run A) (f : A -> run B) : m <> OutOfFuel -> (forall a, f a <> OutOfFuel) -> (m ≫= f) <> OutOfFuel.
Proof. intros Hm Hf; destruct m; cbn; auto. Qed.

Lemma singleTrackContext_fuel t : singleTrackContext t <> OutOfFuel.
Proof.
  unfold singleTrackContext, SpotifyIdFromGid; repeat case_match; try done; cbn [mbind run_bind].
  apply bind_fuel; [apply Uri_fuel | done].
Qed.

Lemma claimed_track_fuel e ts : claimed_track e ts <> OutOfFuel.
Proof.
  unfold claimed_track; apply bind_fuel; [apply singleTrackContext_fuel|]; intros [cx|]; [|done]; case_match; [|done].
  apply bind_fuel; [|done]; unfold ContextTrackToProvidedTrack, track_uri, SpotifyIdFromGid.
  apply bind_fuel; [|done]; repeat case_match; try done; cbn [mbind run_bind]; apply Uri_fuel.
Qed.

Lemma transferContinues_fuel retain ts p : transferContinues retain ts p <> OutOfFuel.
Proof.
  unfold transferContinues; destruct (c_primaryStream (ctl p)); [|done]; case_decide; [done|].
  apply bind_fuel; [apply singleTrackContext_fuel|].
  intros [cx|]; [|done]; case_match; [|done]; apply bind_fuel; [apply Uri_fuel|]; intros; by case_match.
Qed.

Lemma keeps_take_over e ts restorePaused retain p : keeps p (take_over e ts restorePaused retain p).1.
Proof.
  unfold take_over, claim_and_load; cbv zeta; apply keeps_with_run; [apply transferContinues_fuel|].
  intros [|]; [by apply keeps_same|]; apply keeps_with_run; [apply claimed_track_fuel|]; intros track; cbn [fst].
  apply (keeps_trans _ (upd (setActive (e_now e) true) p)); [apply keeps_upd; intros; apply crash_setActive|].
  by apply keeps_same.
Qed.

Lemma keeps_transferCommand e data restoreTrack restorePaused retain p :
  keeps p (transferCommand e data restoreTrack restorePaused retain p).1.
Proof.
  unfold transferCommand; destruct data as [ts|]; [|by apply keeps_same]; cbv zeta.
  set (p1 := upd _ p); apply (keeps_trans _ p1); [by apply keeps_same|]; case_match; [|apply keeps_take_over].
  apply keeps_with_run; [apply singleTrackContext_fuel|]; intros [cx|]; [apply keeps_take_over|].
  case_decide; cbn [fst]; [|by apply keeps_same].
  apply (keeps_trans _ (upd (setActive (e_now e) true) p1)); [apply keeps_upd; intros; apply crash_setActive|].
  eapply keeps_trans; [apply keeps_abandonTransfer | by apply keeps_upd].
Qed.

Lemma keeps_setOptions e rc rt sc p : keeps p (setOptions e rc rt sc p).
Proof.
  unfold setOptions, plan_changed, invalidateUpcoming, clearUpcoming, schedulePrefetchNext; cbv zeta.
  apply keeps_same; repeat case_match; simplify_eq; repeat case_match; simplify_eq; reflexivity.
Qed.

Lemma keeps_skipPrev cfg e allow p : keeps p (skipPrev cfg e allow p).1.
Proof. unfold skipPrev, noteSkip; case_match; [auto with keeps|]; keeps. Qed.

Lemma keeps_skipNext cfg e t p : keeps p (skipNext cfg e t p).1.
Proof.
  unfold skipNext, noteSkip; case_match; [keeps|cbn [fst]].
  eapply keeps_trans; [|apply keeps_run_advanceNext]; by apply keeps_same.
Qed.

Lemma keeps_with_bool v p f : (forall b, keeps p (f b)) -> keeps p (with_bool v p f).
Proof. intros Hf; destruct v; cbn [with_bool]; auto using keeps_panic. Qed.

Lemma keeps_playContext e cx override skipTo paused p : keeps p (playContext e cx override skipTo paused p).
Proof.
  apply keeps_same; transitivity (c_crash (takeOver (e_now e) (ctl p))); [reflexivity | apply crash_takeOver].
Qed.

Lemma keeps_seekTo e relative position value p : keeps p (seekTo e relative position value p).1.
Proof.
  assert (forall pos, keeps p (match seek e pos p with
    | (p, Some er) => (p, Some (EWrap "failed seeking stream" er)) | (p, None) => (p, None) end).1) as Hgo.
  { intros pos; pose proof (keeps_seek e pos p) as Hq; by destruct (seek e pos p) as [q [er|]]. }
  unfold seekTo; cbv zeta; repeat case_decide; auto; try (by apply keeps_same); destruct value; auto; by apply keeps_same.
Qed.

Lemma keeps_setModes modes p : keeps p (setModes modes p).
Proof. unfold setModes; destruct (map_fold _ _ _) as [m [|]]; by apply keeps_same. Qed.

Lemma keeps_addToQueue t p : keeps p (addToQueue t p).
Proof. unfold addToQueue; keeps. Qed.

#[export] Hint Resolve keeps_transferCommand keeps_setOptions keeps_skipPrev keeps_skipNext keeps_with_bool
  keeps_playContext keeps_seekTo keeps_setModes keeps_addToQueue : keeps.

Lemma keeps_handlePlayerCommand cfg e cmd p : keeps p (handlePlayerCommand cfg e cmd p).1.
Proof.
  destruct cmd; cbn [handlePlayerCommand fst]; try case_decide; cbn [fst]; auto with keeps; try (by apply keeps_same).
  - eapply keeps_trans; [apply keeps_setOptions | apply keeps_setModes].
  - unfold setQueue; keeps.
  - unfold setSleepTimer; cbv zeta; keeps.
Qed.

Lemma keeps_handleApiRequest cfg e req p : keeps p (handleApiRequest cfg e req p).
Proof.
  destruct req; cbn [handleApiRequest]; auto with keeps.
  - case_match; auto with keeps.
  - unfold apiPlay; cbv zeta; case_decide; [by apply keeps_same|].
    destruct (SpotifyIdFromUri _) eqn:Hid; [by apply keeps_same | apply keeps_panic | by apply SpotifyIdFromUri_fuel in Hid].
Qed.

Lemma path_uri_fuel path : path_uri path <> OutOfFuel.
Proof. unfold path_uri; cbv zeta; by case_decide. Qed.

Lemma keeps_handleMprisEvent cfg e req p : keeps p (handleMprisEvent cfg e req p).1.
Proof.
  destruct req; cbn [handleMprisEvent fst]; auto with keeps; try (by apply keeps_same).
  - case_match; auto with keeps.
  - destruct status; cbn [set_loop]; auto with keeps; by apply keeps_same.
  - unfold setPosition; destruct validPath; [|auto with keeps]; apply keeps_with_run; [apply path_uri_fuel|].
    intros uri; case_decide; cbn [fst]; [by apply keeps_same | auto with keeps].
Qed.

Lemma keeps_handle_event cfg e ev p : keeps p (handle_event cfg e ev p).
Proof.
  destruct ev; cbn [handle_event]; auto using keeps_handle_result, keeps_handlePlayerCommand, keeps_handleApiRequest,
    keeps_handleMprisEvent.
  - unfold handleCluster; cbv zeta; set (q := if c_active (ctl p) then p else _).
    assert (keeps p q) by (unfold q; keeps); case_match; [|done].
    eapply keeps_trans; [done | apply keeps_stopPlayback].
  - unfold deferPlayerEvent; repeat case_match; simplify_eq; auto using keeps_handlePlayerEvent; by apply keeps_same.
  - unfold prefetchNext; repeat case_match; auto with keeps; by apply keeps_same.
  - eapply keeps_trans; [|apply keeps_pause]; by apply keeps_same.
Qed.

Lemma run_loop_has_fuel cfg evs p : has_fuel p -> has_fuel (run_loop cfg evs p).
Proof.
  unfold run_loop; revert p; induction evs as [|[e ev] evs IH]; intros p Hp; cbn [foldl]; [done|].
  apply IH; unfold loop_step; case_match; [done|]; by apply keeps_handle_event.
Qed.
