(* ===== verification/ControlsClaims.v ===== *)
(** * What the player loop guarantees

    The theorems about the handlers of [Controls], with their witnesses. *)

From stdpp Require Import gmap.
From S2P Require Import Prelude Ids Tracks Loader PlayerState Requests QueueIds Controls Transfer Loop ControlsProps ControlsFuel.
#[local] Open Scope string_scope.
#[local] Open Scope list_scope.
#[local] Open Scope Z_scope.

(** ** Results that are out of date *)
Lemma handle_result_stale cfg e id out p j :
  r_jobs (rest p) !! id = Some j -> decides j = true -> cj_gen j <> loadGen p ->
  handle_result cfg e id out p = discard_job j out p.
Proof.
  intros Hj Hd Hg; unfold handle_result; rewrite Hj.
  assert (cj_class j <> classMutate /\ cj_class j <> classPrefetch) as [Hm Hp]
    by (unfold decides in Hd; destruct (cj_class j); done).
  unfold applyLoaderResult; cbn [res_class res_gen res_commit res_err res_discard]; cbv zeta.
  rewrite (bool_decide_eq_false_2 (cj_gen j = loadGen p)), andb_false_r by done.
  unfold generation; rewrite (decide_False (P := cj_class j = classPrefetch)) by done.
  by rewrite !bool_decide_eq_true_2 by done.
Qed.

Lemma handle_result_landed cfg e id out p j :
  r_jobs (rest p) !! id = Some j -> cj_class j = classLoad -> cj_gen j = loadGen p ->
  handle_result cfg e id out p =
    drainPendingPlayerEvents (handlePlayerEvent cfg e) (commit_job cfg e j out (set_loadInFlight false p)).
Proof.
  intros Hj Hc Hg; unfold handle_result; rewrite Hj; unfold applyLoaderResult.
  cbn [res_class res_gen res_commit res_err res_discard]; cbv zeta; rewrite Hc, Hg.
  rewrite (bool_decide_eq_true_2 (classLoad = classLoad)), (bool_decide_eq_true_2 (loadGen p = loadGen p)) by done.
  cbn [andb]; unfold generation; rewrite decide_False by done; cbn [loadGen].
  rewrite (bool_decide_eq_false_2 (loadGen p <> loadGen p)) by tauto; rewrite andb_false_r; reflexivity.
Qed.

Lemma load_gens_split p i j a b :
  (i < j)%nat -> r_jobs (rest p) !! i = Some a -> r_jobs (rest p) !! j = Some b ->
  decides a = true -> decides b = true -> increasing (load_gens p) -> cj_gen a < cj_gen b.
Proof.
  intros Hij Ha Hb Hda Hdb Hinc; pose proof (take_drop_middle _ _ _ Ha) as Hsplit.
  assert (drop (S i) (r_jobs (rest p)) !! (j - S i)%nat = Some b) as Hb'
    by (rewrite lookup_drop; replace (S i + (j - S i))%nat with j by lia; done).
  pose proof (take_drop_middle _ _ _ Hb') as Hsplit'.
  set (l1 := take i (r_jobs (rest p))) in *; set (l2 := take (j - S i) (drop (S i) (r_jobs (rest p)))) in *.
  set (l3 := drop (S (j - S i)) (drop (S i) (r_jobs (rest p)))) in *.
  set (f := fun l : list Job => cj_gen <$> filter (fun j => decides j = true) l).
  assert (load_gens p = f l1 ++ cj_gen a :: f l2 ++ cj_gen b :: f l3) as Hgens.
  { unfold load_gens, f; rewrite <- Hsplit, <- Hsplit', filter_app, filter_cons, filter_app, filter_cons.
    rewrite !decide_True by done; by rewrite fmap_app, fmap_cons, fmap_app, fmap_cons. }
  rewrite Hgens in Hinc; apply (Hinc (length (f l1)) (length (f l1) + S (length (f l2)))%nat); [lia| |].
  - by apply list_lookup_middle.
  - rewrite lookup_app_r by lia; replace (length (f l1) + S (length (f l2)) - length (f l1))%nat
      with (S (length (f l2))) by lia; cbn; by apply list_lookup_middle.
Qed.

Lemma stopPlayback_idle cfg e p :
  loadInFlight (stopPlayback cfg e p) = false /\ pendingPlayerEvents (stopPlayback cfg e p) = [] /\
  c_primaryStream (ctl (stopPlayback cfg e p)) = None /\ r_jobs (rest (stopPlayback cfg e p)) = r_jobs (rest p).
Proof. unfold stopPlayback; destruct (ZeroconfEnabled cfg); split_and!; reflexivity. Qed.

(** ** Concrete values for the witnesses *)
Definition demo_cfg : Config := MkConfig false 500 true.
Definition demo_env (now : Z) : Env := MkEnv now 0 0 "session" None None None ∅.
Definition demo_track (uri : string) : ProvidedTrack := MkProvidedTrack uri "" None "" "" "context".
Definition demo_snapshot (uri : string) : TrackSnapshot := MkSnapshot None (demo_track uri) [] [] (MkIndex 0 0).
Definition demo_uri : string := "spotify:track:0000000000000000000001".
Definition demo_local : string := "spotify:local:artist:album:title:123".
Definition demo_context : SpotContextRef := MkContextRef "spotify:playlist:p" "" [] false false false.
Definition demo_id : SpotifyId := MkSpotifyId "track" (be_bytes 16 1).
Definition demo_stream : Stream := MkStream demo_id demo_id 180000 "playback".

(** A context that resolved and whose first track is being fetched. *)
Definition demo_loading : list (Env * LoopEvent) :=
  [(demo_env 1000, EvCommand (CmdPlay demo_context None SkipToNone false));
   (demo_env 1100, EvJobResult 0 (OutContext 7 (demo_snapshot demo_uri)))].

(** ** Decisions about what plays *)

(** C1: The newest decision about what plays is the one that counts.  After any
    sequence of commands, timers, player events and results, in any order, the
    result of a load, a skip or a context start that a newer one followed
    changes nothing: it is discarded, and at most tells a stopped player to
    stay stopped. *)
Theorem superseded_decision_discarded (cfg : Config) (evs : list (Env * LoopEvent)) (e : Env) (out : Outcome)
    (older newer : nat) (a b : Job) :
  zlen evs * steps_per_event < 2 ^ 64 ->
  let p := run_loop cfg evs newPlayer in
  (older < newer)%nat -> r_jobs (rest p) !! older = Some a -> r_jobs (rest p) !! newer = Some b ->
  decides a = true -> decides b = true ->
  handle_result cfg e older out p = discard_job a out p.
Proof.
  intros Hb p Hlt Ha Hb' Hda Hdb; destruct (run_loop_inv cfg evs Hb) as [_ Hgs Hord _].
  apply handle_result_stale; [done | done |].
  pose proof (load_gens_split p older newer a b Hlt Ha Hb' Hda Hdb Hord) as Hab.
  assert (cj_gen b <= loadGen p) as Hle; [|lia].
  rewrite Forall_forall in Hgs; apply Hgs; unfold load_gens; apply list_elem_of_fmap_2, list_elem_of_filter.
  split; [done | by eapply list_elem_of_lookup_2].
Qed.

Lemma superseded_decision_discarded_witness :
  let p := run_loop demo_cfg (demo_loading ++ [(demo_env 1200, EvCommand (CmdSkipNext None))]) newPlayer in
  handle_result demo_cfg (demo_env 1300) 1 (OutLoaded demo_stream 4 None) p = p.
Proof.
  cbv zeta.
  assert (exists a b, r_jobs (rest (run_loop demo_cfg (demo_loading ++ [(demo_env 1200, EvCommand (CmdSkipNext None))]) newPlayer)) !! 1%nat = Some a /\
    r_jobs (rest (run_loop demo_cfg (demo_loading ++ [(demo_env 1200, EvCommand (CmdSkipNext None))]) newPlayer)) !! 2%nat = Some b /\
    decides a = true /\ decides b = true) as (a & b & Ha & Hb & Hda & Hdb)
    by (eexists _, _; split_and!; vm_compute; reflexivity).
  rewrite (superseded_decision_discarded demo_cfg (demo_loading ++ [(demo_env 1200, EvCommand (CmdSkipNext None))]) (demo_env 1300)
    (OutLoaded demo_stream 4 None) 1 2 a b); [| vm_compute; reflexivity | apply Nat.ltb_lt; reflexivity
    | exact Ha | exact Hb | exact Hda | exact Hdb].
  revert Ha; vm_compute; intros [= <-]; reflexivity.
Defined.

(** Stopping playback is final for whatever was on its way: no load, skip or
    context start submitted before the stop takes effect after it, no matter
    what happens in between. *)
Theorem stop_discards_loads (cfg : Config) (before after : list (Env * LoopEvent)) (e e' : Env) (id : nat)
    (j : Job) (out : Outcome) :
  (zlen before + 1 + zlen after) * steps_per_event < 2 ^ 64 ->
  let stopped := stopPlayback cfg e (run_loop cfg before newPlayer) in
  let p := run_loop cfg after stopped in
  r_jobs (rest stopped) !! id = Some j -> decides j = true ->
  handle_result cfg e' id out p = discard_job j out p /\ loadInFlight stopped = false /\
  pendingPlayerEvents stopped = [] /\ c_primaryStream (ctl stopped) = None.
Proof.
  intros Hb stopped p Hj Hd.
  assert (zlen before * steps_per_event < 2 ^ 64) as Hb1.
  { pose proof (zlen_nonneg before); pose proof (zlen_nonneg after); unfold steps_per_event, maxPendingPlayerEvents in *; lia. }
  pose proof (run_loop_inv cfg before Hb1) as Hinv; set (q := run_loop cfg before newPlayer) in *.
  destruct (moves_stopPlayback cfg e q) as [Hm Hgen]; fold stopped in Hm, Hgen.
  assert (loadGen stopped = loadGen q + 1) as Hnew.
  { rewrite Hgen; unfold u64; apply wrap_small; destruct Hinv as [Hq _ _ _].
    pose proof (zlen_nonneg after); unfold steps_per_event, maxPendingPlayerEvents in *; lia. }
  assert (loop_inv (zlen before * steps_per_event + 1) stopped) as Hinv1.
  { eapply loop_inv_moves; [exact Hinv | | exact Hm].
    pose proof (zlen_nonneg after); unfold steps_per_event, maxPendingPlayerEvents in *; lia. }
  destruct (stopPlayback_idle cfg e q) as (Hfl & Hpend & Hprim & Hjobs); fold stopped in Hfl, Hpend, Hprim, Hjobs.
  assert (held_ok stopped) as Hheld by (unfold held_ok; by rewrite Hpend).
  destruct (within_run_loop cfg after stopped Hheld) as [[Hpre Hw] _].
  destruct (Hw _ Hinv1) as [_ Hle].
  { pose proof (zlen_nonneg after); unfold steps_per_event, maxPendingPlayerEvents in *; lia. }
  split; [|done].
  apply handle_result_stale; [by eapply prefix_lookup_Some | done |].
  assert (cj_gen j <= loadGen q) as Hjq; [|fold p in Hle; lia].
  assert (j ∈ filter (fun j => decides j = true) (r_jobs (rest q))) as Hin.
  { apply list_elem_of_filter; split; [done|]; rewrite <- Hjobs; by eapply list_elem_of_lookup_2. }
  destruct Hinv as [_ Hgs _ _]; rewrite Forall_forall in Hgs; apply Hgs; by apply list_elem_of_fmap_2.
Qed.

Lemma stop_discards_loads_witness :
  let stopped := stopPlayback demo_cfg (demo_env 1200) (run_loop demo_cfg demo_loading newPlayer) in
  c_primaryStream (ctl stopped) = None /\ exists j,
  handle_result demo_cfg (demo_env 1400) 1 (OutLoaded demo_stream 4 None)
    (run_loop demo_cfg [(demo_env 1300, EvCommand CmdResume)] stopped) =
  discard_job j (OutLoaded demo_stream 4 None) (run_loop demo_cfg [(demo_env 1300, EvCommand CmdResume)] stopped).
Proof.
  cbv zeta; assert (exists j, r_jobs (rest (stopPlayback demo_cfg (demo_env 1200)
    (run_loop demo_cfg demo_loading newPlayer))) !! 1%nat = Some j /\ decides j = true) as (j & Hj & Hd)
    by (eexists; split; vm_compute; reflexivity).
  destruct (stop_discards_loads demo_cfg demo_loading [(demo_env 1300, EvCommand CmdResume)] (demo_env 1200) (demo_env 1400) 1 j
    (OutLoaded demo_stream 4 None)) as (Hd' & _ & _ & Hp); [vm_compute; reflexivity | exact Hj | exact Hd |].
  split; [exact Hp | exists j; exact Hd'].
Defined.

Lemma call_then_advanced cfg e fuel hasNext drop k err p :
  call_then cfg e (S fuel) (ThenAdvanced hasNext drop k) err p =
    after_advance cfg (call_then cfg e fuel) (call_next cfg e fuel) e hasNext drop k err p.
Proof. reflexivity. Qed.

Lemma call_next_stopped cfg e fuel hasNext err p :
  call_next cfg e (S fuel) NextStopped hasNext err p = if hasNext then p else emit ApiStopped p.
Proof. reflexivity. Qed.

(** A run of unplayable tracks is walked past, but not for ever: the count
    of tracks skipped in a row never exceeds fifty, whatever the loop does, and
    one more unplayable track ends the walk with playback stopped and the count
    reset. *)
Theorem unplayable_skips_bounded (cfg : Config) (evs : list (Env * LoopEvent)) :
  zlen evs * steps_per_event < 2 ^ 64 ->
  let p := run_loop cfg evs newPlayer in
  0 <= c_consecutiveUnplayableSkips (ctl p) <= maxConsecutiveUnplayableSkips /\
  (forall e hasNextTrack drop er,
     isUnplayableMedia er = true -> c_consecutiveUnplayableSkips (ctl p) = maxConsecutiveUnplayableSkips ->
     let p' := run_then cfg e (ThenAdvanced hasNextTrack drop NextStopped) (Some er) p in
     c_consecutiveUnplayableSkips (ctl p') = 0 /\ c_effects (ctl p') = c_effects (ctl p) ++ [EffEmit ApiStopped] /\
     r_jobs (rest p') = r_jobs (rest p)).
Proof.
  intros Hb p; split; [apply (li_skips _ _ (run_loop_inv cfg evs Hb))|].
  clearbody p; intros e hasNextTrack drop er Her Hc; unfold run_then.
  change (then_fuel (ThenAdvanced hasNextTrack drop NextStopped)) with (S (S 10)).
  generalize 10%nat as fuel; intros fuel; rewrite call_then_advanced.
  unfold after_advance; rewrite Her; cbn [negb]; cbv zeta.
  set (p1 := upd _ p).
  assert (c_consecutiveUnplayableSkips (ctl p1) = c_consecutiveUnplayableSkips (ctl p) + 1) as Hp1 by reflexivity.
  destruct (decide (maxConsecutiveUnplayableSkips < c_consecutiveUnplayableSkips (ctl p1))); [|lia].
  rewrite call_next_stopped; split_and!; reflexivity.
Qed.

Lemma unplayable_skips_bounded_witness :
  0 <= c_consecutiveUnplayableSkips (ctl (run_loop demo_cfg demo_loading newPlayer)) <= 50.
Proof. apply (unplayable_skips_bounded demo_cfg demo_loading); vm_compute; reflexivity. Defined.

(** C36: Every handler of the loop returns: however closures are nested, by
    autoplay stations following one another for instance, calling them ends, as
    the fuel they are given is never used up. *)
Theorem loop_handlers_return (cfg : Config) (evs : list (Env * LoopEvent)) :
  c_crash (ctl (run_loop cfg evs newPlayer)) <> Some NoFuel.
Proof. by apply run_loop_has_fuel. Qed.

(** ** Loads and positions *)
Lemma StartPosition_range position duration :
  0 <= StartPosition position duration /\ (StartPosition position duration < duration \/ StartPosition position duration = 0).
Proof. unfold StartPosition; case_decide; lia. Qed.

Lemma effects_do ef p : c_effects (ctl (do_effect ef p)) = c_effects (ctl p) ++ [ef].
Proof. reflexivity. Qed.

Lemma effects_upd f p : c_effects (f (ctl p)) = c_effects (ctl p) -> c_effects (ctl (upd f p)) = c_effects (ctl p).
Proof. done. Qed.

Lemma effects_schedule e p : c_effects (ctl (schedulePrefetchNext e p)) = c_effects (ctl p).
Proof. unfold schedulePrefetchNext; repeat case_match; reflexivity. Qed.

(** What landing a load does, ending with the report of the new track. *)
Lemma commitLoad_effects e s paused position p :
  exists report, c_effects (ctl (commitLoad e s paused position p)) =
    c_effects (ctl p) ++
    (if bool_decide (ps_IsPaused (state p) = paused) then []
     else [EffPlayer (if ps_IsPaused (state p) then PlayerPause else PlayerPlay)]) ++ report.
Proof.
  unfold commitLoad; cbv zeta; unfold emit, do_updateState; rewrite effects_do, effects_schedule, effects_do.
  change (ps_IsPaused (state (upd (set_primaryStream (Some s)) p))) with (ps_IsPaused (state p)).
  set (q := if bool_decide _ then _ else _).
  assert (c_effects (ctl q) = c_effects (ctl p) ++
    (if bool_decide (ps_IsPaused (state p) = paused) then []
     else [EffPlayer (if ps_IsPaused (state p) then PlayerPause else PlayerPlay)])) as Hq.
  { unfold q; destruct (decide (ps_IsPaused (state p) = paused)) as [Heq|Hne].
    - rewrite !bool_decide_eq_true_2, app_nil_r by done; reflexivity.
    - rewrite !bool_decide_eq_false_2 by done; reflexivity. }
  unfold upd_state; rewrite (effects_upd _ q) by reflexivity; rewrite Hq, <- !app_assoc; eexists; reflexivity.
Qed.

(** The state once a load landed. *)
Lemma commitLoad_spec e s paused position p :
  let p' := commitLoad e s paused position p in
  let wanted := ps_IsPaused (state p) in
  ps_IsPaused (state p') = wanted /\ ps_PlaybackSpeed (state p') = (if wanted then 0 else 1) /\
  ps_IsBuffering (state p') = false /\ c_primaryStream (ctl p') = Some s /\ loadInFlight p' = loadInFlight p /\
  ps_PositionAsOfTimestamp (state p') = position /\ pendingPlayerEvents p' = pendingPlayerEvents p.
Proof.
  cbv zeta; unfold commitLoad, emit, do_updateState; cbv zeta.
  set (wanted := ps_IsPaused (state (upd (set_primaryStream (Some s)) p))).
  change (ps_IsPaused (state p)) with wanted.
  set (q := if bool_decide (wanted = paused) then _ else _).
  assert (c_primaryStream (ctl q) = Some s /\ loadInFlight q = loadInFlight p /\
    pendingPlayerEvents q = pendingPlayerEvents p) as (Hp & Hf & Hh)
    by (unfold q; destruct (bool_decide (wanted = paused)); split_and!; reflexivity).
  clearbody q wanted; unfold schedulePrefetchNext; repeat case_match; split_and!; try reflexivity; assumption.
Qed.

(** Closures with nothing left to do once the load has landed: those of a skip,
    a jump and a context start from the beginning. *)
Fixpoint idle_then (k : Then) : bool :=
  match k with
  | ThenLog => true
  | ThenContext k | ThenOrSkip _ k => idle_then k
  | ThenAdvanced _ _ _ | ThenStation _ => false
  | ThenStart position _ => bool_decide (position <= 0)
  end.

Lemma run_then_idle cfg e k p : idle_then k = true -> run_then cfg e k None p = p.
Proof.
  unfold run_then, then_fuel; assert (forall fuel, (then_size k <= fuel)%nat -> idle_then k = true ->
    call_then cfg e fuel k None p = p) as Hc; [|intros Hk; apply Hc; [lia | done]].
  induction k as [|k IH|d k IH|b d k|k|position paused]; intros [|fuel] Hf Hk; cbn [then_size] in Hf; try lia; try done.
  1,2: cbn [call_then]; apply IH; [lia | done].
  cbn [idle_then call_then] in *; apply bool_decide_eq_true_1 in Hk; unfold start_at; by rewrite decide_True.
Qed.

Lemma drain_none cfg e p :
  pendingPlayerEvents p = [] -> drainPendingPlayerEvents (handlePlayerEvent cfg e) p = p.
Proof. unfold drainPendingPlayerEvents; intros Hp; rewrite Hp; destruct p; cbn in *; by subst. Qed.


Definition demo_loading_player : Player := run_loop demo_cfg demo_loading newPlayer.


(** A seek stays inside the track and the position follows the clock from
    there: the output is sent to the nearest position of the track, and for the
    next ten minutes the position reported is that one plus the time that
    passed, or that one alone while paused. *)
Theorem seek_sets_position (e : Env) (position : Z) (p : Player) (s : Stream) (now : Z) :
  c_primaryStream (ctl p) = Some s -> e_seek e = None -> 0 <= st_Duration s ->
  ps_IsPlaying (state p) = true -> e_now e <= now <= e_now e + maxReasonableElapsed ->
  let p' := (seek e position p).1 in
  let target := clamp_position position (st_Duration s) in
  (seek e position p).2 = None /\ 0 <= target <= st_Duration s /\
  trackPosition now (state p') = target + (if ps_IsPaused (state p) then 0 else now - e_now e) /\
  exists effs, c_effects (ctl p') = c_effects (ctl p) ++ EffPlayer (PlayerSeek target) :: effs.
Proof.
  intros Hs He Hd Hplay Hnow p' target; unfold p', seek; rewrite Hs, He; cbn [fst snd].
  fold target; assert (0 <= target <= st_Duration s) as Ht by (unfold target, clamp_position; lia).
  set (q := upd_state _ _).
  assert (state q = set_PositionAsOfTimestamp target (set_Timestamp (e_now e) (state p))) as Hq by reflexivity.
  assert (c_effects (ctl q) = c_effects (ctl p) ++ [EffPlayer (PlayerSeek target)]) as Heq by reflexivity.
  clearbody q; split; [done|]; split; [done|]; split.
  - assert (state (emit (ApiSeek target) (schedulePrefetchNext e (do_updateState q))) = state q) as ->
      by (unfold schedulePrefetchNext; repeat case_match; reflexivity).
    rewrite Hq; unfold trackPosition; cbn -[maxReasonableElapsed Z.add Z.sub]; rewrite Hplay; cbn [negb orb].
    destruct (ps_IsPaused (state p)); cbn [orb]; [lia|].
    rewrite decide_False by lia; rewrite decide_False by lia; lia.
  - unfold emit, do_updateState; rewrite effects_do, effects_schedule, effects_do, Heq, <- !app_assoc.
    eexists; reflexivity.
Qed.

Definition demo_playing_player : Player :=
  handle_event demo_cfg (demo_env 1200) (EvJobResult 1 (OutLoaded demo_stream 4 None)) demo_loading_player.

Lemma seek_sets_position_witness :
  trackPosition 5000 (state (seek (demo_env 2000) 900000 demo_playing_player).1) =
    clamp_position 900000 180000 + 3000.
Proof.
  refine (_ (seek_sets_position (demo_env 2000) 900000 demo_playing_player demo_stream 5000 _ _ _ _ _)).
  - intros (_ & _ & Hp & _); exact Hp.
  - vm_compute; reflexivity.
  - reflexivity.
  - vm_compute; discriminate.
  - vm_compute; reflexivity.
  - vm_compute; split; discriminate.
Defined.

(** ** What the loop gets wrong *)

(** A skip lands on a track that cannot be loaded while another load is under
    way. *)
Definition demo_stuck : list (Env * LoopEvent) :=
  demo_loading ++
  [(demo_env 1200, EvCommand (CmdSkipPrev false)); (demo_env 1300, EvJobResult 2 (OutWalked (demo_snapshot demo_local) false []))].

Lemma event_held cfg e ev p :
  loadInFlight p = true ->
  ctl (handle_event cfg e (EvPlayer ev) p) = ctl p /\ loadInFlight (handle_event cfg e (EvPlayer ev) p) = true.
Proof.
  intros Hf; cbn [handle_event]; unfold deferPlayerEvent; rewrite Hf; cbn [negb]; by case_decide.
Qed.

(** Skipping onto a local file while a track is loading leaves the loop
    waiting for a load nobody makes: no job that could end the wait exists any
    more, and every event of the output is held back from then on, so that the
    end of the track still playing goes unnoticed. *)
Theorem skip_onto_local_file_sticks :
  let p := run_loop demo_cfg demo_stuck newPlayer in
  loadInFlight p = true /\ c_crash (ctl p) = None /\
  Forall (fun j => cj_class j = classLoad -> cj_gen j <> loadGen p) (r_jobs (rest p)) /\
  (forall e ev, ctl (handle_event demo_cfg e (EvPlayer ev) p) = ctl p /\
                loadInFlight (handle_event demo_cfg e (EvPlayer ev) p) = true).
Proof.
  cbv zeta; split_and!; [vm_compute; reflexivity | vm_compute; reflexivity | |].
  - apply (bool_decide_unpack _); vm_compute; exact I.
  - intros e ev; apply event_held; vm_compute; reflexivity.
Qed.

(** The context runs out and the station to carry on with cannot be resolved. *)
Definition demo_no_station : list (Env * LoopEvent) :=
  demo_loading ++
  [(demo_env 1200, EvJobResult 1 (OutLoaded demo_stream 4 None));
   (demo_env 2000, EvPlayer (MkEvent EventTypeNotPlaying 4 None));
   (demo_env 2100, EvJobResult 2 (OutWalked (demo_snapshot demo_uri) false [demo_uri]));
   (demo_env 2200, EvJobResult 3 (OutError net_ErrClosed));
   (demo_env 2300, EvCommand (CmdSetSleepTimer SleepClear))].

(** When the context runs out and autoplay fails, the device goes on
    reporting itself as playing, and as paused with a playback speed of one,
    which a paused state must never have. *)
Theorem failed_autoplay_misreports :
  exists s, last (c_effects (ctl (run_loop demo_cfg demo_no_station newPlayer))) = Some (EffUpdateState s) /\
    ps_IsPlaying s = true /\ ps_IsPaused s = true /\ ps_PlaybackSpeed s = 1.
Proof. eexists; split; [vm_compute; reflexivity|]; split_and!; reflexivity. Qed.
