(* ===== verification/TransferClaims.v ===== *)
(** * Taking over playback: theorems

    Ids of queued tracks across a transfer, transfers that carry on the playing
    track, transfers that fail, and the gate against stale cluster updates. *)

From stdpp Require Import gmap pretty.
From S2P Require Import Prelude Ids Tracks Loader PlayerState Requests QueueIds Controls Transfer Loop.
From S2P Require Import ControlsProps ControlsFuel ControlsClaims.
#[local] Open Scope string_scope.
#[local] Open Scope list_scope.
#[local] Open Scope Z_scope.

(** ** What a load leaves alone *)

(** The track list and the ids handed out for its queue. *)
Definition list_of (p : Player) : option nat * Z := (c_tracks (ctl p), c_queueID (ctl p)).

Lemma list_of_reportResume s pos p : list_of (reportResumePosition s pos p) = list_of p.
Proof. unfold reportResumePosition; repeat case_match; reflexivity. Qed.

Lemma list_of_unload e p : list_of (unload_primary e p) = list_of p.
Proof.
  unfold unload_primary; case_match; [|done]; change (list_of (upd (set_primaryStream None) ?q)) with (list_of q).
  apply list_of_reportResume.
Qed.

Lemma list_of_start_load e id uri paused drop resume delay k p :
  list_of (start_load e id uri paused drop resume delay k p) = list_of p.
Proof. unfold start_load, clearUpcoming; cbv zeta; repeat case_match; reflexivity. Qed.

Lemma list_of_schedule e p : list_of (schedulePrefetchNext e p) = list_of p.
Proof. unfold schedulePrefetchNext; repeat case_match; reflexivity. Qed.

Lemma list_of_seek e pos p : list_of (seek e pos p).1 = list_of p.
Proof. unfold seek, schedulePrefetchNext; repeat case_match; reflexivity. Qed.

Lemma list_of_play e p : list_of (play e p).1 = list_of p.
Proof. unfold play, schedulePrefetchNext; repeat case_match; reflexivity. Qed.

Lemma list_of_pause e p : list_of (pause e p).1 = list_of p.
Proof. unfold pause, reportResumePosition, schedulePrefetchNext; repeat case_match; reflexivity. Qed.

(** A closure after an error that is not skipped over. *)
Lemma call_or_skip cfg e fuel drop er p :
  isUnplayableMedia er = false -> call_then cfg e (S (S fuel)) (ThenOrSkip drop ThenLog) (Some er) p = p.
Proof.
  intros Her.
  transitivity (if isUnplayableMedia er then advanceNext cfg (call_then cfg e (S fuel)) (call_next cfg e (S fuel)) e true
    drop 0 (NextPastUnplayable ThenLog) p else call_then cfg e (S fuel) ThenLog (Some er) p); [reflexivity|].
  rewrite Her; reflexivity.
Qed.

Lemma call_log cfg e drop er p :
  isUnplayableMedia er = false -> run_then cfg e (ThenOrSkip drop ThenLog) (Some er) p = p.
Proof. exact (call_or_skip cfg e 10 drop er p). Qed.

Lemma list_of_load cfg e paused drop resume p :
  list_of (run_loadCurrentTrackOrSkip cfg e paused drop resume ThenLog p) = list_of p.
Proof.
  unfold run_loadCurrentTrackOrSkip, loadCurrentTrackOrSkip, loadCurrentTrack; cbv zeta.
  rewrite <- (list_of_unload e p); set (q := unload_primary e p).
  fold (run_then cfg e (ThenOrSkip drop ThenLog)).
  destruct (SpotifyIdFromUri _) as [[id|er]|why|] eqn:Hid; try reflexivity.
  - case_match; [by rewrite call_log|]; destruct (Uri id); try reflexivity; apply list_of_start_load.
  - by rewrite call_log by (by apply parse_playable, (SpotifyIdFromUri_playable _ _ Hid)).
Qed.

Lemma list_of_continue e pb paused p : list_of (continuePlayback e pb paused p) = list_of p.
Proof.
  unfold continuePlayback; cbv zeta; set (p1 := if decide _ then _ else _).
  assert (list_of p1 = list_of p) as H1 by (unfold p1; case_decide; [by rewrite list_of_seek | reflexivity]).
  rewrite <- H1; repeat case_match; [by rewrite list_of_pause | by rewrite list_of_play | by rewrite list_of_schedule].
Qed.

Lemma list_of_transfer cfg e ts paused continuation stream l snap fallback p :
  list_of (commit_transfer cfg e ts paused continuation stream l snap fallback p) =
    (Some l, highestQueueID (ts_Queue ts)).
Proof.
  unfold commit_transfer; cbv zeta; case_match; [rewrite list_of_continue | rewrite list_of_load];
    repeat case_match; reflexivity.
Qed.

(** ** Adding tracks *)
Definition add_all (added : list ContextTrack) (p : Player) : Player := foldl (fun p t => addToQueue t p) p added.

(** The uids of the queue edits among jobs. *)
Definition added_uids (jobs : list Job) : list string :=
  omap (fun j => match cj_kind j with JobAddToQueue t => Some (ct_Uid t) | _ => None end) jobs.

Lemma addToQueue_spec t p l :
  c_tracks (ctl p) = Some l -> ct_Uid t = "" -> 0 <= c_queueID (ctl p) -> c_queueID (ctl p) + 1 < 2 ^ 64 ->
  let p' := addToQueue t p in
  c_tracks (ctl p') = Some l /\ c_queueID (ctl p') = c_queueID (ctl p) + 1 /\
  exists j, r_jobs (rest p') = r_jobs (rest p) ++ [j] /\
    added_uids [j] = [queue_uid (c_queueID (ctl p) + 1)] /\ cj_list j = Some l.
Proof.
  intros Hl Hu Hn Hb; unfold addToQueue; cbv zeta; rewrite Hl, decide_True by done.
  assert (u64 (c_queueID (ctl p) + 1) = c_queueID (ctl p) + 1) as Hw by (unfold u64; apply wrap_small; lia).
  split; [exact Hl|]; split; [exact Hw|]; eexists; split; [reflexivity|]; split; [|exact Hl].
  cbn; by rewrite Hw.
Qed.

Lemma add_all_spec added p l :
  c_tracks (ctl p) = Some l -> Forall (fun t => ct_Uid t = "") added -> 0 <= c_queueID (ctl p) ->
  c_queueID (ctl p) + zlen added < 2 ^ 64 ->
  exists jobs, r_jobs (rest (add_all added p)) = r_jobs (rest p) ++ jobs /\
    added_uids jobs = queue_uid <$> seqZ (c_queueID (ctl p) + 1) (zlen added).
Proof.
  intros Hl Hu; revert p Hl; induction Hu as [|t added Ht _ IH]; intros p Hl Hn Hb.
  { exists []; split; [by rewrite app_nil_r | done]. }
  rewrite zlen_cons in Hb |- *; pose proof (zlen_nonneg added).
  destruct (addToQueue_spec t p l Hl Ht) as (Hl' & Hq' & j & Hj & Huid & _); [lia|lia|].
  destruct (IH (addToQueue t p) Hl') as (jobs & Hjobs & Huids); [lia|lia|].
  exists (j :: jobs); split; [change (add_all (t :: added) p) with (add_all added (addToQueue t p));
    by rewrite Hjobs, Hj, <- app_assoc|].
  rewrite seqZ_cons by lia; rewrite fmap_cons; change (j :: jobs) with ([j] ++ jobs).
  unfold added_uids in *; rewrite omap_app, Huid, Huids, Hq'; cbn [app]; repeat f_equal; lia.
Qed.

(** Queued tracks keep distinct ids across a transfer.  Once a transfer has
    landed, the tracks added to the queue get ids that differ from each other and
    from every id of the transferred queue, whatever its ids look like. *)
Theorem queued_uids_fresh (cfg : Config) (e : Env) (ts : TransferState) (paused continuation : bool)
    (stream : option Stream) (l : nat) (snap : TrackSnapshot) (fallback : option SpotContextRef) (p0 : Player)
    (added : list ContextTrack) :
  Forall (fun t => ct_Uid t = "") added -> highestQueueID (ts_Queue ts) + zlen added < 2 ^ 64 ->
  let p := commit_transfer cfg e ts paused continuation stream l snap fallback p0 in
  exists jobs, r_jobs (rest (add_all added p)) = r_jobs (rest p) ++ jobs /\
    zlen (added_uids jobs) = zlen added /\ NoDup (added_uids jobs) /\
    (forall uid, uid ∈ added_uids jobs -> uid ∉ (ct_Uid <$> ts_Queue ts)).
Proof.
  intros Hu Hb p; pose proof (highest_nonneg (ts_Queue ts)) as H0; set (queued := ts_Queue ts) in *.
  assert (c_tracks (ctl p) = Some l /\ c_queueID (ctl p) = highestQueueID queued) as [Hl Hq].
  { pose proof (list_of_transfer cfg e ts paused continuation stream l snap fallback p0) as Hlist.
    fold p in Hlist; unfold list_of in Hlist; clearbody p; by injection Hlist. }
  clearbody p; destruct (add_all_spec added p l Hl Hu) as (jobs & Hjobs & Huids); [lia|lia|].
  rewrite Hq in Huids; exists jobs; split; [done|]; rewrite Huids.
  split; [rewrite zlen_fmap; unfold zlen; rewrite length_seqZ; lia|]; split.
  - apply NoDup_fmap_2_strong; [|apply NoDup_seqZ].
    intros a b Ha%elem_of_seqZ Hb'%elem_of_seqZ Heq; apply (f_equal queue_number) in Heq.
    rewrite !queue_number_uid in Heq by lia; congruence.
  - intros uid (n & -> & Hn%elem_of_seqZ)%list_elem_of_fmap (t & Ht & Hel)%list_elem_of_fmap.
    pose proof (highest_bound queued t n Hel) as Hle; rewrite <- Ht, queue_number_uid in Hle by lia.
    specialize (Hle eq_refl); lia.
Qed.

Definition demo_queue_uid (uid : string) : ContextTrack := MkContextTrack "spotify:track:x" uid [] None.
Definition demo_options : PlayerOptions := MkOptions false true false ∅.
Definition demo_playing : ContextTrack := MkContextTrack demo_uri "" [] None.
Definition demo_transfer (at_ position : Z) (paused : bool) : TransferState :=
  MkTransfer (MkPlayback at_ position paused (Some demo_playing)) demo_context (Some "theirs") "" demo_options
    [demo_queue_uid "q07"; demo_queue_uid "qx"; demo_queue_uid "q3"] false.

Lemma queued_uids_fresh_witness :
  let p := commit_transfer demo_cfg (demo_env 1000) (demo_transfer 900 0 false) false false None 3
             (demo_snapshot demo_uri) None newPlayer in
  exists jobs, r_jobs (rest (add_all [demo_queue_uid ""; demo_queue_uid ""] p)) = r_jobs (rest p) ++ jobs /\
    NoDup (added_uids jobs).
Proof.
  destruct (queued_uids_fresh demo_cfg (demo_env 1000) (demo_transfer 900 0 false) false false None 3
    (demo_snapshot demo_uri) None newPlayer [demo_queue_uid ""; demo_queue_uid ""])
    as (jobs & Hj & _ & Hnd & _); [repeat constructor | apply Z.ltb_lt; vm_compute; reflexivity |].
  exists jobs; split; [exact Hj | exact Hnd].
Defined.

(** ** Carrying on the playing track *)
Lemma handle_result_submitted cfg e k notBefore p out :
  job_kind_class k = classLoad -> pendingPlayerEvents p = [] ->
  handle_result cfg e (length (r_jobs (rest p))) out (submit_job k notBefore p) =
    drainPendingPlayerEvents (handlePlayerEvent cfg e)
      (commit_job cfg e (MkCtlJob k (loadGen p) (c_tracks (ctl p))) out (set_loadInFlight false (submit_job k notBefore p))).
Proof.
  intros Hk Hp; apply handle_result_landed; [|done|reflexivity].
  unfold submit_job, set_rest; cbn [rest r_jobs].
  unfold generation; rewrite decide_False by (rewrite Hk; done); by apply list_lookup_middle.
Qed.

Lemma transferContinues_same retain ts p f :
  c_primaryStream (f (ctl p)) = c_primaryStream (ctl p) -> c_active (f (ctl p)) = c_active (ctl p) ->
  c_player (f (ctl p)) = c_player (ctl p) -> transferContinues retain ts (upd f p) = transferContinues retain ts p.
Proof.
  intros H1 H2 H3; unfold transferContinues, state; change (ctl (upd f p)) with (f (ctl p)); by rewrite H1, H2, H3.
Qed.

(** A continuation whose position and pause state are already right. *)
Lemma continuePlayback_settled e pb paused p s :
  c_primaryStream (ctl p) = Some s -> ps_IsPaused (state p) = paused ->
  Z.abs (transferred_position (e_now e) pb - trackPosition (e_now e) (state p)) <= transferSeekTolerance ->
  let p' := continuePlayback e pb paused p in
  c_primaryStream (ctl p') = Some s /\ r_jobs (rest p') = r_jobs (rest p) /\
  state p' = setPaused paused (set_IsBuffering false (set_IsPlaying true (state p))) /\
  pendingPlayerEvents p' = pendingPlayerEvents p /\ loadInFlight p' = loadInFlight p /\
  c_effects (ctl p') = c_effects (ctl p) ++ [EffPlayer (PlayerSetSecondary None); EffUpdateState (state p')].
Proof.
  intros Hs Hp Hpos; unfold continuePlayback; cbv zeta.
  change (state (invalidateUpcoming p)) with (state p); rewrite decide_False by lia.
  change (ps_IsPaused (state (upd_state _ (invalidateUpcoming p)))) with (ps_IsPaused (state p)); rewrite Hp.
  destruct paused; cbn [andb negb]; unfold schedulePrefetchNext; repeat case_match; split_and!; try exact Hs; try reflexivity;
    cbn; by rewrite <- app_assoc.
Qed.


(** The track of the demonstration, playing since time 1200. *)
Definition demo_playing_player : Player :=
  run_loop demo_cfg (demo_loading ++ [(demo_env 1200, EvJobResult 1 (OutLoaded demo_stream 4 None))]) newPlayer.


(** ** Transfers that fail *)

(** The state of a device that is active with nothing on it. *)
Record idle_state (s : PlayerState) : Prop := {
  is_playing : ps_IsPlaying s = false /\ ps_IsBuffering s = false /\ ps_IsPaused s = false;
  is_context : ps_ContextUri s = "" /\ ps_ContextUrl s = "";
  is_tracks : ps_Track s = None /\ ps_PrevTracks s = [] /\ ps_NextTracks s = [] /\ ps_Index s = None;
  is_position : ps_PositionAsOfTimestamp s = 0
}.

Lemma abandonTransfer_spec e p :
  let p' := abandonTransfer e p in
  idle_state (state p') /\ list_of p' = (None, 0) /\ c_primaryStream (ctl p') = None /\
  c_active (ctl p') = c_active (ctl p) /\ pendingPlayerEvents p' = pendingPlayerEvents p /\
  c_effects (ctl p') = c_effects (ctl p) ++
    [match c_primaryStream (ctl p) with Some _ => EffPlayer PlayerStop | None => EffEmit ApiStopped end;
     EffFlushState (state p')].
Proof.
  unfold abandonTransfer; cbv zeta; destruct (c_primaryStream (ctl p)) eqn:Hs; split_and!; try reflexivity.
  all: try exact Hs.
  all: try (split; repeat split).
  all: cbn; by rewrite <- app_assoc.
Qed.

(** What the device reports from the moment a transfer is claimed. *)
Lemma claim_and_load_spec e ts paused p track :
  claimed_track e ts = Ret track ->
  let p1 := (claim_and_load e ts paused p).1 in
  exists q, p1 = transferContext ts paused false q /\
    state q = claim_transfer e ts paused track (state p) /\ c_active (ctl q) = true /\
    c_primaryStream (ctl q) = c_primaryStream (ctl p) /\ pendingPlayerEvents q = pendingPlayerEvents p /\
    r_jobs (rest q) = r_jobs (rest p) /\
    c_effects (ctl q) = c_effects (ctl p) ++ [EffFlushState (state q); EffEmit ApiActive].
Proof.
  intros Ht; unfold claim_and_load; rewrite Ht; cbn [with_run fst]; eexists; split; [reflexivity|].
  set (q0 := upd (setActive (e_now e) true) p).
  assert (state q0 = state p /\ c_active (ctl q0) = true /\ c_primaryStream (ctl q0) = c_primaryStream (ctl p) /\
    pendingPlayerEvents q0 = pendingPlayerEvents p /\ r_jobs (rest q0) = r_jobs (rest p) /\
    c_effects (ctl q0) = c_effects (ctl p)) as (H1 & H2 & H3 & H4 & H5 & H6).
  { unfold q0, state; change (ctl (upd ?f p)) with (f (ctl p)); unfold setActive.
    destruct (c_active (ctl p)) eqn:Ha; split_and!; try reflexivity; exact Ha. }
  clearbody q0; rewrite <- H1, <- H6; split_and!; try reflexivity; try assumption; cbn; by rewrite <- app_assoc.
Qed.



(** ** Who holds the session *)

(** Commands that make the device active, with the state they take over from:
    a play on a device that is not active takes over from whoever the cluster
    last reported, a transfer from the device that sent it. *)
Inductive activates (e : Env) (p : Player) : DealerCommand -> Z -> Prop :=
| activates_play cx override skipTo paused :
    c_active (ctl p) = false ->
    activates e p (CmdPlay cx override skipTo paused) (c_lastClusterTimestamp (ctl p))
| activates_transfer ts restoreTrack restorePaused retain track :
    emptyContext (ts_Context ts) = false -> transferContinues retain ts p = Ret false ->
    claimed_track e ts = Ret track ->
    activates e p (CmdTransfer (Some ts) restoreTrack restorePaused retain) (pb_Timestamp (ts_Playback ts)).

Lemma activates_spec cfg e p cmd t :
  activates e p cmd t ->
  let p1 := (handlePlayerCommand cfg e cmd p).1 in c_active (ctl p1) = true /\ c_activationTimestamp (ctl p1) = t.
Proof.
  intros []; cbn [handlePlayerCommand fst].
  - unfold playContext.
    change (ctl (loadContext _ _ _ _ _ _ (upd_state ?f ?q))) with
      (add_effect (EffUpdateState (claim_context e cx paused (f (c_player (ctl q))))) (on_player (claim_context e cx paused) (on_player f (ctl q)))).
    change (ctl (upd (takeOver (e_now e)) p)) with (takeOver (e_now e) (ctl p)).
    unfold takeOver, setActive; destruct (ctl p); cbn in *; subst; split; reflexivity.
  - unfold transferCommand; cbv zeta; rewrite H; unfold take_over; cbv zeta.
    rewrite transferContinues_same, H0 by reflexivity; cbn [with_run]; unfold claim_and_load; rewrite H1; cbn [with_run fst].
    set (q := upd (setActive (e_now e) true) _).
    change (ctl (transferContext ts _ false _)) with
      (add_effect (EffEmit ApiActive) (add_effect (EffFlushState (state (upd_state (claim_transfer e ts
         (pb_IsPaused (ts_Playback ts) && bool_decide (restorePaused <> "resume")) track) q)))
         (ctl (upd_state (claim_transfer e ts (pb_IsPaused (ts_Playback ts) && bool_decide (restorePaused <> "resume")) track) q)))).
    assert (c_active (ctl q) = true /\ c_activationTimestamp (ctl q) = pb_Timestamp (ts_Playback ts)) as [Ha Ht].
    { unfold q; change (ctl (upd ?f (upd ?g p))) with (f (g (ctl p))); unfold setActive.
      change (c_active (set_activationTimestamp ?v (ctl p))) with (c_active (ctl p)).
      destruct (c_active (ctl p)) eqn:Hact; split; try reflexivity; exact Hact. }
    split; [exact Ha | exact Ht].
Qed.

(** Playback taken over is not given up to the device it was taken from.
    After a play or a transfer made this device active, a cluster update that
    names another device active but describes a state no newer than the one
    taken over changes nothing; any newer one means playback moved away, and
    stops it. *)
Theorem stale_cluster_ignored (cfg : Config) (e1 e2 : Env) (p : Player) (cmd : DealerCommand) (t t' : Z) :
  activates e1 p cmd t ->
  let p1 := handle_event cfg e1 (EvCommand cmd) p in
  let p2 := handle_event cfg e2 (EvCluster false t') p1 in
  c_active (ctl p1) = true /\ (t' <= t -> p2 = p1) /\
  (t < t' -> p2 = stopPlayback cfg e2 p1 /\ c_active (ctl p2) = false /\ c_primaryStream (ctl p2) = None).
Proof.
  intros Hact p1 p2; destruct (activates_spec cfg e1 p cmd t Hact) as [Ha Ht].
  change ((handlePlayerCommand cfg e1 cmd p).1) with p1 in Ha, Ht; split; [done|].
  assert (p2 = if bool_decide (t < t') then stopPlayback cfg e2 p1 else p1) as ->.
  { unfold p2; clearbody p1; cbn [handle_event]; unfold handleCluster; cbv zeta; rewrite !Ha; cbn [andb negb]; by rewrite Ht. }
  split; intros Hlt; [by rewrite bool_decide_eq_false_2 by lia|]; rewrite bool_decide_eq_true_2 by lia.
  split; [done|]; clearbody p1; split; [|apply stopPlayback_idle].
  unfold stopPlayback; destruct (ZeroconfEnabled cfg); reflexivity.
Qed.

Lemma stale_cluster_ignored_witness :
  let p := handle_event demo_cfg (demo_env 900) (EvCluster false 800) newPlayer in
  let p1 := handle_event demo_cfg (demo_env 1000) (EvCommand (CmdPlay demo_context None SkipToNone false)) p in
  handle_event demo_cfg (demo_env 1100) (EvCluster false 800) p1 = p1.
Proof.
  cbv zeta; apply (stale_cluster_ignored demo_cfg (demo_env 1000) (demo_env 1100)
    (handle_event demo_cfg (demo_env 900) (EvCluster false 800) newPlayer)
    (CmdPlay demo_context None SkipToNone false) 800 800); [|lia].
  apply (activates_play (demo_env 1000) (handle_event demo_cfg (demo_env 900) (EvCluster false 800) newPlayer)); reflexivity.
Defined.
