(* ===== verification/ApiClaims.v ===== *)
(** * Requests of the API and of the desktop: theorems *)

From stdpp Require Import gmap.
From S2P Require Import Prelude Ids Tracks Loader PlayerState Requests QueueIds Controls Transfer Loop.
From S2P Require Import ControlsProps ControlsFuel ControlsClaims.
#[local] Open Scope string_scope.
#[local] Open Scope list_scope.
#[local] Open Scope Z_scope.

(** ** Starting away from the beginning *)

(** The commands the output got, in order. *)
Definition commands (effs : list effect) : list PlayerCommand :=
  omap (fun ef => match ef with EffPlayer c => Some c | _ => None end) effs.

Lemma commands_app l l' : commands (l ++ l') = commands l ++ commands l'.
Proof. apply omap_app. Qed.

Definition heard (p : Player) : list PlayerCommand := commands (c_effects (ctl p)).

Lemma heard_schedule e p : heard (schedulePrefetchNext e p) = heard p.
Proof. unfold schedulePrefetchNext; repeat case_match; reflexivity. Qed.

Lemma heard_effect ef p : heard (do_effect ef p) = heard p ++ commands [ef].
Proof. unfold heard; rewrite effects_do; apply commands_app. Qed.

Lemma seek_spec e position p s :
  c_primaryStream (ctl p) = Some s -> e_seek e = None ->
  let p' := (seek e position p).1 in
  let target := clamp_position position (st_Duration s) in
  state p' = set_PositionAsOfTimestamp target (set_Timestamp (e_now e) (state p)) /\
  c_primaryStream (ctl p') = Some s /\ heard p' = heard p ++ [PlayerSeek target] /\
  pendingPlayerEvents p' = pendingPlayerEvents p.
Proof.
  intros Hs He; unfold seek; rewrite Hs, He; cbn [fst]; set (target := clamp_position _ _).
  unfold schedulePrefetchNext; repeat case_match; split_and!; try reflexivity; try exact Hs;
    unfold heard; cbn; rewrite !commands_app; cbn; by rewrite !app_nil_r.
Qed.

Lemma loop_play_spec e p s :
  c_primaryStream (ctl p) = Some s -> e_seek e = None -> e_play e = None ->
  let p' := (play e p).1 in
  state p' = setPaused false (set_PositionAsOfTimestamp (e_positionAfter e) (set_Timestamp (e_now e) (state p))) /\
  c_primaryStream (ctl p') = Some s /\
  heard p' = heard p ++ [PlayerSeek (clamp_position (trackPosition (e_now e) (state p)) (st_Duration s)); PlayerPlay] /\
  pendingPlayerEvents p' = pendingPlayerEvents p.
Proof.
  intros Hs He Hp; unfold play; rewrite Hs, He, Hp; cbn [fst].
  unfold schedulePrefetchNext; repeat case_match; split_and!; try reflexivity; try exact Hs;
    unfold heard; cbn; rewrite !commands_app; cbn; rewrite !app_nil_r; by rewrite <- app_assoc.
Qed.

Lemma run_then_start cfg e drop position paused p :
  run_then cfg e (ThenOrSkip drop (ThenContext (ThenStart position paused))) None p = start_at e position paused p.
Proof. reflexivity. Qed.

(** Playing from a position starts there: nothing is heard from anywhere
    else.  When the track, loaded paused, has landed, the output is sent to the
    position, cut off to the track, and only then told to play; the state
    reported after that is playing, where the output says it is. *)
Theorem play_starts_at_position (cfg : Config) (e : Env) (p : Player) (id : nat) (o : LoadOpts) (drop : bool)
    (l : option nat) (s : Stream) (streamGen : Z) (resumed : option Z) (position : Z) :
  pendingPlayerEvents p = [] -> 0 < position -> 0 <= st_Duration s ->
  r_jobs (rest p) !! id =
    Some (MkCtlJob (JobLoad o (ThenOrSkip drop (ThenContext (ThenStart position false)))) (loadGen p) l) ->
  ps_IsPaused (state p) = true -> lo_paused o = true -> e_seek e = None -> e_play e = None ->
  let p2 := handle_event cfg e (EvJobResult id (OutLoaded s streamGen resumed)) p in
  let target := clamp_position position (st_Duration s) in
  heard p2 = heard p ++ [PlayerSeek target; PlayerSeek target; PlayerPlay] /\
  ps_IsPaused (state p2) = false /\ ps_PlaybackSpeed (state p2) = 1 /\
  ps_PositionAsOfTimestamp (state p2) = e_positionAfter e /\ c_primaryStream (ctl p2) = Some s.
Proof.
  intros Hpend Hpos Hd Hj Hpaused Ho Hseek Hplay p2 target.
  set (q := forgetReplacedStreamEvents (set_loadInFlight false p) streamGen).
  set (start := StartPosition (default (lo_position o) resumed) (st_Duration s)).
  set (p3 := commitLoad e s true start q).
  assert (p2 = drainPendingPlayerEvents (handlePlayerEvent cfg e) (start_at e position false p3)) as ->.
  { unfold p2; cbn [handle_event]; rewrite (handle_result_landed cfg e id _ p _ Hj) by reflexivity.
    unfold commit_job; cbn [cj_kind]; rewrite run_then_start; unfold commit_loaded; rewrite Ho; reflexivity. }
  destruct (commitLoad_spec e s true start q) as (H1 & _ & _ & H4 & _ & _ & H7); fold p3 in H1, H4, H7.
  assert (ps_IsPaused (state q) = true) as Hq by exact Hpaused; rewrite Hq in H1.
  assert (heard p3 = heard p) as Hh.
  { unfold p3, commitLoad; cbv zeta.
    change (ps_IsPaused (state (upd (set_primaryStream (Some s)) q))) with (ps_IsPaused (state q)).
    rewrite Hq, bool_decide_eq_true_2 by done; unfold emit; rewrite heard_effect, heard_schedule.
    unfold do_updateState; rewrite heard_effect; cbn [commands omap list_omap]; by rewrite !app_nil_r. }
  assert (pendingPlayerEvents p3 = []) as Hp3 by (rewrite H7; unfold q, forgetReplacedStreamEvents; cbn; by rewrite Hpend).
  clearbody p3; unfold start_at; rewrite decide_False by lia; cbv zeta.
  destruct (seek_spec e position p3 s H4 Hseek) as (S1 & S2 & S3 & S4); fold target in S1, S3.
  set (p4 := (seek e position p3).1) in *; clearbody p4.
  destruct (loop_play_spec e p4 s S2 Hseek Hplay) as (P1 & P2 & P3 & P4); set (p5 := (play e p4).1) in *; clearbody p5.
  rewrite drain_none by (by rewrite P4, S4).
  assert (trackPosition (e_now e) (state p4) = target) as Htp.
  { unfold trackPosition; rewrite S1.
    change (ps_IsPaused (set_PositionAsOfTimestamp target (set_Timestamp (e_now e) (state p3)))) with (ps_IsPaused (state p3)).
    by rewrite H1. }
  assert (clamp_position target (st_Duration s) = target) as Hc by (unfold target, clamp_position; lia).
  split_and!; [rewrite P3, S3, Hh, Htp, Hc, <- app_assoc; reflexivity | by rewrite P1 .. | exact P2].
Qed.

(** The API asks for a context from 30 s on, and it loads. *)
Definition demo_start : list (Env * LoopEvent) :=
  [(demo_env 1000, EvApi (ReqPlay (MkApiPlay "spotify:playlist:p" "" false 30000)));
   (demo_env 1100, EvJobResult 0 (OutResolved demo_context));
   (demo_env 1200, EvJobResult 1 (OutContext 7 (demo_snapshot demo_uri)))].

Definition demo_starting : Player := run_loop demo_cfg demo_start newPlayer.

Lemma play_starts_at_position_witness :
  let p2 := handle_event demo_cfg (demo_env 1300) (EvJobResult 2 (OutLoaded demo_stream 4 None)) demo_starting in
  heard p2 = heard demo_starting ++ [PlayerSeek 30000; PlayerSeek 30000; PlayerPlay].
Proof.
  cbv zeta; assert (exists o drop l, r_jobs (rest demo_starting) !! 2%nat =
    Some (MkCtlJob (JobLoad o (ThenOrSkip drop (ThenContext (ThenStart 30000 false)))) (loadGen demo_starting) l) /\
    lo_paused o = true) as (o & drop & l & Hj & Ho) by (eexists _, _, _; split; vm_compute; reflexivity).
  destruct (play_starts_at_position demo_cfg (demo_env 1300) demo_starting 2 o drop l demo_stream 4 None 30000)
    as [Hh _]; [vm_compute; reflexivity | reflexivity | discriminate | exact Hj | vm_compute; reflexivity | exact Ho
    | reflexivity | reflexivity | exact Hh].
Defined.

(** A pause given while a track started from a position is loading does not
    hold: once the track has landed it is played all the same, although a pause
    given while any other track loads is honoured. *)
Theorem start_position_overrides_pause :
  let p := run_loop demo_cfg (demo_start ++ [(demo_env 1250, EvApi ReqPause);
             (demo_env 1300, EvJobResult 2 (OutLoaded demo_stream 4 None))]) newPlayer in
  ps_IsPaused (state p) = false /\ last (heard p) = Some PlayerPlay.
Proof. vm_compute; split; reflexivity. Qed.

(** ** Requests that panic *)

(** Setting the position over D-Bus with the root path, a valid object path,
    ends the daemon: its fourth component is taken without checking that there is
    one. *)
Theorem short_object_path_panics (positionUs : Z) :
  c_crash (ctl (handle_event demo_cfg (demo_env 1000) (EvMpris (MprisSetPosition true "/" positionUs)) newPlayer)) =
    Some (Panicked "slice bounds out of range").
Proof. reflexivity. Qed.

(** A uri to start from that does not parse panics at the first track that has a
    gid and no uri. *)
Lemma invalid_skip_uri_panics uri er gid :
  SpotifyIdFromUri uri = Ret (Err er) -> gid <> [] ->
  api_matches uri (MkContextTrack "" "" gid None) = Panic "nil pointer dereference".
Proof.
  intros Hu Hg; unfold api_matches; cbn [ct_Uri ct_Gid]; rewrite decide_False by tauto.
  rewrite decide_True by (destruct gid; [done | rewrite zlen_cons; pose proof (zlen_nonneg gid); lia]).
  by rewrite Hu.
Qed.

(** ** Modes *)
Lemma set_modes_spec (modes old : gmap string string) :
  let '(m, changed) := map_fold set_mode (old, false) modes in
  (forall mode, default "" (m !! mode) = default (default "" (old !! mode)) (modes !! mode)) /\
  (changed = false -> m = old) /\
  (changed = true -> exists mode v, modes !! mode = Some v /\ default "" (old !! mode) <> v).
Proof.
  induction modes as [|mode v modes Hnew Hfirst IH] using map_first_key_ind.
  - rewrite map_fold_empty; split_and!; [intros; by rewrite lookup_empty | done | done].
  - rewrite map_fold_insert_first_key by done.
    destruct (map_fold set_mode (old, false) modes) as [m changed]; destruct IH as (IH1 & IH2 & IH3).
    unfold set_mode; cbn [fst].
    assert (default "" (m !! mode) = default "" (old !! mode)) as Hm by (by rewrite IH1, Hnew).
    case_decide as Hv; split_and!.
    + intros mode'; rewrite IH1; destruct (decide (mode' = mode)) as [->|]; [|by rewrite lookup_insert_ne].
      rewrite lookup_insert_eq, Hnew; cbn; congruence.
    + done.
    + intros (mode' & v' & Hl & Hd)%IH3; exists mode', v'; split; [|done].
      rewrite lookup_insert_ne by (intros ->; by rewrite Hnew in Hl); done.
    + intros mode'; destruct (decide (mode' = mode)) as [->|].
      * by rewrite !lookup_insert_eq.
      * rewrite !lookup_insert_ne by done; apply IH1.
    + done.
    + intros _; exists mode, v; rewrite lookup_insert_eq; split; [done | congruence].
Qed.

(** Modes are merged into the ones reported: every mode given reads as given,
    the others as before, and the state is pushed exactly when one of them
    changed. *)
Theorem modes_merged (modes : gmap string string) (p : Player) :
  let p' := setModes modes p in
  (forall mode, default "" (ps_Modes (state p') !! mode) =
     default (default "" (ps_Modes (state p) !! mode)) (modes !! mode)) /\
  ((p' = p /\ forall mode v, modes !! mode = Some v -> default "" (ps_Modes (state p) !! mode) = v) \/
   (c_effects (ctl p') = c_effects (ctl p) ++ [EffUpdateState (state p')] /\
    exists mode v, modes !! mode = Some v /\ default "" (ps_Modes (state p) !! mode) <> v)).
Proof.
  cbv zeta; unfold setModes; pose proof (set_modes_spec modes (ps_Modes (state p))) as Hspec.
  destruct (map_fold set_mode (ps_Modes (state p), false) modes) as [m [|]]; destruct Hspec as (H1 & H2 & H3).
  - split; [exact H1|]; right; split; [reflexivity | by apply H3].
  - rewrite H2 in H1 by done; split; [exact H1|]; left; split; [done|]; intros mode v Hl.
    by rewrite H1, Hl.
Qed.
