(* ===== verification/Volume.v ===== *)
(** * Volumes ([volumeSteps], [volumeFromApi], [sessionVolume] and [updateVolume]
    of [src/daemon/controls.go])

    The volume is kept in 0..65535; the API speaks in steps.  32-bit arithmetic
    wraps, and a number of steps of zero makes the divisions panic. *)

From S2P Require Import Prelude.
#[local] Open Scope Z_scope.

Definition MaxStateVolume : Z := 65535.

(** [math.Round(float64(a) / 65535)] for a 32-bit [a]: the quotient is never
    halfway between two integers, 65535 being odd, and lies further from it than
    the error of the division. *)
Definition round_div (a : Z) : Z := (2 * a + MaxStateVolume) `div` (2 * MaxStateVolume).

Definition volumeSteps (steps volume : Z) : Z := round_div (u32 (volume * steps)).

(** [ApiSetVolume]. *)
Record ApiSetVolume := MkSetVolume { sv_Volume : Z; sv_Relative : bool }.

Definition volumeFromApi (steps : Z) (data : ApiSetVolume) (current : Z) : run Z :=
  let steps32 := i32 steps in
  let target := if sv_Relative data then i32 (sv_Volume data + i32 (volumeSteps steps current)) else sv_Volume data in
  let target := Z.max (Z.min target steps32) 0 in
  if decide (u32 steps32 = 0) then Panic "integer divide by zero"
  else Ret (u32 (u32 target * MaxStateVolume) `div` u32 steps32).

(** The volume set while this process runs, the one saved earlier, and the
    configuration. *)
Record VolumeState := MkVolume {
  vs_volume : option Z;
  vs_last : option Z;
  vs_ignoreLast : bool;
  vs_initial : Z;
  vs_steps : Z
}.

Definition setVolume (newVal : Z) (s : VolumeState) : VolumeState :=
  MkVolume (Some newVal) (Some newVal) (vs_ignoreLast s) (vs_initial s) (vs_steps s).

Definition sessionVolume (s : VolumeState) : run Z :=
  match vs_volume s with
  | Some v => Ret v
  | None =>
    match vs_ignoreLast s, vs_last s with
    | false, Some v => Ret v
    | _, _ =>
      if decide (vs_steps s = 0) then Panic "integer divide by zero"
      else Ret (u32 (Z.min (vs_initial s) (vs_steps s) * MaxStateVolume) `div` vs_steps s)
    end
  end.

(** The volume of a session: what the output is set to, the channel of one slot
    that carries changes to the player loop, and the volume the device reports.
    The channel carries [float32(newVal) / 65535], which the loop multiplies back
    and rounds; both roundings together move a number of sixteen bits by less
    than a hundredth, so the slot holds the number itself. *)
Record SessionVolume := MkSessionVolume {
  sv_app : VolumeState;
  sv_output : Z;
  sv_update : option Z;
  sv_reported : Z
}.

(** [updateVolume] on a 32-bit unsigned value, which is never below zero. *)
Definition updateVolume (newVal : Z) (s : SessionVolume) : SessionVolume :=
  let newVal := if decide (MaxStateVolume < newVal) then MaxStateVolume else newVal in
  MkSessionVolume (setVolume newVal (sv_app s)) newVal (Some newVal) (sv_reported s).

(** The loop takes a volume off the channel. *)
Definition receive_volume (s : SessionVolume) : SessionVolume :=
  match sv_update s with
  | None => s
  | Some v => MkSessionVolume (sv_app s) (sv_output s) None v
  end.

Definition setVolumeWithoutSession (data : ApiSetVolume) (s : VolumeState) : run VolumeState :=
  current ← sessionVolume s;
  newVal ← volumeFromApi (vs_steps s) data current;
  Ret (setVolume newVal s).

Definition volumeWithoutSession (s : VolumeState) : run Z :=
  v ← sessionVolume s; Ret (volumeSteps (vs_steps s) v).

(** ** Helper lemmas *)

(** Numbers of steps for which no 32-bit product wraps. *)
Definition steps_ok (steps : Z) : Prop := 1 <= steps <= 32767.

Lemma i32_small z : - 2 ^ 31 <= z < 2 ^ 31 -> i32 z = z.
Proof.
  intros Hz; unfold i32, swrap, wrap.
  change (2 ^ (32 - 1)) with (2 ^ 31); rewrite Z.mod_small by lia; lia.
Qed.

Lemma round_div_exact v steps :
  steps_ok steps -> 0 <= v <= steps -> round_div ((v * MaxStateVolume) `div` steps * steps) = v.
Proof.
  unfold steps_ok, round_div, MaxStateVolume; intros Hs Hv.
  pose proof (Z.div_mod (v * 65535) steps) as Hdm; pose proof (Z.mod_pos_bound (v * 65535) steps) as Hm.
  symmetry; apply (Z.div_unique_pos _ _ _ (2 * ((v * 65535) `div` steps * steps) + 65535 - (2 * 65535) * v)); nia.
Qed.

Lemma volumeSteps_bound steps v : steps_ok steps -> 0 <= v <= MaxStateVolume -> 0 <= volumeSteps steps v <= steps.
Proof.
  unfold steps_ok, volumeSteps, u32, round_div, MaxStateVolume; intros Hs Hv; rewrite wrap_small by nia.
  split; [apply Z.div_pos; nia|]; apply Z.lt_succ_r, Z.div_lt_upper_bound; nia.
Qed.

Lemma volumeFromApi_value steps data current target :
  steps_ok steps ->
  target = Z.max (Z.min (if sv_Relative data then i32 (sv_Volume data + i32 (volumeSteps steps current))
                         else sv_Volume data) steps) 0 ->
  volumeFromApi steps data current = Ret ((target * MaxStateVolume) `div` steps) /\ 0 <= target <= steps.
Proof.
  unfold steps_ok; intros Hs Ht; unfold volumeFromApi; rewrite (i32_small steps) by lia; cbv zeta; rewrite <- Ht.
  assert (0 <= target <= steps) as Hr by lia; split; [|done].
  assert (u32 steps = steps) as -> by (unfold u32; apply wrap_small; lia).
  rewrite decide_False by lia; do 2 f_equal.
  unfold u32, MaxStateVolume; rewrite (wrap_small 32 target) by lia; apply wrap_small; nia.
Qed.

(** A volume set through the API is the one it reads back: with up to 32767
    steps every step survives the conversion to the internal range and back, a
    relative change is added to the step reported before and cut off at the
    ends, and the internal volume stays in 0..65535. *)
Theorem volume_roundtrip (data : ApiSetVolume) (s : VolumeState) (current : Z) :
  steps_ok (vs_steps s) -> sessionVolume s = Ret current -> 0 <= current <= MaxStateVolume ->
  - 2 ^ 30 <= sv_Volume data <= 2 ^ 30 ->
  exists s' v, setVolumeWithoutSession data s = Ret s' /\ sessionVolume s' = Ret v /\ 0 <= v <= MaxStateVolume /\
    volumeWithoutSession s' =
      Ret (Z.max (Z.min (if sv_Relative data then sv_Volume data + volumeSteps (vs_steps s) current
                         else sv_Volume data) (vs_steps s)) 0).
Proof.
  intros Hs Hcur Hrange Hv; pose proof (volumeSteps_bound (vs_steps s) current Hs Hrange) as Hb.
  set (target := Z.max _ 0).
  destruct (volumeFromApi_value (vs_steps s) data current target Hs) as [Hval Ht].
  { unfold target, steps_ok in *; destruct (sv_Relative data); [|done]; rewrite (i32_small (volumeSteps _ _)) by lia.
    rewrite i32_small by lia; done. }
  unfold setVolumeWithoutSession; rewrite Hcur; cbn [mbind run_bind]; rewrite Hval; cbn [mbind run_bind].
  eexists _, _; split; [reflexivity|]; split; [reflexivity|].
  assert (0 <= (target * MaxStateVolume) `div` vs_steps s <= MaxStateVolume) as Hvol.
  { unfold steps_ok, MaxStateVolume in *; split; [apply Z.div_pos; lia|].
    apply Z.div_le_upper_bound; nia. }
  split; [done|]; unfold volumeWithoutSession; cbn [sessionVolume setVolume vs_volume vs_steps mbind run_bind].
  f_equal; unfold volumeSteps, u32; rewrite wrap_small by (unfold steps_ok, MaxStateVolume in *; nia).
  by apply round_div_exact.
Qed.

Definition demo_volume : VolumeState := MkVolume None (Some 32768) false 100 100.

Lemma volume_roundtrip_witness :
  exists s' v, setVolumeWithoutSession (MkSetVolume 7 true) demo_volume = Ret s' /\ sessionVolume s' = Ret v /\
    0 <= v <= MaxStateVolume /\ volumeWithoutSession s' = Ret 57.
Proof.
  apply (volume_roundtrip (MkSetVolume 7 true) demo_volume 32768);
    [vm_compute; split; discriminate | reflexivity | vm_compute; split; discriminate | vm_compute; split; discriminate].
Defined.
