(* ===== verification/VorbisMeta.v ===== *)
(** * The metadata page of an Ogg Vorbis file ([src/vorbis/metadata.go])

    A Spotify file starts with an Ogg page of its own, which holds a seek table
    and the track's gains.  The parser of that page, the byte position the seek
    table gives for a position in the track, and the section readers
    ([io.SectionReader]) the rest of the file is read through.  libogg is a
    parameter. *)

From S2P Require Import Prelude Floats Chunked Conn.
#[local] Open Scope list_scope.
#[local] Open Scope Z_scope.

(** ** [io.SectionReader] and [io.ReadFull] *)
Section section_reader.
Context {R : Type} `{ReaderAt R}.

Record SectionReader := MkSection { sec_r : R; sec_base : Z; sec_off : Z; sec_limit : Z }.

Definition NewSectionReader (r : R) (off n : Z) : SectionReader :=
  MkSection r off off (if decide (off <= 2 ^ 63 - 1 - n) then n + off else 2 ^ 63 - 1).

Definition sec_Read (s : SectionReader) (n : Z) : run (SectionReader * list Z * option error) :=
  if decide (sec_limit s <= sec_off s) then Ret (s, [], Some io_EOF)
  else
    '(r, out, err) ← ra_ReadAt (sec_r s) (Z.min n (sec_limit s - sec_off s)) (sec_off s);
    Ret (MkSection r (sec_base s) (sec_off s + zlen out) (sec_limit s), out, err).

(** [io.ReadFull]: reads until the buffer is full or a read fails. *)
Fixpoint read_full (fuel : nat) (s : SectionReader) (n : Z) (acc : list Z)
  : run (SectionReader * list Z * option error) :=
  if decide (n <= 0) then Ret (s, acc, None)
  else
    match fuel with
    | O => OutOfFuel
    | S fuel =>
      '(s, out, err) ← sec_Read s n;
      match err with
      | None => read_full fuel s (n - zlen out) (acc ++ out)
      | Some e =>
        if decide (n <= zlen out) then Ret (s, acc ++ out, None)
        else if bool_decide (0 < zlen (acc ++ out)) && bool_decide (e = io_EOF)
        then Ret (s, acc ++ out, Some io_ErrUnexpectedEOF)
        else Ret (s, acc ++ out, Some e)
      end
    end.

Definition sec_ReadFull (s : SectionReader) (n : Z) : run (SectionReader * list Z * option error) :=
  read_full (S (Z.to_nat n)) s n [].

Definition sec_SeekStart (s : SectionReader) (offset : Z) : SectionReader * result Z :=
  let offset := i64 (offset + sec_base s) in
  if decide (offset < sec_base s) then (s, Err (EMsg "Seek: invalid offset"))
  else (MkSection (sec_r s) (sec_base s) offset (sec_limit s), Ok (offset - sec_base s)).

Definition sec_Size (s : SectionReader) : Z := sec_limit s - sec_base s.
End section_reader.
Arguments SectionReader : clear implicits.

(** ** libogg

    The calls the program makes: [Y] synchronises a byte stream into pages
    [P], [S] a stream of pages into packets [K]. *)
Class OggLib (Y S P K : Type) := {
  oggSyncInit : Y;
  oggSyncWrote : Y -> list Z -> Y;
  oggSyncPageout : Y -> Y * Z * P;
  oggSyncReturned : Y -> Z;
  oggStreamInit : Z -> S;
  oggStreamPagein : S -> P -> S * Z;
  oggStreamPacketout : S -> S * Z * K;
  oggPageSerialno : P -> Z;
  oggPageGranulepos : P -> Z;
  oggPageEos : P -> Z;
  oggPacketBytes : K -> list Z
}.

(** ** The page *)
Definition segmentTypeSeekTable : Z := 0.
Definition segmentTypeReplayGain : Z := 1.
Definition segmentTypeFFFFFFFF : Z := 2.

Definition seekTableLookup : list Z :=
  [0; 112; 197; 327; 374; 394; 407; 417; 425; 433; 439; 444; 449; 454; 458; 462; 466; 470; 473; 477; 480; 483;
   486; 489; 491; 494; 497; 499; 502; 504; 506; 509; 511; 513; 515; 517; 519; 521; 523; 525; 527; 529; 531;
   533; 535; 537; 538; 540; 542; 544; 545; 547; 549; 550; 552; 554; 555; 557; 558; 560; 562; 563; 565; 566;
   568; 569; 571; 572; 574; 575; 577; 578; 580; 581; 583; 584; 585; 587; 588; 590; 591; 593; 594; 595; 597;
   598; 599; 601; 602; 604; 605; 606; 608; 609; 610; 612; 613; 615; 616; 617; 619; 620; 621; 623; 624; 625;
   627; 628; 629; 631; 632; 634; 635; 636; 638; 639; 640; 642; 643; 644; 646; 647; 649; 650; 651; 653; 654;
   655; 657; 658; 660; 661; 662; 664; 665; 667; 668; 669; 671; 672; 674; 675; 677; 678; 679; 681; 682; 684;
   685; 687; 688; 690; 691; 693; 694; 696; 697; 699; 700; 702; 704; 705; 707; 708; 710; 712; 713; 715; 716;
   718; 720; 721; 723; 725; 727; 728; 730; 732; 734; 735; 737; 739; 741; 743; 745; 747; 748; 750; 752; 754;
   756; 758; 760; 763; 765; 767; 769; 771; 773; 776; 778; 780; 782; 785; 787; 790; 792; 795; 797; 800; 803;
   805; 808; 811; 814; 817; 820; 823; 826; 829; 833; 836; 840; 843; 847; 851; 855; 859; 863; 868; 872; 877;
   882; 887; 893; 898; 904; 911; 918; 925; 933; 941; 951; 961; 972; 985; 1000; 1017; 1039; 1067; 1108; 1183;
   1520; 2658; 4666; 8191].

(** The gains are kept as the 32 bits of the [float32]s. *)
Record MetadataPage := MkMetadata {
  seekSamples : Z;
  seekSize : Z;
  offset : Z;
  seekTable : list Z;
  hasSeekTable : bool;
  trackGainDb : Z;
  trackPeak : Z;
  albumGainDb : Z;
  albumPeak : Z;
  hasReplayGain : bool
}.

Definition emptyMetadata : MetadataPage := MkMetadata 0 0 0 [] false 0 0 0 0 false.

(** ** Reading a [bytes.Reader]

    The bytes left, and a value or an error; reading past a slice's end is a
    panic. *)
Definition reader (A : Type) : Type := list Z -> run (list Z * result A).

Definition rret {A} (a : A) : reader A := fun l => Ret (l, Ok a).
Definition rfail {A} (e : error) : reader A := fun l => Ret (l, Err e).
Definition rbind {A B} (m : reader A) (f : A -> reader B) : reader B := fun l =>
  '(l, x) ← m l;
  match x with Ok a => f a l | Err e => Ret (l, Err e) end.

Declare Scope reader_scope.
Delimit Scope reader_scope with reader.
Notation "x <- m ;; k" := (rbind m (fun x => k)) (at level 100, m at next level, right associativity) : reader_scope.
#[local] Open Scope reader_scope.

(** [binary.Read] of [n] little-endian bytes, its error wrapped. *)
Definition read_le (msg : string) (n : Z) : reader Z := fun l =>
  match ReadFull n l with
  | (rest, Ok bs) => Ret (rest, Ok (le_val bs))
  | (rest, Err e) => Ret (rest, Err (EWrap msg e))
  end.

Definition lookup_at (i : Z) : reader Z := fun l =>
  match nthZ seekTableLookup i with
  | Some x => Ret (l, Ok x)
  | None => Panic "index out of range"
  end.

(** The entries of the table, each the one before plus a step. *)
Fixpoint read_entries (k : nat) (cum : Z) (table : list Z) : reader (list Z) :=
  match k with
  | O => rret table
  | S k =>
    idx <- read_le "failed reading seek table index" 1;;
    step <- lookup_at idx;;
    read_entries k (i32 (cum + step)) (table ++ [i32 (cum + step)])
  end.

Definition read_seek_table (md : MetadataPage) : reader MetadataPage :=
  samples <- read_le "failed reading seek table samples size" 4;;
  size <- read_le "failed reading seek table bytes size" 4;;
  off <- read_le "failed reading seek table offset" 1;;
  first <- lookup_at off;;
  table <- read_entries 100 (- first) [];;
  rret (MkMetadata samples size (- first) table true
    (trackGainDb md) (trackPeak md) (albumGainDb md) (albumPeak md) (hasReplayGain md)).

(** [if _, err := seg.ReadByte(); !errors.Is(err, io.EOF)]: the segment must
    end here. *)
Definition read_end : reader unit := fun l =>
  match l with
  | [] => Ret (l, Ok tt)
  | _ :: rest => Ret (rest, Err (EMsg "replay gain metadata underrun"))
  end.

Definition read_replay_gain (md : MetadataPage) : reader MetadataPage :=
  tg <- read_le "failed reading track gain metadata" 4;;
  tp <- read_le "failed reading track peek metadata" 4;;
  ag <- read_le "failed reading album gain metadata" 4;;
  ap <- read_le "failed reading album peek metadata" 4;;
  _ <- read_end;;
  rret (MkMetadata (seekSamples md) (seekSize md) (offset md) (seekTable md) (hasSeekTable md) tg tp ag ap true).

(** A value other than -1 is only logged. *)
Definition read_ffffffff (md : MetadataPage) : reader MetadataPage :=
  _ <- read_le "failed reading FFFFFFFF value" 4;; rret md.

(** One segment, type byte included. *)
Definition read_segment (md : MetadataPage) (data : list Z) : run (result MetadataPage) :=
  segmentType ← index data 0;
  let seg := dropZ 1 data in
  '(_, x) ←
    (if decide (segmentType = segmentTypeSeekTable) then read_seek_table md seg
     else if decide (segmentType = segmentTypeReplayGain) then read_replay_gain md seg
     else if decide (segmentType = segmentTypeFFFFFFFF) then read_ffffffff md seg
     else rret md seg);
  Ret x.

(** The segments of the page; the fuel bounds their number. *)
Fixpoint read_segments (fuel : nat) (md : MetadataPage) (body : list Z) : run (result MetadataPage) :=
  match fuel with
  | O => OutOfFuel
  | S fuel =>
    match ReadFull 2 body with
    | (_, Err e) =>
      if errors_Is e io_EOF then Ret (Ok md) else Ret (Err (EWrap "failed reading segment length" e))
    | (body, Ok len) =>
      match ReadFull (le_val len) body with
      | (_, Err e) => Ret (Err (EWrap "failed reading segment data" e))
      | (body, Ok data) =>
        x ← read_segment md data;
        match x with
        | Err e => Ret (Err e)
        | Ok md => read_segments fuel md body
        end
      end
    end
  end.

(** The packet of the page. *)
Definition parse_page (packet : list Z) : run (result MetadataPage) :=
  if decide (default 0 (nthZ packet 0) <> 0x81) then Ret (Err (EMsg "invalid metadata page"))
  else
    let body := dropZ 1 packet in
    x ← read_segments (S (length body)) emptyMetadata body;
    match x with
    | Err e => Ret (Err e)
    | Ok md =>
      if negb (hasSeekTable md) then Ret (Err (EMsg "no seek table metadata found"))
      else if negb (hasReplayGain md) then Ret (Err (EMsg "no replay gain metadata found"))
      else Ret (Ok md)
    end.

Section extract.
Context {R Y S P K : Type} `{ReaderAt R} `{OggLib Y S P K}.

(** The rest of the file, after the page, and what the page said. *)
Definition ExtractMetadataPage (r : R) (limit : Z) : run (result (SectionReader R * MetadataPage)) :=
  '(rr, buf, err) ← sec_ReadFull (NewSectionReader r 0 limit) 512;
  let sync := oggSyncWrote oggSyncInit buf in
  match err with
  | Some _ => Ret (Err (EMsg "failed reading vorbis stream head"))
  | None =>
    let '(sync, ret, page) := oggSyncPageout sync in
    if decide (ret <> 1) then Ret (Err (EMsg "vorbis: not a valid Ogg bitstream"))
    else
      let '(stream, ret) := oggStreamPagein (oggStreamInit (oggPageSerialno page)) page in
      if decide (ret < 0) then Ret (Err (EMsg "vorbis: the supplied page does not belong this Vorbis stream"))
      else
        let '(stream, ret, packet) := oggStreamPacketout stream in
        if decide (ret <> 1)
        then Ret (Err (EMsg "vorbis: unable to fetch initial Vorbis packet from the first page"))
        else
          x ← parse_page (oggPacketBytes packet);
          match x with
          | Err e => Ret (Err e)
          | Ok md =>
            Ret (Ok (NewSectionReader (sec_r rr) (oggSyncReturned sync) (limit - oggSyncReturned sync), md))
          end
  end.
End extract.

(** ** Seeking

    The byte position of a position in samples.  Not defined for a track of no
    samples, where the quotient is not finite; [oob] is what an out of range
    conversion gives. *)
Definition GetSeekPosition (oob : Z) (md : MetadataPage) (samplesPos : Z) : run Z :=
  let samplesRelPos := div32 (mul32 (f32_of samplesPos) (f32_of 100)) (f32_of (seekSamples md)) in
  let samplesIntPos := to_int 32 oob samplesRelPos in
  let samplesIntPos :=
    if decide (samplesIntPos <= 0) then 1 else if decide (99 < samplesIntPos) then 99 else samplesIntPos in
  tablePrev ← index (seekTable md) (samplesIntPos - 1);
  tableCurr ← index (seekTable md) samplesIntPos;
  let interpolatedPos :=
    add32 (mul32 (f32_of (i32 (tableCurr - tablePrev))) (sub32 samplesRelPos (f32_of samplesIntPos)))
          (f32_of tablePrev) in
  let bytesPos := mul32 (mul32 interpolatedPos (const32 1525879 (10 ^ 11))) (f32_of (seekSize md)) in
  if decide (bytesPos < 0) then Ret 0 else Ret (to_int 64 oob bytesPos).
