(* ===== verification/VorbisMetaClaims.v ===== *)
(** * The metadata page: theorems

    What a page encodes is what the parser reads; every page that is accepted
    has a table of a hundred nondecreasing positions, which makes the seek
    position well defined and monotone; an empty segment crashes the parser. *)

From S2P Require Import Prelude Floats Chunked Conn VorbisMeta.
#[local] Open Scope string_scope.
#[local] Open Scope list_scope.
#[local] Open Scope Z_scope.

(** ** Reading what was written *)
Lemma le_val_le_bytes n z : 0 <= n -> le_val (le_bytes n z) = z `mod` 2 ^ (n * 8).
Proof. intros; by apply little_endian_to_Z_to_little_endian. Qed.

Lemma ReadFull_zlen n a b : n = zlen a -> ReadFull n (a ++ b) = (b, Ok a).
Proof. intros ->; apply ReadFull_app. Qed.

Lemma read_le_bytes msg n z rest : 0 <= n -> 0 <= z < 2 ^ (n * 8) ->
  read_le msg n (le_bytes n z ++ rest) = Ret (rest, Ok z).
Proof.
  intros Hn Hz; unfold read_le; rewrite (ReadFull_zlen n) by (by rewrite zlen_le_bytes).
  by rewrite le_val_le_bytes, Z.mod_small by done.
Qed.

Lemma rbind_ok {A B} (m : reader A) (f : A -> reader B) l l' a :
  m l = Ret (l', Ok a) -> rbind m f l = f a l'.
Proof. intros Hm; unfold rbind; by rewrite Hm. Qed.

Lemma lookup_bounds i : 0 <= i < 256 -> exists x, nthZ seekTableLookup i = Some x /\ 0 <= x <= 8191.
Proof.
  intros Hi.
  destruct (nthZ_lt seekTableLookup i) as [x Hx]; [by vm_compute zlen|].
  exists x; split; [done|].
  assert (Hall : Forall (fun x => 0 <= x <= 8191) seekTableLookup)
    by (apply (bool_decide_unpack (Forall (fun x => 0 <= x <= 8191) seekTableLookup)); by vm_compute).
  unfold nthZ in Hx; rewrite decide_True in Hx by lia.
  by apply (proj1 (Forall_lookup _ _) Hall (Z.to_nat i)).
Qed.

Lemma lookup_at_ok i l : 0 <= i < 256 ->
  lookup_at i l = Ret (l, Ok (default 0 (nthZ seekTableLookup i))).
Proof. intros (x & Hx & _)%lookup_bounds; unfold lookup_at; by rewrite Hx. Qed.

(** ** What a page can say

    The table a list of steps describes, from its first entry on. *)
Fixpoint positions (cum : Z) (idxs : list Z) : list Z :=
  match idxs with
  | [] => []
  | idx :: idxs =>
    let cum := cum + default 0 (nthZ seekTableLookup idx) in cum :: positions cum idxs
  end.

Inductive segment :=
| SeekTable (samples size off : Z) (idxs : list Z)
| ReplayGain (tg tp ag ap : Z)
| FFFFFFFF (val : Z)
| OtherSegment (typ : Z) (data : list Z).

Definition is_word (w : Z) (z : Z) : Prop := 0 <= z < 2 ^ w.

Definition segment_ok (s : segment) : Prop :=
  match s with
  | SeekTable samples size off idxs =>
    is_word 32 samples /\ is_word 32 size /\ is_byte off /\ bytes_ok idxs /\ zlen idxs = 100
  | ReplayGain tg tp ag ap => is_word 32 tg /\ is_word 32 tp /\ is_word 32 ag /\ is_word 32 ap
  | FFFFFFFF val => is_word 32 val
  | OtherSegment typ data => 2 < typ < 256 /\ bytes_ok data /\ zlen data < 2 ^ 16 - 1
  end.

Definition segment_data (s : segment) : list Z :=
  match s with
  | SeekTable samples size off idxs => 0 :: le_bytes 4 samples ++ le_bytes 4 size ++ [off] ++ idxs
  | ReplayGain tg tp ag ap => 1 :: le_bytes 4 tg ++ le_bytes 4 tp ++ le_bytes 4 ag ++ le_bytes 4 ap
  | FFFFFFFF val => 2 :: le_bytes 4 val
  | OtherSegment typ data => typ :: data
  end.

Definition segment_bytes (s : segment) : list Z :=
  le_bytes 2 (zlen (segment_data s)) ++ segment_data s.

Definition page_bytes (segs : list segment) : list Z := 0x81 :: concat (segment_bytes <$> segs).

Definition apply_segment (md : MetadataPage) (s : segment) : MetadataPage :=
  match s with
  | SeekTable samples size off idxs =>
    let first := - default 0 (nthZ seekTableLookup off) in
    MkMetadata samples size first (positions first idxs) true
      (trackGainDb md) (trackPeak md) (albumGainDb md) (albumPeak md) (hasReplayGain md)
  | ReplayGain tg tp ag ap =>
    MkMetadata (seekSamples md) (seekSize md) (offset md) (seekTable md) (hasSeekTable md) tg tp ag ap true
  | _ => md
  end.

Lemma read_byte msg b rest : is_byte b -> read_le msg 1 (b :: rest) = Ret (rest, Ok b).
Proof.
  intros Hb; unfold read_le; change (b :: rest) with ([b] ++ rest).
  rewrite (ReadFull_zlen 1) by done.
  rewrite le_val_cons by done; change (le_val []) with 0; do 3 f_equal; lia.
Qed.

Lemma read_entries_ok idxs : forall cum table rest,
  bytes_ok idxs -> -8191 <= cum -> cum + 8191 * zlen idxs < 2 ^ 31 ->
  read_entries (length idxs) cum table (idxs ++ rest) = Ret (rest, Ok (table ++ positions cum idxs)).
Proof.
  induction idxs as [|b idxs IH]; intros cum table rest Hb Hlo Hhi; [by simpl; rewrite app_nil_r|].
  apply Forall_cons in Hb as [Hb Hbs]; rewrite zlen_cons in Hhi; pose proof (zlen_nonneg idxs).
  destruct (lookup_bounds b ltac:(unfold is_byte in Hb; lia)) as (x & Hx & Hxb).
  simpl length; cbn [read_entries app].
  rewrite (rbind_ok _ _ _ _ _ (read_byte _ b (idxs ++ rest) Hb)).
  rewrite (rbind_ok _ _ _ _ _ (lookup_at_ok b _ ltac:(unfold is_byte in Hb; lia))).
  rewrite Hx; simpl default.
  assert (Hi : i32 (cum + x) = cum + x) by (unfold i32, swrap; rewrite wrap_small by lia; lia).
  rewrite Hi, IH by (try done; lia); do 3 f_equal.
  rewrite <- app_assoc; simpl; by rewrite Hx.
Qed.

Lemma read_segment_ok md s : segment_ok s ->
  read_segment md (segment_data s) = Ret (Ok (apply_segment md s)).
Proof.
  unfold read_segment; destruct s as [samples size off idxs|tg tp ag ap|val|typ data]; simpl segment_ok.
  - intros (Hs & Hz & Ho & Hi & Hlen).
    destruct (lookup_bounds off ltac:(unfold is_byte in Ho; lia)) as (x & Hx & Hxb).
    change (index (segment_data (SeekTable samples size off idxs)) 0) with (@Ret Z 0); cbn [mbind run_bind].
    change (dropZ 1 (segment_data (SeekTable samples size off idxs)))
      with (le_bytes 4 samples ++ le_bytes 4 size ++ [off] ++ idxs).
    rewrite decide_True by done; unfold read_seek_table.
    rewrite (rbind_ok _ _ _ _ _ (read_le_bytes _ 4 samples _ ltac:(lia) Hs)).
    rewrite (rbind_ok _ _ _ _ _ (read_le_bytes _ 4 size _ ltac:(lia) Hz)).
    rewrite (rbind_ok _ _ _ _ _ (read_byte _ off idxs Ho)).
    rewrite (rbind_ok _ _ _ _ _ (lookup_at_ok off _ ltac:(unfold is_byte in Ho; lia))).
    rewrite Hx; simpl default.
    assert (Hn : 100%nat = length idxs) by (unfold zlen in Hlen; lia).
    assert (He : read_entries 100 (- x) [] idxs = Ret ([], Ok (positions (- x) idxs))).
    { pose proof (read_entries_ok idxs (- x) [] [] Hi ltac:(lia) ltac:(lia)) as He.
      by rewrite app_nil_r, <- Hn in He. }
    rewrite (rbind_ok _ _ _ _ _ He); simpl; by rewrite Hx.
  - intros (H1 & H2 & H3 & H4).
    change (index (segment_data (ReplayGain tg tp ag ap)) 0) with (@Ret Z 1); cbn [mbind run_bind].
    change (dropZ 1 (segment_data (ReplayGain tg tp ag ap)))
      with (le_bytes 4 tg ++ le_bytes 4 tp ++ le_bytes 4 ag ++ le_bytes 4 ap).
    rewrite decide_False, decide_True by done; unfold read_replay_gain.
    rewrite (rbind_ok _ _ _ _ _ (read_le_bytes _ 4 tg _ ltac:(lia) H1)).
    rewrite (rbind_ok _ _ _ _ _ (read_le_bytes _ 4 tp _ ltac:(lia) H2)).
    rewrite (rbind_ok _ _ _ _ _ (read_le_bytes _ 4 ag _ ltac:(lia) H3)).
    rewrite <- (app_nil_r (le_bytes 4 ap)).
    by rewrite (rbind_ok _ _ _ _ _ (read_le_bytes _ 4 ap _ ltac:(lia) H4)).
  - intros Hv; change (index (segment_data (FFFFFFFF val)) 0) with (@Ret Z 2); cbn [mbind run_bind].
    change (dropZ 1 (segment_data (FFFFFFFF val))) with (le_bytes 4 val).
    rewrite !decide_False, decide_True by done; unfold read_ffffffff.
    rewrite <- (app_nil_r (le_bytes 4 val)).
    by rewrite (rbind_ok _ _ _ _ _ (read_le_bytes _ 4 val _ ltac:(lia) Hv)).
  - intros (Ht & _); change (index (segment_data (OtherSegment typ data)) 0) with (@Ret Z typ); cbn [mbind run_bind].
    by rewrite !decide_False by (unfold segmentTypeSeekTable, segmentTypeReplayGain, segmentTypeFFFFFFFF; lia).
Qed.

Lemma segment_data_len s : segment_ok s -> 0 < zlen (segment_data s) < 2 ^ 16.
Proof.
  destruct s; cbn [segment_data segment_ok]; intros Hok; repeat (rewrite zlen_cons || rewrite zlen_app || rewrite zlen_le_bytes by lia);
    rewrite ?zlen_nil; try lia.
  - destruct Hok as (_ & _ & _ & _ & Hl); change (zlen (@nil Z)) with 0; lia.
  - destruct Hok as (_ & _ & Hl); pose proof (zlen_nonneg data); lia.
Qed.

Lemma segment_bytes_len s : segment_ok s -> zlen (segment_bytes s) = 2 + zlen (segment_data s).
Proof. intros; unfold segment_bytes; rewrite zlen_app, zlen_le_bytes; lia. Qed.

Lemma read_segments_ok segs : forall fuel md,
  Forall segment_ok segs -> (length (concat (segment_bytes <$> segs)) < fuel)%nat ->
  read_segments fuel md (concat (segment_bytes <$> segs)) = Ret (Ok (foldl apply_segment md segs)).
Proof.
  induction segs as [|s segs IH]; intros [|fuel] md Hok Hf; try (simpl in Hf; lia); [done|].
  apply Forall_cons in Hok as [Hs Hss].
  pose proof (segment_data_len s Hs); pose proof (segment_bytes_len s Hs).
  rewrite fmap_cons in *; cbn [concat] in *; rewrite length_app in Hf.
  cbn [read_segments].
  assert (Hcat : segment_bytes s ++ concat (segment_bytes <$> segs)
    = le_bytes 2 (zlen (segment_data s)) ++ segment_data s ++ concat (segment_bytes <$> segs))
    by (unfold segment_bytes at 1; by rewrite <- app_assoc).
  rewrite Hcat.
  rewrite (ReadFull_zlen 2) by (by rewrite zlen_le_bytes).
  rewrite le_val_le_bytes, Z.mod_small by lia.
  rewrite (ReadFull_zlen _ _ _ eq_refl), (read_segment_ok md s Hs); cbn [mbind run_bind].
  rewrite IH by (try done; unfold zlen in *; lia); done.
Qed.

(** C29: A page made of well-formed segments, in any order and with unknown ones
    among them, is read as those segments say, the last of a kind winning, as
    long as there is a seek table and a replay gain. *)
Theorem metadata_page_roundtrip (segs : list segment) :
  Forall segment_ok segs ->
  hasSeekTable (foldl apply_segment emptyMetadata segs) = true ->
  hasReplayGain (foldl apply_segment emptyMetadata segs) = true ->
  parse_page (page_bytes segs) = Ret (Ok (foldl apply_segment emptyMetadata segs)).
Proof.
  intros Hok Hseek Hgain; unfold parse_page, page_bytes.
  change (dropZ 1 (0x81 :: concat (segment_bytes <$> segs))) with (concat (segment_bytes <$> segs)).
  rewrite decide_False by (by simpl; intros []).
  rewrite read_segments_ok by (try done; lia); cbn [mbind run_bind].
  by rewrite Hseek, Hgain.
Qed.

Definition demo_segments : list segment :=
  [OtherSegment 9 [1; 2]; SeekTable 1000000 2000000 3 (replicate 100 7); FFFFFFFF (2 ^ 32 - 1); ReplayGain 1 2 3 4].

Lemma metadata_page_roundtrip_witness :
  exists md, parse_page (page_bytes demo_segments) = Ret (Ok md) /\ seekSize md = 2000000 /\
    take 3 (seekTable md) = [90; 507; 924] /\ albumPeak md = 4.
Proof.
  eexists; split; [apply (metadata_page_roundtrip demo_segments); [|reflexivity..]|].
  - repeat constructor; unfold is_byte, is_word; simpl; try lia; reflexivity.
  - vm_compute; done.
Defined.

(** ** Accepted pages *)
Record seek_table_ok (md : MetadataPage) : Prop := {
  st_len : zlen (seekTable md) = 100;
  st_steps : forall i a b, nthZ (seekTable md) i = Some a -> nthZ (seekTable md) (i + 1) = Some b ->
    a <= b <= a + 8191;
  st_bound : Forall (fun x => -8191 <= x <= 819100) (seekTable md);
  st_samples : is_word 32 (seekSamples md);
  st_size : is_word 32 (seekSize md)
}.

Lemma positions_len idxs : forall cum, zlen (positions cum idxs) = zlen idxs.
Proof. induction idxs; intros; [done|]; simpl; by rewrite !zlen_cons, IHidxs. Qed.

(** Each entry is a table step above the one before it. *)
Lemma positions_head cum idxs b : bytes_ok idxs -> nthZ (positions cum idxs) 0 = Some b -> cum <= b <= cum + 8191.
Proof.
  destruct idxs as [|x idxs]; [done|]; intros [Hx _]%Forall_cons [= <-].
  destruct (lookup_bounds x ltac:(unfold is_byte in Hx; lia)) as (y & -> & ?); simpl; lia.
Qed.

Lemma positions_steps idxs : forall cum i a b, bytes_ok idxs ->
  nthZ (positions cum idxs) i = Some a -> nthZ (positions cum idxs) (i + 1) = Some b -> a <= b <= a + 8191.
Proof.
  induction idxs as [|x idxs IH]; intros cum i a b Hok; [intros [? ?]%nthZ_Some_lt; unfold zlen in *; simpl in *; lia|].
  apply Forall_cons in Hok as [_ Hok]; simpl.
  intros Ha Hb; pose proof (nthZ_Some_lt _ _ _ Ha).
  set (c := cum + default 0 (nthZ seekTableLookup x)) in *.
  unfold nthZ in Ha, Hb; rewrite decide_True in Ha by lia; rewrite decide_True in Hb by lia.
  replace (Z.to_nat (i + 1)) with (S (Z.to_nat i)) in Hb by lia; simpl in Hb.
  destruct (decide (i = 0)) as [->|].
  - simpl in Ha; injection Ha as <-; by apply (positions_head c idxs).
  - replace (Z.to_nat i) with (S (Z.to_nat (i - 1))) in Ha, Hb by lia; simpl in Ha.
    apply (IH c (i - 1)); [done|unfold nthZ; by rewrite decide_True by lia|].
    unfold nthZ; rewrite decide_True by lia; by replace (Z.to_nat (i - 1 + 1)) with (S (Z.to_nat (i - 1))) by lia.
Qed.

Lemma positions_bound idxs : forall cum, bytes_ok idxs ->
  Forall (fun x => cum <= x <= cum + 8191 * zlen idxs) (positions cum idxs).
Proof.
  induction idxs as [|b idxs IH]; intros cum Hok; [constructor|].
  apply Forall_cons in Hok as [Hb Hok]; simpl; rewrite zlen_cons; pose proof (zlen_nonneg idxs).
  destruct (lookup_bounds b ltac:(unfold is_byte in Hb; lia)) as (x & -> & Hx); simpl default.
  constructor; [lia|]; eapply Forall_impl; [apply IH; done|]; simpl; intros; lia.
Qed.

Lemma ReadFull_inv n l rest bs : 0 <= n -> ReadFull n l = (rest, Ok bs) -> l = bs ++ rest /\ zlen bs = n.
Proof.
  intros Hn; unfold ReadFull; case_decide; intros; simplify_eq; split.
  - unfold takeZ, dropZ; by rewrite take_drop.
  - rewrite zlen_takeZ; pose proof (zlen_nonneg l); lia.
Qed.

Lemma le_val_bound l : bytes_ok l -> 0 <= le_val l < 2 ^ (8 * zlen l).
Proof.
  induction 1 as [|b l Hb Hl IH]; [by vm_compute|].
  rewrite le_val_cons, zlen_cons by done; replace (8 * (1 + zlen l)) with (8 + 8 * zlen l) by lia.
  rewrite Z.pow_add_r by (pose proof (zlen_nonneg l); lia); unfold is_byte in Hb; lia.
Qed.

Lemma read_le_inv msg n l l' z : 0 <= n -> bytes_ok l -> read_le msg n l = Ret (l', Ok z) ->
  bytes_ok l' /\ is_word (8 * n) z /\ zlen l' = zlen l - n.
Proof.
  intros Hn Hl; unfold read_le; destruct (ReadFull n l) as [rest [bs|e]] eqn:Hr; intros; simplify_eq.
  apply ReadFull_inv in Hr as [-> <-]; [|done].
  apply bytes_ok_app in Hl as [Hb Hr]; split_and!; [done|by apply le_val_bound|rewrite zlen_app; lia].
Qed.

Lemma rbind_inv {A B} (m : reader A) (f : A -> reader B) l l' b :
  rbind m f l = Ret (l', Ok b) -> exists l1 a, m l = Ret (l1, Ok a) /\ f a l1 = Ret (l', Ok b).
Proof.
  unfold rbind; destruct (m l) as [[l1 [a|e]]|w|]; simpl; intros; simplify_eq; eauto.
Qed.

Lemma read_entries_inv k : forall cum table l l' t, bytes_ok l -> -8191 <= cum ->
  cum + 8191 * Z.of_nat k < 2 ^ 31 -> read_entries k cum table l = Ret (l', Ok t) ->
  exists idxs, bytes_ok idxs /\ length idxs = k /\ t = table ++ positions cum idxs.
Proof.
  induction k as [|k IH]; intros cum table l l' t Hl Hlo Hhi.
  { intros [= <- <-]; exists []; split_and!; [constructor|done|by rewrite app_nil_r]. }
  cbn [read_entries]; intros (l1 & idx & Hidx & H1)%rbind_inv; apply rbind_inv in H1 as (l2 & step & Hstep & H2).
  apply read_le_inv in Hidx as (Hl1 & Hw & _); [|lia|done]; unfold is_word in Hw.
  destruct (lookup_bounds idx Hw) as (x & Hx & Hxb).
  unfold lookup_at in Hstep; rewrite Hx in Hstep; simplify_eq.
  assert (Hi : i32 (cum + step) = cum + step) by (unfold i32, swrap; rewrite wrap_small by lia; lia).
  rewrite Hi in H2; apply IH in H2 as (idxs & Hok & <- & ->); [|done|lia|lia].
  exists (idx :: idxs); split_and!; [by constructor|done|].
  by rewrite <- app_assoc; simpl; rewrite Hx.
Qed.

Lemma read_segment_inv md data md' : bytes_ok data ->
  (hasSeekTable md = true -> seek_table_ok md) -> read_segment md data = Ret (Ok md') ->
  hasSeekTable md' = true -> seek_table_ok md'.
Proof.
  intros Hd Hmd Hr; unfold read_segment in Hr.
  apply run_bind_inv in Hr as (ty & Hty & Hr); apply run_bind_inv in Hr as ([lx x] & Hx & [= ->]).
  assert (Hseg : bytes_ok (dropZ 1 data)) by (by apply Forall_drop).
  repeat case_decide.
  - unfold read_seek_table in Hx.
    apply rbind_inv in Hx as (l1 & samples & H1 & Hx); apply read_le_inv in H1 as (Hl1 & Hs & _); [|lia|done].
    apply rbind_inv in Hx as (l2 & size & H2 & Hx); apply read_le_inv in H2 as (Hl2 & Hz & _); [|lia|done].
    apply rbind_inv in Hx as (l3 & off & H3 & Hx); apply read_le_inv in H3 as (Hl3 & Ho & _); [|lia|done].
    apply rbind_inv in Hx as (l4 & first & H4 & Hx).
    apply rbind_inv in Hx as (l5 & table & H5 & Hx); unfold rret in Hx; simplify_eq.
    unfold is_word in Ho; destruct (lookup_bounds off Ho) as (y & Hy & Hyb).
    unfold lookup_at in H4; rewrite Hy in H4; simplify_eq.
    apply read_entries_inv in H5 as (idxs & Hok & Hlen & ->); [|done|lia|lia].
    intros _; split; simpl; [|intros i a b; by apply positions_steps| |done|done].
    + rewrite positions_len; unfold zlen; lia.
    + eapply Forall_impl; [by apply positions_bound|]; simpl; unfold zlen; intros; lia.
  - unfold read_replay_gain in Hx.
    do 5 (apply rbind_inv in Hx as (? & ? & ? & Hx)); unfold rret in Hx; simplify_eq; simpl.
    intros Hst; destruct (Hmd Hst); by split.
  - unfold read_ffffffff in Hx; apply rbind_inv in Hx as (? & ? & ? & Hx); unfold rret in Hx; by simplify_eq.
  - unfold rret in Hx; by simplify_eq.
Qed.

Lemma read_segments_inv fuel : forall md body md', bytes_ok body ->
  (hasSeekTable md = true -> seek_table_ok md) -> read_segments fuel md body = Ret (Ok md') ->
  hasSeekTable md' = true -> seek_table_ok md'.
Proof.
  induction fuel as [|fuel IH]; intros md body md' Hb Hmd; [done|]; cbn [read_segments].
  destruct (ReadFull 2 body) as [body1 [len|e]] eqn:H1.
  2: { destruct (errors_Is e io_EOF); intros; simplify_eq; auto. }
  apply ReadFull_inv in H1 as [-> Hlen]; [|lia]; apply bytes_ok_app in Hb as [Hl Hb].
  destruct (ReadFull (le_val len) body1) as [body2 [data|e]] eqn:H2; [|done].
  apply ReadFull_inv in H2 as [-> _]; [|apply le_val_bound; done].
  apply bytes_ok_app in Hb as [Hd Hb].
  intros Hr; apply run_bind_inv in Hr as ([md1|e] & Hs & Hr); [|done].
  eapply IH; [exact Hb|exact (read_segment_inv md data md1 Hd Hmd Hs)|done].
Qed.

Lemma parse_page_ok packet md : bytes_ok packet -> parse_page packet = Ret (Ok md) -> seek_table_ok md.
Proof.
  intros Hp; unfold parse_page; case_decide; [done|].
  intros Hr; apply run_bind_inv in Hr as ([md1|e] & Hs & Hr); [|done].
  destruct (hasSeekTable md1) eqn:Hh; [|done]; destruct (hasReplayGain md1); [|done]; simpl in Hr; simplify_eq.
  eapply read_segments_inv; [by apply Forall_drop| |exact Hs|done]; done.
Qed.

(** ** The seek position *)

(** The position between two entries of the table, before it is scaled. *)
Definition interp (prev curr i r : Z) : Z :=
  add32 (mul32 (f32_of (i32 (curr - prev))) (sub32 r (f32_of i))) (f32_of prev).

Section interp.
Context (prev curr i : Z) (Hstep : prev <= curr <= prev + 8191) (Hprev : -8191 <= prev <= 819100)
  (Hi : 0 <= i <= 1000).

Lemma interp_eq r : interp prev curr i r =
  add32 (mul32 ((curr - prev) * one) (sub32 r (i * one))) (prev * one).
Proof.
  unfold interp; assert (i32 (curr - prev) = curr - prev) as -> by (unfold i32, swrap; rewrite wrap_small by lia; lia).
  by rewrite !f32_of_exact by lia.
Qed.

Lemma interp_mono r1 r2 : r1 <= r2 -> interp prev curr i r1 <= interp prev curr i r2.
Proof.
  intros Hr; rewrite !interp_eq; apply add32_mono, mul32_mono_r; [pose proof one_pos; nia|by apply sub32_mono].
Qed.

(** At whole multiples of the entries' distance the result is exact. *)
Lemma interp_at k : 0 <= k <= 1000 -> (curr - prev) * k + prev <= 2 ^ 24 ->
  interp prev curr i ((i + k) * one) = ((curr - prev) * k + prev) * one.
Proof.
  intros Hk Hb; rewrite interp_eq.
  assert (sub32 ((i + k) * one) (i * one) = k * one) as ->.
  { unfold sub32; replace ((i + k) * one - i * one) with (k * one) by lia; apply rnd32_int; lia. }
  assert (mul32 ((curr - prev) * one) (k * one) = (curr - prev) * k * one) as ->.
  { unfold mul32; transitivity (rnd32 ((curr - prev) * k * one) 1).
    - apply Z.le_antisymm; apply rnd32_mono; pose proof one_pos; lia.
    - apply rnd32_int; nia. }
  unfold add32; replace ((curr - prev) * k * one + prev * one) with (((curr - prev) * k + prev) * one) by lia.
  apply rnd32_int; nia.
Qed.
End interp.

(** The clamp of the whole part, and its position in the table. *)
Definition clampPos (z : Z) : Z := if decide (z <= 0) then 1 else if decide (99 < z) then 99 else z.

Lemma clampPos_range z : 1 <= clampPos z <= 99.
Proof. unfold clampPos; repeat case_decide; lia. Qed.

Lemma quot_bounds r : 0 <= r -> Z.quot r one * one <= r < (Z.quot r one + 1) * one.
Proof.
  intros Hr; rewrite Z.quot_div_nonneg by (pose proof one_pos; lia).
  pose proof (Z.mul_div_le r one one_pos); pose proof (Z.mul_succ_div_gt r one one_pos); lia.
Qed.

Section table.
Context (md : MetadataPage) (Hok : seek_table_ok md).

Definition entry (i : Z) : Z := default 0 (nthZ (seekTable md) i).

Lemma entry_index i : 0 <= i <= 99 -> index (seekTable md) i = Ret (entry i) /\ -8191 <= entry i <= 819100.
Proof.
  intros Hi; destruct (nthZ_lt (seekTable md) i) as [x Hx]; [rewrite (st_len md Hok); lia|].
  unfold index, entry; rewrite Hx; split; [done|].
  unfold nthZ in Hx; rewrite decide_True in Hx by lia.
  exact (proj1 (Forall_lookup _ _) (st_bound md Hok) _ _ Hx).
Qed.

Lemma entry_step i : 0 <= i < 99 -> entry i <= entry (i + 1) <= entry i + 8191.
Proof.
  intros Hi; destruct (nthZ_lt (seekTable md) i) as [x Hx]; [rewrite (st_len md Hok); lia|].
  destruct (nthZ_lt (seekTable md) (i + 1)) as [y Hy]; [rewrite (st_len md Hok); lia|].
  unfold entry; rewrite Hx, Hy; exact (st_steps md Hok i x y Hx Hy).
Qed.

Lemma entry_mono i j : 0 <= i <= j -> j <= 99 -> entry i <= entry j.
Proof.
  intros [Hi Hij] Hj.
  assert (Hn : forall n : nat, i + Z.of_nat n <= 99 -> entry i <= entry (i + Z.of_nat n)).
  { induction n as [|n IH]; intros Hle; [by rewrite Z.add_0_r|].
    pose proof (entry_step (i + Z.of_nat n) ltac:(lia)) as Hs; pose proof (IH ltac:(lia)).
    replace (i + Z.of_nat n + 1) with (i + Z.of_nat (S n)) in Hs by lia; lia. }
  specialize (Hn (Z.to_nat (j - i))); replace (i + Z.of_nat (Z.to_nat (j - i))) with j in Hn by lia; auto.
Qed.

(** The interpolated position of a relative one. *)
Definition interpolated (r : Z) : Z :=
  let i := clampPos (Z.quot r one) in interp (entry (i - 1)) (entry i) i r.

Lemma step_at i : 1 <= i <= 99 -> entry (i - 1) <= entry i <= entry (i - 1) + 8191.
Proof. intros; pose proof (entry_step (i - 1) ltac:(lia)) as Hs; by replace (i - 1 + 1) with i in Hs by lia. Qed.

Lemma interpolated_mono r1 r2 : 0 <= r1 <= r2 -> interpolated r1 <= interpolated r2.
Proof.
  intros Hr; unfold interpolated.
  pose proof (quot_bounds r1 ltac:(lia)); pose proof (quot_bounds r2 ltac:(lia)).
  pose proof (quot_one_mono r1 r2 ltac:(lia)) as Hq; pose proof one_pos.
  pose proof (clampPos_range (Z.quot r1 one)) as Hc1; pose proof (clampPos_range (Z.quot r2 one)) as Hc2.
  destruct (decide (clampPos (Z.quot r1 one) = clampPos (Z.quot r2 one))) as [->|Hne].
  { pose proof (entry_index (clampPos (Z.quot r2 one) - 1) ltac:(lia)).
    apply interp_mono; [by apply step_at|tauto|lia|lia]. }
  assert (Hi1 : r1 <= (clampPos (Z.quot r1 one) + 1) * one /\ clampPos (Z.quot r1 one) < clampPos (Z.quot r2 one) /\
    clampPos (Z.quot r2 one) * one <= r2)
    by (unfold clampPos in *; repeat case_decide; nia).
  set (i1 := clampPos (Z.quot r1 one)) in *; set (i2 := clampPos (Z.quot r2 one)) in *.
  destruct Hi1 as (Hu & Hlt & Hl).
  pose proof (entry_index (i1 - 1) ltac:(lia)) as [_ ?]; pose proof (entry_index (i2 - 1) ltac:(lia)) as [_ ?].
  pose proof (entry_index i1 ltac:(lia)) as [_ ?].
  pose proof (step_at i1 Hc1); pose proof (step_at i2 Hc2).
  transitivity (entry i1 * one).
  - etransitivity; [eapply interp_mono; [..|exact Hu]; lia|].
    rewrite (interp_at _ _ i1) by lia; lia.
  - transitivity (entry (i2 - 1) * one); [pose proof (entry_mono i1 (i2 - 1) ltac:(lia) ltac:(lia)); nia|].
    etransitivity; [|eapply interp_mono; [..|exact Hl]; lia].
    pose proof (interp_at (entry (i2 - 1)) (entry i2) i2 ltac:(lia) ltac:(lia) ltac:(lia) 0 ltac:(lia) ltac:(lia)) as He.
    rewrite Z.add_0_r in He; rewrite He; lia.
Qed.

Lemma interpolated_upper r : 0 <= r <= 400 * one -> interpolated r <= 4095500 * one.
Proof.
  intros Hr; unfold interpolated; pose proof (clampPos_range (Z.quot r one)) as H1.
  set (i := clampPos (Z.quot r one)) in *; pose proof one_pos.
  pose proof (entry_index (i - 1) ltac:(lia)) as [_ ?]; pose proof (step_at i H1).
  etransitivity; [apply interp_mono with (r2 := (i + 400) * one); nia|].
  rewrite interp_at by nia; apply Z.mul_le_mono_nonneg_r; nia.
Qed.

Definition scaled (x : Z) : Z := mul32 (mul32 x (const32 1525879 (10 ^ 11))) (f32_of (seekSize md)).

Lemma scaled_mono x y : x <= y -> scaled x <= scaled y.
Proof.
  intros; unfold scaled; apply mul32_mono.
  - transitivity (f32_of 0); [by vm_compute|]; apply f32_of_mono, (st_size md Hok).
  - apply mul32_mono; [by vm_compute|done].
Qed.

Lemma scaled_upper x : x <= 4095500 * one -> scaled x < 2 ^ 63 * one.
Proof.
  intros Hx; eapply Z.le_lt_trans; [apply scaled_mono; exact Hx|]; unfold scaled.
  eapply Z.le_lt_trans; [apply mul32_mono_r|]; [by vm_compute|apply (f32_of_mono _ (2 ^ 32))|by vm_compute].
  pose proof (st_size md Hok) as Hz; unfold is_word in Hz; lia.
Qed.

Definition relPos (s : Z) : Z := div32 (mul32 (f32_of s) (f32_of 100)) (f32_of (seekSamples md)).

Context (Hsamples : 0 < seekSamples md).

Lemma samples_pos : 0 < f32_of (seekSamples md).
Proof. eapply Z.lt_le_trans; [|apply (f32_of_mono 1); lia]; by vm_compute. Qed.

Lemma relPos_mono s1 s2 : s1 <= s2 -> relPos s1 <= relPos s2.
Proof.
  intros; apply div32_mono; [apply samples_pos|]; apply mul32_mono; [by vm_compute|by apply f32_of_mono].
Qed.

Lemma relPos_range s : 0 <= s <= seekSamples md -> 0 <= relPos s <= 400 * one.
Proof.
  intros Hs; pose proof samples_pos as Hp; pose proof one_pos; split.
  - transitivity (relPos 0); [|apply relPos_mono; lia]; unfold relPos, div32.
    apply rnd_nonneg; [lia|lia|done|]; apply Z.mul_nonneg_nonneg; [by vm_compute|lia].
  - etransitivity; [apply (relPos_mono s (seekSamples md)); lia|]; unfold relPos, div32, mul32.
    rewrite (f32_of_exact 100) by lia.
    set (f := f32_of (seekSamples md)) in *.
    pose proof (rnd32_double (f * (100 * one)) one ltac:(lia) ltac:(nia)) as H1.
    set (m := rnd32 (f * (100 * one)) one) in *.
    assert (Hm : m <= 200 * f) by nia.
    assert (Hm0 : 0 <= m) by (apply rnd_nonneg; nia).
    pose proof (rnd32_double (m * one) f ltac:(lia) ltac:(nia)) as H2; nia.
Qed.

#[local] Opaque mul32 div32 add32 sub32 f32_of const32 one to_int.

Lemma GetSeekPosition_eq oob s : 0 <= s <= seekSamples md ->
  GetSeekPosition oob md s =
    (if decide (scaled (interpolated (relPos s)) < 0) then Ret 0
     else Ret (Z.quot (scaled (interpolated (relPos s))) one)).
Proof.
  intros Hs; pose proof (relPos_range s Hs) as Hr; unfold GetSeekPosition; fold (relPos s).
  pose proof (quot_bounds (relPos s) ltac:(lia)); pose proof one_pos.
  rewrite (to_int_in 32 oob _ _ eq_refl) by nia.
  fold (clampPos (Z.quot (relPos s) one)).
  pose proof (clampPos_range (Z.quot (relPos s) one)) as Hc.
  destruct (entry_index (clampPos (Z.quot (relPos s) one) - 1) ltac:(lia)) as [-> _].
  destruct (entry_index (clampPos (Z.quot (relPos s) one)) ltac:(lia)) as [-> _].
  cbn [mbind run_bind].
  fold (interp (entry (clampPos (Z.quot (relPos s) one) - 1)) (entry (clampPos (Z.quot (relPos s) one)))
    (clampPos (Z.quot (relPos s) one)) (relPos s)).
  fold (interpolated (relPos s)); fold (scaled (interpolated (relPos s))).
  case_decide as Hneg; [done|]; f_equal.
  pose proof (scaled_upper _ (interpolated_upper _ Hr)) as Hu.
  pose proof (quot_bounds (scaled (interpolated (relPos s))) ltac:(lia)).
  apply (to_int_in 64 oob); [done|].
  assert (0 <= Z.quot (scaled (interpolated (relPos s))) one) by (apply Z.quot_pos; lia).
  split; [lia|]; apply (Z.mul_lt_mono_pos_r one); [done|lia].
Qed.

#[local] Transparent mul32 div32 add32 sub32 f32_of const32 one to_int.
End table.

(** The byte position of a seek is defined for every position of a track whose
    page was accepted, never negative, and a later position is never sought at
    an earlier byte. *)
Theorem seek_position_monotone (packet : list Z) (md : MetadataPage) (oob s1 s2 : Z) :
  bytes_ok packet -> parse_page packet = Ret (Ok md) -> 0 < seekSamples md ->
  0 <= s1 <= s2 -> s2 <= seekSamples md ->
  exists b1 b2, GetSeekPosition oob md s1 = Ret b1 /\ GetSeekPosition oob md s2 = Ret b2 /\ 0 <= b1 <= b2.
Proof.
  intros Hp Hparse Hpos Hs Hmax; pose proof (parse_page_ok packet md Hp Hparse) as Hok.
  rewrite !GetSeekPosition_eq by (try done; lia).
  pose proof (scaled_mono md Hok _ _ (interpolated_mono md Hok (relPos md s1) (relPos md s2)
    ltac:(split; [apply relPos_range; [done|lia]|apply relPos_mono; [done|lia]]))) as Hle.
  repeat case_decide; eexists _, _; (split_and!; [reflexivity|reflexivity|..]); try lia.
  - apply Z.quot_pos; pose proof one_pos; lia.
  - apply Z.quot_pos; pose proof one_pos; lia.
  - by apply quot_one_mono.
Qed.

Lemma seek_position_monotone_witness :
  exists b1 b2, GetSeekPosition (-1) (foldl apply_segment emptyMetadata demo_segments) 100000 = Ret b1 /\
    GetSeekPosition (-1) (foldl apply_segment emptyMetadata demo_segments) 200000 = Ret b2 /\ 0 <= b1 <= b2.
Proof.
  apply (seek_position_monotone (page_bytes demo_segments)); try (vm_compute; done).
  apply (bool_decide_unpack (Forall _ _)); by vm_compute.
Defined.

(** A segment of length zero crashes the parser: it reads the type of a segment
    that has none. *)
Theorem empty_segment_panics (rest : list Z) :
  parse_page (0x81 :: 0 :: 0 :: rest) = Panic "index out of range".
Proof.
  unfold parse_page; rewrite decide_False by (by simpl; intros []).
  change (dropZ 1 (0x81 :: 0 :: 0 :: rest)) with ([0; 0] ++ rest).
  cbn [read_segments]; rewrite (ReadFull_zlen 2) by done.
  pose proof (ReadFull_zlen 0 [] rest eq_refl) as Hz; simpl app in Hz.
  by change (le_val [0; 0]) with 0; rewrite Hz.
Qed.
