(* ===== verification/Vorbis.v ===== *)
(** * The Ogg Vorbis decoder ([src/vorbis/decoder.go])

    Headers, pages and packets through libogg and libvorbis, which are
    parameters; the buffer of decoded samples, seeking and closing.  A loop
    whose number of rounds depends on the codec takes fuel. *)

From S2P Require Import Prelude Floats Chunked VorbisMeta.
#[local] Open Scope list_scope.
#[local] Open Scope Z_scope.

Definition DataChunkSize : Z := 4096.

(** ** libvorbis

    [I] holds the headers, [D] the synthesis, [B] one block, zero until the first
    read.  [pcmout] gives the
    number of samples ready and their channels; its allocation can fail with a
    Go panic. *)
Class VorbisLib (K I D B F : Type) := {
  vInfoInit : I;
  vSynthesisHeaderin : I -> K -> I * Z;
  vChannels : I -> Z;
  vRate : I -> Z;
  vSynthesisInit : I -> D * Z;
  vBlockZero : B;
  vBlockInit : D -> B;
  vSynthesis : B -> K -> B * Z;
  vSynthesisBlockin : D -> B -> D;
  vSynthesisPcmout : D -> run (Z * list (list F));
  vSynthesisRead : D -> Z -> D;
  vGranuleTimeMs : D -> Z -> Z
}.

(** [librespot.SizedReadAtSeeker], as far as the decoder uses it. *)
Class Input (R : Type) := {
  in_ReadFull : R -> Z -> run (R * list Z * option error);
  in_SeekStart : R -> Z -> R * result Z;
  in_Size : R -> Z
}.

#[export] Instance section_input {R} `{ReaderAt R} : Input (SectionReader R) := {
  in_ReadFull := sec_ReadFull;
  in_SeekStart := sec_SeekStart;
  in_Size := sec_Size
}.

Section decoder.
Context {R Y S P K I D B F : Type} `{Input R} `{OggLib Y S P K} `{VorbisLib K I D B F}.
Context (scale : F -> F -> F) (oob : Z).

Record Decoder := MkDecoder {
  SampleRate : Z;
  Channels : Z;
  meta : MetadataPage;
  gain : F;
  syncState : Y;
  streamState : option S;
  page : option P;
  info : I;
  dspState : option D;
  block : B;
  input : R;
  dbuf : list F;
  stopped : bool;
  closed : bool;
  started : bool;
  lastGranulepos : Z
}.

Implicit Types d : Decoder.

Definition set_sync (y : Y) (p : option P) d : Decoder :=
  MkDecoder (SampleRate d) (Channels d) (meta d) (gain d) y (streamState d) p (info d) (dspState d) (block d)
    (input d) (dbuf d) (stopped d) (closed d) (started d) (lastGranulepos d).
Definition set_input (y : Y) (r : R) d : Decoder :=
  MkDecoder (SampleRate d) (Channels d) (meta d) (gain d) y (streamState d) (page d) (info d) (dspState d) (block d)
    r (dbuf d) (stopped d) (closed d) (started d) (lastGranulepos d).
Definition set_stream (s : S) d : Decoder :=
  MkDecoder (SampleRate d) (Channels d) (meta d) (gain d) (syncState d) (Some s) (page d) (info d) (dspState d)
    (block d) (input d) (dbuf d) (stopped d) (closed d) (started d) (lastGranulepos d).
Definition set_info (i : I) d : Decoder :=
  MkDecoder (SampleRate d) (Channels d) (meta d) (gain d) (syncState d) (streamState d) (page d) i (dspState d)
    (block d) (input d) (dbuf d) (stopped d) (closed d) (started d) (lastGranulepos d).
Definition set_format (rate channels : Z) d : Decoder :=
  MkDecoder rate channels (meta d) (gain d) (syncState d) (streamState d) (page d) (info d) (dspState d)
    (block d) (input d) (dbuf d) (stopped d) (closed d) (started d) (lastGranulepos d).
Definition set_dsp (x : D) d : Decoder :=
  MkDecoder (SampleRate d) (Channels d) (meta d) (gain d) (syncState d) (streamState d) (page d) (info d) (Some x)
    (block d) (input d) (dbuf d) (stopped d) (closed d) (started d) (lastGranulepos d).
Definition set_block (b : B) d : Decoder :=
  MkDecoder (SampleRate d) (Channels d) (meta d) (gain d) (syncState d) (streamState d) (page d) (info d) (dspState d)
    b (input d) (dbuf d) (stopped d) (closed d) (started d) (lastGranulepos d).
Definition set_dbuf (l : list F) d : Decoder :=
  MkDecoder (SampleRate d) (Channels d) (meta d) (gain d) (syncState d) (streamState d) (page d) (info d) (dspState d)
    (block d) (input d) l (stopped d) (closed d) (started d) (lastGranulepos d).
Definition set_started d : Decoder :=
  MkDecoder (SampleRate d) (Channels d) (meta d) (gain d) (syncState d) (streamState d) (page d) (info d) (dspState d)
    (block d) (input d) (dbuf d) (stopped d) (closed d) true (lastGranulepos d).
Definition set_granulepos (g : Z) d : Decoder :=
  MkDecoder (SampleRate d) (Channels d) (meta d) (gain d) (syncState d) (streamState d) (page d) (info d) (dspState d)
    (block d) (input d) (dbuf d) (stopped d) (closed d) (started d) g.
Definition set_closed d : Decoder :=
  MkDecoder (SampleRate d) (Channels d) (meta d) (gain d) (syncState d) (streamState d) (page d) (info d) (dspState d)
    (block d) (input d) (dbuf d) true true (started d) (lastGranulepos d).

(** ** Reading the file *)
Definition readChunk d : run (Decoder * Z * option error) :=
  '(r, buf, err) ← in_ReadFull (input d) DataChunkSize;
  let d := set_input (oggSyncWrote (syncState d) buf) r d in
  if opt_Is err io_ErrUnexpectedEOF then Ret (d, zlen buf, Some io_EOF) else Ret (d, zlen buf, err).

(** A page left over in [d.page] is used only after one was synced. *)
Definition page_of d : run P :=
  match page d with Some p => Ret p | None => Panic "invalid memory address" end.
Definition stream_of d : run S :=
  match streamState d with Some s => Ret s | None => Panic "invalid memory address" end.
Definition dsp_of d : run D :=
  match dspState d with Some x => Ret x | None => Panic "invalid memory address" end.

(** ** The headers

    The second and third header: each round takes a page, or reads more, then
    the packets of the page. *)
Fixpoint header_packets (fuel : nat) d (headersRead : Z) : run (Decoder * Z * option error) :=
  if decide (2 <= headersRead) then Ret (d, headersRead, None)
  else
    match fuel with
    | O => OutOfFuel
    | Datatypes.S fuel =>
      s ← stream_of d;
      let '(s, ret, packet) := oggStreamPacketout s in
      let d := set_stream s d in
      if decide (ret < 0) then Ret (d, headersRead, Some (EMsg "vorbis: data is missing near the secondary Vorbis header"))
      else if decide (ret = 0) then Ret (d, headersRead, None)
      else
        let '(i, ret) := vSynthesisHeaderin (info d) packet in
        let d := set_info i d in
        if decide (ret < 0)
        then Ret (d, headersRead, Some (EMsg "vorbis: unable to read the secondary Vorbis header"))
        else header_packets fuel d (headersRead + 1)
    end.

Fixpoint header_pages (fuel : nat) d (headersRead : Z) : run (Decoder * option error) :=
  if decide (2 <= headersRead) then Ret (d, None)
  else
    match fuel with
    | O => OutOfFuel
    | Datatypes.S fuel =>
      let '(y, res, pg) := oggSyncPageout (syncState d) in
      let d := set_sync y (Some pg) d in
      if decide (res < 0) then header_pages fuel d headersRead
      else if decide (res = 0) then
        '(d, _, err) ← readChunk d;
        match err with
        | Some _ => Ret (d, Some (EMsg "vorbis: got EOF while reading Vorbis headers"))
        | None => header_pages fuel d headersRead
        end
      else
        s ← stream_of d;
        let d := set_stream (oggStreamPagein s pg).1 d in
        '(d, headersRead, err) ← header_packets (Datatypes.S fuel) d headersRead;
        match err with
        | Some e => Ret (d, Some e)
        | None => header_pages fuel d headersRead
        end
    end.

Definition readStreamHeaders (fuel : nat) d : run (Decoder * option error) :=
  '(d, _, err) ← readChunk d;
  match err with
  | Some e => Ret (d, Some (EWrap "vorbis: failed reading headers chunk" e))
  | None =>
    let '(y, ret, pg) := oggSyncPageout (syncState d) in
    let d := set_sync y (Some pg) d in
    if decide (ret <> 1) then Ret (d, Some (EMsg "vorbis: not a valid Ogg bitstream"))
    else
      let d := set_info vInfoInit d in
      let '(s, ret) := oggStreamPagein (oggStreamInit (oggPageSerialno pg)) pg in
      let d := set_stream s d in
      if decide (ret < 0)
      then Ret (d, Some (EMsg "vorbis: the supplied page does not belong this Vorbis stream"))
      else
        let '(s, ret, packet) := oggStreamPacketout s in
        let d := set_stream s d in
        if decide (ret <> 1)
        then Ret (d, Some (EMsg "vorbis: unable to fetch initial Vorbis packet from the first page"))
        else
          let '(i, ret) := vSynthesisHeaderin (info d) packet in
          let d := set_info i d in
          if decide (ret < 0) then Ret (d, Some (EMsg "vorbis: unable to decode the initial Vorbis header"))
          else
            '(d, err) ← header_pages fuel d 0;
            match err with
            | Some e => Ret (d, Some e)
            | None => Ret (set_format (i32 (vRate (info d))) (vChannels (info d)) d, None)
            end
  end.

(** A decoder, or an error; what is released with the codec's state when it
    fails is not part of the model. *)
Definition New (fuel : nat) (r : R) (md : MetadataPage) (g : F) : run (result Decoder) :=
  let d := MkDecoder 0 0 md g oggSyncInit None None vInfoInit None vBlockZero r [] false false false 0 in
  '(d, err) ← readStreamHeaders fuel d;
  match err with
  | Some e => Ret (Err e)
  | None =>
    let '(x, ret) := vSynthesisInit (info d) in
    if decide (ret < 0) then Ret (Err (EMsg "vorbis: error during playback initialization"))
    else Ret (Ok (set_dsp x d))
  end.

(** ** Decoding *)

(** A failed allocation counts as no samples; any other panic goes on. *)
Definition safeSynthesisPcmout (x : D) : run (Z * list (list F)) :=
  match vSynthesisPcmout x with
  | Panic w => if String.prefix "memory alloc error" w then Ret (-1, []) else Panic w
  | r => r
  end.

(** One sample of each channel, scaled. *)
Definition pcm_frame (pcm : list (list F)) (channels : Z) (g : F) (i : Z) : run (list F) :=
  mapM (fun j => ch ← index pcm j; x ← index ch i; Ret (scale x g)) (seqZ 0 channels).

Definition pcm_frames (pcm : list (list F)) (channels samples : Z) (g : F) : run (list F) :=
  frames ← mapM (pcm_frame pcm channels g) (seqZ 0 samples); Ret (concat frames).

Fixpoint pcm_loop (fuel : nat) d : run Decoder :=
  match fuel with
  | O => OutOfFuel
  | Datatypes.S fuel =>
    x ← dsp_of d;
    '(samples, pcm) ← safeSynthesisPcmout x;
    if decide (samples <= 0) then Ret d
    else
      xs ← pcm_frames pcm (vChannels (info d)) samples (gain d);
      pcm_loop fuel (set_dsp (vSynthesisRead x samples) (set_dbuf (dbuf d ++ xs) d))
  end.

Fixpoint packet_loop (fuel : nat) d : run Decoder :=
  match fuel with
  | O => OutOfFuel
  | Datatypes.S fuel =>
    s ← stream_of d;
    let '(s, ret, packet) := oggStreamPacketout s in
    let d := set_stream s d in
    if decide (ret < 0) then packet_loop fuel d
    else if decide (ret = 0) then Ret d
    else
      let '(b, ret) := vSynthesis (block d) packet in
      x ← dsp_of d;
      let d := set_block b d in
      let d := if decide (ret = 0) then set_dsp (vSynthesisBlockin x b) d else d in
      d ← pcm_loop (Datatypes.S fuel) d;
      p ← page_of d;
      packet_loop fuel (set_granulepos (oggPageGranulepos p) d)
  end.

Fixpoint sync_page (fuel : nat) d : run (Decoder * option error) :=
  match fuel with
  | O => OutOfFuel
  | Datatypes.S fuel =>
    let '(y, ret, pg) := oggSyncPageout (syncState d) in
    let d := set_sync y (Some pg) d in
    if decide (ret < 0) then sync_page fuel d
    else if decide (ret = 0) then
      '(d, _, err) ← readChunk d;
      match err with
      | Some e => Ret (d, Some e)
      | None => sync_page fuel d
      end
    else Ret (d, None)
  end.

Definition readNextPage (fuel : nat) d : run (Decoder * option error) :=
  '(d, err) ← sync_page fuel d;
  match err with
  | Some e => Ret (d, Some e)
  | None =>
    s ← stream_of d;
    p ← page_of d;
    d ← packet_loop fuel (set_stream (oggStreamPagein s p).1 d);
    if decide (oggPageEos p = 1) then Ret (d, Some io_EOF) else Ret (d, None)
  end.

(** ** The source *)

(** [n] samples are still asked for; [acc] were copied. *)
Fixpoint read_loop (fuel : nat) d (n : Z) (acc : list F) : run (Decoder * list F * option error) :=
  if decide (n <= 0) then Ret (d, acc, None)
  else
    match fuel with
    | O => OutOfFuel
    | Datatypes.S fuel =>
      if decide (dbuf d <> []) then
        let copied := takeZ n (dbuf d) in
        read_loop fuel (set_dbuf (dropZ n (dbuf d)) d) (n - zlen copied) (acc ++ copied)
      else
        '(d, err) ← readNextPage (Datatypes.S fuel) d;
        match err with
        | Some e => Ret (d, acc, Some e)
        | None => read_loop fuel d n acc
        end
    end.

Definition start_decoding d : run Decoder :=
  if started d then Ret d else x ← dsp_of d; Ret (set_started (set_block (vBlockInit x) d)).

Definition Read (fuel : nat) d (n : Z) : run (Decoder * list F * option error) :=
  if closed d then Ret (d, [], Some (EMsg "decoder: decoder has already been closed"))
  else d ← start_decoding d; read_loop fuel d n [].

Definition SetPositionMs (fuel : nat) d (pos : Z) : run (Decoder * option error) :=
  let posSamples := Z.quot (i64 (pos * SampleRate d)) 1000 in
  posBytes ← GetSeekPosition oob (meta d) posSamples;
  let posBytes := if decide (in_Size (input d) < posBytes) then in_Size (input d) else posBytes in
  let '(r, sought) := in_SeekStart (input d) posBytes in
  let d := set_input (syncState d) r d in
  match sought with
  | Err e => Ret (d, Some (EWrap "failed seeking input" e))
  | Ok _ =>
    let d := set_dbuf [] d in
    '(d, _, err) ← readChunk d;
    match err with
    | Some e => if errors_Is e io_EOF then Ret (d, None) else Ret (d, Some (EWrap "failed reading chunk" e))
    | None =>
      let '(y, _, pg) := oggSyncPageout (syncState d) in
      let d := set_sync y (Some pg) d in
      '(d, err) ← readNextPage fuel d;
      match err with
      | Some e => if errors_Is e io_EOF then Ret (d, None) else Ret (d, Some (EWrap "failed reading page" e))
      | None => Ret (d, None)
      end
    end
  end.

Definition PositionMs d : run Z := x ← dsp_of d; Ret (vGranuleTimeMs x (lastGranulepos d)).

Definition Close d : Decoder := if closed d then d else set_closed d.
End decoder.
Arguments Decoder : clear implicits.
