(* ===== verification/VorbisClaims.v ===== *)
(** * The Ogg Vorbis decoder: theorems

    With a codec that makes progress every read returns, gives the samples of
    the pages in order and none twice; the samples of the page that ends the
    stream stay behind when the end is reported. *)

From S2P Require Import Prelude Floats Chunked VorbisMeta Vorbis.
#[local] Open Scope string_scope.
#[local] Open Scope list_scope.
#[local] Open Scope Z_scope.

(** ** What the codec promises

    libogg skips or hands out what it has buffered: [ypend] bytes to
    synchronise, [spend] packets.  libvorbis hands out what it has synthesised,
    [dpend] samples, in as many channels as the headers say ([dsp_ok]); a Go
    panic of its wrapper is a failed allocation. *)
Class OggLaws (Y S P K : Type) `{OggLib Y S P K} (ypend : Y -> nat) (spend : S -> nat) := {
  sync_wrote : forall y bs, (ypend (oggSyncWrote y bs) <= ypend y + length bs)%nat;
  pageout_le : forall y, (ypend (oggSyncPageout y).1.1 <= ypend y)%nat;
  pageout_lt : forall y, (oggSyncPageout y).1.2 <> 0 -> (ypend (oggSyncPageout y).1.1 < ypend y)%nat;
  packetout_lt : forall s, (oggStreamPacketout s).1.2 <> 0 -> (spend (oggStreamPacketout s).1.1 < spend s)%nat
}.

Class VorbisLaws (K I D B F : Type) `{VorbisLib K I D B F} (dpend : D -> nat) (dsp_ok : I -> D -> Prop) := {
  blockin_ok : forall i x b, dsp_ok i x -> dsp_ok i (vSynthesisBlockin x b);
  pcm_ok : forall i x, dsp_ok i x ->
    match vSynthesisPcmout x with
    | Ret (n, pcm) => 0 < n -> zlen pcm = vChannels i /\ Forall (fun ch => n <= zlen ch) pcm /\
        (dpend (vSynthesisRead x n) < dpend x)%nat /\ dsp_ok i (vSynthesisRead x n)
    | Panic w => String.prefix "memory alloc error" w = true
    | OutOfFuel => False
    end
}.

(** The file: a full read fails or gives what was asked for, and [left] bytes
    bound what it can still give. *)
Class InputLaws (R : Type) `{Input R} (left : R -> nat) (in_ok : R -> Prop) := {
  read_ok : forall r n, in_ok r -> 0 < n -> exists r' out err, in_ReadFull r n = Ret (r', out, err) /\
    in_ok r' /\ (left r' + length out <= left r)%nat /\ (err = None -> zlen out = n)
}.

Section decoding.
Context {R Y S P K I D B F : Type}.
Context `{Input R} `{OggLib Y S P K} `{VorbisLib K I D B F}.
Context {left : R -> nat} {ypend : Y -> nat} {spend : S -> nat} {dpend : D -> nat} {dsp_ok : I -> D -> Prop} {in_ok : R -> Prop}.
Context `{!InputLaws R left in_ok} `{!OggLaws Y S P K ypend spend} `{!VorbisLaws K I D B F dpend dsp_ok}.
Context (scale : F -> F -> F) (oob : Z).

Abbreviation decoder := (Decoder R Y S P I D B F).
Implicit Types d : decoder.

(** A decoder that [New] made: the codec is set up. *)
Record decoder_ok d : Prop := {
  dk_input : in_ok (input d);
  dk_stream : is_Some (streamState d);
  dk_dsp : exists x, dspState d = Some x /\ dsp_ok (info d) x
}.

(** What decoding leaves alone. *)
Definition kept d d' : Prop :=
  SampleRate d' = SampleRate d /\ info d' = info d /\ gain d' = gain d /\ closed d' = closed d /\
  started d' = started d /\ meta d' = meta d.

Lemma kept_trans d1 d2 d3 : kept d1 d2 -> kept d2 d3 -> kept d1 d3.
Proof. unfold kept; intros (-> & -> & -> & -> & -> & ->); auto. Qed.

(** [always f r]: from some fuel on, the call gives [r]. *)
Definition always {A} (f : nat -> run A) (r : A) : Prop := exists f0, forall fuel, (f0 <= fuel)%nat -> f fuel = Ret r.

Lemma always_det {A} (f : nat -> run A) r1 r2 : always f r1 -> always f r2 -> r1 = r2.
Proof.
  intros [f1 Hf1] [f2 Hf2]; assert (Ret r1 = Ret r2) as Heq
    by (rewrite <- (Hf1 (f1 `max` f2)%nat), <- (Hf2 (f1 `max` f2)%nat); [done|lia|lia]); by simplify_eq.
Qed.

Lemma pcm_frames_ok pcm i g n : 0 < n -> zlen pcm = vChannels i -> Forall (fun ch => n <= zlen ch) pcm ->
  exists xs, pcm_frames scale pcm (vChannels i) n g = Ret xs.
Proof.
  intros Hn Hlen Hch.
  assert (Hframe : forall k, 0 <= k < n -> exists xs, pcm_frame scale pcm (vChannels i) g k = Ret xs).
  { intros k Hk; unfold pcm_frame.
    assert (Hall : Forall (fun j => 0 <= j < zlen pcm) (seqZ 0 (vChannels i)))
      by (apply Forall_forall; intros j Hj; apply elem_of_seqZ in Hj; lia).
    induction Hall as [|j js Hj _ IH]; [by eexists|]; destruct IH as [ys Hys].
    cbn [mapM mbind run_bind]; destruct (nthZ_lt pcm j Hj) as [ch Hc].
    assert (n <= zlen ch).
    { unfold nthZ in Hc; rewrite decide_True in Hc by lia.
      exact (proj1 (Forall_lookup _ _) Hch _ _ Hc). }
    destruct (nthZ_lt ch k ltac:(lia)) as [x Hx].
    assert (index pcm j = Ret ch) as -> by (unfold index; by rewrite Hc).
    assert (Hi : index ch k = Ret x) by (unfold index; by rewrite Hx).
    cbn [mbind run_bind] in *; rewrite Hi; cbn [mbind run_bind].
    rewrite Hys; by eexists. }
  unfold pcm_frames.
  assert (Hall : Forall (fun k => 0 <= k < n) (seqZ 0 n))
    by (apply Forall_forall; intros j Hj; apply elem_of_seqZ in Hj; lia).
  assert (Hm : exists fs, mapM (pcm_frame scale pcm (vChannels i) g) (seqZ 0 n) = Ret fs).
  { induction Hall as [|k ks Hk _ [ys Hys]]; [by eexists|].
    cbn [mapM]; destruct (Hframe k Hk) as [x ->]; cbn [mbind run_bind]; rewrite Hys; by eexists. }
  destruct Hm as [fs ->]; by eexists.
Qed.

(** The loops come to an end and only add to the buffer. *)
Record decodes_to d d' : Prop := {
  dt_ok : decoder_ok d';
  dt_kept : kept d d';
  dt_page : page d' = page d;
  dt_input : input d' = input d;
  dt_sync : syncState d' = syncState d;
  dt_buf : exists xs, dbuf d' = dbuf d ++ xs
}.

Lemma decodes_to_refl d : decoder_ok d -> decodes_to d d.
Proof. split; try done. exists []; by rewrite app_nil_r. Qed.

Lemma decodes_to_trans d1 d2 d3 : decodes_to d1 d2 -> decodes_to d2 d3 -> decodes_to d1 d3.
Proof.
  intros [A1 B1 C1 D1 E1 [xs F1]] [A2 B2 C2 D2 E2 [ys F2]]; split; try congruence.
  - by eapply kept_trans.
  - exists (xs ++ ys); by rewrite F2, F1, app_assoc.
Qed.

Lemma pcm_loop_ret m : forall d x, dspState d = Some x -> (dpend x < m)%nat -> decoder_ok d ->
  exists d', always (fun f => pcm_loop scale f d) d' /\ decodes_to d d' /\ streamState d' = streamState d.
Proof.
  induction m as [|m IH]; intros d x Hx Hm [Hin Hs (x' & Hx' & Hok)]; [lia|].
  assert (x' = x) as -> by congruence.
  pose proof (pcm_ok (info d) x Hok) as Hp.
  assert (Hstop : forall n pcm, safeSynthesisPcmout x = Ret (n, pcm) -> n <= 0 ->
    exists d', always (fun f => pcm_loop scale f d) d' /\ decodes_to d d' /\ streamState d' = streamState d).
  { intros n pcm Hsafe Hn; exists d; split_and!; [|apply decodes_to_refl; split; eauto|done].
    exists 1%nat; intros [|f] Hf; [lia|]; cbn [pcm_loop]; unfold dsp_of; rewrite Hx; cbn [mbind run_bind].
    by rewrite Hsafe; cbn [mbind run_bind]; rewrite decide_True by done. }
  destruct (vSynthesisPcmout x) as [[n pcm]|w|] eqn:Hpcm; [|eapply Hstop|done].
  2: { unfold safeSynthesisPcmout; by rewrite Hpcm, Hp. }
  2: lia.
  assert (Hsafe : safeSynthesisPcmout x = Ret (n, pcm)) by (unfold safeSynthesisPcmout; by rewrite Hpcm).
  destruct (decide (n <= 0)) as [Hn|Hn]; [by eapply Hstop|].
  destruct (Hp ltac:(lia)) as (Hch & Hlen & Hlt & Hok').
  destruct (pcm_frames_ok pcm (info d) (gain d) n ltac:(lia) Hch Hlen) as [xs Hxs].
  set (d1 := set_dsp (vSynthesisRead x n) (set_dbuf (dbuf d ++ xs) d)).
  destruct (IH d1 (vSynthesisRead x n)) as (d' & [f0 Hf] & Hd & Hst); [done|lia|split; simpl; eauto|].
  exists d'; split_and!; [|eapply decodes_to_trans; [|exact Hd]; split; simpl; eauto; [split; simpl; eauto|done]|done].
  exists (Datatypes.S f0); intros [|f] Hle; [lia|]; cbn [pcm_loop]; unfold dsp_of; rewrite Hx; cbn [mbind run_bind].
  rewrite Hsafe; cbn [mbind run_bind]; rewrite decide_False by done.
  rewrite Hxs; cbn [mbind run_bind]; apply Hf; lia.
Qed.

Lemma packet_loop_ret m : forall d s p, streamState d = Some s -> page d = Some p -> (spend s < m)%nat -> decoder_ok d ->
  exists d', always (fun f => packet_loop scale f d) d' /\ decodes_to d d'.
Proof.
  induction m as [|m IH]; intros d s p Hs Hp Hm Hok; [lia|].
  pose proof (packetout_lt s) as Hlt.
  destruct (oggStreamPacketout s) as [[s1 ret] packet] eqn:Hout; simpl in Hlt.
  destruct Hok as [Hin _ (x & Hx & Hxok)].
  assert (Hok1 : decoder_ok (set_stream s1 d)) by (split; simpl; eauto).
  assert (Hd1 : decodes_to d (set_stream s1 d)) by (split; simpl; eauto; [done|exists []; by rewrite app_nil_r]).
  destruct (decide (ret < 0)) as [Hneg|Hneg].
  { destruct (IH (set_stream s1 d) s1 p) as (d' & [f0 Hf] & Hd); [done|done|specialize (Hlt ltac:(lia)); lia|done|].
    exists d'; split; [|by eapply decodes_to_trans].
    exists (Datatypes.S f0); intros [|f] Hle; [lia|]; cbn [packet_loop]; unfold stream_of; rewrite Hs; cbn [mbind run_bind].
    rewrite Hout, decide_True by done; apply Hf; lia. }
  destruct (decide (ret = 0)) as [Hz|Hz].
  { exists (set_stream s1 d); split; [|done].
    exists 1%nat; intros [|f] Hle; [lia|]; cbn [packet_loop]; unfold stream_of; rewrite Hs; cbn [mbind run_bind].
    by rewrite Hout, decide_False, decide_True by done. }
  destruct (vSynthesis (block d) packet) as [b ret2] eqn:Hsyn.
  set (d2 := if decide (ret2 = 0) then set_dsp (vSynthesisBlockin x b) (set_block b (set_stream s1 d))
             else set_block b (set_stream s1 d)).
  assert (Hd2 : exists y, dspState d2 = Some y /\ dsp_ok (info d2) y).
  { unfold d2; case_decide; simpl; [|eauto]; eexists; split; [done|by apply blockin_ok]. }
  destruct Hd2 as (y & Hy & Hyok).
  assert (Hto : decodes_to (set_stream s1 d) d2).
  { unfold d2; case_decide; (split; simpl; [split; simpl; [done|by eexists|]|done..|exists []; by rewrite app_nil_r]); [|by eauto].
    exists (vSynthesisBlockin x b); split; [done|by apply blockin_ok]. }
  assert (Hst2 : streamState d2 = Some s1) by (unfold d2; case_decide; done).
  assert (Hpg2 : page d2 = Some p) by (unfold d2; case_decide; done).
  destruct (pcm_loop_ret (Datatypes.S (dpend y)) d2 y Hy ltac:(lia) (dt_ok _ _ Hto)) as (d3 & [f1 Hf1] & Hd3 & Hst3).
  set (d4 := set_granulepos (oggPageGranulepos p) d3).
  assert (Hpg3 : page d3 = Some p) by (rewrite (dt_page _ _ Hd3); done).
  assert (Hd4 : decodes_to d3 d4).
  { pose proof (dt_ok _ _ Hd3) as [? ? ?]; split; simpl; [by split|done..|exists []; by rewrite app_nil_r]. }
  destruct (IH d4 s1 p) as (d' & [f0 Hf] & Hd); [simpl; congruence|done|specialize (Hlt ltac:(lia)); lia|exact (dt_ok _ _ Hd4)|].
  exists d'; split; [|eauto using decodes_to_trans].
  exists (Datatypes.S (f0 `max` f1)); intros [|f] Hle; [lia|]; cbn [packet_loop]; unfold stream_of; rewrite Hs; cbn [mbind run_bind].
  rewrite Hout, !decide_False by done; simpl block; rewrite Hsyn.
  unfold dsp_of; simpl dspState; rewrite Hx; cbn [mbind run_bind]; fold d2.
  rewrite Hf1 by lia; cbn [mbind run_bind]; unfold page_of; rewrite Hpg3; cbn [mbind run_bind]; fold d4; apply Hf; lia.
Qed.

(** What is left of the file, in the decoder and before it. *)
Definition pending d : nat := (ypend (syncState d) + 2 * left (input d))%nat.

Lemma readChunk_ret d : decoder_ok d -> exists d' n err, readChunk d = Ret (d', n, err) /\
  kept d d' /\ page d' = page d /\ dbuf d' = dbuf d /\ decoder_ok d' /\
  (pending d' <= pending d)%nat /\ (err = None -> (pending d' < pending d)%nat).
Proof.
  intros [Hin ? ?].
  destruct (read_ok (input d) DataChunkSize Hin ltac:(done)) as (r' & out & err & Hr & Hin' & Hleft & Hfull).
  pose proof (sync_wrote (syncState d) out) as Hw.
  unfold readChunk; rewrite Hr; cbn [mbind run_bind].
  assert (Hpend : (pending (set_input (oggSyncWrote (syncState d) out) r' d) <= pending d)%nat /\
    (err = None -> (pending (set_input (oggSyncWrote (syncState d) out) r' d) < pending d)%nat)).
  { unfold pending; simpl; split; [lia|]; intros He; specialize (Hfull He); unfold zlen, DataChunkSize in Hfull; lia. }
  destruct Hpend as [Hp1 Hp2].
  destruct (opt_Is err io_ErrUnexpectedEOF) eqn:Hu; eexists _, _, _; (split_and!; [reflexivity|..]); try done;
    by split.
Qed.

Lemma sync_page_ret m : forall d, (pending d < m)%nat -> decoder_ok d ->
  exists d' err, always (fun f => sync_page f d) (d', err) /\ kept d d' /\ dbuf d' = dbuf d /\ decoder_ok d' /\
    (pending d' <= pending d)%nat /\ is_Some (page d') /\ (err = None -> (pending d' < pending d)%nat).
Proof.
  induction m as [|m IH]; intros d Hm Hok; [lia|].
  pose proof (pageout_le (syncState d)) as Hle; pose proof (pageout_lt (syncState d)) as Hlt.
  destruct (oggSyncPageout (syncState d)) as [[y ret] pg] eqn:Hout; simpl in Hle, Hlt.
  set (d1 := set_sync y (Some pg) d).
  assert (Hok1 : decoder_ok d1) by (destruct Hok; split; done).
  assert (Hk1 : kept d d1) by done.
  assert (Hp1 : (pending d1 <= pending d)%nat) by (unfold pending; simpl; lia).
  destruct (decide (ret < 0)) as [Hneg|Hneg].
  { assert (Hp1' : (pending d1 < pending d)%nat) by (unfold pending in *; simpl in *; specialize (Hlt ltac:(lia)); lia).
    destruct (IH d1 ltac:(lia) Hok1) as (d' & err & [f0 Hf] & Hk & Hb & Ho & Hp & Hpg & He).
    exists d', err; split_and!; [|done|done|done|lia|done|intros; specialize (He ltac:(done)); lia].
    exists (Datatypes.S f0); intros [|f] Hle2; [lia|]; cbn [sync_page]; rewrite Hout.
    rewrite decide_True by done; apply Hf; lia. }
  destruct (decide (ret = 0)) as [Hz|Hz].
  - destruct (readChunk_ret d1 Hok1) as (d2 & n & err & Hr & Hk2 & Hpg2 & Hb2 & Ho2 & Hle2 & Hlt2).
    destruct err as [e|].
    + exists d2, (Some e); split_and!; [|done|done|done|lia|rewrite Hpg2; by eexists|done].
      exists 1%nat; intros [|f] Hf; [lia|]; cbn [sync_page]; rewrite Hout.
      rewrite decide_False, decide_True by done; fold d1; by rewrite Hr.
    + specialize (Hlt2 eq_refl); destruct (IH d2 ltac:(lia) Ho2) as (d' & err & [f0 Hf] & Hk & Hb & Ho & Hp & Hpg & He).
      exists d', err; split_and!; [|eapply kept_trans; [exact Hk1|]; by eapply kept_trans|by rewrite Hb, Hb2|done|lia|done|intros; specialize (He ltac:(done)); lia].
      exists (Datatypes.S f0); intros [|f] Hf'; [lia|]; cbn [sync_page]; rewrite Hout.
      rewrite decide_False, decide_True by done; fold d1; rewrite Hr; cbn [mbind run_bind]; apply Hf; lia.
  - exists d1, None; split_and!; [|done|done|done|done|by eexists|].
    + exists 1%nat; intros [|f] Hf; [lia|]; cbn [sync_page]; rewrite Hout.
      by rewrite !decide_False by done.
    + intros _; unfold pending; simpl; specialize (Hlt Hz); lia.
Qed.

Lemma readNextPage_ret d : decoder_ok d ->
  exists d' err, always (fun f => readNextPage scale f d) (d', err) /\ kept d d' /\ decoder_ok d' /\
    (err = None -> (pending d' < pending d)%nat) /\ exists xs, dbuf d' = dbuf d ++ xs.
Proof.
  intros Hok; destruct (sync_page_ret (Datatypes.S (pending d)) d ltac:(lia) Hok)
    as (d1 & err & [f0 Hf] & Hk & Hb & Ho & Hp & [p Hpg] & He).
  destruct err as [e|].
  { exists d1, (Some e); split_and!; [|done|done|done|exists []; by rewrite app_nil_r].
    exists f0; intros f Hle; unfold readNextPage; by rewrite Hf. }
  pose proof (dk_stream _ Ho) as [s Hs].
  set (d2 := set_stream (oggStreamPagein s p).1 d1).
  assert (Ho2 : decoder_ok d2) by (destruct Ho; split; simpl; eauto).
  destruct (packet_loop_ret (Datatypes.S (spend (oggStreamPagein s p).1)) d2 (oggStreamPagein s p).1 p)
    as (d3 & [f1 Hf1] & Hd3); [done|done|lia|done|].
  specialize (He eq_refl).
  exists d3, (if decide (oggPageEos p = 1) then Some io_EOF else None); split_and!.
  - exists (f0 `max` f1)%nat; intros f Hle; unfold readNextPage; rewrite Hf by lia; cbn [mbind run_bind].
    unfold stream_of, page_of; rewrite Hs, Hpg; cbn [mbind run_bind]; fold d2; rewrite Hf1 by lia; cbn [mbind run_bind].
    by case_decide.
  - eapply kept_trans; [exact Hk|exact (dt_kept _ _ Hd3)].
  - exact (dt_ok _ _ Hd3).
  - intros _; unfold pending in *; rewrite (dt_input _ _ Hd3), (dt_sync _ _ Hd3); simpl; lia.
  - destruct (dt_buf _ _ Hd3) as [xs Hxs]; exists xs; rewrite Hxs; simpl; by rewrite Hb.
Qed.

(** ** Reads *)

(** The next page of [d], decoded: what follows in the file. *)
Definition next_page d d' (err : option error) : Prop := always (fun f => readNextPage scale f d) (d', err).

(** [xs] are the samples of the pages decoded on the way from [d] to [d']. *)
Inductive decodes : decoder -> list F -> decoder -> Prop :=
| decodes_nil d l : decodes d [] (set_dbuf l d)
| decodes_page d d1 err ys d2 : next_page (set_dbuf [] d) d1 err -> decodes d1 ys d2 ->
    decodes d (dbuf d1 ++ ys) d2.

Lemma set_dbuf_id d : set_dbuf (dbuf d) d = d.
Proof. by destruct d. Qed.

Lemma decodes_refl d : decodes d [] d.
Proof. rewrite <- (set_dbuf_id d) at 2; constructor. Qed.

Lemma decodes_buf d l xs d' : decodes (set_dbuf l d) xs d' -> decodes d xs d'.
Proof.
  inversion 1 as [d0 l0|d0 d1 err ys d2 Hn Hd]; subst; [apply (decodes_nil d)|by eapply decodes_page].
Qed.

Lemma set_dbuf_ok d l : decoder_ok d -> decoder_ok (set_dbuf l d).
Proof. intros [? ? ?]; by split. Qed.

Lemma read_loop_ret m : forall d n acc, (Z.to_nat n + pending d < m)%nat -> decoder_ok d -> 0 <= n ->
  exists d' out err, always (fun f => read_loop scale f d n acc) (d', acc ++ out, err) /\ decoder_ok d' /\
    zlen out <= n /\ (err = None -> zlen out = n) /\
    exists xs, decodes d xs d' /\ out ++ dbuf d' = dbuf d ++ xs.
Proof.
  induction m as [|m IH]; intros d n acc Hm Hok Hn; [lia|].
  destruct (decide (n <= 0)) as [Hle|Hpos].
  { assert (n = 0) as -> by lia.
    exists d, [], None; rewrite !app_nil_r; split_and!; try done.
    - exists 0%nat; intros [|f] _; by cbn [read_loop]; rewrite decide_True by done.
    - exists []; split; [apply decodes_refl|by rewrite app_nil_r]. }
  destruct (decide (dbuf d <> [])) as [Hb|Hb].
  - assert (Hblen : 0 < zlen (dbuf d)) by (destruct (dbuf d); [done|]; rewrite zlen_cons; pose proof (zlen_nonneg l); lia).
    assert (Hc : zlen (takeZ n (dbuf d)) = Z.min n (zlen (dbuf d))) by (rewrite zlen_takeZ; lia).
    destruct (IH (set_dbuf (dropZ n (dbuf d)) d) (n - zlen (takeZ n (dbuf d))) (acc ++ takeZ n (dbuf d)))
      as (d' & out & err & [f0 Hf] & Ho & Hz & Hfull & xs & Hd & Hc'); [unfold pending in *; simpl; lia|by apply set_dbuf_ok|lia|].
    exists d', (takeZ n (dbuf d) ++ out), err; split_and!; [|done|rewrite zlen_app; lia|intros He; specialize (Hfull He); rewrite zlen_app; lia|].
    + exists (Datatypes.S f0); intros [|f] Hle; [lia|]; cbn [read_loop]; rewrite decide_False, decide_True by done.
      rewrite app_assoc; apply Hf; lia.
    + exists xs; split; [by eapply decodes_buf|].
      rewrite <- app_assoc, Hc', app_assoc; f_equal; unfold takeZ, dropZ; apply take_drop.
  - assert (Hb' : dbuf d = []) by (destruct (dbuf d); [done|]; destruct Hb; done).
    destruct (readNextPage_ret d Hok) as (d1 & err & [f1 Hf1] & Hk & Ho & Hp & _).
    assert (Hnext : next_page (set_dbuf [] d) d1 err).
    { rewrite <- Hb', set_dbuf_id; by exists f1. }
    destruct err as [e|].
    + exists d1, [], (Some e); rewrite app_nil_r; split_and!; [|done|unfold zlen; simpl; lia|done|].
      * exists (Datatypes.S f1); intros [|f] Hle; [lia|]; cbn [read_loop]; rewrite decide_False, (decide_False (P := dbuf d <> [])) by done.
        by rewrite Hf1 by lia.
      * exists (dbuf d1); split; [|by rewrite Hb'].
        rewrite <- (app_nil_r (dbuf d1)); eapply decodes_page; [exact Hnext|apply decodes_refl].
    + specialize (Hp eq_refl).
      destruct (IH d1 n acc) as (d' & out & err & [f0 Hf] & Ho' & Hz & Hfull & xs & Hd & Hc); [lia|done|lia|].
      exists d', out, err; split_and!; [|done|done|done|].
      * exists (Datatypes.S (f0 `max` f1)); intros [|f] Hle; [lia|]; cbn [read_loop].
        rewrite decide_False, (decide_False (P := dbuf d <> [])) by done.
        rewrite Hf1 by lia; cbn [mbind run_bind]; apply Hf; lia.
      * exists (dbuf d1 ++ xs); split; [by eapply decodes_page|by rewrite Hb'].
Qed.

(** A decoder as [Read] leaves it to the loop. *)
Definition begun d : decoder :=
  match dspState d with
  | Some x => if started d then d else set_started (set_block (vBlockInit x) d)
  | None => d
  end.
End decoding.

(** C15: Every read of an open decoder returns, whatever the codec makes of the
    file.  It gives as many samples as were asked for, or an error; and the
    samples it gives, followed by those it keeps, are those kept before followed
    by those of the pages it decoded: in order, none lost and none twice. *)
Theorem vorbis_read_in_order {R Y S P K I D B F} `{Input R} `{OggLib Y S P K} `{VorbisLib K I D B F}
    (left : R -> nat) (ypend : Y -> nat) (spend : S -> nat) (dpend : D -> nat) (dsp_ok : I -> D -> Prop)
    (in_ok : R -> Prop) `{!InputLaws R left in_ok} `{!OggLaws Y S P K ypend spend} `{!VorbisLaws K I D B F dpend dsp_ok}
    (scale : F -> F -> F) (d : Decoder R Y S P I D B F) (n : Z) :
  decoder_ok (dsp_ok := dsp_ok) (in_ok := in_ok) d -> closed d = false -> 0 <= n ->
  exists fuel0 d' out err, (forall fuel, (fuel0 <= fuel)%nat -> Read scale fuel d n = Ret (d', out, err)) /\
    zlen out <= n /\ (err = None -> zlen out = n) /\
    exists xs, decodes scale (begun d) xs d' /\ out ++ dbuf d' = dbuf d ++ xs.
Proof.
  intros Hok Hopen Hn; pose proof (dk_dsp _ Hok) as (x & Hx & Hxok).
  assert (Hok' : decoder_ok (dsp_ok := dsp_ok) (in_ok := in_ok) (begun d)).
  { unfold begun; rewrite Hx; destruct (started d); [done|]; destruct Hok; split; simpl; eauto. }
  destruct (read_loop_ret scale (Datatypes.S (Z.to_nat n + pending (left := left) (ypend := ypend) (begun d)))
    (begun d) n [] ltac:(lia) Hok' Hn) as (d' & out & err & [f0 Hf] & Ho & Hz & Hfull & xs & Hd & Hc).
  exists f0, d', out, err; split_and!; [|done|done|].
  - intros fuel Hle; unfold Read; rewrite Hopen; unfold start_decoding, dsp_of.
    specialize (Hf fuel Hle); unfold begun in Hf; rewrite Hx in *; by destruct (started d).
  - exists xs; split; [done|]; rewrite Hc; unfold begun; rewrite Hx; by destruct (started d).
Qed.

(** The last page is never heard.  When the next page ends the stream, a read
    reports the end with no samples of that page, which stay in the decoder. *)
Theorem vorbis_last_page_withheld {R Y S P K I D B F} `{Input R} `{OggLib Y S P K} `{VorbisLib K I D B F}
    (scale : F -> F -> F) (d d1 : Decoder R Y S P I D B F) (n : Z) :
  closed d = false -> started d = true -> dbuf d = [] -> 0 < n ->
  next_page scale d d1 (Some io_EOF) ->
  exists fuel0, forall fuel, (fuel0 <= fuel)%nat -> Read scale fuel d n = Ret (d1, [], Some io_EOF).
Proof.
  intros Hopen Hst Hb Hn [f0 Hf]; exists (Datatypes.S f0); intros [|f] Hle; [lia|].
  unfold Read; rewrite Hopen; unfold start_decoding; rewrite Hst; cbn [mbind run_bind read_loop].
  rewrite decide_False, (decide_False (P := dbuf d <> [])) by (auto; lia).
  by rewrite Hf by lia.
Qed.

(** ** The decoder's file

    A section of a reader that serves a file is such an input: what the chunked
    download and the decryption of [ChunkedRefine] and [Audio] promise is what
    the decoder relies on. *)
Section section_laws.
Context {R : Type} `{ReaderAt R} {serves : R -> list Z -> Prop} `{!ReaderAtLaws R serves} (file : list Z).

Definition section_ok (s : SectionReader R) : Prop :=
  serves (sec_r s) file /\ 0 <= sec_off s /\ sec_limit s < 2 ^ 63.

Definition section_left (s : SectionReader R) : nat := Z.to_nat (sec_limit s - sec_off s).

Lemma sec_Read_ok s n : section_ok s -> 0 < n -> exists s' out err, sec_Read s n = Ret (s', out, err) /\
  section_ok s' /\ (section_left s' + length out <= section_left s)%nat /\
  zlen out <= n /\ (err = None -> zlen out = n \/ sec_limit s' <= sec_off s' /\ 0 < zlen out < n).
Proof.
  intros (Hs & Hoff & Hlim) Hn; unfold sec_Read; case_decide as Hend.
  { exists s, [], (Some io_EOF); split_and!; try done; [simpl; lia|change (zlen (@nil Z)) with 0; lia]. }
  destruct (ra_ReadAt_ok (sec_r s) file (Z.min n (sec_limit s - sec_off s)) (sec_off s) Hs ltac:(lia) ltac:(lia))
    as (r' & out & err & -> & Hs' & _ & Hle & Hfull & _).
  eexists _, _, _; split; [reflexivity|]; unfold section_ok, section_left; simpl; pose proof (zlen_nonneg out).
  split_and!; [done|lia|done|unfold zlen in *; lia|lia|].
  intros He; specialize (Hfull He); destruct (decide (n <= sec_limit s - sec_off s)); [left|right]; lia.
Qed.

(** Past the section's end a read gives up with an error. *)
Lemma read_full_end f s n acc : sec_limit s <= sec_off s -> 0 < n -> exists e,
  read_full (Datatypes.S f) s n acc = Ret (s, acc, Some e).
Proof.
  intros Hend Hn; cbn [read_full]; rewrite decide_False by lia; unfold sec_Read; rewrite decide_True by done.
  cbn [mbind run_bind]; change (zlen (@nil Z)) with 0; rewrite decide_False, app_nil_r by lia; case_match; by eexists.
Qed.

#[export] Instance section_laws : InputLaws (SectionReader R) section_left section_ok.
Proof.
  split; intros s n Hs Hn; unfold in_ReadFull, section_input, sec_ReadFull; cbn [read_full].
  rewrite decide_False by lia.
  destruct (sec_Read_ok s n Hs Hn) as (s1 & out & err & -> & Hs1 & Hleft & Hle & Hshort); cbn [mbind run_bind app].
  destruct err as [e|].
  - destruct (decide (n <= zlen out)); [|case_match];
      (eexists _, _, _; split_and!; [reflexivity|done|done|intros; try done; lia]).
  - destruct (Hshort eq_refl) as [Hf|[Hend Hlt]].
    + rewrite Hf, Z.sub_diag; exists s1, out, None; split_and!; [|done|done|done].
      destruct (Z.to_nat n); cbn [read_full]; by rewrite decide_True by lia.
    + destruct (Z.to_nat n) as [|k] eqn:Hk; [lia|].
      destruct (read_full_end k s1 (n - zlen out) out Hend ltac:(lia)) as [e ->].
      eexists _, _, _; split_and!; [reflexivity|done|done|done].
Qed.
End section_laws.

(** ** A codec of one-byte pages, for concrete runs

    Every byte is a page of one packet, a stereo frame of that value; bytes from
    100 on end the stream. *)
#[export] Instance byte_ogg : OggLib (list Z) (list Z) Z Z := {
  oggSyncInit := [];
  oggSyncWrote y bs := y ++ bs;
  oggSyncPageout y := match y with [] => ([], 0, 0) | b :: y => (y, 1, b) end;
  oggSyncReturned y := 1;
  oggStreamInit _ := [];
  oggStreamPagein s p := (s ++ [p], 0);
  oggStreamPacketout s := match s with [] => ([], 0, 0) | k :: s => (s, 1, k) end;
  oggPageSerialno p := 0;
  oggPageGranulepos p := p;
  oggPageEos p := if decide (100 <= p) then 1 else 0;
  oggPacketBytes k := [k]
}.

#[export] Instance byte_ogg_laws : OggLaws (list Z) (list Z) Z Z length length.
Proof. split; [intros; simpl; rewrite length_app; lia|by intros []; simpl; lia..]. Defined.

#[export] Instance frame_vorbis : VorbisLib Z Z (list Z) Z Z := {
  vInfoInit := 0;
  vSynthesisHeaderin i k := (i + 1, 0);
  vChannels _ := 2;
  vRate _ := 44100;
  vSynthesisInit i := ([], 0);
  vBlockZero := 0;
  vBlockInit _ := 0;
  vSynthesis b k := (k, 0);
  vSynthesisBlockin x b := x ++ [b];
  vSynthesisPcmout x := Ret (zlen x, [x; x]);
  vSynthesisRead x n := dropZ n x;
  vGranuleTimeMs x g := g
}.

#[export] Instance frame_vorbis_laws : VorbisLaws Z Z (list Z) Z Z length (fun _ _ => True).
Proof.
  split; [done|]; intros i x _; simpl; intros Hn; split_and!; [done|repeat constructor; lia| |done].
  unfold dropZ, zlen in *; rewrite length_drop; lia.
Defined.

(** A file served by position. *)
#[export] Instance list_ReaderAt : ReaderAt (list Z) := {
  ra_ReadAt file n pos :=
    let out := takeZ n (dropZ pos file) in
    Ret (file, out, if decide (zlen out < n) then Some io_EOF else None)
}.

#[export] Instance list_ReaderAtLaws : ReaderAtLaws (list Z) eq.
Proof.
  split; intros r file n pos -> Hn Hp; eexists _, _, _; split; [reflexivity|]; split; [done|].
  set (out := takeZ n (dropZ pos file)); pose proof (zlen_nonneg (dropZ pos file)) as Hd.
  assert (Hl : zlen out = Z.min n (zlen (dropZ pos file))) by (unfold out; rewrite zlen_takeZ; lia).
  split_and!; [|lia|case_decide; [done|lia]|].
  - unfold out at 1; rewrite Hl; unfold takeZ; destruct (decide (n <= zlen (dropZ pos file))).
    + by rewrite Z.min_l by lia.
    + rewrite Z.min_r by lia; rewrite !take_ge; [done|unfold zlen; lia|unfold zlen in *; lia].
  - case_decide; [|done]; intros _; unfold out, takeZ; rewrite take_ge; [done|unfold zlen in *; lia].
Defined.

(** Three header pages, then the numbers 1 to 4093 in turn modulo 90, then a
    page that ends the stream. *)
Definition demo_track : list Z := [0; 0; 0] ++ ((fun x => 1 + x `mod` 90) <$> seqZ 0 4093) ++ [7; 8; 100].

Abbreviation demo_decoder := (Decoder (SectionReader (list Z)) (list Z) (list Z) Z Z (list Z) Z Z).

Definition demo_open : run (result demo_decoder) :=
  New 20 (NewSectionReader demo_track 0 (zlen demo_track)) emptyMetadata 1.

Definition demo_opened : demo_decoder :=
  match demo_open with
  | Ret (Ok d) => d
  | _ => MkDecoder 0 0 emptyMetadata 1 [] None None 0 None 0 (NewSectionReader [] 0 0) [] false true false 0
  end.

Lemma demo_opened_ok :
  decoder_ok (dsp_ok := fun _ _ => True) (in_ok := section_ok (serves := eq) demo_track) demo_opened.
Proof.
  assert (Hd : streamState demo_opened = Some [] /\ dspState demo_opened = Some [] /\
    bool_decide (sec_r (input demo_opened) = demo_track) = true /\ sec_off (input demo_opened) = 4096 /\
    sec_limit (input demo_opened) = 4099) by (vm_compute; done).
  revert Hd; generalize demo_opened; generalize demo_track; intros file d (Hs & Hx & Hr & Ho & Hl).
  apply bool_decide_eq_true in Hr.
  split; [unfold section_ok; rewrite Hr, Ho, Hl; split_and!; [done|lia|lia]|rewrite Hs; by eexists|exists []; by rewrite Hx].
Qed.

Lemma vorbis_read_in_order_witness :
  exists fuel0 d' out err, (forall fuel, (fuel0 <= fuel)%nat -> Read Z.mul fuel demo_opened 10 = Ret (d', out, err)) /\
    zlen out <= 10 /\ (err = None -> zlen out = 10) /\
    exists xs, decodes Z.mul (begun demo_opened) xs d' /\ out ++ dbuf d' = dbuf demo_opened ++ xs.
Proof.
  apply (vorbis_read_in_order section_left length length length (fun _ _ => True)
    (section_ok (serves := eq) demo_track) Z.mul demo_opened 10 demo_opened_ok); [vm_compute; done|lia].
Defined.

(** A decoder before its last page: 100 is synchronised next. *)
Definition demo_last : demo_decoder :=
  MkDecoder 44100 2 emptyMetadata 1 [100] (Some []) (Some 8) 3 (Some []) 0 (NewSectionReader [] 0 0) [] false false true 8.

Definition demo_ended : demo_decoder :=
  MkDecoder 44100 2 emptyMetadata 1 [] (Some []) (Some 100) 3 (Some []) 100 (NewSectionReader [] 0 0) [100; 100]
    false false true 100.

Lemma vorbis_last_page_withheld_witness :
  dbuf demo_ended = [100; 100] /\
  exists fuel0, forall fuel, (fuel0 <= fuel)%nat -> Read Z.mul fuel demo_last 10 = Ret (demo_ended, [], Some io_EOF).
Proof.
  split; [reflexivity|].
  apply (vorbis_last_page_withheld Z.mul demo_last demo_ended); [reflexivity..|lia|].
  exists 4%nat; intros [|[|[|[|f]]]] Hf; [lia..|]; vm_compute; reflexivity.
Defined.
