(* ===== verification/Decoders.v ===== *)
(** * The FLAC and MP3 decoders ([src/flac/decoder.go], [src/mp3/decoder.go])

    The Go side of libFLAC and libmpg123: the callbacks that read the file, the
    conversion of samples, reading, seeking, and what is allocated and freed.
    The libraries are parameters. *)

From S2P Require Import Prelude Floats.
#[local] Open Scope list_scope.
#[local] Open Scope Z_scope.

(** The file, by single reads and seeks. *)
Inductive whence := SeekStart | SeekCurrent | SeekEnd.

Class Seeker (R : Type) := {
  sk_Read : R -> Z -> R * list Z * option error;
  sk_Seek : R -> Z -> whence -> R * result Z;
  sk_Size : R -> Z
}.

(** What a constructor or [Close] does with memory of the C libraries and with
    handles. *)
Inductive resource := ClientData | FlacDecoder | MpgHandle | CgoHandle | HandlePtr.
Inductive memory_op := Alloc (r : resource) | Release (r : resource).

#[export] Instance resource_eq_dec : EqDecision resource.
Proof. solve_decision. Defined.
#[export] Instance memory_op_eq_dec : EqDecision memory_op.
Proof. solve_decision. Defined.

(** ** FLAC *)
Module Flac.

Inductive read_status := READ_CONTINUE | READ_END_OF_STREAM | READ_ABORT.
Inductive seek_status := SEEK_OK | SEEK_ERROR.
Inductive tell_status := TELL_OK | TELL_ERROR.

Section callbacks.
Context {R : Type} `{Seeker R}.

(** The bytes stored for the library, and the status. *)
Definition callbackRead (r : R) (bytes : Z) : R * list Z * read_status :=
  let '(r, out, err) := sk_Read r bytes in
  match err with
  | Some e =>
    if errors_Is e io_EOF
    then if decide (zlen out = 0) then (r, out, READ_END_OF_STREAM) else (r, out, READ_CONTINUE)
    else (r, out, READ_ABORT)
  | None => (r, out, READ_CONTINUE)
  end.

Definition callbackSeek (r : R) (absoluteByteOffset : Z) : R * seek_status :=
  match sk_Seek r (i64 absoluteByteOffset) SeekStart with
  | (r, Ok _) => (r, SEEK_OK)
  | (r, Err _) => (r, SEEK_ERROR)
  end.

Definition callbackTell (r : R) : R * option Z * tell_status :=
  match sk_Seek r 0 SeekCurrent with
  | (r, Ok pos) => (r, Some (u64 pos), TELL_OK)
  | (r, Err _) => (r, None, TELL_ERROR)
  end.

Definition callbackLength (r : R) : Z := u64 (sk_Size r).

Definition callbackEof (r : R) : R * bool :=
  match sk_Seek r 0 SeekCurrent with
  | (r, Ok pos) => (r, bool_decide (sk_Size r <= pos))
  | (r, Err _) => (r, true)
  end.
End callbacks.

(** A frame as libFLAC hands it over: the samples of each channel. *)
Record frame := MkFrame { bits_per_sample : Z; blocksize : Z; fr_channels : list (list Z) }.

(** libFLAC: [X] is its state and the file it reads through the callbacks.  A
    step gives the frames it wrote and whether it succeeded. *)
Class FlacLib (X : Type) := {
  process_single : X -> X * list frame * bool;
  end_of_stream : X -> bool;
  seek_absolute : X -> Z -> X * list frame * bool;
  get_decode_position : X -> option Z
}.

Record Decoder (X : Type) := MkDecoder {
  SampleRate : Z;
  Channels : Z;
  BitDepth : Z;
  gain : Z;
  decoder : X;
  buffer : list Z
}.
Arguments MkDecoder {X}.
Arguments SampleRate {X}.
Arguments Channels {X}.
Arguments BitDepth {X}.
Arguments gain {X}.
Arguments decoder {X}.
Arguments buffer {X}.

(** One interleaved frame of samples; reading past a channel's end is a read
    outside of the library's memory. *)
Definition interleave_at (channels : Z) (g : Z) (fr : frame) (i : Z) : run (list Z) :=
  let norm := f32_of (u32 (Z.shiftl 1 (u32 (bits_per_sample fr - 1)))) in
  mapM (fun ch => ss ← index (fr_channels fr) ch; x ← index ss i; Ret (mul32 (div32 (f32_of x) norm) g))
    (seqZ 0 channels).

Definition callbackWrite {X} (d : Decoder X) (fr : frame) : run (Decoder X) :=
  xs ← mapM (interleave_at (Channels d) (gain d) fr) (seqZ 0 (blocksize fr));
  Ret (MkDecoder (SampleRate d) (Channels d) (BitDepth d) (gain d) (decoder d) (buffer d ++ concat xs)).

(** The stream info block; any other is only logged. *)
Definition callbackMetadata {X} (d : Decoder X) (info : option (Z * Z * Z)) : Decoder X :=
  match info with
  | Some (rate, channels, bits) => MkDecoder (i32 rate) (i32 channels) (i32 bits) (gain d) (decoder d) (buffer d)
  | None => d
  end.

Section decoding.
Context {X : Type} `{FlacLib X}.
Implicit Types d : Decoder X.

Definition set_state (x : X) (b : list Z) d : Decoder X :=
  MkDecoder (SampleRate d) (Channels d) (BitDepth d) (gain d) x b.

Fixpoint write_frames d (frs : list frame) : run (Decoder X) :=
  match frs with
  | [] => Ret d
  | fr :: frs => d ← callbackWrite d fr; write_frames d frs
  end.

Fixpoint read_loop (fuel : nat) d (n : Z) (acc : list Z) : run (Decoder X * list Z * option error) :=
  match fuel with
  | O => OutOfFuel
  | S fuel =>
    let copied := takeZ n (buffer d) in
    let d := set_state (decoder d) (dropZ n (buffer d)) d in
    let acc := acc ++ copied in
    let n := n - zlen copied in
    if decide (n = 0) then Ret (d, acc, None)
    else
      let '(x, frs, ok) := process_single (decoder d) in
      d ← write_frames (set_state x (buffer d) d) frs;
      if negb ok then Ret (d, [], Some (EMsg "error while decoding FLAC frame"))
      else if end_of_stream (decoder d) then
        Ret (d, acc, if decide (buffer d = []) then Some io_EOF else None)
      else read_loop fuel d n acc
  end.

Definition Read (fuel : nat) d (n : Z) : run (Decoder X * list Z * option error) := read_loop fuel d n [].

Definition SetPositionMs d (pos : Z) : run (Decoder X * option error) :=
  let posSamples := Z.quot (i64 (pos * SampleRate d)) 1000 in
  let '(x, frs, ok) := seek_absolute (decoder d) (u64 posSamples) in
  d ← write_frames (set_state x (buffer d) d) frs;
  Ret (d, if ok : bool then None else Some (EMsg "could not seek to position")).

Definition PositionMs d : run Z :=
  match get_decode_position (decoder d) with
  | None => Ret 0
  | Some samplePosition =>
    if decide (SampleRate d = 0) then Panic "integer divide by zero"
    else Ret (Z.quot (i64 (i64 samplePosition * 1000)) (SampleRate d))
  end.
End decoding.

(** [New]: whether each step of the library succeeds, and the memory taken and
    given back. *)
Definition New (alloc create init metadata : bool) : list memory_op * option error :=
  if negb alloc then ([], Some (EMsg "could not allocate FLAC client data"))
  else if negb create
  then ([Alloc ClientData; Release ClientData], Some (EMsg "could not create FLAC decoder"))
  else if negb init
  then ([Alloc ClientData; Alloc FlacDecoder; Release FlacDecoder; Release ClientData],
        Some (EMsg "could not initialize FLAC decoder"))
  else if negb metadata
  then ([Alloc ClientData; Alloc FlacDecoder; Release FlacDecoder; Release ClientData],
        Some (EMsg "could not process FLAC metadata"))
  else ([Alloc ClientData; Alloc FlacDecoder], None).

Definition Close : list memory_op := [Release FlacDecoder; Release ClientData].
End Flac.

(** ** MP3 *)
Module Mp3.

(** libmpg123: the result code and the samples of a read; [MPG123_OK] is 0 and
    [MPG123_DONE] -12. *)
Class MpgLib (X F : Type) := {
  mpg123_read : X -> Z -> X * list F * Z;
  mpg123_seek : X -> Z -> X * Z;
  mpg123_tell : X -> Z
}.

Definition MPG123_OK : Z := 0.
Definition MPG123_DONE : Z := -12.
Definition MPG123_ENC_FLOAT_32 : Z := 0x200.

Section callbacks.
Context {R : Type} `{Seeker R}.

Definition mpg123CallbackRead (r : R) (count : Z) : R * list Z * Z :=
  let '(r, out, err) := sk_Read r count in
  if negb (bool_decide (err = None)) && negb (opt_Is err io_EOF) then (r, out, -1) else (r, out, zlen out).

Definition mpg123CallbackSeek (r : R) (offset : Z) (w : whence) : R * Z :=
  match sk_Seek r offset w with
  | (r, Ok pos) => (r, pos)
  | (r, Err _) => (r, -1)
  end.
End callbacks.

Section decoding.
Context {X F : Type} `{MpgLib X F} (scale : F -> F -> F).

Record Decoder := MkDecoder { SampleRate : Z; Channels : Z; gain : F; mh : X }.
Implicit Types d : Decoder.

Definition set_mh (x : X) d : Decoder := MkDecoder (SampleRate d) (Channels d) (gain d) x.

Definition Read d (n : Z) : Decoder * list F * option error :=
  if decide (n = 0) then (d, [], None)
  else
    let '(x, done, res) := mpg123_read (mh d) n in
    let d := set_mh x d in
    let p := (fun s => scale s (gain d)) <$> done in
    if decide (res = MPG123_OK) then (d, p, None)
    else if decide (res = MPG123_DONE) then (d, p, if decide (zlen p = 0) then Some io_EOF else None)
    else (d, p, Some (EMsg "error while decoding mp3 frame")).

Definition SetPositionMs d (pos : Z) : Decoder * option error :=
  let off := Z.quot (i64 (pos * SampleRate d)) 1000 in
  let '(x, res) := mpg123_seek (mh d) off in
  (set_mh x d, if decide (res < 0) then Some (EMsg "could not seek to position") else None).

Definition PositionMs d : run Z :=
  let off := mpg123_tell (mh d) in
  if decide (off < 0) then Ret 0
  else if decide (SampleRate d = 0) then Panic "integer divide by zero"
  else Ret (Z.quot (i64 (off * 1000)) (SampleRate d)).
End decoding.
Arguments Decoder : clear implicits.

(** What a decoder holds, and [free]. *)
Record held := MkHeld { h_mh : bool; h_handlePtr : bool; h_handle : bool }.

Definition free (h : held) : held * list memory_op :=
  (MkHeld false false false,
   (if h_mh h then [Release MpgHandle] else []) ++ (if h_handlePtr h then [Release HandlePtr] else []) ++
   (if h_handle h then [Release CgoHandle] else [])).

(** What the library answers on the way, in order. *)
Record answers := MkAnswers {
  a_new : bool; a_param : Z; a_replaceReader : Z; a_format2 : Z; a_allocHandle : bool;
  a_open : Z; a_getformat : Z; a_encoding : Z
}.

(** [New]: what it holds at the end, the memory operations of its body and of
    the deferred [free], and the error. *)
Definition New (a : answers) : held * list memory_op * option error :=
  let fail h ops msg := let '(h, freed) := free h in (h, ops ++ freed, Some (EMsg msg)) in
  if negb (a_new a) then (MkHeld false false false, [], Some (EMsg "could not create mpg123 decoder"))
  else
    let h := MkHeld true false false in
    let ops := [Alloc MpgHandle] in
    if decide (a_param a <> MPG123_OK) then fail h ops "could not set mpg123 quiet flag"%string
    else if decide (a_replaceReader a <> MPG123_OK) then fail h ops "could not replace mpg123 reader"%string
    else if decide (a_format2 a <> MPG123_OK) then fail h ops "could not set mpg123 format"%string
    else
      let h := MkHeld true false true in
      let ops := ops ++ [Alloc CgoHandle] in
      if negb (a_allocHandle a) then fail h ops "could not allocate mpg123 reader handle"%string
      else
        let h := MkHeld true true true in
        let ops := ops ++ [Alloc HandlePtr] in
        if decide (a_open a <> MPG123_OK) then fail h ops "could not open mpg123 stream"%string
        else if decide (a_getformat a <> MPG123_OK) then fail h ops "could not get mpg123 format"%string
        else if decide (a_encoding a <> MPG123_ENC_FLOAT_32) then fail h ops "unexpected mpg123 encoding"%string
        else (h, ops, None).

Definition Close (h : held) : held * list memory_op := free h.
End Mp3.
