(* ===== verification/DecoderClaims.v ===== *)
(** * The decoders: theorems

    FLAC reads are in order and seeks leave what was buffered in place;
    constructors give back what they took. *)

From S2P Require Import Prelude Floats Decoders.
#[local] Open Scope string_scope.
#[local] Open Scope list_scope.
#[local] Open Scope Z_scope.

(** ** FLAC reads *)
Section flac.
Import Flac.
Context {X : Type} `{FlacLib X}.
Implicit Types d : Decoder X.

(** What libFLAC promises: a frame has a sample of every channel at each
    position, and a step that is not the last one uses up some of the file. *)
Definition frame_ok (channels : Z) (fr : frame) : Prop :=
  channels <= zlen (fr_channels fr) /\ Forall (fun ss => blocksize fr <= zlen ss) (fr_channels fr).

Record flac_laws (channels : Z) (fpend : X -> nat) : Prop := {
  step_frames : forall x, Forall (frame_ok channels) (process_single x).1.2;
  step_pend : forall x, (process_single x).2 = true -> end_of_stream (process_single x).1.1 = false ->
    (fpend (process_single x).1.1 < fpend x)%nat
}.

Lemma mapM_ret {A B} (f : A -> run B) (l : list A) :
  Forall (fun a => exists b, f a = Ret b) l -> exists bs, mapM f l = Ret bs.
Proof.
  induction 1 as [|a l [b Hb] _ [bs Hbs]]; [by eexists|].
  cbn [mapM]; rewrite Hb; cbn [mbind run_bind]; rewrite Hbs; by eexists.
Qed.

Lemma seqZ_Forall (P : Z -> Prop) n : (forall i, 0 <= i < n -> P i) -> Forall P (seqZ 0 n).
Proof. intros HP; apply Forall_forall; intros i Hi; apply elem_of_seqZ in Hi; apply HP; lia. Qed.

Lemma callbackWrite_ok d fr : frame_ok (Channels d) fr ->
  exists xs, callbackWrite d fr = Ret (set_state (decoder d) (buffer d ++ xs) d).
Proof.
  intros [Hch Hlen]; unfold callbackWrite.
  destruct (mapM_ret (interleave_at (Channels d) (gain d) fr) (seqZ 0 (blocksize fr))) as [xs ->]; [|by eexists].
  apply seqZ_Forall; intros i Hi; apply mapM_ret, seqZ_Forall; intros ch Hc.
  destruct (index_returns (fr_channels fr) ch ltac:(lia)) as (ss & -> & Hss); cbn [mbind run_bind].
  assert (blocksize fr <= zlen ss).
  { unfold nthZ in Hss; rewrite decide_True in Hss by lia; exact (proj1 (Forall_lookup _ _) Hlen _ _ Hss). }
  destruct (index_returns ss i ltac:(lia)) as (x & -> & _); by eexists.
Qed.

Lemma write_frames_ok frs : forall d, Forall (frame_ok (Channels d)) frs ->
  exists xs, write_frames d frs = Ret (set_state (decoder d) (buffer d ++ xs) d).
Proof.
  induction frs as [|fr frs IH]; intros d Hok.
  { exists []; destruct d; simpl; unfold set_state; simpl; by rewrite app_nil_r. }
  apply Forall_cons in Hok as [Hf Hfs]; cbn [write_frames].
  destruct (callbackWrite_ok d fr Hf) as [xs ->]; cbn [mbind run_bind].
  destruct (IH (set_state (decoder d) (buffer d ++ xs) d) Hfs) as [ys ->].
  exists (xs ++ ys); unfold set_state; simpl; by rewrite app_assoc.
Qed.

(** [xs] are the samples of the frames written between [d] and [d']. *)
Inductive plays : Decoder X -> list Z -> Decoder X -> Prop :=
| plays_nil d b : plays d [] (set_state (decoder d) b d)
| plays_step d xs ys d' :
    write_frames (set_state (process_single (decoder d)).1.1 [] d) (process_single (decoder d)).1.2
      = Ret (set_state (process_single (decoder d)).1.1 xs d) ->
    plays (set_state (process_single (decoder d)).1.1 [] d) ys d' -> plays d (xs ++ ys) d'.

Lemma write_frames_buf frs : forall d b xs, write_frames (set_state (decoder d) [] d) frs = Ret (set_state (decoder d) xs d) ->
  write_frames (set_state (decoder d) b d) frs = Ret (set_state (decoder d) (b ++ xs) d).
Proof.
  assert (Hgen : forall frs d b c r, write_frames (set_state (decoder d) b d) frs = Ret r ->
    exists xs, r = set_state (decoder d) (b ++ xs) d /\
      write_frames (set_state (decoder d) c d) frs = Ret (set_state (decoder d) (c ++ xs) d)).
  { clear; intros frs; induction frs as [|fr frs IH]; intros d b c r; cbn [write_frames].
    { intros [= <-]; exists []; by rewrite !app_nil_r. }
    unfold callbackWrite; simpl.
    destruct (mapM _ _) as [fs|w|]; cbn [mbind run_bind]; [|done|done].
    intros Hr; destruct (IH d (b ++ concat fs) (c ++ concat fs) r Hr) as (ys & -> & Hc).
    exists (concat fs ++ ys); split; [unfold set_state; simpl; by rewrite app_assoc|].
    etransitivity; [exact Hc|]; unfold set_state; simpl; by rewrite app_assoc. }
  intros d b xs Hx; destruct (Hgen frs d [] b _ Hx) as (ys & Heq & Hc).
  rewrite Hc; unfold set_state in *; simpl in *; by simplify_eq.
Qed.

Lemma plays_buf d b xs d' : plays (set_state (decoder d) b d) xs d' -> plays d xs d'.
Proof. inversion 1; subst; [apply (plays_nil d)|by apply plays_step]. Qed.

Lemma flac_read_loop channels fpend (Hlaws : flac_laws channels fpend) m : forall d n acc,
  (fpend (decoder d) < m)%nat -> Channels d = channels -> 0 <= n ->
  exists fuel0 d' out err, (forall fuel, (fuel0 <= fuel)%nat -> read_loop fuel d n acc = Ret (d', out, err)) /\
    Channels d' = channels /\
    (err <> Some (EMsg "error while decoding FLAC frame") -> exists outs xs, out = acc ++ outs /\ zlen outs <= n /\
       plays d xs d' /\ outs ++ buffer d' = buffer d ++ xs).
Proof.
  induction m as [|m IH]; intros d n acc Hm Hc Hn; [lia|].
  set (copied := takeZ n (buffer d)).
  assert (Hcl : zlen copied <= n) by (unfold copied; rewrite zlen_takeZ; pose proof (zlen_nonneg (buffer d)); lia).
  assert (Hsplit : copied ++ dropZ n (buffer d) = buffer d) by (unfold copied, takeZ, dropZ; apply take_drop).
  destruct (decide (n - zlen copied = 0)) as [Hz|Hz].
  { exists 1%nat, (set_state (decoder d) (dropZ n (buffer d)) d), (acc ++ copied), None; split_and!; [|done|].
    - intros [|f] Hf; [lia|]; cbn [read_loop]; fold copied; by rewrite decide_True by done.
    - intros _; exists copied, []; split_and!; [done|lia|constructor|by rewrite app_nil_r]. }
  pose proof (step_frames _ _ Hlaws (decoder d)) as Hfr; pose proof (step_pend _ _ Hlaws (decoder d)) as Hpend.
  destruct (process_single (decoder d)) as [[x frs] ok] eqn:Hp; simpl in Hfr, Hpend.
  destruct (write_frames_ok frs (set_state x [] d)) as [xs Hw]; [simpl; by rewrite Hc|].
  pose proof (write_frames_buf frs (set_state x [] d) (dropZ n (buffer d)) xs Hw) as Hw'.
  simpl in Hw, Hw'; unfold set_state in Hw, Hw'; simpl in Hw, Hw'.
  set (d1 := set_state x (dropZ n (buffer d) ++ xs) d).
  assert (Hround : forall fuel, read_loop (S fuel) d n acc =
    if negb ok then Ret (d1, [], Some (EMsg "error while decoding FLAC frame"))
    else if end_of_stream x then Ret (d1, acc ++ copied, if decide (buffer d1 = []) then Some io_EOF else None)
    else read_loop fuel d1 (n - zlen copied) (acc ++ copied)).
  { intros fuel; cbn [read_loop]; fold copied; rewrite decide_False by done; simpl decoder; rewrite Hp.
    unfold set_state; simpl; rewrite Hw'; done. }
  assert (Hstep : plays d xs d1).
  { rewrite <- (app_nil_r xs); apply plays_step; rewrite Hp; simpl; [exact Hw|].
    apply (plays_nil (set_state x [] d)). }
  destruct ok; [|exists 1%nat, d1, [], (Some (EMsg "error while decoding FLAC frame")); split_and!;
    [intros [|f] Hf; [lia|]; apply Hround|done|done]].
  destruct (end_of_stream x) eqn:Hend.
  - exists 1%nat, d1, (acc ++ copied), (if decide (buffer d1 = []) then Some io_EOF else None); split_and!;
      [intros [|f] Hf; [lia|]; apply Hround|done|].
    intros _; exists copied, xs; split_and!; [done|lia|done|]; simpl; by rewrite app_assoc, Hsplit.
  - destruct (IH d1 (n - zlen copied) (acc ++ copied)) as (f0 & d' & out & err & Hf & Hc' & Hout);
      [simpl; specialize (Hpend eq_refl eq_refl); lia|done|lia|].
    exists (S f0), d', out, err; split_and!; [intros [|f] Hle; [lia|]; rewrite Hround; apply Hf; lia|done|].
    intros He; destruct (Hout He) as (outs & ys & -> & Hz' & Hpl & Heq).
    exists (copied ++ outs), (xs ++ ys); split_and!; [by rewrite app_assoc|rewrite zlen_app; lia| |].
    + apply plays_step; rewrite Hp; simpl; [exact Hw|]; by eapply (plays_buf (set_state x [] d)).
    + rewrite <- app_assoc, Heq; simpl; rewrite !app_assoc; f_equal; by rewrite Hsplit.
Qed.
End flac.

(** C25: Every FLAC read returns.  Unless decoding fails, it gives at most what was
    asked for, and the samples it gives, followed by those it keeps, are those
    kept before followed by those of the frames it decoded. *)
Theorem flac_read_in_order {X} `{Flac.FlacLib X} (channels : Z) (fpend : X -> nat) (d : Flac.Decoder X) (n : Z) :
  flac_laws channels fpend -> Flac.Channels d = channels -> 0 <= n ->
  exists fuel0 d' out err, (forall fuel, (fuel0 <= fuel)%nat -> Flac.Read fuel d n = Ret (d', out, err)) /\
    (err <> Some (EMsg "error while decoding FLAC frame") -> zlen out <= n /\
     exists xs, plays d xs d' /\ out ++ Flac.buffer d' = Flac.buffer d ++ xs).
Proof.
  intros Hl Hc Hn.
  destruct (flac_read_loop channels fpend Hl (S (fpend (Flac.decoder d))) d n [] ltac:(lia) Hc Hn)
    as (f0 & d' & out & err & Hf & _ & Hout).
  exists f0, d', out, err; split; [done|]; intros He; destruct (Hout He) as (outs & xs & -> & ? & ? & ?); eauto.
Qed.

(** A FLAC library over a list of frames of two channels. *)
#[export] Instance list_flac : Flac.FlacLib (list (list Z)) := {
  Flac.process_single x :=
    match x with
    | [] => ([], [], true)
    | ss :: x => (x, [Flac.MkFrame 16 (zlen ss) [ss; ss]], true)
    end;
  Flac.end_of_stream x := bool_decide (x = []);
  Flac.seek_absolute x pos :=
    match drop (Z.to_nat pos) x with
    | [] => ([], [], false)
    | ss :: x => (x, [Flac.MkFrame 16 (zlen ss) [ss; ss]], true)
    end;
  Flac.get_decode_position x := Some (zlen x)
}.

Lemma list_flac_laws : flac_laws (X := list (list Z)) 2 length.
Proof.
  split.
  - intros [|ss x]; simpl; repeat constructor; unfold zlen; simpl; lia.
  - intros [|ss x]; simpl; [by intros|lia].
Qed.

Definition demo_flac : Flac.Decoder (list (list Z)) :=
  Flac.MkDecoder 1000 2 16 one [[16384]; [32767]; [-32768]] [].

Lemma flac_read_in_order_witness :
  exists fuel0 d' out err, (forall fuel, (fuel0 <= fuel)%nat -> Flac.Read fuel demo_flac 3 = Ret (d', out, err)) /\
    (err <> Some (EMsg "error while decoding FLAC frame") -> zlen out <= 3 /\
     exists xs, plays demo_flac xs d' /\ out ++ Flac.buffer d' = Flac.buffer demo_flac ++ xs).
Proof. apply (flac_read_in_order 2 length demo_flac 3 list_flac_laws); [reflexivity|lia]. Defined.

(** A seek does not drop what was decoded before it: the next read of as many
    samples as were buffered gives exactly those, from the old position. *)
Theorem flac_seek_plays_stale {X} `{Flac.FlacLib X} (d d' : Flac.Decoder X) (pos : Z) (fuel : nat) :
  Flac.SetPositionMs d pos = Ret (d', None) ->
  exists d'', Flac.Read (S fuel) d' (zlen (Flac.buffer d)) = Ret (d'', Flac.buffer d, None).
Proof.
  unfold Flac.SetPositionMs; destruct (Flac.seek_absolute _ _) as [[x frs] ok].
  intros Hr; apply run_bind_inv in Hr as (d1 & Hw & Heq); destruct ok; [|done]; simplify_eq.
  assert (Hpre : forall frs (d d1 : Flac.Decoder X), Flac.write_frames d frs = Ret d1 -> exists xs, Flac.buffer d1 = Flac.buffer d ++ xs).
  { clear; intros frs; induction frs as [|fr frs IH]; intros d d1; cbn [Flac.write_frames].
    { intros [= <-]; exists []; by rewrite app_nil_r. }
    intros Hb; apply run_bind_inv in Hb as (d2 & Hc & Hd); unfold Flac.callbackWrite in Hc.
    apply run_bind_inv in Hc as (ys & _ & [= <-]); apply IH in Hd as [zs Hz]; simpl in Hz.
    exists (concat ys ++ zs); by rewrite Hz, app_assoc. }
  destruct (Hpre _ _ _ Hw) as [xs Hb]; simpl in Hb.
  unfold Flac.Read; cbn [Flac.read_loop].
  assert (Ht : takeZ (zlen (Flac.buffer d)) (Flac.buffer d') = Flac.buffer d)
    by (rewrite Hb, takeZ_app_le, takeZ_all by lia; done).
  rewrite Ht, Z.sub_diag; cbn [decide]; by eexists.
Qed.

Definition demo_playing : Flac.Decoder (list (list Z)) := Flac.MkDecoder 1000 2 16 one [[0]; [0]; [0]] [5; 6].
Definition demo_sought : Flac.Decoder (list (list Z)) := Flac.MkDecoder 1000 2 16 one [] [5; 6; 0; 0].

Lemma flac_seek_plays_stale_witness :
  Flac.SetPositionMs demo_playing 2 = Ret (demo_sought, None) /\
  exists d'', Flac.Read 1 demo_sought (zlen (Flac.buffer demo_playing)) = Ret (d'', Flac.buffer demo_playing, None).
Proof.
  assert (Hs : Flac.SetPositionMs demo_playing 2 = Ret (demo_sought, None)) by (vm_compute; reflexivity).
  split; [exact Hs|exact (flac_seek_plays_stale demo_playing demo_sought 2 0 Hs)].
Defined.

(** ** Memory *)
Definition balance (r : resource) (ops : list memory_op) : Z :=
  zlen (filter (fun op => op = Alloc r) ops) - zlen (filter (fun op => op = Release r) ops).

(** A constructor that fails has given back everything it took; one that
    succeeds is undone by [Close]; and a second [Close] of an MP3 decoder frees
    nothing. *)
Theorem decoders_release_memory (alloc create init metadata : bool) (a : Mp3.answers) (r : resource) :
  let '(ops, err) := Flac.New alloc create init metadata in
  balance r (ops ++ if err then [] else Flac.Close) = 0 /\
  let '(h, ops', err') := Mp3.New a in
  balance r (ops' ++ if err' then [] else (Mp3.Close h).2) = 0 /\
  (Mp3.Close (Mp3.Close h).1).2 = [].
Proof.
  assert (Hf : let '(ops, err) := Flac.New alloc create init metadata in
    balance r (ops ++ if err then [] else Flac.Close) = 0).
  { destruct alloc, create, init, metadata, r; reflexivity. }
  assert (Hm : let '(h, ops', err') := Mp3.New a in
    balance r (ops' ++ if err' then [] else (Mp3.Close h).2) = 0 /\ (Mp3.Close (Mp3.Close h).1).2 = []).
  { unfold Mp3.New; destruct (Mp3.a_new a); [|destruct r; split; reflexivity]; cbn [negb].
    do 3 (case_decide; [destruct r; split; reflexivity|]).
    destruct (Mp3.a_allocHandle a); [|destruct r; split; reflexivity]; cbn [negb].
    do 3 (case_decide; [destruct r; split; reflexivity|]); destruct r; split; reflexivity. }
  destruct (Flac.New alloc create init metadata); split; assumption.
Qed.
