(* ===== verification/TailClaims.v ===== *)
(** * The end of an Ogg Vorbis track

    The decoder of [Vorbis] behind the switching source of [Source]: what a
    listener hears of a track's end. *)

From S2P Require Import Prelude Chunked VorbisMeta Source SourceProps SourceClaims.
From S2P Require Import Vorbis VorbisClaims.
#[local] Open Scope string_scope.
#[local] Open Scope list_scope.
#[local] Open Scope Z_scope.

(** The decoder as an audio source, with enough fuel for the track at hand. *)
#[export] Instance vorbis_source : Source.AudioSource demo_decoder Z := {
  as_Read d n :=
    match Vorbis.Read Z.mul 20000 d n with
    | Ret (d, out, err) => (d, out, err)
    | _ => (d, [], Some (EMsg "unreachable"))
    end;
  as_SetPositionMs d pos :=
    match Vorbis.SetPositionMs Z.mul 0 20000 d pos with
    | Ret (d, err) => (d, err)
    | _ => (d, Some (EMsg "unreachable"))
    end;
  as_PositionMs d := Vorbis.lastGranulepos d;
  as_NoCrossfade _ := false
}.

(** Reads of 4000 samples until the source reports an error. *)
Fixpoint listen (k : nat) (s : Source.SwitchingAudioSource demo_decoder Z) : list Z * option error :=
  match k with
  | O => ([], None)
  | S k =>
    match Source.Read s 4000 with
    | Ret (s, Source.Got out None) => let '(outs, err) := listen k s in (out ++ outs, err)
    | Ret (_, Source.Got out err) => (out, err)
    | _ => ([], None)
    end
  end.

Definition demo_listening : Source.SwitchingAudioSource demo_decoder Z :=
  Source.SetPrimary (Source.NewSwitchingAudioSource (fun _ => demo_opened) 0) 0.

(** The end of a file whose size is not a multiple of the chunk is not heard.
    The track is three headers, 4093 pages and, in the last, partial chunk,
    three more; the listener hears the 4093 and then the end. *)
Theorem vorbis_tail_unheard :
  listen 10 demo_listening =
    (concat ((fun x => [1 + x `mod` 90; 1 + x `mod` 90]) <$> seqZ 0 4093), Some io_EOF) /\
  demo_track = [0; 0; 0] ++ ((fun x => 1 + x `mod` 90) <$> seqZ 0 4093) ++ [7; 8; 100].
Proof. split; [vm_compute; reflexivity|reflexivity]. Qed.
