(* ===== verification/Drivers.v ===== *)
(** * The output drivers ([src/output])

    The pipe, ALSA, PulseAudio and WASAPI outputs: conversion of samples,
    volumes, and the goroutines that move samples to the device.  The calls of
    the operating system are parameters; a call under the driver's lock is one
    step.  Samples are [float32]s of [Floats]. *)

From S2P Require Import Prelude Floats.
#[local] Open Scope string_scope.
#[local] Open Scope list_scope.
#[local] Open Scope Z_scope.

(** ** Volume updates ([output.go])

    [ch] is the buffered channel, of capacity [cap]; a full one blocks. *)
Definition sendVolumeUpdate {A} (cap : Z) (ch : list A) (val : A) : run (option (list A)) :=
  if decide (cap = 0) then Panic "channel must be buffered"
  else
    let ch := drop 1 ch in
    if decide (zlen ch < cap) then Ret (Some (ch ++ [val])) else Ret None.

(** The outputs' channel has one slot; a send that blocks never returns. *)
Definition send_update (ch : list Z) (vol : Z) : run (list Z) :=
  r ← sendVolumeUpdate 1 ch vol; match r with Some ch => Ret ch | None => OutOfFuel end.

(** The volume is squared before it scales a sample. *)
Definition apply_volume (volume : Z) (samples : list Z) : list Z :=
  let volume := mul32 volume volume in (fun x => mul32 x volume) <$> samples.

Definition valid_volume (vol : Z) : Prop := 0 <= vol <= one.
#[export] Instance valid_volume_dec vol : Decision (valid_volume vol).
Proof. unfold valid_volume; apply _. Defined.

(** ** The pipe ([driver-pipe.go], [driver-pipe-unix.go]) *)
Module Pipe.

Definition maxSampleValueS16 : Z := div32 (f32_of 0x7fff) (f32_of 0x8000).

Definition clampSample (f max : Z) : Z :=
  if decide (f < - one) then - one else if decide (max < f) then max else f.

Definition sampleS16 (oob f : Z) : Z := to_int 16 oob (mul32 (clampSample f maxSampleValueS16) (f32_of 32768)).
Definition sampleS32 (oob f : Z) : Z := to_int 32 oob (mul64 (clampSample f one) (f64_of 2147483647)).

Inductive format := S16LE | S32LE | F32LE.

Definition parse_format (s : string) : result format :=
  if decide (s = "s16le") then Ok S16LE
  else if decide (s = "s32le") then Ok S32LE
  else if decide (s = "f32le") then Ok F32LE
  else Err (EMsg "unknown output pipe format").

(** The bytes of one sample; [bits] is [math.Float32bits]. *)
Definition sample_bytes (bits : Z -> Z) (oob : Z) (f : format) (x : Z) : list Z :=
  match f with
  | S16LE => le_bytes 2 (u16 (sampleS16 oob x))
  | S32LE => le_bytes 4 (u32 (sampleS32 oob x))
  | F32LE => le_bytes 4 (bits x)
  end.

Definition transform (bits : Z -> Z) (oob : Z) (f : format) (samples : list Z) : list Z :=
  samples ≫= sample_bytes bits oob f.

Record pipeOutput := MkPipe {
  fmt : format;
  externalVolume : bool;
  volume : Z;
  updates : list Z;
  paused : bool;
  closed : bool;
  looping : bool;
  fileOpen : bool;
  written : list Z;
  errs : list error
}.

(** What the options and the operating system give [newPipeOutput]. *)
Definition newPipeOutput (format : string) (ext : bool) (initialVolume : Z) (wait : bool)
    (open nonblock : option error) : result pipeOutput :=
  match parse_format format with
  | Err e => Err e
  | Ok f =>
    match open with
    | Some e => Err (EWrap "failed to open fifo" e)
    | None =>
      match (if wait then None else nonblock) with
      | Some e => Err (EWrap "failed to set blocking mode on fifo" e)
      | None => Ok (MkPipe f ext initialVolume [] true false true true [] [])
      end
    end
  end.

Definition set_flags (p c l o : bool) (out : pipeOutput) : pipeOutput :=
  MkPipe (fmt out) (externalVolume out) (volume out) (updates out) p c l o (written out) (errs out).
Definition add_written (bs : list Z) (out : pipeOutput) : pipeOutput :=
  MkPipe (fmt out) (externalVolume out) (volume out) (updates out) (paused out) (closed out) (looping out) (fileOpen out)
    (written out ++ bs) (errs out).
Definition add_err (e : error) (out : pipeOutput) : pipeOutput :=
  MkPipe (fmt out) (externalVolume out) (volume out) (updates out) (paused out) (closed out) (looping out) (fileOpen out)
    (written out) (errs out ++ [e]).

Definition Pause (out : pipeOutput) : pipeOutput :=
  if closed out then out else set_flags true (closed out) (looping out) (fileOpen out) out.
Definition Resume (out : pipeOutput) : pipeOutput :=
  if closed out then out else set_flags false (closed out) (looping out) (fileOpen out) out.
Definition Close (out : pipeOutput) : pipeOutput :=
  if closed out then out else set_flags (paused out) true (looping out) false out.

Definition SetVolume (vol : Z) (out : pipeOutput) : run pipeOutput :=
  if negb (bool_decide (valid_volume vol)) then Panic "invalid volume value"
  else
    up ← send_update (updates out) vol;
    Ret (MkPipe (fmt out) (externalVolume out) vol up (paused out) (closed out) (looping out) (fileOpen out)
      (written out) (errs out)).

(** The loop ends, and closes the output once more. *)
Definition end_loop (out : pipeOutput) : pipeOutput :=
  Close (set_flags (paused out) (closed out) false (fileOpen out) out).

(** What one round reads, and how the write of its bytes ends: how many went
    out before an error. *)
Record round := MkRound { rd_samples : list Z; rd_err : option error; rd_write : option (Z * error) }.

Definition fail (e : error) (out : pipeOutput) : pipeOutput :=
  end_loop (set_flags (paused out) true (looping out) (fileOpen out) (add_err e out)).

(** One round of [outputLoop], past the wait. *)
Definition outputLoop_round (bits : Z -> Z) (oob : Z) (rd : round) (out : pipeOutput) : pipeOutput :=
  if closed out then end_loop out
  else
    let floats := if externalVolume out then rd_samples rd else apply_volume (volume out) (rd_samples rd) in
    let bytes := transform bits oob (fmt out) floats in
    match (if decide (0 < zlen floats) then rd_write rd else None) with
    | Some (n, e) => fail e (add_written (takeZ n bytes) out)
    | None =>
      let out := add_written bytes out in
      match rd_err rd with
      | Some e =>
        if errors_Is e io_EOF then set_flags true (closed out) (looping out) (fileOpen out) out else fail e out
      | None => out
      end
    end.

(** The steps of the driver and its user: a round runs while the loop lives and
    is not waiting. *)
Inductive label := LRound (rd : round) | LPause | LResume | LClose | LSetVolume (vol : Z).

Definition step (bits : Z -> Z) (oob : Z) (l : label) (out : pipeOutput) : run pipeOutput :=
  match l with
  | LRound rd =>
    if looping out && (negb (paused out) || closed out) then Ret (outputLoop_round bits oob rd out) else Ret out
  | LPause => Ret (Pause out)
  | LResume => Ret (Resume out)
  | LClose => Ret (Close out)
  | LSetVolume v => SetVolume v out
  end.

Fixpoint steps (bits : Z -> Z) (oob : Z) (ls : list label) (out : pipeOutput) : run pipeOutput :=
  match ls with
  | [] => Ret out
  | l :: ls => out ← step bits oob l out; steps bits oob ls out
  end.
End Pipe.

(** ** ALSA ([driver-alsa.go]) *)
Module Alsa.

Definition SND_PCM_FORMAT_FLOAT_LE : Z := 14.
Definition SND_PCM_FORMAT_S32_LE : Z := 10.
Definition SND_PCM_FORMAT_S16_LE : Z := 2.

Definition defaultBufferTimeMicro : Z := 500000.
Definition defaultNumPeriods : Z := 4.

Definition clip (f : Z) : Z :=
  let f := if decide (f < - one) then - one else f in if decide (one < f) then one else f.

Definition floatLeToS16Le (oob : Z) (floats : list Z) : list Z :=
  (fun f => to_int 16 oob (mul32 (clip f) (f32_of 32767))) <$> floats.
Definition floatLeToS32Le (oob : Z) (floats : list Z) : list Z :=
  (fun f => to_int 32 oob (mul32 (clip f) (f32_of 2147483647))) <$> floats.

(** What happened to the handles of the library, in order. *)
Inductive event := Opened (h : nat) | Closed (h : nat) | Wrote (h : nat) (data : list Z) | Dropped (h : nat).

(** [loops] are the goroutines of [outputLoop]: the handle each was started
    with, and whether it is asleep. *)
Record alsaOutput := MkAlsa {
  channels : Z;
  sampleRate : Z;
  pcmHandle : option nat;
  periodSize : Z;
  bufferSize : Z;
  pcmFormat : Z;
  externalVolume : bool;
  mixerEnabled : bool;
  mixerMin : Z;
  mixerMax : Z;
  mixerSet : option Z;
  volume : Z;
  updates : list Z;
  closed : bool;
  errs : list error;
  loops : list (nat * bool);
  log : list event
}.

Definition set_pcm (h : option nat) (evs : list event) (o : alsaOutput) : alsaOutput :=
  MkAlsa (channels o) (sampleRate o) h (periodSize o) (bufferSize o) (pcmFormat o) (externalVolume o)
    (mixerEnabled o) (mixerMin o) (mixerMax o) (mixerSet o) (volume o) (updates o) (closed o) (errs o) (loops o) (log o ++ evs).
Definition set_loops (ls : list (nat * bool)) (o : alsaOutput) : alsaOutput :=
  MkAlsa (channels o) (sampleRate o) (pcmHandle o) (periodSize o) (bufferSize o) (pcmFormat o)
    (externalVolume o) (mixerEnabled o) (mixerMin o) (mixerMax o) (mixerSet o) (volume o) (updates o) (closed o) (errs o) ls (log o).
Definition set_failed (e : error) (o : alsaOutput) : alsaOutput :=
  MkAlsa (channels o) (sampleRate o) (pcmHandle o) (periodSize o) (bufferSize o) (pcmFormat o)
    (externalVolume o) (mixerEnabled o) (mixerMin o) (mixerMax o) (mixerSet o) (volume o) (updates o) true (errs o ++ [e])
    (loops o) (log o).
Definition set_closed (o : alsaOutput) : alsaOutput :=
  MkAlsa (channels o) (sampleRate o) (pcmHandle o) (periodSize o) (bufferSize o) (pcmFormat o)
    (externalVolume o) (mixerEnabled o) (mixerMin o) (mixerMax o) (mixerSet o) (volume o) (updates o) true (errs o)
    (loops o) (log o).
Definition set_sizes (period buffer format : Z) (o : alsaOutput) : alsaOutput :=
  MkAlsa (channels o) (sampleRate o) (pcmHandle o) period buffer format
    (externalVolume o) (mixerEnabled o) (mixerMin o) (mixerMax o) (mixerSet o) (volume o) (updates o) (closed o) (errs o)
    (loops o) (log o).
Definition take_handle (h : nat) (o : alsaOutput) : alsaOutput := set_pcm (Some h) [Opened h] o.
Definition set_volume (v : Z) (m : option Z) (up : list Z) (o : alsaOutput) : alsaOutput :=
  MkAlsa (channels o) (sampleRate o) (pcmHandle o) (periodSize o) (bufferSize o) (pcmFormat o)
    (externalVolume o) (mixerEnabled o) (mixerMin o) (mixerMax o) m v up (closed o) (errs o) (loops o) (log o).

Definition alsaError (name : string) : error := EMsg ("ALSA error at " ++ name).

(** What the library answers while a device is set up: the handle, which may be
    one it has closed before, the code of each call, and the values read back. *)
Record Setup := MkSetup {
  su_handle : nat;
  su_code : string -> Z;
  su_supported : Z -> bool;
  su_period : Z;
  su_buffer : Z;
  su_format : Z
}.

Fixpoint first_failure (su : Setup) (calls : list string) : option error :=
  match calls with
  | [] => None
  | c :: calls => if decide (su_code su c < 0) then Some (alsaError c) else first_failure su calls
  end.

(** Every format the library says it supports is set. *)
Definition formats : list Z := [SND_PCM_FORMAT_FLOAT_LE; SND_PCM_FORMAT_S32_LE; SND_PCM_FORMAT_S16_LE].

Definition set_formats (su : Setup) : option error :=
  let supported := filter (fun f => su_supported su f = true) formats in
  match supported with
  | [] => Some (EMsg "could not find a supported PCM format")
  | _ => first_failure su ["snd_pcm_hw_params_set_format"]
  end.

Definition setup_calls_before : list string := ["snd_pcm_hw_params_any"; "snd_pcm_hw_params_set_access"].
Definition setup_calls_after : list string :=
  ["snd_pcm_hw_params_set_channels"; "snd_pcm_hw_params_set_rate_resample"; "snd_pcm_hw_params_set_rate_near";
   "snd_pcm_hw_params_set_buffer_time_near"; "snd_pcm_hw_params_get_buffer_size";
   "snd_pcm_hw_params_set_period_size_near"; "snd_pcm_hw_params"; "snd_pcm_hw_params_get_period_size";
   "snd_pcm_hw_params_get_buffer_size"; "snd_pcm_hw_params_get_format"; "snd_pcm_sw_params_current";
   "snd_pcm_sw_params_set_start_threshold"; "snd_pcm_sw_params_set_avail_min"; "snd_pcm_sw_params"].

Definition setup_error (su : Setup) : option error :=
  match first_failure su setup_calls_before with
  | Some e => Some e
  | None =>
    match set_formats su with
    | Some e => Some e
    | None => first_failure su setup_calls_after
    end
  end.

(** The handle is kept when a later call fails. *)
Definition setupPcm (su : Setup) (o : alsaOutput) : alsaOutput * option error :=
  if decide (su_code su "snd_pcm_open" < 0) then (o, Some (alsaError "snd_pcm_open"))
  else
    let h := su_handle su in
    let o := take_handle h o in
    match setup_error su with
    | Some e => (o, Some e)
    | None =>
      let o := set_sizes (su_period su) (su_buffer su) (su_format su) o in
      (set_loops (loops o ++ [(h, false)]) o, None)
    end.

Definition Pause (closeCode : Z) (o : alsaOutput) : alsaOutput * option error :=
  match pcmHandle o with
  | Some h =>
    if closed o then (o, None)
    else if decide (closeCode < 0) then (o, Some (alsaError "snd_pcm_close"))
    else (set_pcm None [Closed h] o, None)
  | None => (o, None)
  end.

Definition Resume (su : Setup) (o : alsaOutput) : alsaOutput * option error :=
  if closed o || negb (bool_decide (pcmHandle o = None)) then (o, None) else setupPcm su o.

Definition Drop (dropCode prepareCode : Z) (o : alsaOutput) : alsaOutput * option error :=
  match pcmHandle o with
  | Some h =>
    if closed o then (o, None)
    else if decide (dropCode < 0) then (o, Some (alsaError "snd_pcm_drop"))
    else
      let o := set_pcm (Some h) [Dropped h] o in
      (o, if decide (prepareCode < 0) then Some (alsaError "snd_pcm_prepare") else None)
  | None => (o, None)
  end.

Definition DelayMs (delay : result Z) (o : alsaOutput) : result Z :=
  match pcmHandle o with
  | Some _ =>
    if closed o then Ok 0
    else match delay with
         | Err e => Err e
         | Ok frames => Ok (Z.quot (i64 (frames * 1000)) (sampleRate o))
         end
  | None => Ok 0
  end.

(** The mixer's volume for a volume. *)
Definition mixerVolume (oob : Z) (o : alsaOutput) (vol : Z) : Z :=
  to_int 64 oob (add32 (mul32 vol (f32_of (mixerMax o - mixerMin o))) (f32_of (mixerMin o))).

Definition SetVolume (oob vol : Z) (o : alsaOutput) : run alsaOutput :=
  if negb (bool_decide (valid_volume vol)) then Panic "invalid volume value"
  else if decide (vol = volume o) then Ret o
  else
    up ← send_update (updates o) vol;
    let mixer := if mixerEnabled o && negb (externalVolume o) then Some (mixerVolume oob o vol) else mixerSet o in
    Ret (set_volume vol mixer up o).

Definition Close (closeCode mixerCode : Z) (o : alsaOutput) : alsaOutput * option error :=
  if closed o then (o, None)
  else
    let '(o, err) :=
      match pcmHandle o with
      | Some h => if decide (closeCode < 0) then (o, Some (alsaError "snd_pcm_close")) else (set_pcm None [Closed h] o, None)
      | None => (o, None)
      end in
    match err with
    | Some e => (o, Some e)
    | None =>
      if mixerEnabled o && bool_decide (mixerCode < 0) then (o, Some (alsaError "snd_mixer_close"))
      else (set_closed o, None)
    end.

(** How long the loop sleeps, in nanoseconds. *)
Definition waitTime (o : alsaOutput) (avail : Z) : Z :=
  Z.quot (i64 ((periodSize o + Z.quot (periodSize o) 8 - avail) * 10 ^ 9)) (sampleRate o).

(** The top of the loop: it ends when its handle is not the current one. *)
Definition loop_top (i : nat) (h : nat) (o : alsaOutput) : alsaOutput :=
  if decide (pcmHandle o = Some h) then set_loops (<[i := (h, true)]> (loops o)) o
  else set_loops (delete i (loops o)) o.

(** What a round reads, and how the library answers. *)
Record round := MkRound { rd_samples : list Z; rd_err : option error; rd_writei : Z; rd_recover : Z; rd_close : Z }.

Definition convert (oob : Z) (o : alsaOutput) (floats : list Z) : result (list Z) :=
  if decide (pcmFormat o = SND_PCM_FORMAT_FLOAT_LE) then Ok floats
  else if decide (pcmFormat o = SND_PCM_FORMAT_S32_LE) then Ok (floatLeToS32Le oob floats)
  else if decide (pcmFormat o = SND_PCM_FORMAT_S16_LE) then Ok (floatLeToS16Le oob floats)
  else Err (EMsg "unsupported PCM format").

Definition end_loop (i : nat) (o : alsaOutput) : alsaOutput := set_loops (delete i (loops o)) o.

(** The end of a round: the source's end closes the device; the lock that the
    failure of that close has already released is released again. *)
Definition after_write (i h : nat) (rd : round) (o : alsaOutput) : run alsaOutput :=
  match rd_err rd with
  | Some e =>
    if errors_Is e io_EOF then
      let o := set_pcm None [] o in
      if decide (rd_close rd < 0) then Panic "sync: unlock of unlocked mutex"
      else Ret (end_loop i (set_pcm None [Closed h] o))
    else Ret (end_loop i (set_failed e o))
  | None => Ret (set_loops (<[i := (h, false)]> (loops o)) o)
  end.

(** The rest of the round, after the sleep. *)
Definition loop_body (oob : Z) (i h : nat) (rd : round) (o : alsaOutput) : run alsaOutput :=
  if decide (pcmHandle o <> Some h) then Ret (end_loop i o)
  else
    let n := zlen (rd_samples rd) in
    let floats := if mixerEnabled o || externalVolume o then rd_samples rd else apply_volume (volume o) (rd_samples rd) in
    if decide (0 < n) then
      match convert oob o floats with
      | Err e => Ret (end_loop i (set_failed e o))
      | Ok data =>
        let o := set_pcm (Some h) [Wrote h (takeZ (n - Z.rem n (channels o)) data)] o in
        if bool_decide (rd_writei rd < 0) && bool_decide (rd_recover rd < 0)
        then Ret (end_loop i (set_failed (alsaError "snd_pcm_recover") o))
        else after_write i h rd o
      end
    else after_write i h rd o.

Inductive label :=
| LPause (closeCode : Z)
| LResume (su : Setup)
| LDrop (dropCode prepareCode : Z)
| LClose (closeCode mixerCode : Z)
| LSetVolume (vol : Z)
| LLoop (i : nat) (rd : round).

Definition step (oob : Z) (l : label) (o : alsaOutput) : run alsaOutput :=
  match l with
  | LPause c => Ret (Pause c o).1
  | LResume su => Ret (Resume su o).1
  | LDrop d p => Ret (Drop d p o).1
  | LClose c m => Ret (Close c m o).1
  | LSetVolume v => SetVolume oob v o
  | LLoop i rd =>
    match loops o !! i with
    | Some (h, false) => Ret (loop_top i h o)
    | Some (h, true) => loop_body oob i h rd o
    | None => Ret o
    end
  end.

Fixpoint steps (oob : Z) (ls : list label) (o : alsaOutput) : run alsaOutput :=
  match ls with
  | [] => Ret o
  | l :: ls => o ← step oob l o; steps oob ls o
  end.

(** [newAlsaOutput], with the mixer that could be set up, if any. *)
Definition newAlsaOutput (channels sampleRate initialVolume : Z) (ext : bool) (mixer : option (Z * Z)) : alsaOutput :=
  MkAlsa channels sampleRate None 0 0 0 ext (bool_decide (is_Some mixer)) (default (0, 0) mixer).1
    (default (0, 0) mixer).2 None initialVolume [] false [] [] [].
End Alsa.

(** ** PulseAudio ([driver-pulseaudio.go]) *)
Module Pulse.

Definition defaultPulseCallTimeout : Z := 10 * 10 ^ 9.

(** A call of the server under a time limit: how long it takes, and how it
    ends. *)
Definition withPulseTimeout (timeout : Z) (took : Z) (res : option error) : option error :=
  if decide (took < timeout) then res else Some (EMsg "timed out waiting for pulseaudio server").

Record pulseAudioOutput := MkPulse {
  sampleRate : Z;
  running : bool;
  volume : Z;
  updates : list Z;
  errs : list error;
  callTimeout : Z
}.

Definition set_running (b : bool) (o : pulseAudioOutput) : pulseAudioOutput :=
  MkPulse (sampleRate o) b (volume o) (updates o) (errs o) (callTimeout o).

Definition timeout_of (opt : Z) : Z := if decide (opt <= 0) then defaultPulseCallTimeout else opt.

(** What the client library is told, and the error reported to the player,
    which has room for two. *)
Inductive reader_result := ReaderOk (n : Z) | ReaderEndOfData (n : Z) | ReaderFailed (n : Z) (e : error).

Definition float32Reader (n : Z) (err : option error) (o : pulseAudioOutput) : pulseAudioOutput * reader_result :=
  match err with
  | None => (o, ReaderOk n)
  | Some e =>
    if decide (e = io_EOF) then (o, ReaderEndOfData n)
    else
      (MkPulse (sampleRate o) (running o) (volume o) (updates o)
         (if decide (zlen (errs o) < 2) then errs o ++ [e] else errs o) (callTimeout o), ReaderFailed n e)
  end.

Definition flush (msg : string) (took : Z) (res : option error) (o : pulseAudioOutput) : pulseAudioOutput * option error :=
  if running o then
    (set_running false o, option_map (EWrap msg) (withPulseTimeout (callTimeout o) took res))
  else (o, None).

Definition Pause : Z -> option error -> pulseAudioOutput -> pulseAudioOutput * option error :=
  flush "Pause: could not flush playback".
Definition Drop : Z -> option error -> pulseAudioOutput -> pulseAudioOutput * option error :=
  flush "Drop: could not flush playback".

Definition Resume (took : Z) (o : pulseAudioOutput) : pulseAudioOutput * option error :=
  (set_running true o,
   option_map (EWrap "Resume: could not start playback") (withPulseTimeout (callTimeout o) took None)).

Definition DelayMs (samples : Z) (o : pulseAudioOutput) : Z := Z.quot (i64 (samples * 1000)) (sampleRate o).

(** [norm] is [proto.NormVolume]; a failure to set the volume is only logged. *)
Definition SetVolume (norm : Z -> Z) (vol : Z) (o : pulseAudioOutput) : run (pulseAudioOutput * option Z) :=
  if decide (norm vol = volume o) then Ret (o, None)
  else
    up ← send_update (updates o) vol;
    Ret (MkPulse (sampleRate o) (running o) (norm vol) up (errs o) (callTimeout o), Some (norm vol)).
End Pulse.

(** ** WASAPI ([driver-wasapi.go]) *)
Module Wasapi.

(** [rendered] is what the device was given; [started] whether its client
    runs. *)
Record wasapiOutput := MkWasapi {
  channels : Z;
  volume : Z;
  updates : list Z;
  externalVolume : bool;
  paused : bool;
  closed : bool;
  started : bool;
  rendered : list Z;
  errs : list error
}.

Definition set_run (p c s : bool) (o : wasapiOutput) : wasapiOutput :=
  MkWasapi (channels o) (volume o) (updates o) (externalVolume o) p c s (rendered o) (errs o).
Definition render (xs : list Z) (o : wasapiOutput) : wasapiOutput :=
  MkWasapi (channels o) (volume o) (updates o) (externalVolume o) (paused o) (closed o) (started o) (rendered o ++ xs) (errs o).

(** [fail]: the error is dropped when the channel has no room. *)
Definition fail (e : error) (o : wasapiOutput) : wasapiOutput :=
  if closed o then o
  else MkWasapi (channels o) (volume o) (updates o) (externalVolume o) (paused o) true (started o) (rendered o)
         (if decide (zlen (errs o) < 2) then errs o ++ [e] else errs o).

(** What one [write] finds: the padding, what the source gives, how the buffer
    is taken and given back. *)
Record round := MkRound {
  rd_padding : result Z; rd_read : Z -> list Z * option error; rd_get : option error; rd_release : option error
}.

(** The first half of [write]: the samples and the error the source gave, with
    the volume of the moment, or the error it ends with. *)
Inductive fetched := Nothing (err : option error) | Fetched (samples : list Z) (readErr : option error) (vol : Z).

Definition write_fetch (bufFrames : Z) (rd : round) (o : wasapiOutput) : run fetched :=
  if closed o || paused o then Ret (Nothing None)
  else
    match rd_padding rd with
    | Err e => Ret (Nothing (Some e))
    | Ok padding =>
      let frames := u32 (bufFrames - padding) in
      if decide (frames = 0) then Ret (Nothing None)
      else
        let '(samples, readErr) := rd_read rd (frames * channels o) in
        if decide (0 < zlen samples) then
          if decide (channels o = 0) then Panic "integer divide by zero"
          else Ret (Fetched (takeZ (zlen samples - Z.rem (zlen samples) (channels o)) samples) readErr (volume o))
        else Ret (Fetched [] readErr (volume o))
    end.

(** The second half, under the lock again. *)
Definition write_commit (rd : round) (f : fetched) (o : wasapiOutput) : wasapiOutput * option error :=
  match f with
  | Nothing err => (o, err)
  | Fetched samples readErr vol =>
    if closed o || paused o then (o, None)
    else
      let '(o, err) :=
        if bool_decide (0 < zlen samples) && negb (externalVolume o) then
          match rd_get rd with
          | Some e => (o, Some e)
          | None => (render (apply_volume vol samples) o, rd_release rd)
          end
        else (o, None) in
      match err with
      | Some e => (o, Some e)
      | None => if opt_Is readErr io_EOF then (set_run true (closed o) false o, None) else (o, readErr)
      end
  end.

(** [write] with nobody else at the lock in between. *)
Definition write (bufFrames : Z) (rd : round) (o : wasapiOutput) : run (wasapiOutput * option error) :=
  f ← write_fetch bufFrames rd o; Ret (write_commit rd f o).

Definition Pause (stop : option error) (o : wasapiOutput) : wasapiOutput * option error :=
  if closed o || paused o then (o, None)
  else match stop with
       | Some e => (o, Some e)
       | None => (set_run true (closed o) false o, None)
       end.

Definition Resume (start : option error) (o : wasapiOutput) : wasapiOutput * option error :=
  if closed o || negb (paused o) then (o, None)
  else match start with
       | Some e => (o, Some e)
       | None => (set_run false (closed o) true o, None)
       end.

Definition Drop (stop reset start : option error) (o : wasapiOutput) : wasapiOutput * option error :=
  if closed o then (o, None)
  else
    let playing := negb (paused o) in
    match (if playing then stop else None) with
    | Some e => (o, Some e)
    | None =>
      let o := if playing then set_run (paused o) (closed o) false o else o in
      match reset with
      | Some e => (o, Some e)
      | None =>
        if playing then
          match start with
          | Some e => (o, Some e)
          | None => (set_run (paused o) (closed o) true o, None)
          end
        else (o, None)
      end
    end.

Definition SetVolume (vol : Z) (o : wasapiOutput) : run wasapiOutput :=
  if negb (bool_decide (valid_volume vol)) then Panic "invalid volume value"
  else
    up ← send_update (updates o) vol;
    Ret (MkWasapi (channels o) vol up (externalVolume o) (paused o) (closed o) (started o) (rendered o) (errs o)).

Definition Close (o : wasapiOutput) : wasapiOutput := if closed o then o else set_run (paused o) true false o.
End Wasapi.
