(* ===== verification/DriverClaims.v ===== *)
(** * The output drivers: theorems

    Samples are converted in range and in order; the pipe gets what was read; an
    ALSA handle is used only while it is open.  And what goes wrong: a full
    scale sample on a 32-bit ALSA device, an external volume on WASAPI, a failed
    close at the end of a track, a failed write that leaves the file open. *)

From S2P Require Import Prelude Floats Drivers.
#[local] Open Scope string_scope.
#[local] Open Scope list_scope.
#[local] Open Scope Z_scope.

(** ** Samples *)
Lemma to_int_bounds w oob x lo hi : - 2 ^ (w - 1) <= lo -> hi < 2 ^ (w - 1) -> lo * one <= x <= hi * one ->
  to_int w oob x = Z.quot x one /\ lo <= Z.quot x one <= hi.
Proof.
  intros Hlo Hhi [Hx Hy].
  assert (Hq : lo <= Z.quot x one <= hi).
  { split; [rewrite <- (Z.quot_mul lo one) by (pose proof one_pos; lia)
           |rewrite <- (Z.quot_mul hi one) by (pose proof one_pos; lia)]; by apply quot_one_mono. }
  split; [|done]; apply to_int_in; [done|lia].
Qed.

Lemma mul64_mono a b c : 0 <= c -> a <= b -> mul64 a c <= mul64 b c.
Proof.
  intros; apply rnd64_mono; [apply one_pos..|]; pose proof one_pos.
  by repeat (apply Z.mul_le_mono_nonneg_r; [lia|]).
Qed.

Lemma clampSample_mono m x y : - one <= m -> x <= y ->
  - one <= Pipe.clampSample x m <= Pipe.clampSample y m /\ Pipe.clampSample y m <= m.
Proof. intros; unfold Pipe.clampSample; repeat case_decide; lia. Qed.

Lemma sampleS16_ok oob x y : x <= y ->
  -32768 <= Pipe.sampleS16 oob x <= Pipe.sampleS16 oob y /\ Pipe.sampleS16 oob y <= 32767.
Proof.
  intros Hxy.
  destruct (clampSample_mono Pipe.maxSampleValueS16 x y ltac:(by vm_compute) Hxy) as [[Hlo Hmid] Hhi].
  assert (Hf : 0 <= f32_of 32768) by (by vm_compute).
  assert (Hb : forall z, - one <= z <= Pipe.maxSampleValueS16 -> -32768 * one <= mul32 z (f32_of 32768) <= 32767 * one).
  { intros z Hz; split.
    - transitivity (mul32 (- one) (f32_of 32768)); [by vm_compute|apply mul32_mono; lia].
    - transitivity (mul32 Pipe.maxSampleValueS16 (f32_of 32768)); [apply mul32_mono; lia|by vm_compute]. }
  unfold Pipe.sampleS16.
  destruct (to_int_bounds 16 oob (mul32 (Pipe.clampSample x Pipe.maxSampleValueS16) (f32_of 32768)) (-32768) 32767)
    as [-> ?]; [lia|lia|apply Hb; lia|].
  destruct (to_int_bounds 16 oob (mul32 (Pipe.clampSample y Pipe.maxSampleValueS16) (f32_of 32768)) (-32768) 32767)
    as [-> ?]; [lia|lia|apply Hb; lia|].
  split; [split; [tauto|]|tauto]; apply quot_one_mono, mul32_mono; [done|lia].
Qed.

Lemma sampleS32_ok oob x y : x <= y ->
  -2147483647 <= Pipe.sampleS32 oob x <= Pipe.sampleS32 oob y /\ Pipe.sampleS32 oob y <= 2147483647.
Proof.
  intros Hxy.
  destruct (clampSample_mono one x y ltac:(by vm_compute) Hxy) as [[Hlo Hmid] Hhi].
  assert (Hf : 0 <= f64_of 2147483647) by (by vm_compute).
  assert (Hb : forall z, - one <= z <= one -> -2147483647 * one <= mul64 z (f64_of 2147483647) <= 2147483647 * one).
  { intros z Hz; split.
    - transitivity (mul64 (- one) (f64_of 2147483647)); [by vm_compute|apply mul64_mono; lia].
    - transitivity (mul64 one (f64_of 2147483647)); [apply mul64_mono; lia|by vm_compute]. }
  unfold Pipe.sampleS32.
  destruct (to_int_bounds 32 oob (mul64 (Pipe.clampSample x one) (f64_of 2147483647)) (-2147483647) 2147483647)
    as [-> ?]; [lia|lia|apply Hb; lia|].
  destruct (to_int_bounds 32 oob (mul64 (Pipe.clampSample y one) (f64_of 2147483647)) (-2147483647) 2147483647)
    as [-> ?]; [lia|lia|apply Hb; lia|].
  split; [split; [tauto|]|tauto]; apply quot_one_mono, mul64_mono; [done|lia].
Qed.

(** The signed integer in two's complement bytes. *)
Lemma le_bytes_signed n z : 0 < n -> - 2 ^ (8 * n - 1) <= z < 2 ^ (8 * n - 1) ->
  swrap (8 * n) (le_val (le_bytes n (wrap (8 * n) z))) = z.
Proof.
  intros Hn Hz.
  assert (Hp : 2 ^ (8 * n) = 2 * 2 ^ (8 * n - 1)) by (rewrite <- Z.pow_succ_r by lia; f_equal; lia).
  unfold le_val, le_bytes; rewrite little_endian_to_Z_to_little_endian by lia.
  rewrite (Z.mul_comm n 8); unfold swrap, wrap; rewrite Z.mod_mod by lia.
  rewrite Zplus_mod_idemp_l, Z.mod_small by lia; lia.
Qed.

(** C33: A sample written to the pipe as 16 or 32 bits reads back as an integer of
    its range, louder samples never as quieter ones, whatever the processor
    does with conversions that do not fit; the extremes are full scale. *)
Theorem pipe_samples_in_range (bits : Z -> Z) (oob x y : Z) :
  x <= y ->
  let s16 z := swrap 16 (le_val (Pipe.sample_bytes bits oob Pipe.S16LE z)) in
  let s32 z := swrap 32 (le_val (Pipe.sample_bytes bits oob Pipe.S32LE z)) in
  -32768 <= s16 x <= s16 y /\ s16 y <= 32767 /\ -2147483647 <= s32 x <= s32 y /\ s32 y <= 2147483647 /\
  s16 (- one) = -32768 /\ s16 one = 32767 /\ s32 (- one) = -2147483647 /\ s32 one = 2147483647.
Proof.
  intros Hxy s16 s32.
  assert (H16 : forall z, s16 z = Pipe.sampleS16 oob z).
  { intros z; pose proof (sampleS16_ok oob z z ltac:(lia)).
    unfold s16; simpl; apply (le_bytes_signed 2); lia. }
  assert (H32 : forall z, s32 z = Pipe.sampleS32 oob z).
  { intros z; pose proof (sampleS32_ok oob z z ltac:(lia)).
    unfold s32; simpl; apply (le_bytes_signed 4); lia. }
  rewrite !H16, !H32; pose proof (sampleS16_ok oob x y Hxy); pose proof (sampleS32_ok oob x y Hxy).
  split_and!; try tauto; vm_compute; reflexivity.
Qed.

Lemma pipe_samples_in_range_witness :
  let s16 z := swrap 16 (le_val (Pipe.sample_bytes id 0 Pipe.S16LE z)) in
  let s32 z := swrap 32 (le_val (Pipe.sample_bytes id 0 Pipe.S32LE z)) in
  -32768 <= s16 0 <= s16 (2 * one) /\ s16 (2 * one) <= 32767 /\ -2147483647 <= s32 0 <= s32 (2 * one) /\
  s32 (2 * one) <= 2147483647 /\
  s16 (- one) = -32768 /\ s16 one = 32767 /\ s32 (- one) = -2147483647 /\ s32 one = 2147483647.
Proof. apply (pipe_samples_in_range id 0 0 (2 * one)); by vm_compute. Defined.

(** On an ALSA device of 32-bit samples full scale does not fit: rounded to a
    [float32], it is one more than the largest integer, and the result is up to
    the processor. *)
Theorem alsa_full_scale_overflows (oob x : Z) :
  one <= x -> Alsa.floatLeToS32Le oob [x] = [oob] /\ Alsa.floatLeToS16Le oob [x] = [32767].
Proof.
  intros Hx; assert (Hc : Alsa.clip x = one) by (unfold Alsa.clip; pose proof one_pos; repeat case_decide; lia).
  unfold Alsa.floatLeToS32Le, Alsa.floatLeToS16Le; simpl; rewrite Hc.
  assert (to_int 32 oob (mul32 one (f32_of 2147483647)) = oob) as ->.
  { unfold to_int; rewrite decide_False; [done|].
    assert (Z.quot (mul32 one (f32_of 2147483647)) one = 2 ^ 31) as -> by (vm_compute; reflexivity); lia. }
  split; [done|]; f_equal; vm_compute; reflexivity.
Qed.

Lemma alsa_full_scale_overflows_witness :
  Alsa.floatLeToS32Le (- 2 ^ 31) [one] = [- 2 ^ 31] /\ Alsa.floatLeToS16Le (- 2 ^ 31) [one] = [32767].
Proof. apply (alsa_full_scale_overflows (- 2 ^ 31) one); lia. Defined.

(** ** The mixer *)

(** A valid volume sets the mixer within its range, and a louder one never
    lower. *)
Theorem alsa_mixer_volume_in_range (oob : Z) (o : Alsa.alsaOutput) (v1 v2 : Z) :
  - 2 ^ 23 <= Alsa.mixerMin o <= Alsa.mixerMax o -> Alsa.mixerMax o <= 2 ^ 23 ->
  valid_volume v1 -> valid_volume v2 -> v1 <= v2 ->
  Alsa.mixerMin o <= Alsa.mixerVolume oob o v1 <= Alsa.mixerVolume oob o v2 /\
  Alsa.mixerVolume oob o v2 <= Alsa.mixerMax o.
Proof.
  intros Hmin Hmax Hv1 Hv2 Hle; unfold valid_volume in *.
  set (lo := Alsa.mixerMin o) in *; set (hi := Alsa.mixerMax o) in *.
  assert (Hd : f32_of (hi - lo) = (hi - lo) * one) by (apply f32_of_exact; lia).
  assert (Hl : f32_of lo = lo * one) by (apply f32_of_exact; lia).
  set (m v := add32 (mul32 v (f32_of (hi - lo))) (f32_of lo)).
  pose proof one_pos.
  assert (Hm : forall a b, a <= b -> m a <= m b).
  { intros; unfold m; apply add32_mono, mul32_mono; [nia|done]. }
  assert (H0 : m 0 = lo * one).
  { unfold m; rewrite Hl; assert (mul32 0 (f32_of (hi - lo)) = 0) as -> by reflexivity.
    unfold add32; apply rnd32_int; lia. }
  assert (H1 : m one = hi * one).
  { unfold m; rewrite Hl, Hd; unfold mul32; rewrite (Z.mul_comm one).
    assert (rnd32 ((hi - lo) * one * one) one = (hi - lo) * one) as ->.
    { apply (mul32_one ((hi - lo) * one)), rnd32_int; lia. }
    unfold add32; replace ((hi - lo) * one + lo * one) with (hi * one) by lia; apply rnd32_int; lia. }
  assert (Hr : forall v, 0 <= v <= one -> lo * one <= m v <= hi * one).
  { intros v Hv; rewrite <- H0, <- H1; split; apply Hm; lia. }
  unfold Alsa.mixerVolume; fold lo hi; fold (m v1); fold (m v2).
  destruct (to_int_bounds 64 oob (m v1) lo hi) as [-> ?]; [lia|lia|by apply Hr|].
  destruct (to_int_bounds 64 oob (m v2) lo hi) as [-> ?]; [lia|lia|by apply Hr|].
  split; [split; [tauto|]|tauto]; apply quot_one_mono, Hm, Hle.
Qed.

Lemma alsa_mixer_volume_in_range_witness :
  let o := Alsa.newAlsaOutput 2 44100 one false (Some (-100, 87)) in
  -100 <= Alsa.mixerVolume 0 o 0 <= Alsa.mixerVolume 0 o one /\ Alsa.mixerVolume 0 o one <= 87.
Proof.
  apply (alsa_mixer_volume_in_range 0 (Alsa.newAlsaOutput 2 44100 one false (Some (-100, 87))) 0 one);
    try (vm_compute; done); split; by vm_compute.
Defined.

(** ** The handle of the device *)

(** The handles open after an event of the log; [None] when the event uses a
    handle that is not open, or opens one twice. *)
Definition replay (open : option (list nat)) (ev : Alsa.event) : option (list nat) :=
  hs ← open;
  match ev with
  | Alsa.Opened h => if decide (h ∈ hs) then None else Some (h :: hs)
  | Alsa.Closed h => if decide (h ∈ hs) then Some (filter (fun x => x <> h) hs) else None
  | Alsa.Wrote h _ | Alsa.Dropped h => if decide (h ∈ hs) then Some hs else None
  end.

(** The log uses open handles only, and the one still open is the driver's. *)
Definition device_ok (o : Alsa.alsaOutput) : Prop :=
  foldl replay (Some []) (Alsa.log o) = Some (option_list (Alsa.pcmHandle o)).

Lemma device_ok_set h evs o o' : device_ok o ->
  Alsa.pcmHandle o' = h -> Alsa.log o' = Alsa.log o ++ evs ->
  foldl replay (Some (option_list (Alsa.pcmHandle o))) evs = Some (option_list h) -> device_ok o'.
Proof. unfold device_ok; intros Ho -> -> He; by rewrite foldl_app, Ho, He. Qed.

Lemma device_ok_same o o' : device_ok o ->
  Alsa.pcmHandle o' = Alsa.pcmHandle o -> Alsa.log o' = Alsa.log o -> device_ok o'.
Proof. unfold device_ok; congruence. Qed.

Lemma replay_use h evs : Forall (fun ev => ev = Alsa.Dropped h \/ exists d, ev = Alsa.Wrote h d) evs ->
  foldl replay (Some [h]) evs = Some [h].
Proof.
  induction 1 as [|ev evs [->|[d ->]] _ IH]; [done|..]; simpl; rewrite decide_True by set_solver; exact IH.
Qed.

Lemma replay_close h : replay (Some [h]) (Alsa.Closed h) = Some [].
Proof. simpl; rewrite decide_True by set_solver; by rewrite filter_cons_False, filter_nil by (intros Hn; by apply Hn). Qed.

Ltac device_same := eapply device_ok_same; [eassumption|reflexivity|reflexivity].

Lemma device_ok_open h o o' : device_ok o -> Alsa.pcmHandle o = None ->
  Alsa.pcmHandle o' = Some h -> Alsa.log o' = Alsa.log o ++ [Alsa.Opened h] -> device_ok o'.
Proof. intros Ho Hn Hh Hl; eapply device_ok_set; [exact Ho|exact Hh|exact Hl|by rewrite Hn]. Qed.

Lemma device_ok_close h o o' : device_ok o -> Alsa.pcmHandle o = Some h ->
  Alsa.pcmHandle o' = None -> Alsa.log o' = Alsa.log o ++ [Alsa.Closed h] -> device_ok o'.
Proof.
  intros Ho Hn Hh Hl; eapply device_ok_set; [exact Ho|exact Hh|exact Hl|].
  rewrite Hn; apply replay_close.
Qed.

Lemma device_ok_use h ev o o' : device_ok o -> Alsa.pcmHandle o = Some h ->
  (ev = Alsa.Dropped h \/ exists d, ev = Alsa.Wrote h d) ->
  Alsa.pcmHandle o' = Some h -> Alsa.log o' = Alsa.log o ++ [ev] -> device_ok o'.
Proof.
  intros Ho Hn Hev Hh Hl; eapply device_ok_set; [exact Ho|exact Hh|exact Hl|].
  rewrite Hn; apply replay_use; by constructor.
Qed.

Lemma Resume_ok su o : device_ok o -> device_ok (Alsa.Resume su o).1.
Proof.
  intros Ho; unfold Alsa.Resume, Alsa.setupPcm.
  destruct (Alsa.closed o); [done|]; case_bool_decide as Hn; [|done]; simpl.
  case_decide; [done|]; simpl.
  destruct (Alsa.setup_error su); eapply device_ok_open; eauto.
Qed.

Lemma Pause_ok c o : device_ok o -> device_ok (Alsa.Pause c o).1.
Proof.
  intros Ho; unfold Alsa.Pause; destruct (Alsa.pcmHandle o) eqn:Hh; [|done].
  destruct (Alsa.closed o); [done|]; case_decide; [done|]; simpl; eapply device_ok_close; eauto.
Qed.

Lemma Drop_ok d p o : device_ok o -> device_ok (Alsa.Drop d p o).1.
Proof.
  intros Ho; unfold Alsa.Drop; destruct (Alsa.pcmHandle o) eqn:Hh; [|done].
  destruct (Alsa.closed o); [done|]; case_decide; [done|]; simpl.
  eapply (device_ok_use _ (Alsa.Dropped _)); eauto.
Qed.

Lemma Close_ok c m o : device_ok o -> device_ok (Alsa.Close c m o).1.
Proof.
  intros Ho; unfold Alsa.Close; destruct (Alsa.closed o); [done|].
  destruct (Alsa.pcmHandle o) as [h|] eqn:Hh; [case_decide|]; simpl.
  - done.
  - destruct (_ && _); simpl; eapply device_ok_close; eauto.
  - destruct (_ && _); simpl; [done|device_same].
Qed.

Lemma SetVolume_ok oob v o o' : device_ok o -> Alsa.SetVolume oob v o = Ret o' -> device_ok o'.
Proof.
  intros Ho; unfold Alsa.SetVolume; case_bool_decide; [|done]; simpl.
  case_decide; [intros [= <-]; done|].
  destruct (send_update _ _); simpl; intros [=]; subst; device_same.
Qed.

Lemma after_write_ok i h rd o o' : device_ok o -> Alsa.pcmHandle o = Some h ->
  Alsa.after_write i h rd o = Ret o' -> device_ok o'.
Proof.
  intros Ho Hh; unfold Alsa.after_write; destruct (Alsa.rd_err rd) as [e|]; [destruct (errors_Is e io_EOF)|].
  - case_decide; intros [= <-]; eapply device_ok_close; eauto; simpl; by rewrite app_nil_r.
  - intros [= <-]; device_same.
  - intros [= <-]; device_same.
Qed.

Lemma loop_body_ok oob i h rd o o' : device_ok o -> Alsa.loop_body oob i h rd o = Ret o' -> device_ok o'.
Proof.
  intros Ho; unfold Alsa.loop_body; case_decide as Hh; [intros [= <-]; device_same|].
  case_decide; [|by apply after_write_ok].
  destruct (Alsa.convert _ _ _) as [data|e]; [|intros [= <-]; device_same].
  set (o1 := Alsa.set_pcm _ _ _).
  assert (H1 : device_ok o1) by (eapply (device_ok_use h (Alsa.Wrote h _)); eauto).
  destruct (_ && _); [intros [= <-]; device_same|by apply after_write_ok].
Qed.

Lemma alsa_step_ok oob l o o' : device_ok o -> Alsa.step oob l o = Ret o' -> device_ok o'.
Proof.
  intros Ho; destruct l; simpl; try (intros [= <-]).
  - by apply Pause_ok.
  - by apply Resume_ok.
  - by apply Drop_ok.
  - by apply Close_ok.
  - by apply SetVolume_ok.
  - destruct (Alsa.loops o !! i) as [[h []]|]; [by apply loop_body_ok| |by intros [= <-]].
    intros [= <-]; unfold Alsa.loop_top; case_decide; device_same.
Qed.


(** A device that answers every call. *)
Definition ready_device (h : nat) : Alsa.Setup :=
  Alsa.MkSetup h (fun _ => 0) (fun _ => true) 4 16 Alsa.SND_PCM_FORMAT_S16_LE.

Definition alsa_demo : list Alsa.label :=
  let rd xs err := Alsa.MkRound xs err 0 0 0 in
  [Alsa.LResume (ready_device 0); Alsa.LLoop 0 (rd [] None); Alsa.LLoop 0 (rd [one; 0] None);
   Alsa.LDrop 0 0; Alsa.LPause 0; Alsa.LResume (ready_device 1); Alsa.LLoop 0 (rd [] None);
   Alsa.LLoop 0 (rd [] None); Alsa.LLoop 0 (rd [0; - one] (Some io_EOF))].


(** ** The pipe *)

(** What a listener at the other end is promised, from whether the output plays
    and its volume: while it plays, every round's samples at the volume of the
    moment; nothing after the end of a track until the next resume, nothing
    after a close or an error. *)
Section pipe.
Context (bits : Z -> Z) (oob : Z) (f : Pipe.format) (ext : bool).

Definition round_bytes (vol : Z) (rd : Pipe.round) : list Z :=
  Pipe.transform bits oob f (if ext then Pipe.rd_samples rd else apply_volume vol (Pipe.rd_samples rd)).

Fixpoint heard (playing : bool) (vol : Z) (ls : list Pipe.label) : list Z :=
  match ls with
  | [] => []
  | Pipe.LPause :: ls => heard false vol ls
  | Pipe.LResume :: ls => heard true vol ls
  | Pipe.LClose :: _ => []
  | Pipe.LSetVolume v :: ls => heard playing v ls
  | Pipe.LRound rd :: ls =>
    if negb playing then heard playing vol ls
    else
      match Pipe.rd_samples rd, Pipe.rd_write rd with
      | _ :: _, Some (n, _) => takeZ n (round_bytes vol rd)
      | _, _ =>
        round_bytes vol rd ++
        match Pipe.rd_err rd with
        | Some e => if errors_Is e io_EOF then heard false vol ls else []
        | None => heard true vol ls
        end
      end
  end.

(** A closed output stays so: it writes nothing more and reports nothing
    more. *)
Record pipe_closed (out : Pipe.pipeOutput) : Prop := {
  pc_closed : Pipe.closed out = true;
  pc_updates : zlen (Pipe.updates out) <= 1;
  pc_errs : zlen (Pipe.errs out) <= 1
}.

Record pipe_open (playing : bool) (vol : Z) (out : Pipe.pipeOutput) : Prop := {
  po_fmt : Pipe.fmt out = f;
  po_ext : Pipe.externalVolume out = ext;
  po_volume : Pipe.volume out = vol;
  po_updates : zlen (Pipe.updates out) <= 1;
  po_paused : Pipe.paused out = negb playing;
  po_closed : Pipe.closed out = false;
  po_looping : Pipe.looping out = true;
  po_errs : Pipe.errs out = []
}.

Definition label_ok (l : Pipe.label) : Prop := match l with Pipe.LSetVolume v => valid_volume v | _ => True end.

Lemma send_update_ok ch v : zlen ch <= 1 -> send_update ch v = Ret [v].
Proof.
  intros Hl; unfold send_update, sendVolumeUpdate.
  destruct ch as [|a [|b ch]]; [done|done|]; unfold zlen in Hl; simpl in Hl; lia.
Qed.

Lemma closed_step l out : label_ok l -> pipe_closed out ->
  exists out', Pipe.step bits oob l out = Ret out' /\ pipe_closed out' /\ Pipe.written out' = Pipe.written out.
Proof.
  intros Hl [Hc Hu He]; destruct l as [rd| | | |v]; simpl.
  - destruct (_ && _); [|by repeat econstructor].
    unfold Pipe.outputLoop_round, Pipe.end_loop, Pipe.Close; rewrite Hc; simpl; rewrite ?Hc.
    by repeat econstructor.
  - unfold Pipe.Pause; rewrite Hc; by repeat econstructor.
  - unfold Pipe.Resume; rewrite Hc; by repeat econstructor.
  - unfold Pipe.Close; rewrite Hc; by repeat econstructor.
  - unfold Pipe.SetVolume; simpl in Hl; rewrite bool_decide_eq_true_2 by done; simpl.
    rewrite send_update_ok by done; by repeat econstructor.
Qed.

Lemma closed_steps ls : forall out, Forall label_ok ls -> pipe_closed out ->
  exists out', Pipe.steps bits oob ls out = Ret out' /\ zlen (Pipe.errs out') <= 1 /\ Pipe.written out' = Pipe.written out.
Proof.
  induction ls as [|l ls IH]; intros out Hls Hc; simpl.
  - exists out; split_and!; [done|apply Hc|done].
  - apply Forall_cons in Hls as [Hl Hls].
    destruct (closed_step l out Hl Hc) as (o1 & -> & Hc1 & <-); simpl; by apply IH.
Qed.

(** One round of an output that plays. *)
Lemma round_open vol rd out : pipe_open true vol out ->
  let out' := Pipe.outputLoop_round bits oob rd out in
  match Pipe.rd_samples rd, Pipe.rd_write rd with
  | _ :: _, Some (n, _) => pipe_closed out' /\ Pipe.written out' = Pipe.written out ++ takeZ n (round_bytes vol rd)
  | _, _ =>
    Pipe.written out' = Pipe.written out ++ round_bytes vol rd /\
    match Pipe.rd_err rd with
    | Some e => if errors_Is e io_EOF then pipe_open false vol out' else pipe_closed out'
    | None => pipe_open true vol out'
    end
  end.
Proof.
  intros [Hf He Hv Hu Hp Hc Hl Hr] out'; unfold out', Pipe.outputLoop_round; rewrite Hc, Hf, He, Hv.
  fold (round_bytes vol rd).
  assert (Hz : (0 < zlen (if ext then Pipe.rd_samples rd else apply_volume vol (Pipe.rd_samples rd))) <->
               Pipe.rd_samples rd <> []).
  { destruct ext; unfold apply_volume, zlen; rewrite ?length_fmap; destruct (Pipe.rd_samples rd); simpl; split;
      intros; try done; lia. }
  assert (Hfail : forall e o, Pipe.errs o = [] -> zlen (Pipe.updates o) <= 1 ->
            pipe_closed (Pipe.fail e o) /\ Pipe.written (Pipe.fail e o) = Pipe.written o).
  { intros e o Ho Hu'; split; [|done]; split; simpl; [done|done|]; by rewrite Ho. }
  assert (Hend : match Pipe.rd_err rd with
          | Some e => if errors_Is e io_EOF then pipe_open false vol
              (Pipe.set_flags true (Pipe.closed out) (Pipe.looping out) (Pipe.fileOpen out) (Pipe.add_written (round_bytes vol rd) out))
            else pipe_closed (Pipe.fail e (Pipe.add_written (round_bytes vol rd) out))
          | None => pipe_open true vol (Pipe.add_written (round_bytes vol rd) out) end).
  { destruct (Pipe.rd_err rd) as [e|]; [destruct (errors_Is e io_EOF)|]; [by split| |by split].
    by apply Hfail. }
  destruct (Pipe.rd_samples rd) as [|x xs] eqn:Hx, (Pipe.rd_write rd) as [[n e]|] eqn:Hw;
    (rewrite decide_True by (by apply Hz)) || (rewrite decide_False by (rewrite Hz; auto)); simpl.
  - destruct (Pipe.rd_err rd) as [e'|]; [destruct (errors_Is e' io_EOF)|]; by split.
  - destruct (Pipe.rd_err rd) as [e'|]; [destruct (errors_Is e' io_EOF)|]; by split.
  - by apply Hfail.
  - destruct (Pipe.rd_err rd) as [e'|]; [destruct (errors_Is e' io_EOF)|]; by split.
Qed.

Lemma open_steps ls : forall playing vol out, Forall label_ok ls -> pipe_open playing vol out ->
  exists out', Pipe.steps bits oob ls out = Ret out' /\ zlen (Pipe.errs out') <= 1 /\
    Pipe.written out' = Pipe.written out ++ heard playing vol ls.
Proof.
  induction ls as [|l ls IH]; intros playing vol out Hls Ho; simpl.
  { exists out; split_and!; [done|by rewrite (po_errs _ _ _ Ho)|by rewrite app_nil_r]. }
  apply Forall_cons in Hls as [Hl Hls]; pose proof Ho as [Hf He Hv Hu Hp Hc Hlp Hr].
  destruct l as [rd| | | |v]; simpl.
  - rewrite Hlp, Hp, Hc; destruct playing; simpl; [|by apply IH].
    pose proof (round_open vol rd out Ho) as Hrd; cbv zeta in Hrd.
    destruct (Pipe.rd_samples rd), (Pipe.rd_write rd) as [[n e]|];
      try (destruct Hrd as [Hcl <-]; by apply closed_steps); destruct Hrd as [Hw Hrd]; rewrite (app_assoc (Pipe.written out)), <- Hw;
      (destruct (Pipe.rd_err rd) as [e'|]; [destruct (errors_Is e' io_EOF)|]; [by apply IH| |by apply IH]);
      rewrite app_nil_r; by apply closed_steps.
  - unfold Pipe.Pause; rewrite Hc; simpl.
    destruct (IH false vol (Pipe.set_flags true false (Pipe.looping out) (Pipe.fileOpen out) out)) as (o & ? & ? & ?);
      [done|by split|by exists o].
  - unfold Pipe.Resume; rewrite Hc; simpl.
    destruct (IH true vol (Pipe.set_flags false false (Pipe.looping out) (Pipe.fileOpen out) out)) as (o & ? & ? & ?);
      [done|by split|by exists o].
  - unfold Pipe.Close; rewrite Hc; simpl; rewrite app_nil_r.
    destruct (closed_steps ls (Pipe.set_flags (Pipe.paused out) true (Pipe.looping out) false out)) as (o & ? & ? & ?);
      [done|split; simpl; [done|done|by rewrite Hr]|by exists o].
  - unfold Pipe.SetVolume; simpl in Hl; rewrite bool_decide_eq_true_2 by done; simpl.
    rewrite send_update_ok by done; simpl.
    destruct (IH playing v (Pipe.MkPipe (Pipe.fmt out) (Pipe.externalVolume out) v [v] (Pipe.paused out)
      (Pipe.closed out) (Pipe.looping out) (Pipe.fileOpen out) (Pipe.written out) (Pipe.errs out))) as (o & ? & ? & ?);
      [done|by split|by exists o].
Qed.
End pipe.

(** C17: Any interleaving of rounds of the loop with pauses, resumes, volume changes
    and closes, from a pipe that was opened, runs through: the file gets exactly
    what the listener is promised, byte for byte and in order, and at most one
    error is reported. *)
Theorem pipe_plays_what_it_reads (bits : Z -> Z) (oob : Z) (format : string) (ext : bool) (vol : Z) (wait : bool)
    (out : Pipe.pipeOutput) (ls : list Pipe.label) :
  Pipe.newPipeOutput format ext vol wait None None = Ok out -> Forall label_ok ls ->
  exists out', Pipe.steps bits oob ls out = Ret out' /\
    Pipe.written out' = heard bits oob (Pipe.fmt out) ext false vol ls /\ zlen (Pipe.errs out') <= 1.
Proof.
  unfold Pipe.newPipeOutput; destruct (Pipe.parse_format format) as [f|e]; [|done]; intros Hn Hls.
  assert (out = Pipe.MkPipe f ext vol [] true false true true [] []) as -> by (destruct wait; congruence).
  destruct (open_steps bits oob f ext ls false vol (Pipe.MkPipe f ext vol [] true false true true [] []) Hls)
    as (o & Hs & He & Hw); [by split|by exists o].
Qed.

Lemma pipe_plays_what_it_reads_witness :
  let rd xs err := Pipe.LRound (Pipe.MkRound xs err None) in
  let ls := [rd [one] None; Pipe.LResume; rd [one; - one] None; Pipe.LSetVolume 0; rd [one] (Some io_EOF);
             rd [one] None; Pipe.LResume; rd [one] (Some (EMsg "decoder")); rd [one] None; Pipe.LClose] in
  exists out', Pipe.steps id 0 ls (Pipe.MkPipe Pipe.S16LE false one [] true false true true [] []) = Ret out' /\
    Pipe.written out' = [255; 127; 0; 128; 0; 0; 0; 0] /\ zlen (Pipe.errs out') <= 1.
Proof.
  intros rd ls.
  destruct (pipe_plays_what_it_reads id 0 "s16le" false one false
    (Pipe.MkPipe Pipe.S16LE false one [] true false true true [] []) ls) as (o & Hs & Hw & He).
  - reflexivity.
  - repeat (apply Forall_cons; split; [first [exact I|split; by vm_compute]|]); apply Forall_nil; exact I.
  - exists o; split_and!; [exact Hs|rewrite Hw; vm_compute; reflexivity|exact He].
Defined.

(** ** What goes wrong *)

(** An output that failed has its file or its device left open: closing it does
    nothing any more. *)
Theorem failed_output_stays_open (bits : Z -> Z) (oob : Z) (e : error) (out : Pipe.pipeOutput)
    (i h : nat) (rd : Alsa.round) (o : Alsa.alsaOutput) (closeCode mixerCode : Z) :
  errors_Is e io_EOF = false -> Alsa.rd_err rd = Some e -> Alsa.pcmHandle o = Some h ->
  Pipe.fileOpen (Pipe.Close (Pipe.fail e out)) = Pipe.fileOpen out /\
  exists o', Alsa.after_write i h rd o = Ret o' /\ Alsa.Close closeCode mixerCode o' = (o', None) /\
    Alsa.pcmHandle o' = Some h.
Proof.
  intros He Hrd Hh; split; [done|].
  unfold Alsa.after_write; rewrite Hrd, He; eexists; by split_and!.
Qed.

Lemma failed_output_stays_open_witness :
  let o := Alsa.set_pcm (Some 0%nat) [Alsa.Opened 0] (Alsa.newAlsaOutput 2 44100 one false None) in
  let out := Pipe.MkPipe Pipe.S16LE false one [] true false true true [] [] in
  Pipe.fileOpen (Pipe.Close (Pipe.fail (EMsg "decoder") out)) = true /\
  exists o', Alsa.after_write 0 0 (Alsa.MkRound [] (Some (EMsg "decoder")) 0 0 0) o = Ret o' /\
    Alsa.Close 0 0 o' = (o', None) /\ Alsa.pcmHandle o' = Some 0%nat.
Proof.
  intros o out.
  exact (failed_output_stays_open id 0 (EMsg "decoder") out 0 0
    (Alsa.MkRound [] (Some (EMsg "decoder")) 0 0 0) o 0 0 eq_refl eq_refl eq_refl).
Defined.

(** At the end of a track a device that fails to close crashes the program: its
    lock is released twice. *)
Theorem alsa_close_failure_crashes (i h : nat) (rd : Alsa.round) (o : Alsa.alsaOutput) :
  Alsa.rd_err rd = Some io_EOF -> Alsa.rd_close rd < 0 ->
  Alsa.after_write i h rd o = Panic "sync: unlock of unlocked mutex".
Proof.
  intros He Hc; unfold Alsa.after_write; rewrite He.
  replace (errors_Is io_EOF io_EOF) with true by reflexivity; by rewrite decide_True.
Qed.

Lemma alsa_close_failure_crashes_witness :
  Alsa.after_write 0 0 (Alsa.MkRound [] (Some io_EOF) 0 0 (-5)) (Alsa.newAlsaOutput 2 44100 one false None) =
  Panic "sync: unlock of unlocked mutex".
Proof. apply (alsa_close_failure_crashes 0 0 (Alsa.MkRound [] (Some io_EOF) 0 0 (-5))); [reflexivity|by vm_compute]. Defined.

(** A device that opened but could not be set up keeps its handle: the next
    resume reports success and starts nothing. *)
Theorem alsa_failed_setup_never_plays (su su' : Alsa.Setup) (o : Alsa.alsaOutput) (e : error) :
  Alsa.closed o = false -> Alsa.pcmHandle o = None -> 0 <= Alsa.su_code su "snd_pcm_open" ->
  Alsa.setup_error su = Some e ->
  let o1 := (Alsa.Resume su o).1 in
  (Alsa.Resume su o).2 = Some e /\ Alsa.Resume su' o1 = (o1, None) /\ Alsa.loops o1 = Alsa.loops o.
Proof.
  intros Hc Hn Ho He o1; unfold o1, Alsa.Resume; rewrite Hc, bool_decide_eq_true_2 by done; simpl.
  unfold Alsa.setupPcm; rewrite decide_False by lia; rewrite He; simpl; by rewrite Hc.
Qed.

Definition deaf_device : Alsa.Setup :=
  Alsa.MkSetup 0 (fun _ => 0) (fun _ => false) 4 16 Alsa.SND_PCM_FORMAT_S16_LE.

Lemma alsa_failed_setup_never_plays_witness :
  let o := Alsa.newAlsaOutput 2 44100 one false None in
  let o1 := (Alsa.Resume deaf_device o).1 in
  (Alsa.Resume deaf_device o).2 = Some (EMsg "could not find a supported PCM format") /\
  Alsa.Resume (ready_device 1) o1 = (o1, None) /\ Alsa.loops o1 = [].
Proof.
  intros o; apply (alsa_failed_setup_never_plays deaf_device (ready_device 1) o
    (EMsg "could not find a supported PCM format")); [reflexivity|reflexivity|by vm_compute|reflexivity].
Defined.

(** With an external volume the WASAPI output plays silence: what it reads from
    the source is never given to the device. *)
Theorem wasapi_external_silent (bufFrames : Z) (rd : Wasapi.round) (o o' : Wasapi.wasapiOutput) (err : option error) :
  Wasapi.externalVolume o = true -> Wasapi.write bufFrames rd o = Ret (o', err) ->
  Wasapi.rendered o' = Wasapi.rendered o.
Proof.
  unfold Wasapi.write; intros Hx; destruct (Wasapi.write_fetch bufFrames rd o) as [f| |]; try done; simpl.
  intros [= Hw]; destruct f as [|xs re vol]; simpl in Hw; [by simplify_eq|].
  destruct (_ || _); [by simplify_eq|]; rewrite Hx, andb_false_r in Hw.
  destruct (opt_Is re io_EOF); by simplify_eq.
Qed.

Lemma wasapi_external_silent_witness :
  let o := Wasapi.MkWasapi 2 one [] true false false true [] [] in
  Wasapi.rendered o = [].
Proof.
  intros o.
  apply (wasapi_external_silent 4 (Wasapi.MkRound (Ok 0) (fun _ => ([one; one], None)) None None) o o None);
    vm_compute; reflexivity.
Defined.

(** A pause that comes while the WASAPI output reads loses what was read. *)
Theorem wasapi_pause_loses_samples (rd : Wasapi.round) (o : Wasapi.wasapiOutput) (xs : list Z) (re : option error) (vol : Z) :
  Wasapi.closed o = false -> Wasapi.paused o = false ->
  Wasapi.write_commit rd (Wasapi.Fetched xs re vol) (Wasapi.Pause None o).1 = ((Wasapi.Pause None o).1, None).
Proof. intros Hc Hp; unfold Wasapi.Pause; rewrite Hc, Hp; done. Qed.

Lemma wasapi_pause_loses_samples_witness :
  let o := Wasapi.MkWasapi 2 one [] false false false true [] [] in
  let rd := Wasapi.MkRound (Ok 0) (fun _ => ([], None)) None None in
  Wasapi.write_commit rd (Wasapi.Fetched [one; one] (Some io_EOF) one) (Wasapi.Pause None o).1 =
  ((Wasapi.Pause None o).1, None).
Proof. intros o rd; apply (wasapi_pause_loses_samples rd o); reflexivity. Defined.
