(* ===== verification/Blob.v ===== *)
(** * Keys and credential blobs
    ([src/dh/dh.go], [ConnectBlob] of [src/ap/ap.go], the decryption of
    [handleAddUser] of [src/zeroconf/zeroconf.go])

    A phone on the network hands its user's credentials to the device in two
    layers: the outer one under a key agreed with the device, the inner one
    under a key of the device and the user.  SHA-1, its HMAC, PBKDF2, the AES
    block functions and base64 are parameters. *)

From Stdlib Require Import Zpow_facts.
From S2P Require Import Prelude Audio.
#[local] Open Scope string_scope.
#[local] Open Scope list_scope.
#[local] Open Scope Z_scope.

(** ** Diffie-Hellman ([dh.go]) *)
Definition dhGenerator : Z := 2.
Definition dhPrime : Z := be_val
  [0xff; 0xff; 0xff; 0xff; 0xff; 0xff; 0xff; 0xff; 0xc9; 0x0f; 0xda; 0xa2; 0x21; 0x68; 0xc2; 0x34; 0xc4; 0xc6;
   0x62; 0x8b; 0x80; 0xdc; 0x1c; 0xd1; 0x29; 0x02; 0x4e; 0x08; 0x8a; 0x67; 0xcc; 0x74; 0x02; 0x0b; 0xbe; 0xa6;
   0x3b; 0x13; 0x9b; 0x22; 0x51; 0x4a; 0x08; 0x79; 0x8e; 0x34; 0x04; 0xdd; 0xef; 0x95; 0x19; 0xb3; 0xcd; 0x3a;
   0x43; 0x1b; 0x30; 0x2b; 0x0a; 0x6d; 0xf2; 0x5f; 0x14; 0x37; 0x4f; 0xe1; 0x35; 0x6d; 0x6d; 0x51; 0xc2; 0x45;
   0xe4; 0x85; 0xb5; 0x76; 0x62; 0x5e; 0x7e; 0xc6; 0xf4; 0x4c; 0x42; 0xe9; 0xa6; 0x3a; 0x36; 0x20; 0xff; 0xff;
   0xff; 0xff; 0xff; 0xff; 0xff; 0xff].

(** [big.Int]'s [Exp] and [Bytes]: no leading zero byte. *)
Definition big_Exp (x y m : Z) : Z := Zpow_mod x y m.
Definition big_Bytes (x : Z) : list Z := be_bytes (if decide (x = 0) then 0 else Z.log2 x / 8 + 1) x.

Record DiffieHellman := MkDH { privateKey : Z; publicKey : Z; sharedSecret : list Z }.

(** [random] is the outcome of reading 95 random bytes. *)
Definition NewDiffieHellman (random : result (list Z)) : result DiffieHellman :=
  match random with
  | Err e => Err (EWrap "failed reading random private key" e)
  | Ok privateKeyData =>
    let key := be_val privateKeyData in
    Ok (MkDH key (big_Exp dhGenerator key dhPrime) [])
  end.

Definition Exchange (dh : DiffieHellman) (remoteKeyBytes : list Z) : DiffieHellman :=
  MkDH (privateKey dh) (publicKey dh) (big_Bytes (big_Exp (be_val remoteKeyBytes) (privateKey dh) dhPrime)).

Definition PublicKeyBytes (dh : DiffieHellman) : list Z := big_Bytes (publicKey dh).
Definition SharedSecretBytes (dh : DiffieHellman) : list Z := sharedSecret dh.

(** ** The functions of the cryptographic packages *)
Class Crypto := {
  sha1_Sum : list Z -> list Z;
  hmac_Sum : list Z -> list Z -> list Z;
  pbkdf2_Key : list Z -> list Z -> list Z;
  aes_Encrypt : list Z -> list Z -> list Z;
  aes_Decrypt : list Z -> list Z -> list Z;
  b64_Decode : list Z -> result (list Z);
  makeslice_max : Z
}.

(** ** Reading the inner blob

    A [bytes.Reader]: its position may be past the end. *)
Record reader := MkReader { rd_data : list Z; rd_pos : Z }.

Definition SeekCurrent (offset : Z) (r : reader) : reader :=
  let abs := i64 (rd_pos r + offset) in
  if decide (abs < 0) then r else MkReader (rd_data r) abs.

Definition ReadByte (r : reader) : reader * option Z :=
  match nthZ (rd_data r) (rd_pos r) with
  | Some b => (MkReader (rd_data r) (rd_pos r + 1), Some b)
  | None => (r, None)
  end.

(** [binary.ReadUvarint], whose error is ignored: the value so far. *)
Fixpoint uvarint_loop (n : nat) (i s x : Z) (r : reader) : reader * Z :=
  match n with
  | O => (r, x)
  | S n =>
    match ReadByte r with
    | (r, None) => (r, x)
    | (r, Some b) =>
      if decide (b < 0x80) then
        if bool_decide (i = 9) && bool_decide (1 < b) then (r, x) else (r, Z.lor x (u64 (Z.shiftl b s)))
      else uvarint_loop n (i + 1) (s + 7) (Z.lor x (u64 (Z.shiftl (Z.land b 0x7f) s))) r
    end
  end.
Definition ReadUvarint (r : reader) : reader * Z := uvarint_loop 10 0 0 0 r.

(** [Read] into a fresh slice of [n] bytes: what is not read stays zero. *)
Definition read_into (n : Z) (r : reader) : list Z :=
  let got := takeZ n (dropZ (rd_pos r) (rd_data r)) in got ++ replicate (Z.to_nat (n - zlen got)) 0.

Section blob.
Context `{Crypto}.

Definition make_bytes (n : Z) : run unit :=
  if decide (n <= makeslice_max) then Ret tt else Panic "runtime error: makeslice: len out of range".

(** The decryption loop over what is left of the blob: it needs a full block
    whenever more than one byte is left. *)
Fixpoint decrypt_loop (fuel : nat) (key src : list Z) : run (list Z) :=
  match fuel with
  | O => OutOfFuel
  | S fuel =>
    if decide (zlen src <= 1) then Ret (replicate (length src) 0)
    else if decide (zlen src < BlockSize) then Panic "crypto/aes: input not full block"
    else rest ← decrypt_loop fuel key (dropZ BlockSize src); Ret (aes_Decrypt key (takeZ BlockSize src) ++ rest)
  end.

Fixpoint xor_loop (n : nat) (i : Z) (b : list Z) : run (list Z) :=
  match n with
  | O => Ret b
  | S n =>
    x ← index b (zlen b - i - 1);
    y ← index b (zlen b - i - 17);
    xor_loop n (i + 1) (setZ b (zlen b - i - 1) (Z.lxor x y))
  end.

Record LoginCredentials := MkCredentials { lc_Typ : option Z; lc_Username : option (list Z); lc_AuthData : list Z }.

Definition blob_key (deviceId username : list Z) : list Z :=
  sha1_Sum (pbkdf2_Key (sha1_Sum deviceId) username) ++ be_bytes 4 20.

(** [ConnectBlob] up to the login. *)
Definition parse_blob (username decryptedBlob : list Z) : run LoginCredentials :=
  let blob := SeekCurrent 1 (MkReader decryptedBlob 0) in
  let '(blob, discardLen) := ReadUvarint blob in
  let blob := SeekCurrent (i64 discardLen) blob in
  let blob := SeekCurrent 1 blob in
  let '(blob, authTyp) := ReadUvarint blob in
  let blob := SeekCurrent 1 blob in
  let '(blob, authDataLen) := ReadUvarint blob in
  _ ← make_bytes authDataLen;
  Ret (MkCredentials (Some (i32 authTyp)) (Some username) (read_into authDataLen blob)).

Definition ConnectBlob (deviceId username encryptedBlob64 : list Z) : run (result LoginCredentials) :=
  match b64_Decode encryptedBlob64 with
  | Err e => Ret (Err (EWrap "failed decoding encrypted blob" e))
  | Ok encryptedBlob =>
    let key := blob_key deviceId username in
    decryptedBlob ← decrypt_loop (S (length encryptedBlob)) key encryptedBlob;
    decryptedBlob ← xor_loop (Z.to_nat (zlen decryptedBlob - 16)) 0 decryptedBlob;
    creds ← parse_blob username decryptedBlob;
    Ret (Ok creds)
  end.

(** ** The outer layer ([handleAddUser]) *)
Record form := MkForm { fm_userName : list Z; fm_blob : list Z; fm_clientKey : list Z; fm_deviceName : list Z }.

(** What the request holds: an error, a bad checksum, or the inner blob. *)
Inductive unwrapped := BadForm (e : error) | BadChecksum | Unwrapped (authBlob : list Z).

Definition ascii_bytes (s : string) : list Z := (fun c => Z.of_N (Ascii.N_of_ascii c)) <$> String.list_ascii_of_string s.

Definition unwrap (dh : DiffieHellman) (f : form) : DiffieHellman * unwrapped :=
  if decide (fm_userName f = []) then (dh, BadForm (EMsg "missing username"))
  else if decide (fm_blob f = []) then (dh, BadForm (EMsg "missing blob"))
  else if decide (fm_clientKey f = []) then (dh, BadForm (EMsg "missing client key"))
  else if decide (fm_deviceName f = []) then (dh, BadForm (EMsg "missing device name"))
  else
    match b64_Decode (fm_blob f), b64_Decode (fm_clientKey f) with
    | Err e, _ => (dh, BadForm (EWrap "invalid blob" e))
    | _, Err e => (dh, BadForm (EWrap "invalid client key" e))
    | Ok blob, Ok clientKey =>
      if decide (zlen blob < 16 + 1 + 20) then (dh, BadForm (EMsg "invalid blob: too short"))
      else
        let dh := Exchange dh clientKey in
        let baseKey := takeZ 16 (sha1_Sum (sharedSecret dh)) in
        let iv := takeZ 16 blob in
        let encrypted := sliceZ 16 (zlen blob - 20) blob in
        let checksum := dropZ (zlen blob - 20) blob in
        let checksumKey := hmac_Sum baseKey (ascii_bytes "checksum") in
        let encryptionKey := takeZ 16 (hmac_Sum baseKey (ascii_bytes "encryption")) in
        if decide (hmac_Sum checksumKey encrypted <> checksum) then (dh, BadChecksum)
        else (dh, Unwrapped (XORKeyStream (aes_Encrypt encryptionKey) iv 0 encrypted))
    end.
End blob.
