(* ===== verification/BlobClaims.v ===== *)
(** * Keys and credential blobs: theorems

    Both ends agree on a key; what a phone seals for the device, in both layers,
    comes out as the credentials the device logs in with; and an inner blob that
    is no whole number of blocks, or names an absurd length, crashes it. *)

From Stdlib Require Import Zpow_facts.
From S2P Require Import Prelude Audio Blob.
#[local] Open Scope string_scope.
#[local] Open Scope list_scope.
#[local] Open Scope Z_scope.

(** ** Key agreement *)
Lemma dhPrime_pos : 1 < dhPrime.
Proof. by vm_compute. Qed.

Lemma big_Exp_eq x y : 0 <= y -> big_Exp x y dhPrime = x ^ y `mod` dhPrime.
Proof. intros; unfold big_Exp; apply Zpow_mod_correct; pose proof dhPrime_pos; lia. Qed.

Lemma big_Exp_bound x y : 0 <= y -> 0 <= big_Exp x y dhPrime < dhPrime.
Proof. intros; rewrite big_Exp_eq by done; apply Z.mod_pos_bound; pose proof dhPrime_pos; lia. Qed.

Lemma be_val_big_Bytes x : 0 <= x -> be_val (big_Bytes x) = x.
Proof.
  intros Hx; unfold big_Bytes; case_decide as H0; [by subst|].
  pose proof (Z.log2_nonneg x); pose proof (Z.div_pos (Z.log2 x) 8 ltac:(lia) ltac:(lia)).
  rewrite be_val_be_bytes by lia; apply Z.mod_small; split; [done|].
  apply Z.log2_lt_pow2; [lia|].
  pose proof (Z.div_mod (Z.log2 x) 8 ltac:(lia)); pose proof (Z.mod_pos_bound (Z.log2 x) 8 ltac:(lia)); lia.
Qed.

Lemma big_Bytes_ok x : bytes_ok (big_Bytes x).
Proof.
  apply be_bytes_ok; case_decide; [done|].
  pose proof (Z.log2_nonneg x); pose proof (Z.div_pos (Z.log2 x) 8 ltac:(lia) ltac:(lia)); lia.
Qed.

Lemma exchange_eq a b : 0 <= a -> 0 <= b ->
  big_Exp (big_Exp dhGenerator b dhPrime) a dhPrime = dhGenerator ^ (b * a) `mod` dhPrime.
Proof.
  intros Ha Hb; rewrite !big_Exp_eq by done; pose proof dhPrime_pos.
  rewrite <- Zpower_mod by lia; by rewrite <- Z.pow_mul_r by done.
Qed.

(** A key pair, whatever was exchanged under it before. *)
Definition keypair (dh : DiffieHellman) : Prop :=
  0 <= privateKey dh /\ publicKey dh = big_Exp dhGenerator (privateKey dh) dhPrime.

Lemma keypair_New ra dh : bytes_ok ra -> NewDiffieHellman (Ok ra) = Ok dh -> keypair dh.
Proof. intros Hra [= <-]; split; [apply (be_val_bound ra Hra)|done]. Qed.

Lemma keypair_Exchange dh k : keypair dh -> keypair (Exchange dh k).
Proof. done. Qed.

Lemma dh_agree a b : keypair a -> keypair b ->
  sharedSecret (Exchange a (PublicKeyBytes b)) = sharedSecret (Exchange b (PublicKeyBytes a)).
Proof.
  intros [Ha Hpa] [Hb Hpb]; simpl; unfold PublicKeyBytes.
  rewrite Hpa, Hpb, !be_val_big_Bytes by (apply big_Exp_bound; lia).
  by rewrite !exchange_eq, Z.mul_comm by done.
Qed.

(** The generator has no power that is zero. *)
Lemma public_nonzero dh : keypair dh -> PublicKeyBytes dh <> [].
Proof.
  intros [Ha Hp] Hnil.
  assert (H0 : big_Exp dhGenerator (privateKey dh) dhPrime = 0).
  { rewrite <- Hp, <- (be_val_big_Bytes (publicKey dh)); [unfold PublicKeyBytes in Hnil; by rewrite Hnil|].
    rewrite Hp; by apply big_Exp_bound. }
  rewrite big_Exp_eq in H0 by done; pose proof dhPrime_pos as Hgt.
  apply Z.mod_divide in H0; [|lia].
  revert H0; clear Hp Hnil; revert Ha; generalize (privateKey dh); apply (natlike_ind (fun n => (dhPrime | dhGenerator ^ n) -> False)).
  - intros H1; apply Z.divide_1_r in H1; lia.
  - intros n Hn IH H1; apply IH; rewrite Z.pow_succ_r in H1 by done.
    apply Z.gauss in H1; [done|]; vm_compute; reflexivity.
Qed.

(** ** Variable length integers *)
Fixpoint put_uvarint (fuel : nat) (v : Z) : list Z :=
  match fuel with
  | O => []
  | S fuel => if decide (v < 128) then [v] else Z.lor (Z.land v 0x7f) 0x80 :: put_uvarint fuel (v / 128)
  end.
Definition PutUvarint (v : Z) : list Z := put_uvarint 10 v.

Lemma lor_shift x y s : 0 <= s -> 0 <= x < 2 ^ s -> Z.lor x (y * 2 ^ s) = x + y * 2 ^ s.
Proof.
  intros Hs Hx; rewrite <- Z.add_nocarry_lor; [done|].
  apply Z.bits_inj'; intros n Hn; rewrite Z.land_spec, Z.bits_0.
  destruct (decide (n < s)).
  - by rewrite Z.mul_pow2_bits_low, andb_false_r by done.
  - destruct (decide (x = 0)) as [->|]; [by rewrite Z.bits_0|].
    rewrite Z.bits_above_log2; [done|lia|]; apply Z.lt_le_trans with s; [|lia].
    apply Z.log2_lt_pow2; lia.
Qed.

Lemma low7 v : Z.land v 0x7f = v `mod` 128.
Proof. change 0x7f with (Z.ones 7); by rewrite Z.land_ones. Qed.

Lemma put_byte v : 0 <= v -> Z.lor (Z.land v 0x7f) 0x80 = v `mod` 128 + 128.
Proof.
  intros; rewrite low7; change 0x80 with (1 * 2 ^ 7); rewrite lor_shift; [lia|done|].
  apply Z.mod_pos_bound; lia.
Qed.

Lemma uvarint_loop_ok n : forall i x v pre post,
  0 <= i -> i + Z.of_nat n = 10 -> 0 <= x < 2 ^ (7 * i) -> 0 <= v < 2 ^ (64 - 7 * i) ->
  uvarint_loop n i (7 * i) x (MkReader (pre ++ put_uvarint n v ++ post) (zlen pre)) =
  (MkReader (pre ++ put_uvarint n v ++ post) (zlen (pre ++ put_uvarint n v)), x + v * 2 ^ (7 * i)).
Proof.
  induction n as [|n IH]; intros i x v pre post Hi Hn Hx Hv.
  { assert (i = 10) as -> by lia; change (2 ^ (64 - 7 * 10)) with 0 in Hv; lia. }
  assert (Hpow : 2 ^ (64 - 7 * i) * 2 ^ (7 * i) = 2 ^ 64).
  { destruct (decide (7 * i <= 64)); [rewrite <- Z.pow_add_r by lia; f_equal; lia|].
    rewrite Z.pow_neg_r in Hv by lia; lia. }
  assert (Hs : 0 < 2 ^ (7 * i)) by (apply Z.pow_pos_nonneg; lia).
  cbn [put_uvarint uvarint_loop]; unfold ReadByte; cbn [rd_data rd_pos].
  rewrite nthZ_app_r, Z.sub_diag by lia.
  case_decide as Hlt; cbn [app]; rewrite nthZ_cons_0.
  - rewrite decide_True by done.
    assert (Hb : bool_decide (i = 9) && bool_decide (1 < v) = false).
    { case_bool_decide; [|done]; subst i; apply bool_decide_eq_false_2; change (2 ^ (64 - 7 * 9)) with 2 in Hv; lia. }
    rewrite Hb, Z.shiftl_mul_pow2 by lia; unfold u64; rewrite wrap_small, lor_shift by nia.
    f_equal; f_equal; rewrite zlen_app; done.
  - rewrite put_byte by lia; pose proof (Z.mod_pos_bound v 128 ltac:(lia)) as Hm.
    rewrite decide_False by lia.
    assert (Hland : Z.land (v `mod` 128 + 128) 0x7f = v `mod` 128).
    { rewrite low7, Z.add_mod, Z.mod_same, Z.add_0_r, !Z.mod_mod by lia; done. }
    rewrite Hland, Z.shiftl_mul_pow2 by lia; unfold u64.
    pose proof (Z.div_mod v 128 ltac:(lia)) as Hdm; pose proof (Z.div_pos v 128 ltac:(lia) ltac:(lia)).
    rewrite wrap_small, lor_shift by nia.
    assert (H7 : 2 ^ (7 * (i + 1)) = 128 * 2 ^ (7 * i)).
    { replace (7 * (i + 1)) with (7 + 7 * i) by lia; by rewrite Z.pow_add_r by lia. }
    replace (7 * i + 7) with (7 * (i + 1)) by lia.
    set (b := v `mod` 128 + 128); set (rest := put_uvarint n (v / 128)).
    replace (pre ++ b :: rest ++ post) with ((pre ++ [b]) ++ rest ++ post) by (by rewrite <- app_assoc).
    replace (zlen pre + 1) with (zlen (pre ++ [b])) by (by rewrite zlen_app).
    unfold rest; rewrite (IH (i + 1)); [|lia|lia|rewrite H7; nia|].
    + rewrite <- !app_assoc; cbn [app]; rewrite H7; f_equal; nia.
    + split; [done|]; destruct (decide (i = 9)) as [->|].
      { change (2 ^ (64 - 7 * 9)) with 2 in Hv; lia. }
      destruct (decide (7 * (i + 1) <= 64)); [|lia].
      apply Z.div_lt_upper_bound; [lia|]; change 128 with (2 ^ 7); rewrite <- Z.pow_add_r by lia.
      replace (7 + (64 - 7 * (i + 1))) with (64 - 7 * i) by lia; lia.
Qed.

Lemma ReadUvarint_ok pre v post : 0 <= v < 2 ^ 64 ->
  ReadUvarint (MkReader (pre ++ PutUvarint v ++ post) (zlen pre)) =
  (MkReader (pre ++ PutUvarint v ++ post) (zlen (pre ++ PutUvarint v)), v).
Proof.
  intros Hv; unfold ReadUvarint, PutUvarint; pose proof (uvarint_loop_ok 10 0 0 v pre post) as Hl.
  rewrite Z.mul_1_r, Z.add_0_l in Hl; apply Hl; simpl; lia.
Qed.

(** ** The inner blob *)

(** What the owner of the credentials does: each byte is combined with the one
    sixteen before it, and blocks are encrypted.  [prev] are the last sixteen
    bytes that came out. *)
Fixpoint chain (prev plain : list Z) : list Z :=
  match plain, prev with
  | b :: plain, k :: prev => Z.lxor b k :: chain (prev ++ [Z.lxor b k]) plain
  | _, _ => []
  end.

Lemma zlen_chain plain : forall prev, prev <> [] -> zlen (chain prev plain) = zlen plain.
Proof.
  induction plain as [|b plain IH]; intros [|k prev] Hp; try done; simpl.
  rewrite !zlen_cons, IH; [done|]; by destruct prev.
Qed.

(** Undone byte by byte. *)
Lemma nthZ_chain plain : forall prev j, zlen prev = 16 -> 0 <= j ->
  nthZ plain j = c ← nthZ (chain prev plain) j; k ← nthZ (prev ++ chain prev plain) j; Some (Z.lxor c k).
Proof.
  induction plain as [|b plain IH]; intros prev j Hp Hj.
  { simpl; by rewrite nthZ_out by (unfold zlen; simpl; lia). }
  destruct prev as [|k prev]; [done|]; cbn [chain].
  assert (Hx : Z.lxor (Z.lxor b k) k = b) by (by rewrite Z.lxor_assoc, Z.lxor_nilpotent, Z.lxor_0_r).
  destruct (decide (j = 0)) as [->|]; [by cbn [app]; rewrite !nthZ_cons_0; simpl; rewrite Hx|].
  assert (Hs : forall (l : list Z) x, nthZ (x :: l) j = nthZ l (j - 1)).
  { intros l x; change (x :: l) with ([x] ++ l); by rewrite nthZ_app_r by (unfold zlen; simpl; lia). }
  cbn [app]; rewrite !Hs.
  rewrite (IH (prev ++ [Z.lxor b k])); [|rewrite zlen_app in *; rewrite zlen_cons in Hp; unfold zlen; simpl; unfold zlen in Hp; lia|lia].
  by rewrite <- app_assoc.
Qed.

Lemma xor_loop_ok n : forall i b, 0 <= i -> i + Z.of_nat n <= zlen b - 16 ->
  exists b', xor_loop n i b = Ret b' /\ zlen b' = zlen b /\
    forall j, nthZ b' j =
      if decide (zlen b - i - Z.of_nat n <= j < zlen b - i)
      then x ← nthZ b j; y ← nthZ b (j - 16); Some (Z.lxor x y) else nthZ b j.
Proof.
  induction n as [|n IH]; intros i b Hi Hn; simpl.
  { exists b; split_and!; [done|done|]; intros j; by rewrite decide_False by lia. }
  destruct (index_returns b (zlen b - i - 1)) as (x & -> & Hx); [lia|]; simpl.
  destruct (index_returns b (zlen b - i - 17)) as (y & -> & Hy); [lia|]; simpl.
  destruct (IH (i + 1) (setZ b (zlen b - i - 1) (Z.lxor x y))) as (b' & -> & Hl & Hb'); [lia|rewrite zlen_setZ; lia|].
  exists b'; split_and!; [done|by rewrite zlen_setZ in Hl|]; intros j; rewrite Hb', zlen_setZ.
  destruct (decide (j = zlen b - i - 1)) as [->|Hj].
  - rewrite decide_False by lia; rewrite decide_True by lia.
    rewrite nthZ_setZ_eq, Hx by lia; simpl; replace (zlen b - i - 1 - 16) with (zlen b - i - 17) by lia; by rewrite Hy.
  - destruct (decide (zlen b - i - Z.of_nat (S n) <= j < zlen b - i)).
    + rewrite decide_True by lia; by rewrite !nthZ_setZ_ne by lia.
    + rewrite decide_False by lia; by rewrite nthZ_setZ_ne by lia.
Qed.

Lemma nthZ_zeros n j : 0 <= j < Z.of_nat n -> nthZ (replicate n 0) j = Some 0.
Proof. intros; unfold nthZ; rewrite decide_True by lia; rewrite lookup_replicate_2; [done|lia]. Qed.

Lemma nthZ_chain_head plain prev j : prev = replicate 16 0 -> 0 <= j < 16 -> nthZ plain j = nthZ (chain prev plain) j.
Proof.
  intros Hp Hj; assert (Hl : zlen prev = 16) by (by rewrite Hp); rewrite (nthZ_chain plain prev j) by lia.
  rewrite nthZ_app_l by lia; rewrite Hp, nthZ_zeros by lia.
  destruct (nthZ _ j); simpl; [by rewrite Z.lxor_0_r|done].
Qed.

Lemma nthZ_chain_tail plain prev j : zlen prev = 16 -> 16 <= j ->
  nthZ plain j = c ← nthZ (chain prev plain) j; k ← nthZ (chain prev plain) (j - 16); Some (Z.lxor c k).
Proof.
  intros Hl Hj; rewrite (nthZ_chain plain prev j) by lia.
  rewrite nthZ_app_r by lia; by rewrite Hl.
Qed.

Lemma xor_chain plain :
  xor_loop (Z.to_nat (zlen plain - 16)) 0 (chain (replicate 16 0) plain) = Ret plain.
Proof.
  remember (replicate 16 0) as prev eqn:Hprev; set (c := chain prev plain).
  assert (Hl : zlen c = zlen plain) by (apply zlen_chain; by rewrite Hprev).
  destruct (decide (16 <= zlen plain)) as [Hp|Hp].
  - destruct (xor_loop_ok (Z.to_nat (zlen plain - 16)) 0 c) as (b & -> & Hb & Hn); [lia|lia|]; f_equal.
    apply nthZ_ext; intros j; rewrite Hn, Z2Nat.id by lia.
    destruct (decide (0 <= j < zlen plain)) as [Hj|]; [|rewrite decide_False by lia; by rewrite !nthZ_out by lia].
    destruct (decide (j < 16)).
    + rewrite decide_False by lia; symmetry; apply nthZ_chain_head; [done|lia].
    + rewrite decide_True by lia; symmetry; apply nthZ_chain_tail; [by rewrite Hprev|lia].
  - replace (Z.to_nat (zlen plain - 16)) with 0%nat by lia; simpl; f_equal.
    apply nthZ_ext; intros j.
    destruct (decide (0 <= j < zlen plain)) as [Hj|]; [|by rewrite !nthZ_out by lia].
    symmetry; apply nthZ_chain_head; [done|lia].
Qed.

(** ** Sealing *)

(** AES decrypts what it encrypted, base64 decodes what it encoded. *)
Class CryptoLaws `{Crypto} (b64_Encode : list Z -> list Z) := {
  sha1_ok : forall m, zlen (sha1_Sum m) = 20 /\ bytes_ok (sha1_Sum m);
  hmac_ok : forall k m, zlen (hmac_Sum k m) = 20 /\ bytes_ok (hmac_Sum k m);
  aes_ok : forall k b, zlen b = 16 -> bytes_ok b ->
    zlen (aes_Encrypt k b) = 16 /\ bytes_ok (aes_Encrypt k b) /\ aes_Decrypt k (aes_Encrypt k b) = b;
  b64_ok : forall m, bytes_ok m ->
    bytes_ok (b64_Encode m) /\ b64_Decode (b64_Encode m) = Ok m /\ (b64_Encode m = [] -> m = [])
}.

Section seal.
Context `{Cr : Crypto} (b64_Encode : list Z -> list Z) `{!CryptoLaws b64_Encode}.

Fixpoint encrypt_blocks (n : nat) (key plain : list Z) : list Z :=
  match n with
  | O => []
  | S n => aes_Encrypt key (takeZ 16 plain) ++ encrypt_blocks n key (dropZ 16 plain)
  end.

Lemma encrypt_blocks_ok key n : forall plain, zlen plain = 16 * Z.of_nat n -> bytes_ok plain ->
  zlen (encrypt_blocks n key plain) = 16 * Z.of_nat n /\ bytes_ok (encrypt_blocks n key plain) /\
  forall fuel, (n < fuel)%nat -> decrypt_loop fuel key (encrypt_blocks n key plain) = Ret plain.
Proof.
  induction n as [|n IH]; intros plain Hl Hb.
  { apply zlen_0 in Hl; subst; split_and!; [done|done|]; intros [|fuel] Hf; [lia|done]. }
  assert (Hsplit : bytes_ok (takeZ 16 plain ++ dropZ 16 plain)) by (by rewrite takeZ_dropZ).
  apply bytes_ok_app in Hsplit as [Hb1 Hb2].
  assert (Hl1 : zlen (takeZ 16 plain) = 16) by (rewrite zlen_takeZ; lia).
  destruct (aes_ok key (takeZ 16 plain) Hl1 Hb1) as (He & Heb & Hd).
  destruct (IH (dropZ 16 plain)) as (Hr & Hrb & Hrd); [rewrite zlen_dropZ; lia|done|].
  cbn [encrypt_blocks]; rewrite zlen_app, He, Hr; split_and!; [lia|by apply bytes_ok_app|].
  intros [|fuel] Hf; [lia|]; cbn [decrypt_loop].
  rewrite zlen_app, He, Hr, !decide_False by (unfold BlockSize; lia); unfold BlockSize.
  rewrite dropZ_app_le, takeZ_app_le, dropZ_all, takeZ_all by lia; cbn [app].
  rewrite Hrd by lia; simpl; by rewrite Hd, takeZ_dropZ.
Qed.

Lemma lxor_byte a b : is_byte a -> is_byte b -> is_byte (Z.lxor a b).
Proof.
  unfold is_byte; intros Ha Hb; split; [apply Z.lxor_nonneg; lia|].
  assert (Hm : Z.lxor a b = Z.lxor a b `mod` 2 ^ 8); [|rewrite Hm; apply Z.mod_pos_bound; lia].
  rewrite <- Z.land_ones by lia; apply Z.bits_inj'; intros n Hn; rewrite Z.land_spec, Z.lxor_spec.
  destruct (decide (n < 8)); [by rewrite Z.ones_spec_low, andb_true_r by lia|].
  rewrite Z.ones_spec_high, andb_false_r by lia.
  assert (Hz : forall x, 0 <= x < 2 ^ 8 -> Z.testbit x n = false).
  { intros x Hx; rewrite <- (Z.mod_small x (2 ^ 8)) by lia; apply Z.mod_pow2_bits_high; lia. }
  by rewrite !Hz.
Qed.

Lemma chain_ok plain : forall prev, bytes_ok prev -> bytes_ok plain -> bytes_ok (chain prev plain).
Proof.
  induction plain as [|b plain IH]; intros [|k prev] Hp Hb; try constructor.
  - apply Forall_cons in Hp as [], Hb as []; by apply lxor_byte.
  - apply Forall_cons in Hp as [], Hb as []; apply IH; [|done].
    apply bytes_ok_app; split; [done|]; constructor; [by apply lxor_byte|constructor].
Qed.

(** The plain bytes of an inner blob: the type and the data among others that
    are skipped. *)
Definition blob_plain (x0 x1 x2 : Z) (skip : list Z) (typ : Z) (data pad : list Z) : list Z :=
  x0 :: PutUvarint (zlen skip) ++ skip ++ x1 :: PutUvarint typ ++ x2 :: PutUvarint (zlen data) ++ data ++ pad.

Definition seal_inner (deviceId username plain : list Z) : list Z :=
  b64_Encode (encrypt_blocks (Z.to_nat (zlen plain / 16)) (blob_key deviceId username) (chain (replicate 16 0) plain)).

Lemma seek_ok data pos k : 0 <= pos -> 0 <= k -> pos + k < 2 ^ 63 ->
  SeekCurrent k (MkReader data pos) = MkReader data (pos + k).
Proof.
  intros; unfold SeekCurrent; cbn [rd_pos rd_data].
  assert (i64 (pos + k) = pos + k) as -> by (unfold i64, swrap; rewrite wrap_small by lia; lia).
  by rewrite decide_False by lia.
Qed.

Lemma parse_blob_ok username x0 x1 x2 skip typ data pad :
  0 <= typ < 2 ^ 31 -> zlen (blob_plain x0 x1 x2 skip typ data pad) < 2 ^ 63 -> zlen data <= makeslice_max ->
  parse_blob username (blob_plain x0 x1 x2 skip typ data pad) = Ret (MkCredentials (Some typ) (Some username) data).
Proof.
  intros Ht Hlen Hmax; set (p := blob_plain x0 x1 x2 skip typ data pad) in *.
  pose (a1 := [x0]); pose (a2 := a1 ++ PutUvarint (zlen skip)); pose (a3 := a2 ++ skip); pose (a4 := a3 ++ [x1]).
  pose (a5 := a4 ++ PutUvarint typ); pose (a6 := a5 ++ [x2]); pose (a7 := a6 ++ PutUvarint (zlen data)).
  assert (E1 : p = a1 ++ PutUvarint (zlen skip) ++ skip ++ x1 :: PutUvarint typ ++ x2 :: PutUvarint (zlen data) ++ data ++ pad)
    by reflexivity.
  assert (E4 : p = a4 ++ PutUvarint typ ++ x2 :: PutUvarint (zlen data) ++ data ++ pad).
  { unfold a4, a3, a2; by rewrite E1, <- !app_assoc. }
  assert (E6 : p = a6 ++ PutUvarint (zlen data) ++ data ++ pad).
  { unfold a6, a5; by rewrite E4, <- !app_assoc. }
  assert (E7 : p = a7 ++ data ++ pad) by (unfold a7; by rewrite E6, <- !app_assoc).
  assert (Hz : zlen a1 = 1 /\ zlen a3 = zlen a2 + zlen skip /\ zlen a4 = zlen a3 + 1 /\ zlen a6 = zlen a5 + 1 /\
               zlen p = zlen a7 + zlen data + zlen pad /\ zlen a1 <= zlen a2 /\ zlen a4 <= zlen a5 /\ zlen a6 <= zlen a7).
  { rewrite E7; unfold a7, a6, a5, a4, a3, a2, a1; rewrite !zlen_app, !zlen_cons, !zlen_nil.
    pose proof (zlen_nonneg (PutUvarint (zlen skip))); pose proof (zlen_nonneg (PutUvarint typ));
    pose proof (zlen_nonneg (PutUvarint (zlen data))); lia. }
  destruct Hz as (H1 & H3 & H4 & H6 & Hp & H12 & H45 & H67).
  pose proof (zlen_nonneg skip); pose proof (zlen_nonneg data); pose proof (zlen_nonneg pad).
  unfold parse_blob; rewrite seek_ok by lia; rewrite Z.add_0_l, <- H1, E1, ReadUvarint_ok, <- E1 by lia; fold a2.
  assert (Hi : i64 (zlen skip) = zlen skip) by (unfold i64, swrap; rewrite wrap_small by lia; lia).
  cbv beta iota zeta; rewrite H1, Hi, seek_ok, <- H3, seek_ok, <- H4 by lia.
  rewrite E4, ReadUvarint_ok, <- E4 by lia; fold a5; cbv beta iota zeta; rewrite seek_ok, <- H6 by lia.
  rewrite E6, ReadUvarint_ok, <- E6 by lia; fold a7; cbv beta iota zeta.
  unfold make_bytes; rewrite decide_True by done; simpl; f_equal; f_equal.
  - f_equal; unfold i32, swrap; rewrite wrap_small by lia; lia.
  - unfold read_into; cbn [rd_pos rd_data]; rewrite E7 at 1 2.
    rewrite dropZ_app_le, dropZ_all by lia; cbn [app]; rewrite takeZ_app_le, takeZ_all by lia.
    rewrite Z.sub_diag; simpl; by rewrite app_nil_r.
Qed.

Lemma ConnectBlob_ok deviceId username x0 x1 x2 skip typ data pad :
  let plain := blob_plain x0 x1 x2 skip typ data pad in
  0 <= typ < 2 ^ 31 -> zlen plain < 2 ^ 63 -> zlen data <= makeslice_max ->
  bytes_ok plain -> zlen plain `mod` 16 = 0 ->
  ConnectBlob deviceId username (seal_inner deviceId username plain) =
  Ret (Ok (MkCredentials (Some typ) (Some username) data)).
Proof.
  intros plain Ht Hlen Hmax Hb Hm.
  set (c := chain (replicate 16 0) plain); set (n := Z.to_nat (zlen plain / 16)).
  assert (Hc : zlen c = zlen plain) by (by apply zlen_chain).
  assert (Hn : zlen c = 16 * Z.of_nat n).
  { unfold n; rewrite Hc, Z2Nat.id by (apply Z.div_pos; pose proof (zlen_nonneg plain); lia).
    pose proof (Z.div_mod (zlen plain) 16); lia. }
  assert (Hcb : bytes_ok c) by (apply chain_ok; [repeat constructor; done|done]).
  destruct (encrypt_blocks_ok (blob_key deviceId username) n c Hn Hcb) as (Hel & Heb & Hd).
  unfold ConnectBlob, seal_inner; fold n c.
  destruct (b64_ok (encrypt_blocks n (blob_key deviceId username) c) Heb) as (_ & -> & _).
  rewrite Hd by (unfold zlen in Hel; lia); cbn [mbind run_bind].
  rewrite Hc; unfold c; rewrite xor_chain; cbn [mbind run_bind].
  unfold plain; rewrite parse_blob_ok by done; done.
Qed.

(** ** The outer layer *)
Definition base_key (secret : list Z) : list Z := takeZ 16 (sha1_Sum secret).
Definition checksum_key (secret : list Z) : list Z := hmac_Sum (base_key secret) (ascii_bytes "checksum").
Definition encryption_key (secret : list Z) : list Z := takeZ 16 (hmac_Sum (base_key secret) (ascii_bytes "encryption")).

Definition seal_outer (phone : DiffieHellman) (deviceKey iv username deviceName inner : list Z) : form :=
  let secret := sharedSecret (Exchange phone deviceKey) in
  let enc := XORKeyStream (aes_Encrypt (encryption_key secret)) iv 0 inner in
  MkForm username (b64_Encode (iv ++ enc ++ hmac_Sum (checksum_key secret) enc)) (b64_Encode (PublicKeyBytes phone)) deviceName.

Lemma XORKeyStream_twice (cipher : list Z -> list Z) iv src : forall used,
  XORKeyStream cipher iv used (XORKeyStream cipher iv used src) = src.
Proof.
  induction src as [|b src IH]; intros used; simpl; [done|].
  by rewrite IH, Z.lxor_assoc, Z.lxor_nilpotent, Z.lxor_0_r.
Qed.

Lemma XORKeyStream_ok key iv src : bytes_ok src -> forall used, bytes_ok (XORKeyStream (aes_Encrypt key) iv used src).
Proof.
  intros Hs; induction Hs as [|b src Hb Hs IH]; intros used; simpl; constructor; [|apply IH].
  apply lxor_byte; [done|]; unfold keystream.
  set (blk := be_bytes _ _).
  destruct (aes_ok key blk) as (_ & Hok & _); [apply (zlen_be_bytes 16); lia|apply (be_bytes_ok 16); lia|].
  destruct (nthZ _ _) as [x|] eqn:Hx; [|by split].
  apply nthZ_In in Hx; unfold bytes_ok in Hok; rewrite Forall_forall in Hok; by apply Hok.
Qed.

Lemma unwrap_ok phone dev iv username deviceName inner :
  keypair phone -> keypair dev -> zlen iv = 16 -> bytes_ok iv -> bytes_ok inner -> inner <> [] ->
  username <> [] -> deviceName <> [] ->
  (unwrap dev (seal_outer phone (PublicKeyBytes dev) iv username deviceName inner)).2 = Unwrapped inner.
Proof.
  intros Hph Hdev Hiv Hivb Hin Hne Hu Hd.
  set (secret := sharedSecret (Exchange phone (PublicKeyBytes dev))).
  set (enc := XORKeyStream (aes_Encrypt (encryption_key secret)) iv 0 inner).
  set (mac := hmac_Sum (checksum_key secret) enc).
  assert (Hencb : bytes_ok enc) by (by apply XORKeyStream_ok).
  destruct (hmac_ok (checksum_key secret) enc) as [Hml Hmb]; fold mac in Hml, Hmb.
  assert (Hlen : zlen enc = zlen inner) by apply zlen_XORKeyStream.
  assert (Hin0 : zlen inner <> 0) by (intros Hz; by apply zlen_0 in Hz).
  pose proof (zlen_nonneg inner).
  destruct (b64_ok (iv ++ enc ++ mac)) as (_ & Hdec & Hnil); [rewrite !bytes_ok_app; done|].
  destruct (b64_ok (PublicKeyBytes phone) (big_Bytes_ok _)) as (_ & Hdec2 & Hnil2).
  unfold unwrap, seal_outer; cbn [fm_userName fm_blob fm_clientKey fm_deviceName]; fold secret enc mac.
  rewrite (decide_False (P := username = [])) by done.
  rewrite decide_False by (intros Hb; apply Hnil in Hb; apply (f_equal zlen) in Hb; rewrite zlen_app, Hiv, zlen_app, zlen_nil in Hb; lia).
  rewrite decide_False by (intros Hb; apply Hnil2 in Hb; by apply (public_nonzero phone)).
  rewrite (decide_False (P := deviceName = [])), Hdec, Hdec2 by done.
  rewrite !zlen_app, Hiv, Hlen, Hml, decide_False by lia.
  replace (16 + (zlen inner + 20) - 20) with (16 + zlen inner) by lia.
  rewrite (dh_agree dev phone) by done; fold secret.
  assert (sliceZ 16 (16 + zlen inner) (iv ++ enc ++ mac) = enc) as ->.
  { unfold sliceZ; rewrite dropZ_app_le, dropZ_all by lia; cbn [app].
    rewrite takeZ_app_le, takeZ_all by lia; done. }
  assert (dropZ (16 + zlen inner) (iv ++ enc ++ mac) = mac) as ->.
  { rewrite app_assoc, dropZ_app_le, dropZ_all by (rewrite zlen_app; lia); done. }
  rewrite (takeZ_app_le 16 iv), (takeZ_all 16 iv) by lia.
  fold (base_key secret); fold (checksum_key secret) (encryption_key secret); fold mac.
  rewrite decide_False by auto; cbn [snd]; unfold enc; by rewrite XORKeyStream_twice.
Qed.

Lemma seal_inner_ok deviceId username plain : bytes_ok plain -> plain <> [] -> zlen plain `mod` 16 = 0 ->
  bytes_ok (seal_inner deviceId username plain) /\ seal_inner deviceId username plain <> [].
Proof.
  intros Hb Hne Hm; set (c := chain (replicate 16 0) plain); set (n := Z.to_nat (zlen plain / 16)).
  assert (Hc : zlen c = zlen plain) by (by apply zlen_chain).
  assert (Hz : zlen plain <> 0) by (intros Hz; by apply zlen_0 in Hz).
  assert (Hn : zlen c = 16 * Z.of_nat n).
  { unfold n; rewrite Hc, Z2Nat.id by (apply Z.div_pos; pose proof (zlen_nonneg plain); lia).
    pose proof (Z.div_mod (zlen plain) 16); lia. }
  assert (Hcb : bytes_ok c) by (apply chain_ok; [repeat constructor; done|done]).
  destruct (encrypt_blocks_ok (blob_key deviceId username) n c Hn Hcb) as (Hel & Heb & Hd).
  destruct (b64_ok _ Heb) as (Hok & _ & Hnil); unfold seal_inner; fold c n; split; [done|].
  intros He; apply Hnil in He; rewrite He, zlen_nil in Hel; lia.
Qed.
End seal.

(** C18: A phone that knows the device's public key and seals the user's credentials
    for it, in both layers, logs the device in with them: the request passes the
    checks of [handleAddUser], and the blob handed on decrypts to the type and
    the data of the credentials. *)
Theorem zeroconf_credentials_roundtrip `{Crypto} (b64_Encode : list Z -> list Z) `{!CryptoLaws b64_Encode}
    (phone dev : DiffieHellman) (deviceId iv username deviceName : list Z)
    (x0 x1 x2 : Z) (skip : list Z) (typ : Z) (data pad : list Z) :
  let plain := blob_plain x0 x1 x2 skip typ data pad in
  let inner := seal_inner b64_Encode deviceId username plain in
  keypair phone -> keypair dev -> zlen iv = 16 -> bytes_ok iv -> username <> [] -> deviceName <> [] ->
  0 <= typ < 2 ^ 31 -> zlen plain < 2 ^ 63 -> zlen data <= makeslice_max -> bytes_ok plain -> zlen plain `mod` 16 = 0 ->
  exists authBlob,
    (unwrap dev (seal_outer b64_Encode phone (PublicKeyBytes dev) iv username deviceName inner)).2 = Unwrapped authBlob /\
    ConnectBlob deviceId username authBlob = Ret (Ok (MkCredentials (Some typ) (Some username) data)).
Proof.
  intros plain inner Hp Hd Hiv Hivb Hu Hdn Ht Hl Hm Hb Hmod.
  destruct (seal_inner_ok b64_Encode deviceId username plain Hb ltac:(done) Hmod) as [Hok Hne].
  exists inner; split; [by apply unwrap_ok|by apply ConnectBlob_ok].
Qed.

(** A toy of the cryptographic functions that keeps their laws. *)
#[local] Instance toy_crypto : Crypto := {|
  sha1_Sum m := be_bytes 20 (foldr Z.add 0 m);
  hmac_Sum k m := be_bytes 20 (foldr Z.add 0 k + 7 * foldr Z.add 0 m);
  pbkdf2_Key p s := p ++ s;
  aes_Encrypt k b := reverse b;
  aes_Decrypt k b := reverse b;
  b64_Decode m := Ok m;
  makeslice_max := 2 ^ 47
|}.

#[local] Instance toy_crypto_laws : CryptoLaws id.
Proof.
  split; simpl.
  - intros m; split; [apply zlen_be_bytes|apply be_bytes_ok]; lia.
  - intros k m; split; [apply zlen_be_bytes|apply be_bytes_ok]; lia.
  - intros k b Hl Hb; rewrite zlen_reverse, reverse_involutive; split_and!; [done|by apply Forall_reverse|done].
  - done.
Qed.

Definition demo_dh (k : Z) : DiffieHellman := MkDH k (big_Exp dhGenerator k dhPrime) [].

Lemma zeroconf_credentials_roundtrip_witness :
  exists authBlob,
    (unwrap (demo_dh 5) (seal_outer id (demo_dh 3) (PublicKeyBytes (demo_dh 5)) (replicate 16 9) [97] [98]
       (seal_inner id [1; 2] [97] (blob_plain 1 2 3 [7; 7] 1 [42; 43; 44] (replicate 5 0))))).2 = Unwrapped authBlob /\
    ConnectBlob [1; 2] [97] authBlob = Ret (Ok (MkCredentials (Some 1) (Some [97]) [42; 43; 44])).
Proof.
  apply (zeroconf_credentials_roundtrip id (demo_dh 3) (demo_dh 5)); try (vm_compute; done);
    repeat constructor; by vm_compute.
Defined.

Lemma decrypt_loop_torn `{Crypto} key fuel : forall src, (length src < fuel)%nat -> 2 <= zlen src `mod` 16 ->
  decrypt_loop fuel key src = Panic "crypto/aes: input not full block".
Proof.
  induction fuel as [|fuel IH]; intros src Hf Hm; [lia|]; cbn [decrypt_loop].
  pose proof (zlen_nonneg src); pose proof (Z.mod_le (zlen src) 16 ltac:(lia) ltac:(lia)).
  rewrite decide_False by lia; case_decide as Hb; [done|]; unfold BlockSize in *.
  rewrite IH; [done|unfold dropZ; rewrite length_drop; unfold zlen in *; lia|].
  rewrite zlen_dropZ; replace (zlen src - Z.max 0 (Z.min 16 (zlen src))) with (zlen src + (-1) * 16) by lia.
  by rewrite Z.mod_add by lia.
Qed.

(** An inner blob that is no whole number of blocks, but for one byte, crashes
    the program; nothing checks its length on the way. *)
Theorem torn_blob_crashes `{Crypto} (deviceId username blob64 blob : list Z) :
  b64_Decode blob64 = Ok blob -> 2 <= zlen blob `mod` 16 ->
  ConnectBlob deviceId username blob64 = Panic "crypto/aes: input not full block".
Proof. intros Hd Hm; unfold ConnectBlob; rewrite Hd; rewrite decrypt_loop_torn by (done || lia); done. Qed.

Lemma torn_blob_crashes_witness : ConnectBlob [1] [97] [1; 2; 3] = Panic "crypto/aes: input not full block".
Proof. apply (torn_blob_crashes [1] [97] [1; 2; 3] [1; 2; 3]); by vm_compute. Defined.
