(* ===== verification/Accesspoint.v ===== *)
(** * The accesspoint ([src/ap/ap.go], [src/ap/accumulator.go])

    Connecting: the key exchange, the challenge, the login and their repetition.
    The network, random bytes, the marshalling of messages and the check of the
    server's signature are parameters. *)

From S2P Require Import Prelude Conn Service Blob.
#[local] Open Scope string_scope.
#[local] Open Scope list_scope.
#[local] Open Scope Z_scope.

Definition PacketTypeLogin : Z := 0xab.
Definition PacketTypeAPWelcome : Z := 0xac.
Definition PacketTypeAuthFailure : Z := 0xad.

(** ** Messages

    [ar_challenge] is the key and its signature, when nothing on the way to them
    is missing. *)
Record APResponseMessage := MkAPResponse { ar_challenge : option (list Z * list Z); ar_loginFailed : option Z }.
Record APWelcome := MkWelcome {
  CanonicalUsername : option (list Z); ReusableAuthCredentialsType : option Z; ReusableAuthCredentials : list Z
}.

Class ApMessages := {
  hello_message : list Z -> list Z -> list Z;
  response_message : list Z -> list Z;
  login_message : LoginCredentials -> result (list Z);
  parse_response : list Z -> result APResponseMessage;
  parse_welcome : list Z -> result APWelcome;
  parse_failed : list Z -> result Z;
  verifySignature : list Z -> list Z -> bool
}.

(** ** Connections

    What the peer will send and what was sent to it, and how writes end. *)
Record netConn := MkNetConn { nc_id : nat; nc_in : list Z; nc_out : list Z; nc_writes : nat; nc_fail : nat -> option error }.

Definition nc_Write (data : list Z) (c : netConn) : netConn * option error :=
  match nc_fail c (nc_writes c) with
  | Some e => (MkNetConn (nc_id c) (nc_in c) (nc_out c) (S (nc_writes c)) (nc_fail c), Some e)
  | None => (MkNetConn (nc_id c) (nc_in c) (nc_out c ++ data) (S (nc_writes c)) (nc_fail c), None)
  end.

Definition set_in (wire : list Z) (c : netConn) : netConn :=
  MkNetConn (nc_id c) wire (nc_out c) (nc_writes c) (nc_fail c).

Definition AccesspointLoginError (code : option Z) : error :=
  EWrap "accesspoint login failed" (EMsg (match code with Some _ => "with a code" | None => "without a message" end)).

Section accesspoint.
Context {C : Type} `{Shannon C} `{Crypto} `{ApMessages} `{Retry}.
(** The [n]-th dial, and the random bytes of the [n]-th attempt. *)
Context (dial : nat -> result netConn) (rand_nonce rand_key : nat -> result (list Z)).

Record Accesspoint := MkAp {
  a_nonce : list Z;
  a_dh : DiffieHellman;
  a_conn : option netConn;
  a_encConn : option (sender C * receiver C);
  a_welcome : option APWelcome;
  a_inits : nat;
  a_dials : nat;
  a_closed : list nat
}.
Implicit Types (a : Accesspoint).

Definition set_keys (nonce : list Z) (dh : DiffieHellman) a : Accesspoint :=
  MkAp nonce dh (a_conn a) (a_encConn a) (a_welcome a) (a_inits a) (a_dials a) (a_closed a).
Definition set_conn (c : netConn) a : Accesspoint :=
  MkAp (a_nonce a) (a_dh a) (Some c) (a_encConn a) (a_welcome a) (a_inits a) (a_dials a) (a_closed a).
Definition set_encConn (e : sender C * receiver C) a : Accesspoint :=
  MkAp (a_nonce a) (a_dh a) (a_conn a) (Some e) (a_welcome a) (a_inits a) (a_dials a) (a_closed a).
Definition set_welcome (w : APWelcome) a : Accesspoint :=
  MkAp (a_nonce a) (a_dh a) (a_conn a) (a_encConn a) (Some w) (a_inits a) (a_dials a) (a_closed a).
Definition count_init a : Accesspoint :=
  MkAp (a_nonce a) (a_dh a) (a_conn a) (a_encConn a) (a_welcome a) (S (a_inits a)) (a_dials a) (a_closed a).
Definition count_dial a : Accesspoint :=
  MkAp (a_nonce a) (a_dh a) (a_conn a) (a_encConn a) (a_welcome a) (a_inits a) (S (a_dials a)) (a_closed a).
Definition close_previous a : Accesspoint :=
  MkAp (a_nonce a) (a_dh a) (a_conn a) (a_encConn a) (a_welcome a) (a_inits a) (a_dials a)
    (a_closed a ++ match a_conn a with Some c => [nc_id c] | None => [] end).

(** [more] attempts may follow this one. *)
Fixpoint dial_loop (more : nat) a : Accesspoint * option error :=
  let r := dial (a_dials a) in
  let a := count_dial a in
  match r with
  | Ok conn => (set_conn conn (close_previous a), None)
  | Err e =>
    match more with
    | O => (a, Some (EWrap "failed to connect to AP" e))
    | S more => dial_loop more a
    end
  end.

Definition init a : Accesspoint * option error :=
  let n := a_inits a in
  let a := count_init a in
  match rand_nonce n with
  | Err e => (a, Some (EWrap "failed reading random nonce" e))
  | Ok nonce =>
    match NewDiffieHellman (rand_key n) with
    | Err e => (a, Some (EWrap "failed initializing diffiehellman" e))
    | Ok dh => dial_loop 5 (set_keys nonce dh a)
    end
  end.

(** ** The key exchange: what was transferred is accumulated. *)
Definition performKeyExchange (c : netConn) a : run (Accesspoint * result (list Z)) :=
  let hello := Conn.writeMessage true (hello_message (a_nonce a) (PublicKeyBytes (a_dh a))) in
  let '(c, err) := nc_Write hello c in
  match err with
  | Some e => Ret (set_conn c a, Err (EWrap "failed writing ClientHello message" e))
  | None =>
    let m := readMessage (-1) (nc_in c) in
    let read := takeZ (zlen (nc_in c) - zlen (rm_rest m)) (nc_in c) in
    let c := set_in (rm_rest m) c in
    let a := set_conn c a in
    match rm_body m with
    | Err e => Ret (a, Err (EWrap "failed reading APResponseMessage message" e))
    | Ok body =>
      match parse_response body with
      | Err e => Ret (a, Err (EWrap "failed reading APResponseMessage message" e))
      | Ok resp =>
        match ar_challenge resp with
        | None => Panic "nil pointer dereference"
        | Some (gs, signature) =>
          if negb (verifySignature gs signature) then Ret (a, Err (EMsg "failed verifying signature"))
          else Ret (set_keys (a_nonce a) (Exchange (a_dh a) gs) a, Ok (hello ++ read))
        end
      end
    end
  end.

(** ** The challenge *)
Definition mac_data (secret exchangeData : list Z) : list Z :=
  [1; 2; 3; 4; 5] ≫= fun i => hmac_Sum secret (exchangeData ++ [i]).

Definition challenge_hmac (secret exchangeData : list Z) : list Z :=
  hmac_Sum (takeZ 20 (mac_data secret exchangeData)) exchangeData.
Definition send_key (secret exchangeData : list Z) : list Z := sliceZ 20 52 (mac_data secret exchangeData).
Definition recv_key (secret exchangeData : list Z) : list Z := sliceZ 52 84 (mac_data secret exchangeData).

Definition solveChallenge (c : netConn) (exchangeData : list Z) a : Accesspoint * option error :=
  let secret := SharedSecretBytes (a_dh a) in
  let '(c, err) := nc_Write (Conn.writeMessage false (response_message (challenge_hmac secret exchangeData))) c in
  let a := set_conn c a in
  match err with
  | Some e => (a, Some (EWrap "failed writing ClientResponsePlaintext message" e))
  | None =>
    (set_encConn (newSender (send_key secret exchangeData), newReceiver (recv_key secret exchangeData) (nc_in c)) a, None)
  end.

(** ** The login *)
Definition login_response (r : Z * list Z) a : run (Accesspoint * option error) :=
  let '(recvPkt, recvPayload) := r in
  if decide (recvPkt = PacketTypeAPWelcome) then
    match parse_welcome recvPayload with
    | Err e => Ret (a, Some (EWrap "failed unmarshalling APWelcome message" e))
    | Ok welcome =>
      match CanonicalUsername welcome with
      | None => Panic "nil pointer dereference"
      | Some _ => Ret (set_welcome welcome a, None)
      end
    end
  else if decide (recvPkt = PacketTypeAuthFailure) then
    match parse_failed recvPayload with
    | Err e => Ret (a, Some (EWrap "failed unmarshalling APLoginFailed message" e))
    | Ok code => Ret (a, Some (AccesspointLoginError (Some code)))
    end
  else Ret (a, Some (EMsg "unexpected command after Login packet")).

Definition authenticate (c : netConn) (credentials : LoginCredentials) a : run (Accesspoint * option error) :=
  match a_encConn a with
  | None => Panic "accesspoint not connected"
  | Some (s, r) =>
    match login_message credentials with
    | Err e => Ret (a, Some (EWrap "failed marshalling ClientResponseEncrypted message" e))
    | Ok payload =>
      let '(s, sent) := sendPacket s PacketTypeLogin payload in
      let a := set_encConn (s, r) a in
      match sent with
      | Err e => Ret (a, Some (EWrap "failed sending Login packet" e))
      | Ok data =>
        let '(c, err) := nc_Write data c in
        let a := set_conn c a in
        match err with
        | Some e => Ret (a, Some (EWrap "failed sending Login packet" e))
        | None =>
          '(r, peeked) ← peekUnencrypted r 9;
          let a := set_encConn (s, r) a in
          match peeked with
          | Err e => Ret (a, Some (EWrap "failed peeking unencrypted bytes" e))
          | Ok peekBytes =>
            let refused :=
              match rm_body (readMessage 9 peekBytes) with
              | Ok body => match parse_response body with Ok resp => Some (ar_loginFailed resp) | Err _ => None end
              | Err _ => None
              end in
            match refused with
            | Some failed => Ret (a, Some (AccesspointLoginError failed))
            | None =>
              let '(r, got) := receivePacket r in
              let a := set_encConn (s, r) a in
              match got with
              | Err e => Ret (a, Some (EWrap "failed recevining Login response packet" e))
              | Ok pkt => login_response pkt a
              end
            end
          end
        end
      end
    end
  end.

Definition connect (creds : LoginCredentials) a : run (Accesspoint * option error) :=
  let '(a, err) := init a in
  match err, a_conn a with
  | Some e, _ => Ret (a, Some e)
  | None, None => Panic "nil pointer dereference"
  | None, Some c =>
    '(a, exchanged) ← performKeyExchange c a;
    match exchanged, a_conn a with
    | Err e, _ => Ret (a, Some (EWrap "failed performing keyexchange" e))
    | Ok _, None => Panic "nil pointer dereference"
    | Ok exchangeData, Some c =>
      let '(a, err) := solveChallenge c exchangeData a in
      match err, a_conn a with
      | Some e, _ => Ret (a, Some (EWrap "failed solving challenge" e))
      | None, None => Panic "nil pointer dereference"
      | None, Some c =>
        '(a, err) ← authenticate c creds a;
        Ret (a, option_map (EWrap "failed authenticating") err)
      end
    end
  end.

(** Every failure is worth another attempt. *)
Definition connect_attempt (creds : LoginCredentials) a : run (Accesspoint * attempt unit) :=
  '(a, err) ← connect creds a;
  Ret (a, match err with None => Done tt | Some e => Transient (SErr e) end).

Definition ErrAccesspointClosed : error := ESentinel "accesspoint closed".

Definition Connect (done : bool) (creds : LoginCredentials) a : run (Accesspoint * sresult unit) :=
  if done then Ret (a, SFail (SErr ErrAccesspointClosed))
  else RetryWithData (Some 5%nat) (connect_attempt creds) a.

Definition ConnectSpotifyToken (done : bool) (username token : list Z) : Accesspoint -> run (Accesspoint * sresult unit) :=
  Connect done (MkCredentials (Some 3) (if decide (username = []) then None else Some username) token).

Definition ConnectStored (done : bool) (username data : list Z) : Accesspoint -> run (Accesspoint * sresult unit) :=
  Connect done (MkCredentials (Some 1) (Some username) data).

(** [reconnect], up to the new receive loop. *)
Definition reconnect_attempt a : run (Accesspoint * attempt unit) :=
  match a_welcome a with
  | None => Ret (a, Permanent (SErr (EMsg "cannot reconnect without APWelcome")))
  | Some w =>
    connect_attempt (MkCredentials (ReusableAuthCredentialsType w) (CanonicalUsername w) (ReusableAuthCredentials w)) a
  end.

Definition reconnect a : run (Accesspoint * sresult unit) := RetryWithData None reconnect_attempt a.

Definition Username a : run (list Z) :=
  match a_welcome a with
  | None => Panic "accesspoint not authenticated"
  | Some w => match CanonicalUsername w with Some u => Ret u | None => Panic "nil pointer dereference" end
  end.

Definition StoredCredentials a : run (list Z) :=
  match a_welcome a with
  | None => Panic "accesspoint not authenticated"
  | Some w => Ret (ReusableAuthCredentials w)
  end.
End accesspoint.
Arguments Accesspoint : clear implicits.
