(* ===== verification/AccesspointClaims.v ===== *)
(** * The accesspoint: theorems

    With an honest server the two ends agree on their keys and the login goes
    through; a connection is attempted a bounded number of times. *)

From S2P Require Import Prelude Conn Service ServiceClaims Blob BlobClaims Accesspoint.
#[local] Open Scope string_scope.
#[local] Open Scope list_scope.
#[local] Open Scope Z_scope.

Section handshake.
Context {C : Type} `{Shannon C} (sh_sync : C -> C -> Prop) (sh_same : list Z -> C -> Prop).
Context `{!ShannonLaws C sh_sync sh_same} `{Crypto} `{ApMessages} `{Retry}.
Context (dial : nat -> result netConn) (rand_nonce rand_key : nat -> result (list Z)).

(** An honest server: its key pair, the signed challenge it answers with, and
    the welcome it sends. *)
Record server := MkServer {
  sv_dh : DiffieHellman; sv_response : list Z; sv_signature : list Z; sv_welcome : list Z; sv_parsed : APWelcome
}.

Record honest (sv : server) : Prop := {
  hs_dh : keypair (sv_dh sv);
  hs_len : zlen (sv_response sv) < 2 ^ 32 - 4;
  hs_parse : exists failed,
    parse_response (sv_response sv) = Ok (MkAPResponse (Some (PublicKeyBytes (sv_dh sv), sv_signature sv)) failed);
  hs_verify : verifySignature (PublicKeyBytes (sv_dh sv)) (sv_signature sv) = true;
  hs_welcome : zlen (sv_welcome sv) <= 65535;
  hs_parsed : parse_welcome (sv_welcome sv) = Ok (sv_parsed sv);
  hs_user : CanonicalUsername (sv_parsed sv) <> None
}.

(** What both sides saw go over the connection, and the server's secret. *)
Definition hello_bytes (nonce : list Z) (client : DiffieHellman) : list Z :=
  Conn.writeMessage true (hello_message nonce (PublicKeyBytes client)).
Definition reply_bytes (sv : server) : list Z := Conn.writeMessage false (sv_response sv).
Definition transcript (nonce : list Z) (client : DiffieHellman) (sv : server) : list Z :=
  hello_bytes nonce client ++ reply_bytes sv.
Definition server_secret (client : DiffieHellman) (sv : server) : list Z :=
  sharedSecret (Exchange (sv_dh sv) (PublicKeyBytes client)).

(** The server's ends of the two encrypted directions. *)
Definition server_sender nonce client sv : sender C := newSender (recv_key (server_secret client sv) (transcript nonce client sv)).
Definition server_receiver nonce client sv (wire : list Z) : receiver C :=
  newReceiver (send_key (server_secret client sv) (transcript nonce client sv)) wire.

Definition working (c : netConn) : Prop := nc_out c = [] /\ nc_fail c = fun _ => None.

Lemma exchange_ok nonce client sv c rest (a : Accesspoint C) :
  honest sv -> keypair client -> working c -> nc_in c = reply_bytes sv ++ rest ->
  a_nonce a = nonce -> a_dh a = client ->
  exists c' a', performKeyExchange c a = Ret (a', Ok (transcript nonce client sv)) /\
    a_conn a' = Some c' /\ nc_in c' = rest /\ nc_out c' = hello_bytes nonce client /\ nc_fail c' = (fun _ => None) /\
    SharedSecretBytes (a_dh a') = server_secret client sv.
Proof.
  intros [Hdh Hlen [failed Hpr] Hver _ _ _] Hcl [Hout Hfail] Hin Hn Hd.
  unfold performKeyExchange, nc_Write; rewrite Hfail, Hn, Hd; fold (hello_bytes nonce client); cbn [nc_in].
  assert (Hm : readMessage (-1) (reply_bytes sv ++ rest) = MkReadMessage rest (Ok (sv_response sv)) (zlen (sv_response sv)))
    by (apply message_roundtrip; lia).
  rewrite Hin, Hm; cbn [rm_rest rm_body]; rewrite Hpr; cbn [ar_challenge]; rewrite Hver; cbn [negb].
  rewrite zlen_app; replace (zlen (reply_bytes sv) + zlen rest - zlen rest) with (zlen (reply_bytes sv)) by lia.
  rewrite (takeZ_app_le _ (reply_bytes sv) rest), (takeZ_all _ (reply_bytes sv)) by lia.
  eexists _, _; split; [reflexivity|]; cbn [a_conn set_keys set_conn set_in nc_in nc_out nc_fail a_dh SharedSecretBytes].
  rewrite Hout; split_and!; try done.
  rewrite Hd; unfold server_secret; by apply dh_agree.
Qed.

(** The login, once both sides hold the keys. *)
Lemma authenticate_ok nonce client sv creds payload c (a : Accesspoint C) ss wbytes rest s r :
  honest sv -> login_message creds = Ok payload -> zlen payload <= 65535 ->
  let ks := send_key (server_secret client sv) (transcript nonce client sv) in
  let kr := recv_key (server_secret client sv) (transcript nonce client sv) in
  sendPacket (server_sender nonce client sv) PacketTypeAPWelcome (sv_welcome sv) = (ss, Ok wbytes) ->
  9 <= zlen wbytes -> 9 < be_val (takeZ 4 wbytes) ->
  nc_fail c = (fun _ => None) -> a_encConn a = Some (s, r) -> s = newSender ks -> r = newReceiver kr (wbytes ++ rest) ->
  exists a' c' s' r' login,
    authenticate c creds a = Ret (a', None) /\ a_welcome a' = Some (sv_parsed sv) /\ a_encConn a' = Some (s', r') /\
    a_conn a' = Some c' /\ nc_out c' = nc_out c ++ login /\ unreadBytes r' ++ wire r' = rest /\ paired sh_same kr ss r' /\
    exists rs, receivePacket (server_receiver nonce client sv login) = (rs, Ok (PacketTypeLogin, payload)) /\
      paired sh_same ks s' rs.
Proof.
  intros [_ _ _ _ Hwl Hparsed Huser] Hlogin Hpl ks kr Hss Hw9 Hw4 Hfail Henc -> ->.
  destruct (packet_roundtrip sh_sync sh_same ks (newSender ks) (newReceiver ks []) PacketTypeLogin payload [])
    as (s' & login & Hsend & _); [split_and!; [apply sh_New_same..|done]|unfold PacketTypeLogin; lia|done|].
  destruct (packet_roundtrip sh_sync sh_same ks (newSender ks) (server_receiver nonce client sv login) PacketTypeLogin payload [])
    as (s2 & login2 & Hsend2 & Hrecv); [split_and!; [apply sh_New_same..|done]|unfold PacketTypeLogin; lia|done|].
  rewrite Hsend in Hsend2; injection Hsend2 as <- <-.
  destruct (Hrecv ltac:(simpl; by rewrite app_nil_r)) as (rs & Hrs & _ & Hps).
  pose (r1 := MkReceiver (sh_New kr) 0 (takeZ 9 wbytes) (dropZ 9 (wbytes ++ rest)) : receiver C).
  destruct (packet_roundtrip sh_sync sh_same kr (server_sender nonce client sv) r1 PacketTypeAPWelcome (sv_welcome sv) rest)
    as (ss' & wb' & Hsend3 & Hrecv3); [split_and!; [apply sh_New_same..|done]|unfold PacketTypeAPWelcome; lia|done|].
  rewrite Hss in Hsend3; injection Hsend3 as <- <-.
  destruct Hrecv3 as (r' & Hr' & Hrest & Hpr).
  { unfold r1; cbn [unreadBytes wire]; rewrite dropZ_app_le by lia; by rewrite app_assoc, takeZ_dropZ. }
  unfold authenticate; rewrite Henc, Hlogin, Hsend; unfold nc_Write; rewrite Hfail.
  unfold peekUnencrypted; cbn [unreadBytes newReceiver wire].
  rewrite decide_False by (unfold zlen; simpl; lia).
  unfold ReadFull; rewrite decide_False by (rewrite zlen_app; pose proof (zlen_nonneg rest); lia); cbn [mbind run_bind].
  rewrite takeZ_app_le by lia.
  assert (Href : rm_body (readMessage 9 (takeZ 9 wbytes)) = Err (EMsg "message too long")).
  { unfold readMessage, ReadFull; rewrite decide_False by (rewrite zlen_takeZ; lia).
    rewrite takeZ_takeZ by lia; change (Z.min 4 9) with 4.
    rewrite bool_decide_eq_true_2 by lia; rewrite bool_decide_eq_true_2; [done|].
    unfold u32; rewrite wrap_small by lia; done. }
  rewrite Href; cbn [recvCipher recvNonce newReceiver]; change (MkReceiver (sh_New kr) 0 (takeZ 9 wbytes) (dropZ 9 (wbytes ++ rest))) with r1.
  rewrite Hr'; unfold login_response; rewrite decide_True by done; rewrite Hparsed.
  destruct (CanonicalUsername (sv_parsed sv)) as [u|] eqn:Hu; [|done].
  eexists _, _, s', r', login; split; [reflexivity|]; cbn [a_welcome a_encConn a_conn set_welcome set_encConn set_conn nc_out].
  split_and!; try done; by exists rs.
Qed.

Definition client_of (random : list Z) : DiffieHellman := MkDH (be_val random) (big_Exp dhGenerator (be_val random) dhPrime) [].
Definition challenge_bytes nonce client sv : list Z :=
  Conn.writeMessage false (response_message (challenge_hmac (server_secret client sv) (transcript nonce client sv))).

Lemma connect_ok (a : Accesspoint C) sv creds payload nonce rk c ss wbytes rest :
  let client := client_of rk in
  honest sv -> login_message creds = Ok payload -> zlen payload <= 65535 ->
  rand_nonce (a_inits a) = Ok nonce -> rand_key (a_inits a) = Ok rk -> bytes_ok rk ->
  dial (a_dials a) = Ok c -> working c -> nc_in c = reply_bytes sv ++ wbytes ++ rest ->
  sendPacket (server_sender nonce client sv) PacketTypeAPWelcome (sv_welcome sv) = (ss, Ok wbytes) ->
  9 <= zlen wbytes -> 9 < be_val (takeZ 4 wbytes) ->
  exists a' c' s' r' login,
    connect dial rand_nonce rand_key creds a = Ret (a', None) /\ a_welcome a' = Some (sv_parsed sv) /\
    a_encConn a' = Some (s', r') /\ a_conn a' = Some c' /\
    nc_out c' = hello_bytes nonce client ++ challenge_bytes nonce client sv ++ login /\
    unreadBytes r' ++ wire r' = rest /\
    paired sh_same (recv_key (server_secret client sv) (transcript nonce client sv)) ss r' /\
    exists rs, receivePacket (server_receiver nonce client sv login) = (rs, Ok (PacketTypeLogin, payload)) /\
      paired sh_same (send_key (server_secret client sv) (transcript nonce client sv)) s' rs.
Proof.
  intros client Hsv Hlogin Hpl Hn Hk Hrk Hdial Hwork Hin Hss H9 H4.
  assert (Hcl : keypair client) by (apply (keypair_New rk); done).
  unfold connect, init; rewrite Hn, Hk; cbn [NewDiffieHellman]; fold (client_of rk); fold client.
  cbn [dial_loop]; cbn [a_dials set_keys count_init]; rewrite Hdial; cbn [a_conn set_conn].
  set (a1 := set_conn c _).
  destruct (exchange_ok nonce client sv c (wbytes ++ rest) a1) as (c1 & a2 & -> & Hc1 & Hin1 & Hout1 & Hf1 & Hsec);
    [done|done|done|done|done|done|].
  cbn [mbind run_bind]; rewrite Hc1; unfold solveChallenge, nc_Write; rewrite Hf1, Hsec.
  fold (challenge_bytes nonce client sv).
  cbn [nc_in a_conn set_encConn set_conn]; rewrite Hin1.
  match goal with |- context [authenticate ?c2 creds _] => set (cc := c2) end.
  match goal with |- context [authenticate _ creds ?a3] => set (aa := a3) end.
  destruct (authenticate_ok nonce client sv creds payload cc aa ss wbytes rest
    (newSender (send_key (server_secret client sv) (transcript nonce client sv)))
    (newReceiver (recv_key (server_secret client sv) (transcript nonce client sv)) (wbytes ++ rest)))
    as (a' & c' & s' & r' & login & -> & Hw & He & Hc & Hout & Hrest & Hp & Hrs); try done.
  cbn [mbind run_bind option_map].
  exists a', c', s', r', login; split_and!; try done.
  rewrite Hout; unfold cc; cbn [nc_out]; by rewrite Hout1, <- app_assoc.
Qed.
End handshake.


(** A server and messages for which this can be run. *)
#[local] Instance demo_messages : ApMessages := {|
  hello_message n g := n ++ g;
  response_message m := m;
  login_message c := Ok (lc_AuthData c);
  parse_response b :=
    match b with 0 :: gs => Ok (MkAPResponse (Some (gs, [])) None) | _ => Err (EMsg "invalid") end;
  parse_welcome b := Ok (MkWelcome (Some b) (Some 1) b);
  parse_failed b := Ok 0;
  verifySignature _ _ := true
|}.
#[local] Existing Instance toy_crypto.

Definition demo_server : server :=
  MkServer (demo_dh 5) (0 :: PublicKeyBytes (demo_dh 5)) [] [1; 2; 3] (MkWelcome (Some [1; 2; 3]) (Some 1) [1; 2; 3]).

Definition demo_welcome : sender toy * result (list Z) :=
  sendPacket (server_sender [7] (client_of [3]) demo_server) PacketTypeAPWelcome [1; 2; 3].
Definition demo_wbytes : list Z := match demo_welcome with (_, Ok b) => b | _ => [] end.

Definition demo_conn : netConn := MkNetConn 0 (reply_bytes demo_server ++ demo_wbytes ++ [9]) [] 0 (fun _ => None).
Definition demo_ap : Accesspoint toy := MkAp [] (MkDH 0 0 []) None None None 0 0 [].
Definition demo_creds : LoginCredentials := MkCredentials (Some 1) (Some [97]) [42; 43].


(** ** How often a connection is tried *)
Section dials.
Context {C : Type} `{Shannon C} `{Crypto} `{ApMessages} `{RetryLaws}.
Context (dial : nat -> result netConn) (rand_nonce rand_key : nat -> result (list Z)).
Implicit Types (a : Accesspoint C).

Lemma dial_loop_dials more : forall a, (a_dials a <= a_dials (dial_loop dial more a).1 <= a_dials a + S more)%nat.
Proof.
  induction more as [|more IH]; intros a; simpl; destruct (dial (a_dials a)); simpl; try lia.
  specialize (IH (count_dial a)); simpl in IH; lia.
Qed.

Lemma init_dials a : (a_dials a <= a_dials (init dial rand_nonce rand_key a).1 <= a_dials a + 6)%nat.
Proof.
  unfold init; destruct (rand_nonce _) as [nonce|]; [|simpl; lia].
  destruct (rand_key _) as [rk|]; cbn [NewDiffieHellman]; [|simpl; lia].
  match goal with |- context [dial_loop dial 5 ?b] => pose proof (dial_loop_dials 5 b) as Hd end.
  cbn [a_dials set_keys count_init] in Hd; lia.
Qed.

Lemma exchange_dials c a a' r : performKeyExchange c a = Ret (a', r) -> a_dials a' = a_dials a.
Proof.
  unfold performKeyExchange; destruct (nc_Write _ c) as [c1 [e|]]; [by intros [= <- _]|].
  destruct (rm_body _) as [body|]; [|by intros [= <- _]].
  destruct (parse_response body) as [[[[gs sig]|] failed]|]; simpl; [|done|by intros [= <- _]].
  destruct (verifySignature gs sig); by intros [= <- _].
Qed.

Lemma challenge_dials c data a : a_dials (solveChallenge c data a).1 = a_dials a.
Proof. unfold solveChallenge; by destruct (nc_Write _ c) as [c1 [e|]]. Qed.

Lemma authenticate_dials c creds a a' r : authenticate c creds a = Ret (a', r) -> a_dials a' = a_dials a.
Proof.
  unfold authenticate; destruct (a_encConn a) as [[s rr]|]; [|done].
  destruct (login_message creds) as [payload|]; [|by intros [= <- _]].
  destruct (sendPacket s PacketTypeLogin payload) as [s1 [data|e]]; [|by intros [= <- _]].
  destruct (nc_Write data c) as [c1 [e|]]; [by intros [= <- _]|].
  destruct (peekUnencrypted rr 9) as [[r1 [peek|e]]| |]; simpl; [|by intros [= <- _]|done|done].
  case_match; [by intros [= <- _]|].
  destruct (receivePacket r1) as [r2 [[t p]|e]]; [|by intros [= <- _]].
  unfold login_response; repeat case_match; by intros [= <- _].
Qed.

Lemma connect_dials creds a a' r : connect dial rand_nonce rand_key creds a = Ret (a', r) ->
  (a_dials a <= a_dials a' <= a_dials a + 6)%nat.
Proof.
  unfold connect; pose proof (init_dials a) as Hi; destruct (init _ _ _ a) as [a1 e1]; simpl in Hi.
  destruct e1 as [e|]; [intros [= <- _]; done|].
  destruct (a_conn a1) as [c|]; [|done].
  destruct (performKeyExchange c a1) as [[a2 r2]| |] eqn:He; simpl; try done; apply exchange_dials in He.
  destruct r2 as [data|]; [|intros [= <- _]; lia].
  destruct (a_conn a2) as [c2|]; [|done].
  pose proof (challenge_dials c2 data a2) as Hch; destruct (solveChallenge c2 data a2) as [a3 e3]; simpl in Hch.
  destruct e3; [intros [= <- _]; lia|]; destruct (a_conn a3) as [c3|]; [|done].
  destruct (authenticate c3 creds a3) as [[a4 r4]| |] eqn:Ha; simpl; try done; apply authenticate_dials in Ha.
  intros [= <- _]; lia.
Qed.

Lemma attempt_dials creds a a' r : connect_attempt dial rand_nonce rand_key creds a = Ret (a', r) ->
  (a_dials a <= a_dials a' <= a_dials a + 6)%nat.
Proof.
  unfold connect_attempt; destruct (connect _ _ _ _ _) as [[a1 r1]| |] eqn:Hc; simpl; try done.
  apply connect_dials in Hc; by intros [= <- _].
Qed.

Lemma tries_dials creds n a a' : tries (connect_attempt dial rand_nonce rand_key creds) n a a' ->
  (a_dials a <= a_dials a' <= a_dials a + 6 * n)%nat.
Proof. induction 1 as [|n a a1 a2 e Ha _ IH]; [lia|]; apply attempt_dials in Ha; lia. Qed.
End dials.

(** Whatever goes wrong, and however often, a call of [Connect] dials no more
    than 36 times; on one that is closed it dials not at all. *)
Theorem connect_dials_bounded {C : Type} `{Shannon C} `{Crypto} `{ApMessages} `{RetryLaws}
    (dial : nat -> result netConn) (rand_nonce rand_key : nat -> result (list Z)) (done : bool)
    (creds : LoginCredentials) (a a' : Accesspoint C) (r : sresult unit) :
  Connect dial rand_nonce rand_key done creds a = Ret (a', r) ->
  (a_dials a' <= a_dials a + if done then 0 else 36)%nat.
Proof.
  unfold Connect; destruct done; [intros [= <- _]; lia|].
  intros (n & a1 & o & Ht & Ho & _ & Hn)%retry_returns.
  specialize (Hn _ eq_refl); apply tries_dials in Ht; apply attempt_dials in Ho; lia.
Qed.

Lemma connect_dials_bounded_witness :
  exists a' r, Connect (fun _ => Err (EMsg "refused")) (fun _ => Ok [7]) (fun _ => Ok [3]) false demo_creds demo_ap = Ret (a', r) /\
    (a_dials a' <= 36)%nat.
Proof.
  destruct (Connect (fun _ => Err (EMsg "refused")) (fun _ => Ok [7]) (fun _ => Ok [3]) false demo_creds demo_ap)
    as [[a' r]| |] eqn:Hc; [|vm_compute in Hc; discriminate Hc..].
  exists a', r; split; [reflexivity|].
  exact (connect_dials_bounded (fun _ => Err (EMsg "refused")) (fun _ => Ok [7]) (fun _ => Ok [3]) false demo_creds demo_ap a' r Hc).
Defined.
