(* ===== verification/Sessions.v ===== *)
(** * Sessions ([withAppPlayer] of [src/daemon/app.go], the users of
    [src/zeroconf/zeroconf.go])

    The goroutines that install, replace and end the session of the device:
    the main one, which boots and then serves new users from the network, the
    one that handles logouts, the one that hands API requests to the session,
    and the run loop of each session.  Each is a list of operations still to
    do; a world is what they share.  Logins and the players' own loops are
    parameters: how they end is part of a step's label. *)

From S2P Require Import Prelude.
#[local] Open Scope string_scope.
#[local] Open Scope list_scope.

(** A session: its run loop has not started, runs, has returned, has retired
    the session, or is over; [s_done] is the channel forwarders watch. *)
Inductive run_state := NotStarted | Running | Returned | RetiredSelf | Finished.
#[export] Instance run_state_eq : EqDecision run_state.
Proof. solve_decision. Defined.

Record activeSession := MkSession { s_user : string; s_run : run_state; s_done : bool; s_closed : bool }.

Definition retire (s : activeSession) : activeSession := MkSession (s_user s) (s_run s) true (s_closed s).
Definition close_player (s : activeSession) : activeSession := MkSession (s_user s) (s_run s) (s_done s) true.
Definition set_run (r : run_state) (s : activeSession) : activeSession := MkSession (s_user s) r (s_done s) (s_closed s).

(** What a goroutine has still to do. *)
Inductive op :=
| OSwap (new : option nat)          (* the first half of setSession *)
| ORetire (s : nat)
| OClose (s : nat)
| OStart (s : nat)
| OSpawn                             (* the other goroutines are started *)
| OBoot                              (* the first appPlayerFunc *)
| OCheck (p : nat)                   (* is the player that logged out the current one? *)
| ORestore                           (* appPlayerFunc after a logout *)
| OSetUser (user : string)           (* zeroconf.SetCurrentUser *)
| OLogin (i : nat)                   (* newAppPlayer for a user of the network *)
| OPersist (user : string)
| OResult (i : nat) (res : bool)
| OEnd.                              (* the goroutine has returned *)
#[export] Instance op_eq : EqDecision op.
Proof. solve_decision. Defined.

(** API requests. *)
Inductive request := ReqRoot | ReqGetVolume | ReqSetVolume | ReqSetDeviceName (name : string) | ReqOther.
Inductive reply := ReplyRoot | ReplyVolume | ReplyNil | ReplyNoSession.
Inductive api_pc := ApiIdle | ApiTaken (id : nat) (r : request) | ApiForward (id s : nat).

(** An [addUser] request, past the checks of its form. *)
Inductive zstatus := ZQueued | ZHandling | ZAnswered (res : bool) | ZReplied (code : nat).
#[export] Instance zstatus_eq : EqDecision zstatus.
Proof. solve_decision. Defined.

Record world := MkWorld {
  w_sess : list activeSession;
  w_current : option nat;
  w_main : list op;
  w_logout : list op;
  w_started : bool;
  w_cancelled : bool;
  w_api : api_pc;
  w_taken : list nat;
  w_replies : list (nat * reply);
  w_delivered : list (nat * nat);
  w_authenticating : string;
  w_currentUser : string;
  w_zreqs : list (string * zstatus);
  w_persisted : option string;
  w_name : string
}.

(** How a login ends: it fails, there are no credentials, or it gives a user. *)
Inductive login := LoginFails | NoCredentials | LoggedIn (user : string).

Definition set_sessions (ss : list activeSession) (cur : option nat) (w : world) : world :=
  MkWorld ss cur (w_main w) (w_logout w) (w_started w) (w_cancelled w) (w_api w) (w_taken w) (w_replies w)
    (w_delivered w) (w_authenticating w) (w_currentUser w) (w_zreqs w) (w_persisted w) (w_name w).
Definition set_users (auth user : string) (zs : list (string * zstatus)) (w : world) : world :=
  MkWorld (w_sess w) (w_current w) (w_main w) (w_logout w) (w_started w) (w_cancelled w) (w_api w) (w_taken w)
    (w_replies w) (w_delivered w) auth user zs (w_persisted w) (w_name w).
Definition set_api (a : api_pc) (taken : list nat) (rs : list (nat * reply)) (ds : list (nat * nat)) (name : string) (w : world)
    : world :=
  MkWorld (w_sess w) (w_current w) (w_main w) (w_logout w) (w_started w) (w_cancelled w) a taken rs ds
    (w_authenticating w) (w_currentUser w) (w_zreqs w) (w_persisted w) name.
Definition set_ops (main logout : list op) (w : world) : world :=
  MkWorld (w_sess w) (w_current w) main logout (w_started w) (w_cancelled w) (w_api w) (w_taken w) (w_replies w)
    (w_delivered w) (w_authenticating w) (w_currentUser w) (w_zreqs w) (w_persisted w) (w_name w).
Definition set_started (w : world) : world :=
  MkWorld (w_sess w) (w_current w) (w_main w) (w_logout w) true (w_cancelled w) (w_api w) (w_taken w) (w_replies w)
    (w_delivered w) (w_authenticating w) (w_currentUser w) (w_zreqs w) (w_persisted w) (w_name w).
Definition set_cancelled (w : world) : world :=
  MkWorld (w_sess w) (w_current w) (w_main w) (w_logout w) (w_started w) true (w_api w) (w_taken w) (w_replies w)
    (w_delivered w) (w_authenticating w) (w_currentUser w) (w_zreqs w) (w_persisted w) (w_name w).
Definition persist (user : string) (w : world) : world :=
  MkWorld (w_sess w) (w_current w) (w_main w) (w_logout w) (w_started w) (w_cancelled w) (w_api w) (w_taken w)
    (w_replies w) (w_delivered w) (w_authenticating w) (w_currentUser w) (w_zreqs w) (Some user) (w_name w).

Definition on_session (f : activeSession -> activeSession) (s : nat) (w : world) : world :=
  set_sessions (alter f s (w_sess w)) (w_current w) w.

(** A new player, not yet installed. *)
Definition new_session (user : string) (w : world) : world * nat :=
  (set_sessions (w_sess w ++ [MkSession user NotStarted false false]) (w_current w) w, length (w_sess w)).

(** [setSession], from the swap under the lock. *)
Definition swap (new : option nat) (w : world) : world * list op :=
  let prev := w_current w in
  (set_sessions (w_sess w) new w,
   match prev with Some p => [ORetire p; OClose p] | None => [] end ++
   match new with Some n => [OStart n] | None => [] end).

Definition set_zstatus (i : nat) (st : zstatus) (w : world) : world :=
  set_users (w_authenticating w) (w_currentUser w) (alter (fun z => (z.1, st)) i (w_zreqs w)) w.

(** One operation of the main or the logout goroutine: what it does at once,
    and what it leaves to do before the rest.  [persistCreds] is the
    configuration's; a login after a logout is like the first. *)
Definition exec (persistCreds : bool) (o : op) (l : login) (w : world) : world * list op :=
  match o with
  | OSwap new => swap new w
  | ORetire s => (on_session retire s w, [])
  | OClose s => (on_session close_player s w, [])
  | OStart s => (on_session (set_run Running) s w, [])
  | OSpawn => (set_started w, [])
  | OBoot =>
    match l with
    | LoggedIn user => let '(w, s) := new_session user w in (w, [OSwap (Some s); OSetUser user; OSpawn])
    | NoCredentials => (w, [OSpawn])
    | LoginFails => (w, [])
    end
  | OCheck p => (w, if decide (w_current w = Some p) then [OSwap None; ORestore] else [])
  | ORestore =>
    match l with
    | LoggedIn user => let '(w, s) := new_session user w in (w, [OSwap (Some s); OSetUser user])
    | _ => (w, [OSetUser ""])
    end
  | OSetUser user => (set_users (w_authenticating w) user (w_zreqs w) w, [])
  | OLogin i =>
    match l with
    | LoggedIn user =>
      let '(w, s) := new_session user w in
      (w, (if persistCreds then [OPersist user] else []) ++ [OSwap (Some s); OResult i true])
    | _ => (w, [OResult i false])
    end
  | OPersist user => (persist user w, [])
  | OResult i res => (set_zstatus i (ZAnswered res) w, [])
  | OEnd => (w, [OEnd])
  end.

(** The answer to a request without a session. *)
Definition without_session (r : request) : reply :=
  match r with
  | ReqRoot => ReplyRoot
  | ReqGetVolume => ReplyVolume
  | ReqSetVolume | ReqSetDeviceName _ => ReplyNil
  | ReqOther => ReplyNoSession
  end.

Definition reply_to (id : nat) (r : reply) (name : string) (w : world) : world :=
  set_api ApiIdle (w_taken w) (w_replies w ++ [(id, r)]) (w_delivered w) name w.

Inductive label :=
| LMain (l : login)                      (* the main goroutine goes on *)
| LLogout (l : login)                    (* the logout goroutine goes on *)
| LServe (i : nat)                       (* Serve takes a request of a user *)
| LLoggedOut (p : nat)                   (* a player hands itself back *)
| LCancel                                (* the context ends *)
| LEnd                                   (* the logout goroutine sees it *)
| LRunReturn (s : nat) (byItself : bool) (* a run loop returns *)
| LRunRetire (s : nat)
| LRunDrop (s : nat)
| LApiTake (id : nat) (r : request)
| LApiLook
| LApiDeliver
| LApiGiveUp
| LAddUser (user : string)               (* the locked part of handleAddUser *)
| LAddUserDone (i : nat).                (* and what follows the result *)

(** Whether a request of a user is being dealt with. *)
Definition zpending (z : string * zstatus) : bool :=
  match z.2 with ZReplied _ => false | _ => true end.

(** The run loop of a session: it returns, releases the forwarder, and drops
    the session if it is still the current one. *)
Definition run_return (s : nat) (byItself : bool) (w : world) : option world :=
  match w_sess w !! s with
  | Some x =>
    if decide (s_run x = Running) then
      if byItself then Some (on_session (fun x => set_run Returned (close_player x)) s w)
      else if s_closed x then Some (on_session (set_run Returned) s w) else None
    else None
  | None => None
  end.

Definition run_retire (s : nat) (w : world) : option world :=
  match w_sess w !! s with
  | Some x => if decide (s_run x = Returned) then Some (on_session (fun x => set_run RetiredSelf (retire x)) s w) else None
  | None => None
  end.

Definition run_drop (s : nat) (w : world) : option world :=
  match w_sess w !! s with
  | Some x =>
    if decide (s_run x = RetiredSelf) then
      let w := on_session (set_run Finished) s w in
      Some (if decide (w_current w = Some s) then set_sessions (w_sess w) None w else w)
    else None
  | None => None
  end.

(** The API goroutine with a request at hand. *)
Definition api_look (w : world) : option world :=
  match w_api w with
  | ApiTaken id r =>
    match w_current w with
    | None =>
      let name := match r with ReqSetDeviceName n => n | _ => w_name w end in
      Some (reply_to id (without_session r) name w)
    | Some s => Some (set_api (ApiForward id s) (w_taken w) (w_replies w) (w_delivered w) (w_name w) w)
    end
  | _ => None
  end.

(** The locked part of [handleAddUser], and what follows the result. *)
Definition add_user (user : string) (w : world) : option world :=
  if decide (user = "") then None
  else if decide (w_authenticating w = user) then
    Some (set_users (w_authenticating w) (w_currentUser w) (w_zreqs w ++ [(user, ZReplied 200)]) w)
  else if decide (w_authenticating w <> "") then
    Some (set_users (w_authenticating w) (w_currentUser w) (w_zreqs w ++ [(user, ZReplied 403)]) w)
  else Some (set_users user (w_currentUser w) (w_zreqs w ++ [(user, ZQueued)]) w).

Definition add_user_done (i : nat) (w : world) : option world :=
  match w_zreqs w !! i with
  | Some (user, ZAnswered res) =>
    Some (set_users "" (if res then user else w_currentUser w)
            (<[i := (user, ZReplied (if res then 200 else 403))]> (w_zreqs w)) w)
  | _ => None
  end.

Definition step (persistCreds : bool) (lab : label) (w : world) : option world :=
  match lab with
  | LMain l =>
    match w_main w with
    | o :: rest => let '(w, more) := exec persistCreds o l w in Some (set_ops (more ++ rest) (w_logout w) w)
    | [] => None
    end
  | LLogout l =>
    match w_logout w with
    | o :: rest => let '(w, more) := exec persistCreds o l w in Some (set_ops (w_main w) (more ++ rest) w)
    | [] => None
    end
  | LServe i =>
    match w_main w, w_started w, w_zreqs w !! i with
    | [], true, Some (_, ZQueued) => Some (set_ops [OSwap None; OLogin i] (w_logout w) (set_zstatus i ZHandling w))
    | _, _, _ => None
    end
  | LLoggedOut p =>
    match w_logout w, w_started w, w_cancelled w, w_sess w !! p with
    | [], true, false, Some s => if decide (s_run s = Running) then Some (set_ops (w_main w) [OCheck p] w) else None
    | _, _, _, _ => None
    end
  | LCancel => Some (set_cancelled w)
  | LEnd =>
    match w_logout w, w_started w, w_cancelled w with
    | [], true, true => Some (set_ops (w_main w) [OSwap None; OEnd] w)
    | _, _, _ => None
    end
  | LRunReturn s byItself => run_return s byItself w
  | LRunRetire s => run_retire s w
  | LRunDrop s => run_drop s w
  | LApiTake id r =>
    match w_api w with
    | ApiIdle =>
      if w_started w && negb (w_cancelled w) && bool_decide (id ∉ w_taken w)
      then Some (set_api (ApiTaken id r) (id :: w_taken w) (w_replies w) (w_delivered w) (w_name w) w)
      else None
    | _ => None
    end
  | LApiLook => api_look w
  | LApiDeliver =>
    match w_api w with
    | ApiForward id s =>
      match w_sess w !! s with
      | Some x =>
        if decide (s_run x = Running)
        then Some (set_api ApiIdle (w_taken w) (w_replies w) (w_delivered w ++ [(id, s)]) (w_name w) w) else None
      | None => None
      end
    | _ => None
    end
  | LApiGiveUp =>
    match w_api w with
    | ApiForward id s =>
      if w_cancelled w || default false (s_done <$> w_sess w !! s)
      then Some (reply_to id ReplyNoSession (w_name w) w) else None
    | _ => None
    end
  | LAddUser user => add_user user w
  | LAddUserDone i => add_user_done i w
  end.

Definition boot (name : string) : world := MkWorld [] None [OBoot] [] false false ApiIdle [] [] [] "" "" [] None name.

Definition wsteps (persistCreds : bool) (name : string) : world -> Prop :=
  star (fun w w' => exists lab, step persistCreds lab w = Some w') (boot name).

Fixpoint play (persistCreds : bool) (ls : list label) (w : world) : option world :=
  match ls with
  | [] => Some w
  | lab :: ls => w ← step persistCreds lab w; play persistCreds ls w
  end.
