(* ===== verification/SessionClaims.v ===== *)
(** * Sessions: theorems

    In every interleaving: a session that was replaced is closed, an API request
    is answered or delivered exactly once and never waits on a session that is
    gone, and users log in from the network one at a time.  And what goes wrong
    between two of the goroutines. *)

From S2P Require Import Prelude Sessions.
#[local] Open Scope string_scope.
#[local] Open Scope list_scope.

Definition pending_ops (w : world) : list op := w_main w ++ w_logout w.

(** ** Sessions *)
Record sess_inv (ss : list activeSession) (cur : option nat) (ops : list op) : Prop := {
  si_closed : forall s x, ss !! s = Some x ->
    cur = Some s \/ s_closed x = true \/ OClose s ∈ ops \/ OSwap (Some s) ∈ ops;
  si_returned : forall s x, ss !! s = Some x -> s_run x = Returned \/ s_run x = RetiredSelf \/ s_run x = Finished ->
    s_closed x = true;
  si_done : forall s x, ss !! s = Some x -> s_run x = RetiredSelf \/ s_run x = Finished -> s_done x = true;
  si_start : forall s x, ss !! s = Some x -> s_run x = NotStarted -> OStart s ∈ ops \/ OSwap (Some s) ∈ ops;
  si_current : forall s, cur = Some s -> is_Some (ss !! s);
  si_swap : forall s, OSwap (Some s) ∈ ops -> is_Some (ss !! s)
}.

(** Operations that concern no session come and go. *)
Definition idle_op (o : op) : bool :=
  match o with OSwap (Some _) | OClose _ | OStart _ => false | _ => true end.

Lemma sess_inv_ops ss cur ops ops' : sess_inv ss cur ops ->
  (forall o, idle_op o = false -> o ∈ ops <-> o ∈ ops') -> sess_inv ss cur ops'.
Proof.
  intros [H1 H2 H3 H4 H5 H6] Heq; split.
  - intros s x Hs; destruct (H1 s x Hs) as [?|[?|[?|?]]]; [by left|by right; left|..]; right; right.
    + left; by apply Heq.
    + right; by apply Heq.
  - done.
  - done.
  - intros s x Hs Hr; destruct (H4 s x Hs Hr); [left|right]; by apply Heq.
  - done.
  - intros s Hs; apply H6; by apply Heq.
Qed.

(** A change of one session that closes no less. *)
Lemma sess_inv_alter f s0 ss cur ops : sess_inv ss cur ops ->
  (forall x, ss !! s0 = Some x ->
    (s_closed x = true -> s_closed (f x) = true) /\
    (s_run (f x) = Returned \/ s_run (f x) = RetiredSelf \/ s_run (f x) = Finished -> s_closed (f x) = true) /\
    (s_run (f x) = RetiredSelf \/ s_run (f x) = Finished -> s_done (f x) = true) /\
    (s_run (f x) = NotStarted -> s_run x = NotStarted)) ->
  sess_inv (alter f s0 ss) cur ops.
Proof.
  intros [H1 H2 H3 H4 H5 H6] Hf.
  assert (Hl : forall s y, alter f s0 ss !! s = Some y ->
            (s = s0 /\ exists x, ss !! s = Some x /\ y = f x) \/ (s <> s0 /\ ss !! s = Some y)).
  { intros s y Hy; destruct (decide (s = s0)) as [->|Hne].
    - rewrite list_lookup_alter, decide_True in Hy by done; apply fmap_Some in Hy as (x & ? & ->); left; eauto.
    - rewrite list_lookup_alter_ne in Hy by done; by right. }
  assert (Hsome : forall s, is_Some (ss !! s) -> is_Some (alter f s0 ss !! s)).
  { intros s [x Hx]; destruct (decide (s = s0)) as [->|]; [|rewrite list_lookup_alter_ne by done; by exists x].
    rewrite list_lookup_alter, decide_True, Hx by done; by eexists. }
  split; try (by intros; apply Hsome; auto).
  - intros s y [(-> & x & Hx & ->)|[_ Hy]]%Hl; [|by apply H1].
    destruct (Hf x Hx) as (Ha & _); destruct (H1 s0 x Hx) as [?|[?|?]]; [by left|right; left; auto|by right; right].
  - intros s y [(-> & x & Hx & ->)|[_ Hy]]%Hl Hr; [destruct (Hf x Hx) as (_ & Ha & _); auto|by eapply H2].
  - intros s y [(-> & x & Hx & ->)|[_ Hy]]%Hl Hr; [destruct (Hf x Hx) as (_ & _ & Ha & _); auto|by eapply H3].
  - intros s y [(-> & x & Hx & ->)|[_ Hy]]%Hl Hr; [destruct (Hf x Hx) as (_ & _ & _ & Ha); apply (H4 s0 x Hx); auto|by eapply H4].
Qed.

(** The parts of [setSession]. *)
Lemma sess_inv_swap new ss cur more rest :
  sess_inv ss cur (OSwap new :: rest) ->
  more = match cur with Some p => [ORetire p; OClose p] | None => [] end ++ match new with Some n => [OStart n] | None => [] end ->
  sess_inv ss new (more ++ rest).
Proof.
  intros [H1 H2 H3 H4 H5 H6] Hmore.
  assert (Hin : forall o, o ∈ rest -> o ∈ more ++ rest) by (intros o Ho; apply elem_of_app; by right).
  assert (Htl : forall o, o ∈ OSwap new :: rest -> o = OSwap new \/ o ∈ more ++ rest).
  { intros o [->|Ho]%elem_of_cons; auto. }
  assert (Hst : forall s, new = Some s -> OStart s ∈ more ++ rest).
  { intros s ->; apply elem_of_app; left; rewrite Hmore; apply elem_of_app; right; by constructor. }
  assert (Hcl : forall s, cur = Some s -> OClose s ∈ more ++ rest).
  { intros s ->; apply elem_of_app; left; rewrite Hmore; apply elem_of_app; left; by repeat constructor. }
  split.
  - intros s x Hx; destruct (H1 s x Hx) as [Hc|[Hc|[Hc|Hc]]]; [auto|auto|..]; apply Htl in Hc as [Hc|Hc]; simplify_eq; auto.
  - done.
  - done.
  - intros s x Hx Hr; destruct (H4 s x Hx Hr) as [Hc|Hc]; apply Htl in Hc as [Hc|Hc]; simplify_eq; auto.
  - intros s ->; apply H6; by constructor.
  - intros s Hs; apply H6, elem_of_cons; right; apply elem_of_app in Hs as [Hs|Hs]; [exfalso|done].
    rewrite Hmore in Hs; destruct cur, new; simpl in Hs; rewrite ?elem_of_cons, elem_of_nil in Hs; naive_solver.
Qed.

Lemma sess_inv_new user ss cur ops more : sess_inv ss cur ops ->
  Forall (fun o => idle_op o = true) more ->
  sess_inv (ss ++ [MkSession user NotStarted false false]) cur (OSwap (Some (length ss)) :: more ++ ops).
Proof.
  intros [H1 H2 H3 H4 H5 H6] Hm; rewrite Forall_forall in Hm.
  assert (Hl : forall s y, (ss ++ [MkSession user NotStarted false false]) !! s = Some y ->
            ss !! s = Some y \/ (s = length ss /\ y = MkSession user NotStarted false false)).
  { intros s y [?|[? Hy]]%lookup_app_Some; [by left|right].
    destruct (s - length ss)%nat eqn:Hs; simpl in Hy; [|done]; simplify_eq; split; [lia|done]. }
  assert (Hin : forall o, o ∈ ops -> o ∈ OSwap (Some (length ss)) :: more ++ ops) by (intros o Ho; apply elem_of_cons; right; apply elem_of_app; by right).
  split.
  - intros s y [Hy|[-> ->]]%Hl; [|right; right; right; by constructor].
    destruct (H1 s y Hy) as [?|[?|[?|?]]]; auto.
  - intros s y [Hy|[-> ->]]%Hl Hr; [by eapply H2|naive_solver].
  - intros s y [Hy|[-> ->]]%Hl Hr; [by eapply H3|naive_solver].
  - intros s y [Hy|[-> ->]]%Hl Hr; [|right; by constructor].
    destruct (H4 s y Hy Hr); auto.
  - intros s Hs; destruct (H5 s Hs) as [x Hx]; exists x; by apply lookup_app_l_Some.
  - intros s [[= ->]|[Hm1|Hs]%elem_of_app]%elem_of_cons.
    + eexists; by apply list_lookup_middle.
    + apply Hm in Hm1; done.
    + destruct (H6 s Hs) as [x Hx]; exists x; by apply lookup_app_l_Some.
Qed.

Lemma sess_inv_drop o rest ss cur : idle_op o = true -> sess_inv ss cur (o :: rest) -> sess_inv ss cur rest.
Proof.
  intros Ho Hi; eapply sess_inv_ops; [exact Hi|]; intros o' Ho'; rewrite elem_of_cons; split; [|by right].
  intros [->|]; [congruence|done].
Qed.

Lemma sess_inv_idle more rest ss cur : Forall (fun o => idle_op o = true) more ->
  sess_inv ss cur rest -> sess_inv ss cur (more ++ rest).
Proof.
  rewrite Forall_forall; intros Hm Hi; eapply sess_inv_ops; [exact Hi|]; intros o Ho; rewrite elem_of_app; split; [by right|].
  intros [Hin|]; [apply Hm in Hin; congruence|done].
Qed.

Lemma sess_inv_install user more rest ss cur : Forall (fun o => idle_op o = true) more -> sess_inv ss cur rest ->
  sess_inv (ss ++ [MkSession user NotStarted false false]) cur ((OSwap (Some (length ss)) :: more) ++ rest).
Proof. intros; by apply sess_inv_new. Qed.

(** Closing and starting: the operation is done, whatever is left. *)
Lemma sess_inv_close s0 ss cur rest : sess_inv ss cur (OClose s0 :: rest) -> sess_inv (alter close_player s0 ss) cur rest.
Proof.
  intros [H1 H2 H3 H4 H5 H6].
  assert (Ha : sess_inv (alter close_player s0 ss) cur (OClose s0 :: rest)).
  { apply sess_inv_alter; [by split|]; intros x Hx; simpl; split_and!; auto; intros Hr; by eapply H3. }
  destruct Ha as [A1 A2 A3 A4 A5 A6]; split; [|done|done| |done|].
  - intros s y Hy; destruct (A1 s y Hy) as [?|[?|[Hc|Hc]]]; [auto|auto|..]; apply elem_of_cons in Hc as [Hc|Hc]; simplify_eq; auto.
    right; left; rewrite list_lookup_alter_eq in Hy; apply fmap_Some in Hy as (x & _ & ->); done.
  - intros s y Hy Hr; destruct (A4 s y Hy Hr) as [Hc|Hc]; apply elem_of_cons in Hc as [Hc|Hc]; simplify_eq; auto.
  - intros s Hs; apply A6; by right.
Qed.

Lemma sess_inv_start s0 ss cur rest : sess_inv ss cur (OStart s0 :: rest) -> sess_inv (alter (set_run Running) s0 ss) cur rest.
Proof.
  intros [H1 H2 H3 H4 H5 H6].
  assert (Ha : sess_inv (alter (set_run Running) s0 ss) cur (OStart s0 :: rest)).
  { apply sess_inv_alter; [by split|]; intros x Hx; simpl; split_and!; auto; intros Hr; naive_solver. }
  destruct Ha as [A1 A2 A3 A4 A5 A6]; split; [|done|done| |done|].
  - intros s y Hy; destruct (A1 s y Hy) as [?|[?|[Hc|Hc]]]; [auto|auto|..]; apply elem_of_cons in Hc as [Hc|Hc]; simplify_eq; auto.
  - intros s y Hy Hr; destruct (A4 s y Hy Hr) as [Hc|Hc]; apply elem_of_cons in Hc as [Hc|Hc]; simplify_eq; auto.
    rewrite list_lookup_alter_eq in Hy; apply fmap_Some in Hy as (x & _ & ->); done.
  - intros s Hs; apply A6; by right.
Qed.

Lemma sess_inv_retire s0 ss cur rest : sess_inv ss cur rest -> sess_inv (alter retire s0 ss) cur rest.
Proof.
  intros Hi; pose proof Hi as [H1 H2 H3 H4 H5 H6].
  apply sess_inv_alter; [done|]; intros x Hx; simpl; split_and!; auto; intros Hr; by eapply H2.
Qed.

Lemma exec_inv pc o l w rest :
  sess_inv (w_sess w) (w_current w) (o :: rest) ->
  sess_inv (w_sess (exec pc o l w).1) (w_current (exec pc o l w).1) ((exec pc o l w).2 ++ rest).
Proof.
  intros Hi; destruct o as [new|s|s|s| | |p| |user|i|user|i res|]; simpl.
  - by eapply sess_inv_swap.
  - apply sess_inv_drop in Hi; [by apply sess_inv_retire|done].
  - by apply sess_inv_close.
  - by apply sess_inv_start.
  - by apply sess_inv_drop in Hi.
  - apply sess_inv_drop in Hi; [|done]; destruct l; simpl; [done|apply (sess_inv_idle [OSpawn]); [by repeat constructor|done]|].
    apply (sess_inv_install user [OSetUser user; OSpawn]); [by repeat constructor|done].
  - apply sess_inv_drop in Hi; [|done]; case_decide; [|done]; apply (sess_inv_idle [OSwap None; ORestore]); [by repeat constructor|done].
  - apply sess_inv_drop in Hi; [|done].
    destruct l; simpl; try (apply (sess_inv_idle [OSetUser ""]); [by repeat constructor|done]).
    apply (sess_inv_install user [OSetUser user]); [by repeat constructor|done].
  - by apply sess_inv_drop in Hi.
  - apply sess_inv_drop in Hi; [|done].
    destruct l; simpl; try (apply (sess_inv_idle [OResult i false]); [by repeat constructor|done]).
    destruct pc; simpl; [|apply (sess_inv_install user [OResult i true]); [by repeat constructor|done]].
    apply (sess_inv_idle [OPersist user]); [by repeat constructor|]; apply (sess_inv_install user [OResult i true]); [by repeat constructor|done].
  - by apply sess_inv_drop in Hi.
  - by apply sess_inv_drop in Hi.
  - done.
Qed.

Lemma exec_goroutines pc o l w :
  w_main (exec pc o l w).1 = w_main w /\ w_logout (exec pc o l w).1 = w_logout w /\
  w_api (exec pc o l w).1 = w_api w /\ w_taken (exec pc o l w).1 = w_taken w /\
  w_replies (exec pc o l w).1 = w_replies w /\ w_delivered (exec pc o l w).1 = w_delivered w /\
  w_authenticating (exec pc o l w).1 = w_authenticating w /\
  w_zreqs (exec pc o l w).1 = match o with OResult i res => alter (fun z => (z.1, ZAnswered res)) i (w_zreqs w) | _ => w_zreqs w end.
Proof. destruct o; try done; by destruct l. Qed.

Definition sessions_ok (w : world) : Prop := sess_inv (w_sess w) (w_current w) (pending_ops w).

Lemma sessions_ok_same w w' : sessions_ok w ->
  w_sess w' = w_sess w -> w_current w' = w_current w -> pending_ops w' = pending_ops w -> sessions_ok w'.
Proof. unfold sessions_ok; congruence. Qed.

Lemma sessions_ok_ops w w' : sessions_ok w ->
  w_sess w' = w_sess w -> w_current w' = w_current w ->
  (forall o, idle_op o = false -> o ∈ pending_ops w <-> o ∈ pending_ops w') -> sessions_ok w'.
Proof. unfold sessions_ok; intros Hi -> -> Ho; by eapply sess_inv_ops. Qed.

Lemma sessions_exec pc o l w rest w' : sessions_ok w ->
  (forall o', o' ∈ pending_ops w <-> o' ∈ o :: rest) ->
  w_sess w' = w_sess (exec pc o l w).1 -> w_current w' = w_current (exec pc o l w).1 ->
  (forall o', o' ∈ (exec pc o l w).2 ++ rest <-> o' ∈ pending_ops w') -> sessions_ok w'.
Proof.
  intros Hi Hops Hs Hc Hops'; unfold sessions_ok; rewrite Hs, Hc.
  eapply sess_inv_ops; [apply exec_inv; eapply sess_inv_ops; [exact Hi|auto]|auto].
Qed.

Lemma sessions_alter f s w w' : sessions_ok w -> w' = on_session f s w ->
  (forall x, w_sess w !! s = Some x ->
    (s_closed x = true -> s_closed (f x) = true) /\
    (s_run (f x) = Returned \/ s_run (f x) = RetiredSelf \/ s_run (f x) = Finished -> s_closed (f x) = true) /\
    (s_run (f x) = RetiredSelf \/ s_run (f x) = Finished -> s_done (f x) = true) /\
    (s_run (f x) = NotStarted -> s_run x = NotStarted)) -> sessions_ok w'.
Proof. intros Hi -> Hf; by apply (sess_inv_alter f s). Qed.

Lemma step_sessions_ok pc lab w w' : sessions_ok w -> step pc lab w = Some w' -> sessions_ok w'.
Proof.
  intros Hi Hs; destruct lab as [l|l|i|p| | |s by_|s|s|id r| | | |user|i]; simpl in Hs; unfold run_return, run_retire, run_drop, api_look, add_user, add_user_done in Hs.
  - destruct (w_main w) as [|o rest] eqn:Hm; [done|].
    destruct (exec pc o l w) as [w1 more] eqn:He; simplify_eq.
    pose proof (exec_goroutines pc o l w) as (_ & Hl & _); rewrite He in Hl; simpl in Hl.
    eapply (sessions_exec pc o l w (rest ++ w_logout w)); rewrite ?He; try done.
    + intros o'; unfold pending_ops; by rewrite Hm.
    + intros o'; unfold pending_ops; simpl; by rewrite Hl, <- app_assoc.
  - destruct (w_logout w) as [|o rest] eqn:Hm; [done|].
    destruct (exec pc o l w) as [w1 more] eqn:He; simplify_eq.
    pose proof (exec_goroutines pc o l w) as (Hl & _); rewrite He in Hl; simpl in Hl.
    eapply (sessions_exec pc o l w (w_main w ++ rest)); rewrite ?He; try done.
    + intros o'; unfold pending_ops; rewrite Hm, !elem_of_cons, !elem_of_app, elem_of_cons; tauto.
    + intros o'; unfold pending_ops; simpl; rewrite Hl, !elem_of_app; tauto.
  - destruct (w_main w) eqn:Hm, (w_started w); try done; destruct (w_zreqs w !! i) as [[u []]|]; simplify_eq.
    eapply sessions_ok_ops; [done|done|done|]; intros o Ho; unfold pending_ops; rewrite Hm; simpl.
    rewrite !elem_of_cons; naive_solver.
  - destruct (w_logout w) eqn:Hm, (w_started w), (w_cancelled w); try done.
    destruct (w_sess w !! p) as [x|]; [|done]; case_decide; simplify_eq.
    eapply sessions_ok_ops; [done|done|done|]; intros o Ho; unfold pending_ops; rewrite Hm; simpl.
    rewrite !elem_of_app, elem_of_cons, elem_of_nil; naive_solver.
  - simplify_eq; by eapply sessions_ok_same.
  - destruct (w_logout w) eqn:Hm, (w_started w), (w_cancelled w); simplify_eq.
    eapply sessions_ok_ops; [done|done|done|]; intros o Ho; unfold pending_ops; rewrite Hm; simpl.
    rewrite !elem_of_app, !elem_of_cons, elem_of_nil; naive_solver.
  - destruct (w_sess w !! s) as [x|] eqn:Hx; [|done]; case_decide as Hr; [|done].
    destruct by_; [|destruct (s_closed x) eqn:Hc; [|done]]; simplify_eq; eapply sessions_alter; try done;
      intros y Hy; simplify_eq; simpl; split_and!; auto; intros; try tauto; naive_solver.
  - destruct (w_sess w !! s) as [x|] eqn:Hx; [|done]; case_decide as Hr; [|done]; simplify_eq.
    eapply sessions_alter; try done; intros y Hy; rewrite Hx in Hy; injection Hy as <-; simpl.
    pose proof (si_returned _ _ _ Hi s x Hx (or_introl Hr)); split_and!; auto; done.
  - destruct (w_sess w !! s) as [x|] eqn:Hx; [|done]; case_decide as Hr; [|done]; simplify_eq.
    assert (Hi' : sessions_ok (on_session (set_run Finished) s w)).
    { eapply sessions_alter; try done; intros y Hy; rewrite Hx in Hy; injection Hy as <-; simpl.
      pose proof (si_returned _ _ _ Hi s x Hx (or_intror (or_introl Hr))).
      pose proof (si_done _ _ _ Hi s x Hx (or_introl Hr)); split_and!; auto; done. }
    case_decide as Hc; [|done]; destruct Hi' as [H1 H2 H3 H4 H5 H6]; split; [|exact H2|exact H3|exact H4|done|exact H6].
    intros s' y Hy; destruct (H1 s' y Hy) as [Hcur|?]; [|by right].
    simpl in Hc, Hcur; simplify_eq; right; left; eapply H2; [done|].
    simpl in Hy; rewrite list_lookup_alter_eq, Hx in Hy; injection Hy as <-; simpl; auto.
  - destruct (w_api w); try done; case_match; simplify_eq; by eapply sessions_ok_same.
  - destruct (w_api w); try done; destruct (w_current w) eqn:Hc; simplify_eq; by eapply sessions_ok_same.
  - destruct (w_api w); try done; destruct (w_sess w !! s); [|done]; case_decide; simplify_eq; by eapply sessions_ok_same.
  - destruct (w_api w); try done; case_match; simplify_eq; by eapply sessions_ok_same.
  - repeat case_decide; simplify_eq; by eapply sessions_ok_same.
  - destruct (w_zreqs w !! i) as [[u []]|]; simplify_eq; by eapply sessions_ok_same.
Qed.

Lemma reachable_ok pc name w : wsteps pc name w -> sessions_ok w.
Proof.
  intros Hw; eapply (star_invariant _ sessions_ok); [|exact Hw|].
  - intros w1 w2 H1 [lab Hs]; by eapply step_sessions_ok.
  - split; try done; intros s; change (pending_ops (boot name)) with [OBoot]; intros Hs.
    by apply list_elem_of_singleton in Hs.
Qed.

(** ** API requests *)
Definition api_ids (a : api_pc) : list nat := match a with ApiIdle => [] | ApiTaken id _ | ApiForward id _ => [id] end.

(** Every request taken is in one place only: answered, delivered, or at hand. *)
Record api_inv (w : world) : Prop := {
  ai_nodup : NoDup (w_taken w);
  ai_perm : w_taken w ≡ₚ (fst <$> w_replies w) ++ (fst <$> w_delivered w) ++ api_ids (w_api w);
  ai_forward : forall id s, w_api w = ApiForward id s -> is_Some (w_sess w !! s)
}.

Lemma api_inv_same w w' : api_inv w -> w_taken w' = w_taken w -> w_replies w' = w_replies w ->
  w_delivered w' = w_delivered w -> w_api w' = w_api w ->
  (forall s, is_Some (w_sess w !! s) -> is_Some (w_sess w' !! s)) -> api_inv w'.
Proof. intros [H1 H2 H3] Ht Hr Hd Ha Hs; split; rewrite ?Ht, ?Hr, ?Hd, ?Ha; [done|done|]; intros id s Hf; eauto. Qed.

Lemma exec_grows pc o l w s : is_Some (w_sess w !! s) -> is_Some (w_sess (exec pc o l w).1 !! s).
Proof.
  assert (Ha : forall f i, is_Some (w_sess w !! s) -> is_Some (alter f i (w_sess w) !! s)).
  { intros f i [x Hx]; rewrite list_lookup_alter; case_decide; subst; rewrite ?Hx; simpl; eauto. }
  assert (Hn : forall u, is_Some (w_sess w !! s) -> is_Some ((w_sess w ++ [MkSession u NotStarted false false]) !! s)).
  { intros u [x Hx]; exists x; by apply lookup_app_l_Some. }
  destruct o; simpl; auto; destruct l; simpl; auto.
Qed.

Lemma answered_perm id (rs ds rest taken : list nat) :
  taken ≡ₚ rs ++ ds ++ id :: rest -> taken ≡ₚ (rs ++ [id]) ++ ds ++ rest /\ taken ≡ₚ rs ++ (ds ++ [id]) ++ rest.
Proof. intros ->; split; rewrite <- !app_assoc; [|done]; apply Permutation_app_head; symmetry; exact (Permutation_middle ds rest id). Qed.

Lemma on_session_grows f i w s : is_Some (w_sess w !! s) -> is_Some (w_sess (on_session f i w) !! s).
Proof. intros [x Hx]; simpl; rewrite list_lookup_alter; case_decide; subst; rewrite ?Hx; simpl; eauto. Qed.

Lemma step_api_inv pc lab w w' : sessions_ok w -> api_inv w -> step pc lab w = Some w' -> api_inv w'.
Proof.
  intros Hi Ha Hs; pose proof Ha as [Hnd Hperm Hfw]; destruct lab as [l|l|i|p| | |s by_|s|s|id r| | | |user|i]; simpl in Hs; unfold run_return, run_retire, run_drop, api_look, add_user, add_user_done in Hs.
  - destruct (w_main w) as [|o rest]; [done|].
    pose proof (exec_goroutines pc o l w) as (_ & _ & ? & ? & ? & ? & _); pose proof (exec_grows pc o l w).
    destruct (exec pc o l w) as [w1 more]; simplify_eq; by eapply api_inv_same.
  - destruct (w_logout w) as [|o rest]; [done|].
    pose proof (exec_goroutines pc o l w) as (_ & _ & ? & ? & ? & ? & _); pose proof (exec_grows pc o l w).
    destruct (exec pc o l w) as [w1 more]; simplify_eq; by eapply api_inv_same.
  - destruct (w_main w), (w_started w); try done; destruct (w_zreqs w !! i) as [[u []]|]; simplify_eq; by eapply api_inv_same.
  - destruct (w_logout w), (w_started w), (w_cancelled w); try done.
    destruct (w_sess w !! p); [|done]; case_decide; simplify_eq; by eapply api_inv_same.
  - simplify_eq; by eapply api_inv_same.
  - destruct (w_logout w), (w_started w), (w_cancelled w); simplify_eq; by eapply api_inv_same.
  - destruct (w_sess w !! s) as [x|]; [|done]; case_decide; [|done].
    destruct by_; [|destruct (s_closed x); [|done]]; simplify_eq; eapply api_inv_same; try done; intros; by apply on_session_grows.
  - destruct (w_sess w !! s) as [x|]; [|done]; case_decide; simplify_eq.
    eapply api_inv_same; try done; intros; by apply on_session_grows.
  - destruct (w_sess w !! s) as [x|]; [|done]; case_decide; simplify_eq.
    case_decide; (eapply api_inv_same; [done..|]); intros; by apply (on_session_grows _ _ w).
  - destruct (w_api w) eqn:Hapi; try done; case_match eqn:Hg; simplify_eq.
    apply andb_prop in Hg as [_ Hg]; apply bool_decide_eq_true in Hg.
    split; simpl; [by constructor| |done]; simpl in Hperm; rewrite Hperm, app_nil_r.
    by rewrite app_assoc, (Permutation_app_comm _ [id]).
  - destruct (w_api w) as [|id r|] eqn:Hapi; try done; destruct (w_current w) as [s|] eqn:Hc; simplify_eq.
    + split; simpl; [done|done|]; intros id' s' [= _ ->]; by apply (si_current _ _ _ Hi).
    + split; simpl; [done| |done]; rewrite fmap_app; by apply answered_perm in Hperm as [? _].
  - destruct (w_api w) as [| |id s] eqn:Hapi; try done; destruct (w_sess w !! s); [|done]; case_decide; simplify_eq.
    split; simpl; [done| |done]; rewrite fmap_app; by apply answered_perm in Hperm as [_ ?].
  - destruct (w_api w) as [| |id s] eqn:Hapi; try done; case_match; simplify_eq.
    split; simpl; [done| |done]; rewrite fmap_app; by apply answered_perm in Hperm as [? _].
  - repeat case_decide; simplify_eq; by eapply api_inv_same.
  - destruct (w_zreqs w !! i) as [[u []]|]; simplify_eq; by eapply api_inv_same.
Qed.

Lemma reachable_api pc name w : wsteps pc name w -> sessions_ok w /\ api_inv w.
Proof.
  intros Hw; split; [by eapply reachable_ok|].
  assert (Hboth : sessions_ok w /\ api_inv w); [|apply Hboth].
  eapply (star_invariant _ (fun w => sessions_ok w /\ api_inv w)); [|exact Hw|].
  - intros w1 w2 [H1 H2] [lab Hs]; split; [by eapply step_sessions_ok|by eapply step_api_inv].
  - split; [eapply (reachable_ok pc name), star_refl|]; split; simpl; [constructor|done|done].
Qed.

(** ** Users *)
Definition zop (o : op) : option nat := match o with OLogin i | OResult i _ => Some i | _ => None end.

Lemma zop_cons o ops : omap zop (o :: ops) = match zop o with Some i => i :: omap zop ops | None => omap zop ops end.
Proof. reflexivity. Qed.

Record users_inv (auth : string) (zs : list (string * zstatus)) (main logout : list op) : Prop := {
  ui_pending : forall i z, zs !! i = Some z -> zpending z = true -> z.1 = auth /\ z.1 <> "";
  ui_unique : forall i j z z', zs !! i = Some z -> zs !! j = Some z' -> zpending z = true -> zpending z' = true -> i = j;
  ui_held : auth <> "" -> exists i z, zs !! i = Some z /\ zpending z = true;
  ui_logout : omap zop logout = [];
  ui_main : omap zop main = [] \/ exists i u, omap zop main = [i] /\ zs !! i = Some (u, ZHandling)
}.

(** A request that changes its state but is still dealt with. *)
Lemma users_inv_alter i st auth zs main logout main' :
  users_inv auth zs main logout -> zpending ("", st) = true ->
  (exists z, zs !! i = Some z /\ zpending z = true) ->
  omap zop main' = [] \/ (exists u, omap zop main' = [i] /\ st = ZHandling /\ fst <$> zs !! i = Some u) ->
  users_inv auth (alter (fun z => (z.1, st)) i zs) main' logout.
Proof.
  intros [H1 H2 H3 H4 H5] Hst (z0 & Hz0 & Hp0) Hm.
  assert (Hl : forall j z, alter (fun z => (z.1, st)) i zs !! j = Some z -> zpending z = true ->
            exists z', zs !! j = Some z' /\ zpending z' = true /\ z'.1 = z.1).
  { intros j z; rewrite list_lookup_alter; case_decide; subst; [rewrite Hz0; intros [= <-] _; eauto|eauto]. }
  split.
  - intros j z Hj Hp; destruct (Hl j z Hj Hp) as (z' & Hz' & Hp' & <-); eauto.
  - intros j k z z' Hj Hk Hp Hp'; destruct (Hl j z Hj Hp) as (x & ? & ? & _), (Hl k z' Hk Hp') as (y & ? & ? & _); eauto.
  - intros _; exists i, (z0.1, st); rewrite list_lookup_alter_eq, Hz0; done.
  - done.
  - destruct Hm as [?|(u & Hm & -> & Hu)]; [by left|right; exists i, u; split; [done|]].
    rewrite list_lookup_alter_eq; destruct (zs !! i) as [[u' st']|]; simpl in *; congruence.
Qed.

Lemma exec_zop pc o l w : omap zop (exec pc o l w).2 = match o with OLogin i => [i] | _ => [] end.
Proof. destruct o as [[]| | | | | | | | | | | |]; simpl; try done; try (by destruct (w_current w)); try (by destruct l); try (by case_decide).
  destruct l; simpl; try done; by destruct pc. Qed.

Definition users_ok (w : world) : Prop := users_inv (w_authenticating w) (w_zreqs w) (w_main w) (w_logout w).

Lemma users_main pc o l w rest : users_ok w -> w_main w = o :: rest ->
  users_inv (w_authenticating (exec pc o l w).1) (w_zreqs (exec pc o l w).1) ((exec pc o l w).2 ++ rest) (w_logout w).
Proof.
  intros Hu Hm; pose proof Hu as [H1 H2 H3 H4 H5].
  pose proof (exec_goroutines pc o l w) as (_ & _ & _ & _ & _ & _ & -> & ->).
  pose proof (exec_zop pc o l w) as Hz.
  rewrite Hm in H5; destruct (zop o) as [i|] eqn:Ho.
  - rewrite zop_cons, Ho in H5; destruct H5 as [?|(j & u & [= -> Hr] & Hj)]; [done|].
    destruct o as [| | | | | | | | |k| |k res|]; simpl in Ho; simplify_eq.
    + split; try done; right; exists j, u; rewrite omap_app, Hz, Hr; done.
    + eapply users_inv_alter; [exact Hu|done|by exists (u, ZHandling)|left; by rewrite omap_app, Hz, Hr].
  - rewrite zop_cons, Ho in H5.
    assert (Hzs : match o with OResult i res => alter (fun z => (z.1, ZAnswered res)) i (w_zreqs w) | _ => w_zreqs w end = w_zreqs w)
      by (destruct o; done).
    rewrite Hzs; split; try done; rewrite omap_app, Hz; by destruct o.
Qed.

Lemma users_logout pc o l w rest : users_ok w -> w_logout w = o :: rest ->
  users_inv (w_authenticating (exec pc o l w).1) (w_zreqs (exec pc o l w).1) (w_main w) ((exec pc o l w).2 ++ rest).
Proof.
  intros [H1 H2 H3 H4 H5] Hm.
  pose proof (exec_goroutines pc o l w) as (_ & _ & _ & _ & _ & _ & -> & ->).
  pose proof (exec_zop pc o l w) as Hz; rewrite Hm, zop_cons in H4.
  destruct (zop o) as [i|] eqn:Ho; [done|].
  assert (Hzs : match o with OResult i res => alter (fun z => (z.1, ZAnswered res)) i (w_zreqs w) | _ => w_zreqs w end = w_zreqs w)
    by (destruct o; done).
  rewrite Hzs; split; try done; rewrite omap_app, Hz, H4; by destruct o.
Qed.

(** A request that is answered at once, and one that is taken on. *)
Lemma users_inv_replied user code auth zs main logout : users_inv auth zs main logout ->
  users_inv auth (zs ++ [(user, ZReplied code)]) main logout.
Proof.
  intros [H1 H2 H3 H4 H5].
  assert (Hl : forall j z, (zs ++ [(user, ZReplied code)]) !! j = Some z -> zpending z = true -> zs !! j = Some z).
  { intros j z [?|[_ Hz]]%lookup_app_Some Hp; [done|]; destruct (j - length zs)%nat; simpl in Hz; by simplify_eq. }
  split; eauto 10.
  - intros Ha; destruct (H3 Ha) as (i & z & Hz & Hp); exists i, z; split; [by apply lookup_app_l_Some|done].
  - destruct H5 as [?|(i & u & ? & Hz)]; [by left|right; exists i, u; split; [done|by apply lookup_app_l_Some]].
Qed.

Lemma users_inv_taken user zs main logout : users_inv "" zs main logout -> user <> "" ->
  users_inv user (zs ++ [(user, ZQueued)]) main logout.
Proof.
  intros [H1 H2 H3 H4 H5] Hne.
  assert (Hnone : forall j z, zs !! j = Some z -> zpending z = true -> False).
  { intros j z Hz Hp; destruct (H1 j z Hz Hp) as [-> Hn]; done. }
  assert (Hl : forall j z, (zs ++ [(user, ZQueued)]) !! j = Some z -> zpending z = true -> j = length zs /\ z = (user, ZQueued)).
  { intros j z [Hz|[Hle Hz]]%lookup_app_Some Hp; [exfalso; eauto|].
    destruct (j - length zs)%nat eqn:Hj; simpl in Hz; simplify_eq; split; [lia|done]. }
  split.
  - intros j z Hz Hp; destruct (Hl j z Hz Hp) as [-> ->]; done.
  - intros i j z z' Hz Hz' Hp Hp'; destruct (Hl i z Hz Hp) as [-> _], (Hl j z' Hz' Hp') as [-> _]; done.
  - intros _; exists (length zs), (user, ZQueued); split; [by apply list_lookup_middle|done].
  - done.
  - destruct H5 as [?|(i & u & ? & Hz)]; [by left|right; exists i, u; split; [done|by apply lookup_app_l_Some]].
Qed.

Lemma users_inv_done i user res code zs main logout auth : users_inv auth zs main logout -> zs !! i = Some (user, ZAnswered res) ->
  users_inv "" (<[i := (user, ZReplied code)]> zs) main logout.
Proof.
  intros [H1 H2 H3 H4 H5] Hi.
  assert (Hnone : forall j z, <[i := (user, ZReplied code)]> zs !! j = Some z -> zpending z = true -> False).
  { intros j z Hz Hp; apply list_lookup_insert_Some in Hz as [(-> & <- & _)|[Hne Hz]]; [done|].
    apply Hne; by eapply H2. }
  split; try (by intros; exfalso; eauto); [done|].
  destruct H5 as [?|(j & u & ? & Hz)]; [by left|right; exists j, u; split; [done|]].
  rewrite list_lookup_insert_ne; [done|]; intros ->; simplify_eq.
Qed.

Lemma step_users_ok pc lab w w' : users_ok w -> step pc lab w = Some w' -> users_ok w'.
Proof.
  intros Hu Hs; destruct lab as [l|l|i|p| | |s by_|s|s|id r| | | |user|i]; simpl in Hs; unfold run_return, run_retire, run_drop, api_look, add_user, add_user_done in Hs.
  - destruct (w_main w) as [|o rest] eqn:Hm; [done|].
    pose proof (exec_goroutines pc o l w) as (_ & Hl & _); pose proof (users_main pc o l w rest Hu Hm) as Hx.
    destruct (exec pc o l w) as [w1 more]; simpl in *; simplify_eq; unfold users_ok; simpl; by rewrite Hl.
  - destruct (w_logout w) as [|o rest] eqn:Hm; [done|].
    pose proof (exec_goroutines pc o l w) as (Hl & _); pose proof (users_logout pc o l w rest Hu Hm) as Hx.
    destruct (exec pc o l w) as [w1 more]; simpl in *; simplify_eq; unfold users_ok; simpl; by rewrite Hl.
  - destruct (w_main w) eqn:Hm, (w_started w); try done; destruct (w_zreqs w !! i) as [[u []]|] eqn:Hz; simplify_eq.
    unfold users_ok; simpl; eapply users_inv_alter; [exact Hu|done|by exists (u, ZQueued)|right; exists u; by rewrite Hz].
  - destruct (w_logout w) eqn:Hm, (w_started w), (w_cancelled w); try done.
    destruct (w_sess w !! p); [|done]; case_decide; simplify_eq; by destruct Hu.
  - by simplify_eq.
  - destruct (w_logout w) eqn:Hm, (w_started w), (w_cancelled w); simplify_eq; by destruct Hu.
  - destruct (w_sess w !! s) as [x|]; [|done]; case_decide; [|done].
    destruct by_; [|destruct (s_closed x); [|done]]; by simplify_eq.
  - destruct (w_sess w !! s); [|done]; case_decide; by simplify_eq.
  - destruct (w_sess w !! s); [|done]; case_decide; simplify_eq; by case_decide.
  - destruct (w_api w); try done; case_match; by simplify_eq.
  - destruct (w_api w); try done; destruct (w_current w); by simplify_eq.
  - destruct (w_api w); try done; destruct (w_sess w !! s); [|done]; case_decide; by simplify_eq.
  - destruct (w_api w); try done; case_match; by simplify_eq.
  - case_decide; [done|]; case_decide; [simplify_eq; by apply users_inv_replied|].
    case_decide as Ha; simplify_eq; [by apply users_inv_replied|].
    unfold users_ok in *; rewrite Ha in Hu; by apply users_inv_taken.
  - destruct (w_zreqs w !! i) as [[u []]|] eqn:Hz; simplify_eq; by eapply users_inv_done.
Qed.

Lemma reachable_users pc name w : wsteps pc name w -> users_ok w.
Proof.
  intros Hw; eapply (star_invariant _ users_ok); [|exact Hw|].
  - intros w1 w2 H1 [lab Hs]; by eapply step_users_ok.
  - split; simpl; try done; by left.
Qed.

(** ** The theorems *)

(** C13: However the boot, logouts, new users from the network, the end of run loops
    and the end of the program interleave: a session that is not the current one
    is closed, or one of the goroutines is about to close or to install it; and
    at rest no other session than the current one is open. *)
Theorem replaced_sessions_closed (pc : bool) (name : string) (w : world) (s : nat) (x : activeSession) :
  wsteps pc name w -> w_sess w !! s = Some x -> w_current w <> Some s ->
  s_closed x = true \/ OClose s ∈ pending_ops w \/ OSwap (Some s) ∈ pending_ops w.
Proof. intros Hw Hx Hc; destruct (si_closed _ _ _ (reachable_ok _ _ _ Hw) s x Hx) as [?|?]; [done|done]. Qed.

Definition swap_labels : list label :=
  let main := LMain NoCredentials in
  [LMain (LoggedIn "ann"); main; main; main; main; LAddUser "bob"; LServe 0; main; main; main; LMain (LoggedIn "bob");
   main; main; main; LAddUserDone 0].

Lemma play_steps pc ls : forall w w', play pc ls w = Some w' -> star (fun w w' => exists lab, step pc lab w = Some w') w w'.
Proof.
  induction ls as [|lab ls IH]; intros w w' Hp; simpl in Hp; [simplify_eq; constructor|].
  destruct (step pc lab w) as [w1|] eqn:Hs; [|done]; econstructor; [by exists lab|by apply IH].
Qed.

Lemma replaced_sessions_closed_witness : exists w,
  play false swap_labels (boot "dev") = Some w /\ w_current w = Some 1%nat /\
  w_sess w = [MkSession "ann" Running true true; MkSession "bob" Running false false] /\
  (true = true \/ OClose 0 ∈ pending_ops w \/ OSwap (Some 0%nat) ∈ pending_ops w).
Proof.
  eexists; split; [vm_compute; reflexivity|]; split; [reflexivity|]; split; [reflexivity|].
  eapply (replaced_sessions_closed false "dev" _ 0 (MkSession "ann" Running true true));
    [eapply (play_steps false swap_labels); vm_compute; reflexivity|reflexivity|discriminate].
Defined.

(** C24: Every API request that was taken is answered without a session, delivered
    to a session, or still at hand: exactly one of them, and once. *)
Theorem api_requests_answered_once (pc : bool) (name : string) (w : world) :
  wsteps pc name w ->
  NoDup ((fst <$> w_replies w) ++ (fst <$> w_delivered w) ++ api_ids (w_api w)) /\
  w_taken w ≡ₚ (fst <$> w_replies w) ++ (fst <$> w_delivered w) ++ api_ids (w_api w).
Proof. intros Hw; destruct (reachable_api _ _ _ Hw) as [_ [Hnd Hp _]]; split; [by rewrite <- Hp|done]. Qed.

Definition api_labels : list label :=
  let main := LMain NoCredentials in
  [LMain (LoggedIn "ann"); main; main; main; main; LApiTake 1 ReqOther; LApiLook; LApiDeliver; LApiTake 2 ReqRoot; LApiLook;
   LLoggedOut 0; LLogout NoCredentials; LLogout NoCredentials; LLogout NoCredentials; LApiGiveUp; LApiTake 3 ReqRoot; LApiLook].

Lemma api_requests_answered_once_witness : exists w,
  play false api_labels (boot "dev") = Some w /\ w_replies w = [(2, ReplyNoSession); (3, ReplyRoot)]%nat /\
  w_delivered w = [(1, 0)]%nat /\
  NoDup ((fst <$> w_replies w) ++ (fst <$> w_delivered w) ++ api_ids (w_api w)) /\
  w_taken w ≡ₚ (fst <$> w_replies w) ++ (fst <$> w_delivered w) ++ api_ids (w_api w).
Proof.
  eexists; split; [vm_compute; reflexivity|]; split; [reflexivity|]; split; [reflexivity|].
  apply (api_requests_answered_once false "dev"); eapply (play_steps false api_labels); vm_compute; reflexivity.
Defined.

(** C30: The goroutine that forwards API requests never waits on a session that is
    gone: the session takes the request, or the forwarder can give up, or the
    session's own run loop is about to release it, or it is about to start. *)
Theorem api_request_never_stuck (pc : bool) (name : string) (w : world) (id s : nat) :
  wsteps pc name w -> w_api w = ApiForward id s ->
  is_Some (step pc LApiDeliver w) \/ is_Some (step pc LApiGiveUp w) \/
  (exists w', step pc (LRunRetire s) w = Some w' /\ is_Some (step pc LApiGiveUp w')) \/
  OStart s ∈ pending_ops w \/ OSwap (Some s) ∈ pending_ops w.
Proof.
  intros Hw Hf; destruct (reachable_api _ _ _ Hw) as [Hi [_ _ Hex]]; destruct (Hex id s Hf) as [x Hx].
  destruct (s_run x) eqn:Hr.
  - right; right; right; by eapply (si_start _ _ _ Hi).
  - left; simpl; rewrite Hf, Hx, decide_True by done; by eexists.
  - right; right; left; simpl; unfold run_retire; rewrite Hx, decide_True by done; eexists; split; [reflexivity|]; simpl.
    rewrite Hf, list_lookup_alter_eq, Hx; simpl; rewrite orb_true_r; by eexists.
  - right; left; simpl; rewrite Hf, Hx; simpl; rewrite (si_done _ _ _ Hi s x Hx) by auto; rewrite orb_true_r; by eexists.
  - right; left; simpl; rewrite Hf, Hx; simpl; rewrite (si_done _ _ _ Hi s x Hx) by auto; rewrite orb_true_r; by eexists.
Qed.

Definition stuck_labels : list label :=
  let main := LMain NoCredentials in
  [LMain (LoggedIn "ann"); main; main; main; main; LApiTake 1 ReqOther; LApiLook; LRunReturn 0 true].

Lemma api_request_never_stuck_witness : exists w,
  play false stuck_labels (boot "dev") = Some w /\ w_api w = ApiForward 1 0 /\
  (is_Some (step false LApiDeliver w) \/ is_Some (step false LApiGiveUp w) \/
   (exists w', step false (LRunRetire 0) w = Some w' /\ is_Some (step false LApiGiveUp w')) \/
   OStart 0 ∈ pending_ops w \/ OSwap (Some 0%nat) ∈ pending_ops w).
Proof.
  eexists; split; [vm_compute; reflexivity|]; split; [reflexivity|].
  eapply (api_request_never_stuck false "dev" _ 1 0);
    [eapply (play_steps false stuck_labels); vm_compute; reflexivity|reflexivity].
Defined.

(** Users of the network log in one at a time: no two of their requests are
    dealt with at once, the user who holds the login is the one whose request
    is, and the hold ends with it. *)
Theorem users_one_at_a_time (pc : bool) (name : string) (w : world) :
  wsteps pc name w ->
  (forall i j z z', w_zreqs w !! i = Some z -> w_zreqs w !! j = Some z' -> zpending z = true -> zpending z' = true -> i = j) /\
  (forall i z, w_zreqs w !! i = Some z -> zpending z = true -> z.1 = w_authenticating w) /\
  (w_authenticating w <> "" -> exists i z, w_zreqs w !! i = Some z /\ zpending z = true).
Proof.
  intros Hw; destruct (reachable_users _ _ _ Hw) as [H1 H2 H3 _ _]; split_and!; [done| |done].
  intros i z Hz Hp; by destruct (H1 i z Hz Hp).
Qed.

Lemma users_one_at_a_time_witness : exists w,
  play false [LMain NoCredentials; LMain NoCredentials; LAddUser "ann"; LAddUser "bob"; LServe 0] (boot "dev") = Some w /\
  w_zreqs w = [("ann", ZHandling); ("bob", ZReplied 403)] /\
  (forall i j z z', w_zreqs w !! i = Some z -> w_zreqs w !! j = Some z' -> zpending z = true -> zpending z' = true -> i = j) /\
  (forall i z, w_zreqs w !! i = Some z -> zpending z = true -> z.1 = w_authenticating w) /\
  (w_authenticating w <> "" -> exists i z, w_zreqs w !! i = Some z /\ zpending z = true).
Proof.
  eexists; split; [vm_compute; reflexivity|]; split; [reflexivity|].
  apply (users_one_at_a_time false "dev").
  eapply (play_steps false [LMain NoCredentials; LMain NoCredentials; LAddUser "ann"; LAddUser "bob"; LServe 0]);
    vm_compute; reflexivity.
Defined.

(** ** What goes wrong *)

(** A logout is checked and acted on in two steps: a user who logs in from the
    network in between is accepted, and the new session torn down at once. *)
Theorem logout_ends_new_session : exists ls w,
  play false ls (boot "dev") = Some w /\ w_zreqs w = [("bob", ZReplied 200)] /\ w_currentUser w = "bob" /\
  w_current w = None /\ w_sess w !! 1%nat = Some (MkSession "bob" Running true true).
Proof.
  exists (let main := LMain NoCredentials in let out := LLogout NoCredentials in
    [LMain (LoggedIn "ann"); main; main; main; main; LLoggedOut 0; out;
     LAddUser "bob"; LServe 0; main; main; main; LMain (LoggedIn "bob"); main; main; main; LAddUserDone 0;
     out; out; out]).
  eexists; split; [vm_compute; reflexivity|]; by split_and!.
Qed.

(** A second request of the user being logged in is answered with success at
    once, even if the login then fails; and a login that fails leaves the user
    before as the current one, although that session was closed for it. *)
Theorem failed_login_misreported : exists ls w,
  play false ls (boot "dev") = Some w /\ w_zreqs w = [("bob", ZReplied 403); ("bob", ZReplied 200)] /\
  w_currentUser w = "ann" /\ w_current w = None.
Proof.
  exists (let main := LMain NoCredentials in
    [LMain (LoggedIn "ann"); main; main; main; main; LAddUser "bob"; LServe 0; LAddUser "bob"; main; main; main;
     LMain LoginFails; main; LAddUserDone 0]).
  eexists; split; [vm_compute; reflexivity|]; by split_and!.
Qed.
