(* ===== verification/ApiServer.v ===== *)
(** * The HTTP API ([src/daemon/api_server.go])

    The handlers that check a request before the player sees it, how its outcome
    becomes a status, the listeners of events, and the choice of a cover. *)

From S2P Require Import Prelude Loader Library Service Requests Volume.
#[local] Open Scope string_scope.
#[local] Open Scope list_scope.
#[local] Open Scope Z_scope.

(** ** Listeners of events

    A listener's queue, what its writer has sent, and whether it is gone. *)
Definition wsEventQueueSize : Z := 64.

Section clients.
Context {E : Type}.

Record wsClient := MkClient { cl_events : list E; cl_written : list E; cl_dropped : list E; cl_done : bool }.
Implicit Types (c : wsClient).

Definition close c : wsClient := MkClient (cl_events c) (cl_written c) (cl_dropped c) true.

(** The writer takes the oldest event, unless the client is gone. *)
Definition writeEvents_step c : wsClient :=
  match cl_done c, cl_events c with
  | false, ev :: q => MkClient q (cl_written c ++ [ev]) (cl_dropped c) false
  | _, _ => c
  end.

Fixpoint takes (n : nat) c : wsClient := match n with O => c | S n => takes n (writeEvents_step c) end.

Definition enqueue (ev : E) c : option wsClient :=
  if decide (zlen (cl_events c) < wsEventQueueSize)
  then Some (MkClient (cl_events c ++ [ev]) (cl_written c) (cl_dropped c) (cl_done c)) else None.

Definition discard c : wsClient :=
  match cl_events c with
  | ev :: q => MkClient q (cl_written c) (cl_dropped c ++ [ev]) (cl_done c)
  | [] => c
  end.

(** [send]: [sched] says how many events the writer takes before each of its
    steps. *)
Fixpoint send_loop (rounds : nat) (ev : E) (sched : nat -> nat) (i : nat) c : wsClient * bool :=
  match rounds with
  | O => (c, false)
  | S rounds =>
    let c := takes (sched i) c in
    match enqueue ev c with
    | Some c => (c, true)
    | None => send_loop rounds ev sched (S (S i)) (discard (takes (sched (S i)) c))
    end
  end.

Definition send (ev : E) (sched : nat -> nat) c : wsClient * bool :=
  if cl_done c then (c, false) else send_loop 2 ev sched 0 c.

(** The server's clients: [Emit] to all, a new one, one that went away, and
    [Close]. *)
Definition Emit (ev : E) (sched : nat -> nat -> nat) (cs : list wsClient) : list wsClient :=
  imap (fun i c => (send ev (sched i) c).1) cs.
Definition GetEvents (cs : list wsClient) : list wsClient := cs ++ [MkClient [] [] [] false].
Definition remove_client (i : nat) (cs : list wsClient) : list wsClient := delete i cs.
Definition Close (cs : list wsClient) : list wsClient := close <$> cs.
End clients.
Arguments wsClient : clear implicits.

(** ** Statuses *)
Definition ErrBadRequest : error := ESentinel "bad request".
Definition ErrNotFound : error := ESentinel "not found".
Definition ErrMethodNotAllowed : error := ESentinel "method not allowed".
Definition ErrTooManyRequests : error := ESentinel "the app has exceeded its rate limits".

(** The status [handleRequest] answers with: of a request nobody picked up, and
    of one with a reply. *)
Definition status_of (err : option error) : Z :=
  match err with
  | None => 200
  | Some e =>
    if errors_Is e ErrNoSession then 204
    else if errors_Is e ErrForbidden then 403
    else if errors_Is e ErrNotFound then 404
    else if errors_Is e ErrMethodNotAllowed then 405
    else if errors_Is e ErrTooManyRequests then 429
    else if errors_Is e ErrSuperseded || errors_Is e ErrLoaderBusy || errors_Is e ErrPlaylistConflict then 409
    else if errors_Is e ErrBadRequest then 400
    else 500
  end.

Definition handleRequest (pickedUp : option (option error)) : Z :=
  match pickedUp with None => 503 | Some err => status_of err end.

(** ** Handlers

    [jsonDecode]: an empty body leaves the zero value.  A handler refuses with
    400 or hands a request on. *)
Definition jsonDecode {A} (zero : A) (unmarshal : list Z -> result A) (body : result (list Z)) : result A :=
  match body with
  | Err e => Err e
  | Ok [] => Ok zero
  | Ok data => unmarshal data
  end.

Inductive ServerRequest :=
| SrPlayer (req : ApiRequest)
| SrSetVolume (data : ApiSetVolume)
| SrSetDeviceName (name : string)
| SrReopenOutput (device : string).

Definition handled (A : Type) : Type := option A.
Definition BadRequest {A} : handled A := None.

Definition PlayerPlay (body : result ApiPlay) : handled ServerRequest :=
  match body with
  | Err _ => BadRequest
  | Ok data => if decide (ap_Uri data = "") then BadRequest else Some (SrPlayer (ReqPlay data))
  end.

Definition PlayerNext (body : result (option string)) : handled ServerRequest :=
  match body with Err _ => BadRequest | Ok uri => Some (SrPlayer (ReqNext uri)) end.

Record ApiSeek := MkSeek { sk_Position : Z; sk_Relative : bool }.

Definition PlayerSeek (body : result ApiSeek) : handled ServerRequest :=
  match body with
  | Err _ => BadRequest
  | Ok data =>
    if negb (sk_Relative data) && bool_decide (sk_Position data < 0) then BadRequest
    else Some (SrPlayer (ReqSeek (sk_Position data) (sk_Relative data)))
  end.

Definition PlayerSetVolume (body : result ApiSetVolume) : handled ServerRequest :=
  match body with
  | Err _ => BadRequest
  | Ok data =>
    if negb (sv_Relative data) && bool_decide (sv_Volume data < 0) then BadRequest else Some (SrSetVolume data)
  end.

Definition PlayerRepeatContext (body : result bool) : handled ServerRequest :=
  match body with Err _ => BadRequest | Ok v => Some (SrPlayer (ReqSetRepeatingContext v)) end.
Definition PlayerRepeatTrack (body : result bool) : handled ServerRequest :=
  match body with Err _ => BadRequest | Ok v => Some (SrPlayer (ReqSetRepeatingTrack v)) end.
Definition PlayerShuffleContext (body : result bool) : handled ServerRequest :=
  match body with Err _ => BadRequest | Ok v => Some (SrPlayer (ReqSetShufflingContext v)) end.

Definition PlayerAddToQueue (body : result string) : handled ServerRequest :=
  match body with
  | Err _ => BadRequest
  | Ok uri => if decide (uri = "") then BadRequest else Some (SrPlayer (ReqAddToQueue uri))
  end.

Definition SetDeviceName (body : result string) : handled ServerRequest :=
  match body with
  | Err _ => BadRequest
  | Ok name => if decide (name = "") then BadRequest else Some (SrSetDeviceName name)
  end.

Definition PlayerOutput (body : result string) : handled ServerRequest :=
  match body with Err _ => BadRequest | Ok device => Some (SrReopenOutput device) end.

(** [SetLiked]: whether to like must be said. *)
Definition SetLiked (body : result (list string * option bool)) : run (handled (list string * bool)) :=
  match body with
  | Ok (uris, Some liked) =>
    ok ← validItemUris uris [Ids.SpotifyIdTypeTrack];
    Ret (if ok : bool then Some (uris, liked) else BadRequest)
  | _ => Ret BadRequest
  end.

Definition GetLiked (uris : list string) : run (handled (list string)) :=
  ok ← validItemUris uris [Ids.SpotifyIdTypeTrack]; Ret (if ok : bool then Some uris else BadRequest).

(** ** Covers

    The sizes of images are numbers from smallest to largest; [wanted] is the
    configured one. *)
Record Image := MkImage { im_FileId : list Z; im_Size : option Z }.

Definition dist (wanted a : Z) : Z := Z.abs (a - wanted).

Fixpoint best_loop (wanted : Z) (best : option (Image * Z)) (images : list Image) : list Z + option (Image * Z) :=
  match images with
  | [] => inr best
  | img :: images =>
    match im_Size img with
    | None => best_loop wanted best images
    | Some size =>
      if decide (size = wanted) then inl (im_FileId img)
      else
        let closer := match best with None => true | Some (_, b) => bool_decide (dist wanted size < dist wanted b) end in
        best_loop wanted (if closer then Some (img, size) else best) images
    end
  end.

Definition getBestImageIdForSize (images : list Image) (wanted : Z) : option (list Z) :=
  match images with
  | [] => None
  | first :: _ =>
    match best_loop wanted None images with
    | inl id => Some id
    | inr (Some (img, _)) => Some (im_FileId img)
    | inr None => Some (im_FileId first)
    end
  end.
