(* ===== verification/ApiServerClaims.v ===== *)
(** * The HTTP API: theorems

    A listener gets events in order, up to the newest, whatever it misses; the
    cover chosen is one of the closest size. *)

From S2P Require Import Prelude Requests ApiServer.
#[local] Open Scope list_scope.
#[local] Open Scope Z_scope.

Section events.
Context {E : Type}.
Implicit Types (c : wsClient E) (ev : E) (emitted : list E).

(** What the player emits, and what the listener's writer does. *)
Inductive client_op := OpEmit (ev : E) (sched : nat -> nat) | OpWrite.

Definition client_step (s : wsClient E * list E) (o : client_op) : wsClient E * list E :=
  match o with
  | OpEmit ev sched => ((send ev sched s.1).1, s.2 ++ [ev])
  | OpWrite => (writeEvents_step s.1, s.2)
  end.

Definition client_run (ops : list client_op) : wsClient E * list E := foldl client_step (MkClient [] [] [] false, []) ops.

Record client_inv c emitted : Prop := {
  ci_open : cl_done c = false;
  ci_order : sublist (cl_written c ++ cl_events c) emitted;
  ci_all : emitted ≡ₚ cl_dropped c ++ cl_written c ++ cl_events c;
  ci_bound : zlen (cl_events c) <= wsEventQueueSize;
  ci_few : zlen emitted <= wsEventQueueSize -> cl_dropped c = []
}.

Lemma write_inv c emitted : client_inv c emitted ->
  client_inv (writeEvents_step c) emitted /\
  cl_written (writeEvents_step c) ++ cl_events (writeEvents_step c) = cl_written c ++ cl_events c.
Proof.
  intros [Ho Hs Ha Hb Hf]; unfold writeEvents_step; rewrite Ho.
  destruct (cl_events c) as [|ev q] eqn:Hq; [split; [by split; rewrite ?Hq|by rewrite Hq]|].
  assert (He : (cl_written c ++ [ev]) ++ q = cl_written c ++ ev :: q) by (by rewrite <- app_assoc).
  split; [|simpl; done]; split; simpl; rewrite ?He; try done; rewrite zlen_cons in Hb; lia.
Qed.

Lemma takes_inv n : forall c emitted, client_inv c emitted ->
  client_inv (takes n c) emitted /\ cl_written (takes n c) ++ cl_events (takes n c) = cl_written c ++ cl_events c.
Proof.
  induction n as [|n IH]; intros c emitted Hc; simpl; [done|].
  destruct (write_inv c emitted Hc) as [H1 H2], (IH _ _ H1) as [H3 H4]; by rewrite H4.
Qed.

(** Queueing an event, and making room for it when others were emitted. *)
Lemma enqueue_inv ev c c' emitted : client_inv c emitted -> enqueue ev c = Some c' ->
  client_inv c' (emitted ++ [ev]) /\ last (cl_written c' ++ cl_events c') = Some ev.
Proof.
  intros [Ho Hs Ha Hb Hf]; unfold enqueue; case_decide as Hl; [|done]; intros [= <-]; split; [split|]; simpl.
  - done.
  - rewrite app_assoc; by apply sublist_app.
  - by rewrite Ha, <- !app_assoc.
  - rewrite zlen_app; unfold zlen at 2; simpl; lia.
  - intros Hz; apply Hf; rewrite zlen_app in Hz; unfold zlen at 2 in Hz; simpl in Hz; lia.
  - by rewrite app_assoc, last_snoc.
Qed.

Lemma discard_inv c emitted : client_inv c emitted -> wsEventQueueSize <= zlen emitted ->
  exists c0, discard c = c0 /\ cl_done c0 = false /\ sublist (cl_written c0 ++ cl_events c0) emitted /\
    emitted ≡ₚ cl_dropped c0 ++ cl_written c0 ++ cl_events c0 /\ zlen (cl_events c0) < wsEventQueueSize.
Proof.
  intros [Ho Hs Ha Hb Hf] Hz; eexists; split; [reflexivity|]; unfold discard.
  destruct (cl_events c) as [|ev q] eqn:Hq; simpl.
  - rewrite Hq; split_and!; try done; by rewrite Hq.
  - split_and!; [done| | |rewrite zlen_cons in Hb; lia].
    + etransitivity; [|exact Hs]; apply sublist_app; [done|by constructor].
    + rewrite Ha, <- app_assoc; simpl; by rewrite <- (Permutation_middle (cl_written c) q ev).
Qed.

Lemma send_inv ev sched c emitted : client_inv c emitted ->
  client_inv (send ev sched c).1 (emitted ++ [ev]) /\ (send ev sched c).2 = true /\
  last (cl_written (send ev sched c).1 ++ cl_events (send ev sched c).1) = Some ev.
Proof.
  intros Hc; unfold send; rewrite (ci_open _ _ Hc); cbn [send_loop].
  destruct (takes_inv (sched 0%nat) c emitted Hc) as [H1 _]; set (c1 := takes (sched 0%nat) c) in *.
  destruct (enqueue ev c1) as [c2|] eqn:He; [by destruct (enqueue_inv ev c1 c2 emitted H1 He)|].
  assert (Hfull : wsEventQueueSize <= zlen emitted).
  { unfold enqueue in He; case_decide as Hl; [done|]; destruct H1 as [_ Hs _ _ _].
    apply sublist_length in Hs; rewrite length_app in Hs; unfold zlen in *; lia. }
  destruct (takes_inv (sched 1%nat) c1 emitted H1) as [H2 _]; set (c2 := takes (sched 1%nat) c1) in *.
  destruct (discard_inv c2 emitted H2 Hfull) as (c3 & -> & Ho3 & Hs3 & Ha3 & Hb3).
  assert (Hlong : wsEventQueueSize < zlen (emitted ++ [ev])) by (rewrite zlen_app; unfold zlen at 2; simpl; lia).
  set (n := sched 2%nat).
  assert (Htake : forall c, cl_done c = false /\ sublist (cl_written c ++ cl_events c) emitted /\
            emitted ≡ₚ cl_dropped c ++ cl_written c ++ cl_events c /\ zlen (cl_events c) < wsEventQueueSize ->
            let d := takes n c in cl_done d = false /\ sublist (cl_written d ++ cl_events d) emitted /\
            emitted ≡ₚ cl_dropped d ++ cl_written d ++ cl_events d /\ zlen (cl_events d) < wsEventQueueSize).
  { clear; induction n as [|m IH]; intros c Hc; simpl; [done|]; apply IH.
    destruct Hc as (Ho & Hs & Ha & Hb); unfold writeEvents_step; rewrite Ho; destruct (cl_events c) as [|x q] eqn:Hq; simpl.
    - by rewrite Hq.
    - rewrite <- app_assoc; simpl; split_and!; try done; rewrite zlen_cons in Hb; lia. }
  destruct (Htake c3) as (Ho4 & Hs4 & Ha4 & Hb4); [done|]; set (c4 := takes n c3) in *.
  unfold enqueue; rewrite decide_True by done; simpl; split_and!; [split; simpl|done|by rewrite app_assoc, last_snoc].
  - done.
  - rewrite app_assoc; by apply sublist_app.
  - by rewrite Ha4, <- !app_assoc.
  - rewrite zlen_app; unfold zlen at 2; simpl; lia.
  - lia.
Qed.
End events.


Definition listener_demo : list (@client_op nat) :=
  (fun i => OpEmit i (fun _ => 0%nat)) <$> seq 0 67.


(** ** Covers *)
Definition sized (img : Image) : Prop := is_Some (im_Size img).

Lemma best_loop_ok wanted images : forall best,
  (forall img b, best = Some (img, b) -> im_Size img = Some b) ->
  match best_loop wanted best images with
  | inl id => exists img, img ∈ images /\ im_Size img = Some wanted /\ im_FileId img = id
  | inr None => best = None /\ Forall (fun img => im_Size img = None) images
  | inr (Some (img, b)) =>
    im_Size img = Some b /\ (best = Some (img, b) \/ img ∈ images) /\
    (forall img' s, (img' ∈ images \/ best = Some (img', s)) -> im_Size img' = Some s -> dist wanted b <= dist wanted s)
  end.
Proof.
  induction images as [|img0 images IH]; intros best Hb; simpl.
  - destruct best as [[img b]|]; [|done]; split_and!; [by apply Hb|by left|].
    intros img' s [Hin|[= <- <-]] _; [by apply elem_of_nil in Hin|lia].
  - destruct (im_Size img0) as [size|] eqn:Hs0.
    + case_decide as He; [exists img0; subst; split_and!; [by constructor|done|done]|].
      set (closer := match best with None => true | Some (_, b) => bool_decide (dist wanted size < dist wanted b) end).
      specialize (IH (if closer then Some (img0, size) else best)).
      assert (Hb' : forall img b, (if closer then Some (img0, size) else best) = Some (img, b) -> im_Size img = Some b).
      { intros img b; destruct closer; [intros [= <- <-]; done|apply Hb]. }
      specialize (IH Hb'); destruct (best_loop _ _ images) as [id|[[img b]|]].
      * destruct IH as (img & Hin & ?); exists img; split; [by right|done].
      * destruct IH as (Hsz & Hfrom & Hmin); split_and!; [done| |].
        { destruct Hfrom as [Hfrom|?]; [|right; by right]; destruct closer; [injection Hfrom as <- <-; right; by constructor|by left]. }
        intros img' s Hin Hs.
        assert (Hbest : forall s0 i0, best = Some (i0, s0) -> dist wanted b <= dist wanted s0).
        { intros s0 i0 Hbest; unfold closer in Hmin; rewrite Hbest in Hmin.
          case_bool_decide as Hlt.
          - specialize (Hmin img0 size (or_intror eq_refl) Hs0); lia.
          - apply (Hmin i0 s0); [by right|by apply Hb]. }
        destruct Hin as [Hin|Hin]; [|by eapply Hbest].
        apply elem_of_cons in Hin as [->|Hin]; [|by apply (Hmin img' s); [left|]].
        rewrite Hs0 in Hs; injection Hs as <-; destruct closer eqn:Hc; [apply (Hmin img0 size); [by right|done]|].
        unfold closer in Hc; destruct best as [[i0 s0]|]; [|done]; apply bool_decide_eq_false in Hc.
        specialize (Hbest s0 i0 eq_refl); lia.
      * destruct IH as [Hn _]; unfold closer in Hn; destruct best as [[? ?]|]; [by case_bool_decide|done].
    + specialize (IH best Hb); destruct (best_loop wanted best images) as [id|[[img b]|]].
      * destruct IH as (img & Hin & ?); exists img; split; [by right|done].
      * destruct IH as (Hsz & Hfrom & Hmin); split_and!; [done|destruct Hfrom; [by left|right; by right]|].
        intros img' s [Hin|Hin] Hs; [|by apply (Hmin img' s); [right|]].
        apply elem_of_cons in Hin as [->|Hin]; [congruence|by apply (Hmin img' s); [left|]].
      * destruct IH; split; [done|by constructor].
Qed.

(** Of any images a cover is chosen; when some say their size, it is one of
    those, and none of them is closer to the size that is wanted. *)
Theorem best_image_closest (images : list Image) (wanted : Z) :
  images <> [] ->
  exists img, img ∈ images /\ getBestImageIdForSize images wanted = Some (im_FileId img) /\
    forall img' s', img' ∈ images -> im_Size img' = Some s' ->
      exists s, im_Size img = Some s /\ dist wanted s <= dist wanted s'.
Proof.
  intros Hne; pose proof (best_loop_ok wanted images None ltac:(done)) as Hl.
  destruct images as [|first images]; [done|]; unfold getBestImageIdForSize.
  destruct (best_loop wanted None (first :: images)) as [id|[[img b]|]].
  - destruct Hl as (img & Hin & Hs & <-); exists img; split_and!; [done|done|]; intros img' s' _ _.
    exists wanted; split; [done|]; unfold dist; lia.
  - destruct Hl as (Hsz & [?|Hin] & Hmin); [done|]; exists img; split_and!; [done|done|].
    intros img' s' Hin' Hs'; exists b; split; [done|]; apply (Hmin img' s'); [by left|done].
  - destruct Hl as [_ Hall]; exists first; split_and!; [by constructor|done|].
    intros img' s' Hin' Hs'; rewrite Forall_forall in Hall; apply Hall in Hin'; congruence.
Qed.

Lemma best_image_closest_witness :
  exists img, img ∈ [MkImage [1] None; MkImage [2] (Some 0); MkImage [3] (Some 2)] /\
    getBestImageIdForSize [MkImage [1] None; MkImage [2] (Some 0); MkImage [3] (Some 2)] 3 = Some (im_FileId img) /\
    forall img' s', img' ∈ [MkImage [1] None; MkImage [2] (Some 0); MkImage [3] (Some 2)] -> im_Size img' = Some s' ->
      exists s, im_Size img = Some s /\ dist 3 s <= dist 3 s'.
Proof. apply (best_image_closest [MkImage [1] None; MkImage [2] (Some 0); MkImage [3] (Some 2)] 3); discriminate. Defined.
