(* ===== verification/StateStore.v ===== *)
(** * The saved state ([src/cmd/daemon/file_state_store.go], [requestPersist] and
    [persistState] of [src/daemon/app.go])

    The state is written to a temporary file that then takes the place of the
    old one; requests to save it are coalesced by one goroutine.  The disk is
    explicit; how each call of the operating system ends, and whether the
    program dies before it, are arguments. *)

From S2P Require Import Prelude.
#[local] Open Scope string_scope.
#[local] Open Scope list_scope.

(** ** Files *)
Definition os_ErrNotExist : error := ESentinel "os.ErrNotExist".

Section store.
Context {St : Type}.
(** [encoding/json], credentials included, and what the legacy file adds. *)
Context (encode : St -> list Z) (decode : list Z -> result St) (empty : St).
Context (no_username : St -> bool) (decode_credentials : list Z -> St -> result St).

Record FileStateStore := MkStore { statePath : string; credentialsPath : string }.
Implicit Types (st : FileStateStore).

Abbreviation disk := (gmap string (list Z)).

(** [os.ReadFile], with the failure of a file that is there, if any. *)
Definition ReadFile (d : disk) (fault : option error) (path : string) : result (list Z) :=
  match d !! path, fault with
  | None, _ => Err os_ErrNotExist
  | Some _, Some e => Err e
  | Some c, None => Ok c
  end.

Definition load_credentials st (d : disk) (fault : option error) (s : St) : result St :=
  if no_username s && negb (bool_decide (credentialsPath st = "")) then
    match ReadFile d fault (credentialsPath st) with
    | Ok content =>
      match decode_credentials content s with
      | Ok s => Ok s
      | Err e => Err (EWrap "failed unmarshalling stored credentials file" e)
      end
    | Err e => if errors_Is e os_ErrNotExist then Ok s else Err (EWrap "failed reading credentials file" e)
    end
  else Ok s.

Definition Load st (d : disk) (fault1 fault2 : option error) : result St :=
  match ReadFile d fault1 (statePath st) with
  | Ok content =>
    match decode content with
    | Ok s => load_credentials st d fault2 s
    | Err e => Err (EWrap "failed unmarshalling state file" e)
    end
  | Err e =>
    if errors_Is e os_ErrNotExist then load_credentials st d fault2 empty else Err (EWrap "failed reading state file" e)
  end.

(** How the calls of one [Save] end. *)
Record Faults := MkFaults {
  f_create : option error; f_write : option error; f_close : option error;
  f_rename1 : option error; f_remove : option error; f_rename2 : option error
}.

Definition rename (src dest : string) (d : disk) : disk :=
  match d !! src with Some c => <[dest := c]> (delete src d) | None => d end.

Definition replaceFile (f : Faults) (src dest : string) (d : disk) : disk * option error :=
  match f_rename1 f with
  | None => (rename src dest d, None)
  | Some _ =>
    match (match f_remove f with Some e => if errors_Is e os_ErrNotExist then None else Some e | None => None end) with
    | Some e => (d, Some e)
    | None =>
      let d := match f_remove f with Some _ => d | None => delete dest d end in
      match f_rename2 f with
      | None => (rename src dest d, None)
      | Some e => (d, Some e)
      end
    end
  end.

(** [tmp] is the name the operating system gave the temporary file; [partial]
    what a failing write left in it. *)
Definition Save st (tmp : string) (partial : list Z) (f : Faults) (s : St) (d : disk) : disk * option error :=
  match f_create f with
  | Some e => (d, Some (EWrap "failed creating temporary file for app state" e))
  | None =>
    match f_write f with
    | Some e => (delete tmp (<[tmp := partial]> d), Some (EWrap "failed writing marshalled app state" e))
    | None =>
      let d := <[tmp := encode s]> d in
      match f_close f with
      | Some e => (delete tmp d, Some (EWrap "failed closing temporary app state file" e))
      | None =>
        let '(d, err) := replaceFile f tmp (statePath st) d in
        match err with
        | Some e => (delete tmp d, Some (EWrap "failed replacing app state file" e))
        | None => (d, None)
        end
      end
    end
  end.

(** The disk after each step of a [Save] that nothing fails: where the program
    may die. *)
Definition save_trace st (tmp : string) (written : list (list Z)) (s : St) (d : disk) : list disk :=
  let d0 := <[tmp := []]> d in
  let d1 := <[tmp := encode s]> d in
  [d; d0] ++ ((fun part => <[tmp := part]> d) <$> written) ++ [d1; rename tmp (statePath st) d1].
End store.
Arguments FileStateStore : clear implicits.

(** ** Coalescing ([app.go])

    The state in memory, the flags, the goroutine that saves, and the state last
    saved. *)
Inductive saver := NoSaver | SaverAtTop | SaverSaving.

Record App (St : Type) := MkApp {
  app_state : St;
  saving : bool;
  saveDirty : bool;
  app_saver : list saver;
  app_disk : option St;
  save_failed : bool
}.
Arguments MkApp {St}.
Arguments app_state {St}.
Arguments saving {St}.
Arguments saveDirty {St}.
Arguments app_saver {St}.
Arguments app_disk {St}.
Arguments save_failed {St}.

Section persist.
Context {St : Type}.
Implicit Types (a : App St).

(** A change of the state and the request to save it. *)
Definition requestPersist (s : St) a : App St :=
  if saving a then MkApp s true true (app_saver a) (app_disk a) (save_failed a)
  else MkApp s true true (app_saver a ++ [SaverAtTop]) (app_disk a) (save_failed a).

(** The state is read and saved under the lock. *)
Definition persistState (err : option error) a : App St :=
  match err with
  | None => MkApp (app_state a) (saving a) (saveDirty a) (app_saver a) (Some (app_state a)) false
  | Some _ => MkApp (app_state a) (saving a) (saveDirty a) (app_saver a) (app_disk a) true
  end.

Definition set_saver (i : nat) (s : saver) (sv dirty : bool) a : App St :=
  MkApp (app_state a) sv dirty (<[i := s]> (app_saver a)) (app_disk a) (save_failed a).

(** One step of the [i]-th goroutine ever started. *)
Definition saver_step (i : nat) (err : option error) a : App St :=
  match app_saver a !! i with
  | Some SaverAtTop =>
    if saveDirty a then set_saver i SaverSaving (saving a) false a else set_saver i NoSaver false (saveDirty a) a
  | Some SaverSaving => set_saver i SaverAtTop (saving a) (saveDirty a) (persistState err a)
  | _ => a
  end.

Inductive persist_label := PRequest (s : St) | PSaver (i : nat) (err : option error).

Definition persist_step (a : App St) (l : persist_label) : App St :=
  match l with PRequest s => requestPersist s a | PSaver i err => saver_step i err a end.
End persist.
