(* ===== verification/StateStoreClaims.v ===== *)
(** * The saved state: theorems

    A save is atomic and read back; a failed one keeps the old state, but for
    one case; and the last state asked to be saved is. *)

From S2P Require Import Prelude StateStore.
#[local] Open Scope string_scope.
#[local] Open Scope list_scope.

Section save.
Context {St : Type} (encode : St -> list Z) (decode : list Z -> result St) (empty : St).
Context (no_username : St -> bool) (decode_credentials : list Z -> St -> result St).

Lemma rename_new src dest c (d : gmap string (list Z)) : src <> dest -> rename src dest (<[src := c]> d) !! dest = Some c.
Proof. intros Hne; unfold rename; rewrite lookup_insert_eq; by rewrite lookup_insert_eq. Qed.

Lemma Save_cases st tmp partial f s d d' err :
  tmp <> statePath st -> d !! tmp = None ->
  Save encode st tmp partial f s d = (d', err) ->
  match err with
  | None => d' = <[statePath st := encode s]> d
  | Some _ => d' = d \/ (d' = delete (statePath st) d /\ f_rename1 f <> None /\ f_remove f = None /\ f_rename2 f <> None)
  end.
Proof.
  intros Hne Hnew; unfold Save, replaceFile.
  assert (Hdel : forall c, delete tmp (<[tmp := c]> d) = d) by (intros; by rewrite delete_insert_id).
  assert (Hren : forall c, rename tmp (statePath st) (<[tmp := c]> d) = <[statePath st := c]> d).
  { intros c; unfold rename; by rewrite lookup_insert_eq, Hdel. }
  assert (Hren2 : forall c, rename tmp (statePath st) (delete (statePath st) (<[tmp := c]> d)) = <[statePath st := c]> d).
  { intros c; unfold rename; rewrite lookup_delete_ne, lookup_insert_eq by done.
    rewrite delete_delete, Hdel; by rewrite insert_delete_eq. }
  destruct (f_create f); [intros [= <- <-]; by left|].
  destruct (f_write f); [intros [= <- <-]; left; apply Hdel|].
  destruct (f_close f); [intros [= <- <-]; left; apply Hdel|].
  destruct (f_rename1 f) as [e1|] eqn:H1; [|intros [= <- <-]; apply Hren].
  destruct (f_remove f) as [e|] eqn:H2; [destruct (errors_Is e os_ErrNotExist)|].
  - destruct (f_rename2 f) eqn:H3; [intros [= <- <-]; left; apply Hdel|].
    intros [= <- <-]; apply Hren.
  - intros [= <- <-]; left; apply Hdel.
  - destruct (f_rename2 f) eqn:H3; [|intros [= <- <-]; apply Hren2].
    intros [= <- <-]; right; split_and!; try done; rewrite delete_delete; by rewrite Hdel.
Qed.

Lemma load_saved st d s : decode (encode s) = Ok s -> no_username s = false ->
  Load decode empty no_username decode_credentials st (<[statePath st := encode s]> d) None None = Ok s.
Proof.
  intros Hd Hu; unfold Load, ReadFile; rewrite lookup_insert_eq, Hd.
  unfold load_credentials; by rewrite Hu.
Qed.
End save.

Definition no_faults : Faults := MkFaults None None None None None None.


Definition demo_store : FileStateStore := MkStore "state.json" "".

Definition demo_decode (l : list Z) : result Z := match l with [z] => Ok z | _ => Err (EMsg "invalid") end.


(** A save that fails keeps the old state; but when the new file cannot take the
    place of the old one even after that was removed, both are gone. *)
Theorem failed_save_keeps_state {St : Type} (encode : St -> list Z) (st : FileStateStore) (tmp : string) (partial : list Z)
    (f : Faults) (s : St) (d d' : gmap string (list Z)) (e : error) :
  tmp <> statePath st -> d !! tmp = None -> Save encode st tmp partial f s d = (d', Some e) ->
  d' = d \/ (d' = delete (statePath st) d /\ f_rename1 f <> None /\ f_remove f = None /\ f_rename2 f <> None).
Proof. intros Hne Hnew Hs; by apply Save_cases in Hs. Qed.

Lemma failed_save_keeps_state_witness :
  let busy := EMsg "busy" in
  exists d', Save (fun z : Z => [z]) demo_store "state.json.1.tmp" [] (MkFaults None None None (Some busy) None (Some busy)) 7%Z
    {[ "state.json" := [1%Z] ]} = (d', Some (EWrap "failed replacing app state file" busy)) /\ d' = ∅ /\
    (d' = {[ "state.json" := [1%Z] ]} \/ (d' = delete "state.json" {[ "state.json" := [1%Z] ]} /\
      Some busy <> None /\ @None error = None /\ Some busy <> None)).
Proof.
  eexists; split; [vm_compute; reflexivity|split; [reflexivity|]].
  apply (failed_save_keeps_state (fun z : Z => [z]) demo_store "state.json.1.tmp" []
    (MkFaults None None None (Some (EMsg "busy")) None (Some (EMsg "busy"))) 7%Z {[ "state.json" := [1%Z] ]} _
    (EWrap "failed replacing app state file" (EMsg "busy"))); [discriminate|reflexivity|vm_compute; reflexivity].
Defined.

(** ** Coalescing *)
Section persist.
Context {St : Type}.
Implicit Types (a : App St).

Definition live (s : saver) : bool := match s with NoSaver => false | _ => true end.

(** At most one goroutine saves, it is there whenever a save is owed, and
    otherwise the disk holds the state. *)
Record persist_inv a : Prop := {
  pi_one : forall i j x y, app_saver a !! i = Some x -> app_saver a !! j = Some y -> live x = true -> live y = true -> i = j;
  pi_live : saving a = true <-> exists i x, app_saver a !! i = Some x /\ live x = true;
  pi_dirty : saveDirty a = true -> saving a = true;
  pi_saved : saveDirty a = false -> (exists i, app_saver a !! i = Some SaverSaving) \/ app_disk a = Some (app_state a) \/
             save_failed a = true \/ app_saver a = []
}.

Lemma init_persist s : persist_inv (MkApp s false false [] None false).
Proof. split; simpl; try done; [split; [done|]; intros (i & x & Hx & _); done|auto]. Qed.

Lemma request_inv s a : persist_inv a -> persist_inv (requestPersist s a).
Proof.
  intros [H1 H2 H3 H4]; unfold requestPersist; destruct (saving a) eqn:Hs; split; simpl; try done.
  - intros i j x y Hi Hj Hx Hy.
    assert (Hn : forall k z, app_saver a !! k = Some z -> live z = true -> False).
    { intros k z Hk Hz; assert (false = true) by (apply H2; eauto); done. }
    apply lookup_app_Some in Hi as [Hi|[Hli Hi]]; [exfalso; eauto|].
    apply lookup_app_Some in Hj as [Hj|[Hlj Hj]]; [exfalso; eauto|].
    destruct (i - length (app_saver a))%nat eqn:Ei, (j - length (app_saver a))%nat eqn:Ej; simpl in *; try done; lia.
  - split; [|done]; intros _; exists (length (app_saver a)), SaverAtTop; split; [by apply list_lookup_middle|done].
Qed.

Lemma saver_inv i err a : persist_inv a -> persist_inv (saver_step i err a).
Proof.
  intros Ha; pose proof Ha as [H1 H2 H3 H4]; unfold saver_step.
  destruct (app_saver a !! i) as [[]|] eqn:Hi; [done| | |done].
  - assert (Hlt : (i < length (app_saver a))%nat) by (by eapply lookup_lt_Some).
    destruct (saveDirty a) eqn:Hd; split; simpl.
    + intros j k x y Hj Hk Hx Hy; apply list_lookup_insert_Some in Hj as [(? & ? & _)|[Hj1 Hj]];
        apply list_lookup_insert_Some in Hk as [(? & ? & _)|[Hk1 Hk]]; subst; eauto.
    + split; [|intros _; apply H2; eauto]; intros _; exists i, SaverSaving; by rewrite list_lookup_insert_eq.
    + done.
    + intros _; left; exists i; by rewrite list_lookup_insert_eq.
    + intros j k x y Hj Hk Hx Hy; apply list_lookup_insert_Some in Hj as [(? & ? & _)|[Hj1 Hj]];
        apply list_lookup_insert_Some in Hk as [(? & ? & _)|[Hk1 Hk]]; subst; eauto; done.
    + split; [done|]; intros (j & x & Hj & Hx); apply list_lookup_insert_Some in Hj as [(? & ? & _)|[Hj1 Hj]]; [subst; done|].
      exfalso; apply Hj1; eauto.
    + congruence.
    + intros _; destruct (H4 eq_refl) as [(j & Hj)|[?|[?|Hn]]]; [|auto|auto|by rewrite Hn in Hi].
      exfalso; assert (j = i) by eauto; subst; congruence.
  - assert (Hlt : (i < length (app_saver a))%nat) by (by eapply lookup_lt_Some).
    assert (Hsv : saving a = true) by (apply H2; eauto).
    destruct err; split; simpl.
    all: try (intros j k x y Hj Hk Hx Hy; apply list_lookup_insert_Some in Hj as [(? & ? & _)|[Hj1 Hj]];
        apply list_lookup_insert_Some in Hk as [(? & ? & _)|[Hk1 Hk]]; subst; by eauto).
    all: try (split; [intros _; exists i, SaverAtTop; by rewrite list_lookup_insert_eq|done]).
    all: auto.
Qed.
End persist.

(** C32: However requests to save and the steps of the saving goroutine interleave:
    when none is at work and the last save did not fail, the disk holds the
    state as it was last asked to be saved; and never do two work at once. *)
Theorem last_state_saved {St : Type} (s0 : St) (ls : list persist_label) :
  let a := foldl persist_step (MkApp s0 false false [] None false) ls in
  (forall i j x y, app_saver a !! i = Some x -> app_saver a !! j = Some y -> live x = true -> live y = true -> i = j) /\
  (Forall (fun x => live x = false) (app_saver a) -> app_saver a <> [] -> save_failed a = false ->
   app_disk a = Some (app_state a)).
Proof.
  intros a; assert (Ha : persist_inv a).
  { unfold a; clear a; generalize (init_persist s0); generalize (MkApp s0 false false [] (@None St) false).
    induction ls as [|[s|i err] ls IH]; intros a0 H0; simpl; [done|apply IH; by apply request_inv|apply IH; by apply saver_inv]. }
  destruct Ha as [H1 H2 H3 H4]; split; [done|]; intros Hidle Hne Hok.
  rewrite Forall_lookup in Hidle.
  assert (Hs : saving a = false).
  { destruct (saving a); [|done]; destruct (proj1 H2 eq_refl) as (i & x & Hi & Hx); apply Hidle in Hi; congruence. }
  assert (Hd : saveDirty a = false) by (destruct (saveDirty a); [by rewrite Hs in H3; specialize (H3 eq_refl)|done]).
  destruct (H4 Hd) as [(i & Hi)|[?|[?|?]]]; [apply Hidle in Hi; done|done|congruence|done].
Qed.

Lemma last_state_saved_witness :
  let a := foldl persist_step (MkApp 0%Z false false [] None false)
    [PRequest 1%Z; PSaver 0 None; PRequest 2%Z; PSaver 0 None; PSaver 0 None; PSaver 0 None; PSaver 0 None] in
  (forall i j x y, app_saver a !! i = Some x -> app_saver a !! j = Some y -> live x = true -> live y = true -> i = j) /\
  app_disk a = Some 2%Z.
Proof.
  intros a; destruct (last_state_saved 0%Z
    [PRequest 1%Z; PSaver 0 None; PRequest 2%Z; PSaver 0 None; PSaver 0 None; PSaver 0 None; PSaver 0 None]) as [H1 H2].
  split; [exact H1|]; apply H2; [repeat constructor|discriminate|reflexivity].
Defined.
