(* ===== verification/ApLoop.v ===== *)
(** * The accesspoint's receive loop ([Receive], [recvLoop], [reconnect] and [Close]
    of [src/ap/ap.go])

    The receivers, the goroutine that serves them and reconnects, and the calls
    of the users, interleaved.  What the connection gives, and how a reconnection
    ends, are part of a step's label; the handshake is in [Accesspoint]. *)

From S2P Require Import Prelude Conn.
#[local] Open Scope string_scope.
#[local] Open Scope list_scope.

(** Where the goroutine is: not started, about to read, handing a packet to the
    receivers left, past the loop, reconnecting, about to close the receivers,
    or gone. *)
Inductive loop_pc :=
| LoopOff
| LoopTop
| LoopDispatch (pkt : Packet) (chs : list nat)
| LoopEnd
| LoopReconnecting
| LoopClosing
| LoopGone.

(** [r_pending] are calls of [Receive] that found the accesspoint open and have
    still to register; [r_sent] is what was sent to each channel, [r_read] the
    packets for receivers that were read. *)
Record receivers := MkReceivers {
  r_done : bool;
  r_chans : recv_chans;
  r_next : nat;
  r_pending : list (nat * list Z);
  r_loop : loop_pc;
  r_read : list Packet;
  r_sent : list (nat * Packet);
  r_closed : list nat;
  r_conns : nat
}.

Definition set_loop (pc : loop_pc) (r : receivers) : receivers :=
  MkReceivers (r_done r) (r_chans r) (r_next r) (r_pending r) pc (r_read r) (r_sent r) (r_closed r) (r_conns r).
Definition set_done (r : receivers) : receivers :=
  MkReceivers true (r_chans r) (r_next r) (r_pending r) (r_loop r) (r_read r) (r_sent r) (r_closed r) (r_conns r).

Definition NewAccesspoint : receivers := MkReceivers false ∅ 0 [] LoopOff [] [] [] 1.

Definition registered (r : receivers) : list nat := mjoin (snd <$> map_to_list (r_chans r)).

(** [Receive] up to the check: a channel of a closed accesspoint is closed at
    once.  A reconnection holds the lock it needs. *)
Definition Receive_check (types : list Z) (r : receivers) : receivers :=
  match r_loop r with
  | LoopReconnecting => r
  | _ =>
    let ch := r_next r in
    if r_done r
    then MkReceivers (r_done r) (r_chans r) (S ch) (r_pending r) (r_loop r) (r_read r) (r_sent r) (r_closed r ++ [ch]) (r_conns r)
    else MkReceivers (r_done r) (r_chans r) (S ch) (r_pending r ++ [(ch, types)]) (r_loop r) (r_read r) (r_sent r) (r_closed r) (r_conns r)
  end.

(** And the rest: the channel is registered, and the loop started the first
    time. *)
Definition Receive_register (i : nat) (r : receivers) : receivers :=
  match r_pending r !! i with
  | None => r
  | Some (ch, types) =>
    MkReceivers (r_done r) (Conn.Receive (r_chans r) types ch) (r_next r) (delete i (r_pending r))
      (match r_loop r with LoopOff => LoopTop | pc => pc end) (r_read r) (r_sent r) (r_closed r) (r_conns r)
  end.

(** What a read gives: an error, or a packet and how the pong for it ends. *)
Inductive received := RecvErr | RecvPacket (pkt : Packet) (pongSent : bool).

Definition loop_read (got : received) (r : receivers) : receivers :=
  if r_done r then set_loop LoopEnd r
  else
    match got with
    | RecvErr => set_loop LoopEnd r
    | RecvPacket pkt pongSent =>
      match dispatch (r_chans r) pkt with
      | SendPong _ => set_loop (if pongSent then LoopTop else LoopEnd) r
      | NotePongAck => set_loop LoopTop r
      | Deliver chs _ =>
        MkReceivers (r_done r) (r_chans r) (r_next r) (r_pending r) (LoopDispatch pkt chs) (r_read r ++ [pkt]) (r_sent r) (r_closed r) (r_conns r)
      end
    end.

(** A send to the next receiver, unless the accesspoint is closed and the loop
    sees that first. *)
Definition loop_send (seesDone : bool) (pkt : Packet) (chs : list nat) (r : receivers) : run receivers :=
  match chs with
  | [] => Ret (set_loop LoopTop r)
  | ch :: chs =>
    if r_done r && seesDone then Ret (set_loop LoopEnd r)
    else if decide (ch ∈ r_closed r) then Panic "send on closed channel"
    else Ret (MkReceivers (r_done r) (r_chans r) (r_next r) (r_pending r) (LoopDispatch pkt chs) (r_read r)
                (r_sent r ++ [(ch, pkt)]) (r_closed r) (r_conns r))
  end.

(** Past the loop: the reconnection waits for calls that hold the lock. *)
Definition loop_end (r : receivers) : receivers :=
  if r_done r then set_loop LoopClosing r
  else match r_pending r with [] => set_loop LoopReconnecting r | _ => r end.

Definition loop_reconnect (ok : bool) (r : receivers) : receivers :=
  if ok
  then MkReceivers (r_done r) (r_chans r) (r_next r) (r_pending r) LoopTop (r_read r) (r_sent r) (r_closed r) (S (r_conns r))
  else set_loop LoopClosing (set_done r).

(** Every receiver is closed once, however many types it asked for. *)
Fixpoint close_all (chs closedChannels : list nat) (r : receivers) : run receivers :=
  match chs with
  | [] => Ret (set_loop LoopGone r)
  | ch :: chs =>
    if decide (ch ∈ closedChannels) then close_all chs closedChannels r
    else if decide (ch ∈ r_closed r) then Panic "close of closed channel"
    else close_all chs (closedChannels ++ [ch])
           (MkReceivers (r_done r) (r_chans r) (r_next r) (r_pending r) (r_loop r) (r_read r) (r_sent r) (r_closed r ++ [ch]) (r_conns r))
  end.

Inductive ap_label :=
| ApReceive (types : list Z)
| ApRegister (i : nat)
| ApClose
| ApLoop (got : received) (seesDone reconnects : bool).

Definition ap_step (l : ap_label) (r : receivers) : run receivers :=
  match l with
  | ApReceive types => Ret (Receive_check types r)
  | ApRegister i => Ret (Receive_register i r)
  | ApClose => Ret (set_done r)
  | ApLoop got seesDone reconnects =>
    match r_loop r with
    | LoopOff | LoopGone => Ret r
    | LoopTop => Ret (loop_read got r)
    | LoopDispatch pkt chs => loop_send seesDone pkt chs r
    | LoopEnd => Ret (loop_end r)
    | LoopReconnecting => Ret (loop_reconnect reconnects r)
    | LoopClosing => close_all (registered r) [] r
    end
  end.

Fixpoint ap_steps (ls : list ap_label) (r : receivers) : run receivers :=
  match ls with
  | [] => Ret r
  | l :: ls => r ← ap_step l r; ap_steps ls r
  end.
