(* ===== verification/ApLoopClaims.v ===== *)
(** * The accesspoint's receive loop: theorems

    No interleaving sends on a closed receiver or closes one twice; each
    receiver gets packets in the order they were read; a reconnection keeps the
    receivers.  And a receiver that registers too late is never closed. *)

From S2P Require Import Prelude Conn ApLoop.
#[local] Open Scope string_scope.
#[local] Open Scope list_scope.

Lemma elem_of_registered r ch : ch ∈ registered r <-> exists t chs, r_chans r !! t = Some chs /\ ch ∈ chs.
Proof.
  unfold registered; rewrite list_elem_of_join; split.
  - intros (chs & Hin & Hm); apply list_elem_of_fmap in Hm as ([t chs'] & -> & Hm); apply elem_of_map_to_list in Hm; eauto.
  - intros (t & chs & Ht & Hin); exists chs; split; [done|]; apply list_elem_of_fmap; exists (t, chs); by rewrite elem_of_map_to_list.
Qed.

Lemma Receive_registers types : forall m ch t chs, Conn.Receive m types ch !! t = Some chs ->
  forall c, c ∈ chs -> c = ch \/ exists t' chs', m !! t' = Some chs' /\ c ∈ chs'.
Proof.
  unfold Conn.Receive; induction types as [|t0 types IH]; intros m ch t chs Ht c Hc; simpl in Ht; [eauto|].
  destruct (IH _ _ _ _ Ht c Hc) as [?|(t' & chs' & Ht' & Hc')]; [by left|].
  apply lookup_insert_Some in Ht' as [[<- <-]|[_ Ht']]; [|eauto].
  apply elem_of_app in Hc' as [Hc'|Hc']; [|apply list_elem_of_singleton in Hc'; by left].
  destruct (m !! t0) as [chs0|] eqn:H0; simpl in Hc'; [eauto|by apply elem_of_nil in Hc'].
Qed.

(** Packets sent to one channel. *)
Definition to_chan (ch : nat) (sent : list (nat * Packet)) : list Packet := (filter (fun s => s.1 = ch) sent).*2.

Record ap_inv (r : receivers) : Prop := {
  av_old : forall ch, ch ∈ registered r \/ ch ∈ r_closed r \/ ch ∈ (r_pending r).*1 -> (ch < r_next r)%nat;
  av_pending : NoDup (r_pending r).*1;
  av_apart : forall ch, ch ∈ (r_pending r).*1 -> ch ∉ registered r /\ ch ∉ r_closed r;
  av_open : r_loop r <> LoopGone -> forall ch, ch ∈ registered r -> ch ∉ r_closed r;
  av_dispatch : forall pkt chs, r_loop r = LoopDispatch pkt chs -> forall ch, ch ∈ chs -> ch ∈ registered r
}.

(** Steps that touch neither the channels nor the calls. *)
Lemma ap_inv_same r r' : ap_inv r -> r_chans r' = r_chans r -> r_closed r' = r_closed r -> r_pending r' = r_pending r ->
  r_next r' = r_next r -> (r_loop r = LoopGone -> r_loop r' = LoopGone) ->
  (forall pkt chs, r_loop r' = LoopDispatch pkt chs -> forall ch, ch ∈ chs -> ch ∈ registered r) -> ap_inv r'.
Proof.
  intros [H1 H2 H3 H4 H5] Hc Hcl Hp Hn Hg Hd.
  assert (Hr : registered r' = registered r) by (unfold registered; by rewrite Hc).
  split; rewrite ?Hr, ?Hcl, ?Hp, ?Hn; auto.
Qed.

Lemma fresh_chan r : ap_inv r -> r_next r ∉ registered r /\ r_next r ∉ r_closed r /\ r_next r ∉ (r_pending r).*1.
Proof. intros [H1 _ _ _ _]; split_and!; intros Hin; assert (r_next r < r_next r)%nat by (apply H1; auto); lia. Qed.

Lemma check_inv types r : ap_inv r -> ap_inv (Receive_check types r).
Proof.
  intros Hi; pose proof Hi as [H1 H2 H3 H4 H5]; destruct (fresh_chan r Hi) as (Hf1 & Hf2 & Hf3).
  assert (Hold : forall ch, ch = r_next r \/ ch ∈ registered r \/ ch ∈ r_closed r \/ ch ∈ (r_pending r).*1 -> (ch < S (r_next r))%nat).
  { intros ch [->|Hch]; [lia|]; apply H1 in Hch; lia. }
  assert (Hgoal : ap_inv (let ch := r_next r in
    if r_done r
    then MkReceivers (r_done r) (r_chans r) (S ch) (r_pending r) (r_loop r) (r_read r) (r_sent r) (r_closed r ++ [ch]) (r_conns r)
    else MkReceivers (r_done r) (r_chans r) (S ch) (r_pending r ++ [(ch, types)]) (r_loop r) (r_read r) (r_sent r) (r_closed r) (r_conns r)));
    [|unfold Receive_check; destruct (r_loop r) eqn:Hl; try rewrite Hl in Hgoal; first [exact Hi|exact Hgoal]].
  cbv zeta; destruct (r_done r); split; unfold registered; cbn [r_chans r_closed r_pending r_next r_loop]; fold (registered r); try done.
  - intros ch [?|[[?|Hs%list_elem_of_singleton]%elem_of_app|?]]; apply Hold; auto.
  - intros ch Hch; destruct (H3 ch Hch) as [? Hnc]; split; [done|]; intros [?|Hs%list_elem_of_singleton]%elem_of_app; subst; auto.
  - intros Hl ch Hch; intros [Hc|Hs%list_elem_of_singleton]%elem_of_app; [by apply (H4 Hl ch)|by subst].
  - intros ch; rewrite fmap_app; intros [?|[?|[?|Hs%list_elem_of_singleton]%elem_of_app]]; apply Hold; auto.
  - rewrite fmap_app; apply NoDup_app; split_and!; [done| |apply NoDup_singleton].
    intros ch Hch Hs%list_elem_of_singleton; by subst.
  - intros ch; rewrite fmap_app; intros [Hch|Hs%list_elem_of_singleton]%elem_of_app; [by apply H3|by subst].
Qed.

Lemma register_inv i r : ap_inv r -> ap_inv (Receive_register i r).
Proof.
  intros Hi; pose proof Hi as [H1 H2 H3 H4 H5]; unfold Receive_register.
  destruct (r_pending r !! i) as [[ch0 types]|] eqn:Hp; [|done].
  set (r' := MkReceivers _ _ _ _ _ _ _ _ _).
  assert (Hin0 : ch0 ∈ (r_pending r).*1) by (apply list_elem_of_fmap; exists (ch0, types); split; [done|by eapply list_elem_of_lookup_2]).
  assert (Hreg : forall ch, ch ∈ registered r' -> ch = ch0 \/ ch ∈ registered r).
  { intros ch (t & chs & Ht & Hc)%elem_of_registered; destruct (Receive_registers _ _ _ _ _ Ht ch Hc) as [?|?]; [by left|right].
    by apply elem_of_registered. }
  assert (Hdel : r_pending r ≡ₚ (ch0, types) :: delete i (r_pending r)) by (by apply delete_Permutation).
  assert (Hnd : NoDup (ch0 :: (delete i (r_pending r)).*1)).
  { change (ch0 :: (delete i (r_pending r)).*1) with ((ch0, types) :: delete i (r_pending r)).*1; by rewrite <- Hdel. }
  assert (Hpend : forall ch, ch ∈ (delete i (r_pending r)).*1 -> ch <> ch0 /\ ch ∈ (r_pending r).*1).
  { intros ch Hch; apply NoDup_cons in Hnd as [Hn _]; split; [by intros ->|]; rewrite Hdel; by right. }
  assert (Hmono : forall ch, ch ∈ registered r -> ch ∈ registered r').
  { intros ch (t & chs & Ht & Hc)%elem_of_registered; apply elem_of_registered; unfold r'; cbn [r_chans].
    revert Ht Hc; clear; unfold Conn.Receive; generalize (r_chans r) as m.
    induction types as [|t0 types IH] in chs |- *; intros m Ht Hc; simpl; [eauto|].
    destruct (decide (t0 = t)) as [->|].
    - apply (IH (chs ++ [ch0])); [by rewrite Ht, lookup_insert_eq|apply elem_of_app; by left].
    - apply (IH chs); [by rewrite lookup_insert_ne|done]. }
  split; cbn [r_closed r_pending r_next r_loop].
  - intros ch [[->|Hch]%Hreg|[?|[_ ?]%Hpend]]; apply H1; auto.
  - by apply NoDup_cons in Hnd as [_ ?].
  - intros ch [Hne Hch]%Hpend; destruct (H3 ch Hch) as [Hnr Hnc]; split; [|done]; intros [?|?]%Hreg; done.
  - intros Hl ch [->|Hch]%Hreg; [by apply H3|]; apply H4; [|done]; intros Hg; apply Hl; unfold r'; cbn [r_loop]; by rewrite Hg.
  - intros pkt chs Hd ch Hch; apply Hmono; apply (H5 pkt chs); [|done]; revert Hd; unfold r'; cbn [r_loop]; by destruct (r_loop r).
Qed.

Definition with_closed (closed : list nat) (r : receivers) : receivers :=
  MkReceivers (r_done r) (r_chans r) (r_next r) (r_pending r) LoopGone (r_read r) (r_sent r) closed (r_conns r).

Lemma close_all_ok chs : forall dn r, (forall ch, ch ∈ chs -> ch ∈ r_closed r -> ch ∈ dn) ->
  exists closed', close_all chs dn r = Ret (with_closed closed' r) /\
    (forall ch, ch ∈ closed' -> ch ∈ r_closed r \/ ch ∈ chs) /\
    (forall ch, ch ∈ r_closed r -> ch ∈ closed') /\ (forall ch, ch ∈ chs -> ch ∈ dn \/ ch ∈ closed').
Proof.
  induction chs as [|c chs IH]; intros dn r Hdn; simpl.
  { exists (r_closed r); split_and!; [done|auto|auto|]; intros ch Hch; by apply elem_of_nil in Hch. }
  case_decide as Hc.
  - destruct (IH dn r) as (cl & -> & H1 & H2 & H3); [intros ch Hch; apply Hdn; by right|].
    exists cl; split_and!; [done| |done|].
    + intros ch Hch; destruct (H1 ch Hch); [by left|right; by right].
    + intros ch [->|Hch]%elem_of_cons; auto.
  - rewrite decide_False by (intros Hcl; apply Hc, Hdn; [by constructor|done]).
    set (r1 := MkReceivers _ _ _ _ _ _ _ _ _).
    destruct (IH (dn ++ [c]) r1) as (cl & -> & H1 & H2 & H3).
    { intros ch Hch [Hcl|Hs%list_elem_of_singleton]%elem_of_app; apply elem_of_app.
      - left; apply Hdn; [by right|done].
      - right; by apply list_elem_of_singleton. }
    assert (Hcin : c ∈ cl) by (apply H2; unfold r1; cbn; apply elem_of_app; right; by apply list_elem_of_singleton).
    exists cl; split_and!; [done| | |].
    + intros ch Hch; destruct (H1 ch Hch) as [[?|Hs%list_elem_of_singleton]%elem_of_app|?]; [by left|subst; right; by constructor|right; by right].
    + intros ch Hch; apply H2; unfold r1; cbn; apply elem_of_app; by left.
    + intros ch [->|Hch]%elem_of_cons; [by right|]; destruct (H3 ch Hch) as [[?|Hs%list_elem_of_singleton]%elem_of_app|?]; subst; auto.
Qed.

Lemma ap_step_ok l r : ap_inv r -> exists r', ap_step l r = Ret r' /\ ap_inv r'.
Proof.
  intros Hi; pose proof Hi as [H1 H2 H3 H4 H5]; destruct l as [types|i| |got sees reconnects]; simpl.
  - eexists; split; [done|by apply check_inv].
  - eexists; split; [done|by apply register_inv].
  - eexists; split; [done|]; by eapply ap_inv_same.
  - destruct (r_loop r) as [| |pkt chs| | | |] eqn:Hl.
    + by exists r.
    + eexists; split; [done|]; unfold loop_read.
      destruct (r_done r); [eapply ap_inv_same; eauto; simpl; congruence|].
      destruct got as [|pkt pong]; [eapply ap_inv_same; eauto; simpl; congruence|].
      unfold dispatch; repeat case_decide; simpl; [destruct pong|..]; eapply ap_inv_same; eauto; simpl; try congruence.
      intros pkt' chs' [= <- <-] ch Hch; apply elem_of_registered.
      destruct (r_chans r !! pkt_Type pkt) as [chs|] eqn:Ht; [eauto|by apply elem_of_nil in Hch].
    + unfold loop_send; destruct chs as [|ch chs]; [eexists; split; [done|]; eapply ap_inv_same; eauto; simpl; congruence|].
      destruct (r_done r && sees); [eexists; split; [done|]; eapply ap_inv_same; eauto; simpl; congruence|].
      rewrite decide_False by (apply H4; [congruence|eapply H5; [done|by constructor]]).
      eexists; split; [done|]; eapply ap_inv_same; eauto; simpl; [congruence|].
      intros pkt' chs' [= <- <-] c Hc; eapply H5; [done|by right].
    + eexists; split; [done|]; unfold loop_end; destruct (r_done r); [|destruct (r_pending r) eqn:Hp; [|done]];
        eapply ap_inv_same; eauto; simpl; congruence.
    + eexists; split; [done|]; unfold loop_reconnect; destruct reconnects; eapply ap_inv_same; eauto; simpl; congruence.
    + destruct (close_all_ok (registered r) [] r) as (cl & -> & Hc1 & Hc2 & _).
      { intros ch Hch Hcl; exfalso; by apply (H4 ltac:(congruence) ch). }
      eexists; split; [done|]; split; unfold registered; cbn [with_closed r_chans r_closed r_pending r_next r_loop]; fold (registered r); try done.
      * intros ch [?|[Hcl|?]]; [apply H1; auto| |apply H1; auto]; apply Hc1 in Hcl as [?|?]; apply H1; auto.
      * intros ch Hch; destruct (H3 ch Hch); split; [done|]; intros [?|?]%Hc1; done.
    + by exists r.
Qed.

Lemma new_inv : ap_inv NewAccesspoint.
Proof.
  assert (Hr : registered NewAccesspoint = []) by reflexivity.
  split; rewrite ?Hr; simpl; try done.
  - intros ch; rewrite !elem_of_nil; tauto.
  - by apply NoDup_nil.
  - intros ch Hch; by apply elem_of_nil in Hch.
  - intros _ ch Hch; by apply elem_of_nil in Hch.
Qed.

(** ** Order *)

(** Every receiver is registered once for a type, when no call names a type
    twice; what is sent to it is what was read, in that order, with the packet at
    hand to come. *)
Record order_inv (r : receivers) : Prop := {
  ov_types : Forall (fun p => NoDup p.2) (r_pending r);
  ov_once : forall t chs, r_chans r !! t = Some chs -> NoDup chs;
  ov_dispatch : forall pkt chs, r_loop r = LoopDispatch pkt chs -> NoDup chs;
  ov_order : forall ch, sublist (to_chan ch (r_sent r) ++
    match r_loop r with LoopDispatch pkt chs => if decide (ch ∈ chs) then [pkt] else [] | _ => [] end) (r_read r)
}.

Lemma to_chan_app ch a b : to_chan ch (a ++ b) = to_chan ch a ++ to_chan ch b.
Proof. unfold to_chan; by rewrite filter_app, fmap_app. Qed.

Lemma Receive_once types : forall m ch, NoDup types -> (forall t chs, m !! t = Some chs -> NoDup chs) ->
  (forall t chs, t ∈ types -> m !! t = Some chs -> ch ∉ chs) ->
  forall t chs, Conn.Receive m types ch !! t = Some chs -> NoDup chs.
Proof.
  unfold Conn.Receive; induction types as [|t0 types IH]; intros m ch Hnd Hm Hn t chs Ht; simpl in Ht; [eauto|].
  apply NoDup_cons in Hnd as [Ht0 Hnd].
  eapply (IH _ ch Hnd); [| |exact Ht].
  - intros t' chs' [[<- <-]|[_ Ht']]%lookup_insert_Some; [|eauto].
    destruct (m !! t0) as [c0|] eqn:H0; simpl; [|apply NoDup_singleton].
    apply NoDup_app; split_and!; [eauto| |apply NoDup_singleton].
    intros c Hc Hs%list_elem_of_singleton; subst; eapply Hn; [by constructor|done|done].
  - intros t' chs' Hin [[<- _]|[_ Ht']]%lookup_insert_Some; [done|]; eapply Hn; [by right|done].
Qed.

Lemma order_same r r' : order_inv r -> r_chans r' = r_chans r -> r_pending r' = r_pending r -> r_sent r' = r_sent r ->
  r_read r' = r_read r -> (r_loop r' = r_loop r \/ forall pkt chs, r_loop r' <> LoopDispatch pkt chs) -> order_inv r'.
Proof.
  intros [H1 H2 H3 H4] Hc Hp Hs Hr Hl; split; rewrite ?Hc, ?Hp, ?Hs, ?Hr; [done|done| |].
  - intros pkt chs Hd; destruct Hl as [Hl|Hl]; [apply (H3 pkt); by rewrite <- Hl|by apply Hl in Hd].
  - intros ch; specialize (H4 ch); destruct Hl as [->|Hl]; [done|].
    assert (Hsub : sublist (to_chan ch (r_sent r)) (r_read r)) by (etransitivity; [|exact H4]; by apply sublist_inserts_r).
    destruct (r_loop r') as [| |pkt chs| | | |]; try (by rewrite app_nil_r); by destruct (Hl pkt chs).
Qed.

Definition distinct_types (l : ap_label) : Prop := match l with ApReceive types => NoDup types | _ => True end.

Lemma order_step l r r' : ap_inv r -> order_inv r -> distinct_types l -> ap_step l r = Ret r' -> order_inv r'.
Proof.
  intros Hi Ho Hd Hs; pose proof Ho as [O1 O2 O3 O4]; destruct l as [types|i| |got sees reconnects]; simpl in Hs.
  - injection Hs as <-.
    assert (Hgoal : forall r', (r' = r \/ exists cl pend nx, r' = MkReceivers (r_done r) (r_chans r) nx pend (r_loop r) (r_read r) (r_sent r) cl (r_conns r) /\
              Forall (fun p => NoDup p.2) pend) -> order_inv r').
    { intros r' [->|(cl & pend & nx & -> & Hp)]; [done|]; by split. }
    apply Hgoal; unfold Receive_check; destruct (r_loop r); [right..|left; done|right|right]; destruct (r_done r); eexists _, _, _;
      (split; [reflexivity|]); first [exact O1|apply Forall_app; split; [exact O1|by repeat constructor]].
  - injection Hs as <-; unfold Receive_register; destruct (r_pending r !! i) as [[ch0 types]|] eqn:Hp; [|done].
    assert (Hnd : NoDup types) by (apply (Forall_lookup_1 _ _ _ _ O1 Hp)).
    assert (Hin0 : ch0 ∈ (r_pending r).*1) by (apply list_elem_of_fmap; exists (ch0, types); split; [done|by eapply list_elem_of_lookup_2]).
    destruct (av_apart _ Hi ch0 Hin0) as [Hnr _].
    split; cbn [r_pending r_chans r_loop r_sent r_read].
    + apply Forall_delete, O1.
    + eapply Receive_once; [done|exact O2|]; intros t chs _ Ht Hc; apply Hnr, elem_of_registered; eauto.
    + intros pkt chs Hl; apply (O3 pkt); by destruct (r_loop r).
    + intros ch; specialize (O4 ch); by destruct (r_loop r).
  - injection Hs as <-; eapply order_same; eauto.
  - destruct (r_loop r) as [| |pkt chs| | | |] eqn:Hl; [injection Hs as <-; done|..].
    + injection Hs as <-; unfold loop_read; destruct (r_done r); [eapply order_same; eauto|].
      destruct got as [|pkt pong]; [eapply order_same; eauto|].
      unfold dispatch; repeat case_decide; simpl; [destruct pong; eapply order_same; eauto|eapply order_same; eauto|].
      split; cbn [r_pending r_chans r_loop r_sent r_read]; [done|done| |].
      * intros p c [= <- <-]; destruct (r_chans r !! pkt_Type pkt) eqn:Ht; simpl; [by eapply O2|by apply NoDup_nil].
      * intros ch; specialize (O4 ch); rewrite app_nil_r in O4; apply sublist_app; [done|]; case_decide; [done|apply sublist_nil_l].
    + unfold loop_send in Hs; destruct chs as [|c chs]; [injection Hs as <-; eapply order_same; eauto|].
      destruct (r_done r && sees); [injection Hs as <-; eapply order_same; eauto|].
      case_decide; [done|]; injection Hs as <-.
      assert (Hnd : NoDup (c :: chs)) by (by apply (O3 pkt)); apply NoDup_cons in Hnd as [Hnc Hnd].
      split; cbn [r_pending r_chans r_loop r_sent r_read]; [done|done|by intros p c' [= <- <-]|].
      intros ch; specialize (O4 ch); rewrite to_chan_app, <- app_assoc; unfold to_chan at 2.
      destruct (decide (c = ch)) as [->|Hne].
      * rewrite filter_cons_True, filter_nil by done; simpl; rewrite decide_False by done.
        by rewrite decide_True in O4 by (by constructor).
      * rewrite filter_cons_False, filter_nil by done; simpl.
        rewrite (decide_ext _ (ch ∈ chs)) in O4; [done|]; rewrite elem_of_cons; naive_solver.
    + injection Hs as <-; unfold loop_end; destruct (r_done r); [eapply order_same; eauto|].
      destruct (r_pending r) eqn:Hp; [eapply order_same; eauto|done].
    + injection Hs as <-; unfold loop_reconnect; destruct reconnects; eapply order_same; eauto.
    + destruct (close_all_ok (registered r) [] r) as (cl & Hc & _); [|rewrite Hc in Hs; injection Hs as <-; eapply order_same; eauto].
      intros ch Hch Hcl; exfalso; by apply (av_open _ Hi ltac:(congruence) ch).
    + by injection Hs as <-.
Qed.

(** C19: However the calls of the users, reconnections, closings and the receive loop
    interleave, nothing is sent on a closed receiver and none is closed twice;
    each receiver gets packets in the order they were read, each at most once;
    and until the loop is gone the receivers stay open. *)
Theorem receivers_served_in_order (ls : list ap_label) :
  Forall distinct_types ls ->
  exists r, ap_steps ls NewAccesspoint = Ret r /\
    (forall ch, sublist (to_chan ch (r_sent r)) (r_read r)) /\
    (r_loop r <> LoopGone -> forall ch, ch ∈ registered r -> ch ∉ r_closed r).
Proof.
  intros Hls; assert (Hrun : forall ls r, Forall distinct_types ls -> ap_inv r -> order_inv r ->
            exists r', ap_steps ls r = Ret r' /\ ap_inv r' /\ order_inv r').
  { clear; induction ls as [|l ls IH]; intros r Hls Hi Ho; simpl; [eauto|].
    apply Forall_cons in Hls as [Hl Hls]; destruct (ap_step_ok l r Hi) as (r1 & Hs & Hi1); rewrite Hs; simpl.
    apply IH; [done|done|by apply (order_step l r)]. }
  destruct (Hrun ls NewAccesspoint Hls new_inv) as (r & Hr & Hi & Ho).
  { split; simpl; [constructor|intros t chs Ht; by rewrite lookup_empty in Ht|done|intros ch; constructor]. }
  exists r; split_and!; [done| |apply (av_open _ Hi)].
  intros ch; etransitivity; [|apply (ov_order _ Ho ch)]; by apply sublist_inserts_r.
Qed.

Definition ap_demo : list ap_label :=
  let read t := ApLoop (RecvPacket (MkPacket t [t]) true) false true in
  let go := ApLoop RecvErr false true in
  [ApReceive [2; 3]%Z; ApRegister 0; read 2%Z; go; go; ApReceive [3]%Z; ApRegister 0; read 3%Z; go; go; go; go; go; go; read 3%Z; go; ApClose; go; go;
   ApLoop RecvErr true true; go; go; go].

Lemma receivers_served_in_order_witness :
  exists r, ap_steps ap_demo NewAccesspoint = Ret r /\
    (forall ch, sublist (to_chan ch (r_sent r)) (r_read r)) /\
    (r_loop r <> LoopGone -> forall ch, ch ∈ registered r -> ch ∉ r_closed r).
Proof.
  apply (receivers_served_in_order ap_demo); unfold ap_demo; cbv zeta.
  repeat (apply Forall_cons; split; [first [exact I|apply NoDup_singleton|apply NoDup_cons; split; [intros Hin; apply list_elem_of_singleton in Hin; discriminate Hin|apply NoDup_singleton]]|]); apply Forall_nil; exact I.
Defined.

(** A call of [Receive] that finds the accesspoint open but registers after the
    loop has closed the receivers gets a channel that is never closed: its user
    waits for ever. *)
Theorem late_receiver_never_closed : exists ls r,
  ap_steps ls NewAccesspoint = Ret r /\ r_done r = true /\ r_loop r = LoopGone /\ 1%nat ∈ registered r /\ 1%nat ∉ r_closed r.
Proof.
  exists (let go := ApLoop RecvErr true true in
    [ApReceive [2]%Z; ApRegister 0; ApReceive [3]%Z; ApClose; go; go; go; ApRegister 0]).
  eexists; split; [vm_compute; reflexivity|split_and!; [done|done|..]].
  - apply elem_of_registered; exists 3%Z, [1%nat]; split; [reflexivity|by constructor].
  - intros Hin; apply list_elem_of_singleton in Hin; done.
Qed.
